(** * Judy arrays (judy64nb.c): a shallow embedding and its properties

    The trie engine of [src/judy64nb.c] is embedded over a byte-addressed
    little-endian memory.  Pointers are integers, [0] is [NULL]; the low
    three bits of a slot carry the node type.  Loops of the source are
    fixpoints that take an iteration budget. *)

From Stdlib Require Import ZArith Lia List Bool Sorted.
From stdpp Require Import base option list gmap.
Import ListNotations.
Local Open Scope Z_scope.

(** ** Build-time constants (header [judy64nb.h]) *)

(** Modelled from the spec: the header [judy64nb.h] is not part of the
    sources; the spec fixes the slot width W at 8 bytes, so a partial key
    is at most 8 bytes and its offset mask is 7. *)
Definition JUDY_key_size : Z := 8.
Definition JUDY_slot_size : Z := 8.
Definition JUDY_key_mask : Z := 7.

(** [#define JUDY_seg 65536]: the size of a segment *)
Definition JUDY_seg : Z := 65536.

(** Modelled from the spec: the segment header is declared in the header
    file; it holds a link and a 32-bit high-water mark, 16 bytes with
    padding. *)
Definition sizeof_JudySeg : Z := 16.

(** The remaining header constants are taken as a parameter of the
    development: the span payload and the size classes that radix and
    span nodes are allocated from. *)
Record Config := mkConfig {
  JUDY_span_bytes : Z;
  JUDY_radix_equiv : Z;
  JUDY_span_equiv : Z
}.

(** Modelled from the spec: span payload S = 28; a span (36 bytes) is
    served from the 64-byte class, a radix table (128 bytes) from the
    128-byte class. *)
Definition cfg_spec : Config := mkConfig 28 4 3.

(** The 64-bit layout with a span of three digits (24 bytes). *)
Definition cfg_lp64 : Config := mkConfig 24 4 2.

Definition JUDY_cache_line : Z := 8.

Definition JUDY_radix : Z := 0.
Definition JUDY_1 : Z := 1.
Definition JUDY_2 : Z := 2.
Definition JUDY_4 : Z := 3.
Definition JUDY_8 : Z := 4.
Definition JUDY_16 : Z := 5.
Definition JUDY_32 : Z := 6.
Definition JUDY_span : Z := 7.
Definition JUDY_max : Z := JUDY_32.

(** ** Machine integers *)

Definition u32 (x : Z) : Z := x mod 2 ^ 32.
Definition u64 (x : Z) : Z := x mod 2 ^ 64.
Definition u8 (x : Z) : Z := x mod 256.
(** conversion of an unsigned 32-bit value to [int] *)
Definition s32 (x : Z) : Z :=
  let y := u32 x in if y <? 2 ^ 31 then y else y - 2 ^ 32.

(** shifts of a 64-bit word; the count is taken modulo 64, as the target
    machines do (the source shifts by 64 when a digit is complete) *)
Definition shr64 (v n : Z) : Z := Z.shiftr v (n mod 64).
Definition shl64 (v n : Z) : Z := u64 (Z.shiftl v (n mod 64)).

(** [next & 0x07] and [next & JUDY_mask] *)
Definition tag_of (next : Z) : Z := Z.land next 7.
Definition base_of (next : Z) : Z := next - Z.land next 7.

Definition JudyMask (n : Z) : Z :=
  if (0 <? n) && (n <=? 8) then 2 ^ (8 * n) - 1 else 0.

(** ** The state: handle, memory, external allocator *)

Record JudyStack := mkFrame {
  fr_next : Z;          (* judy object *)
  fr_off : Z;           (* offset within key *)
  fr_slot : Z           (* slot within object *)
}.

Record JudySeg := mkSeg {
  seg_base : Z;         (* address of the segment *)
  seg_next : Z          (* next available offset *)
}.

(** The [Judy] handle together with the memory it lives in.  [root] is the
    address of the root slot ([judy->root] is an array); [seg] is the chain
    of segments, head first, the empty chain being [NULL]; [heap] lists the
    addresses the external allocator will hand out, [malloc] failing when it
    is empty. *)
Record Judy := mkJudy {
  root : Z;
  reuse : gmap Z Z;
  seg : list JudySeg;
  level : Z;
  max : Z;
  depth : Z;
  stack : gmap Z JudyStack;
  mem : gmap Z Z;
  heap : list Z
}.

Definition set_level (l : Z) (j : Judy) : Judy :=
  mkJudy (root j) (reuse j) (seg j) l (max j) (depth j) (stack j) (mem j) (heap j).
Definition set_stack (st : gmap Z JudyStack) (j : Judy) : Judy :=
  mkJudy (root j) (reuse j) (seg j) (level j) (max j) (depth j) st (mem j) (heap j).
Definition set_mem (m : gmap Z Z) (j : Judy) : Judy :=
  mkJudy (root j) (reuse j) (seg j) (level j) (max j) (depth j) (stack j) m (heap j).
Definition set_reuse (r : gmap Z Z) (j : Judy) : Judy :=
  mkJudy (root j) r (seg j) (level j) (max j) (depth j) (stack j) (mem j) (heap j).
Definition set_seg (sg : list JudySeg) (j : Judy) : Judy :=
  mkJudy (root j) (reuse j) sg (level j) (max j) (depth j) (stack j) (mem j) (heap j).
Definition set_heap (h : list Z) (j : Judy) : Judy :=
  mkJudy (root j) (reuse j) (seg j) (level j) (max j) (depth j) (stack j) (mem j) h.

(** *** Memory *)

Definition load8 (m : gmap Z Z) (a : Z) : Z := default 0 (m !! a).
Definition store8 (m : gmap Z Z) (a v : Z) : gmap Z Z := <[a := u8 v]> m.

Fixpoint load_le (n : nat) (m : gmap Z Z) (a : Z) : Z :=
  match n with
  | O => 0
  | S k => load8 m a + 256 * load_le k m (a + 1)
  end.

Fixpoint store_le (n : nat) (m : gmap Z Z) (a v : Z) : gmap Z Z :=
  match n with
  | O => m
  | S k => store_le k (store8 m a v) (a + 1) (v / 256)
  end.

(** a slot or a [judyvalue]: 8 bytes, least significant first *)
Definition load64 (m : gmap Z Z) (a : Z) : Z := load_le 8 m a.
Definition store64 (m : gmap Z Z) (a v : Z) : gmap Z Z := store_le 8 m a v.

Fixpoint memset0 (n : nat) (m : gmap Z Z) (a : Z) : gmap Z Z :=
  match n with
  | O => m
  | S k => memset0 k (store8 m a 0) (a + 1)
  end.

(** [memcpy]/[memmove]: the source bytes are read before any is written.
    The callers pass lengths that are not negative on every node a
    well-formed trie holds; a negative length, which C would convert to a
    huge [size_t], copies nothing here. *)
Fixpoint load_bytes (n : nat) (m : gmap Z Z) (a : Z) : list Z :=
  match n with
  | O => []
  | S k => load8 m a :: load_bytes k m (a + 1)
  end.

Fixpoint store_bytes (bs : list Z) (m : gmap Z Z) (a : Z) : gmap Z Z :=
  match bs with
  | [] => m
  | b :: r => store_bytes r (store8 m a b) (a + 1)
  end.

Definition memcpy (m : gmap Z Z) (dst src n : Z) : gmap Z Z :=
  store_bytes (load_bytes (Z.to_nat n) m src) m dst.

(** *** The caller's key buffer *)

Definition buf_get (buff : list Z) (i : Z) : Z :=
  if i <? 0 then 0 else default 0 (buff !! Z.to_nat i).

Fixpoint buf_le (n : nat) (buff : list Z) (i : Z) : Z :=
  match n with
  | O => 0
  | S k => buf_get buff i + 256 * buf_le k buff (i + 1)
  end.

(** [src[depth]]: the buffer read as an array of [judyvalue] *)
Definition src_get (buff : list Z) (d : Z) : Z := buf_le 8 buff (8 * d).

(** *** The cursor *)

Definition zero_frame : JudyStack := mkFrame 0 0 0.
Definition frame (j : Judy) (i : Z) : JudyStack := default zero_frame (stack j !! i).

Definition set_frame_next (v : Z) (j : Judy) : Judy :=
  let f := frame j (level j) in
  set_stack (<[level j := mkFrame v (fr_off f) (fr_slot f)]> (stack j)) j.
Definition set_frame_off (v : Z) (j : Judy) : Judy :=
  let f := frame j (level j) in
  set_stack (<[level j := mkFrame (fr_next f) v (fr_slot f)]> (stack j)) j.
Definition set_frame_slot (v : Z) (j : Judy) : Judy :=
  let f := frame j (level j) in
  set_stack (<[level j := mkFrame (fr_next f) (fr_off f) v]> (stack j)) j.

(** [if (judy->level < judy->max) judy->level++;] *)
Definition push_level (j : Judy) : Judy :=
  if level j <? max j then set_level (level j + 1) j else j.

(** [judy->level--] on an unsigned field *)
Definition pop_level (j : Judy) : Judy := set_level (u32 (level j - 1)) j.

(** result of one turn of a descent loop: [return p] or [continue] *)
Inductive turn (A : Type) : Type :=
| Return (p : Z) (j : Judy)
| Continue (a : A) (j : Judy).
Arguments Return {A} p j.
Arguments Continue {A} a j.

(** the variables a descent carries from one turn to the next *)
Record walk := mkWalk {
  w_next : Z; w_off : Z; w_depth : Z; w_test : Z
}.

Section WithConfig.
Context (cfg : Config).

Definition JudySize (t : Z) : Z :=
  if t =? 0 then JUDY_slot_size * 16
  else if t =? 1 then JUDY_slot_size + JUDY_key_size
  else if t =? 2 then 2 * JUDY_slot_size + 2 * JUDY_key_size
  else if t =? 3 then 4 * JUDY_slot_size + 4 * JUDY_key_size
  else if t =? 4 then 8 * JUDY_slot_size + 8 * JUDY_key_size
  else if t =? 5 then 16 * JUDY_slot_size + 16 * JUDY_key_size
  else if t =? 6 then 32 * JUDY_slot_size + 32 * JUDY_key_size
  else JUDY_span_bytes cfg + JUDY_slot_size.

(** [do { value <<= 8; if (off < max) value |= buff[off]; }
     while (++off & JUDY_key_mask);] *)
Fixpoint key_digit (n : nat) (buff : list Z) (kmax off value : Z) : Z * Z :=
  match n with
  | O => (value, off)
  | S k =>
      let value := u64 (value * 256) in
      let value := if off <? kmax then Z.lor value (buf_get buff off) else value in
      let off := u32 (off + 1) in
      if Z.land off JUDY_key_mask =? 0 then (value, off)
      else key_digit k buff kmax off value
  end.

(** [while (slot--) { test = key[slot] & JudyMask[keysize];
                      if (test <= value) break; }]
    returns the final [slot] and [test] *)
Fixpoint scan_down (n : nat) (m : gmap Z Z) (base keysize value slot test : Z)
  : Z * Z :=
  match n with
  | O => (slot, test)
  | S k =>
      if slot =? 0 then (-1, test)
      else
        let slot := slot - 1 in
        let test := Z.land (load64 m (base + slot * keysize)) (JudyMask keysize) in
        if test <=? value then (slot, test)
        else scan_down k m base keysize value slot test
  end.

(** [strncmp((char* )base, (char* )(buff + off), n)] *)
Fixpoint strncmp (fuel : nat) (m : gmap Z Z) (base : Z) (buff : list Z)
  (off n : Z) : Z :=
  match fuel with
  | O => 0
  | S k =>
      if n =? 0 then 0
      else
        let a := load8 m base in
        let b := buf_get buff off in
        if negb (a =? b) then a - b
        else if a =? 0 then 0
        else strncmp k m (base + 1) buff (off + 1) (n - 1)
  end.

(** leaf test shared by the linear cases:
    [(!judy->depth && !(value & 0xFF)) || (judy->depth && depth == judy->depth)] *)
Definition is_leaf_value (j : Judy) (value dpt : Z) : bool :=
  ((depth j =? 0) && (Z.land value 255 =? 0))
  || (negb (depth j =? 0) && (dpt =? depth j)).

(** leaf test of the radix cases:
    [(!judy->depth && !slot) || (judy->depth && depth == judy->depth)] *)
Definition is_leaf_slot (j : Judy) (slot dpt : Z) : bool :=
  ((depth j =? 0) && (slot =? 0))
  || (negb (depth j =? 0) && (dpt =? depth j)).

(** *** judy_slot: find slot and set up cursor *)

Definition judy_slot_turn (fuel : nat) (buff : list Z) (kmax : Z) (w : walk)
  (j : Judy) : turn walk :=
  let next := w_next w in
  let off := w_off w in
  let j := push_level j in
  let j := set_frame_next next j in
  let j := set_frame_off off j in
  let size := JudySize (tag_of next) in
  if tag_of next =? JUDY_radix then
    let table := base_of next in
    let '(slot, off) :=
      if negb (depth j =? 0) then
        let off := u32 (off + 1) in
        (Z.land (shr64 (src_get buff (w_depth w))
                   ((JUDY_key_size - Z.land off JUDY_key_mask) * 8)) 255, off)
      else if off <? kmax then (buf_get buff off, u32 (off + 1))
      else (0, off) in
    let j := set_frame_slot slot j in
    let next := load64 (mem j) (table + 8 * Z.shiftr slot 4) in
    if next =? 0 then Return 0 j
    else
      let table := base_of next in
      let dpt :=
        if negb (depth j =? 0) && (Z.land off JUDY_key_mask =? 0)
        then u32 (w_depth w + 1) else w_depth w in
      let cell := table + 8 * Z.land slot 15 in
      if is_leaf_slot j slot dpt then
        if negb (load64 (mem j) cell =? 0) then Return cell j else Return 0 j
      else Continue (mkWalk (load64 (mem j) cell) off dpt (w_test w)) j
  else if tag_of next =? JUDY_span then
    let node := base_of next + JudySize JUDY_span in
    let base := base_of next in
    let cnt := JUDY_span_bytes cfg in
    let tst := if s32 (kmax - off) <? cnt then s32 (kmax - off) else cnt in
    let value := strncmp fuel (mem j) base buff off (u64 tst) in
    if (value =? 0) && (tst <? cnt) && (load8 (mem j) (base + tst) =? 0)
    then Return (node - 8) j
    else if (value =? 0) && (tst =? cnt)
    then Continue (mkWalk (load64 (mem j) (node - 8)) (u32 (off + cnt))
                     (w_depth w) (w_test w)) j
    else Return 0 j
  else
    let base := base_of next in
    let node := base_of next + size in
    let keysize := JUDY_key_size - Z.land off JUDY_key_mask in
    let cnt := size / (8 + keysize) in
    let '(value, off, dpt) :=
      if negb (depth j =? 0) then
        (Z.land (src_get buff (w_depth w)) (JudyMask keysize),
         u32 (Z.lor off JUDY_key_mask + 1), u32 (w_depth w + 1))
      else
        let '(v, o) := key_digit 8 buff kmax off 0 in (v, o, w_depth w) in
    let '(slot, test) :=
      scan_down (S (Z.to_nat cnt)) (mem j) base keysize value cnt (w_test w) in
    let j := set_frame_slot slot j in
    if test =? value then
      if is_leaf_value j value dpt then Return (node - 8 * (slot + 1)) j
      else Continue (mkWalk (load64 (mem j) (node - 8 * (slot + 1))) off dpt test) j
    else Return 0 j.

Fixpoint judy_slot_loop (fuel : nat) (buff : list Z) (kmax : Z) (w : walk)
  (j : Judy) : Z * Judy :=
  match fuel with
  | O => (0, j)
  | S k =>
      if w_next w =? 0 then (0, j)
      else match judy_slot_turn (S k) buff kmax w j with
           | Return p j' => (p, j')
           | Continue w' j' => judy_slot_loop k buff kmax w' j'
           end
  end.

Definition judy_slot (fuel : nat) (buff : list Z) (kmax : Z) (j : Judy)
  : Z * Judy :=
  let next := load64 (mem j) (root j) in
  let j := set_level 0 j in
  judy_slot_loop fuel buff kmax (mkWalk next 0 0 0) j.

(** *** judy_first, judy_last: leftmost and rightmost leaf below a slot *)

(** [for (slot = 0; slot < cnt; slot++) if (node[-slot - 1]) break;] *)
Fixpoint first_used (n : nat) (m : gmap Z Z) (node cnt slot : Z) : Z :=
  match n with
  | O => slot
  | S k =>
      if slot <? cnt then
        if negb (load64 m (node - 8 * (slot + 1)) =? 0) then slot
        else first_used k m node cnt (slot + 1)
      else slot
  end.

(** the radix scan of [judy_first]: the slot it stops at, the last value
    assigned to [next], and whether it stopped on an occupied slot *)
Fixpoint first_radix (n : nat) (m : gmap Z Z) (table slot next : Z)
  : Z * Z * bool :=
  match n with
  | O => (slot, next, false)
  | S k =>
      if slot <? 256 then
        let inner := base_of (load64 m (table + 8 * Z.shiftr slot 4)) in
        if negb (inner =? 0) then
          let next := load64 m (inner + 8 * Z.land slot 15) in
          if negb (next =? 0) then (slot, next, true)
          else first_radix k m table (slot + 1) next
        else first_radix k m table (Z.lor slot 15 + 1) next
      else (slot, next, false)
  end.

(** leaf test of a linear slot during traversal:
    [(!judy->depth && !base[slot * keysize]) || (judy->depth && ++depth == judy->depth)],
    with the value [depth] has afterwards *)
Definition is_leaf_key (j : Judy) (base keysize slot dpt : Z) : bool * Z :=
  if depth j =? 0 then (load8 (mem j) (base + slot * keysize) =? 0, dpt)
  else (u32 (dpt + 1) =? depth j, u32 (dpt + 1)).

Definition judy_first_turn (w : walk) (j : Judy) : turn walk :=
  let next := w_next w in
  let off := w_off w in
  let j := push_level j in
  let j := set_frame_off off j in
  let j := set_frame_next next j in
  let size := JudySize (tag_of next) in
  if tag_of next =? JUDY_radix then
    let off := u32 (off + 1) in
    let dpt :=
      if negb (depth j =? 0) && (Z.land off JUDY_key_mask =? 0)
      then u32 (w_depth w + 1) else w_depth w in
    let table := base_of next in
    let '(slot, next', found) := first_radix 257 (mem j) table 0 next in
    if found then
      let j := set_frame_slot slot j in
      let inner := base_of (load64 (mem j) (table + 8 * Z.shiftr slot 4)) in
      if is_leaf_slot j slot dpt then Return (inner + 8 * Z.land slot 15) j
      else Continue (mkWalk next' off dpt 0) j
    else Continue (mkWalk next' off dpt 0) j
  else if tag_of next =? JUDY_span then
    let node := base_of next + JudySize JUDY_span in
    let base := base_of next in
    let cnt := JUDY_span_bytes cfg in
    if load8 (mem j) (base + cnt - 1) =? 0 then Return (node - 8) j
    else Continue (mkWalk (load64 (mem j) (node - 8)) (u32 (off + cnt))
                     (w_depth w) 0) j
  else
    let keysize := JUDY_key_size - Z.land off JUDY_key_mask in
    let node := base_of next + size in
    let base := base_of next in
    let cnt := size / (8 + keysize) in
    let slot := first_used (S (Z.to_nat cnt)) (mem j) node cnt 0 in
    let j := set_frame_slot slot j in
    let '(leaf, dpt) := is_leaf_key j base keysize slot (w_depth w) in
    if leaf then Return (node - 8 * (slot + 1)) j
    else Continue (mkWalk (load64 (mem j) (node - 8 * (slot + 1)))
                     (u32 (Z.lor off JUDY_key_mask + 1)) dpt 0) j.

Fixpoint judy_first (fuel : nat) (next off dpt : Z) (j : Judy) : Z * Judy :=
  match fuel with
  | O => (0, j)
  | S k =>
      if next =? 0 then (0, j)
      else match judy_first_turn (mkWalk next off dpt 0) j with
           | Return p j' => (p, j')
           | Continue w' j' => judy_first k (w_next w') (w_off w') (w_depth w') j'
           end
  end.

(** the radix scan of [judy_last]:
    [for (slot = 256; slot--; ) { stack.slot = slot; ... }] *)
Fixpoint last_radix (n : nat) (table slot next : Z) (j : Judy)
  : Z * Z * bool * Judy :=
  match n with
  | O => (slot, next, false, j)
  | S k =>
      if slot =? 0 then (-1, next, false, j)
      else
        let slot := slot - 1 in
        let j := set_frame_slot slot j in
        let inner := base_of (load64 (mem j) (table + 8 * Z.shiftr slot 4)) in
        if negb (inner =? 0) then
          let next := load64 (mem j) (inner + 8 * Z.land slot 15) in
          if negb (next =? 0) then (slot, next, true, j)
          else last_radix k table slot next j
        else last_radix k table (Z.land slot 240) next j
  end.

Definition judy_last_turn (w : walk) (j : Judy) : turn walk :=
  let next := w_next w in
  let off := w_off w in
  let j := push_level j in
  let j := set_frame_next next j in
  let j := set_frame_off off j in
  let size := JudySize (tag_of next) in
  if tag_of next =? JUDY_radix then
    let table := base_of next in
    let off := u32 (off + 1) in
    let dpt :=
      if negb (depth j =? 0) && (Z.land off JUDY_key_mask =? 0)
      then u32 (w_depth w + 1) else w_depth w in
    let '(slot, next', found, j) := last_radix 257 table 256 next j in
    if found then
      let inner := base_of (load64 (mem j) (table + 8 * Z.shiftr slot 4)) in
      if is_leaf_slot j slot dpt then Return inner j
      else Continue (mkWalk next' off dpt 0) j
    else Continue (mkWalk next' off dpt 0) j
  else if tag_of next =? JUDY_span then
    let node := base_of next + JudySize JUDY_span in
    let base := base_of next in
    let cnt := JUDY_span_bytes cfg in
    if load8 (mem j) (base + cnt - 1) =? 0 then Return (node - 8) j
    else Continue (mkWalk (load64 (mem j) (node - 8)) (u32 (off + cnt))
                     (w_depth w) 0) j
  else
    let keysize := JUDY_key_size - Z.land off JUDY_key_mask in
    let slot := size / (8 + keysize) - 1 in
    let base := base_of next in
    let node := base_of next + size in
    let j := set_frame_slot slot j in
    let '(leaf, dpt) := is_leaf_key j base keysize slot (w_depth w) in
    if leaf then Return (node - 8 * (slot + 1)) j
    else Continue (mkWalk (load64 (mem j) (node - 8 * (slot + 1)))
                     (u32 (off + keysize)) dpt 0) j.

Fixpoint judy_last (fuel : nat) (next off dpt : Z) (j : Judy) : Z * Judy :=
  match fuel with
  | O => (0, j)
  | S k =>
      if next =? 0 then (0, j)
      else match judy_last_turn (mkWalk next off dpt 0) j with
           | Return p j' => (p, j')
           | Continue w' j' => judy_last k (w_next w') (w_off w') (w_depth w') j'
           end
  end.

(** *** judy_end: last entry *)
Definition judy_end (fuel : nat) (j : Judy) : Z * Judy :=
  let j := set_level 0 j in
  judy_last fuel (load64 (mem j) (root j)) 0 0 j.

(** *** judy_nxt: next entry *)

(** [while (++slot < 256) ...] of [judy_nxt]: the occupied slot found *)
Fixpoint nxt_radix (n : nat) (m : gmap Z Z) (table slot : Z) : option Z :=
  match n with
  | O => None
  | S k =>
      let slot := slot + 1 in
      if slot <? 256 then
        let inner := base_of (load64 m (table + 8 * Z.shiftr slot 4)) in
        if negb (inner =? 0) then
          if negb (load64 m (inner + 8 * Z.land slot 15) =? 0) then Some slot
          else nxt_radix k m table slot
        else nxt_radix k m table (Z.lor slot 15)
      else None
  end.

(** one turn of the [while (judy->level)] loop of [judy_nxt]; [Continue]
    stands for [judy->level--; continue;] already performed *)
Definition judy_nxt_turn (fuel : nat) (j : Judy) : turn unit :=
  let f := frame j (level j) in
  let next := fr_next f in
  let slot := fr_slot f in
  let off := fr_off f in
  let keysize := JUDY_key_size - Z.land off JUDY_key_mask in
  let size := JudySize (tag_of next) in
  let dpt := off / JUDY_key_size in
  if tag_of next =? JUDY_radix then
    let table := base_of next in
    let dpt :=
      if negb (depth j =? 0) && (Z.land (u32 (off + 1)) JUDY_key_mask =? 0)
      then u32 (dpt + 1) else dpt in
    match nxt_radix 257 (mem j) table slot with
    | Some slot =>
        let inner := base_of (load64 (mem j) (table + 8 * Z.shiftr slot 4)) in
        let cell := inner + 8 * Z.land slot 15 in
        let j := set_frame_slot slot j in
        if (depth j =? 0) || (dpt <? depth j) then
          let '(p, j) := judy_first fuel (load64 (mem j) cell) (u32 (off + 1)) dpt j in
          Return p j
        else Return cell j
    | None => Continue tt (pop_level j)
    end
  else if tag_of next =? JUDY_span then Continue tt (pop_level j)
  else
    let cnt := size / (8 + keysize) in
    let node := base_of next + size in
    let base := base_of next in
    let slot := slot + 1 in
    if slot <? cnt then
      let '(leaf, dpt) := is_leaf_key j base keysize slot dpt in
      let j := set_frame_slot slot j in
      if leaf then Return (node - 8 * (slot + 1)) j
      else
        let '(p, j) := judy_first fuel (load64 (mem j) (node - 8 * (slot + 1)))
                         (u32 (Z.lor off JUDY_key_mask + 1)) dpt j in
        Return p j
    else Continue tt (pop_level j).

Fixpoint judy_nxt_loop (fuel : nat) (inner_fuel : nat) (j : Judy) : Z * Judy :=
  match fuel with
  | O => (0, j)
  | S k =>
      if level j =? 0 then (0, j)
      else match judy_nxt_turn inner_fuel j with
           | Return p j' => (p, j')
           | Continue _ j' => judy_nxt_loop k inner_fuel j'
           end
  end.

Definition judy_nxt (fuel : nat) (j : Judy) : Z * Judy :=
  if level j =? 0 then judy_first fuel (load64 (mem j) (root j)) 0 0 j
  else judy_nxt_loop fuel fuel j.

(** *** judy_prv: previous entry *)

(** [while (slot--) { judy->stack[judy->level].slot--; ... }] of [judy_prv] *)
Fixpoint prv_radix (n : nat) (table slot : Z) (j : Judy) : option Z * Judy :=
  match n with
  | O => (None, j)
  | S k =>
      if slot =? 0 then (None, j)
      else
        let slot := slot - 1 in
        let j := set_frame_slot (fr_slot (frame j (level j)) - 1) j in
        let inner := base_of (load64 (mem j) (table + 8 * Z.shiftr slot 4)) in
        if negb (inner =? 0)
           && negb (load64 (mem j) (inner + 8 * Z.land slot 15) =? 0)
        then (Some slot, j)
        else prv_radix k table slot j
  end.

Definition judy_prv_turn (fuel : nat) (j : Judy) : turn unit :=
  let f := frame j (level j) in
  let next := fr_next f in
  let slot := fr_slot f in
  let off := fr_off f in
  let size := JudySize (tag_of next) in
  let dpt := off / JUDY_key_size in
  if tag_of next =? JUDY_radix then
    let table := base_of next in
    let dpt :=
      if negb (depth j =? 0) && (Z.land (u32 (off + 1)) JUDY_key_mask =? 0)
      then u32 (dpt + 1) else dpt in
    match prv_radix (S (Z.to_nat slot)) table slot j with
    | (Some slot, j) =>
        let inner := base_of (load64 (mem j) (table + 8 * Z.shiftr slot 4)) in
        if is_leaf_slot j slot dpt then Return inner j
        else
          let '(p, j) := judy_last fuel (load64 (mem j) (inner + 8 * Z.land slot 15))
                           (u32 (off + 1)) dpt j in
          Return p j
    | (None, j) => Continue tt (pop_level j)
    end
  else if tag_of next =? JUDY_span then Continue tt (pop_level j)
  else
    let node := base_of next + size in
    if (slot =? 0) || (load64 (mem j) (node - 8 * slot) =? 0)
    then Continue tt (pop_level j)
    else
      let base := base_of next in
      let j := set_frame_slot (fr_slot (frame j (level j)) - 1) j in
      let keysize := JUDY_key_size - Z.land off JUDY_key_mask in
      let '(leaf, dpt) := is_leaf_key j base keysize (slot - 1) dpt in
      if leaf then Return (node - 8 * slot) j
      else
        let '(p, j) := judy_last fuel (load64 (mem j) (node - 8 * slot))
                         (u32 (Z.lor off JUDY_key_mask + 1)) dpt j in
        Return p j.

Fixpoint judy_prv_loop (fuel : nat) (inner_fuel : nat) (j : Judy) : Z * Judy :=
  match fuel with
  | O => (0, j)
  | S k =>
      if level j =? 0 then (0, j)
      else match judy_prv_turn inner_fuel j with
           | Return p j' => (p, j')
           | Continue _ j' => judy_prv_loop k inner_fuel j'
           end
  end.

Definition judy_prv (fuel : nat) (j : Judy) : Z * Judy :=
  if level j =? 0 then judy_last fuel (load64 (mem j) (root j)) 0 0 j
  else judy_prv_loop fuel fuel j.

(** *** judy_strt: cell for the first key greater than or equal to a key *)
Definition judy_strt (fuel : nat) (buff : list Z) (kmax : Z) (j : Judy)
  : Z * Judy :=
  let j := set_level 0 j in
  if kmax =? 0 then judy_first fuel (load64 (mem j) (root j)) 0 0 j
  else
    let '(cell, j') := judy_slot fuel buff kmax j in
    if negb (cell =? 0) then (cell, j')
    else judy_nxt fuel j'.

(** *** judy_key: assemble key from current path *)

(** a store into the caller's buffer; outside of it nothing is recorded *)
Definition buf_set (buff : list Z) (i v : Z) : list Z :=
  if i <? 0 then buff else <[Z.to_nat i := u8 v]> buff.

Fixpoint buf_set_le (n : nat) (buff : list Z) (i v : Z) : list Z :=
  match n with
  | O => buff
  | S k => buf_set_le k (buf_set buff i v) (i + 1) (v / 256)
  end.

(** [dest[d] = v] *)
Definition dest_set (buff : list Z) (d v : Z) : list Z :=
  buf_set_le 8 buff (8 * d) (u64 v).

(** [off = keysize; while (off-- && len < max)
       if ((buff[len] = base[slot * keysize + off])) len++; else break;] *)
Fixpoint key_linear (n : nat) (m : gmap Z Z) (at_slot : Z) (kmax off : Z)
  (buff : list Z) (len : Z) : list Z * Z :=
  match n with
  | O => (buff, len)
  | S k =>
      if (off =? 0) || negb (len <? kmax) then (buff, len)
      else
        let off := off - 1 in
        let b := load8 m (at_slot + off) in
        let buff := buf_set buff len b in
        if negb (b =? 0) then key_linear k m at_slot kmax off buff (u32 (len + 1))
        else (buff, len)
  end.

(** [for (slot = 0; slot < JUDY_span_bytes && base[slot]; slot++)
       if (len < max) buff[len++] = base[slot];] *)
Fixpoint key_span (n : nat) (m : gmap Z Z) (base kmax slot : Z)
  (buff : list Z) (len : Z) : list Z * Z :=
  match n with
  | O => (buff, len)
  | S k =>
      if (slot <? JUDY_span_bytes cfg) && negb (load8 m (base + slot) =? 0) then
        if len <? kmax
        then key_span k m base kmax (slot + 1)
               (buf_set buff len (load8 m (base + slot))) (u32 (len + 1))
        else key_span k m base kmax (slot + 1) buff len
      else (buff, len)
  end.

(** the body of the [while] of [judy_key] for frame [idx]: either the
    function returns [len] at once, or the loop goes on *)
Definition judy_key_turn (j : Judy) (kmax idx : Z) (buff : list Z) (len : Z)
  : (list Z * Z) + (list Z * Z) :=
  let f := frame j idx in
  let type := tag_of (fr_next f) in
  let slot := fr_slot f in
  let dpt := len / JUDY_key_size in
  let buff :=
    if negb (depth j =? 0) && (Z.land len JUDY_key_mask =? 0)
    then dest_set buff dpt 0 else buff in
  if type =? JUDY_radix then
    if negb (depth j =? 0) then
      let len := u32 (len + 1) in
      let sh := (JUDY_key_size - Z.land len JUDY_key_mask) * 8 in
      let buff := dest_set buff dpt (Z.lor (src_get buff dpt) (shl64 slot sh)) in
      let dpt := if Z.land len JUDY_key_mask =? 0 then dpt + 1 else dpt in
      if dpt <? depth j then inr (buff, len) else inl (buff, len)
    else if slot =? 0 then inr (buff, len)
    else inr (buf_set buff len slot, u32 (len + 1))
  else if type =? JUDY_span then
    let base := base_of (fr_next f) in
    inr (key_span (S (Z.to_nat (JUDY_span_bytes cfg))) (mem j) base kmax 0 buff len)
  else
    let keysize := JUDY_key_size - Z.land (fr_off f) JUDY_key_mask in
    let base := base_of (fr_next f) in
    if negb (depth j =? 0) then
      let value := Z.land (load64 (mem j) (base + slot * keysize)) (JudyMask keysize) in
      let buff := dest_set buff dpt (Z.lor (src_get buff dpt) value) in
      let dpt := dpt + 1 in
      let len := u32 (len + keysize) in
      if dpt <? depth j then inr (buff, len) else inl (buff, len)
    else inr (key_linear 9 (mem j) (base + slot * keysize) kmax keysize buff len).

Fixpoint judy_key_loop (fuel : nat) (j : Judy) (kmax idx : Z) (buff : list Z)
  (len : Z) : list Z * Z :=
  match fuel with
  | O => (buff, len)
  | S k =>
      if negb (len <? kmax) then (buf_set buff len 0, len)
      else
        let idx := u32 (idx + 1) in
        if negb (idx <=? level j) then (buf_set buff len 0, len)
        else match judy_key_turn j kmax idx buff len with
             | inl r => r
             | inr (buff, len) => judy_key_loop k j kmax idx buff len
             end
  end.

(** returns the buffer as written and the length *)
Definition judy_key (fuel : nat) (buff : list Z) (kmax : Z) (j : Judy)
  : list Z * Z :=
  let kmax :=
    if negb (depth j =? 0) then u32 (depth j * JUDY_key_size) else u32 (kmax - 1) in
  judy_key_loop fuel j kmax 0 buff 0.

(** ** The arena *)

Definition reuse_get (j : Judy) (t : Z) : Z := default 0 (reuse j !! t).
Definition reuse_set (t v : Z) (j : Judy) : Judy := set_reuse (<[t := v]> (reuse j)) j.

(** [type] as a size class *)
Definition size_class (type : Z) : Z :=
  if type =? JUDY_radix then JUDY_radix_equiv cfg
  else if type =? JUDY_span then JUDY_span_equiv cfg
  else type.

(** [if (amt & 0x07) amt |= 0x07, amt += 1;] *)
Definition round8 (amt : Z) : Z :=
  if negb (Z.land amt 7 =? 0) then u32 (Z.lor amt 7 + 1) else amt.

(** [malloc(JUDY_seg)] followed by the linking of the new segment;
    [None] when the external allocator fails *)
Definition new_segment (j : Judy) : option Judy :=
  match heap j with
  | [] => None
  | a :: h =>
      let nxt := u32 (JUDY_seg - Z.land a (JUDY_cache_line - 1)) in
      Some (set_heap h (set_seg (mkSeg a nxt :: seg j) j))
  end.

Definition head_next (j : Judy) : Z :=
  match seg j with [] => 0 | sg :: _ => seg_next sg end.
Definition head_base (j : Judy) : Z :=
  match seg j with [] => 0 | sg :: _ => seg_base sg end.
Definition set_head_next (v : Z) (j : Judy) : Judy :=
  match seg j with
  | [] => j
  | sg :: r => set_seg (mkSeg (seg_base sg) v :: r) j
  end.

(** [while (idx-- > type) { judy->reuse[idx] = block + JudySize[idx] / 8;
                            block[JudySize[idx] / 8] = 0; }] *)
Fixpoint break_down (n : nat) (block type idx : Z) (j : Judy) : Judy :=
  match n with
  | O => j
  | S k =>
      if idx >? type then
        let idx := idx - 1 in
        let part := block + 8 * (JudySize idx / 8) in
        let j := reuse_set idx part j in
        let j := set_mem (store64 (mem j) part 0) j in
        break_down k block type idx j
      else j
  end.

(** [for (idx = type; idx++ < JUDY_max; ) if ((block = judy->reuse[idx])) ...] *)
Fixpoint find_larger (n : nat) (type idx amt : Z) (j : Judy) : option (Z * Judy) :=
  match n with
  | O => None
  | S k =>
      if idx <? JUDY_max then
        let idx := idx + 1 in
        let block := reuse_get j idx in
        if negb (block =? 0) then
          let j := reuse_set idx (load64 (mem j) block) j in
          let j := break_down 8 block type idx j in
          Some (block, set_mem (memset0 (Z.to_nat amt) (mem j) block) j)
        else find_larger k type idx amt j
      else None
  end.

(** [for (idx = type; amt & (JUDY_cache_line - 1); amt <<= 1) { ... }] *)
Fixpoint fill_line (n : nat) (idx amt : Z) (j : Judy) : Z * Judy :=
  match n with
  | O => (amt, j)
  | S k =>
      if negb (Z.land amt (JUDY_cache_line - 1) =? 0) then
        let block := head_base j + head_next j - 2 * amt in
        let j := reuse_set idx block j in
        let j := set_mem (store64 (mem j) block 0) j in
        fill_line k (idx + 1) (u32 (amt * 2)) j
      else (amt, j)
  end.

(** *** judy_alloc: allocate judy node; the address [0] is [NULL] *)
Definition judy_alloc (type : Z) (j : Judy) : Z * Judy :=
  match seg j with
  | [] => (0, j)
  | _ :: _ =>
      let type := size_class type in
      let amt := round8 (JudySize type) in
      let block := reuse_get j type in
      if negb (block =? 0) then
        let j := reuse_set type (load64 (mem j) block) j in
        (block, set_mem (memset0 (Z.to_nat amt) (mem j) block) j)
      else
        match (if type >=? JUDY_1 then find_larger 8 type type amt j else None) with
        | Some r => r
        | None =>
            let min := if amt <? JUDY_cache_line then JUDY_cache_line else amt in
            let grown :=
              if head_next j <? min + sizeof_JudySeg then new_segment j else Some j in
            match grown with
            | None => (0, j)
            | Some j =>
                let rtn := head_base j + head_next j - amt in
                let '(amt, j) := fill_line 32 type amt j in
                let j := set_head_next (u32 (head_next j - amt)) j in
                (rtn, set_mem (memset0 (Z.to_nat (JudySize type)) (mem j) rtn) j)
            end
        end
  end.

(** *** judy_data: allocate data memory within the judy array *)
Definition judy_data (amt : Z) (j : Judy) : Z * Judy :=
  match seg j with
  | [] => (0, j)
  | _ :: _ =>
      let amt :=
        if negb (Z.land amt (JUDY_cache_line - 1) =? 0)
        then u32 (Z.lor amt (JUDY_cache_line - 1) + 1) else amt in
      let grown :=
        if head_next j <? amt + sizeof_JudySeg then new_segment j else Some j in
      match grown with
      | None => (0, j)
      | Some j =>
          let j := set_head_next (u32 (head_next j - amt)) j in
          let block := head_base j + head_next j in
          (block, set_mem (memset0 (Z.to_nat amt) (mem j) block) j)
      end
  end.

(** *** judy_free: thread a block onto the reuse list of its class *)
Definition judy_free (block type : Z) (j : Judy) : Judy :=
  let type := size_class type in
  let j := set_mem (store64 (mem j) block (reuse_get j type)) j in
  reuse_set type block j.

(** Modelled from the spec: the layout of the handle is declared in the
    header; a handle is the root slot, eight reuse heads, the segment
    link and three counters, followed by the cursor frames of 16 bytes. *)
Definition sizeof_Judy : Z := 112.
Definition sizeof_JudyStack : Z := 16.

(** *** judy_open: open a new judy array, [None] for [NULL].  The handle
    is carved from the end of the first segment; the source does not
    check that it fits, so the call is meaningful only when
    [sizeof_JudySeg + amt] is within [JUDY_seg], which the properties
    of [judy_open] below assume. *)
Definition judy_open (hp : list Z) (m : gmap Z Z) (kmax dpt : Z) : option Judy :=
  let kmax := if negb (dpt =? 0) then u32 (JUDY_key_size * dpt) else u32 (kmax + 1) in
  match hp with
  | [] => None
  | a :: h =>
      let amt := u32 (sizeof_Judy + kmax * sizeof_JudyStack) in
      let amt := if negb (Z.land amt (JUDY_cache_line - 1) =? 0)
                 then u32 (Z.lor amt (JUDY_cache_line - 1) + 1) else amt in
      let nxt := u32 (JUDY_seg - Z.land a (JUDY_cache_line - 1)) in
      let nxt := u32 (nxt - amt) in
      let judy := a + nxt in
      Some (mkJudy judy ∅ [mkSeg a nxt] 0 kmax dpt ∅
              (memset0 (Z.to_nat amt) m judy) h)
  end.

(** ** Structural transformations *)

(** [for (; slot < stop; slot++) newnode[-(slot + shift)] = node[-(slot + 1)];] *)
Fixpoint copy_ptrs (n : nat) (m : gmap Z Z) (newnode node shift slot stop : Z)
  : gmap Z Z :=
  match n with
  | O => m
  | S k =>
      if slot <? stop then
        copy_ptrs k (store64 m (newnode - 8 * (slot + shift))
                       (load64 m (node - 8 * (slot + 1))))
          newnode node shift (slot + 1) stop
      else m
  end.

(** *** judy_promote: promote full nodes to next larger size.
    [next] is the address of the slot that refers to the node. *)
Definition judy_promote (next idx value keysize : Z) (j : Judy) : Z * Judy :=
  let base := base_of (load64 (mem j) next) in
  let type := tag_of (load64 (mem j) next) + 1 in
  let node := base + JudySize (type - 1) in
  let oldcnt := JudySize (type - 1) / (8 + keysize) in
  let newcnt := JudySize type / (8 + keysize) in
  let '(newbase, j) := judy_alloc type j in
  let newnode := newbase + JudySize type in
  let m := store64 (mem j) next (Z.lor newbase type) in
  let m := memcpy m (newbase + (newcnt - oldcnt - 1) * keysize) base (idx * keysize) in
  let m := copy_ptrs (Z.to_nat idx) m newnode node (newcnt - oldcnt) 0 idx in
  let slot := Z.max 0 idx in
  let m := store_le (Z.to_nat keysize) m
             (newbase + (idx + newcnt - oldcnt - 1) * keysize) value in
  let result := newnode - 8 * (idx + newcnt - oldcnt) in
  let m := memcpy m (newbase + (idx + newcnt - oldcnt) * keysize)
             (base + idx * keysize) ((oldcnt - slot) * keysize) in
  let m := copy_ptrs (Z.to_nat (oldcnt - slot)) m newnode node
             (newcnt - oldcnt + 1) slot oldcnt in
  let j := set_mem m j in
  let j := set_frame_next (load64 (mem j) next) j in
  let j := set_frame_slot (idx + newcnt - oldcnt - 1) j in
  let j := judy_free base (type - 1) j in
  (result, j).

(** [do { type++; size = JudySize[type]; newcnt = size / (8 + keysize); }
     while (cnt > newcnt && type < JUDY_max);] *)
Fixpoint fit_node (n : nat) (cnt keysize type : Z) : Z :=
  match n with
  | O => type
  | S k =>
      let type := type + 1 in
      let newcnt := JudySize type / (8 + keysize) in
      if (cnt >? newcnt) && (type <? JUDY_max) then fit_node k cnt keysize type
      else type
  end.

(** the copy loop of [judy_radix], keys shortened by one byte *)
Fixpoint radix_copy (n : nat) (m : gmap Z Z) (base node old oldnode : Z)
  (start cnt newcnt keysize idx : Z) : gmap Z Z :=
  match n with
  | O => m
  | S k =>
      if idx <? cnt then
        let m := memcpy m (base + (newcnt - idx - 1) * keysize)
                   (old + (start + cnt - idx - 1) * (keysize + 1)) keysize in
        let m := store64 m (node - 8 * (newcnt - idx))
                   (load64 m (oldnode - 8 * (start + cnt - idx))) in
        radix_copy k m base node old oldnode start cnt newcnt keysize (idx + 1)
      else m
  end.

(** *** judy_radix: construct new node for a radix entry, with
    [slot - start] entries, moving the key over one offset *)
Definition judy_radix (radix old start slot keysize key dpt : Z) (j : Judy) : Judy :=
  let cnt := slot - start in
  let at_outer := radix + 8 * Z.shiftr key 4 in
  let '(table, j) :=
    if base_of (load64 (mem j) at_outer) =? 0 then
      let '(table, j) := judy_alloc JUDY_radix j in
      (table, set_mem (store64 (mem j) at_outer (Z.lor table JUDY_radix)) j)
    else (base_of (load64 (mem j) at_outer), j) in
  let oldnode := old + JudySize JUDY_max in
  if ((depth j =? 0) && ((key =? 0) || (keysize =? 0)))
     || (negb (depth j =? 0) && (keysize =? 0) && (dpt =? depth j))
  then set_mem (store64 (mem j) (table + 8 * Z.land key 15)
                  (load64 (mem j) (oldnode - 8 * (start + 1)))) j
  else
    let type := fit_node 8 cnt keysize (JUDY_1 - 1) in
    let size := JudySize type in
    let newcnt := size / (8 + keysize) in
    let '(base, j) := judy_alloc type j in
    let node := base + size in
    let m := store64 (mem j) (table + 8 * Z.land key 15) (Z.lor base type) in
    set_mem (radix_copy (Z.to_nat cnt) m base node old oldnode start cnt newcnt
               keysize 0) j.

(** the grouping loop of [judy_splitnode]; returns [start], [key] and the
    state after the loop *)
Fixpoint split_groups (n : nat) (newradix base cnt keysize dpt : Z)
  (slot start key : Z) (j : Judy) : Z * Z * Judy :=
  match n with
  | O => (start, key, j)
  | S k =>
      if slot <? cnt then
        let nxt := load8 (mem j) (base + slot * keysize + keysize - 1) in
        let key := if key >? 255 then nxt else key in
        if nxt =? key
        then split_groups k newradix base cnt keysize dpt (slot + 1) start key j
        else
          let j := judy_radix newradix base start slot (keysize - 1) (u8 key) dpt j in
          split_groups k newradix base cnt keysize dpt (slot + 1) slot nxt j
      else (start, key, j)
  end.

(** *** judy_splitnode: decompose full node to radix nodes *)
Definition judy_splitnode (next size keysize dpt : Z) (j : Judy) : Judy :=
  let base := base_of (load64 (mem j) next) in
  let cnt := size / (8 + keysize) in
  let '(newradix, j) := judy_alloc JUDY_radix j in
  let j := set_mem (store64 (mem j) next (Z.lor newradix JUDY_radix)) j in
  let '(start, key, j) :=
    split_groups (Z.to_nat cnt) newradix base cnt keysize dpt 0 0 256 j in
  let j := judy_radix newradix base start cnt (keysize - 1) (u8 key) dpt j in
  judy_free base JUDY_max j.

(** the [do ... while (cnt && base[off - 1])] loop of [judy_splitspan];
    returns the address of the slot that ends the chain *)
Fixpoint span_chain (n : nat) (next base cnt off : Z) (j : Judy) : Z * Judy :=
  match n with
  | O => (next, j)
  | S k =>
      let '(newbase, j) := judy_alloc JUDY_1 j in
      let m := store64 (mem j) next (Z.lor newbase JUDY_1) in
      let m := store_bytes (rev (load_bytes 8 m (base + off))) m newbase in
      let j := set_mem m j in
      let next := newbase + JUDY_key_size in
      let off := u32 (off + JUDY_key_size) in
      let cnt := u32 (cnt - JUDY_key_size) in
      if negb (cnt =? 0) && negb (load8 (mem j) (base + off - 1) =? 0)
      then span_chain k next base cnt off j
      else (next, j)
  end.

(** *** judy_splitspan: split open span node *)
Definition judy_splitspan (fuel : nat) (next base : Z) (j : Judy) : Judy :=
  let node := base + JudySize JUDY_span in
  let '(next, j) := span_chain fuel next base (JUDY_span_bytes cfg) 0 j in
  let j := set_mem (store64 (mem j) next (load64 (mem j) (node - 8))) j in
  judy_free base JUDY_span j.

(** ** judy_cell: add string to judy array *)

(** bytes [off .. off + n - 1] of the caller's buffer *)
Fixpoint buf_bytes (n : nat) (buff : list Z) (off : Z) : list Z :=
  match n with
  | O => []
  | S k => buf_get buff off :: buf_bytes k buff (off + 1)
  end.

(** [for (idx = 0; idx < slot; idx++) node[-idx - 1] = node[-idx - 2];] *)
Fixpoint shift_ptrs (n : nat) (m : gmap Z Z) (node idx slot : Z) : gmap Z Z :=
  match n with
  | O => m
  | S k =>
      if idx <? slot then
        shift_ptrs k (store64 m (node - 8 * (idx + 1)) (load64 m (node - 8 * (idx + 2))))
          node (idx + 1) slot
      else m
  end.

(** [while (keysize) if (off + keysize <= max) *base++ = buff[off + --keysize];
                     else base++, --keysize;] *)
Fixpoint fill_digit (n : nat) (m : gmap Z Z) (buff : list Z) (kmax off : Z)
  (base keysize : Z) : gmap Z Z :=
  match n with
  | O => m
  | S k =>
      if keysize =? 0 then m
      else if off + keysize <=? kmax
      then fill_digit k (store8 m base (buf_get buff (off + keysize - 1)))
             buff kmax off (base + 1) (keysize - 1)
      else fill_digit k m buff kmax off (base + 1) (keysize - 1)
  end.

(** In [judy_cell] the walk carries the address of the current slot in
    [w_next]. One turn of [while ( *next )]. *)
Definition judy_cell_turn (fuel : nat) (buff : list Z) (kmax : Z) (w : walk)
  (j : Judy) : turn walk :=
  let next := w_next w in
  let off := w_off w in
  let j := push_level j in
  let j := set_frame_next (load64 (mem j) next) j in
  let j := set_frame_off off j in
  let ref := load64 (mem j) next in
  if tag_of ref =? JUDY_radix then
    let table := base_of ref in
    let '(slot, off) :=
      if negb (depth j =? 0) then
        let off := u32 (off + 1) in
        (Z.land (shr64 (src_get buff (w_depth w))
                   ((JUDY_key_size - Z.land off JUDY_key_mask) * 8)) 255, off)
      else if off <? kmax then (buf_get buff off, u32 (off + 1))
      else (0, u32 (off + 1)) in
    let dpt :=
      if negb (depth j =? 0) && (Z.land off JUDY_key_mask =? 0)
      then u32 (w_depth w + 1) else w_depth w in
    let at_outer := table + 8 * Z.shiftr slot 4 in
    let j :=
      if load64 (mem j) at_outer =? 0 then
        let '(inner, j) := judy_alloc JUDY_radix j in
        set_mem (store64 (mem j) at_outer (Z.lor inner JUDY_radix)) j
      else j in
    let table := base_of (load64 (mem j) at_outer) in
    let j := set_frame_slot slot j in
    let next := table + 8 * Z.land slot 15 in
    if is_leaf_slot j slot dpt then Return next j
    else Continue (mkWalk next off dpt (w_test w)) j
  else if tag_of ref =? JUDY_span then
    let base := base_of ref in
    let node := base_of ref + JudySize JUDY_span in
    let cnt := JUDY_span_bytes cfg in
    let tst := if s32 (kmax - off) <? cnt then s32 (kmax - off) else cnt in
    let value := strncmp fuel (mem j) base buff off (u64 tst) in
    if (value =? 0) && (tst <? cnt) && (load8 (mem j) (base + tst) =? 0)
    then Return (node - 8) j
    else if (value =? 0) && (tst =? cnt)
    then Continue (mkWalk (node - 8) (u32 (off + cnt)) (w_depth w) (w_test w)) j
    else
      let j := judy_splitspan fuel next base j in
      Continue (mkWalk next off (w_depth w) (w_test w)) (pop_level j)
  else
    let size := JudySize (tag_of ref) in
    let keysize := JUDY_key_size - Z.land off JUDY_key_mask in
    let cnt := size / (8 + keysize) in
    let base := base_of ref in
    let node := base_of ref + size in
    let start := off in
    let '(value, off, dpt) :=
      if negb (depth j =? 0) then
        (Z.land (src_get buff (w_depth w)) (JudyMask keysize),
         u32 (Z.lor off JUDY_key_mask + 1), u32 (w_depth w + 1))
      else
        let '(v, o) := key_digit 8 buff kmax off 0 in (v, o, w_depth w) in
    let '(slot, test) :=
      scan_down (S (Z.to_nat cnt)) (mem j) base keysize value cnt (w_test w) in
    let j := set_frame_slot slot j in
    if test =? value then
      let next := node - 8 * (slot + 1) in
      if is_leaf_value j value dpt then Return next j
      else Continue (mkWalk next off dpt test) j
    else if load64 (mem j) (node - 8) =? 0 then
      let m := memcpy (mem j) base (base + keysize) (slot * keysize) in
      let m := store_le (Z.to_nat keysize) m (base + slot * keysize) value in
      let m := shift_ptrs (Z.to_nat slot) m node 0 slot in
      let m := store64 m (node - 8 * (slot + 1)) 0 in
      let j := set_mem m j in
      let next := node - 8 * (slot + 1) in
      if is_leaf_value j value dpt then Return next j
      else Continue (mkWalk next off dpt test) j
    else if size <? JudySize JUDY_max then
      let '(next, j) := judy_promote next (slot + 1) value keysize j in
      if is_leaf_value j value dpt then Return next j
      else Continue (mkWalk next off dpt test) j
    else
      let j := judy_splitnode next size keysize dpt j in
      let j := pop_level j in
      let dpt := if negb (depth j =? 0) then u32 (dpt - 1) else dpt in
      Continue (mkWalk next start dpt test) j.

Fixpoint judy_cell_loop (fuel : nat) (buff : list Z) (kmax : Z) (w : walk)
  (j : Judy) : turn walk :=
  match fuel with
  | O => Return 0 j
  | S k =>
      if load64 (mem j) (w_next w) =? 0 then Continue w j
      else match judy_cell_turn (S k) buff kmax w j with
           | Return p j' => Return p j'
           | Continue w' j' => judy_cell_loop k buff kmax w' j'
           end
  end.

(** [judy->stack[judy->level]] after a push, for a new node *)
Definition push_frame (ref off : Z) (j : Judy) : Judy :=
  let j := push_level j in
  let j := set_frame_next ref j in
  let j := set_frame_slot 0 j in
  set_frame_off off j.

(** place a JUDY_1 node under radix node(s) for the rest of the digit *)
Definition cell_digit (buff : list Z) (kmax : Z) (w : walk) (j : Judy)
  : walk * Judy :=
  let next := w_next w in
  let off := w_off w in
  if negb (Z.land off JUDY_key_mask =? 0)
     && (negb (depth j =? 0) || (off <=? kmax)) then
    let '(base, j) := judy_alloc JUDY_1 j in
    let keysize := JUDY_key_size - Z.land off JUDY_key_mask in
    let node := base + JudySize JUDY_1 in
    let m := store64 (mem j) next (Z.lor base JUDY_1) in
    let m :=
      if negb (depth j =? 0)
      then store_le (Z.to_nat keysize) m base (src_get buff (w_depth w))
      else fill_digit 8 m buff kmax off base keysize in
    let j := set_mem m j in
    let j := push_frame (load64 (mem j) next) off j in
    (mkWalk (node - 8) (u32 (Z.lor off JUDY_key_mask + 1)) (u32 (w_depth w + 1))
       (w_test w), j)
  else (w, j).

(** produce span nodes to consume the rest of the key *)
Fixpoint cell_spans (fuel : nat) (buff : list Z) (kmax : Z) (next off : Z)
  (j : Judy) : Z * Judy :=
  match fuel with
  | O => (next, j)
  | S k =>
      if off <=? kmax then
        let '(base, j) := judy_alloc JUDY_span j in
        let m := store64 (mem j) next (Z.lor base JUDY_span) in
        let node := base + JudySize JUDY_span in
        let cnt := JUDY_span_bytes cfg in
        let tst := if s32 (kmax - off) <? cnt then s32 (kmax - off) else cnt in
        let m := store_bytes (buf_bytes (Z.to_nat tst) buff off) m base in
        let j := set_mem m j in
        let j := push_frame (load64 (mem j) next) off j in
        let next := node - 8 in
        let off := u32 (off + tst) in
        if load8 (mem j) (base + cnt - 1) =? 0 then (next, j)
        else cell_spans k buff kmax next off j
      else (next, j)
  end.

(** produce JUDY_1 nodes, one per remaining digit, in an integer tree *)
Fixpoint cell_digits (fuel : nat) (buff : list Z) (next off dpt : Z)
  (j : Judy) : Z * Judy :=
  match fuel with
  | O => (next, j)
  | S k =>
      if dpt <? depth j then
        let '(base, j) := judy_alloc JUDY_1 j in
        let node := base + JudySize JUDY_1 in
        let m := store64 (mem j) next (Z.lor base JUDY_1) in
        let m := store64 m base (src_get buff dpt) in
        let j := set_mem m j in
        let j := push_frame (load64 (mem j) next) off j in
        cell_digits k buff (node - 8) (u32 (Z.lor off JUDY_key_mask + 1))
          (u32 (dpt + 1)) j
      else (next, j)
  end.

Definition judy_cell (fuel : nat) (buff : list Z) (kmax : Z) (j : Judy)
  : Z * Judy :=
  let j := set_level 0 j in
  match judy_cell_loop fuel buff kmax (mkWalk (root j) 0 0 0) j with
  | Return p j' => (p, j')
  | Continue w j =>
      let '(w, j) := cell_digit buff kmax w j in
      if depth j =? 0 then cell_spans fuel buff kmax (w_next w) (w_off w) j
      else cell_digits fuel buff (w_next w) (w_off w) (w_depth w) j
  end.

(** ** judy_del: delete string from judy array, returning previous entry *)

(** [while (slot) { node[-slot - 1] = node[-slot];
       memcpy(base + slot * keysize, base + (slot - 1) * keysize, keysize);
       slot--; }] *)
Fixpoint del_shift (n : nat) (m : gmap Z Z) (base node keysize slot : Z)
  : gmap Z Z :=
  match n with
  | O => m
  | S k =>
      if slot =? 0 then m
      else
        let m := store64 m (node - 8 * (slot + 1)) (load64 m (node - 8 * slot)) in
        let m := memcpy m (base + slot * keysize) (base + (slot - 1) * keysize) keysize in
        del_shift k m base node keysize (slot - 1)
  end.

(** [for (cnt = 16; cnt--; ) if (table[cnt]) ...]: is some slot in use? *)
Fixpoint any_used (n : nat) (m : gmap Z Z) (table : Z) : bool :=
  match n with
  | O => false
  | S k => negb (load64 m (table + 8 * Z.of_nat k) =? 0) || any_used k m table
  end.

Definition judy_del_turn (fuel : nat) (j : Judy) : turn unit :=
  let f := frame j (level j) in
  let next := fr_next f in
  let slot := fr_slot f in
  let off := s32 (fr_off f) in
  let size := JudySize (tag_of next) in
  let type := tag_of next in
  if type =? JUDY_radix then
    let table := base_of next in
    let inner := base_of (load64 (mem j) (table + 8 * Z.shiftr slot 4)) in
    let j := set_mem (store64 (mem j) (inner + 8 * Z.land slot 15) 0) j in
    if any_used 16 (mem j) inner then
      let '(p, j) := judy_prv fuel j in Return p j
    else
      let j := judy_free inner JUDY_radix j in
      let j := set_mem (store64 (mem j) (table + 8 * Z.shiftr slot 4) 0) j in
      if any_used 16 (mem j) table then
        let '(p, j) := judy_prv fuel j in Return p j
      else
        let j := judy_free table JUDY_radix j in
        Continue tt (pop_level j)
  else if type =? JUDY_span then
    let base := base_of next in
    let j := judy_free base type j in
    Continue tt (pop_level j)
  else
    let keysize := JUDY_key_size - Z.land off JUDY_key_mask in
    let cnt := size / (8 + keysize) in
    let node := base_of next + size in
    let base := base_of next in
    let m := del_shift fuel (mem j) base node keysize slot in
    let m := store64 m (node - 8) 0 in
    let m := memset0 (Z.to_nat keysize) m base in
    let j := set_mem m j in
    if negb (load64 (mem j) (node - 8 * cnt) =? 0) then
      let j := set_frame_slot (fr_slot (frame j (level j)) + 1) j in
      let '(p, j) := judy_prv fuel j in Return p j
    else
      let j := judy_free base type j in
      Continue tt (pop_level j).

Fixpoint judy_del_loop (fuel : nat) (inner_fuel : nat) (j : Judy) : Z * Judy :=
  match fuel with
  | O => (0, j)
  | S k =>
      if level j =? 0 then
        (* tree is now empty *)
        (0, set_mem (store64 (mem j) (root j) 0) j)
      else match judy_del_turn inner_fuel j with
           | Return p j' => (p, j')
           | Continue _ j' => judy_del_loop k inner_fuel j'
           end
  end.

Definition judy_del (fuel : nat) (j : Judy) : Z * Judy :=
  judy_del_loop (S fuel) fuel j.

End WithConfig.

(** ** Callers and sample tries *)

Definition no_judy : Judy := mkJudy 0 ∅ [] 0 0 0 ∅ ∅ [].

(** a handle opened over an empty memory; the external allocator will
    hand out the addresses [hp] *)
Definition opened (hp : list Z) (kmax dpt : Z) : Judy :=
  default no_judy (judy_open hp ∅ kmax dpt).

(** the caller writes a value into a cell it was given *)
Definition store_cell (p v : Z) (j : Judy) : Judy :=
  set_mem (store64 (mem j) p v) j.

(** [*judy_cell(judy, key, strlen(key)) = v] *)
Definition insert (cfg : Config) (key : list Z) (v : Z) (j : Judy) : Judy :=
  let '(p, j') := judy_cell cfg 64 key (Z.of_nat (length key)) j in
  store_cell p v j'.

(** the value of the root slot *)
Definition root_slot (j : Judy) : Z := load64 (mem j) (root j).

Definition key_a : list Z := [97].
Definition key_b : list Z := [98].
Definition key_abb : list Z := [97; 98; 98].
Definition key_abc : list Z := [97; 98; 99].

(** the trie holding the single key "abc" with value 1 *)
Definition trie_abc (cfg : Config) : Judy :=
  insert cfg key_abc 1 (opened [65536] 16 0).

(** the same trie after [judy_nxt] has run off its end *)
Definition trie_abc_done (cfg : Config) : Judy :=
  snd (judy_nxt cfg 64 (trie_abc cfg)).

(** a handle whose only segment is used up by a [judy_data] request and
    whose external allocator has nothing left *)
Definition exhausted : Judy := snd (judy_data 65120 (opened [65536] 16 0)).

(** a handle opened with the largest key bound, which [max++] wraps to 0 *)
Definition wrapped (cfg : Config) : Judy :=
  insert cfg key_a 1 (opened [65536] (2 ^ 32 - 1) 0).

(** the caller's buffer for a key of two digits below 256: two
    [judyvalue]s, the least significant byte of each first *)
Definition key2 (a b : Z) : list Z :=
  [a; 0; 0; 0; 0; 0; 0; 0; b; 0; 0; 0; 0; 0; 0; 0].

(** [judy = judy_open(0, 2); for (i = 0; i < n; i++)
    *judy_cell(judy, {i, 5}, 16) = i + 1;] *)
Definition pairs_trie (cfg : Config) (n : nat) : Judy :=
  fold_left (fun j i => insert cfg (key2 i 5) (i + 1) j) (seqZ 0 (Z.of_nat n))
    (opened [65536] 0 2).

(** ** What an operation may touch *)

(** everything of the state except the cursor: the root slot's address,
    the reuse lists, the segments, the memory (root slot and nodes), the
    allocator, and the two fields fixed at open *)
Definition store_of (j : Judy) :=
  (root j, reuse j, seg j, mem j, heap j, max j, depth j).

Definition turn_state {A : Type} (t : turn A) : Judy :=
  match t with Return _ j => j | Continue _ j => j end.

(** the read-side operations of the interface *)
Inductive read_op : Type :=
| ReadSlot (buff : list Z) (kmax : Z)
| ReadStrt (buff : list Z) (kmax : Z)
| ReadEnd
| ReadNxt
| ReadPrv
| ReadKey (buff : list Z) (kmax : Z).

(** the handle after a read-side operation; [judy_key] only reads it *)
Definition run_read (cfg : Config) (fuel : nat) (o : read_op) (j : Judy) : Judy :=
  match o with
  | ReadSlot buff kmax => snd (judy_slot cfg fuel buff kmax j)
  | ReadStrt buff kmax => snd (judy_strt cfg fuel buff kmax j)
  | ReadEnd => snd (judy_end cfg fuel j)
  | ReadNxt => snd (judy_nxt cfg fuel j)
  | ReadPrv => snd (judy_prv cfg fuel j)
  | ReadKey buff kmax => let _ := judy_key cfg fuel buff kmax j in j
  end.

(** ** The cursor bound *)

Definition cursor_of (j : Judy) : Z * Z := (level j, max j).

(** [0 <= level <= max] with [max = M], for a bound [M] that did not wrap
    to zero at open *)
Definition bounded (M : Z) (c : Z * Z) : Prop :=
  1 <= M < 2 ^ 32 /\ snd c = M /\ 0 <= fst c <= snd c.

(** the operations on an open handle *)
Inductive judy_op : Type :=
| OpCell (buff : list Z) (kmax : Z)
| OpSlot (buff : list Z) (kmax : Z)
| OpStrt (buff : list Z) (kmax : Z)
| OpEnd
| OpNxt
| OpPrv
| OpDel
| OpKey (buff : list Z) (kmax : Z)
| OpData (amt : Z).

Definition run_op (cfg : Config) (fuel : nat) (o : judy_op) (j : Judy) : Judy :=
  match o with
  | OpCell buff kmax => snd (judy_cell cfg fuel buff kmax j)
  | OpSlot buff kmax => snd (judy_slot cfg fuel buff kmax j)
  | OpStrt buff kmax => snd (judy_strt cfg fuel buff kmax j)
  | OpEnd => snd (judy_end cfg fuel j)
  | OpNxt => snd (judy_nxt cfg fuel j)
  | OpPrv => snd (judy_prv cfg fuel j)
  | OpDel => snd (judy_del cfg fuel j)
  | OpKey buff kmax => let _ := judy_key cfg fuel buff kmax j in j
  | OpData amt => snd (judy_data amt j)
  end.

(** a [judy_data] request that leaves room for the segment header *)
Definition data_fits (o : judy_op) : Prop :=
  match o with
  | OpData amt => 0 <= amt <= JUDY_seg - 32
  | _ => True
  end.

(** the bytes [judy_open] takes for the handle: the fixed part and one
    cursor frame for each of the [max] levels *)
Definition handle_size (kmax dpt : Z) : Z :=
  sizeof_Judy
  + (if dpt =? 0 then kmax + 1 else JUDY_key_size * dpt) * sizeof_JudyStack.

(** ** The keys a trie holds *)

(** The content of a trie is read off the node graph, slot by slot, in
    slot order.  A key is the list of its bytes in key order (for an
    integer tree the bytes of each digit, most significant first); in a
    string tree it ends before the terminator. *)

Definition lin_ks (off : Z) : Z := JUDY_key_size - Z.land off JUDY_key_mask.
Definition lin_cnt (cfg : Config) (next off : Z) : Z :=
  JudySize cfg (tag_of next) / (8 + lin_ks off).
Definition lin_node (cfg : Config) (next : Z) : Z :=
  base_of next + JudySize cfg (tag_of next).
(** [&node[-slot - 1]] *)
Definition lin_cell (cfg : Config) (next i : Z) : Z := lin_node cfg next - 8 * (i + 1).
(** [base + slot * keysize] *)
Definition lin_key (next off i : Z) : Z := base_of next + i * lin_ks off.
(** the partial key of a slot as the code reads it *)
Definition lin_val (m : gmap Z Z) (next off i : Z) : Z :=
  Z.land (load64 m (lin_key next off i)) (JudyMask (lin_ks off)).
(** the bytes of a stored partial key, most significant first *)
Definition key_bytes (m : gmap Z Z) (a ks : Z) : list Z :=
  rev (load_bytes (Z.to_nat ks) m a).

(** an occupied slot of a node: the value the cursor holds for it, the key
    bytes it stands for, whether it is a leaf, and its address *)
Record slot_info := mkSI {
  si_slot : Z; si_bytes : list Z; si_leaf : bool; si_cell : Z
}.

Definition lin_info (cfg : Config) (j : Judy) (next off dpt i : Z) : slot_info :=
  mkSI i (key_bytes (mem j) (lin_key next off i) (lin_ks off))
    (fst (is_leaf_key j (base_of next) (lin_ks off) i dpt))
    (lin_cell cfg next i).

Definition lin_first (cfg : Config) (j : Judy) (next off : Z) : Z :=
  first_used (S (Z.to_nat (lin_cnt cfg next off))) (mem j) (lin_node cfg next)
    (lin_cnt cfg next off) 0.

(** the slots of a linear node from slot [from] upwards *)
Definition lin_slots (cfg : Config) (j : Judy) (next off dpt from : Z)
  : list slot_info :=
  List.map (lin_info cfg j next off dpt) (seqZ from (lin_cnt cfg next off - from)).

Definition rad_inner (m : gmap Z Z) (next b : Z) : Z :=
  base_of (load64 m (base_of next + 8 * Z.shiftr b 4)).
Definition rad_cell (m : gmap Z Z) (next b : Z) : Z :=
  rad_inner m next b + 8 * Z.land b 15.
Definition rad_used (m : gmap Z Z) (next b : Z) : bool :=
  negb (rad_inner m next b =? 0) && negb (load64 m (rad_cell m next b) =? 0).
Definition rad_dpt (j : Judy) (off dpt : Z) : Z :=
  if negb (depth j =? 0) && (Z.land (u32 (off + 1)) JUDY_key_mask =? 0)
  then u32 (dpt + 1) else dpt.
Definition rad_info (j : Judy) (next off dpt b : Z) : slot_info :=
  mkSI b [b] (is_leaf_slot j b (rad_dpt j off dpt)) (rad_cell (mem j) next b).

(** the occupied slots of a radix pair from byte [from] upwards *)
Definition rad_slots (j : Judy) (next off dpt from : Z) : list slot_info :=
  List.map (rad_info j next off dpt)
    (List.filter (rad_used (mem j) next) (seqZ from (256 - from))).

Definition span_info (cfg : Config) (j : Judy) (next : Z) : slot_info :=
  mkSI 0 (load_bytes (Z.to_nat (JUDY_span_bytes cfg)) (mem j) (base_of next))
    (load8 (mem j) (base_of next + JUDY_span_bytes cfg - 1) =? 0)
    (base_of next + JudySize cfg JUDY_span - 8).

Definition node_slots (cfg : Config) (j : Judy) (next off dpt : Z)
  : list slot_info :=
  if tag_of next =? JUDY_radix then rad_slots j next off dpt 0
  else if tag_of next =? JUDY_span then [span_info cfg j next]
  else lin_slots cfg j next off dpt (lin_first cfg j next off).

(** offset and digit count below a node *)
Definition child_off (cfg : Config) (next off : Z) : Z :=
  if tag_of next =? JUDY_radix then u32 (off + 1)
  else if tag_of next =? JUDY_span then u32 (off + JUDY_span_bytes cfg)
  else u32 (Z.lor off JUDY_key_mask + 1).
Definition child_dpt (j : Judy) (next off dpt : Z) : Z :=
  if tag_of next =? JUDY_radix then rad_dpt j off dpt
  else if tag_of next =? JUDY_span then dpt
  else if depth j =? 0 then dpt else u32 (dpt + 1).

(** the bytes before the first zero *)
Fixpoint strip0 (bs : list Z) : list Z :=
  match bs with
  | [] => []
  | b :: r => if b =? 0 then [] else b :: strip0 r
  end.

(** what a slot adds to the key: in a string tree the key ends at the
    terminator *)
Definition contrib (j : Judy) (bs : list Z) : list Z :=
  if depth j =? 0 then strip0 bs else bs.

(** the keys below a slot value [next], each with the address of its
    cell, in slot order *)
Fixpoint keys (n : nat) (cfg : Config) (j : Judy) (next off dpt : Z)
  : list (list Z * Z) :=
  match n with
  | O => []
  | S k =>
      if next =? 0 then []
      else
        flat_map
          (fun si =>
             if si_leaf si then [(contrib j (si_bytes si), si_cell si)]
             else List.map (fun kc => (contrib j (si_bytes si) ++ fst kc, snd kc))
                    (keys k cfg j (load64 (mem j) (si_cell si))
                       (child_off cfg next off) (child_dpt j next off dpt)))
          (node_slots cfg j next off dpt)
  end.

(** the digit count the traversal keeps at key offset [off]: none in a
    string tree, the number of whole digits in an integer tree *)
Definition dpt_at (j : Judy) (off : Z) : Z :=
  if depth j =? 0 then 0 else off / JUDY_key_size.

(** the state as the trie sees it: the cursor put aside *)
Definition view (j : Judy) : Judy := set_stack ∅ (set_level 0 j).

(** after the first zero byte there are only zero bytes *)
Definition valid_bytes (bs : list Z) : bool :=
  forallb (fun b => b =? 0) (drop (length (strip0 bs)) bs).

(** the lexicographic order of keys, as lists of bytes *)
Fixpoint lex_lt (a b : list Z) : bool :=
  match a, b with
  | _, [] => false
  | [], _ :: _ => true
  | x :: a', y :: b' =>
      if x <? y then true else if y <? x then false else lex_lt a' b'
  end.

Fixpoint ascending (ks : list (list Z)) : bool :=
  match ks with
  | a :: (b :: _) as r => lex_lt a b && ascending r
  | _ => true
  end.

Definition is_byte (b : Z) : bool := (0 <=? b) && (b <? 256).

(** A well-formed trie below the slot value [next], entered at key offset
    [off] with [lvl] frames on the cursor and a budget of [n] levels:
    the cursor has room for the frame, offsets do not wrap, in an integer
    tree fewer than [depth] digits have been consumed, every occupied slot
    has a non-null address and a non-zero content, a linear node
    has its occupied slots at the top, keys ascending, with zero keys in the
    free slots below; a radix pair has an occupied slot; a span belongs to
    a string tree; stored key bytes are bytes, and in a string tree every
    partial key is zero after its first zero byte; below every slot that is
    not a leaf the trie is well-formed again. *)
Fixpoint wf (n : nat) (cfg : Config) (j : Judy) (next off dpt lvl : Z) : bool :=
  match n with
  | O => false
  | S k =>
      let below si :=
        si_leaf si
        || wf k cfg j (load64 (mem j) (si_cell si)) (child_off cfg next off)
             (child_dpt j next off dpt) (lvl + 1) in
      negb (next =? 0) && (0 <=? lvl) && (lvl <? max j) && (max j <? 2 ^ 32)
      && (0 <=? off) && (off + JUDY_span_bytes cfg + 16 <? 2 ^ 32)
      && (dpt =? dpt_at j off) && ((depth j =? 0) || (dpt <? depth j))
      && (0 <? JUDY_span_bytes cfg)
      && forallb (fun si => negb (si_cell si =? 0)
                            && negb (load64 (mem j) (si_cell si) =? 0)
                            && forallb is_byte (si_bytes si)
                            && ((0 <? depth j) || valid_bytes (si_bytes si))
                            && below si)
           (node_slots cfg j next off dpt)
      && negb (match node_slots cfg j next off dpt with [] => true | _ => false end)
      && (if tag_of next =? JUDY_radix then true
          else if tag_of next =? JUDY_span then depth j =? 0
          else
            let f := lin_first cfg j next off in
            forallb (fun i => lin_val (mem j) next off i =? 0) (seqZ 0 f)
            && ascending (List.map si_bytes (lin_slots cfg j next off dpt f)))
  end.

(** the keys of the whole trie and its well-formedness *)
Definition all_keys (n : nat) (cfg : Config) (j : Judy) : list (list Z * Z) :=
  keys n cfg (view j) (root_slot j) 0 0.
Definition wf_trie (n : nat) (cfg : Config) (j : Judy) : bool :=
  (0 <=? depth j)
  && ((root_slot j =? 0) || wf n cfg (view j) (root_slot j) 0 0 0).

(** ** The cursor over a well-formed trie *)

Definition frame_at (st : gmap Z JudyStack) (i : Z) : JudyStack :=
  default zero_frame (st !! i).

(** is the slot a leaf, or is the trie below it well-formed? *)
Definition below (k : nat) (cfg : Config) (V : Judy) (next off dpt lvl : Z)
  (si : slot_info) : bool :=
  si_leaf si
  || wf k cfg V (load64 (mem V) (si_cell si)) (child_off cfg next off)
       (child_dpt V next off dpt) (lvl + 1).

(** the state after a descent step entered a node and chose a slot *)
Definition entered (j : Judy) (next off : Z) (slot : option Z) : Judy :=
  let j1 := set_frame_next next (set_frame_off off (set_level (level j + 1) j)) in
  match slot with Some s => set_frame_slot s j1 | None => j1 end.

Definition is_lin (next : Z) : Prop :=
  tag_of next <> JUDY_radix /\ tag_of next <> JUDY_span.

(** the slot a frame stands on, and the slots after it in its node *)
Definition frame_si (cfg : Config) (V : Judy) (f : JudyStack) : slot_info :=
  let next := fr_next f in
  let off := fr_off f in
  if tag_of next =? JUDY_radix then rad_info V next off (dpt_at V off) (fr_slot f)
  else if tag_of next =? JUDY_span then span_info cfg V next
  else lin_info cfg V next off (dpt_at V off) (fr_slot f).

Definition frame_after (cfg : Config) (V : Judy) (f : JudyStack) : list slot_info :=
  let next := fr_next f in
  let off := fr_off f in
  if tag_of next =? JUDY_radix then rad_slots V next off (dpt_at V off) (fr_slot f + 1)
  else if tag_of next =? JUDY_span then []
  else lin_slots cfg V next off (dpt_at V off) (fr_slot f + 1).

(** the cells below a list of slots of one node, in order *)
Definition expand (n : nat) (cfg : Config) (V : Judy) (next off dpt : Z)
  (sis : list slot_info) : list Z :=
  flat_map
    (fun si =>
       if si_leaf si then [si_cell si]
       else List.map snd (keys n cfg V (load64 (mem V) (si_cell si))
                            (child_off cfg next off) (child_dpt V next off dpt)))
    sis.

Definition frame_exp (n : nat) (cfg : Config) (V : Judy) (f : JudyStack) : list Z :=
  expand n cfg V (fr_next f) (fr_off f) (dpt_at V (fr_off f)) (frame_after cfg V f).

(** the cells that follow the cursor's position within the frames
    [lo + 1 .. lo + n], the top frame first *)
Fixpoint after (N : nat) (cfg : Config) (V : Judy) (st : gmap Z JudyStack)
  (lo : Z) (n : nat) : list Z :=
  match n with
  | O => []
  | S n' => frame_exp N cfg V (frame_at st (lo + Z.of_nat (S n')))
            ++ after N cfg V st lo n'
  end.

(** a frame of the cursor stands on an occupied slot of a well-formed node *)
Definition frame_ok (N : nat) (cfg : Config) (V : Judy) (st : gmap Z JudyStack)
  (i : Z) : Prop :=
  let f := frame_at st i in
  wf N cfg V (fr_next f) (fr_off f) (dpt_at V (fr_off f)) (i - 1) = true /\
  In (frame_si cfg V f)
     (node_slots cfg V (fr_next f) (fr_off f) (dpt_at V (fr_off f))).

Definition cursor_inv (N : nat) (cfg : Config) (j : Judy) : Prop :=
  0 <= level j /\
  forall i, 1 <= i <= level j -> frame_ok N cfg (view j) (stack j) i.

(** the cells still to come after the cursor *)
Definition to_come (N : nat) (cfg : Config) (j : Judy) : list Z :=
  after N cfg (view j) (stack j) 0 (Z.to_nat (level j)).

(** [judy_nxt] called [n] times; the cells it returned, stopping at NULL *)
Fixpoint nxt_cells (n : nat) (cfg : Config) (fuel : nat) (j : Judy) : list Z :=
  match n with
  | O => []
  | S k =>
      let '(c, j') := judy_nxt cfg fuel j in
      if c =? 0 then [] else c :: nxt_cells k cfg fuel j'
  end.

(** what a step of [judy_first] does on a node whose first slot is [si] *)
Definition first_turn_result (cfg : Config) (j : Judy) (next off dpt : Z)
  (si : slot_info) (rest : list slot_info) (s : option Z) : Prop :=
    node_slots cfg (view j) next off dpt = si :: rest /\
    judy_first_turn cfg (mkWalk next off dpt 0) j
    = (if si_leaf si then Return (si_cell si) (entered j next off s)
       else Continue (mkWalk (load64 (mem j) (si_cell si)) (child_off cfg next off)
                        (child_dpt (view j) next off dpt) 0)
              (entered j next off s)) /\
    frame_si cfg (view j) (frame_at (stack (entered j next off s)) (level j + 1)) = si /\
    frame_after cfg (view j) (frame_at (stack (entered j next off s)) (level j + 1)) = rest.

(** what a turn of [judy_nxt] does, given the slots after the top frame *)
Definition nxt_turn_result (cfg : Config) (fuel : nat) (j : Judy)
  (sis : list slot_info) : turn unit :=
  let f := frame_at (stack j) (level j) in
  match sis with
  | [] => Continue tt (pop_level j)
  | si :: _ =>
      let j1 := set_frame_slot (si_slot si) j in
      if si_leaf si then Return (si_cell si) j1
      else
        let '(p, j2) := judy_first cfg fuel (load64 (mem j) (si_cell si))
                          (child_off cfg (fr_next f) (fr_off f))
                          (child_dpt (view j) (fr_next f) (fr_off f)
                             (dpt_at (view j) (fr_off f))) j1 in
        Return p j2
  end.

(** what [judy_nxt] returns on a positioned cursor *)
Definition nxt_result (N : nat) (cfg : Config) (j : Judy) (r : Z * Judy) : Prop :=
  match to_come N cfg j with
  | [] => fst r = 0 /\ level (snd r) = 0 /\ store_of (snd r) = store_of j
  | c :: rest =>
      fst r = c /\ c <> 0 /\ store_of (snd r) = store_of j /\
      cursor_inv N cfg (snd r) /\ 1 <= level (snd r) /\
      to_come N cfg (snd r) = rest
  end.

(** ** Order of keys *)

Definition lex (a b : list Z) : Prop := lex_lt a b = true.

(** every key is smaller than all the keys after it *)
Definition keys_ascending (ks : list (list Z)) : Prop := StronglySorted lex ks.

(** the keys met below one slot *)
Definition slot_keys (k : nat) (cfg : Config) (V : Judy) (next off dpt : Z)
  (si : slot_info) : list (list Z) :=
  List.map fst
    (if si_leaf si then [(contrib V (si_bytes si), si_cell si)]
     else List.map (fun kc => (contrib V (si_bytes si) ++ fst kc, snd kc))
            (keys k cfg V (load64 (mem V) (si_cell si))
               (child_off cfg next off) (child_dpt V next off dpt))).

Definition key_abd : list Z := [97; 98; 100].
Definition key_abe : list Z := [97; 98; 101].

(** the trie holding "abc", "abd", "abe" (inserted in another order), with
    the cursor sent to the last key by [judy_end] and run off the end by
    [judy_nxt] *)
Definition trie3 (cfg : Config) : Judy :=
  snd (judy_nxt cfg 64
         (snd (judy_end cfg 64
                 (insert cfg key_abc 3 (insert cfg key_abe 2
                    (insert cfg key_abd 1 (opened [65536] 16 0))))))).

(** ** The caller's key and the cursor's path *)

(** the value of a list of bytes, most significant first *)
Fixpoint be_val (bs : list Z) : Z :=
  match bs with
  | [] => 0
  | b :: r => b * 256 ^ Z.of_nat (length r) + be_val r
  end.

(** the value of a list of bytes, least significant first *)
Fixpoint le_val (bs : list Z) : Z :=
  match bs with
  | [] => 0
  | b :: r => b + 256 * le_val r
  end.

Definition bytes (bs : list Z) : Prop := forallb is_byte bs = true.

(** the byte of a string key at a position: zero past its end *)
Definition str_byte (buff : list Z) (kmax i : Z) : Z :=
  if i <? kmax then buf_get buff i else 0.

(** the byte of an integer key at a position: digits are stored as
    little-endian words, the key order is most significant byte first *)
Definition fix_byte (buff : list Z) (i : Z) : Z :=
  buf_get buff (8 * (i / 8) + 7 - i mod 8).

(** the bytes of the caller's key in key order *)
Definition key_at (V : Judy) (buff : list Z) (kmax i : Z) : Z :=
  if depth V =? 0 then str_byte buff kmax i else fix_byte buff i.
Definition key_end (V : Judy) (kmax : Z) : Z :=
  if depth V =? 0 then kmax else JUDY_key_size * depth V.
Definition key_from (V : Judy) (buff : list Z) (kmax off : Z) : list Z :=
  List.map (key_at V buff kmax) (seqZ off (key_end V kmax - off)).

(** what a step of [judy_slot] does on a node when the key goes on
    through its slot [si] *)
Definition slot_turn_result (cfg : Config) (fuel : nat) (buff : list Z) (kmax : Z)
  (j : Judy) (next off dpt test : Z) (si : slot_info) (s : option Z) (test' : Z)
  : Prop :=
  judy_slot_turn cfg fuel buff kmax (mkWalk next off dpt test) j
  = (if si_leaf si then Return (si_cell si) (entered j next off s)
     else Continue (mkWalk (load64 (mem j) (si_cell si)) (child_off cfg next off)
                      (child_dpt (view j) next off dpt) test')
            (entered j next off s)) /\
  frame_si cfg (view j) (frame_at (stack (entered j next off s)) (level j + 1)) = si.

(** the key spelled by the frames [lo + 1 .. lo + n] of the cursor *)
Fixpoint path_key (cfg : Config) (V : Judy) (st : gmap Z JudyStack)
  (lo : Z) (n : nat) : list Z :=
  match n with
  | O => []
  | S n' => path_key cfg V st lo n'
            ++ contrib V (si_bytes (frame_si cfg V (frame_at st (lo + Z.of_nat (S n')))))
  end.

(** the caller's buffer after the bytes [bs] were stored from [pos] on *)
Fixpoint put (buff : list Z) (pos : Z) (bs : list Z) : list Z :=
  match bs with
  | [] => buff
  | b :: r => put (buf_set buff pos b) (pos + 1) r
  end.

(** byte [t] of a word, counted from the least significant *)
Definition byte_of (v t : Z) : Z := Z.land (Z.shiftr v (8 * t)) 255.

(** the byte of the key [K] (in key order) that belongs at index [i] of
    a buffer of little-endian words *)
Definition word_at (K : list Z) (i : Z) : Z :=
  nth (Z.to_nat (8 * (i / 8) + 7 - i mod 8)) K 0.

(** the buffer [B] while [judy_key] assembles an integer key: [d] whole
    words and [r] bytes of the next one are in place *)
Definition key_inv (out K B : list Z) (d r : Z) : Prop :=
  length B = length out /\
  (forall i, 0 <= i < 8 * d -> buf_get B i = word_at K i) /\
  (r <> 0 -> forall s, 0 <= s < 8 ->
     buf_get B (8 * d + s) = if 7 - s <? r then word_at K (8 * d + s) else 0) /\
  (forall i, 8 * d + (if r =? 0 then 0 else 8) <= i -> buf_get B i = buf_get out i).

(** what the frames of a cursor must be like for [judy_key] in an
    integer tree: no spans, bytes, and offsets that add up *)
Definition path_fit (cfg : Config) (j : Judy) (idx len : Z) (n : nat) : Prop :=
  forall m, (m < n)%nat ->
    let f := frame_at (stack j) (idx + Z.of_nat (S m)) in
    tag_of (fr_next f) <> JUDY_span /\
    fr_off f = len + Z.of_nat (length (path_key cfg (view j) (stack j) idx m)) /\
    bytes (si_bytes (frame_si cfg (view j) f)).

(** the key a caller's buffer holds: the bytes of a string, or the bytes
    of the digits of an integer key, most significant first *)
Definition key_of (j : Judy) (buff : list Z) : list Z :=
  if depth j =? 0 then buff
  else List.map (fix_byte buff) (seqZ 0 (JUDY_key_size * depth j)).

(** the cell of "abd" in the sample trie *)
Definition abd_cell : Z := fst (judy_slot cfg_lp64 64 key_abd 3 (trie3 cfg_lp64)).

(** two memories that hold the same bytes on a set of addresses *)
Definition agree (P : Z -> Prop) (m m' : gmap Z Z) : Prop :=
  forall a, P a -> load8 m' a = load8 m a.

(** the entries below the slots [sis] of a node *)
Definition slot_entries (k : nat) (cfg : Config) (V : Judy) (next off dpt : Z)
  (sis : list slot_info) : list (list Z * Z) :=
  flat_map
    (fun si =>
       if si_leaf si then [(contrib V (si_bytes si), si_cell si)]
       else List.map (fun kc => (contrib V (si_bytes si) ++ fst kc, snd kc))
              (keys k cfg V (load64 (mem V) (si_cell si))
                 (child_off cfg next off) (child_dpt V next off dpt)))
    sis.

(** the state after [n] calls of [judy_nxt] *)
Fixpoint nxt_iter (n : nat) (cfg : Config) (fuel : nat) (j : Judy) : Judy :=
  match n with
  | O => j
  | S k => nxt_iter k cfg fuel (snd (judy_nxt cfg fuel j))
  end.

(** *** judy_close: the segments handed back to [free], the newest
    first.  The source follows the links [seg->seg] kept in the first
    word of each segment; the list [seg j] is that chain as long as no
    block handed out reaches a segment header, that is as long as the
    handle fits the first segment and every [judy_data] request leaves
    room for the header. *)
Definition judy_close (j : Judy) : list Z := List.map seg_base (seg j).

(** the blocks of the external allocator: those the array holds, the
    oldest first, followed by those it has yet to hand out *)
Definition arena_of (j : Judy) : list Z := rev (judy_close j) ++ heap j.

(** a sequence of operations on a handle *)
Definition run_ops (cfg : Config) (fuel : nat) (ops : list judy_op) (j : Judy) : Judy :=
  fold_left (fun j o => run_op cfg fuel o j) ops j.

(** *** judy_clone: a second handle on the same trie.  The handle is
    copied into a block of the array's own data memory and its segment
    link is cleared; the result is the clone and the original after the
    call, which share the memory *)
Definition judy_clone (j : Judy) : Judy * Judy :=
  let amt := u32 (sizeof_Judy + max j * sizeof_JudyStack) in
  let '(clone, j1) := judy_data amt j in
  let m := memcpy (mem j1) clone (root j1) amt in
  (mkJudy clone (reuse j1) [] (level j1) (max j1) (depth j1) (stack j1) m (heap j1),
   set_mem m j1).

(** nothing is stored in the bytes a table at address NULL would occupy *)
Definition null_page_clear (j : Judy) : Prop :=
  forall a, 0 <= a < 128 -> load8 (mem j) a = 0.

(** a step of [judy_slot] that does not go on along a key of the trie: it
    returns NULL or the address of an empty cell, or goes on to nothing *)
Definition slot_miss (j : Judy) (t : turn walk) : Prop :=
  match t with
  | Return p _ => p = 0 \/ load64 (mem j) p = 0
  | Continue w _ => w_next w = 0
  end.

(** the bytes of a string key before its end are not zero *)
Definition no_zero (V : Judy) (buff : list Z) (kmax : Z) : Prop :=
  depth V = 0 -> forall i, 0 <= i < kmax -> buf_get buff i <> 0.



(** the slots of a node before the slot a frame stands on *)
Definition frame_before (cfg : Config) (V : Judy) (f : JudyStack) : list slot_info :=
  let next := fr_next f in
  let off := fr_off f in
  if tag_of next =? JUDY_radix then
    List.map (rad_info V next off (dpt_at V off))
      (List.filter (rad_used (mem V) next) (seqZ 0 (fr_slot f)))
  else if tag_of next =? JUDY_span then []
  else
    List.map (lin_info cfg V next off (dpt_at V off))
      (seqZ (lin_first cfg V next off) (fr_slot f - lin_first cfg V next off)).

(** the cells below the slots before a frame's, the nearest first *)
Definition frame_bexp (n : nat) (cfg : Config) (V : Judy) (f : JudyStack) : list Z :=
  rev (expand n cfg V (fr_next f) (fr_off f) (dpt_at V (fr_off f))
         (frame_before cfg V f)).

(** the cells that precede the cursor's position within the frames
    [lo + 1 .. lo + n], the nearest first *)
Fixpoint before (N : nat) (cfg : Config) (V : Judy) (st : gmap Z JudyStack)
  (lo : Z) (n : nat) : list Z :=
  match n with
  | O => []
  | S n' => frame_bexp N cfg V (frame_at st (lo + Z.of_nat (S n')))
            ++ before N cfg V st lo n'
  end.

(** the cells before the cursor, the nearest first *)
Definition gone (N : nat) (cfg : Config) (j : Judy) : list Z :=
  before N cfg (view j) (stack j) 0 (Z.to_nat (level j)).

(** [judy_prv] called [n] times; the cells it returned, stopping at NULL *)
Fixpoint prv_cells (n : nat) (cfg : Config) (fuel : nat) (j : Judy) : list Z :=
  match n with
  | O => []
  | S k =>
      let '(c, j') := judy_prv cfg fuel j in
      if c =? 0 then [] else c :: prv_cells k cfg fuel j'
  end.

(** what a step of [judy_last] does on a node whose last slot is [si] *)
Definition last_turn_result (cfg : Config) (j : Judy) (next off dpt : Z)
  (pre : list slot_info) (si : slot_info) (s : option Z) : Prop :=
    node_slots cfg (view j) next off dpt = pre ++ [si] /\
    judy_last_turn cfg (mkWalk next off dpt 0) j
    = (if si_leaf si then Return (si_cell si) (entered j next off s)
       else Continue (mkWalk (load64 (mem j) (si_cell si)) (child_off cfg next off)
                        (child_dpt (view j) next off dpt) 0)
              (entered j next off s)) /\
    frame_si cfg (view j) (frame_at (stack (entered j next off s)) (level j + 1)) = si /\
    frame_before cfg (view j) (frame_at (stack (entered j next off s)) (level j + 1)) = pre.

(** what [judy_prv] returns on a positioned cursor *)
Definition prv_result (N : nat) (cfg : Config) (j : Judy) (r : Z * Judy) : Prop :=
  match gone N cfg j with
  | [] => fst r = 0 /\ level (snd r) = 0 /\ store_of (snd r) = store_of j
  | c :: rest =>
      fst r = c /\ c <> 0 /\ store_of (snd r) = store_of j /\
      cursor_inv N cfg (snd r) /\ 1 <= level (snd r) /\
      gone N cfg (snd r) = rest
  end.

(** the state in which [judy_prv] leaves a node it found nothing more in:
    the scan of a radix node has counted the frame's slot down to zero *)
Definition prv_rest (j : Judy) : Judy :=
  let f := frame_at (stack j) (level j) in
  if (tag_of (fr_next f) =? JUDY_radix) && negb (fr_slot f =? 0)
  then set_frame_slot 0 j else j.

(** what a turn of [judy_prv] does in a string tree, given the slots
    before the top frame, the nearest first *)
Definition prv_turn_result (cfg : Config) (fuel : nat) (j : Judy)
  (sis : list slot_info) : turn unit :=
  let f := frame_at (stack j) (level j) in
  match sis with
  | [] => Continue tt (pop_level (prv_rest j))
  | si :: _ =>
      let j1 := set_frame_slot (si_slot si) j in
      if si_leaf si then Return (si_cell si) j1
      else
        let '(p, j2) := judy_last cfg fuel (load64 (mem j) (si_cell si))
                          (child_off cfg (fr_next f) (fr_off f))
                          (child_dpt (view j) (fr_next f) (fr_off f)
                             (dpt_at (view j) (fr_off f))) j1 in
        Return p j2
  end.



(** entries whose keys are preceded by the bytes [p] *)
Definition with_prefix (p : list Z) (l : list (list Z * Z)) : list (list Z * Z) :=
  List.map (fun kc => (p ++ fst kc, snd kc)) l.

(** the entries below the slots after frame [lo + m + 1], their keys
    preceded by the bytes the frames [lo + 1 .. lo + m] spell *)
Definition frame_ents (N : nat) (cfg : Config) (V : Judy) (st : gmap Z JudyStack)
  (lo : Z) (m : nat) : list (list Z * Z) :=
  let f := frame_at st (lo + Z.of_nat (S m)) in
  with_prefix (path_key cfg V st lo m)
    (slot_entries N cfg V (fr_next f) (fr_off f) (dpt_at V (fr_off f))
       (frame_after cfg V f)).

(** the entries that follow the cursor's position within the frames
    [lo + 1 .. lo + n], the top frame first *)
Fixpoint after_e (N : nat) (cfg : Config) (V : Judy) (st : gmap Z JudyStack)
  (lo : Z) (n : nat) : list (list Z * Z) :=
  match n with
  | O => []
  | S n' => frame_ents N cfg V st lo n' ++ after_e N cfg V st lo n'
  end.

(** the entries still to come after the cursor *)
Definition to_come_e (N : nat) (cfg : Config) (j : Judy) : list (list Z * Z) :=
  after_e N cfg (view j) (stack j) 0 (Z.to_nat (level j)).

(** the key the frames of the cursor spell *)
Definition cursor_key (cfg : Config) (j : Judy) : list Z :=
  path_key cfg (view j) (stack j) 0 (Z.to_nat (level j)).

(** [judy_nxt] called [n] times, each call followed by [judy_key] into
    the buffer [out]; the keys read and the cells returned, stopping at
    NULL *)
Fixpoint nxt_entries (n : nat) (cfg : Config) (fuel : nat) (out : list Z) (j : Judy)
  : list (list Z * Z) :=
  match n with
  | O => []
  | S k =>
      let '(c, j') := judy_nxt cfg fuel j in
      if c =? 0 then []
      else
        let '(B, len) := judy_key cfg fuel out (Z.of_nat (length out)) j' in
        (take (Z.to_nat len) B, c) :: nxt_entries k cfg fuel out j'
  end.

(** what [judy_nxt] returns on a positioned cursor, with the key the
    cursor spells afterwards *)
Definition nxt_result_e (N : nat) (cfg : Config) (j : Judy) (r : Z * Judy) : Prop :=
  match to_come_e N cfg j with
  | [] => fst r = 0 /\ level (snd r) = 0 /\ store_of (snd r) = store_of j
  | (K, c) :: rest =>
      fst r = c /\ c <> 0 /\ store_of (snd r) = store_of j /\
      cursor_inv N cfg (snd r) /\ 1 <= level (snd r) /\
      to_come_e N cfg (snd r) = rest /\ cursor_key cfg (snd r) = K
  end.

(** the keys of the trie, each with the value its cell holds, in key order *)
Definition contents (N : nat) (cfg : Config) (j : Judy) : list (list Z * Z) :=
  List.map (fun kc => (fst kc, load64 (mem j) (snd kc))) (all_keys N cfg j).

(** a sorted association list: the value [v] stored under the key [k] *)
Fixpoint put_entry (k : list Z) (v : Z) (l : list (list Z * Z)) : list (list Z * Z) :=
  match l with
  | [] => [(k, v)]
  | e :: r =>
      if lex_lt k (fst e) then (k, v) :: l
      else if lex_lt (fst e) k then e :: put_entry k v r
      else (k, v) :: r
  end.

(** [*judy_cell(judy, key, max) = v] for each pair of the list in turn *)
Definition insert_all (cfg : Config) (kvs : list (list Z * Z)) (j : Judy) : Judy :=
  fold_left (fun j kv => insert cfg (fst kv) (snd kv) j) kvs j.

(** a free slot of a linear node of 8-byte keys: key and cell are zero *)
Definition free_slot : list Z * Z := ([0; 0; 0; 0; 0; 0; 0; 0], 0).

(** the slots of a linear node of 8-byte keys at [b]: [ws] gives for each
    slot from slot 0 the key, most significant byte first, and the
    content of its cell *)
Definition node_rep (m : gmap Z Z) (b : Z) (ws : list (list Z * Z)) : Prop :=
  forall i, (i < length ws)%nat ->
    load_bytes 8 m (b + 8 * Z.of_nat i) = rev (fst (nth i ws free_slot)) /\
    load64 m (b + 16 * Z.of_nat (length ws) - 8 * (Z.of_nat i + 1))
    = snd (nth i ws free_slot).

Definition entry_ok (e : list Z * Z) : Prop :=
  length (fst e) = 8%nat /\ bytes (fst e) /\ 0 < snd e < 2 ^ 64.

Definition entries_ok (es : list (list Z * Z)) : Prop :=
  Forall entry_ok es /\ StronglySorted (fun x y => lex (fst x) (fst y)) es.

(** An integer array of depth 1 that consists of one linear node of type
    [t] (of no node when [t] is 0) whose occupied slots are [es]: the
    handle lies at offset [H0] of the only segment [a], the nodes of the
    types [1 .. t] were carved out below it one after the other, the last
    one is the node in use, and no block of a larger type was ever given
    back. *)
Definition node_in_arena (a H0 t : Z) (es : list (list Z * Z)) (j : Judy) : Prop :=
  depth j = 1 /\ 1 <= max j < 2 ^ 32 /\
  seg j = [mkSeg a (H0 - 16 * (2 ^ t - 1))] /\ root j = a + H0 /\
  (forall t', t < t' -> reuse_get j t' = 0) /\
  0 <= t <= 6 /\
  (if t =? 0 then root_slot j = 0 /\ es = []
   else
     let b := a + H0 - 16 * (2 ^ t - 1) in
     tag_of (root_slot j) = t /\ base_of (root_slot j) = b /\
     (1 <= length es)%nat /\ Z.of_nat (length es) <= 2 ^ (t - 1) /\
     node_rep (mem j) b
       (repeat free_slot (Z.to_nat (2 ^ (t - 1)) - length es) ++ es)).

(** the same with entries that are in order and hold values *)
Definition one_node (a H0 t : Z) (es : list (list Z * Z)) (j : Judy) : Prop :=
  node_in_arena a H0 t es j /\ entries_ok es.

(** a key of a slot: eight bytes *)
Definition key_ok (e : list Z * Z) : Prop := length (fst e) = 8%nat /\ bytes (fst e).

(** what a slot holds: a key of eight bytes and a word *)
Definition slot_ok (e : list Z * Z) : Prop := key_ok e /\ 0 <= snd e < 2 ^ 64.

(** the value of the key of an entry *)
Definition kval (e : list Z * Z) : Z := be_val (fst e).

(** the place of the handle in its segment: aligned, with room below it
    for the nodes of all linear types, and addresses that fit a word *)
Definition arena_fits (a H0 : Z) : Prop :=
  0 <= a /\ (a + H0) mod 8 = 0 /\ 1024 <= H0 < 2 ^ 32 /\ a + H0 + 8 <= 2 ^ 64.

(** the address of the cell of the entry that [n2] entries follow in the
    node of type [t] *)
Definition entry_cell (a H0 t : Z) (n2 : nat) : Z :=
  a + H0 - 16 * (2 ^ t - 1) + 8 * 2 ^ (t - 1) + 8 * Z.of_nat n2.

(** the entries without the key [k] *)
Definition remove_entry (k : list Z) (l : list (list Z * Z)) : list (list Z * Z) :=
  List.filter (fun e => lex_lt (fst e) k || lex_lt k (fst e)) l.

(** * Properties *)

(** ** Lower bound ([judy_strt]) *)

(** C4: [judy_strt] is documented to return the cell of the first key
    greater than or equal to the given key.  In the trie that holds only
    "abc" (cell value 1), the key "abc" is found by [judy_slot], it is
    greater than "abb", and yet [judy_strt] on "abb" returns NULL: the
    lookup stops at the span node and [judy_nxt] pops a span frame without
    looking at its key.  The same happens in both layouts. *)
Lemma strt_skips_span_successor :
  (let j := trie_abc cfg_lp64 in
   let cell := fst (judy_slot cfg_lp64 64 key_abc 3 j) in
   cell <> 0 /\ load64 (mem j) cell = 1 /\
   fst (judy_strt cfg_lp64 64 key_abb 3 j) = 0) /\
  (let j := trie_abc cfg_spec in
   let cell := fst (judy_slot cfg_spec 64 key_abc 3 j) in
   cell <> 0 /\ load64 (mem j) cell = 1 /\
   fst (judy_strt cfg_spec 64 key_abb 3 j) = 0).
Proof. vm_compute. repeat split; discriminate. Qed.

(** ** Deletion with an unpositioned cursor *)

(** With [level = 0] the loop of [judy_del] is skipped and the root slot
    is cleared all the same. *)
Lemma judy_del_level0 cfg fuel j :
  level j = 0 ->
  judy_del cfg fuel j = (0, set_mem (store64 (mem j) (root j) 0) j).
Proof.
  intros H. unfold judy_del. simpl. rewrite H. reflexivity.
Qed.

(** C6: [judy_del] on an unpositioned cursor is not a no-op.  In the trie
    that holds "abc", once [judy_nxt] has run off the end ([level = 0]),
    [judy_del] returns NULL but clears the root slot: the key, found
    before, is gone afterwards. *)
Lemma del_unpositioned_empties_trie :
  let j := trie_abc_done cfg_lp64 in
  level j = 0 /\ root_slot j <> 0 /\
  fst (judy_slot cfg_lp64 64 key_abc 3 j) <> 0 /\
  fst (judy_del cfg_lp64 64 j) = 0 /\
  root_slot (snd (judy_del cfg_lp64 64 j)) = 0 /\
  fst (judy_slot cfg_lp64 64 key_abc 3 (snd (judy_del cfg_lp64 64 j))) = 0.
Proof. vm_compute. repeat split; discriminate. Qed.

(** ** Allocation failure *)

(** the arena entry points report the failure of the external allocator *)
Lemma judy_data_null amt j sg r :
  seg j = sg :: r -> heap j = [] ->
  seg_next sg <
    (if negb (Z.land amt (JUDY_cache_line - 1) =? 0)
     then u32 (Z.lor amt (JUDY_cache_line - 1) + 1) else amt) + sizeof_JudySeg ->
  judy_data amt j = (0, j).
Proof.
  intros Hs Hh Hlt. unfold judy_data, head_next, new_segment.
  rewrite Hs, Hh. apply Z.ltb_lt in Hlt. rewrite Hlt. reflexivity.
Qed.

Lemma find_larger_none cfg n type idx amt j :
  (forall t, reuse_get j t = 0) -> find_larger cfg n type idx amt j = None.
Proof.
  intros Hr. revert idx. induction n as [|n IH]; intros idx; [reflexivity|].
  cbn [find_larger].
  destruct (idx <? JUDY_max); [|reflexivity].
  rewrite Hr. change (negb (0 =? 0)) with false. cbv iota. apply IH.
Qed.

Lemma judy_alloc_null cfg type j sg r :
  seg j = sg :: r -> heap j = [] -> (forall t, reuse_get j t = 0) ->
  seg_next sg <
    Z.max JUDY_cache_line (round8 (JudySize cfg (size_class cfg type)))
    + sizeof_JudySeg ->
  judy_alloc cfg type j = (0, j).
Proof.
  intros Hs Hh Hr Hlt. unfold judy_alloc. rewrite Hs, Hr. simpl negb. cbv iota.
  rewrite find_larger_none by exact Hr.
  assert (Hn : new_segment j = None) by (unfold new_segment; rewrite Hh; reflexivity).
  unfold head_next. rewrite Hs.
  set (amt := round8 (JudySize cfg (size_class cfg type))) in *.
  assert (Hm : (if amt <? JUDY_cache_line then JUDY_cache_line else amt)
               = Z.max JUDY_cache_line amt).
  { destruct (Z.ltb_spec amt JUDY_cache_line); lia. }
  rewrite Hm. apply Z.ltb_lt in Hlt. rewrite Hlt, Hn.
  destruct (size_class cfg type >=? JUDY_1); reflexivity.
Qed.

(** C7: the arena reports the failure of the external allocator with NULL,
    but [judy_cell] does not test what [judy_alloc] returns.  On a handle
    whose segment is used up and whose allocator fails, both arena entry
    points return NULL and leave the handle alone; [judy_cell] for "a"
    then stores the tag of a span with a NULL base in the root slot,
    copies the key through the NULL pointer and returns a non-null
    address just below the size of a span. *)
Lemma cell_ignores_failed_alloc :
  judy_alloc cfg_lp64 JUDY_span exhausted = (0, exhausted) /\
  judy_data 64 exhausted = (0, exhausted) /\
  root_slot exhausted = 0 /\
  fst (judy_cell cfg_lp64 64 key_a 1 exhausted) = 24 /\
  root_slot (snd (judy_cell cfg_lp64 64 key_a 1 exhausted)) = JUDY_span /\
  load8 (mem (snd (judy_cell cfg_lp64 64 key_a 1 exhausted))) 0 = 97.
Proof.
  split; [|split].
  - apply judy_alloc_null with (sg := mkSeg 65536 32) (r := []);
      [vm_compute; reflexivity .. | | vm_compute; reflexivity].
    intros t. unfold reuse_get. replace (reuse exhausted) with (∅ : gmap Z Z)
      by (vm_compute; reflexivity).
    rewrite lookup_empty. reflexivity.
  - apply judy_data_null with (sg := mkSeg 65536 32) (r := []);
      vm_compute; reflexivity.
  - vm_compute. repeat split; reflexivity.
Qed.

(** ** The cursor bound *)

(** C9: [judy_open(0xFFFFFFFF, 0)] succeeds and leaves [max = 0], the
    increment that allows for the zero terminator having wrapped.  After
    "a" is stored, inserting "b" splits the span and decrements [level],
    which no push had incremented: [level] ends above [max], so the
    bound [0 <= level <= max] is not preserved by [judy_cell]. *)
Lemma level_exceeds_wrapped_max :
  judy_open [65536] ∅ (2 ^ 32 - 1) 0 = Some (opened [65536] (2 ^ 32 - 1) 0) /\
  max (wrapped cfg_lp64) = 0 /\ level (wrapped cfg_lp64) = 0 /\
  max (snd (judy_cell cfg_lp64 64 key_b 1 (wrapped cfg_lp64))) = 0 /\
  ~ (0 <= level (snd (judy_cell cfg_lp64 64 key_b 1 (wrapped cfg_lp64)))
       <= max (snd (judy_cell cfg_lp64 64 key_b 1 (wrapped cfg_lp64)))).
Proof.
  split; [reflexivity|]. vm_compute. repeat split; try reflexivity.
  intros [_ H]. apply H. reflexivity.
Qed.

(** ** A full node of one-byte keys in the first digit of an integer tree

    [judy_radix] stores the old slot itself in the radix table only when
    the key is complete ([depth == judy->depth]).  When a full node of
    one-byte partial keys is split in a digit that is not the last, the
    partial keys that remain have no byte left ([keysize] is 0), the
    test fails, and a node without key bytes is built around the old
    slot.  The walkers take that node for one of 8-byte partial keys of
    the next digit. *)

Lemma map_eq_at {A B : Type} (f g : A -> B) (l : list A) :
  List.map f l = List.map g l -> forall x, In x l -> f x = g x.
Proof.
  induction l as [|a l IH]; intros H x Hx; [destruct Hx|].
  cbn [List.map] in H. injection H as Ha Hl.
  destruct Hx as [<-|Hx]; [exact Ha | exact (IH Hl x Hx)].
Qed.

Lemma in_seqZ (i n : Z) : 0 <= i < n -> In i (seqZ 0 n).
Proof. intros H. apply list_elem_of_In, elem_of_seqZ. lia. Qed.

Lemma pair_inv {A B : Type} (a c : A) (b d : B) : (a, b) = (c, d) -> a = c /\ b = d.
Proof. intros H. split; [exact (f_equal fst H) | exact (f_equal snd H)]. Qed.

Lemma pairs_trie_S cfg n :
  pairs_trie cfg (S n)
  = insert cfg (key2 (Z.of_nat n) 5) (Z.of_nat n + 1) (pairs_trie cfg n).
Proof.
  unfold pairs_trie. rewrite seqZ_S, fold_left_app. reflexivity.
Qed.

(** C1: an array opened with [judy_open(0, 2)] receives the keys
    [(0,5), (1,5), ..., (56,5)], the value [i + 1] being stored in the
    cell of [(i,5)].  Every [judy_cell] returns a cell.  After 56
    insertions all 56 keys are found by [judy_slot], with their values,
    and [judy_key] reads them back.  The 57th insertion splits the full
    node of one-byte keys in the first digit; after it [judy_slot]
    returns NULL for each of the 56 keys stored before, none of which
    was deleted, and finds only the key stored last. *)
Theorem depth2_split_loses_keys :
  let j56 := pairs_trie cfg_lp64 56 in
  let j57 := pairs_trie cfg_lp64 57 in
  (forall n, 0 <= n < 57 ->
     fst (judy_cell cfg_lp64 64 (key2 n 5) 16 (pairs_trie cfg_lp64 (Z.to_nat n))) <> 0) /\
  (forall i, 0 <= i < 56 ->
     let r := judy_slot cfg_lp64 64 (key2 i 5) 16 j56 in
     fst r <> 0 /\ load64 (mem j56) (fst r) = i + 1 /\
     judy_key cfg_lp64 64 (repeat 0 16) 16 (snd r) = (key2 i 5, 16)) /\
  (forall i, 0 <= i < 56 -> fst (judy_slot cfg_lp64 64 (key2 i 5) 16 j57) = 0) /\
  load64 (mem j57) (fst (judy_slot cfg_lp64 64 (key2 56 5) 16 j57)) = 57.
Proof.
  intros j56 j57. split; [|split; [|split]].
  - intros n Hn.
    assert (H : List.map (fun n => fst (judy_cell cfg_lp64 64 (key2 n 5) 16
                                          (pairs_trie cfg_lp64 (Z.to_nat n))) =? 0)
                  (seqZ 0 57)
                = List.map (fun _ => false) (seqZ 0 57)) by (vm_compute; reflexivity).
    apply Z.eqb_neq.
    pose proof (map_eq_at _ _ _ H n (in_seqZ n 57 Hn)) as H1. cbv beta in H1. exact H1.
  - intros i Hi.
    assert (H : List.map (fun i => (fst (judy_slot cfg_lp64 64 (key2 i 5) 16 j56) =? 0,
                             (load64 (mem j56) (fst (judy_slot cfg_lp64 64 (key2 i 5) 16 j56)),
                             judy_key cfg_lp64 64 (repeat 0 16) 16
                               (snd (judy_slot cfg_lp64 64 (key2 i 5) 16 j56)))))
                  (seqZ 0 56)
                = List.map (fun i => (false, (i + 1, (key2 i 5, 16)))) (seqZ 0 56))
      by (vm_compute; reflexivity).
    pose proof (map_eq_at _ _ _ H i (in_seqZ i 56 Hi)) as H1. cbv beta in H1.
    apply pair_inv in H1. destruct H1 as [H0 H1].
    apply pair_inv in H1. destruct H1 as [Hv Hk].
    cbv zeta. split; [apply Z.eqb_neq, H0|]. split; [exact Hv | exact Hk].
  - intros i Hi.
    assert (H : List.map (fun i => fst (judy_slot cfg_lp64 64 (key2 i 5) 16 j57)) (seqZ 0 56)
                = List.map (fun _ => 0) (seqZ 0 56)) by (vm_compute; reflexivity).
    pose proof (map_eq_at _ _ _ H i (in_seqZ i 56 Hi)) as H1. cbv beta in H1. exact H1.
  - vm_compute. reflexivity.
Qed.

(** C2: on the array [pairs_trie], [judy_nxt] from the unpositioned cursor,
    each call followed by [judy_key].  After 56 insertions the calls
    yield the 56 keys in ascending order, each with the cell that holds
    its value.  After the 57th insertion they yield [(0,0), (1,0), ...,
    (55,0)], none of which was ever stored, before [(56,5)]; the keys
    [(i,5)] with [i < 56] are not visited, and the cell returned with
    [(i,0)] holds, instead of a value, the tagged pointer to the node
    that holds the second digit 5 and the value [i + 1]. *)
Theorem depth2_split_breaks_enumeration :
  let out := repeat 0 16 in
  let j56 := pairs_trie cfg_lp64 56 in
  let j57 := pairs_trie cfg_lp64 57 in
  let visited := nxt_entries 58 cfg_lp64 64 out (set_level 0 j57) in
  List.map (fun e => (fst e, load64 (mem j56) (snd e)))
    (nxt_entries 57 cfg_lp64 64 out (set_level 0 j56))
  = List.map (fun i => (key2 i 5, i + 1)) (seqZ 0 56) /\
  List.map fst visited = List.map (fun i => key2 i 0) (seqZ 0 56) ++ [key2 56 5] /\
  List.map (fun e => let v := load64 (mem j57) (snd e) in
                     (tag_of v, load64 (mem j57) (base_of v),
                      load64 (mem j57) (base_of v + 8)))
    (take 56 visited)
  = List.map (fun i => (JUDY_1, 5, i + 1)) (seqZ 0 56).
Proof.
  intros out j56 j57 visited. split; [|split]; vm_compute; reflexivity.
Qed.

(** C3: [judy_splitnode] applied, as [judy_cell] applies it, to the full
    node of 56 one-byte keys that the array [pairs_trie] holds in its first
    digit after 56 insertions.  Before the call the trie is well formed,
    holds the 56 keys and [judy_slot] finds each with its value; after
    it the trie is not well formed and [judy_slot] returns NULL for
    every one of them: the split changed the set of keys. *)
Theorem splitnode_loses_keys_of_first_digit :
  let j := pairs_trie cfg_lp64 56 in
  let cur := snd (judy_slot cfg_lp64 64 (key2 0 5) 16 j) in
  let next := rad_inner (mem j) (fr_next (frame cur 7)) 0 in
  let j' := judy_splitnode cfg_lp64 next (JudySize cfg_lp64 JUDY_32) 1 1 j in
  load64 (mem j) next = fr_next (frame cur 8) /\
  tag_of (load64 (mem j) next) = JUDY_32 /\ fr_off (frame cur 8) = 7 /\
  wf_trie 10 cfg_lp64 j = true /\
  List.map fst (all_keys 10 cfg_lp64 j)
  = List.map (fun i => key_of j (key2 i 5)) (seqZ 0 56) /\
  (forall i, 0 <= i < 56 ->
     load64 (mem j) (fst (judy_slot cfg_lp64 64 (key2 i 5) 16 j)) = i + 1) /\
  wf_trie 10 cfg_lp64 j' = false /\
  forall i, 0 <= i < 56 -> fst (judy_slot cfg_lp64 64 (key2 i 5) 16 j') = 0.
Proof.
  intros j cur next j'.
  split; [vm_compute; reflexivity|]. split; [vm_compute; reflexivity|].
  split; [vm_compute; reflexivity|]. split; [vm_compute; reflexivity|].
  split; [vm_compute; reflexivity|]. split; [|split; [vm_compute; reflexivity|]].
  - intros i Hi.
    assert (H : List.map (fun i => load64 (mem j) (fst (judy_slot cfg_lp64 64 (key2 i 5) 16 j)))
                  (seqZ 0 56)
                = List.map (fun i => i + 1) (seqZ 0 56)) by (vm_compute; reflexivity).
    pose proof (map_eq_at _ _ _ H i (in_seqZ i 56 Hi)) as H1. cbv beta in H1. exact H1.
  - intros i Hi.
    assert (H : List.map (fun i => fst (judy_slot cfg_lp64 64 (key2 i 5) 16 j')) (seqZ 0 56)
                = List.map (fun _ => 0) (seqZ 0 56)) by (vm_compute; reflexivity).
    pose proof (map_eq_at _ _ _ H i (in_seqZ i 56 Hi)) as H1. cbv beta in H1. exact H1.
Qed.

(** C10: on the array [pairs_trie], [judy_strt] with key length 0.  After 56
    insertions it returns the cell of the smallest key [(0,5)], which
    holds the value 1.  After the 57th insertion that cell still holds
    1, but [judy_strt] returns another slot, which holds the tagged
    pointer to the node that contains the cell, and [judy_key] then
    reads the key [(0,0)], which was never stored. *)
Theorem depth2_split_breaks_strt_zero :
  let j56 := pairs_trie cfg_lp64 56 in
  let j57 := pairs_trie cfg_lp64 57 in
  let c0 := fst (judy_slot cfg_lp64 64 (key2 0 5) 16 j56) in
  let r := judy_strt cfg_lp64 64 [] 0 j57 in
  fst (judy_strt cfg_lp64 64 [] 0 j56) = c0 /\ c0 <> 0 /\
  load64 (mem j56) c0 = 1 /\ load64 (mem j57) c0 = 1 /\
  fst r <> 0 /\ fst r <> c0 /\
  tag_of (load64 (mem j57) (fst r)) = JUDY_1 /\
  base_of (load64 (mem j57) (fst r)) + 8 = c0 /\
  judy_key cfg_lp64 64 (repeat 0 16) 16 (snd r) = (key2 0 0, 16).
Proof.
  intros j56 j57 c0 r.
  repeat match goal with |- _ /\ _ => split end;
    vm_compute; try reflexivity; discriminate.
Qed.

(** ** Read-side operations leave the trie alone *)

Lemma store_set_level l j : store_of (set_level l j) = store_of j.
Proof. reflexivity. Qed.
Lemma store_set_stack st j : store_of (set_stack st j) = store_of j.
Proof. reflexivity. Qed.
Lemma store_set_frame_next v j : store_of (set_frame_next v j) = store_of j.
Proof. reflexivity. Qed.
Lemma store_set_frame_off v j : store_of (set_frame_off v j) = store_of j.
Proof. reflexivity. Qed.
Lemma store_set_frame_slot v j : store_of (set_frame_slot v j) = store_of j.
Proof. reflexivity. Qed.
Lemma store_push_level j : store_of (push_level j) = store_of j.
Proof. unfold push_level. destruct (level j <? max j); reflexivity. Qed.
Lemma store_pop_level j : store_of (pop_level j) = store_of j.
Proof. reflexivity. Qed.

Create Rewrite HintDb store.
#[local] Hint Rewrite store_set_level store_set_stack store_set_frame_next
  store_set_frame_off store_set_frame_slot store_push_level store_pop_level
  : store.

(** a sub-call [f ... j0 = (_, j1)] met while splitting a turn into its
    cases is replaced by what is known of its result *)
Ltac frame_call lem :=
  match goal with
  | H : _ = (_, ?j1) |- context [store_of ?j1] =>
      let Hs := fresh "Hs" in
      pose proof lem as Hs; rewrite H in Hs; cbn [snd] in Hs;
      rewrite Hs; clear H Hs
  end.

Ltac frame_cases :=
  repeat case_match; subst; cbn [turn_state snd fst];
  autorewrite with store; try reflexivity.

(** a loop whose turns preserve [store_of] preserves it *)
Ltac frame_turn Ht IH :=
  match goal with
  | |- context [match ?t with Return _ _ => _ | Continue _ _ => _ end] =>
      pose proof Ht as Hturn;
      destruct t as [? ?|? ?]; [exact Hturn | rewrite IH; exact Hturn]
  end.

Lemma slot_turn_store cfg fuel buff kmax w j :
  store_of (turn_state (judy_slot_turn cfg fuel buff kmax w j)) = store_of j.
Proof. unfold judy_slot_turn. frame_cases. Qed.

Lemma slot_loop_store cfg fuel buff kmax w j :
  store_of (snd (judy_slot_loop cfg fuel buff kmax w j)) = store_of j.
Proof.
  revert w j. induction fuel as [|k IH]; intros w j; [reflexivity|].
  cbn [judy_slot_loop]. destruct (w_next w =? 0); [reflexivity|].
  frame_turn (slot_turn_store cfg (S k) buff kmax w j) IH.
Qed.

Lemma judy_slot_store cfg fuel buff kmax j :
  store_of (snd (judy_slot cfg fuel buff kmax j)) = store_of j.
Proof. unfold judy_slot. rewrite slot_loop_store. reflexivity. Qed.

Lemma first_turn_store cfg w j :
  store_of (turn_state (judy_first_turn cfg w j)) = store_of j.
Proof. unfold judy_first_turn. frame_cases. Qed.

Lemma judy_first_store cfg fuel next off dpt j :
  store_of (snd (judy_first cfg fuel next off dpt j)) = store_of j.
Proof.
  revert next off dpt j.
  induction fuel as [|k IH]; intros next off dpt j; [reflexivity|].
  cbn [judy_first]. destruct (next =? 0); [reflexivity|].
  frame_turn (first_turn_store cfg (mkWalk next off dpt 0) j) IH.
Qed.

Lemma last_radix_store n table slot next j :
  store_of (snd (last_radix n table slot next j)) = store_of j.
Proof.
  revert slot next j. induction n as [|k IH]; intros slot next j; [reflexivity|].
  cbn [last_radix]. repeat case_match; try reflexivity; rewrite IH; reflexivity.
Qed.

Lemma last_turn_store cfg w j :
  store_of (turn_state (judy_last_turn cfg w j)) = store_of j.
Proof.
  unfold judy_last_turn. frame_cases;
    frame_call (last_radix_store 257 (base_of (w_next w)) 256 (w_next w)
                  (set_frame_off (w_off w)
                     (set_frame_next (w_next w) (push_level j))));
    autorewrite with store; reflexivity.
Qed.

Lemma judy_last_store cfg fuel next off dpt j :
  store_of (snd (judy_last cfg fuel next off dpt j)) = store_of j.
Proof.
  revert next off dpt j.
  induction fuel as [|k IH]; intros next off dpt j; [reflexivity|].
  cbn [judy_last]. destruct (next =? 0); [reflexivity|].
  frame_turn (last_turn_store cfg (mkWalk next off dpt 0) j) IH.
Qed.

Lemma judy_end_store cfg fuel j :
  store_of (snd (judy_end cfg fuel j)) = store_of j.
Proof. unfold judy_end. rewrite judy_last_store. reflexivity. Qed.

Lemma nxt_turn_store cfg fuel j :
  store_of (turn_state (judy_nxt_turn cfg fuel j)) = store_of j.
Proof.
  unfold judy_nxt_turn. frame_cases;
    match goal with
    | H : judy_first ?c ?f ?n ?o ?d ?j0 = _ |- _ =>
        frame_call (judy_first_store c f n o d j0)
    end; autorewrite with store; reflexivity.
Qed.

Lemma nxt_loop_store cfg fuel inner j :
  store_of (snd (judy_nxt_loop cfg fuel inner j)) = store_of j.
Proof.
  revert j. induction fuel as [|k IH]; intros j; [reflexivity|].
  cbn [judy_nxt_loop]. destruct (level j =? 0); [reflexivity|].
  frame_turn (nxt_turn_store cfg inner j) IH.
Qed.

Lemma judy_nxt_store cfg fuel j :
  store_of (snd (judy_nxt cfg fuel j)) = store_of j.
Proof.
  unfold judy_nxt. destruct (level j =? 0).
  - apply judy_first_store.
  - apply nxt_loop_store.
Qed.

Lemma prv_radix_store n table slot j :
  store_of (snd (prv_radix n table slot j)) = store_of j.
Proof.
  revert slot j. induction n as [|k IH]; intros slot j; [reflexivity|].
  cbn [prv_radix]. repeat case_match; try reflexivity; rewrite IH; reflexivity.
Qed.

Lemma prv_turn_store cfg fuel j :
  store_of (turn_state (judy_prv_turn cfg fuel j)) = store_of j.
Proof.
  unfold judy_prv_turn. frame_cases;
    repeat match goal with
    | H : judy_last ?c ?f ?n ?o ?d ?j0 = _ |- _ =>
        frame_call (judy_last_store c f n o d j0)
    | H : prv_radix ?n ?t ?s ?j0 = _ |- _ =>
        frame_call (prv_radix_store n t s j0)
    end; autorewrite with store; reflexivity.
Qed.

Lemma prv_loop_store cfg fuel inner j :
  store_of (snd (judy_prv_loop cfg fuel inner j)) = store_of j.
Proof.
  revert j. induction fuel as [|k IH]; intros j; [reflexivity|].
  cbn [judy_prv_loop]. destruct (level j =? 0); [reflexivity|].
  frame_turn (prv_turn_store cfg inner j) IH.
Qed.

Lemma judy_prv_store cfg fuel j :
  store_of (snd (judy_prv cfg fuel j)) = store_of j.
Proof.
  unfold judy_prv. destruct (level j =? 0).
  - apply judy_last_store.
  - apply prv_loop_store.
Qed.

Lemma judy_strt_store cfg fuel buff kmax j :
  store_of (snd (judy_strt cfg fuel buff kmax j)) = store_of j.
Proof.
  unfold judy_strt. destruct (kmax =? 0).
  - rewrite judy_first_store. reflexivity.
  - pose proof (judy_slot_store cfg fuel buff kmax (set_level 0 j)) as Hs.
    destruct (judy_slot cfg fuel buff kmax (set_level 0 j)) as [cell j'].
    destruct (negb (cell =? 0)); [exact Hs|].
    rewrite judy_nxt_store. exact Hs.
Qed.

(** C8: [judy_slot], [judy_strt], [judy_end], [judy_nxt], [judy_prv] and
    [judy_key] change nothing but the cursor ([level] and the stack
    frames): the root slot, every node (the whole memory), the segments,
    the reuse lists, the allocator and the fields fixed at open are the
    same afterwards, whatever the handle, the key and the budget. *)
Theorem read_ops_touch_only_cursor cfg fuel (o : read_op) (j : Judy) :
  let j' := run_read cfg fuel o j in
  root j' = root j /\ mem j' = mem j /\ seg j' = seg j /\
  reuse j' = reuse j /\ heap j' = heap j /\
  max j' = max j /\ depth j' = depth j.
Proof.
  assert (H : store_of (run_read cfg fuel o j) = store_of j).
  { destruct o; cbn [run_read].
    - apply judy_slot_store.
    - apply judy_strt_store.
    - apply judy_end_store.
    - apply judy_nxt_store.
    - apply judy_prv_store.
    - reflexivity. }
  unfold store_of in H. cbv zeta. inversion H. repeat split; assumption.
Qed.

(** ** The cursor stays within its bound *)

Lemma cursor_set_stack st j : cursor_of (set_stack st j) = cursor_of j.
Proof. reflexivity. Qed.
Lemma cursor_set_mem m j : cursor_of (set_mem m j) = cursor_of j.
Proof. reflexivity. Qed.
Lemma cursor_set_reuse r j : cursor_of (set_reuse r j) = cursor_of j.
Proof. reflexivity. Qed.
Lemma cursor_set_seg sg j : cursor_of (set_seg sg j) = cursor_of j.
Proof. reflexivity. Qed.
Lemma cursor_set_heap h j : cursor_of (set_heap h j) = cursor_of j.
Proof. reflexivity. Qed.
Lemma cursor_set_frame_next v j : cursor_of (set_frame_next v j) = cursor_of j.
Proof. reflexivity. Qed.
Lemma cursor_set_frame_off v j : cursor_of (set_frame_off v j) = cursor_of j.
Proof. reflexivity. Qed.
Lemma cursor_set_frame_slot v j : cursor_of (set_frame_slot v j) = cursor_of j.
Proof. reflexivity. Qed.
Lemma cursor_reuse_set t v j : cursor_of (reuse_set t v j) = cursor_of j.
Proof. reflexivity. Qed.
Lemma cursor_set_head_next v j : cursor_of (set_head_next v j) = cursor_of j.
Proof. unfold set_head_next. destruct (seg j); reflexivity. Qed.

Create Rewrite HintDb cursor.
#[local] Hint Rewrite cursor_set_stack cursor_set_mem cursor_set_reuse
  cursor_set_seg cursor_set_heap cursor_set_frame_next cursor_set_frame_off
  cursor_set_frame_slot cursor_reuse_set cursor_set_head_next : cursor.

Ltac cursor_call lem :=
  match goal with
  | H : _ = (_, ?j1) |- context [cursor_of ?j1] =>
      let Hs := fresh "Hs" in
      pose proof lem as Hs; rewrite H in Hs; cbn [snd] in Hs;
      rewrite Hs; clear H Hs
  end.

Ltac cursor_cases :=
  repeat case_match; subst; cbn [turn_state snd fst];
  autorewrite with cursor; try reflexivity.

Lemma break_down_cursor cfg n block type idx j :
  cursor_of (break_down cfg n block type idx j) = cursor_of j.
Proof.
  revert idx j. induction n as [|k IH]; intros idx j; [reflexivity|].
  cbn [break_down]. destruct (idx >? type); [|reflexivity].
  rewrite IH. reflexivity.
Qed.

Lemma find_larger_cursor cfg n type idx amt j :
  match find_larger cfg n type idx amt j with
  | Some r => cursor_of (snd r) = cursor_of j
  | None => True
  end.
Proof.
  revert idx. induction n as [|k IH]; intros idx; cbn [find_larger]; [exact I|].
  destruct (idx <? JUDY_max); [|exact I].
  destruct (negb (reuse_get j (idx + 1) =? 0)).
  - cbn [snd]. autorewrite with cursor.
    rewrite break_down_cursor. reflexivity.
  - apply IH.
Qed.

Lemma fill_line_cursor n idx amt j :
  cursor_of (snd (fill_line n idx amt j)) = cursor_of j.
Proof.
  revert idx amt j. induction n as [|k IH]; intros idx amt j; [reflexivity|].
  cbn [fill_line]. destruct (negb (Z.land amt (JUDY_cache_line - 1) =? 0)); [|reflexivity].
  rewrite IH. reflexivity.
Qed.

Lemma new_segment_cursor j :
  match new_segment j with
  | Some j' => cursor_of j' = cursor_of j
  | None => True
  end.
Proof. unfold new_segment. destruct (heap j); [exact I|]. reflexivity. Qed.

Lemma judy_alloc_cursor cfg type j :
  cursor_of (snd (judy_alloc cfg type j)) = cursor_of j.
Proof.
  unfold judy_alloc.
  destruct (seg j) as [|sg r]; [reflexivity|].
  destruct (negb (reuse_get j (size_class cfg type) =? 0)); [reflexivity|].
  set (amt := round8 (JudySize cfg (size_class cfg type))).
  assert (Hgrow : forall c, match (if c : bool then new_segment j else Some j) with
                       | Some j' => cursor_of j' = cursor_of j | None => True end).
  { intros [|]; [apply new_segment_cursor | reflexivity]. }
  destruct (size_class cfg type >=? JUDY_1).
  - pose proof (find_larger_cursor cfg 8 (size_class cfg type) (size_class cfg type) amt j) as Hf.
    destruct (find_larger cfg 8 (size_class cfg type) (size_class cfg type) amt j) as [r0|];
      [exact Hf|].
    match goal with |- context [if ?c then new_segment j else Some j] =>
      specialize (Hgrow c); destruct (if c then new_segment j else Some j) as [j'|] end;
      [|reflexivity].
    pose proof (fill_line_cursor 32 (size_class cfg type) amt j') as Hl.
    destruct (fill_line 32 (size_class cfg type) amt j') as [amt' j2].
    cbn [snd] in *. autorewrite with cursor. congruence.
  - match goal with |- context [if ?c then new_segment j else Some j] =>
      specialize (Hgrow c); destruct (if c then new_segment j else Some j) as [j'|] end;
      [|reflexivity].
    pose proof (fill_line_cursor 32 (size_class cfg type) amt j') as Hl.
    destruct (fill_line 32 (size_class cfg type) amt j') as [amt' j2].
    cbn [snd] in *. autorewrite with cursor. congruence.
Qed.

Lemma judy_data_cursor amt j : cursor_of (snd (judy_data amt j)) = cursor_of j.
Proof.
  unfold judy_data. destruct (seg j) as [|sg r]; [reflexivity|].
  match goal with |- context [if ?c then new_segment j else Some j] =>
    destruct c end.
  - pose proof (new_segment_cursor j) as Hn.
    destruct (new_segment j) as [j'|]; [|reflexivity].
    cbn [snd]. autorewrite with cursor. exact Hn.
  - cbn [snd]. autorewrite with cursor. reflexivity.
Qed.

Lemma judy_free_cursor cfg block type j :
  cursor_of (judy_free cfg block type j) = cursor_of j.
Proof. reflexivity. Qed.

#[local] Hint Rewrite judy_alloc_cursor judy_data_cursor judy_free_cursor : cursor.

(** destructs the pair returned by a call and records its cursor *)
Ltac alloc_step :=
  match goal with
  | |- context [judy_alloc ?c ?t ?j0] =>
      let Ha := fresh "Ha" in
      pose proof (judy_alloc_cursor c t j0) as Ha;
      destruct (judy_alloc c t j0) as [? ?]; cbn [snd] in Ha
  end.

Lemma judy_promote_cursor cfg next idx value keysize j :
  cursor_of (snd (judy_promote cfg next idx value keysize j)) = cursor_of j.
Proof.
  unfold judy_promote. alloc_step. cbn [snd]. autorewrite with cursor. exact Ha.
Qed.

Lemma judy_radix_cursor cfg radix old start slot keysize key dpt j :
  cursor_of (judy_radix cfg radix old start slot keysize key dpt j) = cursor_of j.
Proof.
  unfold judy_radix.
  destruct (base_of (load64 (mem j) (radix + 8 * Z.shiftr key 4)) =? 0).
  - alloc_step.
    match goal with |- context [if ?c then _ else _] => destruct c end.
    + autorewrite with cursor. exact Ha.
    + alloc_step. autorewrite with cursor in *. congruence.
  - match goal with |- context [if ?c then _ else _] => destruct c end.
    + reflexivity.
    + alloc_step. autorewrite with cursor. exact Ha.
Qed.

Lemma split_groups_cursor cfg n newradix base cnt keysize dpt slot start key j :
  cursor_of (snd (split_groups cfg n newradix base cnt keysize dpt slot start key j))
  = cursor_of j.
Proof.
  revert slot start key j.
  induction n as [|k IH]; intros slot start key j; [reflexivity|].
  cbn [split_groups]. destruct (slot <? cnt); [|reflexivity].
  match goal with |- context [if ?c then _ else _] => destruct c end.
  - apply IH.
  - rewrite IH. apply judy_radix_cursor.
Qed.

Lemma judy_splitnode_cursor cfg next size keysize dpt j :
  cursor_of (judy_splitnode cfg next size keysize dpt j) = cursor_of j.
Proof.
  unfold judy_splitnode. alloc_step.
  match goal with |- context [split_groups ?c ?n ?r ?b ?cn ?k ?d ?s ?st ?ke ?j0] =>
    pose proof (split_groups_cursor c n r b cn k d s st ke j0) as Hg;
    destruct (split_groups c n r b cn k d s st ke j0) as [[? ?] ?] end.
  cbn [snd] in Hg. rewrite judy_free_cursor, judy_radix_cursor, Hg.
  autorewrite with cursor. exact Ha.
Qed.

Lemma span_chain_cursor cfg n next base cnt off j :
  cursor_of (snd (span_chain cfg n next base cnt off j)) = cursor_of j.
Proof.
  revert next cnt off j. induction n as [|k IH]; intros next cnt off j; [reflexivity|].
  cbn [span_chain]. alloc_step.
  match goal with |- context [if ?c then _ else _] => destruct c end.
  - rewrite IH. autorewrite with cursor. exact Ha.
  - cbn [snd]. autorewrite with cursor. exact Ha.
Qed.

Lemma judy_splitspan_cursor cfg fuel next base j :
  cursor_of (judy_splitspan cfg fuel next base j) = cursor_of j.
Proof.
  unfold judy_splitspan.
  pose proof (span_chain_cursor cfg fuel next base (JUDY_span_bytes cfg) 0 j) as Hc.
  destruct (span_chain cfg fuel next base (JUDY_span_bytes cfg) 0 j) as [? ?].
  cbn [snd] in Hc. rewrite judy_free_cursor. autorewrite with cursor. exact Hc.
Qed.

#[local] Hint Rewrite judy_promote_cursor judy_radix_cursor judy_splitnode_cursor
  judy_splitspan_cursor : cursor.

(** *** pushes and pops *)

Lemma push_bounded M j :
  bounded M (cursor_of j) ->
  bounded M (cursor_of (push_level j)) /\ 1 <= fst (cursor_of (push_level j)).
Proof.
  unfold bounded, cursor_of, push_level. cbn [fst snd].
  destruct (Z.ltb_spec (level j) (max j)); cbn [level max set_level]; lia.
Qed.

Lemma pop_bounded M j :
  bounded M (cursor_of j) -> 1 <= fst (cursor_of j) ->
  bounded M (cursor_of (pop_level j)).
Proof.
  unfold bounded, cursor_of, pop_level, u32. cbn [fst snd level max set_level].
  intros (Hm & He & Hl) H1. rewrite Z.mod_small by lia. lia.
Qed.

Lemma reset_bounded M j :
  1 <= M < 2 ^ 32 -> max j = M -> bounded M (cursor_of (set_level 0 j)).
Proof. unfold bounded, cursor_of. cbn [fst snd level max set_level]. lia. Qed.

Lemma bounded_max M j : bounded M (cursor_of j) -> 1 <= M < 2 ^ 32.
Proof. intros [H _]. exact H. Qed.

Lemma bounded_eq M j : bounded M (cursor_of j) -> max j = M.
Proof. intros (_ & H & _). exact H. Qed.

(** a turn that ends on a state with the cursor of [push_level j] *)
Ltac pushed_cases :=
  repeat case_match; subst; cbn [turn_state snd fst];
  autorewrite with cursor; try reflexivity.

Lemma slot_turn_cursor cfg fuel buff kmax w j :
  cursor_of (turn_state (judy_slot_turn cfg fuel buff kmax w j))
  = cursor_of (push_level j).
Proof. unfold judy_slot_turn. pushed_cases. Qed.

Ltac bounded_turn Ht IH :=
  match goal with
  | |- context [match ?t with Return _ _ => _ | Continue _ _ => _ end] =>
      pose proof Ht as Hturn;
      destruct t as [? ?|? ?]; cbn [turn_state snd] in *;
      [ exact Hturn | apply IH; exact Hturn ]
  end.

Lemma slot_loop_bounded M cfg fuel buff kmax w j :
  bounded M (cursor_of j) ->
  bounded M (cursor_of (snd (judy_slot_loop cfg fuel buff kmax w j))).
Proof.
  revert w j. induction fuel as [|k IH]; intros w j Hb; [exact Hb|].
  cbn [judy_slot_loop]. destruct (w_next w =? 0); [exact Hb|].
  assert (Ht : bounded M (cursor_of (turn_state (judy_slot_turn cfg (S k) buff kmax w j)))).
  { rewrite slot_turn_cursor. apply push_bounded, Hb. }
  bounded_turn Ht IH.
Qed.

Lemma first_turn_cursor cfg w j :
  cursor_of (turn_state (judy_first_turn cfg w j)) = cursor_of (push_level j).
Proof. unfold judy_first_turn. pushed_cases. Qed.

Lemma judy_first_bounded M cfg fuel next off dpt j :
  bounded M (cursor_of j) ->
  bounded M (cursor_of (snd (judy_first cfg fuel next off dpt j))).
Proof.
  revert next off dpt j.
  induction fuel as [|k IH]; intros next off dpt j Hb; [exact Hb|].
  cbn [judy_first]. destruct (next =? 0); [exact Hb|].
  assert (Ht : bounded M (cursor_of (turn_state (judy_first_turn cfg (mkWalk next off dpt 0) j)))).
  { rewrite first_turn_cursor. apply push_bounded, Hb. }
  bounded_turn Ht IH.
Qed.

Lemma last_radix_cursor n table slot next j :
  cursor_of (snd (last_radix n table slot next j)) = cursor_of j.
Proof.
  revert slot next j. induction n as [|k IH]; intros slot next j; [reflexivity|].
  cbn [last_radix]. repeat case_match; try reflexivity; rewrite IH; reflexivity.
Qed.

Lemma last_turn_cursor cfg w j :
  cursor_of (turn_state (judy_last_turn cfg w j)) = cursor_of (push_level j).
Proof.
  unfold judy_last_turn. pushed_cases;
    cursor_call (last_radix_cursor 257 (base_of (w_next w)) 256 (w_next w)
                   (set_frame_off (w_off w)
                      (set_frame_next (w_next w) (push_level j))));
    autorewrite with cursor; reflexivity.
Qed.

Lemma judy_last_bounded M cfg fuel next off dpt j :
  bounded M (cursor_of j) ->
  bounded M (cursor_of (snd (judy_last cfg fuel next off dpt j))).
Proof.
  revert next off dpt j.
  induction fuel as [|k IH]; intros next off dpt j Hb; [exact Hb|].
  cbn [judy_last]. destruct (next =? 0); [exact Hb|].
  assert (Ht : bounded M (cursor_of (turn_state (judy_last_turn cfg (mkWalk next off dpt 0) j)))).
  { rewrite last_turn_cursor. apply push_bounded, Hb. }
  bounded_turn Ht IH.
Qed.

(** the result of a sub-call met while splitting a turn into cases *)
Ltac bounded_call lem :=
  match goal with
  | H : _ = (_, ?j1) |- bounded _ (cursor_of ?j1) =>
      let Hs := fresh "Hs" in
      pose proof lem as Hs; rewrite H in Hs; cbn [snd] in Hs; apply Hs
  end.

Lemma nxt_turn_bounded M cfg fuel j :
  bounded M (cursor_of j) -> 1 <= fst (cursor_of j) ->
  bounded M (cursor_of (turn_state (judy_nxt_turn cfg fuel j))).
Proof.
  intros Hb H1. unfold judy_nxt_turn.
  repeat case_match; subst; cbn [turn_state];
    try (apply pop_bounded; assumption);
    try (autorewrite with cursor; assumption);
    match goal with
    | H : judy_first ?c ?f ?n ?o ?d ?j0 = _ |- _ =>
        bounded_call (judy_first_bounded M c f n o d j0)
    end; autorewrite with cursor; assumption.
Qed.

Lemma level_nonzero M j :
  bounded M (cursor_of j) -> (level j =? 0) = false -> 1 <= fst (cursor_of j).
Proof.
  intros (_ & _ & Hl) H. apply Z.eqb_neq in H. cbn [cursor_of fst snd] in *. lia.
Qed.

Lemma nxt_loop_bounded M cfg fuel inner j :
  bounded M (cursor_of j) ->
  bounded M (cursor_of (snd (judy_nxt_loop cfg fuel inner j))).
Proof.
  revert j. induction fuel as [|k IH]; intros j Hb; [exact Hb|].
  cbn [judy_nxt_loop]. destruct (level j =? 0) eqn:Hl; [exact Hb|].
  bounded_turn (nxt_turn_bounded M cfg inner j Hb (level_nonzero M j Hb Hl)) IH.
Qed.

Lemma judy_nxt_bounded M cfg fuel j :
  bounded M (cursor_of j) -> bounded M (cursor_of (snd (judy_nxt cfg fuel j))).
Proof.
  intros Hb. unfold judy_nxt. destruct (level j =? 0).
  - apply judy_first_bounded, Hb.
  - apply nxt_loop_bounded, Hb.
Qed.

Lemma prv_radix_cursor n table slot j :
  cursor_of (snd (prv_radix n table slot j)) = cursor_of j.
Proof.
  revert slot j. induction n as [|k IH]; intros slot j; [reflexivity|].
  cbn [prv_radix]. repeat case_match; try reflexivity; rewrite IH; reflexivity.
Qed.

Lemma prv_turn_bounded M cfg fuel j :
  bounded M (cursor_of j) -> 1 <= fst (cursor_of j) ->
  bounded M (cursor_of (turn_state (judy_prv_turn cfg fuel j))).
Proof.
  intros Hb H1. unfold judy_prv_turn.
  repeat case_match; subst; cbn [turn_state];
    repeat match goal with
    | H : prv_radix ?n ?t ?s ?j0 = (_, ?j1) |- _ =>
        let Hs := fresh "Hs" in
        pose proof (prv_radix_cursor n t s j0) as Hs; rewrite H in Hs;
        cbn [snd] in Hs; clear H
    end;
    try (apply pop_bounded; congruence);
    try (autorewrite with cursor; congruence);
    match goal with
    | H : judy_last ?c ?f ?n ?o ?d ?j0 = _ |- _ =>
        bounded_call (judy_last_bounded M c f n o d j0)
    end; autorewrite with cursor; congruence.
Qed.

Lemma prv_loop_bounded M cfg fuel inner j :
  bounded M (cursor_of j) ->
  bounded M (cursor_of (snd (judy_prv_loop cfg fuel inner j))).
Proof.
  revert j. induction fuel as [|k IH]; intros j Hb; [exact Hb|].
  cbn [judy_prv_loop]. destruct (level j =? 0) eqn:Hl; [exact Hb|].
  bounded_turn (prv_turn_bounded M cfg inner j Hb (level_nonzero M j Hb Hl)) IH.
Qed.

Lemma judy_prv_bounded M cfg fuel j :
  bounded M (cursor_of j) -> bounded M (cursor_of (snd (judy_prv cfg fuel j))).
Proof.
  intros Hb. unfold judy_prv. destruct (level j =? 0).
  - apply judy_last_bounded, Hb.
  - apply prv_loop_bounded, Hb.
Qed.

Lemma judy_slot_bounded M cfg fuel buff kmax j :
  bounded M (cursor_of j) -> bounded M (cursor_of (snd (judy_slot cfg fuel buff kmax j))).
Proof.
  intros Hb. unfold judy_slot. apply slot_loop_bounded.
  apply reset_bounded; [exact (bounded_max M j Hb) | exact (bounded_eq M j Hb)].
Qed.

Lemma judy_strt_bounded M cfg fuel buff kmax j :
  bounded M (cursor_of j) -> bounded M (cursor_of (snd (judy_strt cfg fuel buff kmax j))).
Proof.
  intros Hb. unfold judy_strt.
  assert (H0 : bounded M (cursor_of (set_level 0 j)))
    by (apply reset_bounded; [exact (bounded_max M j Hb) | exact (bounded_eq M j Hb)]).
  destruct (kmax =? 0); [apply judy_first_bounded, H0|].
  pose proof (judy_slot_bounded M cfg fuel buff kmax (set_level 0 j) H0) as Hs.
  destruct (judy_slot cfg fuel buff kmax (set_level 0 j)) as [cell j'].
  destruct (negb (cell =? 0)); [exact Hs|].
  apply judy_nxt_bounded, Hs.
Qed.

Lemma judy_end_bounded M cfg fuel j :
  bounded M (cursor_of j) -> bounded M (cursor_of (snd (judy_end cfg fuel j))).
Proof.
  intros Hb. unfold judy_end. apply judy_last_bounded.
  apply reset_bounded; [exact (bounded_max M j Hb) | exact (bounded_eq M j Hb)].
Qed.

(** *** deletion *)

Lemma del_turn_bounded M cfg fuel j :
  bounded M (cursor_of j) -> 1 <= fst (cursor_of j) ->
  bounded M (cursor_of (turn_state (judy_del_turn cfg fuel j))).
Proof.
  intros Hb H1. unfold judy_del_turn.
  repeat case_match; subst; cbn [turn_state];
    try (apply pop_bounded; autorewrite with cursor; assumption);
    match goal with
    | H : judy_prv ?c ?f ?j0 = _ |- _ =>
        bounded_call (judy_prv_bounded M c f j0)
    end; autorewrite with cursor; assumption.
Qed.

Lemma del_loop_bounded M cfg fuel inner j :
  bounded M (cursor_of j) ->
  bounded M (cursor_of (snd (judy_del_loop cfg fuel inner j))).
Proof.
  revert j. induction fuel as [|k IH]; intros j Hb; [exact Hb|].
  cbn [judy_del_loop]. destruct (level j =? 0) eqn:Hl; [exact Hb|].
  bounded_turn (del_turn_bounded M cfg inner j Hb (level_nonzero M j Hb Hl)) IH.
Qed.

Lemma judy_del_bounded M cfg fuel j :
  bounded M (cursor_of j) -> bounded M (cursor_of (snd (judy_del cfg fuel j))).
Proof. intros Hb. unfold judy_del. apply del_loop_bounded, Hb. Qed.

(** *** insertion *)

(** records what the allocating sub-calls of a turn do to the cursor *)
Ltac note_calls :=
  repeat match goal with
  | H : judy_alloc ?c ?t ?j0 = (_, _) |- _ =>
      let Hs := fresh "Hs" in
      pose proof (judy_alloc_cursor c t j0) as Hs; rewrite H in Hs;
      cbn [snd] in Hs; autorewrite with cursor in Hs; clear H
  | H : judy_promote ?c ?n ?i ?v ?k ?j0 = (_, _) |- _ =>
      let Hs := fresh "Hs" in
      pose proof (judy_promote_cursor c n i v k j0) as Hs; rewrite H in Hs;
      cbn [snd] in Hs; autorewrite with cursor in Hs; clear H
  end.

Ltac chase_cursor :=
  autorewrite with cursor;
  repeat match goal with
  | Hs : cursor_of ?a = _ |- context [cursor_of ?a] =>
      rewrite Hs; autorewrite with cursor
  end.

Lemma cell_turn_bounded M cfg fuel buff kmax w j :
  bounded M (cursor_of j) ->
  bounded M (cursor_of (turn_state (judy_cell_turn cfg fuel buff kmax w j))).
Proof.
  intros Hb. destruct (push_bounded M j Hb) as [Hp Hp1].
  unfold judy_cell_turn.
  repeat case_match; subst; cbn [turn_state]; note_calls;
    first [ apply pop_bounded; chase_cursor; assumption
          | chase_cursor; assumption ].
Qed.

Lemma cell_loop_bounded M cfg fuel buff kmax w j :
  bounded M (cursor_of j) ->
  bounded M (cursor_of (turn_state (judy_cell_loop cfg fuel buff kmax w j))).
Proof.
  revert w j. induction fuel as [|k IH]; intros w j Hb; [exact Hb|].
  cbn [judy_cell_loop].
  destruct (load64 (mem j) (w_next w) =? 0); [exact Hb|].
  pose proof (cell_turn_bounded M cfg (S k) buff kmax w j Hb) as Ht.
  destruct (judy_cell_turn cfg (S k) buff kmax w j) as [p j'|w' j'];
    cbn [turn_state] in *; [exact Ht | apply IH; exact Ht].
Qed.

Lemma push_frame_bounded M ref off j :
  bounded M (cursor_of j) -> bounded M (cursor_of (push_frame ref off j)).
Proof.
  intros Hb. unfold push_frame. autorewrite with cursor. apply push_bounded, Hb.
Qed.

Lemma cell_digit_bounded M cfg buff kmax w j :
  bounded M (cursor_of j) ->
  bounded M (cursor_of (snd (cell_digit cfg buff kmax w j))).
Proof.
  intros Hb. unfold cell_digit.
  repeat case_match; subst; cbn [snd]; note_calls; try exact Hb;
    apply push_frame_bounded; chase_cursor; exact Hb.
Qed.

Lemma cell_spans_bounded M cfg fuel buff kmax next off j :
  bounded M (cursor_of j) ->
  bounded M (cursor_of (snd (cell_spans cfg fuel buff kmax next off j))).
Proof.
  revert next off j. induction fuel as [|k IH]; intros next off j Hb; [exact Hb|].
  cbn [cell_spans]. destruct (off <=? kmax); [|exact Hb].
  pose proof (judy_alloc_cursor cfg JUDY_span j) as Ha.
  destruct (judy_alloc cfg JUDY_span j) as [base j1]. cbn [snd] in Ha.
  match goal with |- context [push_frame ?r ?o ?j0] =>
    assert (Hf : bounded M (cursor_of (push_frame r o j0)))
      by (apply push_frame_bounded; autorewrite with cursor; rewrite Ha; exact Hb)
  end.
  match goal with |- context [if ?c then _ else _] => destruct c end.
  - exact Hf.
  - apply IH. exact Hf.
Qed.

Lemma cell_digits_bounded M cfg fuel buff next off dpt j :
  bounded M (cursor_of j) ->
  bounded M (cursor_of (snd (cell_digits cfg fuel buff next off dpt j))).
Proof.
  revert next off dpt j.
  induction fuel as [|k IH]; intros next off dpt j Hb; [exact Hb|].
  cbn [cell_digits]. destruct (dpt <? depth j); [|exact Hb].
  pose proof (judy_alloc_cursor cfg JUDY_1 j) as Ha.
  destruct (judy_alloc cfg JUDY_1 j) as [base j1]. cbn [snd] in Ha.
  apply IH. apply push_frame_bounded. autorewrite with cursor.
  rewrite Ha. exact Hb.
Qed.

Lemma judy_cell_bounded M cfg fuel buff kmax j :
  bounded M (cursor_of j) ->
  bounded M (cursor_of (snd (judy_cell cfg fuel buff kmax j))).
Proof.
  intros Hb. unfold judy_cell.
  assert (H0 : bounded M (cursor_of (set_level 0 j)))
    by (apply reset_bounded; [exact (bounded_max M j Hb) | exact (bounded_eq M j Hb)]).
  pose proof (cell_loop_bounded M cfg fuel buff kmax
                (mkWalk (root (set_level 0 j)) 0 0 0) (set_level 0 j) H0) as Hl.
  destruct (judy_cell_loop cfg fuel buff kmax
              (mkWalk (root (set_level 0 j)) 0 0 0) (set_level 0 j)) as [p j'|w j'];
    cbn [turn_state] in Hl; [exact Hl|].
  pose proof (cell_digit_bounded M cfg buff kmax w j' Hl) as Hd.
  destruct (cell_digit cfg buff kmax w j') as [w' j2]. cbn [snd] in Hd.
  destruct (depth j2 =? 0).
  - apply cell_spans_bounded, Hd.
  - apply cell_digits_bounded, Hd.
Qed.

Lemma judy_key_run_op cfg fuel buff kmax j :
  run_op cfg fuel (OpKey buff kmax) j = j.
Proof. reflexivity. Qed.

Lemma run_op_bounded M cfg fuel o j :
  bounded M (cursor_of j) -> bounded M (cursor_of (run_op cfg fuel o j)).
Proof.
  intros Hb. destruct o; cbn [run_op].
  - apply judy_cell_bounded, Hb.
  - apply judy_slot_bounded, Hb.
  - apply judy_strt_bounded, Hb.
  - apply judy_end_bounded, Hb.
  - apply judy_nxt_bounded, Hb.
  - apply judy_prv_bounded, Hb.
  - apply judy_del_bounded, Hb.
  - exact Hb.
  - rewrite judy_data_cursor. exact Hb.
Qed.

(** what [judy_open] fixes: the cursor is unpositioned and [max] is the
    key bound plus one, or eight times the depth, as a 32-bit number *)
Lemma judy_open_cursor hp m kmax dpt j :
  judy_open hp m kmax dpt = Some j ->
  level j = 0 /\
  max j = (if negb (dpt =? 0) then u32 (JUDY_key_size * dpt) else u32 (kmax + 1)).
Proof.
  unfold judy_open. destruct hp as [|a h]; [discriminate|].
  intros H. apply (f_equal (fun o => match o with Some x => (level x, max x) | None => (0, 0) end)) in H.
  cbn [level max] in H. inversion H. split; reflexivity.
Qed.


(** ** Traversal: the slot scans *)

Lemma seqZ_cons' (a n : Z) : 0 < n -> seqZ a n = a :: seqZ (a + 1) (n - 1).
Proof. intros H. rewrite seqZ_cons by lia. reflexivity. Qed.

Lemma seqZ_nil' (a n : Z) : n <= 0 -> seqZ a n = [].
Proof. intros H. apply seqZ_nil. lia. Qed.

Lemma first_used_spec n m node cnt s :
  0 <= s -> (Z.to_nat (cnt - s) < n)%nat ->
  let f := first_used n m node cnt s in
  s <= f /\ (f <= cnt \/ f = s) /\
  (forall i, s <= i < f -> load64 m (node - 8 * (i + 1)) = 0) /\
  (f < cnt -> load64 m (node - 8 * (f + 1)) <> 0).
Proof.
  revert s. induction n as [|k IH]; intros s Hs Hn; [lia|].
  cbn [first_used]. destruct (Z.ltb_spec s cnt) as [Hlt|Hge].
  - destruct (Z.eqb_spec (load64 m (node - 8 * (s + 1))) 0) as [Hz|Hnz]; cbn [negb].
    + specialize (IH (s + 1) ltac:(lia) ltac:(lia)). cbv zeta in IH.
      destruct IH as (H1 & H2 & H3 & H4). cbv zeta.
      split; [lia|]. split; [lia|]. split; [|exact H4].
      intros i Hi. destruct (Z.eq_dec i s) as [->|Hne]; [exact Hz|].
      apply H3. lia.
    + cbv zeta. split; [lia|]. split; [lia|]. split; [intros i Hi; lia|].
      intros _. exact Hnz.
  - cbv zeta. split; [lia|]. split; [lia|]. split; [intros i Hi; lia|]. lia.
Qed.

Lemma lin_slots_cons cfg j next off dpt from :
  from < lin_cnt cfg next off ->
  lin_slots cfg j next off dpt from
  = lin_info cfg j next off dpt from :: lin_slots cfg j next off dpt (from + 1).
Proof.
  intros H. unfold lin_slots. rewrite seqZ_cons' by lia. cbn [List.map].
  f_equal. f_equal. f_equal. lia.
Qed.

Lemma lin_slots_nil cfg j next off dpt from :
  lin_cnt cfg next off <= from -> lin_slots cfg j next off dpt from = [].
Proof. intros H. unfold lin_slots. rewrite seqZ_nil' by lia. reflexivity. Qed.

(** bytes of a radix pair *)
Lemma byte_cases (P : Z -> bool) :
  forallb P (seqZ 0 256) = true -> forall b, 0 <= b < 256 -> P b = true.
Proof.
  intros H b Hb. rewrite forallb_forall in H. apply H.
  apply list_elem_of_In, elem_of_seqZ. lia.
Qed.

Lemma lor15_bounds b : 0 <= b < 256 -> b <= Z.lor b 15 < 256.
Proof.
  intros Hb.
  apply (byte_cases (fun b => (b <=? Z.lor b 15) && (Z.lor b 15 <? 256))) in Hb;
    [|vm_compute; reflexivity].
  apply andb_true_iff in Hb. destruct Hb as [H1 H2].
  apply Z.leb_le in H1. apply Z.ltb_lt in H2. lia.
Qed.

Lemma same_outer b c :
  0 <= b < 256 -> b <= c <= Z.lor b 15 -> Z.shiftr c 4 = Z.shiftr b 4.
Proof.
  intros Hb Hc. rewrite !Z.shiftr_div_pow2 by lia.
  assert (Hl : Z.lor b 15 = 16 * (b / 16) + 15).
  { apply (byte_cases (fun b => Z.lor b 15 =? 16 * (b / 16) + 15)) in Hb;
      [|vm_compute; reflexivity]. apply Z.eqb_eq in Hb. exact Hb. }
  change (2 ^ 4) with 16. rewrite Hl in Hc.
  pose proof (Z.div_mod b 16 ltac:(lia)). pose proof (Z.mod_pos_bound b 16 ltac:(lia)).
  symmetry. apply (Z.div_unique c 16 (b / 16) (c - 16 * (b / 16))); lia.
Qed.

Lemma rad_used_outer m next b :
  rad_inner m next b = 0 -> rad_used m next b = false.
Proof. intros H. unfold rad_used. rewrite H. reflexivity. Qed.

Lemma rad_inner_same m next b c :
  Z.shiftr c 4 = Z.shiftr b 4 -> rad_inner m next c = rad_inner m next b.
Proof. intros H. unfold rad_inner. rewrite H. reflexivity. Qed.

Lemma filter_none {A : Type} (P : A -> bool) (l : list A) :
  (forall x, In x l -> P x = false) -> List.filter P l = [].
Proof.
  induction l as [|a l IH]; intros H; [reflexivity|].
  cbn [List.filter]. rewrite (H a (or_introl eq_refl)). apply IH.
  intros x Hx. apply H. right. exact Hx.
Qed.

Lemma In_seqZ (x a n : Z) : In x (seqZ a n) <-> a <= x < a + n.
Proof. rewrite <- list_elem_of_In, elem_of_seqZ. reflexivity. Qed.

(** no used byte in a stretch that shares an empty inner table *)
Lemma filter_skip m next b :
  0 <= b < 256 -> rad_inner m next b = 0 ->
  List.filter (rad_used m next) (seqZ b (256 - b))
  = List.filter (rad_used m next) (seqZ (Z.lor b 15 + 1) (256 - (Z.lor b 15 + 1))).
Proof.
  intros Hb Hi. pose proof (lor15_bounds b Hb) as Hl.
  replace (256 - b) with ((Z.lor b 15 + 1 - b) + (256 - (Z.lor b 15 + 1))) by lia.
  rewrite seqZ_app by lia. rewrite List.filter_app.
  replace (b + (Z.lor b 15 + 1 - b)) with (Z.lor b 15 + 1) by lia.
  rewrite filter_none; [reflexivity|].
  intros c Hc. apply In_seqZ in Hc. apply rad_used_outer.
  rewrite (rad_inner_same m next b c); [exact Hi|].
  apply same_outer; lia.
Qed.

Lemma filter_seqZ_cons (P : Z -> bool) (a n : Z) :
  0 < n ->
  List.filter P (seqZ a n)
  = if P a then a :: List.filter P (seqZ (a + 1) (n - 1))
    else List.filter P (seqZ (a + 1) (n - 1)).
Proof. intros H. rewrite seqZ_cons' by lia. reflexivity. Qed.

(** the scan of [judy_first] finds the first used byte from [s] on *)
Lemma first_radix_spec n m next s nx :
  0 <= s -> (Z.to_nat (256 - s) < n)%nat ->
  match List.filter (rad_used m next) (seqZ s (256 - s)) with
  | [] => exists s' nx', first_radix n m (base_of next) s nx = (s', nx', false)
  | b :: _ =>
      first_radix n m (base_of next) s nx = (b, load64 m (rad_cell m next b), true)
  end.
Proof.
  revert s nx. induction n as [|k IH]; intros s nx Hs Hn; [lia|].
  cbn [first_radix]. destruct (Z.ltb_spec s 256) as [Hlt|Hge].
  - fold (rad_inner m next s).
    destruct (Z.eqb_spec (rad_inner m next s) 0) as [Hz|Hnz]; cbn [negb].
    + rewrite (filter_skip m next s) by (try lia; exact Hz).
      pose proof (lor15_bounds s ltac:(lia)).
      apply IH; lia.
    + fold (rad_cell m next s).
      rewrite filter_seqZ_cons by lia. unfold rad_used at 1.
      destruct (Z.eqb_spec (rad_inner m next s) 0) as [|_]; [contradiction|].
      cbn [negb andb].
      destruct (Z.eqb_spec (load64 m (rad_cell m next s)) 0) as [Hc|Hc]; cbn [negb].
      * replace (256 - s - 1) with (256 - (s + 1)) by lia. apply IH; lia.
      * reflexivity.
  - rewrite seqZ_nil' by lia. cbn [List.filter]. eauto.
Qed.

(** the scan of [judy_nxt] finds the first used byte after [s] *)
Lemma nxt_radix_spec n m next s :
  -1 <= s -> (Z.to_nat (256 - s) < n)%nat ->
  nxt_radix n m (base_of next) s
  = match List.filter (rad_used m next) (seqZ (s + 1) (256 - (s + 1))) with
    | [] => None
    | b :: _ => Some b
    end.
Proof.
  revert s. induction n as [|k IH]; intros s Hs Hn; [lia|].
  cbn [nxt_radix]. cbv zeta. destruct (Z.ltb_spec (s + 1) 256) as [Hlt|Hge].
  - fold (rad_inner m next (s + 1)).
    destruct (Z.eqb_spec (rad_inner m next (s + 1)) 0) as [Hz|Hnz]; cbn [negb].
    + rewrite (filter_skip m next (s + 1)) by (try lia; exact Hz).
      pose proof (lor15_bounds (s + 1) ltac:(lia)).
      apply IH; lia.
    + fold (rad_cell m next (s + 1)).
      rewrite filter_seqZ_cons by lia. unfold rad_used at 1.
      destruct (Z.eqb_spec (rad_inner m next (s + 1)) 0) as [|_]; [contradiction|].
      cbn [negb andb].
      destruct (Z.eqb_spec (load64 m (rad_cell m next (s + 1))) 0) as [Hc|Hc]; cbn [negb].
      * replace (s + 1 + 1) with ((s + 1) + 1) by lia.
        replace (256 - (s + 1) - 1) with (256 - (s + 1 + 1)) by lia.
        apply IH; lia.
      * reflexivity.
  - rewrite seqZ_nil' by lia. reflexivity.
Qed.

(** ** Well-formedness, taken apart *)

Lemma view_store j j' : store_of j' = store_of j -> view j' = view j.
Proof.
  destruct j, j'. unfold store_of, view, set_stack, set_level. cbn.
  intros [= -> -> -> -> -> -> ->]. reflexivity.
Qed.

Lemma wf_S k cfg V next off dpt lvl :
  wf (S k) cfg V next off dpt lvl = true ->
  next <> 0 /\ 0 <= lvl < max V /\ max V < 2 ^ 32 /\
  0 <= off /\ off + JUDY_span_bytes cfg + 16 < 2 ^ 32 /\
  dpt = dpt_at V off /\ (depth V = 0 \/ dpt < depth V) /\
  0 < JUDY_span_bytes cfg /\
  node_slots cfg V next off dpt <> [] /\
  (forall si, In si (node_slots cfg V next off dpt) ->
     si_cell si <> 0 /\
     load64 (mem V) (si_cell si) <> 0 /\
     (0 < depth V \/ valid_bytes (si_bytes si) = true) /\
     below k cfg V next off dpt lvl si = true) /\
  (tag_of next = JUDY_span -> depth V = 0) /\
  (forall si, In si (node_slots cfg V next off dpt) ->
     forallb is_byte (si_bytes si) = true) /\
  (is_lin next ->
     ascending (List.map si_bytes
                  (lin_slots cfg V next off dpt (lin_first cfg V next off))) = true).
Proof.
  cbn [wf]. rewrite !andb_true_iff. intros H.
  destruct H as [H H12]. destruct H as [H H11]. destruct H as [H H10].
  destruct H as [H H9]. destruct H as [H H8]. destruct H as [H H7].
  destruct H as [H H6]. destruct H as [H H5]. destruct H as [H H4].
  destruct H as [H H3]. destruct H as [H1 H2].
  apply negb_true_iff, Z.eqb_neq in H1. apply Z.leb_le in H2. apply Z.ltb_lt in H3.
  apply Z.ltb_lt in H4. apply Z.leb_le in H5. apply Z.ltb_lt in H6.
  apply Z.eqb_eq in H7. apply Z.ltb_lt in H9.
  assert (Hsl : forall si, In si (node_slots cfg V next off dpt) ->
     si_cell si <> 0 /\
     load64 (mem V) (si_cell si) <> 0 /\
     (0 < depth V \/ valid_bytes (si_bytes si) = true) /\
     below k cfg V next off dpt lvl si = true).
  { intros si Hin. rewrite forallb_forall in H10. specialize (H10 si Hin).
    rewrite !andb_true_iff in H10. destruct H10 as ((((Hz & Ha) & _) & Hb) & Hc).
    apply negb_true_iff, Z.eqb_neq in Ha. apply negb_true_iff, Z.eqb_neq in Hz.
    split; [exact Hz|]. split; [exact Ha|]. split; [|exact Hc].
    apply orb_true_iff in Hb. destruct Hb as [Hb|Hb];
      [left; apply Z.ltb_lt, Hb | right; exact Hb]. }
  split; [exact H1|]. split; [lia|]. split; [exact H4|]. split; [exact H5|].
  split; [exact H6|]. split; [exact H7|].
  split; [apply orb_true_iff in H8; destruct H8 as [H8|H8];
          [left; apply Z.eqb_eq, H8 | right; apply Z.ltb_lt, H8]|].
  split; [exact H9|].
  split; [intros Hn; rewrite Hn in H11; discriminate|].
  split; [exact Hsl|].
  split; [intros Ht; rewrite Ht in H12;
          change (JUDY_span =? JUDY_radix) with false in H12;
          change (JUDY_span =? JUDY_span) with true in H12; cbv iota in H12;
          apply Z.eqb_eq, H12|].
  split.
  - intros si Hin. rewrite forallb_forall in H10. specialize (H10 si Hin).
    rewrite !andb_true_iff in H10. destruct H10 as ((((_ & _) & Hy) & _) & _).
    exact Hy.
  - intros [Hr Hs]. apply Z.eqb_neq in Hr. apply Z.eqb_neq in Hs.
    rewrite Hr, Hs in H12. apply andb_true_iff in H12. apply H12.
Qed.

Lemma push_level_lt j :
  level j < max j -> push_level j = set_level (level j + 1) j.
Proof. intros H. unfold push_level. apply Z.ltb_lt in H. rewrite H. reflexivity. Qed.

(** projections of a state see through the cursor updates *)
Ltac see_through :=
  cbn [depth mem max root reuse seg heap
       set_frame_slot set_frame_next set_frame_off set_level set_stack view].

Lemma first_turn_lin cfg j next off dpt :
  is_lin next -> level j < max j ->
  let f := lin_first cfg (view j) next off in
  let si := lin_info cfg (view j) next off dpt f in
  judy_first_turn cfg (mkWalk next off dpt 0) j
  = if si_leaf si then Return (si_cell si) (entered j next off (Some f))
    else Continue (mkWalk (load64 (mem j) (si_cell si)) (child_off cfg next off)
                     (child_dpt (view j) next off dpt) 0)
           (entered j next off (Some f)).
Proof.
  intros [Hr Hs] Hl. unfold judy_first_turn. rewrite push_level_lt by exact Hl.
  cbn [w_next w_off w_depth].
  apply Z.eqb_neq in Hr. apply Z.eqb_neq in Hs. rewrite Hr, Hs.
  unfold child_off, child_dpt. rewrite Hr, Hs.
  unfold lin_info, is_leaf_key, entered, lin_first, lin_cnt, lin_node, lin_cell, lin_ks.
  cbn [si_leaf si_cell]. see_through.
  destruct (depth j =? 0); reflexivity.
Qed.

Lemma first_turn_rad cfg j next off dpt b tl :
  tag_of next = JUDY_radix -> level j < max j ->
  List.filter (rad_used (mem j) next) (seqZ 0 256) = b :: tl ->
  let si := rad_info (view j) next off dpt b in
  judy_first_turn cfg (mkWalk next off dpt 0) j
  = if si_leaf si then Return (si_cell si) (entered j next off (Some b))
    else Continue (mkWalk (load64 (mem j) (si_cell si)) (child_off cfg next off)
                     (child_dpt (view j) next off dpt) 0)
           (entered j next off (Some b)).
Proof.
  intros Hr Hl Hf. unfold judy_first_turn. rewrite push_level_lt by exact Hl.
  cbn [w_next w_off w_depth]. rewrite Hr.
  change (JUDY_radix =? JUDY_radix) with true. cbv iota.
  unfold child_off, child_dpt. rewrite Hr.
  change (JUDY_radix =? JUDY_radix) with true. cbv iota.
  see_through.
  pose proof (first_radix_spec 257 (mem j) next 0 next ltac:(lia) ltac:(vm_compute; lia)) as Hs.
  change (256 - 0) with 256 in Hs. rewrite Hf in Hs. rewrite Hs.
  unfold rad_info, entered, rad_dpt, is_leaf_slot, rad_cell, rad_inner.
  cbn [si_leaf si_cell]. see_through. reflexivity.
Qed.

Lemma first_turn_span cfg j next off dpt :
  tag_of next = JUDY_span -> level j < max j ->
  let si := span_info cfg (view j) next in
  judy_first_turn cfg (mkWalk next off dpt 0) j
  = if si_leaf si then Return (si_cell si) (entered j next off None)
    else Continue (mkWalk (load64 (mem j) (si_cell si)) (child_off cfg next off)
                     (child_dpt (view j) next off dpt) 0)
           (entered j next off None).
Proof.
  intros Hs Hl. unfold judy_first_turn. rewrite push_level_lt by exact Hl.
  cbn [w_next w_off w_depth]. rewrite Hs.
  change (JUDY_span =? JUDY_radix) with false.
  change (JUDY_span =? JUDY_span) with true. cbv iota.
  unfold child_off, child_dpt. rewrite Hs.
  change (JUDY_span =? JUDY_radix) with false.
  change (JUDY_span =? JUDY_span) with true. cbv iota.
  unfold span_info, entered. cbn [si_leaf si_cell]. see_through.
  replace (base_of next + JudySize cfg JUDY_span - 8)
    with (base_of next + JudySize cfg JUDY_span - 8) by reflexivity.
  reflexivity.
Qed.

(** ** A larger budget changes nothing *)

Lemma flat_map_in_ext {A B : Type} (f g : A -> list B) (l : list A) :
  (forall a, In a l -> f a = g a) -> flat_map f l = flat_map g l.
Proof.
  induction l as [|a l IH]; intros H; [reflexivity|].
  cbn [flat_map]. rewrite (H a (or_introl eq_refl)). f_equal.
  apply IH. intros b Hb. apply H. right. exact Hb.
Qed.

Lemma forallb_in_impl {A : Type} (f g : A -> bool) (l : list A) :
  (forall a, In a l -> f a = true -> g a = true) ->
  forallb f l = true -> forallb g l = true.
Proof.
  intros H Hf. rewrite forallb_forall in *. intros a Ha. apply H; auto.
Qed.

Lemma wf_keys_mono k cfg V :
  forall next off dpt lvl,
  wf k cfg V next off dpt lvl = true ->
  wf (S k) cfg V next off dpt lvl = true /\
  keys (S k) cfg V next off dpt = keys k cfg V next off dpt.
Proof.
  induction k as [|k IH]; intros next off dpt lvl H; [discriminate|].
  split.
  - revert H. cbn [wf]. rewrite !andb_true_iff.
    intros H.
    destruct H as [H H12]. destruct H as [H H11]. destruct H as [H H10].
    repeat split; try tauto.
    revert H10. apply forallb_in_impl. intros si Hin.
    rewrite !andb_true_iff. intros [Hab Hc]. split; [exact Hab|].
    apply orb_true_iff in Hc. apply orb_true_iff.
    destruct Hc as [Hc|Hc]; [left; exact Hc|right].
    apply (IH _ _ _ _ Hc).
  - apply wf_S in H. destruct H as (Hn & _ & _ & _ & _ & _ & _ & _ & _ & Hsl & _).
    cbn [keys]. apply Z.eqb_neq in Hn. rewrite Hn.
    apply flat_map_in_ext. intros si Hin.
    destruct (Hsl si Hin) as (_ & _ & _ & Hb). unfold below in Hb.
    destruct (si_leaf si); [reflexivity|]. cbn [orb] in Hb.
    f_equal. apply (IH _ _ _ _ Hb).
Qed.

Lemma wf_mono k k' cfg V next off dpt lvl :
  (k <= k')%nat -> wf k cfg V next off dpt lvl = true ->
  wf k' cfg V next off dpt lvl = true /\
  keys k' cfg V next off dpt = keys k cfg V next off dpt.
Proof.
  intros Hle H. induction Hle as [|k' Hle IH]; [split; [exact H|reflexivity]|].
  destruct IH as [Hw Hk]. destruct (wf_keys_mono k' cfg V _ _ _ _ Hw) as [Hw' Hk'].
  split; [exact Hw'|]. rewrite Hk'. exact Hk.
Qed.

Lemma expand_mono k k' cfg V next off dpt lvl sis :
  (k <= k')%nat ->
  (forall si, In si sis -> below k cfg V next off dpt lvl si = true) ->
  expand k' cfg V next off dpt sis = expand k cfg V next off dpt sis.
Proof.
  intros Hle H. unfold expand. apply flat_map_in_ext. intros si Hin.
  specialize (H si Hin). unfold below in H.
  destruct (si_leaf si); [reflexivity|]. cbn [orb] in H.
  f_equal. apply (wf_mono k k' cfg V _ _ _ _ Hle H).
Qed.

Lemma keys_cells k cfg V next off dpt :
  next <> 0 ->
  List.map snd (keys (S k) cfg V next off dpt)
  = expand k cfg V next off dpt (node_slots cfg V next off dpt).
Proof.
  intros Hn. cbn [keys]. apply Z.eqb_neq in Hn. rewrite Hn.
  unfold expand. induction (node_slots cfg V next off dpt) as [|si l IHl];
    [reflexivity|].
  cbn [flat_map]. rewrite List.map_app, IHl. f_equal.
  destruct (si_leaf si); [reflexivity|].
  rewrite List.map_map. reflexivity.
Qed.

(** ** Frames *)

Lemma entered_frame j next off s :
  frame_at (stack (entered j next off (Some s))) (level j + 1) = mkFrame next off s.
Proof.
  unfold entered, set_frame_slot, set_frame_next, set_frame_off, frame, frame_at.
  cbn [stack level set_stack set_level].
  rewrite !lookup_insert_eq. reflexivity.
Qed.

Lemma entered_frame_none j next off :
  frame_at (stack (entered j next off None)) (level j + 1)
  = mkFrame next off (fr_slot (frame_at (stack j) (level j + 1))).
Proof.
  unfold entered, set_frame_next, set_frame_off, frame, frame_at.
  cbn [stack level set_stack set_level].
  rewrite !lookup_insert_eq. reflexivity.
Qed.

Lemma entered_frame_ne j next off s i :
  i <> level j + 1 ->
  frame_at (stack (entered j next off s)) i = frame_at (stack j) i.
Proof.
  intros Hi.
  unfold entered, set_frame_slot, set_frame_next, set_frame_off, frame, frame_at.
  destruct s; cbn [stack level set_stack set_level];
    rewrite !lookup_insert_ne by lia; reflexivity.
Qed.

Lemma entered_level j next off s : level (entered j next off s) = level j + 1.
Proof. destruct s; reflexivity. Qed.

Lemma entered_store j next off s : store_of (entered j next off s) = store_of j.
Proof. destruct s; reflexivity. Qed.

Lemma entered_view j next off s : view (entered j next off s) = view j.
Proof. destruct s; reflexivity. Qed.

Lemma filter_seqZ_head (P : Z -> bool) (a n b : Z) (tl : list Z) :
  List.filter P (seqZ a n) = b :: tl ->
  a <= b < a + n /\ P b = true /\
  tl = List.filter P (seqZ (b + 1) (a + n - (b + 1))).
Proof.
  destruct (Z.le_gt_cases n 0) as [Hn|Hn];
    [rewrite seqZ_nil' by lia; discriminate|].
  rewrite <- (Z2Nat.id n) by lia. generalize (Z.to_nat n) as k. clear Hn n.
  intros k. revert a. induction k as [|k IH]; intros a; [discriminate|].
  rewrite seqZ_cons' by lia. cbn [List.filter].
  replace (Z.of_nat (S k) - 1) with (Z.of_nat k) by lia.
  destruct (P a) eqn:Hp.
  - intros [= <- <-]. split; [lia|]. split; [exact Hp|].
    f_equal. f_equal. lia.
  - intros H. apply IH in H. destruct H as (H1 & H2 & H3).
    split; [lia|]. split; [exact H2|]. rewrite H3. f_equal. f_equal. lia.
Qed.

Lemma tag_cases next :
  tag_of next = JUDY_radix \/ tag_of next = JUDY_span \/ is_lin next.
Proof.
  unfold is_lin. destruct (Z.eq_dec (tag_of next) JUDY_radix); [tauto|].
  destruct (Z.eq_dec (tag_of next) JUDY_span); tauto.
Qed.

Lemma node_slots_lin cfg V next off dpt :
  is_lin next ->
  node_slots cfg V next off dpt = lin_slots cfg V next off dpt (lin_first cfg V next off).
Proof.
  intros [Hr Hs]. unfold node_slots.
  apply Z.eqb_neq in Hr. apply Z.eqb_neq in Hs. rewrite Hr, Hs. reflexivity.
Qed.

Lemma node_slots_rad cfg V next off dpt :
  tag_of next = JUDY_radix ->
  node_slots cfg V next off dpt = rad_slots V next off dpt 0.
Proof. intros Hr. unfold node_slots. rewrite Hr. reflexivity. Qed.

Lemma node_slots_span cfg V next off dpt :
  tag_of next = JUDY_span ->
  node_slots cfg V next off dpt = [span_info cfg V next].
Proof. intros Hr. unfold node_slots. rewrite Hr. reflexivity. Qed.

Lemma rad_slots_0 j next off dpt :
  rad_slots (view j) next off dpt 0
  = List.map (rad_info (view j) next off dpt)
      (List.filter (rad_used (mem j) next) (seqZ 0 256)).
Proof. reflexivity. Qed.

Lemma rad_slots_from j next off dpt b :
  rad_slots (view j) next off dpt (b + 1)
  = List.map (rad_info (view j) next off dpt)
      (List.filter (rad_used (mem j) next) (seqZ (b + 1) (0 + 256 - (b + 1)))).
Proof. reflexivity. Qed.

Lemma first_turn_spec_rad cfg j next off :
  tag_of next = JUDY_radix -> level j < max j ->
  node_slots cfg (view j) next off (dpt_at (view j) off) <> [] ->
  exists si rest s, first_turn_result cfg j next off (dpt_at (view j) off) si rest s.
Proof.
  intros Hr Hl Hne. set (dpt := dpt_at (view j) off) in *.
  rewrite node_slots_rad in Hne by exact Hr. rewrite rad_slots_0 in Hne.
  destruct (List.filter (rad_used (mem j) next) (seqZ 0 256)) as [|b tl] eqn:Hf;
    [contradiction|].
  exists (rad_info (view j) next off dpt b),
         (List.map (rad_info (view j) next off dpt) tl), (Some b).
  unfold first_turn_result.
  split; [rewrite node_slots_rad by exact Hr; rewrite rad_slots_0, Hf; reflexivity|].
  split; [apply (first_turn_rad cfg j next off dpt b tl); [exact Hr|lia|exact Hf]|].
  rewrite entered_frame. unfold frame_si, frame_after. cbn [fr_next fr_off fr_slot].
  rewrite Hr. change (JUDY_radix =? JUDY_radix) with true. cbv iota.
  fold dpt. split; [reflexivity|].
  rewrite rad_slots_from.
  apply filter_seqZ_head in Hf. destruct Hf as (_ & _ & ->).
  reflexivity.
Qed.

Lemma first_turn_spec_span cfg j next off :
  tag_of next = JUDY_span -> level j < max j ->
  exists si rest s, first_turn_result cfg j next off (dpt_at (view j) off) si rest s.
Proof.
  intros Hs Hl.
  exists (span_info cfg (view j) next), [], None. unfold first_turn_result.
  split; [apply node_slots_span, Hs|].
  split; [apply first_turn_span; [exact Hs|lia]|].
  rewrite entered_frame_none. unfold frame_si, frame_after.
  cbn [fr_next fr_off fr_slot]. rewrite Hs.
  change (JUDY_span =? JUDY_radix) with false.
  change (JUDY_span =? JUDY_span) with true. cbv iota. split; reflexivity.
Qed.

Lemma first_turn_spec_lin cfg j next off :
  is_lin next -> level j < max j ->
  node_slots cfg (view j) next off (dpt_at (view j) off) <> [] ->
  exists si rest s, first_turn_result cfg j next off (dpt_at (view j) off) si rest s.
Proof.
  intros Hlin Hl Hne. set (dpt := dpt_at (view j) off) in *.
  rewrite node_slots_lin in Hne by exact Hlin.
  set (f := lin_first cfg (view j) next off) in *.
  destruct (Z.lt_ge_cases f (lin_cnt cfg next off)) as [Hf|Hf];
    [|rewrite lin_slots_nil in Hne by lia; contradiction].
  exists (lin_info cfg (view j) next off dpt f),
         (lin_slots cfg (view j) next off dpt (f + 1)), (Some f).
  unfold first_turn_result.
  split; [rewrite node_slots_lin by exact Hlin; fold f;
          apply lin_slots_cons; exact Hf|].
  split; [apply first_turn_lin; [exact Hlin|lia]|].
  rewrite entered_frame. unfold frame_si, frame_after. cbn [fr_next fr_off fr_slot].
  destruct Hlin as [Hr Hs]. apply Z.eqb_neq in Hr. apply Z.eqb_neq in Hs.
  rewrite Hr, Hs. fold dpt. split; reflexivity.
Qed.

(** one step of [judy_first] on a well-formed node takes its first slot *)
Lemma first_turn_spec k cfg j next off dpt :
  wf (S k) cfg (view j) next off dpt (level j) = true ->
  exists si rest s, first_turn_result cfg j next off dpt si rest s.
Proof.
  intros H. apply wf_S in H.
  destruct H as (Hn & Hl & _ & _ & _ & Hd & _ & _ & Hne & _ & _).
  assert (Hl' : level j < max j) by (destruct Hl as [_ Hl]; exact Hl).
  subst dpt.
  destruct (tag_cases next) as [Hr|[Hs|Hlin]].
  - apply first_turn_spec_rad; assumption.
  - apply first_turn_spec_span; assumption.
  - apply first_turn_spec_lin; assumption.
Qed.

(** ** The slots after a frame belong to its node *)

Lemma lin_slots_in cfg V next off dpt from si :
  In si (lin_slots cfg V next off dpt from) <->
  exists i, from <= i < lin_cnt cfg next off /\ si = lin_info cfg V next off dpt i.
Proof.
  unfold lin_slots. rewrite in_map_iff. split.
  - intros (i & <- & Hi). apply In_seqZ in Hi. exists i. split; [lia|reflexivity].
  - intros (i & Hi & ->). exists i. split; [reflexivity|]. apply In_seqZ. lia.
Qed.

Lemma rad_slots_in V next off dpt from si :
  0 <= from ->
  In si (rad_slots V next off dpt from) <->
  exists b, from <= b < 256 /\ rad_used (mem V) next b = true /\
            si = rad_info V next off dpt b.
Proof.
  intros Hf. unfold rad_slots. rewrite in_map_iff. split.
  - intros (b & <- & Hb). apply filter_In in Hb. destruct Hb as [Hb Hu].
    apply In_seqZ in Hb. exists b. split; [lia|]. split; [exact Hu|reflexivity].
  - intros (b & Hb & Hu & ->). exists b. split; [reflexivity|].
    apply filter_In. split; [apply In_seqZ; lia|exact Hu].
Qed.

Lemma frame_after_incl cfg V f :
  In (frame_si cfg V f)
     (node_slots cfg V (fr_next f) (fr_off f) (dpt_at V (fr_off f))) ->
  forall si, In si (frame_after cfg V f) ->
  In si (node_slots cfg V (fr_next f) (fr_off f) (dpt_at V (fr_off f))).
Proof.
  intros Hin si Hsi. unfold frame_si, frame_after in *.
  destruct (tag_cases (fr_next f)) as [Hr|[Hs|Hlin]].
  - rewrite node_slots_rad in * by exact Hr. rewrite Hr in *.
    change (JUDY_radix =? JUDY_radix) with true in *. cbv iota in *.
    apply rad_slots_in in Hin; [|lia]. destruct Hin as (b & Hb & _ & Heq).
    apply (f_equal si_slot) in Heq. cbn [si_slot rad_info] in Heq.
    apply rad_slots_in in Hsi; [|lia]. destruct Hsi as (c & Hc & Hu & ->).
    apply rad_slots_in; [lia|]. exists c. split; [lia|]. split; [exact Hu|reflexivity].
  - rewrite Hs in Hsi. change (JUDY_span =? JUDY_radix) with false in Hsi.
    change (JUDY_span =? JUDY_span) with true in Hsi. cbv iota in Hsi.
    destruct Hsi.
  - rewrite node_slots_lin in * by exact Hlin. destruct Hlin as [Hr Hs].
    apply Z.eqb_neq in Hr. apply Z.eqb_neq in Hs. rewrite Hr, Hs in *.
    apply lin_slots_in in Hin. destruct Hin as (i & Hi & Heq).
    apply (f_equal si_slot) in Heq. cbn [si_slot lin_info] in Heq.
    apply lin_slots_in in Hsi. destruct Hsi as (c & Hc & ->).
    apply lin_slots_in. exists c. split; [lia|reflexivity].
Qed.

Lemma frame_exp_mono k k' cfg V st i :
  (k <= k')%nat -> frame_ok k cfg V st i ->
  frame_exp k' cfg V (frame_at st i) = frame_exp k cfg V (frame_at st i).
Proof.
  intros Hle [Hw Hin]. destruct k as [|k0]; [discriminate|].
  apply wf_S in Hw. destruct Hw as (_ & _ & _ & _ & _ & _ & _ & _ & _ & Hsl & _).
  unfold frame_exp.
  assert (Hb : forall si, In si (frame_after cfg V (frame_at st i)) ->
                below k0 cfg V (fr_next (frame_at st i)) (fr_off (frame_at st i))
                  (dpt_at V (fr_off (frame_at st i))) (i - 1) si = true).
  { intros si Hsi. apply (frame_after_incl cfg V _ Hin) in Hsi.
    apply (Hsl si Hsi). }
  rewrite (expand_mono k0 k' cfg V _ _ _ _ _ ltac:(lia) Hb).
  rewrite (expand_mono k0 (S k0) cfg V _ _ _ _ _ ltac:(lia) Hb).
  reflexivity.
Qed.

Lemma frame_ok_mono k k' cfg V st i :
  (k <= k')%nat -> frame_ok k cfg V st i -> frame_ok k' cfg V st i.
Proof.
  intros Hle [Hw Hin]. split; [|exact Hin].
  apply (wf_mono k k' cfg V _ _ _ _ Hle Hw).
Qed.

Lemma after_mono k k' cfg V st lo n :
  (k <= k')%nat ->
  (forall i, lo < i <= lo + Z.of_nat n -> frame_ok k cfg V st i) ->
  after k' cfg V st lo n = after k cfg V st lo n.
Proof.
  intros Hle. induction n as [|n IH]; intros H; [reflexivity|].
  cbn [after]. rewrite (frame_exp_mono k k') by (try exact Hle; apply H; lia).
  rewrite IH by (intros i Hi; apply H; lia). reflexivity.
Qed.

Lemma after_shift N cfg V st lo n :
  after N cfg V st lo (S n)
  = after N cfg V st (lo + 1) n ++ frame_exp N cfg V (frame_at st (lo + 1)).
Proof.
  induction n as [|n IH].
  - cbn [after]. rewrite app_nil_r. reflexivity.
  - change (after N cfg V st lo (S (S n)))
      with (frame_exp N cfg V (frame_at st (lo + Z.of_nat (S (S n))))
            ++ after N cfg V st lo (S n)).
    rewrite IH. cbn [after]. rewrite <- app_assoc. f_equal. f_equal. f_equal. lia.
Qed.

(** frames that agree give the same cells *)
Lemma after_ext N cfg V st st' lo n :
  (forall i, lo < i <= lo + Z.of_nat n -> frame_at st' i = frame_at st i) ->
  after N cfg V st' lo n = after N cfg V st lo n.
Proof.
  induction n as [|n IH]; intros H; [reflexivity|].
  cbn [after]. rewrite H by lia. rewrite IH by (intros i Hi; apply H; lia).
  reflexivity.
Qed.

Lemma frame_ok_ext N cfg V st st' i :
  frame_at st' i = frame_at st i -> frame_ok N cfg V st i -> frame_ok N cfg V st' i.
Proof. unfold frame_ok. intros ->. tauto. Qed.

Lemma entered_fields j next off s :
  fr_next (frame_at (stack (entered j next off s)) (level j + 1)) = next /\
  fr_off (frame_at (stack (entered j next off s)) (level j + 1)) = off.
Proof.
  destruct s; [rewrite entered_frame|rewrite entered_frame_none]; split; reflexivity.
Qed.

(** the frame a descent step leaves is a good one *)
Lemma entered_frame_ok k cfg j next off dpt si rest s :
  wf (S k) cfg (view j) next off dpt (level j) = true ->
  first_turn_result cfg j next off dpt si rest s ->
  frame_ok (S k) cfg (view j) (stack (entered j next off s)) (level j + 1).
Proof.
  intros Hw (Hns & _ & Hsi & _).
  pose proof Hw as Hw'. apply wf_S in Hw'.
  destruct Hw' as (_ & _ & _ & _ & _ & Hd & _).
  destruct (entered_fields j next off s) as [Hfn Hfo].
  unfold frame_ok. cbv zeta. rewrite Hsi, Hfn, Hfo, <- Hd, Hns.
  replace (level j + 1 - 1) with (level j) by lia.
  split; [exact Hw|left; reflexivity].
Qed.

(** [judy_first] below a well-formed slot returns the first cell and
    leaves the cursor on it *)
Lemma judy_first_spec k cfg :
  forall fuel j next off dpt,
  wf k cfg (view j) next off dpt (level j) = true -> (k <= fuel)%nat ->
  exists c j' n,
    judy_first cfg fuel next off dpt j = (c, j') /\ c <> 0 /\
    store_of j' = store_of j /\ level j' = level j + Z.of_nat (S n) /\
    (forall i, i <= level j -> frame_at (stack j') i = frame_at (stack j) i) /\
    (forall i, level j < i <= level j' -> frame_ok k cfg (view j) (stack j') i) /\
    List.map snd (keys k cfg (view j) next off dpt)
    = c :: after k cfg (view j) (stack j') (level j) (S n).
Proof.
  induction k as [|k IH]; intros fuel j next off dpt Hw Hfuel; [discriminate|].
  destruct fuel as [|fuel]; [lia|].
  destruct (first_turn_spec k cfg j next off dpt Hw) as (si & rest & s & Hres).
  pose proof (entered_frame_ok k cfg j next off dpt si rest s Hw Hres) as Hfok.
  destruct Hres as (Hns & Hturn & Hsi & Hafter).
  pose proof Hw as Hw'. apply wf_S in Hw'.
  destruct Hw' as (Hn & Hl & _ & _ & _ & Hd & _ & _ & _ & Hsl & _).
  assert (Hbelow : forall x, In x (si :: rest) ->
            below k cfg (view j) next off dpt (level j) x = true).
  { intros x Hx. rewrite <- Hns in Hx. apply (Hsl x Hx). }
  destruct (Hsl si ltac:(rewrite Hns; left; reflexivity)) as (Hc0 & _ & _ & Hb).
  destruct (entered_fields j next off s) as [Hfn Hfo].
  cbn [judy_first]. apply Z.eqb_neq in Hn. rewrite Hn. rewrite Hturn.
  rewrite keys_cells by (apply Z.eqb_neq; exact Hn). rewrite Hns.
  unfold below in Hb. destruct (si_leaf si) eqn:Hleaf.
  - exists (si_cell si), (entered j next off s), O.
    split; [reflexivity|]. split; [exact Hc0|].
    split; [apply entered_store|]. split; [apply entered_level|].
    split; [intros i Hi; apply entered_frame_ne; lia|].
    split.
    + intros i Hi. rewrite entered_level in Hi.
      replace i with (level j + 1) by lia. exact Hfok.
    + unfold expand at 1. cbn [flat_map]. rewrite Hleaf. cbn [app]. f_equal.
      cbn [after]. rewrite app_nil_r. unfold frame_exp.
      change (Z.of_nat 1) with 1. rewrite Hafter, Hfn, Hfo, <- Hd.
      symmetry. apply (expand_mono k (S k) cfg (view j) next off dpt (level j));
        [lia|]. intros x Hx. apply Hbelow. right. exact Hx.
  - cbn [orb] in Hb. cbn [w_next w_off w_depth].
    set (j1 := entered j next off s) in *.
    assert (Hv : view j1 = view j) by apply entered_view.
    assert (Hl1 : level j1 = level j + 1) by apply entered_level.
    destruct (IH fuel j1 (load64 (mem j) (si_cell si)) (child_off cfg next off)
                (child_dpt (view j) next off dpt)) as (c & j' & n & Hf & Hcn & Hst & Hlv & Hfr & Hok & Hk).
    { rewrite Hv, Hl1. exact Hb. }
    { lia. }
    rewrite Hv in Hok, Hk. rewrite Hl1 in Hlv, Hfr, Hok, Hk.
    exists c, j', (S n).
    split; [exact Hf|]. split; [exact Hcn|].
    split; [rewrite Hst; apply entered_store|].
    split; [rewrite Hlv; lia|].
    split; [intros i Hi; rewrite Hfr by lia; apply entered_frame_ne; lia|].
    split.
    + intros i Hi. destruct (Z.eq_dec i (level j + 1)) as [->|Hne].
      * apply (frame_ok_ext _ _ _ (stack j1)); [apply Hfr; lia|exact Hfok].
      * apply (frame_ok_mono k (S k)); [lia|]. apply Hok. lia.
    + unfold expand at 1. cbn [flat_map]. rewrite Hleaf.
      change (mem (view j)) with (mem j). rewrite Hk.
      rewrite (after_shift (S k)). cbn [app]. f_equal.
      rewrite (after_mono k (S k)) by (try lia; intros i Hi; apply Hok; lia).
      f_equal. unfold frame_exp. rewrite Hfr by lia. fold j1.
      rewrite Hafter, Hfn, Hfo, <- Hd.
      symmetry. apply (expand_mono k (S k) cfg (view j) next off dpt (level j));
        [lia|]. intros x Hx. apply Hbelow. right. exact Hx.
Qed.

(** ** The digit count does not matter in a string tree *)

Lemma first_turn_string cfg next off dpt dpt' j :
  depth j = 0 ->
  judy_first_turn cfg (mkWalk next off dpt 0) j
  = match judy_first_turn cfg (mkWalk next off dpt' 0) j with
    | Return p j' => Return p j'
    | Continue w j' => Continue (mkWalk (w_next w) (w_off w) dpt (w_test w)) j'
    end.
Proof.
  intros Hd. unfold judy_first_turn, is_leaf_key, is_leaf_slot, push_level.
  cbn [w_next w_off w_depth].
  destruct (level j <? max j); see_through; rewrite Hd;
    change (0 =? 0) with true; cbn [negb andb orb];
    repeat case_match; try reflexivity; congruence.
Qed.

Lemma judy_first_string cfg fuel next off dpt dpt' j :
  depth j = 0 ->
  judy_first cfg fuel next off dpt j = judy_first cfg fuel next off dpt' j.
Proof.
  revert next off dpt dpt' j.
  induction fuel as [|k IH]; intros next off dpt dpt' j Hd; [reflexivity|].
  cbn [judy_first]. destruct (next =? 0); [reflexivity|].
  rewrite (first_turn_string cfg next off dpt dpt' j Hd).
  pose proof (first_turn_store cfg (mkWalk next off dpt' 0) j) as Hs.
  destruct (judy_first_turn cfg (mkWalk next off dpt' 0) j) as [p j'|w j'];
    [reflexivity|].
  cbn [w_next w_off w_depth]. apply IH.
  cbn [turn_state] in Hs. apply (f_equal snd) in Hs. cbn [snd store_of] in Hs.
  rewrite Hs. exact Hd.
Qed.

(** ** One turn of [judy_nxt] *)

Lemma judy_first_dpt cfg fuel next off dpt dpt' j :
  (depth j <> 0 -> dpt = dpt') ->
  judy_first cfg fuel next off dpt j = judy_first cfg fuel next off dpt' j.
Proof.
  intros H. destruct (Z.eq_dec (depth j) 0) as [Hd|Hd].
  - apply judy_first_string, Hd.
  - rewrite (H Hd). reflexivity.
Qed.

Lemma nxt_turn_lin cfg fuel j :
  is_lin (fr_next (frame_at (stack j) (level j))) ->
  judy_nxt_turn cfg fuel j
  = nxt_turn_result cfg fuel j (frame_after cfg (view j) (frame_at (stack j) (level j))).
Proof.
  intros [Hr Hs]. unfold judy_nxt_turn, frame_after, nxt_turn_result, frame.
  fold (frame_at (stack j) (level j)).
  set (f := frame_at (stack j) (level j)) in *.
  apply Z.eqb_neq in Hr. apply Z.eqb_neq in Hs. rewrite Hr, Hs.
  fold (lin_ks (fr_off f)). fold (lin_cnt cfg (fr_next f) (fr_off f)).
  destruct (Z.ltb_spec (fr_slot f + 1) (lin_cnt cfg (fr_next f) (fr_off f))) as [Hlt|Hge].
  - rewrite lin_slots_cons by exact Hlt.
    unfold lin_info, is_leaf_key, child_off, child_dpt, dpt_at. rewrite Hr, Hs.
    cbn [si_leaf si_cell si_slot fst snd]. see_through.
    fold (lin_node cfg (fr_next f)). fold (lin_cell cfg (fr_next f) (fr_slot f + 1)).
    destruct (depth j =? 0) eqn:Hd.
    + cbn [fst snd].
      destruct (load8 (mem j) (base_of (fr_next f) + (fr_slot f + 1) * lin_ks (fr_off f)) =? 0);
        [reflexivity|].
      rewrite (judy_first_dpt cfg fuel _ _ (fr_off f / JUDY_key_size) 0);
        [reflexivity|].
      intros Hne. cbn [depth set_frame_slot set_stack] in Hne.
      apply Z.eqb_eq in Hd. contradiction.
    + cbn [fst snd]. reflexivity.
  - rewrite lin_slots_nil by lia. reflexivity.
Qed.

Lemma nxt_turn_span cfg fuel j :
  tag_of (fr_next (frame_at (stack j) (level j))) = JUDY_span ->
  judy_nxt_turn cfg fuel j
  = nxt_turn_result cfg fuel j (frame_after cfg (view j) (frame_at (stack j) (level j))).
Proof.
  intros Hs. unfold judy_nxt_turn, frame_after, nxt_turn_result, frame.
  fold (frame_at (stack j) (level j)). rewrite Hs. reflexivity.
Qed.

Lemma nxt_turn_rad cfg fuel j :
  let f := frame_at (stack j) (level j) in
  tag_of (fr_next f) = JUDY_radix -> 0 <= fr_slot f ->
  (depth j <> 0 -> rad_dpt (view j) (fr_off f) (dpt_at (view j) (fr_off f)) <= depth j) ->
  judy_nxt_turn cfg fuel j
  = nxt_turn_result cfg fuel j (frame_after cfg (view j) f).
Proof.
  intros f Hr Hslot Hdpt. unfold judy_nxt_turn, frame_after, nxt_turn_result, frame.
  fold (frame_at (stack j) (level j)). fold f. rewrite Hr.
  change (JUDY_radix =? JUDY_radix) with true. cbv iota.
  rewrite (nxt_radix_spec 257 (mem j) (fr_next f) (fr_slot f)) by lia.
  unfold rad_slots. change (mem (view j)) with (mem j).
  destruct (List.filter (rad_used (mem j) (fr_next f))
              (seqZ (fr_slot f + 1) (256 - (fr_slot f + 1)))) as [|b tl] eqn:Hf;
    [reflexivity|].
  apply filter_seqZ_head in Hf. destruct Hf as (Hb & _ & _).
  cbn [List.map]. unfold rad_info at 1 2 3. cbn [si_leaf si_cell si_slot].
  unfold child_off, child_dpt. rewrite Hr.
  change (JUDY_radix =? JUDY_radix) with true. cbv iota.
  fold (rad_inner (mem j) (fr_next f) b). fold (rad_cell (mem j) (fr_next f) b).
  change (mem (view j)) with (mem j).
  unfold is_leaf_slot. change (depth (view j)) with (depth j).
  change (depth (set_frame_slot b j)) with (depth j).
  change (mem (set_frame_slot b j)) with (mem j).
  destruct (Z.eqb_spec (depth j) 0) as [Hd|Hd]; cbn [negb andb orb].
  - destruct (Z.eqb_spec b 0) as [Hb0|_]; [lia|].
    rewrite (judy_first_dpt cfg fuel _ _ _
               (rad_dpt (view j) (fr_off f) (dpt_at (view j) (fr_off f))));
      [reflexivity|].
    intros Hne. exfalso. apply Hne. exact Hd.
  - specialize (Hdpt Hd). unfold rad_dpt, dpt_at in *.
    change (depth (view j)) with (depth j) in *.
    destruct (Z.eqb_spec (depth j) 0) as [|_]; [contradiction|]. cbn [negb andb] in *.
    set (d := if Z.land (u32 (fr_off f + 1)) JUDY_key_mask =? 0
              then u32 (fr_off f / JUDY_key_size + 1)
              else fr_off f / JUDY_key_size) in *.
    destruct (Z.ltb_spec d (depth j)) as [Hlt|Hge];
      destruct (Z.eqb_spec d (depth j)) as [He|He]; try lia; reflexivity.
Qed.

(** ** A step of the cursor *)

Lemma slot_frame j s :
  frame_at (stack (set_frame_slot s j)) (level j)
  = mkFrame (fr_next (frame_at (stack j) (level j)))
            (fr_off (frame_at (stack j) (level j))) s.
Proof.
  unfold set_frame_slot, frame, frame_at. cbn [stack set_stack].
  rewrite lookup_insert_eq. reflexivity.
Qed.

Lemma slot_frame_ne j s i :
  i <> level j -> frame_at (stack (set_frame_slot s j)) i = frame_at (stack j) i.
Proof.
  intros Hi. unfold set_frame_slot, frame, frame_at. cbn [stack set_stack].
  rewrite lookup_insert_ne by lia. reflexivity.
Qed.

Lemma pop_level_ok j :
  1 <= level j < 2 ^ 32 -> level (pop_level j) = level j - 1.
Proof.
  intros H. unfold pop_level, u32. cbn [level set_level].
  apply Z.mod_small. lia.
Qed.

Lemma after_app N cfg V st lo m n :
  after N cfg V st lo (m + n)
  = after N cfg V st (lo + Z.of_nat n) m ++ after N cfg V st lo n.
Proof.
  induction m as [|m IH]; [reflexivity|].
  cbn [Nat.add after]. rewrite IH, <- app_assoc. f_equal. f_equal. f_equal. lia.
Qed.

Lemma after_top N cfg V st l :
  1 <= l ->
  after N cfg V st 0 (Z.to_nat l)
  = frame_exp N cfg V (frame_at st l) ++ after N cfg V st 0 (Z.to_nat (l - 1)).
Proof.
  intros Hl. replace (Z.to_nat l) with (S (Z.to_nat (l - 1))) by lia.
  cbn [after]. f_equal. f_equal. f_equal. lia.
Qed.

(** the slot a frame stands on is determined by the frame's slot field *)
Lemma frame_si_slot cfg V f si :
  In si (frame_after cfg V f) ->
  frame_si cfg V (mkFrame (fr_next f) (fr_off f) (si_slot si)) = si.
Proof.
  unfold frame_after, frame_si. cbn [fr_next fr_off fr_slot].
  destruct (tag_of (fr_next f) =? JUDY_radix) eqn:Hr.
  - unfold rad_slots. rewrite in_map_iff. intros (b & <- & _). reflexivity.
  - destruct (tag_of (fr_next f) =? JUDY_span) eqn:Hs.
    + intros [].
    + unfold lin_slots. rewrite in_map_iff. intros (b & <- & _). reflexivity.
Qed.

Lemma frame_after_next cfg V f si rest :
  frame_after cfg V f = si :: rest ->
  frame_after cfg V (mkFrame (fr_next f) (fr_off f) (si_slot si)) = rest.
Proof.
  unfold frame_after. cbn [fr_next fr_off fr_slot].
  destruct (tag_of (fr_next f) =? JUDY_radix) eqn:Hr.
  - unfold rad_slots.
    destruct (List.filter (rad_used (mem V) (fr_next f))
                (seqZ (fr_slot f + 1) (256 - (fr_slot f + 1)))) as [|b tl] eqn:Hf;
      [discriminate|].
    cbn [List.map]. intros [= <- <-]. cbn [si_slot rad_info].
    apply filter_seqZ_head in Hf. destruct Hf as (_ & _ & ->).
    f_equal. f_equal. f_equal. lia.
  - destruct (tag_of (fr_next f) =? JUDY_span) eqn:Hs; [discriminate|].
    destruct (Z.lt_ge_cases (fr_slot f + 1) (lin_cnt cfg (fr_next f) (fr_off f)))
      as [Hlt|Hge].
    + rewrite lin_slots_cons by exact Hlt. intros [= <- <-]. reflexivity.
    + rewrite lin_slots_nil by lia. discriminate.
Qed.

Lemma frame_ok_facts N cfg V st i :
  frame_ok N cfg V st i ->
  let f := frame_at st i in
  i - 1 < max V /\ max V < 2 ^ 32 /\ 0 <= i - 1 /\
  (tag_of (fr_next f) = JUDY_radix -> 0 <= fr_slot f) /\
  (depth V <> 0 -> rad_dpt V (fr_off f) (dpt_at V (fr_off f)) <= depth V).
Proof.
  intros [Hw Hin] f. destruct N as [|N]; [discriminate|].
  apply wf_S in Hw. fold f in Hw, Hin.
  destruct Hw as (_ & Hl & Hm & Hoff & _ & _ & Hd & _).
  split; [lia|]. split; [exact Hm|]. split; [lia|]. split.
  - intros Hr. rewrite node_slots_rad in Hin by exact Hr.
    apply rad_slots_in in Hin; [|lia]. destruct Hin as (b & Hb & _ & Heq).
    apply (f_equal si_slot) in Heq. unfold frame_si in Heq. rewrite Hr in Heq.
    change (JUDY_radix =? JUDY_radix) with true in Heq. cbv iota in Heq.
    cbn [si_slot rad_info] in Heq. lia.
  - intros Hne. destruct Hd as [Hd|Hd]; [contradiction|].
    unfold rad_dpt, dpt_at in *.
    assert (Hnn : 0 <= fr_off f / JUDY_key_size)
      by (apply Z.div_pos; [exact Hoff | reflexivity]).
    destruct (depth V =? 0); cbn [negb andb] in *; [lia|].
    destruct (Z.land (u32 (fr_off f + 1)) JUDY_key_mask =? 0); [|lia].
    unfold u32. pose proof (Z.mod_le (fr_off f / JUDY_key_size + 1) (2 ^ 32)
                              ltac:(lia) ltac:(lia)). lia.
Qed.

(** a turn of [judy_nxt] looks at the slots after the top frame *)
Lemma nxt_turn_spec N cfg fuel j :
  frame_ok N cfg (view j) (stack j) (level j) ->
  judy_nxt_turn cfg fuel j
  = nxt_turn_result cfg fuel j
      (frame_after cfg (view j) (frame_at (stack j) (level j))).
Proof.
  intros Hok. destruct (frame_ok_facts N cfg _ _ _ Hok) as (_ & _ & _ & Hs & Hd).
  destruct (tag_cases (fr_next (frame_at (stack j) (level j)))) as [Hr|[Hsp|Hlin]].
  - apply nxt_turn_rad; [exact Hr|apply Hs, Hr|exact Hd].
  - apply nxt_turn_span, Hsp.
  - apply nxt_turn_lin, Hlin.
Qed.

Lemma cursor_inv_store N cfg j j' l :
  store_of j' = store_of j -> level j' = l -> 0 <= l ->
  (forall i, 1 <= i <= l -> frame_ok N cfg (view j) (stack j') i) ->
  cursor_inv N cfg j'.
Proof.
  intros Hs Hl H0 H. unfold cursor_inv. rewrite (view_store _ _ Hs), Hl.
  split; [exact H0|exact H].
Qed.

(** when a slot follows the top frame, [judy_nxt] returns the first cell
    below it and leaves a good cursor on it; the cells still to come are
    the former ones less this one *)
Lemma nxt_turn_some N cfg fuel j si rest :
  1 <= level j -> cursor_inv N cfg j -> (N <= fuel)%nat ->
  frame_after cfg (view j) (frame_at (stack j) (level j)) = si :: rest ->
  exists c j',
    judy_nxt_turn cfg fuel j = Return c j' /\ c <> 0 /\
    store_of j' = store_of j /\ cursor_inv N cfg j' /\ 1 <= level j' /\
    c :: to_come N cfg j' = to_come N cfg j.
Proof.
  intros Hl1 [_ Hinv] Hfuel Hafter.
  pose proof (Hinv (level j) ltac:(lia)) as Htop.
  rewrite (nxt_turn_spec N cfg fuel j Htop), Hafter. unfold nxt_turn_result.
  set (f := frame_at (stack j) (level j)) in *.
  set (j1 := set_frame_slot (si_slot si) j).
  assert (Hin : In si (frame_after cfg (view j) f)) by (rewrite Hafter; left; reflexivity).
  assert (Hf1 : frame_at (stack j1) (level j)
                = mkFrame (fr_next f) (fr_off f) (si_slot si)) by apply slot_frame.
  assert (Hsi1 : frame_si cfg (view j) (frame_at (stack j1) (level j)) = si)
    by (rewrite Hf1; apply frame_si_slot; exact Hin).
  assert (Haf1 : frame_after cfg (view j) (frame_at (stack j1) (level j)) = rest)
    by (rewrite Hf1; apply frame_after_next; exact Hafter).
  destruct Htop as [Hw Hinf]. fold f in Hw, Hinf.
  assert (Hnode : In si (node_slots cfg (view j) (fr_next f) (fr_off f)
                           (dpt_at (view j) (fr_off f))))
    by (apply (frame_after_incl cfg (view j) f Hinf), Hin).
  assert (Hok1 : forall i, 1 <= i <= level j -> frame_ok N cfg (view j) (stack j1) i).
  { intros i Hi. destruct (Z.eq_dec i (level j)) as [->|Hne].
    - unfold frame_ok. cbv zeta. rewrite Hsi1, Hf1. cbn [fr_next fr_off].
      split; [exact Hw|exact Hnode].
    - apply (frame_ok_ext _ _ _ (stack j)); [apply slot_frame_ne; lia|].
      apply Hinv. lia. }
  assert (Hcome : to_come N cfg j
                  = expand N cfg (view j) (fr_next f) (fr_off f)
                      (dpt_at (view j) (fr_off f)) [si]
                    ++ after N cfg (view j) (stack j1) 0 (Z.to_nat (level j))).
  { unfold to_come. rewrite (after_top N cfg (view j) (stack j)) by lia.
    rewrite (after_top N cfg (view j) (stack j1)) by lia.
    unfold frame_exp at 1 2. fold f. rewrite Hafter, Haf1, Hf1. cbn [fr_next fr_off].
    rewrite (after_ext N cfg (view j) (stack j) (stack j1))
      by (intros i Hi; apply slot_frame_ne; lia).
    rewrite app_assoc. f_equal. unfold expand. cbn [flat_map].
    rewrite app_nil_r. reflexivity. }
  destruct N as [|N0]; [discriminate|].
  pose proof Hw as Hw'. apply wf_S in Hw'.
  destruct Hw' as (_ & _ & _ & _ & _ & _ & _ & _ & _ & Hsl & _).
  destruct (Hsl si Hnode) as (Hc0 & _ & _ & Hb). unfold below in Hb.
  destruct (si_leaf si) eqn:Hleaf.
  - exists (si_cell si), j1.
    split; [reflexivity|]. split; [exact Hc0|]. split; [reflexivity|].
    split; [apply (cursor_inv_store _ _ j j1 (level j)); [reflexivity|reflexivity|lia|exact Hok1]|].
    split; [exact Hl1|].
    rewrite Hcome. unfold expand. cbn [flat_map]. rewrite Hleaf. reflexivity.
  - cbn [orb] in Hb. replace (level j - 1 + 1) with (level j) in Hb by lia.
    apply (wf_mono N0 (S N0)) in Hb; [|lia]. destruct Hb as [Hb _].
    destruct (judy_first_spec (S N0) cfg fuel j1
                (load64 (mem j) (si_cell si)) (child_off cfg (fr_next f) (fr_off f))
                (child_dpt (view j) (fr_next f) (fr_off f) (dpt_at (view j) (fr_off f))))
      as (c & j' & n & Hf & Hcn & Hst & Hlv & Hfr & Hok & Hk).
    { exact Hb. }
    { exact Hfuel. }
    change (view j1) with (view j) in Hok, Hk.
    change (level j1) with (level j) in Hlv, Hfr, Hok, Hk.
    rewrite Hf. exists c, j'.
    split; [reflexivity|]. split; [exact Hcn|]. split; [exact Hst|].
    split.
    { apply (cursor_inv_store _ _ j j' (level j')); [exact Hst|reflexivity|lia|].
      intros i Hi. destruct (Z.le_gt_cases i (level j)) as [Hle|Hgt].
      - apply (frame_ok_ext _ _ _ (stack j1)); [apply Hfr; lia|]. apply Hok1. lia.
      - apply Hok. lia. }
    split; [lia|].
    rewrite Hcome. unfold expand. cbn [flat_map]. rewrite Hleaf, app_nil_r.
    change (mem (view j)) with (mem j). rewrite Hk. cbn [app]. f_equal.
    unfold to_come. rewrite (view_store _ _ Hst), Hlv.
    replace (Z.to_nat (level j + Z.of_nat (S n))) with (S n + Z.to_nat (level j))%nat by lia.
    rewrite after_app. rewrite Z2Nat.id by lia. rewrite Z.add_0_l. f_equal.
    apply after_ext. intros i Hi. apply Hfr. lia.
Qed.

(** ** [judy_nxt] steps through the cells to come *)

Lemma cursor_inv_pop N cfg j :
  1 <= level j -> cursor_inv N cfg j ->
  level (pop_level j) = level j - 1 /\ cursor_inv N cfg (pop_level j).
Proof.
  intros Hl [H0 Hinv].
  destruct (frame_ok_facts N cfg _ _ _ (Hinv (level j) ltac:(lia))) as (Hm & Hm2 & _).
  change (max (view j)) with (max j) in Hm, Hm2.
  assert (Hp : level (pop_level j) = level j - 1) by (apply pop_level_ok; lia).
  split; [exact Hp|]. unfold cursor_inv. rewrite Hp.
  split; [lia|]. intros i Hi. apply Hinv. lia.
Qed.

Lemma nxt_loop_spec N cfg fuel :
  forall n fuel2 j,
  level j = Z.of_nat n -> cursor_inv N cfg j ->
  (N <= fuel)%nat -> (n < fuel2)%nat ->
  nxt_result N cfg j (judy_nxt_loop cfg fuel2 fuel j).
Proof.
  induction n as [|n IH]; intros fuel2 j Hl Hinv Hfuel Hf2;
    (destruct fuel2 as [|f2]; [lia|]); cbn [judy_nxt_loop].
  - rewrite Hl. change (Z.of_nat 0 =? 0) with true. cbv iota.
    unfold nxt_result, to_come. rewrite Hl. cbn [after Z.to_nat Z.of_nat fst snd].
    split; [reflexivity|]. split; [exact Hl|reflexivity].
  - destruct (Z.eqb_spec (level j) 0) as [Hz|_]; [lia|].
    assert (Hl1 : 1 <= level j) by lia.
    destruct (frame_after cfg (view j) (frame_at (stack j) (level j)))
      as [|si rest] eqn:Hafter.
    + destruct Hinv as [H0 Hi]. pose proof (Hi (level j) ltac:(lia)) as Htop.
      rewrite (nxt_turn_spec N cfg fuel j Htop), Hafter. cbn [nxt_turn_result].
      destruct (cursor_inv_pop N cfg j Hl1 (conj H0 Hi)) as [Hp Hinv'].
      specialize (IH f2 (pop_level j) ltac:(lia) Hinv' Hfuel ltac:(lia)).
      unfold nxt_result in *.
      assert (Hc : to_come N cfg (pop_level j) = to_come N cfg j).
      { unfold to_come. rewrite Hp. change (view (pop_level j)) with (view j).
        change (stack (pop_level j)) with (stack j).
        rewrite (after_top N cfg (view j) (stack j) (level j)) by lia.
        unfold frame_exp. rewrite Hafter. reflexivity. }
      rewrite Hc in IH. exact IH.
    + destruct (nxt_turn_some N cfg fuel j si rest Hl1 Hinv Hfuel Hafter)
        as (c & j' & Ht & Hc0 & Hst & Hinv' & Hl' & Hcome).
      rewrite Ht. unfold nxt_result. rewrite <- Hcome. cbv beta iota. cbn [fst snd].
      split; [reflexivity|]. split; [exact Hc0|]. split; [exact Hst|].
      split; [exact Hinv'|]. split; [exact Hl'|reflexivity].
Qed.

Lemma judy_nxt_spec N cfg fuel j :
  1 <= level j -> cursor_inv N cfg j ->
  (N <= fuel)%nat -> (Z.to_nat (max j) < fuel)%nat ->
  nxt_result N cfg j (judy_nxt cfg fuel j).
Proof.
  intros Hl Hinv Hfuel Hmax. unfold judy_nxt.
  destruct (Z.eqb_spec (level j) 0) as [Hz|_]; [lia|].
  destruct Hinv as [H0 Hi].
  destruct (frame_ok_facts N cfg _ _ _ (Hi (level j) ltac:(lia))) as (Hm & _).
  change (max (view j)) with (max j) in Hm.
  apply (nxt_loop_spec N cfg fuel (Z.to_nat (level j))); try assumption.
  - lia.
  - split; assumption.
  - lia.
Qed.

Lemma store_max j j' : store_of j' = store_of j -> max j' = max j.
Proof. unfold store_of. intros H. injection H as _ _ _ _ _ Hm _. exact Hm. Qed.

(** repeated [judy_nxt] returns the cells to come, in order, then NULL *)
Lemma nxt_cells_to_come N cfg fuel :
  forall cells j,
  to_come N cfg j = cells -> 1 <= level j -> cursor_inv N cfg j ->
  (N <= fuel)%nat -> (Z.to_nat (max j) < fuel)%nat ->
  nxt_cells (S (length cells)) cfg fuel j = cells.
Proof.
  induction cells as [|c rest IH]; intros j Hc Hl Hinv Hfuel Hmax.
  - pose proof (judy_nxt_spec N cfg fuel j Hl Hinv Hfuel Hmax) as Hr.
    unfold nxt_result in Hr. rewrite Hc in Hr. destruct Hr as (Hr & _).
    cbn [nxt_cells length]. destruct (judy_nxt cfg fuel j) as [p j'].
    cbn [fst] in Hr. rewrite Hr. reflexivity.
  - pose proof (judy_nxt_spec N cfg fuel j Hl Hinv Hfuel Hmax) as Hr.
    unfold nxt_result in Hr. rewrite Hc in Hr.
    destruct Hr as (Hr & Hc0 & Hst & Hinv' & Hl' & Hcome).
    change (nxt_cells (S (length (c :: rest))) cfg fuel j)
      with (let '(c0, j') := judy_nxt cfg fuel j in
            if c0 =? 0 then [] else c0 :: nxt_cells (S (length rest)) cfg fuel j').
    destruct (judy_nxt cfg fuel j) as [p j']. cbn [fst snd] in *. subst p.
    apply Z.eqb_neq in Hc0. rewrite Hc0. f_equal.
    apply IH; try assumption.
    rewrite (store_max _ _ Hst). exact Hmax.
Qed.

(** ** Keys come out in ascending order *)

Lemma lex_lt_trans a : forall b c, lex a b -> lex b c -> lex a c.
Proof.
  unfold lex. induction a as [|x a IH]; intros [|y b] [|z c]; cbn [lex_lt];
    try discriminate; try reflexivity.
  destruct (Z.ltb_spec x y), (Z.ltb_spec y x), (Z.ltb_spec y z), (Z.ltb_spec z y),
    (Z.ltb_spec x z), (Z.ltb_spec z x); try discriminate; try lia; try reflexivity.
  apply IH.
Qed.

Lemma lex_lt_app p a b : lex_lt (p ++ a) (p ++ b) = lex_lt a b.
Proof.
  induction p as [|x p IH]; [reflexivity|].
  cbn [app lex_lt]. rewrite Z.ltb_irrefl. exact IH.
Qed.

Lemma lex_lt_same_length x : forall y s t,
  length x = length y -> lex x y -> lex (x ++ s) (y ++ t).
Proof.
  unfold lex. induction x as [|a x IH]; intros [|b y] s t Hlen; cbn [lex_lt app];
    try discriminate.
  cbn [length] in Hlen.
  destruct (a <? b); [reflexivity|]. destruct (b <? a); [discriminate|].
  apply IH. lia.
Qed.

Lemma ascending_sorted ks : ascending ks = true -> keys_ascending ks.
Proof.
  unfold keys_ascending. induction ks as [|a ks IH]; intros H; [constructor|].
  destruct ks as [|b ks]; [constructor; constructor|].
  cbn [ascending] in H. apply andb_true_iff in H. destruct H as [Hab Hr].
  specialize (IH Hr). constructor; [exact IH|].
  constructor; [exact Hab|].
  apply StronglySorted_inv in IH. destruct IH as [_ Hall].
  rewrite List.Forall_forall in *. intros c Hc.
  apply (lex_lt_trans a b c Hab). apply Hall. exact Hc.
Qed.

Lemma sorted_flat_map {A B : Type} (Q : A -> A -> Prop) (R : B -> B -> Prop)
  (F : A -> list B) (l : list A) :
  StronglySorted Q l ->
  (forall x, In x l -> StronglySorted R (F x)) ->
  (forall x y, In x l -> In y l -> Q x y ->
     forall a b, In a (F x) -> In b (F y) -> R a b) ->
  StronglySorted R (flat_map F l).
Proof.
  induction l as [|x l IH]; intros Hs Hin Hc; [constructor|].
  apply StronglySorted_inv in Hs. destruct Hs as [Hs Hall].
  cbn [flat_map].
  assert (Hrest : StronglySorted R (flat_map F l)).
  { apply IH; [exact Hs| |].
    - intros y Hy. apply Hin. right. exact Hy.
    - intros y z Hy Hz. apply Hc; right; assumption. }
  assert (Hx : StronglySorted R (F x)) by (apply Hin; left; reflexivity).
  assert (Hcross : forall a b, In a (F x) -> In b (flat_map F l) -> R a b).
  { intros a b Ha Hb. apply in_flat_map in Hb. destruct Hb as (y & Hy & Hb).
    rewrite List.Forall_forall in Hall.
    apply (Hc x y); [left; reflexivity|right; exact Hy|apply Hall, Hy|exact Ha|exact Hb]. }
  clear -Hrest Hx Hcross. induction (F x) as [|a fx IHf]; [exact Hrest|].
  apply StronglySorted_inv in Hx. destruct Hx as [Hx Hall].
  cbn [app]. constructor.
  - apply IHf; [exact Hx|]. intros a' b Ha'. apply Hcross. right. exact Ha'.
  - rewrite List.Forall_forall in *. intros b Hb. apply in_app_or in Hb.
    destruct Hb as [Hb|Hb]; [apply Hall, Hb|apply Hcross; [left; reflexivity|exact Hb]].
Qed.

Lemma sorted_map_prefix p ks :
  keys_ascending ks -> keys_ascending (List.map (fun k => p ++ k) ks).
Proof.
  unfold keys_ascending. induction ks as [|a ks IH]; intros H; [constructor|].
  apply StronglySorted_inv in H. destruct H as [Hs Hall].
  cbn [List.map]. constructor; [apply IH, Hs|].
  rewrite List.Forall_forall in *. intros b Hb. apply in_map_iff in Hb.
  destruct Hb as (c & <- & Hc). unfold lex. rewrite lex_lt_app. apply Hall, Hc.
Qed.

(** *** partial keys of a string tree *)

Lemma strip0_id bs : strip0 bs = bs <-> ~ In 0 bs.
Proof.
  induction bs as [|b bs IH]; cbn [strip0 In]; [tauto|].
  destruct (Z.eqb_spec b 0) as [->|Hb].
  - split; [discriminate|]. intros H. exfalso. apply H. left. reflexivity.
  - split.
    + intros [= H]. apply IH in H. intros [Hx|Hx]; [lia|contradiction].
    + intros H. f_equal. apply IH. tauto.
Qed.

Lemma valid_tail b bs :
  valid_bytes (b :: bs) = true -> b <> 0 -> valid_bytes bs = true.
Proof.
  unfold valid_bytes. cbn [strip0]. destruct (Z.eqb_spec b 0); [contradiction|].
  cbn [length drop]. tauto.
Qed.

Lemma valid_zero b bs :
  valid_bytes (b :: bs) = true -> b = 0 -> forall c, In c bs -> c = 0.
Proof.
  unfold valid_bytes. intros H ->. cbn [strip0] in H.
  change (0 =? 0) with true in H. cbn [length drop forallb] in H.
  apply andb_true_iff in H. destruct H as [_ H].
  rewrite forallb_forall in H. intros c Hc. apply Z.eqb_eq, H, Hc.
Qed.

(** two valid partial keys of the same length in order: the keys that go
    through them are in order, a key ending inside the first one *)
Lemma lex_strip x : forall y s t,
  length x = length y -> lex x y ->
  valid_bytes x = true -> valid_bytes y = true ->
  (forall c, In c x -> 0 <= c) ->
  (In 0 x -> s = []) ->
  lex (strip0 x ++ s) (strip0 y ++ t).
Proof.
  unfold lex. induction x as [|a x IH]; intros [|b y] s t Hlen Hlt Hvx Hvy Hpos Hs;
    cbn [lex_lt] in Hlt; try discriminate.
  cbn [length] in Hlen. cbn [strip0].
  assert (Ha : 0 <= a) by (apply Hpos; left; reflexivity).
  destruct (Z.ltb_spec a b) as [Hab|Hab].
  - destruct (Z.eqb_spec b 0) as [->|Hb]; [lia|].
    destruct (Z.eqb_spec a 0) as [->|Ha0].
    + rewrite Hs by (left; reflexivity). reflexivity.
    + cbn [app lex_lt]. apply Z.ltb_lt in Hab. rewrite Hab. reflexivity.
  - destruct (Z.ltb_spec b a) as [Hba|Hba]; [discriminate|].
    assert (a = b) by lia. subst b.
    destruct (Z.eqb_spec a 0) as [->|Ha0].
    + exfalso. pose proof (valid_zero 0 x Hvx eq_refl) as Hzx.
      pose proof (valid_zero 0 y Hvy eq_refl) as Hzy.
      clear -Hlt Hzx Hzy Hlen. revert y Hlen Hlt Hzy.
      induction x as [|c x IHx]; intros [|d y] Hlen Hlt Hzy; cbn [lex_lt] in Hlt;
        try discriminate.
      rewrite (Hzx c (or_introl eq_refl)), (Hzy d (or_introl eq_refl)) in Hlt.
      rewrite Z.ltb_irrefl in Hlt. cbn [length] in Hlen.
      apply (IHx (fun e He => Hzx e (or_intror He)) y ltac:(lia) Hlt
               (fun e He => Hzy e (or_intror He))).
    + cbn [app lex_lt]. rewrite Z.ltb_irrefl.
      apply IH; [lia|exact Hlt|apply (valid_tail a), Ha0; exact Hvx
                |apply (valid_tail a), Ha0; exact Hvy| |].
      * intros c Hc. apply Hpos. right. exact Hc.
      * intros H0. apply Hs. right. exact H0.
Qed.

Lemma valid_last l c :
  valid_bytes (l ++ [c]) = true -> c <> 0 -> ~ In 0 (l ++ [c]).
Proof.
  induction l as [|b l IH]; intros Hv Hc; cbn [app In] in *.
  - intros [H|[]]. lia.
  - destruct (Z.eq_dec b 0) as [->|Hb].
    + exfalso. apply Hc. apply (valid_zero 0 (l ++ [c]) Hv eq_refl).
      apply in_or_app. right. left. reflexivity.
    + intros [H|H]; [lia|]. apply (IH (valid_tail b _ Hv Hb) Hc H).
Qed.

Lemma load_bytes_snoc n m a :
  load_bytes (S n) m a = load_bytes n m a ++ [load8 m (a + Z.of_nat n)].
Proof.
  revert a. induction n as [|n IH]; intros a.
  - cbn [load_bytes app Z.of_nat]. rewrite Z.add_0_r. reflexivity.
  - change (load_bytes (S (S n)) m a) with (load8 m a :: load_bytes (S n) m (a + 1)).
    rewrite IH. cbn [load_bytes app]. f_equal. f_equal. f_equal. f_equal. lia.
Qed.

Lemma load_bytes_length n m a : length (load_bytes n m a) = n.
Proof. revert a. induction n as [|n IH]; intros a; cbn [load_bytes length]; [|rewrite IH]; reflexivity. Qed.

Lemma lin_ks_range off : 1 <= lin_ks off <= 8.
Proof.
  unfold lin_ks, JUDY_key_size, JUDY_key_mask.
  assert (H : 0 <= Z.land off 7 <= 7).
  { split; [apply Z.land_nonneg; right; lia|].
    change 7 with (Z.ones 3). rewrite Z.land_ones by lia.
    pose proof (Z.mod_pos_bound off (2 ^ 3) ltac:(lia)). change (2 ^ 3) with 8 in *.
    change (Z.ones 3) with 7. lia. }
  lia.
Qed.

Lemma key_bytes_last m a ks :
  1 <= ks ->
  key_bytes m a ks = rev (load_bytes (Z.to_nat (ks - 1)) m (a + 1)) ++ [load8 m a].
Proof.
  intros H. unfold key_bytes.
  replace (Z.to_nat ks) with (S (Z.to_nat (ks - 1))) by lia. reflexivity.
Qed.

Lemma span_bytes_last m a S :
  1 <= S ->
  load_bytes (Z.to_nat S) m a
  = load_bytes (Z.to_nat (S - 1)) m a ++ [load8 m (a + S - 1)].
Proof.
  intros H. replace (Z.to_nat S) with (Datatypes.S (Z.to_nat (S - 1))) by lia.
  rewrite load_bytes_snoc. f_equal. f_equal. f_equal. lia.
Qed.

Lemma nonleaf_rad V next off dpt b :
  depth V = 0 -> si_leaf (rad_info V next off dpt b) = false ->
  ~ In 0 (si_bytes (rad_info V next off dpt b)).
Proof.
  intros Hd Hleaf. unfold rad_info, is_leaf_slot in *. cbn [si_leaf si_bytes] in *.
  rewrite Hd in Hleaf. destruct (Z.eqb_spec b 0) as [->|Hb].
  - discriminate Hleaf.
  - intros [H|[]]. lia.
Qed.

Lemma nonleaf_span cfg V next :
  0 < JUDY_span_bytes cfg ->
  valid_bytes (si_bytes (span_info cfg V next)) = true ->
  si_leaf (span_info cfg V next) = false ->
  ~ In 0 (si_bytes (span_info cfg V next)).
Proof.
  unfold span_info. cbn [si_leaf si_bytes]. intros HS Hv Hleaf.
  apply Z.eqb_neq in Hleaf.
  rewrite span_bytes_last in Hv |- * by lia.
  apply valid_last; assumption.
Qed.

Lemma nonleaf_lin cfg V next off dpt i :
  depth V = 0 ->
  valid_bytes (si_bytes (lin_info cfg V next off dpt i)) = true ->
  si_leaf (lin_info cfg V next off dpt i) = false ->
  ~ In 0 (si_bytes (lin_info cfg V next off dpt i)).
Proof.
  unfold lin_info, is_leaf_key. cbn [si_leaf si_bytes]. intros Hd Hv Hleaf.
  rewrite Hd in Hleaf. change (0 =? 0) with true in Hleaf. cbv iota in Hleaf.
  cbn [fst] in Hleaf. apply Z.eqb_neq in Hleaf.
  pose proof (lin_ks_range off) as Hks.
  rewrite key_bytes_last in Hv |- * by lia.
  apply valid_last; assumption.
Qed.

(** in a string tree a slot that is not a leaf holds no terminator *)
Lemma nonleaf_no_zero cfg V next off dpt si :
  depth V = 0 -> 0 < JUDY_span_bytes cfg ->
  In si (node_slots cfg V next off dpt) ->
  valid_bytes (si_bytes si) = true -> si_leaf si = false ->
  ~ In 0 (si_bytes si).
Proof.
  intros Hd HS Hin Hv Hleaf.
  destruct (tag_cases next) as [Hr|[Hs|Hlin]].
  - rewrite node_slots_rad in Hin by exact Hr.
    apply rad_slots_in in Hin; [|lia]. destruct Hin as (b & _ & _ & ->).
    apply nonleaf_rad; assumption.
  - rewrite node_slots_span in Hin by exact Hs. destruct Hin as [<-|[]].
    apply nonleaf_span; assumption.
  - rewrite node_slots_lin in Hin by exact Hlin. apply lin_slots_in in Hin.
    destruct Hin as (i & _ & ->). apply nonleaf_lin; assumption.
Qed.

Lemma seqZ_filter_sorted (P : Z -> bool) (a : Z) (n : nat) :
  StronglySorted lex (List.map (fun b => [b]) (List.filter P (seqZ a (Z.of_nat n)))).
Proof.
  revert a. induction n as [|n IH]; intros a; [constructor|].
  rewrite seqZ_cons' by lia. replace (Z.of_nat (S n) - 1) with (Z.of_nat n) by lia.
  cbn [List.filter]. destruct (P a); [|apply IH].
  cbn [List.map]. constructor; [apply IH|].
  rewrite List.Forall_forall. intros k Hk. apply in_map_iff in Hk.
  destruct Hk as (b & <- & Hb). apply filter_In in Hb. destruct Hb as [Hb _].
  apply In_seqZ in Hb. unfold lex. cbn [lex_lt].
  destruct (Z.ltb_spec a b); [reflexivity|lia].
Qed.

Lemma rad_slots_bytes V next off dpt from :
  List.map si_bytes (rad_slots V next off dpt from)
  = List.map (fun b => [b])
      (List.filter (rad_used (mem V) next) (seqZ from (256 - from))).
Proof. unfold rad_slots. rewrite List.map_map. reflexivity. Qed.

Lemma rad_slots_sorted V next off dpt from :
  StronglySorted lex (List.map si_bytes (rad_slots V next off dpt from)).
Proof.
  rewrite rad_slots_bytes.
  destruct (Z.le_gt_cases (256 - from) 0) as [Hn|Hn].
  - rewrite seqZ_nil' by lia. constructor.
  - rewrite <- (Z2Nat.id (256 - from)) by lia. apply seqZ_filter_sorted.
Qed.

(** the partial keys of the slots of a node are in order, of one length *)
Lemma node_slots_sorted k cfg V next off dpt lvl :
  wf (S k) cfg V next off dpt lvl = true ->
  StronglySorted lex (List.map si_bytes (node_slots cfg V next off dpt)) /\
  exists L, forall si, In si (node_slots cfg V next off dpt) ->
                       length (si_bytes si) = L.
Proof.
  intros Hw. apply wf_S in Hw.
  destruct Hw as (_ & _ & _ & _ & _ & _ & _ & _ & _ & _ & _ & _ & Hasc).
  destruct (tag_cases next) as [Hr|[Hs|Hlin]].
  - rewrite node_slots_rad by exact Hr. split; [apply rad_slots_sorted|].
    exists 1%nat. intros si Hin. apply rad_slots_in in Hin; [|lia].
    destruct Hin as (b & _ & _ & ->). reflexivity.
  - rewrite node_slots_span by exact Hs. split.
    + cbn [List.map]. constructor; constructor.
    + exists (length (si_bytes (span_info cfg V next))).
      intros si [<-|[]]. reflexivity.
  - rewrite node_slots_lin by exact Hlin. split.
    + apply ascending_sorted, Hasc, Hlin.
    + exists (Z.to_nat (lin_ks off)). intros si Hin. apply lin_slots_in in Hin.
      destruct Hin as (i & _ & ->). cbn [lin_info si_bytes]. unfold key_bytes.
      rewrite length_rev. apply load_bytes_length.
Qed.

Lemma sorted_map_inv {A B : Type} (R : B -> B -> Prop) (f : A -> B) (l : list A) :
  StronglySorted R (List.map f l) -> StronglySorted (fun x y => R (f x) (f y)) l.
Proof.
  induction l as [|a l IH]; intros H; [constructor|].
  cbn [List.map] in H. apply StronglySorted_inv in H. destruct H as [Hs Hall].
  constructor; [apply IH, Hs|].
  rewrite List.Forall_forall in *. intros x Hx. apply Hall.
  apply in_map_iff. exists x. split; [reflexivity|exact Hx].
Qed.

Lemma map_flat_map {A B C : Type} (g : B -> C) (F : A -> list B) (l : list A) :
  List.map g (flat_map F l) = flat_map (fun x => List.map g (F x)) l.
Proof.
  induction l as [|a l IH]; [reflexivity|].
  cbn [flat_map]. rewrite List.map_app, IH. reflexivity.
Qed.

Lemma keys_slot_keys k cfg V next off dpt :
  next <> 0 ->
  List.map fst (keys (S k) cfg V next off dpt)
  = flat_map (slot_keys k cfg V next off dpt) (node_slots cfg V next off dpt).
Proof.
  intros Hn. cbn [keys]. apply Z.eqb_neq in Hn. rewrite Hn.
  rewrite map_flat_map. reflexivity.
Qed.

Lemma slot_keys_shape k cfg V next off dpt si a :
  In a (slot_keys k cfg V next off dpt si) ->
  exists s, a = contrib V (si_bytes si) ++ s /\ (si_leaf si = true -> s = []).
Proof.
  unfold slot_keys. destruct (si_leaf si).
  - intros [<-|[]]. exists []. cbn [fst]. rewrite app_nil_r. split; [reflexivity|tauto].
  - rewrite List.map_map. cbn [fst]. intros Hin. apply in_map_iff in Hin.
    destruct Hin as (kc & <- & _). exists (fst kc). split; [reflexivity|discriminate].
Qed.

Lemma is_byte_nonneg bs c :
  forallb is_byte bs = true -> In c bs -> 0 <= c.
Proof.
  intros H Hc. rewrite forallb_forall in H. specialize (H c Hc).
  unfold is_byte in H. apply andb_true_iff in H. destruct H as [H _].
  apply Z.leb_le, H.
Qed.

(** the keys of a well-formed trie are in ascending order *)
Lemma keys_sorted k cfg V :
  forall next off dpt lvl,
  wf k cfg V next off dpt lvl = true ->
  keys_ascending (List.map fst (keys k cfg V next off dpt)).
Proof.
  induction k as [|k IH]; intros next off dpt lvl Hw; [discriminate|].
  destruct (node_slots_sorted k cfg V next off dpt lvl Hw) as [Hsorted [L HL]].
  apply wf_S in Hw.
  destruct Hw as (Hn & _ & _ & _ & _ & _ & _ & HS & _ & Hsl & _ & Hbyte & _).
  rewrite keys_slot_keys by exact Hn.
  apply (sorted_flat_map (fun x y => lex (si_bytes x) (si_bytes y))).
  - apply sorted_map_inv. exact Hsorted.
  - intros si Hin. destruct (Hsl si Hin) as (_ & _ & _ & Hb).
    unfold slot_keys, below in *. destruct (si_leaf si).
    + cbn [List.map]. constructor; constructor.
    + cbn [orb] in Hb. rewrite List.map_map. cbn [fst].
      rewrite <- (List.map_map fst (fun k => contrib V (si_bytes si) ++ k)).
      apply sorted_map_prefix. apply (IH _ _ _ _ Hb).
  - intros x y Hx Hy Hxy a b Ha Hb.
    apply slot_keys_shape in Ha. destruct Ha as (s & -> & Hs).
    apply slot_keys_shape in Hb. destruct Hb as (t & -> & _).
    pose proof (HL x Hx) as Hlx. pose proof (HL y Hy) as Hly.
    unfold contrib. destruct (Z.eqb_spec (depth V) 0) as [Hd|Hd].
    + destruct (Hsl x Hx) as (_ & _ & [Hpos|Hvx] & _); [lia|].
      destruct (Hsl y Hy) as (_ & _ & [Hpos|Hvy] & _); [lia|].
      apply lex_strip; [congruence|exact Hxy|exact Hvx|exact Hvy| |].
      * intros c Hc. apply (is_byte_nonneg (si_bytes x)); [apply Hbyte, Hx|exact Hc].
      * intros H0. apply Hs. destruct (si_leaf x) eqn:Hleaf; [reflexivity|].
        exfalso. apply (nonleaf_no_zero cfg V next off dpt x Hd HS Hx Hvx Hleaf H0).
    + apply lex_lt_same_length; [congruence|exact Hxy].
Qed.

(** ** From the root *)

Lemma first_root N cfg fuel j :
  wf N cfg (view j) (root_slot j) 0 0 0 = true -> level j = 0 ->
  (N <= fuel)%nat ->
  exists c j',
    judy_first cfg fuel (root_slot j) 0 0 j = (c, j') /\ c <> 0 /\
    store_of j' = store_of j /\ cursor_inv N cfg j' /\ 1 <= level j' /\
    List.map snd (all_keys N cfg j) = c :: to_come N cfg j'.
Proof.
  intros Hw Hl Hfuel.
  destruct (judy_first_spec N cfg fuel j (root_slot j) 0 0)
    as (c & j' & n & Hf & Hc & Hst & Hlv & Hfr & Hok & Hk).
  { rewrite Hl. exact Hw. }
  { exact Hfuel. }
  rewrite Hl in Hlv, Hok, Hk. exists c, j'.
  split; [exact Hf|]. split; [exact Hc|]. split; [exact Hst|].
  split; [apply (cursor_inv_store _ _ j j' (level j')); [exact Hst|reflexivity|lia|];
          intros i Hi; apply Hok; lia|].
  split; [lia|].
  unfold all_keys, to_come. rewrite Hk, (view_store _ _ Hst), Hlv.
  rewrite Z.add_0_l, Nat2Z.id. reflexivity.
Qed.

Lemma keys_root_empty N cfg V off dpt : keys N cfg V 0 off dpt = [].
Proof. destruct N; reflexivity. Qed.

Lemma judy_first_null cfg fuel off dpt j : judy_first cfg fuel 0 off dpt j = (0, j).
Proof. destruct fuel; reflexivity. Qed.

Lemma wf_trie_inv N cfg j :
  wf_trie N cfg j = true ->
  root_slot j = 0 \/ wf N cfg (view j) (root_slot j) 0 0 0 = true.
Proof.
  unfold wf_trie. rewrite andb_true_iff, orb_true_iff.
  intros [_ [H|H]]; [left; apply Z.eqb_eq, H|right; exact H].
Qed.

(** the traversal: on a well-formed trie with an unpositioned cursor,
    [judy_nxt] called once more than there are keys returns the cells of
    the keys of the trie, each once, in the order of [all_keys], and then
    NULL. *)
Lemma nxt_cells_all N cfg fuel j :
  wf_trie N cfg j = true -> level j = 0 ->
  (N <= fuel)%nat -> (Z.to_nat (max j) < fuel)%nat ->
  nxt_cells (S (length (all_keys N cfg j))) cfg fuel j
  = List.map snd (all_keys N cfg j).
Proof.
  intros Hw Hl Hfuel Hmax. destruct (wf_trie_inv N cfg j Hw) as [H0|Hwf].
  - unfold all_keys. rewrite H0, keys_root_empty. cbn [length List.map nxt_cells].
    unfold judy_nxt. rewrite Hl. change (0 =? 0) with true. cbv iota.
    fold (root_slot j). rewrite H0, judy_first_null. reflexivity.
  - destruct (first_root N cfg fuel j Hwf Hl Hfuel)
      as (c & j' & Hf & Hc & Hst & Hinv & Hl' & Hk).
    rewrite <- (length_map snd), Hk.
    change (nxt_cells (S (length (c :: to_come N cfg j'))) cfg fuel j)
      with (let '(c0, j0) := judy_nxt cfg fuel j in
            if c0 =? 0 then []
            else c0 :: nxt_cells (S (length (to_come N cfg j'))) cfg fuel j0).
    unfold judy_nxt. rewrite Hl. change (0 =? 0) with true. cbv iota.
    fold (root_slot j). rewrite Hf. apply Z.eqb_neq in Hc. rewrite Hc. f_equal.
    apply (nxt_cells_to_come N); try assumption; [reflexivity|].
    rewrite (store_max _ _ Hst). exact Hmax.
Qed.

Lemma all_keys_sorted N cfg j :
  wf_trie N cfg j = true -> keys_ascending (List.map fst (all_keys N cfg j)).
Proof.
  intros Hw. destruct (wf_trie_inv N cfg j Hw) as [H0|Hwf].
  - unfold all_keys. rewrite H0, keys_root_empty. constructor.
  - apply (keys_sorted N cfg (view j) _ _ _ _ Hwf).
Qed.

(** X20: in a well-formed trie whose cursor is unpositioned, [judy_nxt]
    called repeatedly (the first call being [judy_first]) returns the cell
    of every key the trie holds, each once, in the order of [all_keys],
    and then NULL; and that order is strictly ascending, every key being
    smaller than all the keys after it - bytewise in a string tree,
    digit by digit (most significant byte first) in an integer tree. *)
Theorem nxt_visits_keys_ascending N cfg fuel (j : Judy) :
  wf_trie N cfg j = true -> level j = 0 ->
  (N <= fuel)%nat -> (Z.to_nat (max j) < fuel)%nat ->
  nxt_cells (S (length (all_keys N cfg j))) cfg fuel j
  = List.map snd (all_keys N cfg j) /\
  keys_ascending (List.map fst (all_keys N cfg j)).
Proof.
  intros Hw Hl Hfuel Hmax. split.
  - apply nxt_cells_all; assumption.
  - apply all_keys_sorted, Hw.
Qed.

Lemma nxt_visits_keys_ascending_witness :
  (wf_trie 4 cfg_lp64 (trie3 cfg_lp64) = true /\ level (trie3 cfg_lp64) = 0 /\
   (4 <= 64)%nat /\ (Z.to_nat (max (trie3 cfg_lp64)) < 64)%nat) /\
  nxt_cells (S (length (all_keys 4 cfg_lp64 (trie3 cfg_lp64)))) cfg_lp64 64
    (trie3 cfg_lp64)
  = List.map snd (all_keys 4 cfg_lp64 (trie3 cfg_lp64)) /\
  keys_ascending (List.map fst (all_keys 4 cfg_lp64 (trie3 cfg_lp64))).
Proof.
  assert (Hw : wf_trie 4 cfg_lp64 (trie3 cfg_lp64) = true) by (vm_compute; reflexivity).
  assert (Hl : level (trie3 cfg_lp64) = 0) by (vm_compute; reflexivity).
  assert (Hf : (4 <= 64)%nat) by lia.
  assert (Hm : (Z.to_nat (max (trie3 cfg_lp64)) < 64)%nat)
    by (replace (max (trie3 cfg_lp64)) with 17 by (vm_compute; reflexivity); lia).
  split; [repeat split; assumption|].
  exact (nxt_visits_keys_ascending 4 cfg_lp64 64 (trie3 cfg_lp64) Hw Hl Hf Hm).
Defined.

(** ** [judy_strt] with length zero *)

Lemma judy_strt_zero cfg fuel buff j :
  judy_strt cfg fuel buff 0 j = judy_nxt cfg fuel (set_level 0 j).
Proof. reflexivity. Qed.

Lemma sorted_head (k : list Z) (ks : list (list Z)) :
  keys_ascending (k :: ks) -> forall k', In k' ks -> lex k k'.
Proof.
  intros H. apply StronglySorted_inv in H. destruct H as [_ H].
  rewrite List.Forall_forall in H. exact H.
Qed.

(** X21: [judy_strt] with key length 0 performs no lookup: it is
    [judy_nxt] on the cursor reset, that is [judy_first] from the root.  On
    a well-formed trie it returns NULL when the trie holds no key, and
    otherwise the cell of the first key of [all_keys], which is smaller
    than every other key of the trie, leaving the cursor on it (the cells
    still to come are those of the other keys). *)
Theorem strt_zero_is_first N cfg fuel buff (j : Judy) :
  wf_trie N cfg j = true -> (N <= fuel)%nat ->
  judy_strt cfg fuel buff 0 j = judy_nxt cfg fuel (set_level 0 j) /\
  match all_keys N cfg j with
  | [] => fst (judy_strt cfg fuel buff 0 j) = 0
  | (k, c) :: rest =>
      fst (judy_strt cfg fuel buff 0 j) = c /\ c <> 0 /\
      (forall k', In k' (List.map fst rest) -> lex k k') /\
      cursor_inv N cfg (snd (judy_strt cfg fuel buff 0 j)) /\
      to_come N cfg (snd (judy_strt cfg fuel buff 0 j)) = List.map snd rest
  end.
Proof.
  intros Hw Hfuel. split; [apply judy_strt_zero|].
  pose proof (all_keys_sorted N cfg j Hw) as Hsorted.
  unfold judy_strt. change (0 =? 0) with true. cbv iota.
  change (load64 (mem (set_level 0 j)) (root (set_level 0 j)))
    with (root_slot (set_level 0 j)).
  change (all_keys N cfg j) with (all_keys N cfg (set_level 0 j)) in *.
  destruct (wf_trie_inv N cfg j Hw) as [H0|Hwf].
  - unfold all_keys. change (root_slot (set_level 0 j)) with (root_slot j).
    rewrite H0, keys_root_empty, judy_first_null. reflexivity.
  - destruct (first_root N cfg fuel (set_level 0 j) Hwf eq_refl Hfuel)
      as (c & j' & Hf & Hc & Hst & Hinv & Hl' & Hk).
    rewrite Hf. cbn [fst snd].
    destruct (all_keys N cfg (set_level 0 j)) as [|[k c0] rest]; [discriminate|].
    cbn [List.map fst snd] in Hk, Hsorted. injection Hk as Hc0 Hrest. subst c0.
    split; [reflexivity|]. split; [exact Hc|].
    split; [apply sorted_head, Hsorted|].
    split; [exact Hinv|]. symmetry. exact Hrest.
Qed.

Lemma strt_zero_is_first_witness :
  (wf_trie 4 cfg_lp64 (trie3 cfg_lp64) = true /\ (4 <= 64)%nat) /\
  judy_strt cfg_lp64 64 [] 0 (trie3 cfg_lp64)
  = judy_nxt cfg_lp64 64 (set_level 0 (trie3 cfg_lp64)) /\
  match all_keys 4 cfg_lp64 (trie3 cfg_lp64) with
  | [] => fst (judy_strt cfg_lp64 64 [] 0 (trie3 cfg_lp64)) = 0
  | (k, c) :: rest =>
      fst (judy_strt cfg_lp64 64 [] 0 (trie3 cfg_lp64)) = c /\ c <> 0 /\
      (forall k', In k' (List.map fst rest) -> lex k k') /\
      cursor_inv 4 cfg_lp64 (snd (judy_strt cfg_lp64 64 [] 0 (trie3 cfg_lp64))) /\
      to_come 4 cfg_lp64 (snd (judy_strt cfg_lp64 64 [] 0 (trie3 cfg_lp64)))
      = List.map snd rest
  end.
Proof.
  assert (Hw : wf_trie 4 cfg_lp64 (trie3 cfg_lp64) = true) by (vm_compute; reflexivity).
  assert (Hf : (4 <= 64)%nat) by lia.
  split; [split; assumption|].
  exact (strt_zero_is_first 4 cfg_lp64 64 [] (trie3 cfg_lp64) Hw Hf).
Defined.

(** ** Bytes as numbers *)

Lemma bytes_cons b bs : bytes (b :: bs) <-> 0 <= b < 256 /\ bytes bs.
Proof.
  unfold bytes, is_byte. cbn [forallb]. rewrite !andb_true_iff, Z.leb_le, Z.ltb_lt.
  tauto.
Qed.

Lemma bytes_app a b : bytes (a ++ b) <-> bytes a /\ bytes b.
Proof. unfold bytes. rewrite forallb_app, andb_true_iff. tauto. Qed.

Lemma bytes_rev a : bytes (rev a) <-> bytes a.
Proof.
  induction a as [|x a IH]; [tauto|]. cbn [rev].
  rewrite bytes_app, IH, !bytes_cons. unfold bytes at 2. cbn [forallb]. tauto.
Qed.

Lemma pow256_pos n : 0 < 256 ^ Z.of_nat n.
Proof. apply Z.pow_pos_nonneg; lia. Qed.

Lemma be_val_range bs : bytes bs -> 0 <= be_val bs < 256 ^ Z.of_nat (length bs).
Proof.
  induction bs as [|b r IH]; intros H; [cbn; lia|].
  apply bytes_cons in H. destruct H as [Hb Hr]. specialize (IH Hr).
  cbn [be_val length]. rewrite Nat2Z.inj_succ, Z.pow_succ_r by lia.
  pose proof (pow256_pos (length r)). nia.
Qed.

Lemma be_val_snoc l b : be_val (l ++ [b]) = be_val l * 256 + b.
Proof.
  induction l as [|a l IH]; [cbn; lia|].
  cbn [app be_val]. rewrite IH, length_app. cbn [length].
  replace (Z.of_nat (length l + 1)) with (Z.succ (Z.of_nat (length l))) by lia.
  rewrite Z.pow_succ_r by lia. ring.
Qed.

Lemma le_val_rev bs : le_val bs = be_val (rev bs).
Proof.
  induction bs as [|b r IH]; [reflexivity|].
  cbn [le_val rev]. rewrite be_val_snoc, IH. ring.
Qed.

Lemma load_le_val n m a : load_le n m a = le_val (load_bytes n m a).
Proof.
  revert a. induction n as [|n IH]; intros a; [reflexivity|].
  cbn [load_le load_bytes le_val]. rewrite IH. reflexivity.
Qed.

(** the order of numbers is the order of their bytes *)
Lemma lex_be x : forall y,
  length x = length y -> bytes x -> bytes y ->
  lex_lt x y = (be_val x <? be_val y).
Proof.
  induction x as [|a x IH]; intros [|b y] Hlen Hx Hy; try discriminate.
  - reflexivity.
  - cbn [length] in Hlen. apply bytes_cons in Hx. apply bytes_cons in Hy.
    destruct Hx as [Ha Hx], Hy as [Hb Hy].
    pose proof (be_val_range x Hx) as Rx. pose proof (be_val_range y Hy) as Ry.
    assert (Hl : length x = length y) by lia. rewrite <- Hl in Ry.
    cbn [lex_lt be_val]. rewrite <- Hl.
    pose proof (pow256_pos (length x)) as Hp.
    destruct (Z.ltb_spec a b) as [Hab|Hab].
    + symmetry. apply Z.ltb_lt. nia.
    + destruct (Z.ltb_spec b a) as [Hba|Hba].
      * symmetry. apply Z.ltb_ge. nia.
      * assert (a = b) by lia. subst b. rewrite (IH y Hl Hx Hy).
        destruct (Z.ltb_spec (be_val x) (be_val y));
          symmetry; [apply Z.ltb_lt|apply Z.ltb_ge]; lia.
Qed.

Lemma be_val_inj x : forall y,
  length x = length y -> bytes x -> bytes y -> be_val x = be_val y -> x = y.
Proof.
  induction x as [|a x IH]; intros [|b y] Hlen Hx Hy Hv; try discriminate.
  - reflexivity.
  - cbn [length] in Hlen. apply bytes_cons in Hx. apply bytes_cons in Hy.
    destruct Hx as [Ha Hx], Hy as [Hb Hy].
    pose proof (be_val_range x Hx) as Rx. pose proof (be_val_range y Hy) as Ry.
    assert (Hl : length x = length y) by lia. rewrite <- Hl in Ry.
    cbn [be_val] in Hv. rewrite <- Hl in Hv.
    pose proof (pow256_pos (length x)) as Hp.
    assert (a = b) by nia. subst b. f_equal. apply IH; try assumption. nia.
Qed.

(** ** Finding a key ([judy_slot]) *)

Lemma lor_disjoint x y n :
  0 <= n -> 0 <= y < 2 ^ n -> Z.lor (x * 2 ^ n) y = x * 2 ^ n + y.
Proof.
  intros Hn Hy. rewrite <- Z.add_lor_land.
  assert (H : Z.land (x * 2 ^ n) y = 0); [|lia].
  apply Z.bits_inj'. intros i Hi. rewrite Z.land_spec, Z.bits_0.
  destruct (Z.lt_ge_cases i n) as [Hlt|Hge].
  - rewrite Z.mul_pow2_bits_low by lia. reflexivity.
  - rewrite <- (Z.mod_small y (2 ^ n)) by lia.
    rewrite Z.mod_pow2_bits_high by lia. apply andb_false_r.
Qed.

Lemma land7 x : Z.land x 7 = x mod 8.
Proof. change 7 with (Z.ones 3). rewrite Z.land_ones by lia. reflexivity. Qed.

Lemma land255 x : Z.land x 255 = x mod 256.
Proof. change 255 with (Z.ones 8). rewrite Z.land_ones by lia. reflexivity. Qed.

Lemma pow256 n : 0 <= n -> 256 ^ n = 2 ^ (8 * n).
Proof. intros H. rewrite Z.pow_mul_r by lia. reflexivity. Qed.

Lemma JudyMask_ones ks : 1 <= ks <= 8 -> JudyMask ks = Z.ones (8 * ks).
Proof.
  intros H. unfold JudyMask.
  destruct (Z.ltb_spec 0 ks); [|lia]. destruct (Z.leb_spec ks 8); [|lia].
  cbn [andb]. rewrite Z.ones_equiv. lia.
Qed.

Lemma le_val_app x y :
  le_val (x ++ y) = le_val x + 256 ^ Z.of_nat (length x) * le_val y.
Proof.
  induction x as [|a x IH]; [cbn; lia|].
  cbn [app le_val length]. rewrite IH, Nat2Z.inj_succ, Z.pow_succ_r by lia. ring.
Qed.

Lemma load_bytes_app n k m a :
  load_bytes (n + k) m a = load_bytes n m a ++ load_bytes k m (a + Z.of_nat n).
Proof.
  revert a. induction n as [|n IH]; intros a.
  - cbn [plus load_bytes app Z.of_nat]. rewrite Z.add_0_r. reflexivity.
  - cbn [plus load_bytes app]. rewrite IH. f_equal. f_equal. f_equal. lia.
Qed.

(** the partial key the code compares is the number its bytes spell *)
Lemma masked_be m a ks :
  1 <= ks <= 8 -> bytes (key_bytes m a ks) ->
  Z.land (load64 m a) (JudyMask ks) = be_val (key_bytes m a ks).
Proof.
  intros Hks Hb. rewrite JudyMask_ones by lia. rewrite Z.land_ones by lia.
  unfold load64. rewrite load_le_val.
  replace 8%nat with (Z.to_nat ks + (8 - Z.to_nat ks))%nat by lia.
  rewrite load_bytes_app, le_val_app, load_bytes_length.
  unfold key_bytes in *. rewrite <- le_val_rev.
  pose proof (be_val_range _ Hb) as R.
  rewrite <- le_val_rev, length_rev, load_bytes_length in R.
  rewrite Z2Nat.id in * by lia. rewrite pow256 in * by lia.
  rewrite (Z.mul_comm (2 ^ (8 * ks))), Z.mod_add by lia.
  apply Z.mod_small. exact R.
Qed.

Lemma scan_down_spec m base ks v i0 n : forall s test,
  0 <= i0 < s -> (Z.to_nat (s - i0) <= n)%nat ->
  Z.land (load64 m (base + i0 * ks)) (JudyMask ks) = v ->
  (forall i, i0 < i < s -> v < Z.land (load64 m (base + i * ks)) (JudyMask ks)) ->
  scan_down n m base ks v s test = (i0, v).
Proof.
  induction n as [|n IH]; intros s test Hi Hn Hv Hgt; [lia|].
  cbn [scan_down]. destruct (Z.eqb_spec s 0) as [Hs|Hs]; [lia|].
  destruct (Z.eq_dec (s - 1) i0) as [He|Hne].
  - rewrite He, Hv. rewrite Z.leb_refl. reflexivity.
  - specialize (Hgt (s - 1) ltac:(lia)) as Hg.
    destruct (Z.leb_spec (Z.land (load64 m (base + (s - 1) * ks)) (JudyMask ks)) v);
      [lia|].
    apply IH; [lia|lia|exact Hv|]. intros i Hi'. apply Hgt. lia.
Qed.

Lemma key_digit_spec buff kmax (r : nat) : forall n off v0,
  (1 <= r)%nat -> (r <= n)%nat -> 0 <= off -> off mod 8 + Z.of_nat r = 8 ->
  off + Z.of_nat r < 2 ^ 32 -> 0 <= v0 -> (v0 + 1) * 256 ^ Z.of_nat r <= 2 ^ 64 ->
  (forall i, off <= i < off + Z.of_nat r -> 0 <= str_byte buff kmax i < 256) ->
  key_digit n buff kmax off v0
  = (v0 * 256 ^ Z.of_nat r
     + be_val (List.map (str_byte buff kmax) (seqZ off (Z.of_nat r))),
     off + Z.of_nat r).
Proof.
  induction r as [|r IH]; intros n off v0 Hr Hn Hoff Hmod Hlt Hv Hb Hbytes; [lia|].
  destruct n as [|n]; [lia|]. cbn [key_digit].
  pose proof (pow256_pos r) as Hp.
  rewrite Nat2Z.inj_succ, Z.pow_succ_r in * by lia.
  assert (Hu : u64 (v0 * 256) = v0 * 256) by (unfold u64; apply Z.mod_small; nia).
  rewrite Hu.
  assert (Hval : (if off <? kmax then Z.lor (v0 * 256) (buf_get buff off) else v0 * 256)
                 = v0 * 256 + str_byte buff kmax off).
  { specialize (Hbytes off ltac:(lia)). unfold str_byte in *.
    destruct (off <? kmax); [|lia].
    change 256 with (2 ^ 8) at 1 2. apply lor_disjoint; [lia|exact Hbytes]. }
  rewrite Hval. clear Hval.
  assert (Hu32 : u32 (off + 1) = off + 1) by (unfold u32; apply Z.mod_small; lia).
  rewrite Hu32. unfold JUDY_key_mask. rewrite land7.
  rewrite seqZ_cons' by lia. cbn [List.map be_val].
  rewrite length_map, length_seqZ.
  replace (Z.succ (Z.of_nat r) - 1) with (Z.of_nat r) by lia.
  rewrite Nat2Z.id.
  destruct r as [|r].
  - cbn [Z.of_nat] in *. replace ((off + 1) mod 8) with 0.
    2:{ symmetry. rewrite <- (Z.mod_unique (off + 1) 8 (off / 8 + 1) 0); [reflexivity|lia|].
        pose proof (Z.div_mod off 8 ltac:(lia)). lia. }
    cbn [Z.eqb]. rewrite seqZ_nil' by lia. cbn [List.map be_val].
    f_equal; lia.
  - assert (Hm : (off + 1) mod 8 = off mod 8 + 1).
    { pose proof (Z.div_mod off 8 ltac:(lia)).
      pose proof (Z.mod_pos_bound off 8 ltac:(lia)).
      symmetry. apply (Z.mod_unique (off + 1) 8 (off / 8)); lia. }
    rewrite Hm. destruct (Z.eqb_spec (off mod 8 + 1) 0) as [He|_].
    { pose proof (Z.mod_pos_bound off 8 ltac:(lia)). lia. }
    specialize (Hbytes off ltac:(lia)) as Hb0.
    rewrite (IH n (off + 1) (v0 * 256 + str_byte buff kmax off));
      [f_equal; [ring|lia] | lia | lia | lia | lia | lia | nia | | ].
    { rewrite Nat2Z.inj_succ, Z.pow_succ_r in * by lia. nia. }
    intros i Hi. apply Hbytes. lia.
Qed.

Lemma map_seqZ_split {A : Type} (f : Z -> A) off n x y :
  List.map f (seqZ off n) = x ++ y ->
  List.map f (seqZ off (Z.of_nat (length x))) = x /\
  List.map f (seqZ (off + Z.of_nat (length x)) (n - Z.of_nat (length x))) = y.
Proof.
  intros H. assert (Hl : Z.to_nat n = (length x + length y)%nat).
  { rewrite <- length_seqZ with (m := off), <- length_map with (f := f), H.
    apply length_app. }
  destruct (Z.le_gt_cases n 0) as [Hn|Hn].
  - assert (length x = 0%nat) by lia. assert (length y = 0%nat) by lia.
    destruct x; [|discriminate]. destruct y; [|discriminate].
    cbn [length Z.of_nat]. rewrite !seqZ_nil' by lia. split; reflexivity.
  - replace n with (Z.of_nat (length x) + Z.of_nat (length y)) in H by lia.
    rewrite seqZ_app, map_app in H by lia.
    apply app_inj_1 in H.
    + destruct H as [H1 H2]. split; [exact H1|].
      replace (n - Z.of_nat (length x)) with (Z.of_nat (length y)) by lia.
      exact H2.
    + rewrite length_map, length_seqZ. lia.
Qed.

Lemma strip0_split bs : bs = strip0 bs ++ drop (length (strip0 bs)) bs.
Proof.
  induction bs as [|b bs IH]; [reflexivity|].
  cbn [strip0]. destruct (b =? 0); [reflexivity|].
  cbn [length drop app]. f_equal. exact IH.
Qed.

Lemma zeros_repeat l : forallb (fun b => b =? 0) l = true -> l = repeat 0 (length l).
Proof.
  induction l as [|a l IH]; [reflexivity|].
  cbn [forallb length repeat]. rewrite andb_true_iff. intros [Ha Hl].
  apply Z.eqb_eq in Ha. subst a. f_equal. apply IH, Hl.
Qed.

Lemma strip0_length bs : (length (strip0 bs) <= length bs)%nat.
Proof.
  induction bs as [|b bs IH]; [cbn; lia|].
  cbn [strip0]. destruct (b =? 0); cbn [length]; lia.
Qed.

Lemma map_zeros {A : Type} (f : Z -> A) (z : A) off n :
  (forall i, off <= i < off + n -> f i = z) ->
  List.map f (seqZ off n) = repeat z (Z.to_nat n).
Proof.
  destruct (Z.le_gt_cases n 0) as [Hn|Hn].
  - intros _. rewrite seqZ_nil' by lia. replace (Z.to_nat n) with O by lia. reflexivity.
  - rewrite <- (Z2Nat.id n) by lia. rewrite Nat2Z.id.
    generalize (Z.to_nat n) as k. clear. intros k. revert off.
    induction k as [|k IH]; intros off H; [reflexivity|].
    rewrite seqZ_cons' by lia. cbn [List.map repeat].
    rewrite (H off) by lia. f_equal.
    replace (Z.of_nat (S k) - 1) with (Z.of_nat k) by lia.
    apply IH. intros i Hi. apply H. lia.
Qed.

(** the digit of the key at a matching slot is the slot's stored bytes *)
Lemma matched_bytes buff kmax off bs rest :
  off <= kmax -> valid_bytes bs = true ->
  List.map (str_byte buff kmax) (seqZ off (kmax - off)) = strip0 bs ++ rest ->
  rest = [] \/ strip0 bs = bs ->
  List.map (str_byte buff kmax) (seqZ off (Z.of_nat (length bs))) = bs.
Proof.
  intros Hoff Hv H [Hr|Hs].
  - subst rest. rewrite app_nil_r in H.
    assert (Hl : Z.to_nat (kmax - off) = length (strip0 bs)).
    { rewrite <- H, length_map, length_seqZ. reflexivity. }
    pose proof (strip0_length bs) as Hle.
    replace (Z.of_nat (length bs))
      with ((kmax - off) + (Z.of_nat (length bs) - (kmax - off))) by lia.
    rewrite seqZ_app, map_app, H by lia.
    rewrite (strip0_split bs) at 3. f_equal.
    unfold valid_bytes in Hv. apply zeros_repeat in Hv. rewrite Hv.
    rewrite length_drop.
    rewrite (map_zeros _ 0).
    + f_equal. lia.
    + intros i Hi. unfold str_byte. destruct (Z.ltb_spec i kmax); [lia|reflexivity].
  - rewrite Hs in H. apply map_seqZ_split in H. apply H.
Qed.

Lemma frame_swap next off j :
  set_frame_off off (set_frame_next next j) = set_frame_next next (set_frame_off off j).
Proof.
  unfold set_frame_off, set_frame_next, frame, set_stack.
  cbn [stack level root reuse seg max depth mem heap].
  rewrite !lookup_insert_eq. cbn [default fr_next fr_off fr_slot].
  rewrite !insert_insert_eq. reflexivity.
Qed.

Lemma slot_turn_lin cfg fuel buff kmax j next off dpt test i value off' dpt' :
  is_lin next -> level j < max j ->
  (if negb (depth j =? 0)
   then (Z.land (src_get buff dpt) (JudyMask (lin_ks off)),
         u32 (Z.lor off JUDY_key_mask + 1), u32 (dpt + 1))
   else (let '(v, o) := key_digit 8 buff kmax off 0 in (v, o, dpt)))
  = (value, off', dpt') ->
  scan_down (S (Z.to_nat (lin_cnt cfg next off))) (mem j) (base_of next)
    (lin_ks off) value (lin_cnt cfg next off) test = (i, value) ->
  judy_slot_turn cfg fuel buff kmax (mkWalk next off dpt test) j
  = if is_leaf_value j value dpt'
    then Return (lin_cell cfg next i) (entered j next off (Some i))
    else Continue (mkWalk (load64 (mem j) (lin_cell cfg next i)) off' dpt' value)
           (entered j next off (Some i)).
Proof.
  intros [Hr Hs] Hl Hv Hscan. unfold judy_slot_turn. rewrite push_level_lt by exact Hl.
  cbn [w_next w_off w_depth w_test].
  apply Z.eqb_neq in Hr. apply Z.eqb_neq in Hs. rewrite Hr, Hs.
  see_through. unfold lin_cnt, lin_ks in *.
  rewrite Hv. rewrite Hscan. rewrite Z.eqb_refl.
  unfold is_leaf_value, entered, lin_cell, lin_node. see_through.
  rewrite frame_swap. reflexivity.
Qed.

Lemma slot_turn_rad cfg fuel buff kmax j next off dpt test b off' :
  tag_of next = JUDY_radix -> level j < max j ->
  (if negb (depth j =? 0)
   then (Z.land (shr64 (src_get buff dpt)
                   ((JUDY_key_size - Z.land (u32 (off + 1)) JUDY_key_mask) * 8)) 255,
         u32 (off + 1))
   else if off <? kmax then (buf_get buff off, u32 (off + 1)) else (0, off))
  = (b, off') ->
  rad_used (mem j) next b = true ->
  let dpt' := if negb (depth j =? 0) && (Z.land off' JUDY_key_mask =? 0)
              then u32 (dpt + 1) else dpt in
  judy_slot_turn cfg fuel buff kmax (mkWalk next off dpt test) j
  = if is_leaf_slot j b dpt'
    then Return (rad_cell (mem j) next b) (entered j next off (Some b))
    else Continue (mkWalk (load64 (mem j) (rad_cell (mem j) next b)) off' dpt' test)
           (entered j next off (Some b)).
Proof.
  intros Hr Hl Hv Hu. unfold judy_slot_turn. rewrite push_level_lt by exact Hl.
  cbn [w_next w_off w_depth w_test]. rewrite Hr.
  change (JUDY_radix =? JUDY_radix) with true. cbv iota. see_through.
  rewrite Hv. see_through.
  unfold rad_used, rad_cell, rad_inner in *.
  apply andb_true_iff in Hu. destruct Hu as [Hi Hc].
  destruct (Z.eqb_spec (load64 (mem j) (base_of next + 8 * Z.shiftr b 4)) 0) as [He|Hne].
  { rewrite He in Hi. discriminate. }
  rewrite Hc. unfold is_leaf_slot, entered. see_through.
  rewrite frame_swap. reflexivity.
Qed.

Lemma strncmp_eq m buff (n : nat) : forall fuel base off,
  (n <= fuel)%nat ->
  (forall i, 0 <= i < Z.of_nat n -> load8 m (base + i) = buf_get buff (off + i)) ->
  strncmp fuel m base buff off (Z.of_nat n) = 0.
Proof.
  induction n as [|n IH]; intros fuel base off Hf H.
  - destruct fuel; reflexivity.
  - destruct fuel as [|fuel]; [lia|]. cbn [strncmp].
    destruct (Z.eqb_spec (Z.of_nat (S n)) 0); [lia|].
    pose proof (H 0 ltac:(lia)) as H0. rewrite !Z.add_0_r in H0. rewrite H0.
    rewrite Z.eqb_refl. cbn [negb].
    destruct (buf_get buff off =? 0); [reflexivity|].
    replace (Z.of_nat (S n) - 1) with (Z.of_nat n) by lia.
    apply IH; [lia|]. intros i Hi. specialize (H (i + 1) ltac:(lia)).
    rewrite <- !Z.add_assoc, (Z.add_comm 1). exact H.
Qed.

Lemma u32_small x : 0 <= x < 2 ^ 32 -> u32 x = x.
Proof. intros H. unfold u32. apply Z.mod_small. exact H. Qed.

Lemma u64_small x : 0 <= x < 2 ^ 64 -> u64 x = x.
Proof. intros H. unfold u64. apply Z.mod_small. exact H. Qed.

Lemma s32_small x : 0 <= x < 2 ^ 31 -> s32 x = x.
Proof.
  intros H. unfold s32. rewrite u32_small by lia.
  destruct (Z.ltb_spec x (2 ^ 31)); [reflexivity|lia].
Qed.

Lemma slot_turn_span cfg fuel buff kmax j next off dpt test :
  tag_of next = JUDY_span -> level j < max j ->
  let S := JUDY_span_bytes cfg in
  let si := span_info cfg (view j) next in
  0 < S < 2 ^ 32 -> 0 <= kmax - off < 2 ^ 31 -> (Z.to_nat S <= fuel)%nat ->
  (forall i, 0 <= i < S ->
     load8 (mem j) (base_of next + i) = str_byte buff kmax (off + i)) ->
  (if si_leaf si then kmax - off < S else S <= kmax - off) ->
  judy_slot_turn cfg fuel buff kmax (mkWalk next off dpt test) j
  = if si_leaf si
    then Return (si_cell si) (entered j next off None)
    else Continue (mkWalk (load64 (mem j) (si_cell si)) (u32 (off + S)) dpt test)
           (entered j next off None).
Proof.
  intros Hs Hl S si HS Hk Hfuel Hm Hleaf. subst S si.
  unfold judy_slot_turn. rewrite push_level_lt by exact Hl.
  cbn [w_next w_off w_depth w_test]. rewrite Hs.
  change (JUDY_span =? JUDY_radix) with false.
  change (JUDY_span =? JUDY_span) with true. cbv iota. see_through.
  rewrite s32_small by lia.
  assert (Hcmp : forall t, 0 <= t <= JUDY_span_bytes cfg -> t <= kmax - off ->
            strncmp fuel (mem j) (base_of next) buff off (u64 t) = 0).
  { intros t Ht Hk'. rewrite u64_small by lia. rewrite <- (Z2Nat.id t) by lia.
    apply strncmp_eq; [lia|]. intros i Hi. rewrite Hm by lia.
    unfold str_byte. destruct (Z.ltb_spec (off + i) kmax); [reflexivity|lia]. }
  unfold span_info, entered in *. cbn [si_leaf si_cell] in *.
  cbn [mem view set_stack set_level] in *.
  rewrite frame_swap.
  destruct (load8 (mem j) (base_of next + JUDY_span_bytes cfg - 1) =? 0) eqn:Hlast.
  - assert (Hb : (kmax - off <? JUDY_span_bytes cfg) = true) by (apply Z.ltb_lt; lia).
    rewrite Hb. rewrite Hcmp by lia. rewrite Hb. cbn [Z.eqb andb].
    rewrite Hm by lia. unfold str_byte.
    destruct (Z.ltb_spec (off + (kmax - off)) kmax); [lia|].
    cbn [Z.eqb]. reflexivity.
  - assert (Hb : (kmax - off <? JUDY_span_bytes cfg) = false) by (apply Z.ltb_ge; lia).
    rewrite Hb. rewrite Hcmp by lia. rewrite Z.ltb_irrefl. cbn [Z.eqb andb].
    rewrite Z.eqb_refl. reflexivity.
Qed.

Lemma sorted_seqZ {A : Type} (R : A -> A -> Prop) (g : Z -> A) (k : nat) : forall a,
  StronglySorted R (List.map g (seqZ a (Z.of_nat k))) ->
  forall x y, a <= x < y -> y < a + Z.of_nat k -> R (g x) (g y).
Proof.
  induction k as [|k IH]; intros a Hs x y Hx Hy; [lia|].
  rewrite seqZ_cons' in Hs by lia. cbn [List.map] in Hs.
  replace (Z.of_nat (S k) - 1) with (Z.of_nat k) in Hs by lia.
  apply StronglySorted_inv in Hs. destruct Hs as [Hs Hall].
  destruct (Z.eq_dec x a) as [->|Hne].
  - rewrite List.Forall_forall in Hall. apply Hall. apply in_map. apply In_seqZ. lia.
  - apply (IH (a + 1) Hs); lia.
Qed.

Lemma lor7 off : 0 <= off -> Z.lor off 7 = off + 7 - off mod 8.
Proof.
  intros H. pose proof (Z.div_mod off 8 ltac:(lia)) as Hd.
  pose proof (Z.mod_pos_bound off 8 ltac:(lia)) as Hm.
  set (q := off / 8) in *. set (r := off mod 8) in *.
  assert (Hr : Z.lor r 7 = 7).
  { assert (Hc : r = 0 \/ r = 1 \/ r = 2 \/ r = 3 \/ r = 4 \/ r = 5 \/ r = 6 \/ r = 7) by lia.
    destruct Hc as [->|[->|[->|[->|[->|[->|[->| ->]]]]]]]; reflexivity. }
  assert (H8 : 2 ^ 3 = 8) by reflexivity.
  assert (Hl : Z.lor (q * 2 ^ 3 + r) 7 = q * 2 ^ 3 + 7).
  { rewrite <- (lor_disjoint q r 3) by (rewrite ?H8; lia).
    rewrite <- Z.lor_assoc, Hr. apply lor_disjoint; rewrite ?H8; lia. }
  rewrite H8 in Hl. replace off with (q * 8 + r) at 1 by lia. rewrite Hl. lia.
Qed.

Lemma lin_ks_mod off : lin_ks off = 8 - off mod 8.
Proof. unfold lin_ks, JUDY_key_size, JUDY_key_mask. rewrite land7. reflexivity. Qed.

Lemma key_bytes_length m a ks : 0 <= ks -> Z.of_nat (length (key_bytes m a ks)) = ks.
Proof. intros H. unfold key_bytes. rewrite length_rev, load_bytes_length. lia. Qed.

Lemma be_val_low m a ks :
  1 <= ks -> bytes (key_bytes m a ks) ->
  Z.land (be_val (key_bytes m a ks)) 255 = load8 m a.
Proof.
  intros Hks Hb. rewrite key_bytes_last in * by lia.
  rewrite be_val_snoc, land255. apply bytes_app in Hb. destruct Hb as [_ Hb].
  apply bytes_cons in Hb. destruct Hb as [Hb _].
  rewrite Z.add_comm, Z.mod_add by lia. apply Z.mod_small. exact Hb.
Qed.

(** what the occupied slots of a well-formed linear node look like to the
    search loop *)
Lemma lin_search k cfg V next off dpt lvl i :
  wf (S k) cfg V next off dpt lvl = true -> is_lin next ->
  lin_first cfg V next off <= i < lin_cnt cfg next off ->
  let v := be_val (key_bytes (mem V) (lin_key next off i) (lin_ks off)) in
  forall test,
  scan_down (S (Z.to_nat (lin_cnt cfg next off))) (mem V) (base_of next)
    (lin_ks off) v (lin_cnt cfg next off) test = (i, v).
Proof.
  intros Hw Hlin Hi v test. apply wf_S in Hw.
  destruct Hw as (_ & _ & _ & _ & _ & _ & _ & _ & _ & _ & _ & Hby & Hasc).
  specialize (Hasc Hlin). apply ascending_sorted in Hasc.
  rewrite node_slots_lin in Hby by exact Hlin.
  pose proof (lin_ks_range off) as Hks.
  assert (Hf : 0 <= lin_first cfg V next off).
  { unfold lin_first. apply first_used_spec; lia. }
  assert (Hb : forall x, lin_first cfg V next off <= x < lin_cnt cfg next off ->
             bytes (key_bytes (mem V) (lin_key next off x) (lin_ks off))).
  { intros x Hx. apply (Hby (lin_info cfg V next off dpt x)).
    apply lin_slots_in. exists x. split; [lia|reflexivity]. }
  assert (Hv : forall x, lin_first cfg V next off <= x < lin_cnt cfg next off ->
             Z.land (load64 (mem V) (base_of next + x * lin_ks off)) (JudyMask (lin_ks off))
             = be_val (key_bytes (mem V) (lin_key next off x) (lin_ks off))).
  { intros x Hx. apply masked_be; [lia|]. apply Hb, Hx. }
  apply scan_down_spec; [lia|lia|apply Hv; lia|].
  intros x Hx. rewrite Hv by lia. subst v.
  unfold keys_ascending, lin_slots in Hasc. rewrite map_map in Hasc.
  cbn [si_bytes lin_info] in Hasc.
  replace (lin_cnt cfg next off - lin_first cfg V next off)
    with (Z.of_nat (Z.to_nat (lin_cnt cfg next off - lin_first cfg V next off)))
    in Hasc by lia.
  pose proof (sorted_seqZ lex _ _ _ Hasc i x ltac:(lia) ltac:(lia)) as Hlex.
  cbv beta in Hlex. unfold lex in Hlex.
  rewrite lex_be in Hlex.
  - apply Z.ltb_lt in Hlex. exact Hlex.
  - apply Nat2Z.inj. rewrite !key_bytes_length by lia. reflexivity.
  - apply Hb. lia.
  - apply Hb. lia.
Qed.

Lemma slot_turn_lin_str k cfg fuel buff kmax j next off dpt test i :
  wf (S k) cfg (view j) next off dpt (level j) = true -> is_lin next ->
  depth j = 0 ->
  lin_first cfg (view j) next off <= i < lin_cnt cfg next off ->
  let si := lin_info cfg (view j) next off dpt i in
  List.map (str_byte buff kmax) (seqZ off (lin_ks off)) = si_bytes si ->
  exists test',
  judy_slot_turn cfg fuel buff kmax (mkWalk next off dpt test) j
  = if si_leaf si then Return (si_cell si) (entered j next off (Some i))
    else Continue (mkWalk (load64 (mem j) (si_cell si)) (child_off cfg next off)
                     (child_dpt (view j) next off dpt) test')
           (entered j next off (Some i)).
Proof.
  intros Hw Hlin Hd Hi si Hm.
  pose proof (lin_search k cfg (view j) next off dpt (level j) i Hw Hlin Hi) as Hscan.
  cbv zeta in Hscan. apply wf_S in Hw.
  destruct Hw as (_ & Hl & _ & Hoff & Hlt & _ & _ & HS & _ & _ & _ & Hby & _).
  pose proof (lin_ks_range off) as Hks. pose proof (lin_ks_mod off) as Hkm.
  assert (Hbi : bytes (si_bytes si)).
  { apply Hby. rewrite node_slots_lin by exact Hlin.
    apply lin_slots_in. exists i. split; [lia|reflexivity]. }
  cbn [si_bytes si lin_info] in Hm, Hbi. change (mem (view j)) with (mem j) in *.
  set (bs := key_bytes (mem j) (lin_key next off i) (lin_ks off)) in *.
  exists (be_val bs).
  rewrite (slot_turn_lin cfg fuel buff kmax j next off dpt test i (be_val bs)
             (child_off cfg next off) (child_dpt (view j) next off dpt));
    [ | exact Hlin | apply Hl | | apply Hscan ].
  - unfold is_leaf_value, si, lin_info, is_leaf_key. cbn [si_leaf si_cell].
    change (depth (view j)) with (depth j). change (mem (view j)) with (mem j).
    rewrite Hd. cbn [Z.eqb andb negb fst]. rewrite orb_false_r.
    unfold bs. rewrite be_val_low by (try lia; exact Hbi).
    unfold lin_key. reflexivity.
  - rewrite Hd. cbn [Z.eqb negb].
    assert (Hkd : key_digit 8 buff kmax off 0 = (be_val bs, off + lin_ks off)).
    { rewrite (key_digit_spec buff kmax (Z.to_nat (lin_ks off)) 8 off 0).
      - rewrite Z2Nat.id by lia. rewrite Hm. reflexivity.
      - lia.
      - lia.
      - lia.
      - lia.
      - lia.
      - lia.
      - rewrite Z2Nat.id by lia. change (0 + 1) with 1. rewrite Z.mul_1_l.
        change (2 ^ 64) with (256 ^ 8). apply Z.pow_le_mono_r; lia.
      - rewrite Z2Nat.id by lia. intros x Hx.
        assert (Hin : In (str_byte buff kmax x) bs).
        { rewrite <- Hm. apply in_map. apply In_seqZ. lia. }
        unfold bytes in Hbi. rewrite forallb_forall in Hbi.
        specialize (Hbi _ Hin). unfold is_byte in Hbi. lia. }
    rewrite Hkd. unfold child_off, child_dpt.
    destruct Hlin as [Hr Hs]. apply Z.eqb_neq in Hr. apply Z.eqb_neq in Hs.
    rewrite Hr, Hs. change (depth (view j)) with (depth j). rewrite Hd.
    cbn [Z.eqb]. unfold JUDY_key_mask. rewrite lor7 by lia.
    rewrite u32_small by (pose proof (Z.mod_pos_bound off 8 ltac:(lia)); lia).
    f_equal. f_equal. lia.
Qed.

Lemma buf_le_val buff n : forall i,
  buf_le n buff i = le_val (List.map (buf_get buff) (seqZ i (Z.of_nat n))).
Proof.
  induction n as [|n IH]; intros i; [reflexivity|].
  rewrite seqZ_cons' by lia. cbn [buf_le List.map le_val]. rewrite IH.
  replace (Z.of_nat (S n) - 1) with (Z.of_nat n) by lia. reflexivity.
Qed.

Lemma buf_get_byte buff i : bytes buff -> 0 <= buf_get buff i < 256.
Proof.
  intros Hb. unfold buf_get. destruct (i <? 0); [lia|].
  destruct (buff !! Z.to_nat i) as [b|] eqn:Hl; cbn [default]; [|lia].
  unfold bytes in Hb. rewrite forallb_forall in Hb.
  apply list_elem_of_lookup_2, list_elem_of_In in Hl.
  specialize (Hb b Hl). unfold is_byte in Hb. unfold id. lia.
Qed.

Lemma bytes_map (f : Z -> Z) l : (forall x, 0 <= f x < 256) -> bytes (List.map f l).
Proof.
  intros H. unfold bytes. apply forallb_forall. intros y Hy.
  apply in_map_iff in Hy. destruct Hy as (x & <- & _).
  specialize (H x). unfold is_byte. lia.
Qed.

Lemma rev_map_seqZ {A : Type} (f : Z -> A) a b (n : nat) :
  rev (List.map f (seqZ a (Z.of_nat n)))
  = List.map (fun i => f (a + Z.of_nat n - 1 - (i - b))) (seqZ b (Z.of_nat n)).
Proof.
  revert f. induction n as [|n IH]; intros f; [reflexivity|].
  rewrite seqZ_S, map_app, rev_app_distr. cbn [List.map rev app].
  rewrite (seqZ_cons' b) by lia. cbn [List.map].
  f_equal; [f_equal; lia|].
  rewrite IH. replace (Z.of_nat (S n) - 1) with (Z.of_nat n) by lia.
  rewrite (Z.add_comm b 1), <- (fmap_add_seqZ 1 b). change (Z.add 1 <$> seqZ b (Z.of_nat n))
    with (List.map (Z.add 1) (seqZ b (Z.of_nat n))).
  rewrite map_map. apply map_ext. intros i. f_equal. lia.
Qed.

Lemma mod8_digit off i :
  0 <= off -> 0 <= i < 8 - off mod 8 ->
  (off + i) / 8 = off / 8 /\ (off + i) mod 8 = off mod 8 + i.
Proof.
  intros Ho Hi. pose proof (Z.div_mod off 8 ltac:(lia)) as Hd.
  pose proof (Z.mod_pos_bound off 8 ltac:(lia)) as Hm.
  assert (H : off + i = 8 * (off / 8) + (off mod 8 + i)) by lia.
  split.
  - symmetry. apply (Z.div_unique (off + i) 8 (off / 8) (off mod 8 + i)); lia.
  - symmetry. apply (Z.mod_unique (off + i) 8 (off / 8) (off mod 8 + i)); lia.
Qed.

(** the low bytes of a digit word are the rest of the digit in key order *)
Lemma digit_low buff off :
  0 <= off -> bytes buff ->
  Z.land (src_get buff (off / 8)) (JudyMask (lin_ks off))
  = be_val (List.map (fix_byte buff) (seqZ off (lin_ks off))).
Proof.
  intros Ho Hb. pose proof (lin_ks_range off) as Hks.
  pose proof (lin_ks_mod off) as Hkm.
  rewrite JudyMask_ones by lia. rewrite Z.land_ones by lia.
  unfold src_get. rewrite buf_le_val.
  replace (Z.of_nat 8) with (lin_ks off + (8 - lin_ks off)) by lia.
  rewrite seqZ_app, map_app, le_val_app by lia.
  rewrite length_map, length_seqZ, Z2Nat.id, pow256 by lia.
  rewrite (Z.mul_comm (2 ^ (8 * lin_ks off))), Z.mod_add by lia.
  set (L := List.map (buf_get buff) (seqZ (8 * (off / 8)) (lin_ks off))).
  assert (HL : bytes L) by (apply bytes_map; intros x; apply buf_get_byte, Hb).
  pose proof (be_val_range _ (proj2 (bytes_rev _) HL)) as R.
  assert (HlenL : length L = Z.to_nat (lin_ks off))
    by (unfold L; rewrite length_map, length_seqZ; reflexivity).
  rewrite <- le_val_rev in R.
  rewrite length_rev, HlenL, Z2Nat.id, pow256 in R by lia.
  rewrite Z.mod_small by exact R. rewrite le_val_rev. f_equal.
  unfold L. rewrite <- (Z2Nat.id (lin_ks off)) at 1 by lia.
  rewrite (rev_map_seqZ _ _ off), Z2Nat.id by lia.
  apply map_ext_in. intros i Hi. apply In_seqZ in Hi. unfold fix_byte.
  destruct (mod8_digit off (i - off) Ho ltac:(lia)) as [Hq Hr].
  replace (off + (i - off)) with i in * by lia. rewrite Hq, Hr. f_equal. lia.
Qed.

Lemma le_val_byte l : forall t,
  bytes l -> (t < length l)%nat ->
  Z.land (Z.shiftr (le_val l) (8 * Z.of_nat t)) 255 = nth t l 0.
Proof.
  induction l as [|b l IH]; intros t Hb Ht; [cbn in Ht; lia|].
  apply bytes_cons in Hb. destruct Hb as [Hb0 Hb].
  cbn [le_val]. destruct t as [|t].
  - cbn [Z.of_nat Z.mul nth]. rewrite Z.shiftr_0_r, land255.
    replace (b + 256 * le_val l) with (b + le_val l * 256) by lia.
    rewrite Z.mod_add by lia. apply Z.mod_small. exact Hb0.
  - cbn [nth length] in *. rewrite <- IH by (try assumption; lia).
    f_equal. rewrite !Z.shiftr_div_pow2 by lia.
    replace (8 * Z.of_nat (S t)) with (8 + 8 * Z.of_nat t) by lia.
    rewrite Z.pow_add_r by lia. rewrite <- Z.div_div by
      (try apply Z.pow_pos_nonneg; lia).
    f_equal. change (2 ^ 8) with 256.
    replace (b + 256 * le_val l) with (b + le_val l * 256) by lia.
    rewrite Z.div_add by lia.
    rewrite (Z.div_small b) by lia. lia.
Qed.

(** the byte the radix case extracts from a digit word *)
Lemma digit_byte buff off :
  0 <= off -> off + 1 < 2 ^ 32 -> bytes buff ->
  Z.land (shr64 (src_get buff (off / 8))
            ((JUDY_key_size - Z.land (u32 (off + 1)) JUDY_key_mask) * 8)) 255
  = fix_byte buff off.
Proof.
  intros Ho Hlt Hb. rewrite u32_small by lia.
  unfold JUDY_key_size, JUDY_key_mask, shr64. rewrite land7.
  pose proof (Z.div_mod off 8 ltac:(lia)) as Hd.
  pose proof (Z.mod_pos_bound off 8 ltac:(lia)) as Hm.
  set (r := off mod 8) in *.
  assert (Hc : ((8 - (off + 1) mod 8) * 8) mod 64 = 8 * (7 - r)).
  { destruct (Z.eq_dec r 7) as [H7|H7].
    - replace ((off + 1) mod 8) with 0; [rewrite H7; reflexivity|].
      apply (Z.mod_unique (off + 1) 8 (off / 8 + 1) 0); lia.
    - replace ((off + 1) mod 8) with (r + 1).
      + rewrite Z.mod_small by lia. lia.
      + apply (Z.mod_unique (off + 1) 8 (off / 8) (r + 1)); lia. }
  rewrite Hc. unfold src_get. rewrite buf_le_val.
  replace (7 - r) with (Z.of_nat (Z.to_nat (7 - r))) by lia.
  rewrite le_val_byte.
  - unfold fix_byte. fold r.
    rewrite (nth_indep _ 0 (buf_get buff 0)) by (rewrite length_map, length_seqZ; lia).
    rewrite map_nth. f_equal.
    rewrite (nth_lookup_Some _ _ _ (8 * (off / 8) + Z.of_nat (Z.to_nat (7 - r)))).
    + rewrite Z2Nat.id by lia. lia.
    + apply lookup_seqZ. split; lia.
  - apply bytes_map. intros x. apply buf_get_byte, Hb.
  - rewrite length_map, length_seqZ. lia.
Qed.

Lemma slot_turn_lin_fix k cfg fuel buff kmax j next off dpt test i :
  wf (S k) cfg (view j) next off dpt (level j) = true -> is_lin next ->
  depth j <> 0 -> bytes buff ->
  lin_first cfg (view j) next off <= i < lin_cnt cfg next off ->
  let si := lin_info cfg (view j) next off dpt i in
  List.map (fix_byte buff) (seqZ off (lin_ks off)) = si_bytes si ->
  exists test',
  judy_slot_turn cfg fuel buff kmax (mkWalk next off dpt test) j
  = if si_leaf si then Return (si_cell si) (entered j next off (Some i))
    else Continue (mkWalk (load64 (mem j) (si_cell si)) (child_off cfg next off)
                     (child_dpt (view j) next off dpt) test')
           (entered j next off (Some i)).
Proof.
  intros Hw Hlin Hd Hbuf Hi si Hm.
  pose proof (lin_search k cfg (view j) next off dpt (level j) i Hw Hlin Hi) as Hscan.
  cbv zeta in Hscan. apply wf_S in Hw.
  destruct Hw as (_ & Hl & _ & Hoff & Hlt & Hdp & _ & HS & _ & _ & _ & Hby & _).
  cbn [si_bytes si lin_info] in Hm. change (mem (view j)) with (mem j) in *.
  set (bs := key_bytes (mem j) (lin_key next off i) (lin_ks off)) in *.
  apply Z.eqb_neq in Hd.
  unfold dpt_at in Hdp. change (depth (view j)) with (depth j) in Hdp.
  rewrite Hd in Hdp. unfold JUDY_key_size in Hdp.
  exists (be_val bs).
  rewrite (slot_turn_lin cfg fuel buff kmax j next off dpt test i (be_val bs)
             (child_off cfg next off) (child_dpt (view j) next off dpt));
    [ | exact Hlin | apply Hl | | apply Hscan ].
  - unfold is_leaf_value, si, lin_info, is_leaf_key, child_dpt. cbn [si_leaf si_cell].
    destruct Hlin as [Hr Hs]. apply Z.eqb_neq in Hr. apply Z.eqb_neq in Hs.
    rewrite Hr, Hs.
    change (depth (view j)) with (depth j). rewrite Hd. cbn [andb negb orb fst].
    reflexivity.
  - rewrite Hd. cbn [negb]. unfold child_off, child_dpt.
    destruct Hlin as [Hr Hs]. apply Z.eqb_neq in Hr. apply Z.eqb_neq in Hs.
    rewrite Hr, Hs. change (depth (view j)) with (depth j). rewrite Hd.
    f_equal. f_equal. rewrite Hdp, digit_low by assumption. rewrite Hm. reflexivity.
Qed.

Lemma map_seqZ_nth (f : Z -> Z) off n l :
  List.map f (seqZ off n) = l ->
  forall i, 0 <= i < n -> nth (Z.to_nat i) l 0 = f (off + i).
Proof.
  intros <- i Hi.
  rewrite (nth_indep _ 0 (f 0)) by (rewrite length_map, length_seqZ; lia).
  rewrite map_nth. f_equal.
  apply nth_lookup_Some. apply lookup_seqZ. split; lia.
Qed.

Lemma load_bytes_nth n m : forall a i,
  (i < n)%nat -> nth i (load_bytes n m a) 0 = load8 m (a + Z.of_nat i).
Proof.
  induction n as [|n IH]; intros a i Hi; [lia|].
  cbn [load_bytes]. destruct i as [|i].
  - cbn [nth Z.of_nat]. rewrite Z.add_0_r. reflexivity.
  - cbn [nth]. rewrite IH by lia. f_equal. lia.
Qed.

Lemma slot_turn_spec k cfg fuel buff kmax j next off dpt test si :
  wf (S k) cfg (view j) next off dpt (level j) = true ->
  In si (node_slots cfg (view j) next off dpt) ->
  bytes buff -> (depth j = 0 -> off <= kmax < 2 ^ 31) ->
  (Z.to_nat (JUDY_span_bytes cfg) <= fuel)%nat ->
  List.map (key_at (view j) buff kmax) (seqZ off (Z.of_nat (length (si_bytes si))))
  = si_bytes si ->
  (depth j = 0 ->
   if si_leaf si then kmax - off < Z.of_nat (length (si_bytes si))
   else Z.of_nat (length (si_bytes si)) <= kmax - off) ->
  exists s test', slot_turn_result cfg fuel buff kmax j next off dpt test si s test'.
Proof.
  intros Hw Hin Hbuf Hk Hfuel Hm Hlen.
  pose proof Hw as Hw'. apply wf_S in Hw'.
  destruct Hw' as (_ & Hl & _ & Hoff & Hlt & Hdp & _ & HS & _ & _ & Hspan & _ & _).
  assert (Hl' : level j < max j) by apply Hl.
  unfold slot_turn_result, key_at in *. change (depth (view j)) with (depth j) in *.
  destruct (tag_cases next) as [Hr|[Hs|Hlin]].
  - rewrite node_slots_rad in Hin by exact Hr.
    apply rad_slots_in in Hin; [|lia]. destruct Hin as (b & Hb & Hu & ->).
    cbn [si_bytes rad_info length Z.of_nat] in Hm, Hlen.
    change (Z.of_nat 1) with 1 in *.
    rewrite seqZ_cons', seqZ_nil' in Hm by lia. cbn [List.map] in Hm.
    injection Hm as Hm. change (Z.pos (Pos.of_succ_nat 0)) with 1 in Hlen.
    cbn [si_leaf si_cell rad_info] in *. change (mem (view j)) with (mem j) in *.
    exists (Some b), test. split.
    + destruct (Z.eqb_spec (depth j) 0) as [Hd|Hd].
      * specialize (Hk Hd). specialize (Hlen Hd).
        assert (Hleaf : is_leaf_slot (view j) b (rad_dpt (view j) off dpt)
                        = is_leaf_slot j b dpt).
        { unfold is_leaf_slot. change (depth (view j)) with (depth j).
          rewrite Hd. reflexivity. }
        rewrite Hleaf in *.
        rewrite (slot_turn_rad cfg fuel buff kmax j next off dpt test b
                   (if off <? kmax then u32 (off + 1) else off));
          [ | exact Hr | exact Hl' | | exact Hu ].
        -- rewrite Hd. cbn [Z.eqb negb andb].
           destruct (is_leaf_slot j b dpt); [reflexivity|].
           destruct (Z.ltb_spec off kmax); [|lia].
           unfold child_off, child_dpt, rad_dpt. rewrite Hr.
           change (JUDY_radix =? JUDY_radix) with true. cbv iota.
           change (depth (view j)) with (depth j). rewrite Hd. reflexivity.
        -- rewrite Hd. cbn [Z.eqb negb]. unfold str_byte in Hm.
           destruct (off <? kmax); rewrite Hm; reflexivity.
      * unfold dpt_at in Hdp. change (depth (view j)) with (depth j) in Hdp.
        apply Z.eqb_neq in Hd. rewrite Hd in Hdp. unfold JUDY_key_size in Hdp.
        rewrite (slot_turn_rad cfg fuel buff kmax j next off dpt test b (u32 (off + 1)));
          [ | exact Hr | exact Hl' | | exact Hu ].
        -- unfold child_off, child_dpt, rad_dpt, is_leaf_slot. rewrite Hr.
           change (JUDY_radix =? JUDY_radix) with true. cbv iota.
           reflexivity.
        -- rewrite Hd. cbn [negb]. f_equal. rewrite Hdp, digit_byte by (try assumption; lia).
           exact Hm.
    + rewrite entered_frame. unfold frame_si. cbn [fr_next fr_off fr_slot].
      rewrite Hr. change (JUDY_radix =? JUDY_radix) with true. cbv iota.
      rewrite <- Hdp. reflexivity.
  - rewrite node_slots_span in Hin by exact Hs. destruct Hin as [<-|[]].
    specialize (Hspan Hs). change (depth (view j)) with (depth j) in Hspan.
    specialize (Hk Hspan). specialize (Hlen Hspan).
    rewrite Hspan in Hm. cbn [Z.eqb] in Hm.
    cbn [si_bytes span_info] in Hm, Hlen. rewrite load_bytes_length in Hm, Hlen.
    rewrite Z2Nat.id in Hm, Hlen by lia.
    exists None, test. split.
    + rewrite (slot_turn_span cfg fuel buff kmax j next off dpt test);
        [ | exact Hs | exact Hl' | lia | lia | exact Hfuel | | exact Hlen ].
      * unfold child_off, child_dpt. rewrite Hs.
        change (JUDY_span =? JUDY_radix) with false.
        change (JUDY_span =? JUDY_span) with true. cbv iota. reflexivity.
      * intros i Hi. rewrite <- (map_seqZ_nth _ _ _ _ Hm i Hi).
        change (mem (view j)) with (mem j).
        rewrite load_bytes_nth by lia. rewrite Z2Nat.id by lia. reflexivity.
    + rewrite entered_frame_none. unfold frame_si. cbn [fr_next fr_off fr_slot].
      rewrite Hs. change (JUDY_span =? JUDY_radix) with false.
      change (JUDY_span =? JUDY_span) with true. cbv iota. reflexivity.
  - rewrite node_slots_lin in Hin by exact Hlin. apply lin_slots_in in Hin.
    destruct Hin as (i & Hi & ->).
    pose proof (lin_ks_range off) as Hks.
    cbn [si_bytes lin_info] in Hm. rewrite key_bytes_length in Hm by lia.
    assert (Hfs : frame_si cfg (view j)
                    (frame_at (stack (entered j next off (Some i))) (level j + 1))
                  = lin_info cfg (view j) next off dpt i).
    { rewrite entered_frame. unfold frame_si. cbn [fr_next fr_off fr_slot].
      destruct Hlin as [Hr Hs]. apply Z.eqb_neq in Hr. apply Z.eqb_neq in Hs.
      rewrite Hr, Hs. rewrite <- Hdp. reflexivity. }
    destruct (Z.eqb_spec (depth j) 0) as [Hd|Hd].
    + destruct (slot_turn_lin_str k cfg fuel buff kmax j next off dpt test i
                  Hw Hlin Hd Hi Hm) as (test' & Ht).
      exists (Some i), test'. split; [exact Ht|exact Hfs].
    + destruct (slot_turn_lin_fix k cfg fuel buff kmax j next off dpt test i
                  Hw Hlin Hd Hbuf Hi Hm) as (test' & Ht).
      exists (Some i), test'. split; [exact Ht|exact Hfs].
Qed.

Lemma path_shift cfg V st lo n :
  path_key cfg V st lo (S n)
  = contrib V (si_bytes (frame_si cfg V (frame_at st (lo + 1))))
    ++ path_key cfg V st (lo + 1) n.
Proof.
  induction n as [|n IH].
  - cbn [path_key app Z.of_nat]. change (Z.pos (Pos.of_succ_nat 0)) with 1.
    rewrite app_nil_r. reflexivity.
  - change (path_key cfg V st lo (S (S n)))
      with (path_key cfg V st lo (S n)
            ++ contrib V (si_bytes (frame_si cfg V (frame_at st (lo + Z.of_nat (S (S n))))))).
    rewrite IH. cbn [path_key]. rewrite <- app_assoc. f_equal. f_equal. f_equal.
    f_equal. f_equal. f_equal. lia.
Qed.

Lemma path_key_ext cfg V st st' lo n :
  (forall i, lo < i <= lo + Z.of_nat n -> frame_at st' i = frame_at st i) ->
  path_key cfg V st' lo n = path_key cfg V st lo n.
Proof.
  induction n as [|n IH]; intros H; [reflexivity|].
  cbn [path_key]. rewrite IH by (intros i Hi; apply H; lia).
  rewrite H by lia. reflexivity.
Qed.

Lemma strip0_zero bs : In 0 bs -> (length (strip0 bs) < length bs)%nat.
Proof.
  induction bs as [|b bs IH]; intros H; [destruct H|].
  cbn [strip0]. destruct (Z.eqb_spec b 0) as [Hb|Hb]; cbn [length]; [lia|].
  destruct H as [H|H]; [lia|]. specialize (IH H). lia.
Qed.

(** in a string tree a leaf slot holds the terminator *)
Lemma leaf_has_zero cfg V next off dpt si :
  depth V = 0 -> 0 < JUDY_span_bytes cfg ->
  In si (node_slots cfg V next off dpt) -> si_leaf si = true ->
  In 0 (si_bytes si).
Proof.
  intros Hd HS Hin Hleaf.
  destruct (tag_cases next) as [Hr|[Hs|Hlin]].
  - rewrite node_slots_rad in Hin by exact Hr.
    apply rad_slots_in in Hin; [|lia]. destruct Hin as (b & _ & _ & ->).
    unfold rad_info, is_leaf_slot in *. cbn [si_leaf si_bytes] in *.
    rewrite Hd in Hleaf. cbn [Z.eqb andb negb] in Hleaf. rewrite orb_false_r in Hleaf.
    apply Z.eqb_eq in Hleaf. left. lia.
  - rewrite node_slots_span in Hin by exact Hs. destruct Hin as [<-|[]].
    unfold span_info in *. cbn [si_leaf si_bytes] in *.
    apply Z.eqb_eq in Hleaf. rewrite span_bytes_last by lia.
    apply in_or_app. right. left. exact Hleaf.
  - rewrite node_slots_lin in Hin by exact Hlin. apply lin_slots_in in Hin.
    destruct Hin as (i & _ & ->).
    unfold lin_info, is_leaf_key in *. cbn [si_leaf si_bytes] in *.
    rewrite Hd in Hleaf. cbn [Z.eqb fst] in Hleaf. apply Z.eqb_eq in Hleaf.
    pose proof (lin_ks_range off) as Hks.
    rewrite key_bytes_last by lia. apply in_or_app. right. left. exact Hleaf.
Qed.

(** a slot stands for as many key bytes as the offset advances *)
Lemma child_off_len k cfg V next off dpt lvl si :
  wf (S k) cfg V next off dpt lvl = true ->
  In si (node_slots cfg V next off dpt) ->
  child_off cfg next off = off + Z.of_nat (length (si_bytes si)).
Proof.
  intros Hw Hin. apply wf_S in Hw.
  destruct Hw as (_ & _ & _ & Hoff & Hlt & _ & _ & HS & _).
  unfold child_off.
  destruct (tag_cases next) as [Hr|[Hs|Hlin]].
  - rewrite node_slots_rad in Hin by exact Hr.
    apply rad_slots_in in Hin; [|lia]. destruct Hin as (b & _ & _ & ->).
    rewrite Hr. change (JUDY_radix =? JUDY_radix) with true. cbv iota.
    cbn [si_bytes rad_info length]. rewrite u32_small by lia. reflexivity.
  - rewrite node_slots_span in Hin by exact Hs. destruct Hin as [<-|[]].
    rewrite Hs. change (JUDY_span =? JUDY_radix) with false.
    change (JUDY_span =? JUDY_span) with true. cbv iota.
    cbn [si_bytes span_info]. rewrite load_bytes_length, Z2Nat.id by lia.
    apply u32_small. lia.
  - rewrite node_slots_lin in Hin by exact Hlin. apply lin_slots_in in Hin.
    destruct Hin as (i & _ & ->).
    destruct Hlin as [Hr Hs]. apply Z.eqb_neq in Hr. apply Z.eqb_neq in Hs.
    rewrite Hr, Hs. cbn [si_bytes lin_info].
    pose proof (lin_ks_range off) as Hks. rewrite key_bytes_length by lia.
    unfold JUDY_key_mask. rewrite lor7 by lia. rewrite lin_ks_mod.
    pose proof (Z.mod_pos_bound off 8 ltac:(lia)).
    rewrite u32_small by lia. lia.
Qed.

Lemma slot_bytes_pos k cfg V next off dpt lvl si :
  wf (S k) cfg V next off dpt lvl = true ->
  In si (node_slots cfg V next off dpt) ->
  1 <= Z.of_nat (length (si_bytes si)).
Proof.
  intros Hw Hin. apply wf_S in Hw.
  destruct Hw as (_ & _ & _ & Hoff & Hlt & _ & _ & HS & _).
  destruct (tag_cases next) as [Hr|[Hs|Hlin]].
  - rewrite node_slots_rad in Hin by exact Hr.
    apply rad_slots_in in Hin; [|lia]. destruct Hin as (b & _ & _ & ->).
    cbn [si_bytes rad_info length]. lia.
  - rewrite node_slots_span in Hin by exact Hs. destruct Hin as [<-|[]].
    cbn [si_bytes span_info]. rewrite load_bytes_length. lia.
  - rewrite node_slots_lin in Hin by exact Hlin. apply lin_slots_in in Hin.
    destruct Hin as (i & _ & ->). cbn [si_bytes lin_info].
    pose proof (lin_ks_range off) as Hks. rewrite key_bytes_length by lia. lia.
Qed.

(** the digit of the key at the slot its path goes through *)
Lemma key_matches k cfg V buff kmax next off dpt lvl si rest :
  wf (S k) cfg V next off dpt lvl = true ->
  In si (node_slots cfg V next off dpt) ->
  (depth V = 0 -> off <= kmax) ->
  key_from V buff kmax off = contrib V (si_bytes si) ++ rest ->
  (si_leaf si = true -> rest = []) ->
  List.map (key_at V buff kmax) (seqZ off (Z.of_nat (length (si_bytes si))))
  = si_bytes si /\
  (depth V = 0 ->
   if si_leaf si then kmax - off < Z.of_nat (length (si_bytes si))
   else Z.of_nat (length (si_bytes si)) <= kmax - off) /\
  (si_leaf si = false ->
   rest = key_from V buff kmax (child_off cfg next off) /\
   (depth V = 0 -> child_off cfg next off <= kmax) /\
   contrib V (si_bytes si) = si_bytes si).
Proof.
  intros Hw Hin Hk Hkey Hrest.
  pose proof (child_off_len k cfg V next off dpt lvl si Hw Hin) as Hco.
  apply wf_S in Hw.
  destruct Hw as (_ & _ & _ & Hoff & Hlt & _ & _ & HS & _ & Hsl & _).
  destruct (Hsl si Hin) as (_ & _ & Hv & _).
  unfold key_from, contrib in *.
  destruct (Z.eqb_spec (depth V) 0) as [Hd|Hd].
  - specialize (Hk Hd). destruct Hv as [Hv|Hv]; [lia|].
    unfold key_at, key_end in *. rewrite Hd in *. cbn [Z.eqb] in *.
    assert (Hlen : Z.to_nat (kmax - off)
                   = (length (strip0 (si_bytes si)) + length rest)%nat).
    { rewrite <- length_app, <- Hkey, length_map, length_seqZ. reflexivity. }
    destruct (si_leaf si) eqn:Hleaf.
    + specialize (Hrest eq_refl). subst rest.
      pose proof (strip0_zero _ (leaf_has_zero cfg V next off dpt si Hd HS Hin Hleaf)).
      cbn [length] in Hlen.
      split; [apply (matched_bytes buff kmax off _ []); auto|].
      split; [intros _; lia|discriminate].
    + pose proof (nonleaf_no_zero cfg V next off dpt si Hd HS Hin Hv Hleaf) as Hnz.
      apply strip0_id in Hnz. rewrite Hnz in *.
      split; [apply (matched_bytes buff kmax off _ rest); auto; rewrite Hnz; exact Hkey|].
      split; [intros _; lia|]. intros _.
      apply map_seqZ_split in Hkey. destruct Hkey as [_ Hkey].
      rewrite Hco. split; [|split; [intros _; lia|reflexivity]].
      rewrite <- Hkey. f_equal. f_equal. lia.
  - apply map_seqZ_split in Hkey. destruct Hkey as [Hk1 Hk2].
    split; [exact Hk1|]. split; [intros; contradiction|].
    intros _. rewrite Hco. split; [|split; [intros; contradiction|reflexivity]].
    rewrite <- Hk2. f_equal. f_equal. lia.
Qed.

Lemma keys_in k cfg V next off dpt key c :
  next <> 0 ->
  In (key, c) (keys (S k) cfg V next off dpt) ->
  exists si rest,
    In si (node_slots cfg V next off dpt) /\
    key = contrib V (si_bytes si) ++ rest /\
    if si_leaf si then rest = [] /\ c = si_cell si
    else In (rest, c) (keys k cfg V (load64 (mem V) (si_cell si))
                         (child_off cfg next off) (child_dpt V next off dpt)).
Proof.
  intros Hn H. cbn [keys] in H. apply Z.eqb_neq in Hn. rewrite Hn in H.
  apply in_flat_map in H. destruct H as (si & Hin & H).
  exists si. destruct (si_leaf si).
  - destruct H as [[= <- <-]|[]]. exists []. rewrite app_nil_r. auto.
  - apply in_map_iff in H. destruct H as ((k' & c') & [= <- <-] & H).
    exists k'. auto.
Qed.

(** [judy_slot] finds every key of a well-formed trie, and leaves the
    cursor on its path *)
Lemma slot_loop_spec k cfg buff kmax :
  forall fuel j next off dpt test key c,
  wf k cfg (view j) next off dpt (level j) = true ->
  In (key, c) (keys k cfg (view j) next off dpt) ->
  key = key_from (view j) buff kmax off ->
  bytes buff -> (depth j = 0 -> off <= kmax < 2 ^ 31) ->
  (k + Z.to_nat (JUDY_span_bytes cfg) <= fuel)%nat ->
  exists j' n,
    judy_slot_loop cfg fuel buff kmax (mkWalk next off dpt test) j = (c, j') /\
    c <> 0 /\ store_of j' = store_of j /\ level j' = level j + Z.of_nat (S n) /\
    (forall i, i <= level j -> frame_at (stack j') i = frame_at (stack j) i) /\
    (forall i, level j < i <= level j' -> frame_ok k cfg (view j) (stack j') i) /\
    path_key cfg (view j) (stack j') (level j) (S n) = key /\
    (forall m, (m <= n)%nat ->
       fr_off (frame_at (stack j') (level j + Z.of_nat (S m)))
       = off + Z.of_nat (length (path_key cfg (view j) (stack j') (level j) m))) /\
    off + Z.of_nat n <= fr_off (frame_at (stack j') (level j')).
Proof.
  induction k as [|k IH]; intros fuel j next off dpt test key c Hw Hin Hkey Hbuf Hk Hfuel;
    [discriminate|].
  destruct fuel as [|fuel]; [lia|].
  pose proof Hw as Hw'. apply wf_S in Hw'.
  destruct Hw' as (Hn & Hl & _ & _ & _ & Hd & _ & _ & _ & Hsl & _).
  destruct (keys_in k cfg (view j) next off dpt key c Hn Hin) as (si & rest & Hsi & Hsplit & Hrest).
  destruct (Hsl si Hsi) as (Hc0 & _ & _ & Hb).
  destruct (key_matches k cfg (view j) buff kmax next off dpt (level j) si rest Hw Hsi)
    as (Hm & Hlen & Hnext).
  { intros H0. apply Hk, H0. }
  { rewrite <- Hkey. exact Hsplit. }
  { intros Hleaf. rewrite Hleaf in Hrest. apply Hrest. }
  destruct (slot_turn_spec k cfg (S fuel) buff kmax j next off dpt test si Hw Hsi Hbuf Hk
              ltac:(lia) Hm Hlen) as (s & test' & Hturn & Hfsi).
  assert (Hfok : frame_ok (S k) cfg (view j) (stack (entered j next off s)) (level j + 1)).
  { destruct (entered_fields j next off s) as [Hfn Hfo].
    unfold frame_ok. cbv zeta. rewrite Hfsi, Hfn, Hfo, <- Hd.
    replace (level j + 1 - 1) with (level j) by lia. split; [exact Hw|exact Hsi]. }
  cbn [judy_slot_loop w_next]. apply Z.eqb_neq in Hn. rewrite Hn. rewrite Hturn.
  unfold below in Hb. destruct (si_leaf si) eqn:Hleaf.
  - destruct Hrest as [-> ->]. rewrite app_nil_r in Hsplit.
    exists (entered j next off s), O.
    split; [reflexivity|]. split; [exact Hc0|].
    split; [apply entered_store|]. split; [apply entered_level|].
    split; [intros i Hi; apply entered_frame_ne; lia|].
    split.
    + intros i Hi. rewrite entered_level in Hi.
      replace i with (level j + 1) by lia. exact Hfok.
    + split.
      * cbn [path_key app]. change (Z.of_nat 1) with 1.
        rewrite Hfsi. symmetry. exact Hsplit.
      * destruct (entered_fields j next off s) as [_ Hfo]. split.
        -- intros m Hmn. replace m with O by lia. cbn [path_key length].
           change (Z.of_nat 1) with 1. change (Z.of_nat 0) with 0.
           rewrite Hfo. lia.
        -- rewrite entered_level, Hfo. change (Z.of_nat 0) with 0. lia.
  - cbn [orb] in Hb. destruct (Hnext eq_refl) as (Hrk & Hko & Hcb).
    set (j1 := entered j next off s) in *.
    assert (Hv : view j1 = view j) by apply entered_view.
    assert (Hl1 : level j1 = level j + 1) by apply entered_level.
    destruct (IH fuel j1 (load64 (mem j) (si_cell si)) (child_off cfg next off)
                (child_dpt (view j) next off dpt) test' rest c)
      as (j' & n & Hf & Hcn & Hst & Hlv & Hfr & Hok & Hpk & Hpo & Htop).
    { rewrite Hv, Hl1. exact Hb. }
    { rewrite Hv. exact Hrest. }
    { rewrite Hv. exact Hrk. }
    { exact Hbuf. }
    { intros H0. assert (Hdj : depth j1 = depth j) by (unfold j1; destruct s; reflexivity).
      rewrite Hdj in H0. specialize (Hk H0). specialize (Hko H0). lia. }
    { lia. }
    rewrite Hv in Hok, Hpk, Hpo. rewrite Hl1 in Hlv, Hfr, Hok, Hpk, Hpo.
    exists j', (S n).
    split; [exact Hf|]. split; [exact Hcn|].
    split; [rewrite Hst; apply entered_store|].
    split; [rewrite Hlv; lia|].
    split; [intros i Hi; rewrite Hfr by lia; apply entered_frame_ne; lia|].
    split.
    + intros i Hi. destruct (Z.eq_dec i (level j + 1)) as [->|Hne].
      * apply (frame_ok_ext _ _ _ (stack j1)); [apply Hfr; lia|exact Hfok].
      * apply (frame_ok_mono k (S k)); [lia|]. apply Hok. lia.
    + split.
      * rewrite path_shift, Hpk, Hfr, Hfsi by lia. symmetry. exact Hsplit.
      * split.
        2:{ pose proof (child_off_len k cfg (view j) next off dpt (level j) si Hw Hsi).
            pose proof (slot_bytes_pos k cfg (view j) next off dpt (level j) si Hw Hsi).
            lia. }
        intros m Hmn. destruct m as [|m].
        -- cbn [path_key length]. change (Z.of_nat 1) with 1. change (Z.of_nat 0) with 0.
           rewrite Hfr by lia.
           destruct (entered_fields j next off s) as [_ Hfo]. fold j1 in Hfo.
           rewrite Hfo. lia.
        -- rewrite path_shift, (Hfr (level j + 1)), Hfsi, Hcb by lia. rewrite length_app.
           specialize (Hpo m ltac:(lia)).
           replace (level j + Z.of_nat (S (S m))) with (level j + 1 + Z.of_nat (S m)) by lia.
           rewrite Hpo.
           rewrite (child_off_len k cfg (view j) next off dpt (level j) si Hw Hsi). lia.
Qed.

(** ** Reading the key back ([judy_key]) *)

Lemma put_app buff pos x y :
  put buff pos (x ++ y) = put (put buff pos x) (pos + Z.of_nat (length x)) y.
Proof.
  revert buff pos. induction x as [|a x IH]; intros buff pos.
  - cbn [app put length Z.of_nat]. rewrite Z.add_0_r. reflexivity.
  - cbn [app put length]. rewrite IH. f_equal. lia.
Qed.

Lemma buf_set_twice buff pos v w :
  buf_set (buf_set buff pos v) pos w = buf_set buff pos w.
Proof.
  unfold buf_set. destruct (pos <? 0); [reflexivity|].
  apply list_insert_insert_eq.
Qed.

(** a terminator stored where the next bytes go is overwritten *)
Lemma put_over buff pos bs :
  bs <> [] -> put (put buff pos [0]) pos bs = put buff pos bs.
Proof.
  destruct bs as [|b r]; [contradiction|]. intros _.
  cbn [put]. rewrite buf_set_twice. reflexivity.
Qed.

Lemma key_bytes_S m a (r : nat) :
  key_bytes m a (Z.of_nat (S r))
  = load8 m (a + Z.of_nat r) :: key_bytes m a (Z.of_nat r).
Proof.
  unfold key_bytes. rewrite !Nat2Z.id, load_bytes_snoc, rev_app_distr. reflexivity.
Qed.

Lemma key_linear_spec m a kmax (r : nat) : forall n buff len,
  (r < n)%nat -> 0 <= len ->
  let rem := key_bytes m a (Z.of_nat r) in
  let x := strip0 rem in
  len + Z.of_nat (length x) <= kmax -> kmax < 2 ^ 32 ->
  key_linear n m a kmax (Z.of_nat r) buff len
  = (put buff len
       (x ++ if (Z.of_nat (length x) <? Z.of_nat r)
                && (len + Z.of_nat (length x) <? kmax) then [0] else []),
     len + Z.of_nat (length x)).
Proof.
  induction r as [|r IH]; intros n buff len Hn Hlen rem x Hk Hk32;
    (destruct n as [|n]; [lia|]).
  - cbn [key_linear Z.of_nat Z.eqb orb]. subst x rem. cbn [key_bytes].
    unfold key_bytes. cbn [Z.to_nat load_bytes rev strip0 length app Z.of_nat].
    rewrite Z.ltb_irrefl. cbn [andb put]. rewrite Z.add_0_r. reflexivity.
  - subst x rem. rewrite key_bytes_S in *. cbn [strip0] in *.
    cbn [key_linear].
    destruct (Z.eqb_spec (Z.of_nat (S r)) 0); [lia|]. cbn [orb].
    replace (Z.of_nat (S r) - 1) with (Z.of_nat r) by lia.
    destruct (Z.eqb_spec (load8 m (a + Z.of_nat r)) 0) as [Hz|Hnz].
    + cbn [length Z.of_nat app] in *. rewrite Z.add_0_r.
      destruct (Z.ltb_spec 0 (Z.of_nat (S r))); [|lia]. cbn [andb].
      destruct (Z.ltb_spec len kmax); cbn [negb].
      * rewrite Hz. reflexivity.
      * reflexivity.
    + cbn [length] in *. destruct (Z.ltb_spec len kmax); [|lia]. cbn [negb].
      rewrite u32_small by lia.
      rewrite (IH n) by lia. cbn [app put]. f_equal; [|lia]. f_equal. f_equal.
      replace (len + 1 + Z.of_nat (length (strip0 (key_bytes m a (Z.of_nat r)))))
        with (len + Z.of_nat (S (length (strip0 (key_bytes m a (Z.of_nat r))))))
        by lia.
      destruct (Z.ltb_spec (Z.of_nat (length (strip0 (key_bytes m a (Z.of_nat r)))))
                  (Z.of_nat r));
        destruct (Z.ltb_spec (Z.of_nat (S (length (strip0 (key_bytes m a (Z.of_nat r))))))
                    (Z.of_nat (S r))); try lia; reflexivity.
Qed.

Lemma key_span_spec cfg m base kmax (r : nat) : forall n slot buff len,
  (r < n)%nat -> 0 <= len -> slot + Z.of_nat r = JUDY_span_bytes cfg ->
  let x := strip0 (load_bytes r m (base + slot)) in
  len + Z.of_nat (length x) <= kmax -> kmax < 2 ^ 32 ->
  key_span cfg n m base kmax slot buff len
  = (put buff len x, len + Z.of_nat (length x)).
Proof.
  induction r as [|r IH]; intros n slot buff len Hn Hlen Hs x Hk Hk32;
    (destruct n as [|n]; [lia|]).
  - cbn [key_span]. destruct (Z.ltb_spec slot (JUDY_span_bytes cfg)); [lia|].
    cbn [andb]. subst x. cbn [load_bytes strip0 put length Z.of_nat].
    rewrite Z.add_0_r. reflexivity.
  - subst x. cbn [load_bytes strip0] in *. cbn [key_span].
    destruct (Z.ltb_spec slot (JUDY_span_bytes cfg)); [|lia]. cbn [andb].
    destruct (Z.eqb_spec (load8 m (base + slot)) 0) as [Hz|Hnz]; cbn [negb].
    + cbn [put length Z.of_nat]. rewrite Z.add_0_r. reflexivity.
    + cbn [length] in *. destruct (Z.ltb_spec len kmax); [|lia].
      rewrite u32_small by lia.
      replace (base + slot + 1) with (base + (slot + 1)) in * by lia.
      rewrite (IH n) by lia.
      cbn [put]. f_equal. lia.
Qed.

(** one frame of the cursor adds its bytes to the key, in a string tree *)
Lemma key_turn_str cfg j kmax idx buff len :
  depth j = 0 -> 0 < JUDY_span_bytes cfg -> 0 <= len ->
  let x := strip0 (si_bytes (frame_si cfg (view j) (frame_at (stack j) idx))) in
  len + Z.of_nat (length x) <= kmax -> kmax < 2 ^ 32 ->
  exists e, (e = [] \/ e = [0]) /\
    judy_key_turn cfg j kmax idx buff len
    = inr (put buff len (x ++ e), len + Z.of_nat (length x)).
Proof.
  intros Hd HS Hlen x Hk Hk32. subst x. unfold judy_key_turn, frame_si in *.
  change (frame j idx) with (frame_at (stack j) idx).
  set (f := frame_at (stack j) idx) in *.
  rewrite Hd. cbn [Z.eqb negb andb].
  destruct (tag_of (fr_next f) =? JUDY_radix) eqn:Hr.
  - cbn [si_bytes rad_info strip0] in *.
    destruct (Z.eqb_spec (fr_slot f) 0) as [Hz|Hnz].
    + exists []. split; [left; reflexivity|]. cbn [length app put Z.of_nat].
      rewrite Z.add_0_r. reflexivity.
    + exists []. split; [left; reflexivity|]. cbn [length app put Z.of_nat] in *.
      rewrite u32_small by lia. reflexivity.
  - destruct (tag_of (fr_next f) =? JUDY_span) eqn:Hs.
    + exists []. split; [left; reflexivity|]. rewrite app_nil_r.
      cbn [si_bytes span_info] in *. change (mem (view j)) with (mem j) in *.
      rewrite (key_span_spec cfg (mem j) (base_of (fr_next f)) kmax
                 (Z.to_nat (JUDY_span_bytes cfg))); try lia.
      * rewrite Z.add_0_r. reflexivity.
      * rewrite Z.add_0_r. exact Hk.
    + cbn [si_bytes lin_info] in *. change (mem (view j)) with (mem j) in *.
      pose proof (lin_ks_range (fr_off f)) as Hks.
      unfold lin_key in *. fold (lin_ks (fr_off f)).
      set (ks := lin_ks (fr_off f)) in *.
      set (a := base_of (fr_next f) + fr_slot f * ks) in *.
      rewrite <- (Z2Nat.id ks) in * by lia.
      rewrite (key_linear_spec (mem j) a kmax (Z.to_nat ks)); try lia.
      eexists. split; [|reflexivity].
      match goal with |- context [if ?b then _ else _] => destruct b end; auto.
Qed.

Lemma key_loop_str cfg j kmax (n : nat) : forall fuel idx buff len,
  depth j = 0 -> 0 < JUDY_span_bytes cfg ->
  0 <= idx -> idx + Z.of_nat n = level j -> level j < 2 ^ 32 - 1 -> (n < fuel)%nat ->
  let X := path_key cfg (view j) (stack j) idx n in
  0 <= len -> len + Z.of_nat (length X) <= kmax -> kmax < 2 ^ 32 ->
  judy_key_loop cfg fuel j kmax idx buff len
  = (put buff len (X ++ [0]), len + Z.of_nat (length X)).
Proof.
  induction n as [|n IH]; intros fuel idx buff len Hd HS Hidx Hlv Hl32 Hfuel X Hlen Hk Hk32;
    (destruct fuel as [|fuel]; [lia|]).
  - subst X. cbn [path_key length app put Z.of_nat] in *. rewrite Z.add_0_r.
    cbn [judy_key_loop]. destruct (len <? kmax); cbn [negb]; [|reflexivity].
    rewrite u32_small by lia.
    destruct (Z.leb_spec (idx + 1) (level j)); [lia|]. reflexivity.
  - subst X. rewrite path_shift in *. unfold contrib in *.
    change (depth (view j)) with (depth j) in *. rewrite Hd in *. cbn [Z.eqb] in *.
    set (x := strip0 (si_bytes (frame_si cfg (view j) (frame_at (stack j) (idx + 1))))) in *.
    set (X' := path_key cfg (view j) (stack j) (idx + 1) n) in *.
    rewrite length_app in *.
    cbn [judy_key_loop]. destruct (Z.ltb_spec len kmax) as [Hlt|Hge]; cbn [negb].
    + rewrite u32_small by lia.
      destruct (Z.leb_spec (idx + 1) (level j)); [|lia]. cbn [negb].
      destruct (key_turn_str cfg j kmax (idx + 1) buff len Hd HS Hlen) as (e & He & Ht);
        [fold x; lia|lia|].
      fold x in Ht. rewrite Ht.
      rewrite (IH fuel (idx + 1)); try assumption; try lia; fold X'; try lia.
      f_equal; [|lia].
      rewrite <- app_assoc, (put_app buff len x (X' ++ [0])).
      destruct He as [->| ->].
      * rewrite app_nil_r. reflexivity.
      * rewrite (put_app buff len x [0]). apply put_over.
        destruct X'; discriminate.
    + assert (Hx : length x = 0%nat) by lia. assert (HX : length X' = 0%nat) by lia.
      destruct x; [|discriminate]. destruct X'; [|discriminate].
      cbn [app put length Z.of_nat]. rewrite Z.add_0_r. reflexivity.
Qed.

(** in a string tree [judy_key] writes the key the cursor spells, and a
    terminator after it *)
Lemma judy_key_string cfg fuel buff kmax j :
  depth j = 0 -> 0 < JUDY_span_bytes cfg -> 0 <= level j < 2 ^ 32 - 1 ->
  (Z.to_nat (level j) < fuel)%nat ->
  let K := path_key cfg (view j) (stack j) 0 (Z.to_nat (level j)) in
  Z.of_nat (length K) < kmax -> kmax < 2 ^ 32 ->
  judy_key cfg fuel buff kmax j = (put buff 0 (K ++ [0]), Z.of_nat (length K)).
Proof.
  intros Hd HS Hl Hfuel K Hk Hk32. unfold judy_key. rewrite Hd. cbn [Z.eqb negb].
  rewrite u32_small by lia.
  rewrite (key_loop_str cfg j (kmax - 1) (Z.to_nat (level j))); try assumption; try lia.
  - reflexivity.
  - fold K. lia.
Qed.

Lemma put_length buff pos bs : length (put buff pos bs) = length buff.
Proof.
  revert buff pos. induction bs as [|b r IH]; intros buff pos; [reflexivity|].
  cbn [put]. rewrite IH. unfold buf_set. destruct (pos <? 0); [reflexivity|].
  apply length_insert.
Qed.

(** the buffer after a store, when the bytes fit *)
Lemma put_spec bs : forall buff pos,
  bytes bs -> 0 <= pos -> pos + Z.of_nat (length bs) <= Z.of_nat (length buff) ->
  put buff pos bs
  = take (Z.to_nat pos) buff ++ bs ++ drop (Z.to_nat pos + length bs) buff.
Proof.
  induction bs as [|b r IH]; intros buff pos Hb Hpos Hlen.
  - cbn [put app length]. rewrite Nat.add_0_r, take_drop. reflexivity.
  - apply bytes_cons in Hb. destruct Hb as [Hb Hr]. cbn [put length] in *.
    rewrite IH; [|exact Hr|lia|].
    2:{ unfold buf_set. destruct (pos <? 0); [lia|]. rewrite length_insert. lia. }
    unfold buf_set. destruct (Z.ltb_spec pos 0); [lia|].
    unfold u8. rewrite Z.mod_small by lia.
    replace (Z.to_nat (pos + 1)) with (S (Z.to_nat pos)) by lia.
    rewrite (take_S_r _ _ b).
    + rewrite take_insert_ge by lia. rewrite <- app_assoc. cbn [app].
      f_equal. f_equal. f_equal. rewrite drop_insert_lt by lia.
      f_equal. lia.
    + apply list_lookup_insert_eq. lia.
Qed.

Lemma byte_of_bits v t i :
  0 <= i -> Z.testbit (byte_of v t) i = Z.testbit v (i + 8 * t) && (i <? 8).
Proof.
  intros Hi. unfold byte_of. rewrite Z.land_spec, Z.shiftr_spec by lia.
  change 255 with (Z.ones 8). rewrite Z.testbit_ones_nonneg by lia. reflexivity.
Qed.

Lemma byte_of_range v t : 0 <= byte_of v t < 256.
Proof. unfold byte_of. rewrite land255. apply Z.mod_pos_bound. lia. Qed.

Lemma byte_of_div v t : 0 <= t -> byte_of v t = (v / 256 ^ t) mod 256.
Proof.
  intros Ht. unfold byte_of. rewrite land255, Z.shiftr_div_pow2, pow256 by lia.
  reflexivity.
Qed.

Lemma small_bits b i : 0 <= b < 256 -> 8 <= i -> Z.testbit b i = false.
Proof.
  intros Hb Hi. rewrite <- (Z.mod_small b (2 ^ 8)) by (change (2 ^ 8) with 256; lia).
  apply Z.mod_pow2_bits_high. lia.
Qed.

Lemma byte_lor x y t : byte_of (Z.lor x y) t = Z.lor (byte_of x t) (byte_of y t).
Proof. unfold byte_of. rewrite Z.shiftr_lor, Z.land_lor_distr_l. reflexivity. Qed.

Lemma byte_u64 v t : 0 <= t < 8 -> byte_of (u64 v) t = byte_of v t.
Proof.
  intros Ht. apply Z.bits_inj'. intros i Hi. rewrite !byte_of_bits by lia.
  destruct (Z.ltb_spec i 8); [|rewrite !andb_false_r; reflexivity].
  unfold u64. rewrite Z.mod_pow2_bits_low by lia. reflexivity.
Qed.

(** a byte shifted into place *)
Lemma byte_shl b s t :
  0 <= b < 256 -> 0 <= s < 8 -> 0 <= t < 8 ->
  byte_of (u64 (Z.shiftl b (8 * s))) t = if t =? s then b else 0.
Proof.
  intros Hb Hs Ht. rewrite byte_u64 by lia.
  apply Z.bits_inj'. intros i Hi. rewrite byte_of_bits by lia.
  rewrite Z.shiftl_spec by lia.
  destruct (Z.eqb_spec t s) as [->|Hne].
  - replace (i + 8 * s - 8 * s) with i by lia.
    destruct (Z.ltb_spec i 8); [apply andb_true_r|].
    rewrite small_bits by lia. reflexivity.
  - rewrite Z.bits_0. destruct (Z.ltb_spec i 8); [|apply andb_false_r].
    rewrite andb_true_r.
    destruct (Z.lt_ge_cases t s).
    + apply Z.testbit_neg_r. lia.
    + apply small_bits; lia.
Qed.

Lemma buf_get_set B i v k :
  buf_get (buf_set B i v) k
  = if (k =? i) && (0 <=? i) && (i <? Z.of_nat (length B)) then u8 v else buf_get B k.
Proof.
  unfold buf_get, buf_set.
  destruct (Z.ltb_spec i 0) as [Hi|Hi].
  - destruct (Z.leb_spec 0 i); [lia|]. rewrite andb_false_r. reflexivity.
  - destruct (Z.leb_spec 0 i); [|lia]. rewrite andb_true_r.
    destruct (Z.ltb_spec k 0) as [Hk|Hk].
    + destruct (Z.eqb_spec k i); [lia|]. reflexivity.
    + rewrite list_lookup_insert.
      destruct (Z.eqb_spec k i) as [->|Hne]; cbn [andb].
      * destruct (Z.ltb_spec i (Z.of_nat (length B))).
        -- rewrite decide_True by (split; [reflexivity|lia]). reflexivity.
        -- rewrite decide_False by lia. reflexivity.
      * rewrite decide_False by lia. reflexivity.
Qed.

Lemma buf_set_length B i v : length (buf_set B i v) = length B.
Proof. unfold buf_set. destruct (i <? 0); [reflexivity|]. apply length_insert. Qed.

Lemma buf_set_le_length n : forall B i v, length (buf_set_le n B i v) = length B.
Proof.
  induction n as [|n IH]; intros B i v; [reflexivity|].
  cbn [buf_set_le]. rewrite IH. apply buf_set_length.
Qed.

Lemma buf_set_le_get n : forall B i0 v k,
  0 <= i0 -> i0 + Z.of_nat n <= Z.of_nat (length B) ->
  buf_get (buf_set_le n B i0 v) k
  = if (i0 <=? k) && (k <? i0 + Z.of_nat n) then (v / 256 ^ (k - i0)) mod 256
    else buf_get B k.
Proof.
  induction n as [|n IH]; intros B i0 v k Hi Hlen.
  - cbn [buf_set_le]. destruct (Z.leb_spec i0 k); destruct (Z.ltb_spec k (i0 + Z.of_nat 0));
      try lia; reflexivity.
  - cbn [buf_set_le]. rewrite IH by (rewrite ?buf_set_length; lia).
    rewrite buf_get_set.
    destruct (Z.leb_spec (i0 + 1) k); destruct (Z.ltb_spec k (i0 + 1 + Z.of_nat n));
      destruct (Z.leb_spec i0 k); destruct (Z.ltb_spec k (i0 + Z.of_nat (S n)));
      try lia; cbn [andb].
    + rewrite Z.div_div by (try apply Z.pow_pos_nonneg; lia).
      replace (256 * 256 ^ (k - (i0 + 1))) with (256 ^ (k - i0)); [reflexivity|].
      replace (k - i0) with (Z.succ (k - (i0 + 1))) by lia.
      rewrite Z.pow_succ_r by lia. reflexivity.
    + destruct (Z.eqb_spec k i0); [lia|]. reflexivity.
    + assert (k = i0) by lia. subst k. rewrite Z.eqb_refl.
      destruct (Z.leb_spec 0 i0); [|lia].
      destruct (Z.ltb_spec i0 (Z.of_nat (length B))); [|lia]. cbn [andb].
      rewrite Z.sub_diag. cbn [Z.pow]. rewrite Z.div_1_r. reflexivity.
    + destruct (Z.eqb_spec k i0); [lia|]. reflexivity.
Qed.

Lemma dest_set_length B d v : length (dest_set B d v) = length B.
Proof. apply buf_set_le_length. Qed.

Lemma dest_set_get B d v k :
  0 <= d -> 8 * d + 8 <= Z.of_nat (length B) ->
  buf_get (dest_set B d v) k
  = if (8 * d <=? k) && (k <? 8 * d + 8) then byte_of v (k - 8 * d)
    else buf_get B k.
Proof.
  intros Hd Hlen. unfold dest_set. rewrite buf_set_le_get by lia.
  change (Z.of_nat 8) with 8.
  destruct (Z.leb_spec (8 * d) k); destruct (Z.ltb_spec k (8 * d + 8));
    cbn [andb]; try reflexivity.
  rewrite <- byte_of_div by lia. apply byte_u64. lia.
Qed.

Lemma src_byte B d t :
  (forall s, 0 <= s < 8 -> 0 <= buf_get B (8 * d + s) < 256) -> 0 <= t < 8 ->
  byte_of (src_get B d) t = buf_get B (8 * d + t).
Proof.
  intros Hb Ht. unfold src_get, byte_of. rewrite buf_le_val.
  rewrite <- (Z2Nat.id t) at 1 by lia. rewrite le_val_byte.
  - rewrite (nth_indep _ 0 (buf_get B 0)) by (rewrite length_map, length_seqZ; lia).
    rewrite map_nth. f_equal.
    rewrite (nth_lookup_Some _ _ _ (8 * d + Z.of_nat (Z.to_nat t))).
    + lia.
    + apply lookup_seqZ. split; lia.
  - unfold bytes. apply forallb_forall. intros x Hx. apply in_map_iff in Hx.
    destruct Hx as (s & <- & Hs). apply In_seqZ in Hs.
    specialize (Hb (s - 8 * d) ltac:(lia)).
    replace (8 * d + (s - 8 * d)) with s in Hb by lia. unfold is_byte. lia.
  - rewrite length_map, length_seqZ. lia.
Qed.

Lemma le_val_zeros l n : le_val (l ++ repeat 0 n) = le_val l.
Proof.
  rewrite le_val_app. assert (H : le_val (repeat 0 n) = 0).
  { induction n as [|n IH]; [reflexivity|]. cbn [repeat le_val]. lia. }
  rewrite H. lia.
Qed.

(** the bytes of a stored partial key within its word *)
Lemma masked_byte m a ks t :
  1 <= ks <= 8 -> bytes (key_bytes m a ks) -> 0 <= t < 8 ->
  byte_of (Z.land (load64 m a) (JudyMask ks)) t
  = if t <? ks then load8 m (a + t) else 0.
Proof.
  intros Hks Hb Ht. rewrite masked_be by assumption.
  unfold key_bytes in *. rewrite <- le_val_rev.
  apply (proj1 (bytes_rev _)) in Hb.
  rewrite <- (le_val_zeros _ (8 - Z.to_nat ks)).
  unfold byte_of. rewrite <- (Z2Nat.id t) at 1 by lia. rewrite le_val_byte.
  - destruct (Z.ltb_spec t ks).
    + rewrite app_nth1 by (rewrite load_bytes_length; lia).
      rewrite load_bytes_nth by lia. f_equal. lia.
    + rewrite app_nth2 by (rewrite load_bytes_length; lia).
      apply nth_repeat.
  - apply bytes_app. split; [exact Hb|].
    unfold bytes. apply forallb_forall. intros x Hx. apply repeat_spec in Hx.
    subst x. reflexivity.
  - rewrite length_app, load_bytes_length, repeat_length. lia.
Qed.

Lemma word_split d s : 0 <= s < 8 -> (8 * d + s) / 8 = d /\ (8 * d + s) mod 8 = s.
Proof.
  intros Hs. split.
  - symmetry. apply (Z.div_unique (8 * d + s) 8 d s); lia.
  - symmetry. apply (Z.mod_unique (8 * d + s) 8 d s); lia.
Qed.

Lemma word_at_byte K i : bytes K -> 0 <= word_at K i < 256.
Proof.
  intros HK. unfold word_at.
  destruct (nth_in_or_default (Z.to_nat (8 * (i / 8) + 7 - i mod 8)) K 0) as [Hin|He];
    [|rewrite He; lia].
  unfold bytes in HK. rewrite forallb_forall in HK. specialize (HK _ Hin).
  unfold is_byte in HK. lia.
Qed.

Lemma byte_of_0 t : byte_of 0 t = 0.
Proof. unfold byte_of. rewrite Z.shiftr_0_l. reflexivity. Qed.

(** one more group of bytes goes into the word under construction *)
Lemma fixed_word out K B d r n newv :
  0 <= d -> 0 <= r < 8 -> 1 <= n -> r + n <= 8 ->
  key_inv out K B d r -> bytes K -> 8 * d + 8 <= Z.of_nat (length out) ->
  (forall t, 0 <= t < 8 ->
     byte_of newv t
     = if (r <=? 7 - t) && (7 - t <? r + n) then word_at K (8 * d + t) else 0) ->
  let B0 := if r =? 0 then dest_set B d 0 else B in
  let B' := dest_set B0 d (Z.lor (src_get B0 d) newv) in
  if r + n =? 8 then key_inv out K B' (d + 1) 0 else key_inv out K B' d (r + n).
Proof.
  intros Hd Hr Hn Hrn (HlenB & Hlow & Hword & Hout) HK Hlen Hnew B0 B'.
  assert (HlenB0 : length B0 = length out).
  { unfold B0. destruct (r =? 0); [rewrite dest_set_length|]; exact HlenB. }
  assert (H0w : forall s, 0 <= s < 8 ->
            buf_get B0 (8 * d + s) = if 7 - s <? r then word_at K (8 * d + s) else 0).
  { intros s Hs. unfold B0. destruct (Z.eqb_spec r 0) as [Hr0|Hr0].
    - rewrite dest_set_get by lia.
      destruct (Z.leb_spec (8 * d) (8 * d + s)); [|lia].
      destruct (Z.ltb_spec (8 * d + s) (8 * d + 8)); [|lia]. cbn [andb].
      rewrite byte_of_0. destruct (Z.ltb_spec (7 - s) r); [lia|reflexivity].
    - apply Hword; assumption. }
  assert (H0o : forall i, ~ (8 * d <= i < 8 * d + 8) -> buf_get B0 i = buf_get B i).
  { intros i Hi. unfold B0. destruct (r =? 0); [|reflexivity].
    rewrite dest_set_get by lia.
    destruct (Z.leb_spec (8 * d) i); destruct (Z.ltb_spec i (8 * d + 8));
      cbn [andb]; try reflexivity. lia. }
  assert (H1w : forall s, 0 <= s < 8 ->
            buf_get B' (8 * d + s) = if 7 - s <? r + n then word_at K (8 * d + s) else 0).
  { intros s Hs. unfold B'. rewrite dest_set_get by lia.
    destruct (Z.leb_spec (8 * d) (8 * d + s)); [|lia].
    destruct (Z.ltb_spec (8 * d + s) (8 * d + 8)); [|lia]. cbn [andb].
    replace (8 * d + s - 8 * d) with s by lia.
    rewrite byte_lor. rewrite src_byte; [|intros s' Hs'|lia].
    2:{ rewrite H0w by lia. destruct (7 - s' <? r); [apply word_at_byte, HK|lia]. }
    rewrite H0w, Hnew by lia.
    destruct (Z.ltb_spec (7 - s) r); destruct (Z.leb_spec r (7 - s));
      destruct (Z.ltb_spec (7 - s) (r + n)); try lia; cbn [andb];
      rewrite ?Z.lor_0_r, ?Z.lor_0_l; reflexivity. }
  assert (H1o : forall i, ~ (8 * d <= i < 8 * d + 8) -> buf_get B' i = buf_get B i).
  { intros i Hi. unfold B'. rewrite dest_set_get by lia.
    destruct (Z.leb_spec (8 * d) i); destruct (Z.ltb_spec i (8 * d + 8));
      cbn [andb]; try lia; apply H0o; lia. }
  assert (HlenB' : length B' = length out).
  { unfold B'. rewrite dest_set_length. exact HlenB0. }
  assert (Hupper : forall i, 8 * d + 8 <= i -> buf_get B' i = buf_get out i).
  { intros i Hi. rewrite H1o by lia. apply Hout. destruct (r =? 0); lia. }
  assert (Hlower : forall i, 0 <= i < 8 * d -> buf_get B' i = word_at K i).
  { intros i Hi. rewrite H1o by lia. apply Hlow. exact Hi. }
  destruct (Z.eqb_spec (r + n) 8) as [H8|H8]; unfold key_inv.
  - split; [exact HlenB'|]. split; [|split; [intros Hc; lia|]].
    + intros i Hi. destruct (Z.lt_ge_cases i (8 * d)); [apply Hlower; lia|].
      replace i with (8 * d + (i - 8 * d)) by lia. rewrite H1w by lia.
      destruct (Z.ltb_spec (7 - (i - 8 * d)) (r + n)); [reflexivity|lia].
    + intros i Hi. cbn [Z.eqb] in Hi. apply Hupper. lia.
  - split; [exact HlenB'|]. split; [exact Hlower|]. split; [intros _; exact H1w|].
    intros i Hi. destruct (Z.eqb_spec (r + n) 0); [lia|]. apply Hupper. lia.
Qed.

Lemma shift_count len :
  0 <= len ->
  ((JUDY_key_size - Z.land (len + 1) JUDY_key_mask) * 8) mod 64 = 8 * (7 - len mod 8).
Proof.
  intros Ho. unfold JUDY_key_size, JUDY_key_mask. rewrite land7.
  pose proof (Z.div_mod len 8 ltac:(lia)) as Hd.
  pose proof (Z.mod_pos_bound len 8 ltac:(lia)) as Hm.
  set (r := len mod 8) in *.
  destruct (Z.eq_dec r 7) as [H7|H7].
  - replace ((len + 1) mod 8) with 0; [rewrite H7; reflexivity|].
    apply (Z.mod_unique (len + 1) 8 (len / 8 + 1) 0); lia.
  - replace ((len + 1) mod 8) with (r + 1).
    + rewrite Z.mod_small by lia. lia.
    + apply (Z.mod_unique (len + 1) 8 (len / 8) (r + 1)); lia.
Qed.

Lemma word_at_eq K d t : 0 <= t < 8 -> word_at K (8 * d + t) = nth (Z.to_nat (8 * d + 7 - t)) K 0.
Proof.
  intros Ht. unfold word_at. destruct (word_split d t Ht) as [-> ->]. reflexivity.
Qed.

Lemma key_inv_next out K B len n :
  0 <= len -> 1 <= n -> len mod 8 + n <= 8 ->
  (if len mod 8 + n =? 8 then key_inv out K B (len / 8 + 1) 0
   else key_inv out K B (len / 8) (len mod 8 + n)) ->
  key_inv out K B ((len + n) / 8) ((len + n) mod 8).
Proof.
  intros Hl Hn Hrn H.
  pose proof (Z.div_mod len 8 ltac:(lia)) as Hd.
  pose proof (Z.mod_pos_bound len 8 ltac:(lia)) as Hm.
  destruct (Z.eqb_spec (len mod 8 + n) 8) as [H8|H8].
  - replace ((len + n) / 8) with (len / 8 + 1);
      [|apply (Z.div_unique (len + n) 8 (len / 8 + 1) 0); lia].
    replace ((len + n) mod 8) with 0;
      [|apply (Z.mod_unique (len + n) 8 (len / 8 + 1) 0); lia].
    exact H.
  - replace ((len + n) / 8) with (len / 8);
      [|apply (Z.div_unique (len + n) 8 (len / 8) (len mod 8 + n)); lia].
    replace ((len + n) mod 8) with (len mod 8 + n);
      [|apply (Z.mod_unique (len + n) 8 (len / 8) (len mod 8 + n)); lia].
    exact H.
Qed.

(** one frame of the cursor adds its bytes to the key, in an integer tree *)
Lemma key_turn_fix cfg j kmax idx out K B len :
  depth j <> 0 ->
  let f := frame_at (stack j) idx in
  let bs := si_bytes (frame_si cfg (view j) f) in
  tag_of (fr_next f) <> JUDY_span -> fr_off f = len -> bytes bs -> bytes K ->
  0 <= len ->
  key_inv out K B (len / 8) (len mod 8) ->
  (forall q, (q < length bs)%nat -> nth (Z.to_nat len + q) K 0 = nth q bs 0) ->
  len + Z.of_nat (length bs) <= 8 * depth j -> 8 * depth j < 2 ^ 32 ->
  8 * depth j <= Z.of_nat (length out) ->
  exists B',
    judy_key_turn cfg j kmax idx B len
    = (if len + Z.of_nat (length bs) <? 8 * depth j
       then inr (B', len + Z.of_nat (length bs))
       else inl (B', len + Z.of_nat (length bs))) /\
    key_inv out K B' ((len + Z.of_nat (length bs)) / 8)
      ((len + Z.of_nat (length bs)) mod 8).
Proof.
  intros Hd f bs Hns Hoff Hbs HK Hlen Hinv Hnth Hfit H32 Hout.
  pose proof (Z.div_mod len 8 ltac:(lia)) as Hdm.
  pose proof (Z.mod_pos_bound len 8 ltac:(lia)) as Hm.
  assert (Hdn : 0 <= len / 8) by (apply Z.div_pos; lia).
  unfold judy_key_turn. change (frame j idx) with f.
  apply Z.eqb_neq in Hd. rewrite Hd. cbn [negb andb].
  unfold bs, frame_si in *. fold f in Hbs, Hnth, Hfit |- *.
  apply Z.eqb_neq in Hns. rewrite Hns in *.
  change (Z.land len JUDY_key_mask) with (Z.land len 7). rewrite (land7 len).
  change (len / JUDY_key_size) with (len / 8).
  destruct (tag_of (fr_next f) =? JUDY_radix) eqn:Hr.
  - cbn [si_bytes rad_info length] in *. change (Z.of_nat 1) with 1 in *.
    apply bytes_cons in Hbs. destruct Hbs as [Hslot _].
    rewrite u32_small by lia.
    pose proof (fixed_word out K B (len / 8) (len mod 8) 1
                  (shl64 (fr_slot f) ((JUDY_key_size - Z.land (len + 1) JUDY_key_mask) * 8))
                  Hdn Hm ltac:(lia) ltac:(lia) Hinv HK ltac:(lia)) as Hw.
    cbv zeta in Hw.
    exists (dest_set (if len mod 8 =? 0 then dest_set B (len / 8) 0 else B) (len / 8)
              (Z.lor (src_get (if len mod 8 =? 0 then dest_set B (len / 8) 0 else B)
                        (len / 8))
                 (shl64 (fr_slot f)
                    ((JUDY_key_size - Z.land (len + 1) JUDY_key_mask) * 8)))).
    split.
    + assert (Hc : (if (if Z.land (len + 1) JUDY_key_mask =? 0
                        then len / 8 + 1 else len / 8) <? depth j
                    then true else false) = (len + 1 <? 8 * depth j)).
      { unfold JUDY_key_mask. rewrite land7.
        destruct (Z.eqb_spec ((len + 1) mod 8) 0) as [H0|H0].
        - pose proof (Z.div_mod (len + 1) 8 ltac:(lia)) as Hd1.
          rewrite H0 in Hd1.
          assert ((len + 1) / 8 = len / 8 + 1).
          { symmetry. apply (Z.div_unique (len + 1) 8 (len / 8 + 1) 0); lia. }
          destruct (Z.ltb_spec (len / 8 + 1) (depth j));
            destruct (Z.ltb_spec (len + 1) (8 * depth j)); try lia; reflexivity.
        - assert ((len + 1) mod 8 = len mod 8 + 1).
          { destruct (Z.eq_dec (len mod 8) 7) as [H7|H7].
            - exfalso. apply H0. symmetry.
              apply (Z.mod_unique (len + 1) 8 (len / 8 + 1) 0); lia.
            - symmetry. apply (Z.mod_unique (len + 1) 8 (len / 8) (len mod 8 + 1)); lia. }
          pose proof (Z.mod_pos_bound (len + 1) 8 ltac:(lia)).
          destruct (Z.ltb_spec (len / 8) (depth j));
            destruct (Z.ltb_spec (len + 1) (8 * depth j)); try lia; reflexivity. }
      destruct (len + 1 <? 8 * depth j);
        match goal with |- (if ?b then _ else _) = _ => destruct b end;
        try discriminate Hc; reflexivity.
    + apply key_inv_next; [lia|lia|lia|]. apply Hw.
      intros t Ht. unfold shl64. rewrite shift_count by lia.
      rewrite byte_shl by lia.
      destruct (Z.eqb_spec t (7 - len mod 8)) as [He|Hne];
        destruct (Z.leb_spec (len mod 8) (7 - t));
        destruct (Z.ltb_spec (7 - t) (len mod 8 + 1)); try lia; cbn [andb];
        try reflexivity.
      rewrite word_at_eq by lia. specialize (Hnth O ltac:(lia)).
      cbn [nth] in Hnth. rewrite <- Hnth. f_equal. lia.
  - cbn [si_bytes lin_info] in *. change (mem (view j)) with (mem j) in *.
    pose proof (lin_ks_range (fr_off f)) as Hks.
    pose proof (lin_ks_mod (fr_off f)) as Hkm.
    unfold lin_key in *. fold (lin_ks (fr_off f)).
    set (ks := lin_ks (fr_off f)) in *. rewrite Hoff in Hkm.
    set (a := base_of (fr_next f) + fr_slot f * ks) in *.
    rewrite key_bytes_length in * by lia.
    rewrite u32_small by lia.
    pose proof (fixed_word out K B (len / 8) (len mod 8) ks
                  (Z.land (load64 (mem j) a) (JudyMask ks))
                  Hdn Hm ltac:(lia) ltac:(lia) Hinv HK ltac:(lia)) as Hw.
    cbv zeta in Hw.
    exists (dest_set (if len mod 8 =? 0 then dest_set B (len / 8) 0 else B) (len / 8)
              (Z.lor (src_get (if len mod 8 =? 0 then dest_set B (len / 8) 0 else B)
                        (len / 8))
                 (Z.land (load64 (mem j) a) (JudyMask ks)))).
    split.
    + assert (Hc : (len / 8 + 1 <? depth j) = (len + ks <? 8 * depth j)).
      { destruct (Z.ltb_spec (len / 8 + 1) (depth j));
          destruct (Z.ltb_spec (len + ks) (8 * depth j)); try lia; reflexivity. }
      rewrite Hc. destruct (len + ks <? 8 * depth j); reflexivity.
    + apply key_inv_next; [lia|lia|lia|]. apply Hw.
      intros t Ht. rewrite masked_byte by (try lia; exact Hbs).
      destruct (Z.ltb_spec t ks);
        destruct (Z.leb_spec (len mod 8) (7 - t));
        destruct (Z.ltb_spec (7 - t) (len mod 8 + ks)); try lia; cbn [andb];
        try reflexivity.
      rewrite word_at_eq by lia.
      assert (Hlk : length (key_bytes (mem j) a ks) = Z.to_nat ks)
        by (unfold key_bytes; rewrite length_rev, load_bytes_length; reflexivity).
      specialize (Hnth (Z.to_nat (7 - t - len mod 8)) ltac:(rewrite Hlk; lia)).
      replace (Z.to_nat (8 * (len / 8) + 7 - t))
        with (Z.to_nat len + Z.to_nat (7 - t - len mod 8))%nat by lia.
      rewrite Hnth. unfold key_bytes. rewrite rev_nth by (rewrite load_bytes_length; lia).
      rewrite load_bytes_length.
      replace (Z.to_nat ks - S (Z.to_nat (7 - t - len mod 8)))%nat with (Z.to_nat t) by lia.
      rewrite load_bytes_nth by lia. f_equal. lia.
Qed.

Lemma frame_bytes_pos cfg V f :
  tag_of (fr_next f) <> JUDY_span ->
  1 <= Z.of_nat (length (si_bytes (frame_si cfg V f))).
Proof.
  intros Hns. unfold frame_si. apply Z.eqb_neq in Hns. rewrite Hns.
  destruct (tag_of (fr_next f) =? JUDY_radix).
  - cbn [si_bytes rad_info length]. lia.
  - cbn [si_bytes lin_info]. pose proof (lin_ks_range (fr_off f)).
    rewrite key_bytes_length by lia. lia.
Qed.

Lemma key_loop_fix cfg j kmax out K (n : nat) : forall fuel idx B len Pre,
  depth j <> 0 -> bytes K -> 8 * depth j < 2 ^ 32 ->
  8 * depth j <= Z.of_nat (length out) -> kmax = 8 * depth j ->
  0 <= idx -> idx + Z.of_nat (S n) <= level j -> level j < 2 ^ 32 - 1 ->
  (n < fuel)%nat ->
  K = Pre ++ path_key cfg (view j) (stack j) idx (S n) ->
  Z.of_nat (length Pre) = len -> Z.of_nat (length K) = 8 * depth j ->
  key_inv out K B (len / 8) (len mod 8) ->
  path_fit cfg j idx len (S n) ->
  exists B',
    judy_key_loop cfg fuel j kmax idx B len = (B', 8 * depth j) /\
    key_inv out K B' (depth j) 0.
Proof.
  induction n as [|n IH];
    intros fuel idx B len Pre Hd HK H32 Hout Hkm Hidx Hlv Hl32 Hfuel HKe Hpre HlK Hinv Hfit;
    (destruct fuel as [|fuel]; [lia|]).
  - destruct (Hfit O ltac:(lia)) as (Hns & Hoff & Hbs).
    cbn [path_key length Z.of_nat] in Hoff. change (Z.of_nat 1) with 1 in *.
    rewrite Z.add_0_r in Hoff.
    pose proof (frame_bytes_pos cfg (view j) _ Hns) as Hpos.
    rewrite path_shift in HKe. cbn [path_key] in HKe. rewrite app_nil_r in HKe.
    unfold contrib in HKe. change (depth (view j)) with (depth j) in HKe.
    apply Z.eqb_neq in Hd. rewrite Hd in HKe. apply Z.eqb_neq in Hd.
    set (bs := si_bytes (frame_si cfg (view j) (frame_at (stack j) (idx + 1)))) in *.
    assert (Hlen : len + Z.of_nat (length bs) = 8 * depth j).
    { rewrite <- HlK, HKe, length_app. lia. }
    cbn [judy_key_loop]. subst kmax.
    destruct (Z.ltb_spec len (8 * depth j)); [|lia]. cbn [negb].
    rewrite u32_small by lia.
    destruct (Z.leb_spec (idx + 1) (level j)); [|lia]. cbn [negb].
    destruct (key_turn_fix cfg j (8 * depth j) (idx + 1) out K B len Hd Hns Hoff Hbs HK
                ltac:(lia) Hinv) as (B' & Ht & Hinv'); try (fold bs; lia).
    { intros q Hq. fold bs in Hq |- *. rewrite HKe.
      rewrite app_nth2 by lia. f_equal. lia. }
    fold bs in Ht, Hinv'. rewrite Ht.
    destruct (Z.ltb_spec (len + Z.of_nat (length bs)) (8 * depth j)); [lia|].
    exists B'. rewrite Hlen in *. split; [reflexivity|].
    replace (8 * depth j / 8) with (depth j) in Hinv'
      by (rewrite Z.mul_comm, Z.div_mul; lia).
    replace ((8 * depth j) mod 8) with 0 in Hinv'
      by (rewrite Z.mul_comm, Z.mod_mul; lia).
    exact Hinv'.
  - destruct (Hfit O ltac:(lia)) as (Hns & Hoff & Hbs).
    destruct (Hfit 1%nat ltac:(lia)) as (Hns2 & _ & _).
    cbn [path_key length Z.of_nat] in Hoff. change (Z.of_nat 1) with 1 in *.
    change (Z.of_nat 2) with 2 in *.
    rewrite Z.add_0_r in Hoff.
    pose proof (frame_bytes_pos cfg (view j) _ Hns) as Hpos.
    pose proof (frame_bytes_pos cfg (view j) _ Hns2) as Hpos2.
    rewrite path_shift in HKe.
    assert (Hrest : 1 <= Z.of_nat (length (path_key cfg (view j) (stack j) (idx + 1) (S n)))).
    { rewrite path_shift, length_app. unfold contrib.
      change (depth (view j)) with (depth j). apply Z.eqb_neq in Hd. rewrite Hd.
      replace (idx + 1 + 1) with (idx + 2) by lia. lia. }
    unfold contrib in HKe. change (depth (view j)) with (depth j) in HKe.
    apply Z.eqb_neq in Hd. rewrite Hd in HKe. apply Z.eqb_neq in Hd.
    set (bs := si_bytes (frame_si cfg (view j) (frame_at (stack j) (idx + 1)))) in *.
    set (rest := path_key cfg (view j) (stack j) (idx + 1) (S n)) in *.
    assert (Hlen : len + Z.of_nat (length bs) + Z.of_nat (length rest) = 8 * depth j).
    { rewrite <- HlK, HKe, !length_app. lia. }
    cbn [judy_key_loop]. subst kmax.
    destruct (Z.ltb_spec len (8 * depth j)); [|lia]. cbn [negb].
    rewrite u32_small by lia.
    destruct (Z.leb_spec (idx + 1) (level j)); [|lia]. cbn [negb].
    destruct (key_turn_fix cfg j (8 * depth j) (idx + 1) out K B len Hd Hns Hoff Hbs HK
                ltac:(lia) Hinv) as (B' & Ht & Hinv'); try (fold bs; lia).
    { intros q Hq. fold bs in Hq |- *. rewrite HKe.
      rewrite app_nth2 by lia. rewrite app_nth1 by lia. f_equal. lia. }
    fold bs in Ht, Hinv'. rewrite Ht.
    destruct (Z.ltb_spec (len + Z.of_nat (length bs)) (8 * depth j)); [|lia].
    apply (IH fuel (idx + 1) B' (len + Z.of_nat (length bs)) (Pre ++ bs));
      try assumption; try lia.
    + rewrite <- app_assoc. exact HKe.
    + rewrite length_app. lia.
    + intros m Hm. destruct (Hfit (S m) ltac:(lia)) as (Hn' & Ho' & Hb').
      replace (idx + 1 + Z.of_nat (S m)) with (idx + Z.of_nat (S (S m))) by lia.
      split; [exact Hn'|]. split; [|exact Hb'].
      rewrite Ho', path_shift, length_app. unfold contrib.
      change (depth (view j)) with (depth j). apply Z.eqb_neq in Hd. rewrite Hd.
      fold bs. lia.
Qed.

(** in an integer tree [judy_key] writes the digits of the key the
    cursor spells, as words *)
Lemma judy_key_fixed cfg fuel out kmax j :
  depth j <> 0 -> 8 * depth j < 2 ^ 32 -> 8 * depth j <= Z.of_nat (length out) ->
  1 <= level j < 2 ^ 32 - 1 -> (Z.to_nat (level j) <= fuel)%nat ->
  let K := path_key cfg (view j) (stack j) 0 (Z.to_nat (level j)) in
  bytes K -> Z.of_nat (length K) = 8 * depth j ->
  path_fit cfg j 0 0 (Z.to_nat (level j)) ->
  exists B',
    judy_key cfg fuel out kmax j = (B', 8 * depth j) /\
    length B' = length out /\
    (forall i, 0 <= i < 8 * depth j -> buf_get B' i = word_at K i) /\
    (forall i, 8 * depth j <= i -> buf_get B' i = buf_get out i).
Proof.
  intros Hd H32 Hout Hl Hfuel K HK HlK Hfit. unfold judy_key.
  apply Z.eqb_neq in Hd. rewrite Hd. apply Z.eqb_neq in Hd. cbn [negb].
  unfold JUDY_key_size. rewrite (Z.mul_comm (depth j) 8), u32_small by lia.
  destruct (Z.to_nat (level j)) as [|n] eqn:Hn; [lia|].
  destruct (key_loop_fix cfg j (8 * depth j) out K n fuel 0 out 0 [] Hd HK H32 Hout
              eq_refl ltac:(lia) ltac:(lia) ltac:(lia) ltac:(lia))
    as (B' & Hloop & Hinv); try assumption; try reflexivity.
  { unfold key_inv. change (0 / 8) with 0. change (0 mod 8) with 0.
    split; [reflexivity|]. split; [intros i Hi; lia|]. split; [intros Hc; lia|].
    intros i _. reflexivity. }
  exists B'. split; [exact Hloop|]. destruct Hinv as (H1 & H2 & _ & H4).
  split; [exact H1|]. split; [exact H2|]. intros i Hi. apply H4. cbn [Z.eqb]. lia.
Qed.

Lemma buf_get_nth buff (i : nat) : buf_get buff (Z.of_nat i) = nth i buff 0.
Proof.
  unfold buf_get. destruct (Z.ltb_spec (Z.of_nat i) 0); [lia|].
  rewrite Nat2Z.id. symmetry. apply nth_lookup.
Qed.

Lemma map_buf_get buff : List.map (buf_get buff) (seqZ 0 (Z.of_nat (length buff))) = buff.
Proof.
  apply (nth_ext _ _ 0 0).
  - rewrite length_map, length_seqZ. lia.
  - intros i Hi. rewrite length_map, length_seqZ in Hi.
    rewrite <- (Nat2Z.id i) at 1.
    rewrite (map_seqZ_nth (buf_get buff) 0 (Z.of_nat (length buff)) _ eq_refl) by lia.
    rewrite Z.add_0_l. apply buf_get_nth.
Qed.

Lemma key_from_root j buff :
  key_from (view j) buff (Z.of_nat (length buff)) 0 = key_of j buff.
Proof.
  unfold key_from, key_of, key_end. change (depth (view j)) with (depth j).
  rewrite Z.sub_0_r. destruct (depth j =? 0) eqn:Hd.
  - transitivity (List.map (buf_get buff) (seqZ 0 (Z.of_nat (length buff))));
      [|apply map_buf_get].
    apply map_ext_in. intros i Hi.
    apply In_seqZ in Hi. unfold key_at, str_byte. change (depth (view j)) with (depth j).
    rewrite Hd. destruct (Z.ltb_spec i (Z.of_nat (length buff))); [reflexivity|lia].
  - apply map_ext. intros i. unfold key_at. change (depth (view j)) with (depth j).
    rewrite Hd. reflexivity.
Qed.

(** [judy_slot] on a key of a well-formed trie returns its cell and
    leaves the cursor on the key's path *)
Lemma judy_slot_spec N cfg fuel j buff kmax K c :
  wf_trie N cfg j = true -> In (K, c) (all_keys N cfg j) ->
  K = key_from (view j) buff kmax 0 -> bytes buff ->
  (depth j = 0 -> 0 <= kmax < 2 ^ 31) ->
  (N + Z.to_nat (JUDY_span_bytes cfg) <= fuel)%nat ->
  exists j1 n,
    judy_slot cfg fuel buff kmax j = (c, j1) /\ c <> 0 /\
    store_of j1 = store_of j /\ level j1 = Z.of_nat (S n) /\
    cursor_inv N cfg j1 /\
    path_key cfg (view j1) (stack j1) 0 (S n) = K /\
    (forall m, (m <= n)%nat ->
       fr_off (frame_at (stack j1) (Z.of_nat (S m)))
       = Z.of_nat (length (path_key cfg (view j1) (stack j1) 0 m))) /\
    level j1 + 16 < 2 ^ 32.
Proof.
  intros Hwf Hin HK Hbuf Hk Hfuel. unfold wf_trie in Hwf. unfold all_keys in Hin.
  apply andb_true_iff in Hwf. destruct Hwf as [_ Hwf].
  apply orb_true_iff in Hwf. destruct Hwf as [Hz|Hwf].
  { apply Z.eqb_eq in Hz. rewrite Hz, keys_root_empty in Hin. destruct Hin. }
  unfold judy_slot. fold (root_slot j).
  destruct (slot_loop_spec N cfg buff kmax fuel (set_level 0 j) (root_slot j) 0 0 0 K c)
    as (j1 & n & Hs & Hc & Hst & Hlv & Hfr & Hok & Hpk & Hpo & Htop);
    try assumption.
  cbn [level set_level] in Hlv, Hfr, Hok, Hpk, Hpo, Htop.
  change (view (set_level 0 j)) with (view j) in *.
  assert (Hv : view j1 = view j) by (apply view_store; exact Hst).
  exists j1, n. split; [exact Hs|]. split; [exact Hc|].
  split; [exact Hst|]. split; [rewrite Hlv; lia|].
  assert (Hci : cursor_inv N cfg j1).
  { split; [lia|]. intros i Hi. rewrite Hv. apply Hok. lia. }
  split; [exact Hci|]. rewrite Hv. split; [exact Hpk|].
  split.
  - intros m Hm. rewrite <- (Z.add_0_l (Z.of_nat (S m))). rewrite Hpo by lia. lia.
  - destruct Hci as [_ Hci]. specialize (Hci (level j1) ltac:(lia)).
    destruct Hci as [Hw _]. destruct N as [|N']; [discriminate|].
    apply wf_S in Hw. destruct Hw as (_ & _ & _ & _ & Hlt & _ & _ & HS & _). lia.
Qed.

Lemma buf_ext A B :
  length A = length B -> (forall i, 0 <= i -> buf_get A i = buf_get B i) -> A = B.
Proof.
  intros Hl H. apply (nth_ext _ _ 0 0); [exact Hl|].
  intros i Hi. rewrite <- !buf_get_nth. apply H. lia.
Qed.

Lemma word_at_key buff D i :
  0 <= i < 8 * D ->
  word_at (List.map (fix_byte buff) (seqZ 0 (8 * D))) i = buf_get buff i.
Proof.
  intros Hi. unfold word_at.
  pose proof (Z.div_mod i 8 ltac:(lia)) as Hd.
  pose proof (Z.mod_pos_bound i 8 ltac:(lia)) as Hm.
  assert (Hq : 0 <= i / 8 < D).
  { split; [apply Z.div_pos; lia|]. apply Z.div_lt_upper_bound; lia. }
  set (p := 8 * (i / 8) + 7 - i mod 8).
  rewrite (map_seqZ_nth (fix_byte buff) 0 (8 * D) _ eq_refl p) by (unfold p; lia).
  rewrite Z.add_0_l. unfold fix_byte. f_equal.
  destruct (word_split (i / 8) (7 - i mod 8) ltac:(lia)) as [Hp1 Hp2].
  replace (8 * (i / 8) + (7 - i mod 8)) with p in Hp1, Hp2 by (unfold p; lia).
  rewrite Hp1, Hp2. lia.
Qed.

(** the frames of a good cursor of an integer tree *)
Lemma cursor_path_fit N cfg j (n : nat) :
  depth j <> 0 -> cursor_inv N cfg j -> level j = Z.of_nat n ->
  (forall m, (m < n)%nat ->
     fr_off (frame_at (stack j) (Z.of_nat (S m)))
     = Z.of_nat (length (path_key cfg (view j) (stack j) 0 m))) ->
  path_fit cfg j 0 0 n /\
  bytes (path_key cfg (view j) (stack j) 0 n).
Proof.
  intros Hd [_ Hci] Hlv Hoff.
  assert (Hfr : forall m, (m < n)%nat ->
            let f := frame_at (stack j) (Z.of_nat (S m)) in
            tag_of (fr_next f) <> JUDY_span /\
            bytes (si_bytes (frame_si cfg (view j) f))).
  { intros m Hm f. destruct (Hci (Z.of_nat (S m)) ltac:(lia)) as [Hw Hin].
    fold f in Hw, Hin. destruct N as [|N']; [discriminate|].
    apply wf_S in Hw.
    destruct Hw as (_ & _ & _ & _ & _ & _ & _ & _ & _ & _ & Hsp & Hby & _).
    split; [|apply Hby, Hin]. intros Hs. apply Hd. apply (Hsp Hs). }
  split.
  - intros m Hm. destruct (Hfr m Hm) as [H1 H2]. cbv zeta.
    rewrite !Z.add_0_l. split; [exact H1|]. split; [|exact H2]. apply Hoff, Hm.
  - clear Hoff Hlv. induction n as [|n IH]; [reflexivity|].
    cbn [path_key]. apply bytes_app. split.
    + apply IH. intros m Hm. apply Hfr. lia.
    + destruct (Hfr n ltac:(lia)) as [_ H2]. unfold contrib.
      change (depth (view j)) with (depth j).
      apply Z.eqb_neq in Hd. rewrite Hd. rewrite Z.add_0_l. exact H2.
Qed.

Lemma bytes_in bs b : bytes bs -> In b bs -> 0 <= b < 256.
Proof.
  unfold bytes. rewrite forallb_forall. intros H Hin. specialize (H b Hin).
  unfold is_byte in H. lia.
Qed.



(** ** Memory: what a store leaves where *)

Lemma load8_store8 m a v b :
  load8 (store8 m a v) b = if b =? a then u8 v else load8 m b.
Proof.
  unfold load8, store8. destruct (Z.eqb_spec b a) as [->|Hne].
  - rewrite lookup_insert_eq. reflexivity.
  - rewrite lookup_insert_ne by congruence. reflexivity.
Qed.

Lemma load8_store_le n : forall m a v b,
  load8 (store_le n m a v) b
  = if (a <=? b) && (b <? a + Z.of_nat n) then (v / 256 ^ (b - a)) mod 256
    else load8 m b.
Proof.
  induction n as [|n IH]; intros m a v b.
  - cbn [store_le]. destruct (Z.leb_spec a b); destruct (Z.ltb_spec b (a + Z.of_nat 0));
      try lia; reflexivity.
  - cbn [store_le]. rewrite IH, load8_store8.
    destruct (Z.leb_spec (a + 1) b); destruct (Z.ltb_spec b (a + 1 + Z.of_nat n));
      destruct (Z.leb_spec a b); destruct (Z.ltb_spec b (a + Z.of_nat (S n)));
      try lia; cbn [andb].
    + rewrite Z.div_div by (try apply Z.pow_pos_nonneg; lia).
      replace (256 * 256 ^ (b - (a + 1))) with (256 ^ (b - a)); [reflexivity|].
      replace (b - a) with (Z.succ (b - (a + 1))) by lia.
      rewrite Z.pow_succ_r by lia. reflexivity.
    + destruct (Z.eqb_spec b a); [lia|]. reflexivity.
    + assert (b = a) by lia. subst b. rewrite Z.eqb_refl.
      rewrite Z.sub_diag. cbn [Z.pow]. rewrite Z.div_1_r. reflexivity.
    + destruct (Z.eqb_spec b a); [lia|]. reflexivity.
Qed.

Lemma load8_store64 m a v b :
  load8 (store64 m a v) b
  = if (a <=? b) && (b <? a + 8) then (v / 256 ^ (b - a)) mod 256 else load8 m b.
Proof. unfold store64. rewrite load8_store_le. reflexivity. Qed.

Lemma load8_memset0 n : forall m a b,
  load8 (memset0 n m a) b
  = if (a <=? b) && (b <? a + Z.of_nat n) then 0 else load8 m b.
Proof.
  induction n as [|n IH]; intros m a b.
  - cbn [memset0]. destruct (Z.leb_spec a b); destruct (Z.ltb_spec b (a + Z.of_nat 0));
      try lia; reflexivity.
  - cbn [memset0]. rewrite IH, load8_store8.
    destruct (Z.leb_spec (a + 1) b); destruct (Z.ltb_spec b (a + 1 + Z.of_nat n));
      destruct (Z.leb_spec a b); destruct (Z.ltb_spec b (a + Z.of_nat (S n)));
      try lia; cbn [andb]; try reflexivity;
      destruct (Z.eqb_spec b a); try lia; reflexivity.
Qed.

Lemma load8_store_bytes bs : forall m a b,
  load8 (store_bytes bs m a) b
  = if (a <=? b) && (b <? a + Z.of_nat (length bs))
    then u8 (nth (Z.to_nat (b - a)) bs 0) else load8 m b.
Proof.
  induction bs as [|x bs IH]; intros m a b.
  - cbn [store_bytes length]. destruct (Z.leb_spec a b);
      destruct (Z.ltb_spec b (a + Z.of_nat 0)); try lia; reflexivity.
  - cbn [store_bytes length]. rewrite IH, load8_store8.
    destruct (Z.leb_spec (a + 1) b); destruct (Z.ltb_spec b (a + 1 + Z.of_nat (length bs)));
      destruct (Z.leb_spec a b); destruct (Z.ltb_spec b (a + Z.of_nat (S (length bs))));
      try lia; cbn [andb].
    + replace (Z.to_nat (b - a)) with (S (Z.to_nat (b - (a + 1)))) by lia. reflexivity.
    + destruct (Z.eqb_spec b a); [lia|]. reflexivity.
    + assert (b = a) by lia. subst b. rewrite Z.eqb_refl, Z.sub_diag. reflexivity.
    + destruct (Z.eqb_spec b a); [lia|]. reflexivity.
Qed.

Lemma load_bytes_nth' n m : forall a i,
  (i < n)%nat -> nth i (load_bytes n m a) 0 = load8 m (a + Z.of_nat i).
Proof. apply load_bytes_nth. Qed.

Lemma load8_memcpy m dst src n b :
  0 <= n ->
  load8 (memcpy m dst src n) b
  = if (dst <=? b) && (b <? dst + n) then u8 (load8 m (src + (b - dst)))
    else load8 m b.
Proof.
  intros Hn. unfold memcpy. rewrite load8_store_bytes, load_bytes_length, Z2Nat.id by lia.
  destruct (Z.leb_spec dst b); destruct (Z.ltb_spec b (dst + n)); cbn [andb];
    try reflexivity.
  rewrite load_bytes_nth by lia. f_equal. f_equal. lia.
Qed.

Lemma agree_load_le P n : forall m m' a,
  agree P m m' -> (forall i, a <= i < a + Z.of_nat n -> P i) ->
  load_le n m' a = load_le n m a.
Proof.
  induction n as [|n IH]; intros m m' a Hag Hin; [reflexivity|].
  cbn [load_le]. rewrite (Hag a) by (apply Hin; lia).
  rewrite (IH m m' (a + 1) Hag) by (intros i Hi; apply Hin; lia). reflexivity.
Qed.

Lemma agree_load64 P m m' a :
  agree P m m' -> (forall i, a <= i < a + 8 -> P i) -> load64 m' a = load64 m a.
Proof. intros Hag Hin. apply (agree_load_le P 8); assumption. Qed.

Lemma agree_load_bytes P n : forall m m' a,
  agree P m m' -> (forall i, a <= i < a + Z.of_nat n -> P i) ->
  load_bytes n m' a = load_bytes n m a.
Proof.
  induction n as [|n IH]; intros m m' a Hag Hin; [reflexivity|].
  cbn [load_bytes]. rewrite (Hag a) by (apply Hin; lia).
  rewrite (IH m m' (a + 1) Hag) by (intros i Hi; apply Hin; lia). reflexivity.
Qed.

Lemma agree_refl P m : agree P m m.
Proof. intros a _. reflexivity. Qed.

Lemma agree_trans P m1 m2 m3 : agree P m1 m2 -> agree P m2 m3 -> agree P m1 m3.
Proof. intros H1 H2 a Ha. rewrite (H2 a Ha). apply H1, Ha. Qed.

Lemma agree_sub (P Q : Z -> Prop) m m' :
  (forall a, Q a -> P a) -> agree P m m' -> agree Q m m'.
Proof. intros H Hag a Ha. apply Hag, H, Ha. Qed.

(** the value a word store leaves *)
Lemma load_le_store_le n : forall m a v,
  load_le n (store_le n m a v) a = v mod 256 ^ Z.of_nat n.
Proof.
  induction n as [|n IH]; intros m a v.
  - cbn [load_le store_le]. rewrite Z.mod_1_r. reflexivity.
  - cbn [load_le store_le].
    assert (H8 : load8 (store_le n (store8 m a v) (a + 1) (v / 256)) a = v mod 256).
    { rewrite load8_store_le. destruct (Z.leb_spec (a + 1) a); [lia|]. cbn [andb].
      rewrite load8_store8, Z.eqb_refl. reflexivity. }
    rewrite H8, IH. rewrite Nat2Z.inj_succ, Z.pow_succ_r by lia.
    rewrite Z.rem_mul_r by (try apply Z.pow_pos_nonneg; lia). reflexivity.
Qed.

Lemma load64_store64 m a v : 0 <= v < 2 ^ 64 -> load64 (store64 m a v) a = v.
Proof.
  intros Hv. unfold load64, store64. rewrite load_le_store_le.
  change (256 ^ Z.of_nat 8) with (2 ^ 64). apply Z.mod_small. exact Hv.
Qed.

Lemma load64_store64_ne m a v b :
  b + 8 <= a \/ a + 8 <= b -> load64 (store64 m a v) b = load64 m b.
Proof.
  intros H. apply (agree_load64 (fun i => b <= i < b + 8)).
  - intros i Hi. rewrite load8_store64.
    destruct (Z.leb_spec a i); destruct (Z.ltb_spec i (a + 8)); cbn [andb];
      try reflexivity. lia.
  - intros i Hi. exact Hi.
Qed.

(** ** A new array *)

Lemma load_le_zero n : forall m a,
  (forall i, a <= i < a + Z.of_nat n -> load8 m i = 0) -> load_le n m a = 0.
Proof.
  induction n as [|n IH]; intros m a H; [reflexivity|].
  cbn [load_le]. rewrite (H a) by lia. rewrite IH by (intros i Hi; apply H; lia).
  reflexivity.
Qed.

Lemma load64_zero m a :
  (forall i, a <= i < a + 8 -> load8 m i = 0) -> load64 m a = 0.
Proof. intros H. apply (load_le_zero 8). exact H. Qed.

(** the lookups and the traversals of a trie with an empty root slot *)
Lemma empty_root_lookups cfg fuel buff len out kout j :
  root_slot j = 0 -> level j = 0 ->
  fst (judy_slot cfg fuel buff len j) = 0 /\
  fst (judy_strt cfg fuel buff len j) = 0 /\
  fst (judy_nxt cfg fuel j) = 0 /\
  fst (judy_prv cfg fuel j) = 0 /\
  fst (judy_end cfg fuel j) = 0 /\
  judy_key cfg (S fuel) out kout j = (buf_set out 0 0, 0).
Proof.
  intros Hr Hl. unfold root_slot in Hr.
  assert (Hfirst : forall f j', judy_first cfg f 0 0 0 j' = (0, j'))
    by (intros f j'; destruct f; reflexivity).
  assert (Hlast : forall f j', judy_last cfg f 0 0 0 j' = (0, j'))
    by (intros f j'; destruct f; reflexivity).
  assert (Hslot : forall j', load64 (mem j') (root j') = 0 ->
            judy_slot cfg fuel buff len j' = (0, set_level 0 j')).
  { intros j' Hr'. unfold judy_slot. rewrite Hr'. destruct fuel; reflexivity. }
  split; [rewrite Hslot by exact Hr; reflexivity|]. split.
  - unfold judy_strt. cbn [mem root set_level]. rewrite Hr.
    destruct (len =? 0); [rewrite Hfirst; reflexivity|].
    rewrite Hslot by exact Hr. cbn [Z.eqb negb]. unfold judy_nxt. cbn [level mem root set_level].
    rewrite Hr. cbn [Z.eqb]. rewrite Hfirst. reflexivity.
  - split; [unfold judy_nxt; rewrite Hl, Hr; cbn [Z.eqb]; rewrite Hfirst; reflexivity|].
    split; [unfold judy_prv; rewrite Hl, Hr; cbn [Z.eqb]; rewrite Hlast; reflexivity|].
    split; [unfold judy_end; cbn [mem root set_level]; rewrite Hr, Hlast; reflexivity|].
    unfold judy_key. cbn [judy_key_loop]. rewrite Hl.
    change (u32 (0 + 1)) with 1. change (1 <=? 0) with false. cbn [negb].
    destruct (negb (0 <? _)); reflexivity.
Qed.

(** X1: [judy_open] fails exactly when the external allocator does.
    When the handle fits the segment behind its header, the array it
    hands out lies inside the segment and is empty, whatever the memory
    held before: [max] is the key bound, the root slot is zero, the
    cursor is unpositioned, the trie is well formed and holds no key,
    every lookup and every traversal returns NULL, and [judy_key]
    returns the empty key. *)
Theorem open_gives_empty_array N cfg hp m kmax dpt fuel buff len out kout :
  0 <= kmax -> 0 <= dpt ->
  sizeof_JudySeg + handle_size kmax dpt + 8 <= JUDY_seg ->
  match judy_open hp m kmax dpt with
  | None => hp = []
  | Some j =>
      hp <> [] /\
      head_base j + sizeof_JudySeg <= root j /\
      root j + handle_size kmax dpt <= head_base j + JUDY_seg /\
      max j = (if dpt =? 0 then kmax + 1 else JUDY_key_size * dpt) /\
      root_slot j = 0 /\ level j = 0 /\ depth j = dpt /\
      wf_trie N cfg j = true /\ all_keys N cfg j = [] /\
      fst (judy_slot cfg fuel buff len j) = 0 /\
      fst (judy_strt cfg fuel buff len j) = 0 /\
      fst (judy_nxt cfg fuel j) = 0 /\
      fst (judy_prv cfg fuel j) = 0 /\
      fst (judy_end cfg fuel j) = 0 /\
      judy_key cfg (S fuel) out kout j = (buf_set out 0 0, 0)
  end.
Proof.
  intros Hk Hd Hfit. unfold judy_open. destruct hp as [|a h]; [reflexivity|].
  set (kmax' := if negb (dpt =? 0) then u32 (JUDY_key_size * dpt) else u32 (kmax + 1)).
  unfold handle_size, sizeof_JudySeg, sizeof_Judy, sizeof_JudyStack, JUDY_seg in Hfit.
  assert (Hk' : kmax' = (if dpt =? 0 then kmax + 1 else JUDY_key_size * dpt)
                /\ 0 <= kmax' <= 4087).
  { unfold kmax', JUDY_key_size in *. destruct (dpt =? 0); cbn [negb];
      rewrite u32_small by lia; lia. }
  destruct Hk' as [Hkeq Hk'].
  set (amt0 := u32 (sizeof_Judy + kmax' * sizeof_JudyStack)).
  assert (Ha0 : amt0 = 8 * (14 + 2 * kmax')).
  { unfold amt0, sizeof_Judy, sizeof_JudyStack. rewrite u32_small by lia. lia. }
  assert (Hl7 : Z.land amt0 (JUDY_cache_line - 1) = 0).
  { change (JUDY_cache_line - 1) with 7. rewrite land7, Ha0, Z.mul_comm.
    apply Z.mod_mul. lia. }
  rewrite Hl7. cbn [Z.eqb negb].
  assert (Ha7 : 0 <= Z.land a (JUDY_cache_line - 1) < 8).
  { change (JUDY_cache_line - 1) with 7. rewrite land7. apply Z.mod_pos_bound. lia. }
  assert (Hnxt : u32 (u32 (JUDY_seg - Z.land a (JUDY_cache_line - 1)) - amt0)
                 = JUDY_seg - Z.land a (JUDY_cache_line - 1) - amt0).
  { unfold JUDY_seg. rewrite (u32_small (65536 - _)) by lia. apply u32_small. lia. }
  rewrite Hnxt.
  set (judy := a + (JUDY_seg - Z.land a (JUDY_cache_line - 1) - amt0)).
  set (j := mkJudy judy ∅ [mkSeg a (JUDY_seg - Z.land a (JUDY_cache_line - 1) - amt0)]
              0 kmax' dpt ∅ (memset0 (Z.to_nat amt0) m judy) h).
  assert (Hroot : root_slot j = 0).
  { unfold root_slot. cbn [mem root j]. apply load64_zero. intros i Hi.
    rewrite load8_memset0.
    destruct (Z.leb_spec judy i); [|lia].
    destruct (Z.ltb_spec i (judy + Z.of_nat (Z.to_nat amt0))); [reflexivity|lia]. }
  split; [discriminate|].
  split; [cbn [head_base root seg seg_base j]; unfold judy, sizeof_JudySeg, JUDY_seg; lia|].
  split; [cbn [head_base root seg seg_base j];
          unfold judy, handle_size, sizeof_Judy, sizeof_JudyStack, JUDY_seg;
          rewrite <- Hkeq; lia|].
  split; [exact Hkeq|].
  split; [exact Hroot|]. split; [reflexivity|].
  split; [reflexivity|].
  split.
  { unfold wf_trie. rewrite Hroot. cbn [depth j]. cbn [Z.eqb orb].
    rewrite andb_true_r. apply Z.leb_le. lia. }
  split; [unfold all_keys; rewrite Hroot; apply keys_root_empty|].
  apply empty_root_lookups; [exact Hroot|reflexivity].
Qed.

Lemma open_gives_empty_array_witness :
  (0 <= 16 /\ 0 <= 0 /\ sizeof_JudySeg + handle_size 16 0 + 8 <= JUDY_seg) /\
  match judy_open [65536] ∅ 16 0 with
  | None => [65536] = []
  | Some j =>
      head_base j + sizeof_JudySeg <= root j /\
      root j + handle_size 16 0 <= head_base j + JUDY_seg /\
      max j = 17 /\ root_slot j = 0 /\ all_keys 4 cfg_lp64 j = [] /\
      fst (judy_slot cfg_lp64 64 key_abc 3 j) = 0
  end.
Proof.
  assert (Hk : 0 <= 16) by lia.
  assert (Hd : 0 <= 0) by lia.
  assert (Hfit : sizeof_JudySeg + handle_size 16 0 + 8 <= JUDY_seg)
    by (vm_compute; discriminate).
  split; [exact (conj Hk (conj Hd Hfit))|].
  pose proof (open_gives_empty_array 4 cfg_lp64 [65536] ∅ 16 0 64 key_abc 3 [0] 1
                Hk Hd Hfit) as H.
  destruct (judy_open [65536] ∅ 16 0) as [j|]; [|exact H].
  destruct H as (_ & Hb & He & Hm & Hr & _ & _ & _ & Ha & Hs & _).
  exact (conj Hb (conj He (conj Hm (conj Hr (conj Ha Hs))))).
Defined.

(** ** The arena: what an allocation does to memory *)

Lemma find_larger_zero cfg n : forall type idx amt j,
  match find_larger cfg n type idx amt j with
  | Some r =>
      forall a, fst r <= a < fst r + Z.of_nat (Z.to_nat amt) -> load8 (mem (snd r)) a = 0
  | None => True
  end.
Proof.
  induction n as [|n IH]; intros type idx amt j; [exact I|].
  cbn [find_larger]. destruct (idx <? JUDY_max); [|exact I].
  destruct (negb (reuse_get j (idx + 1) =? 0)); [|apply IH].
  cbn [fst snd mem set_mem]. intros a Ha. rewrite load8_memset0.
  destruct (Z.leb_spec (reuse_get j (idx + 1)) a); [|lia].
  destruct (Z.ltb_spec a (reuse_get j (idx + 1) + Z.of_nat (Z.to_nat amt))); [|lia].
  reflexivity.
Qed.

Lemma round8_ge amt : 0 <= amt -> amt + 8 < 2 ^ 32 -> amt <= round8 amt.
Proof.
  intros H0 H. unfold round8. destruct (Z.land amt 7 =? 0); cbn [negb]; [lia|].
  rewrite lor7 by lia. pose proof (Z.mod_pos_bound amt 8 ltac:(lia)).
  rewrite u32_small by lia. lia.
Qed.

Lemma JudySize_range cfg t :
  0 <= JUDY_span_bytes cfg < 2 ^ 16 -> 8 <= JudySize cfg t < 2 ^ 17.
Proof.
  intros HS. unfold JudySize, JUDY_slot_size, JUDY_key_size.
  repeat match goal with |- context [if ?b then _ else _] => destruct b end; lia.
Qed.

(** X2: the block [judy_alloc] returns is filled with zeros over the
    whole size of its node type, whichever way it was obtained (from the
    reuse list of its class, split off a larger free block, or cut from
    the segment); when it returns NULL the state is as before. *)
Theorem alloc_returns_zeroed_block cfg type (j : Judy) :
  0 <= JUDY_span_bytes cfg < 2 ^ 16 ->
  judy_alloc cfg type j = (0, j) \/
  forall a,
    fst (judy_alloc cfg type j) <= a
      < fst (judy_alloc cfg type j) + JudySize cfg (size_class cfg type) ->
    load8 (mem (snd (judy_alloc cfg type j))) a = 0.
Proof.
  intros HS. unfold judy_alloc. destruct (seg j) as [|sg r] eqn:Hseg; [left; reflexivity|].
  set (ty := size_class cfg type).
  pose proof (JudySize_range cfg ty HS) as Hsz.
  pose proof (round8_ge (JudySize cfg ty) ltac:(lia) ltac:(lia)) as Hr8.
  set (amt := round8 (JudySize cfg ty)) in *.
  destruct (negb (reuse_get j ty =? 0)).
  { right. cbn [fst snd mem set_mem]. intros a Ha. rewrite load8_memset0.
    destruct (Z.leb_spec (reuse_get j ty) a); [|lia].
    destruct (Z.ltb_spec a (reuse_get j ty + Z.of_nat (Z.to_nat amt))); [reflexivity|lia]. }
  pose proof (find_larger_zero cfg 8 ty ty amt j) as Hfl.
  destruct (if ty >=? JUDY_1 then find_larger cfg 8 ty ty amt j else None) as [rr|] eqn:Hf.
  { right. destruct (ty >=? JUDY_1); [|discriminate]. rewrite Hf in Hfl.
    intros a Ha. apply Hfl. lia. }
  clear Hfl.
  destruct (if head_next j <? (if amt <? JUDY_cache_line then JUDY_cache_line else amt)
                              + sizeof_JudySeg
            then new_segment j else Some j) as [j1|]; [|left; reflexivity].
  right. destruct (fill_line 32 ty amt j1) as [amt2 j2].
  cbn [fst snd mem set_mem]. intros a Ha. rewrite load8_memset0.
  match goal with |- (if ?x <=? a then _ else _) && _ = _ => idtac | _ => idtac end.
  destruct (Z.leb_spec (head_base j1 + head_next j1 - amt) a); [|lia].
  destruct (Z.ltb_spec a (head_base j1 + head_next j1 - amt
                          + Z.of_nat (Z.to_nat (JudySize cfg ty)))); [reflexivity|lia].
Qed.

(** X3: a block given back with [judy_free] is the next block
    [judy_alloc] hands out for the same node type, filled with zeros
    again, and the reuse list of its class is then as it was before the
    block was freed. *)
Theorem free_then_alloc_returns_block cfg type block (j : Judy) :
  seg j <> [] -> block <> 0 ->
  0 <= reuse_get j (size_class cfg type) < 2 ^ 64 ->
  0 <= JUDY_span_bytes cfg < 2 ^ 16 ->
  let r := judy_alloc cfg type (judy_free cfg block type j) in
  fst r = block /\
  reuse_get (snd r) (size_class cfg type) = reuse_get j (size_class cfg type) /\
  (forall a, block <= a < block + JudySize cfg (size_class cfg type) ->
     load8 (mem (snd r)) a = 0) /\
  (forall a, ~ (block <= a < block + round8 (JudySize cfg (size_class cfg type))) ->
     load8 (mem (snd r)) a = load8 (mem j) a).
Proof.
  intros Hseg Hb Hold HS r. subst r.
  set (ty := size_class cfg type).
  pose proof (JudySize_range cfg ty HS) as Hsz.
  pose proof (round8_ge (JudySize cfg ty) ltac:(lia) ltac:(lia)) as Hr8.
  set (j1 := judy_free cfg block type j).
  assert (Hg : reuse_get j1 ty = block).
  { unfold j1, judy_free, reuse_get, reuse_set. cbn [reuse set_reuse set_mem].
    fold ty. rewrite lookup_insert_eq. reflexivity. }
  assert (Hm : mem j1 = store64 (mem j) block (reuse_get j ty)) by reflexivity.
  assert (Hs : seg j1 = seg j) by reflexivity.
  unfold judy_alloc. rewrite Hs. destruct (seg j) as [|sg rest]; [contradiction|].
  fold ty. rewrite Hg. pose proof Hb as Hb'. apply Z.eqb_neq in Hb'. rewrite Hb'.
  cbn [negb fst snd]. rewrite Hm.
  replace (reuse_get (set_mem _ _) ty)
    with (load64 (store64 (mem j) block (reuse_get j ty)) block).
  2:{ unfold reuse_get, reuse_set. cbn [reuse set_reuse set_mem].
      rewrite lookup_insert_eq. reflexivity. }
  cbn [mem set_mem reuse_set set_reuse]. rewrite ?Hm.
  split; [reflexivity|]. split; [apply load64_store64; exact Hold|].
  split; intros a Ha; rewrite load8_memset0.
  - destruct (Z.leb_spec block a); [|lia].
    destruct (Z.ltb_spec a (block + Z.of_nat (Z.to_nat (round8 (JudySize cfg ty)))));
      [reflexivity|lia].
  - destruct (Z.leb_spec block a);
      destruct (Z.ltb_spec a (block + Z.of_nat (Z.to_nat (round8 (JudySize cfg ty)))));
      cbn [andb]; try lia; rewrite load8_store64;
      destruct (Z.leb_spec block a); destruct (Z.ltb_spec a (block + 8));
      cbn [andb]; try lia; reflexivity.
Qed.

Lemma alloc_returns_zeroed_block_witness :
  0 <= JUDY_span_bytes cfg_lp64 < 2 ^ 16 /\
  (judy_alloc cfg_lp64 JUDY_1 (opened [65536] 16 0) = (0, opened [65536] 16 0) \/
   forall a,
     fst (judy_alloc cfg_lp64 JUDY_1 (opened [65536] 16 0)) <= a
       < fst (judy_alloc cfg_lp64 JUDY_1 (opened [65536] 16 0))
         + JudySize cfg_lp64 (size_class cfg_lp64 JUDY_1) ->
     load8 (mem (snd (judy_alloc cfg_lp64 JUDY_1 (opened [65536] 16 0)))) a = 0).
Proof.
  assert (HS : 0 <= JUDY_span_bytes cfg_lp64 < 2 ^ 16) by (cbn; lia).
  split; [exact HS|].
  exact (alloc_returns_zeroed_block cfg_lp64 JUDY_1 (opened [65536] 16 0) HS).
Defined.

Lemma free_then_alloc_returns_block_witness :
  (seg (opened [65536] 16 0) <> [] /\ 4096 <> 0 /\
   0 <= reuse_get (opened [65536] 16 0) (size_class cfg_lp64 JUDY_1) < 2 ^ 64) /\
  fst (judy_alloc cfg_lp64 JUDY_1 (judy_free cfg_lp64 4096 JUDY_1 (opened [65536] 16 0)))
  = 4096.
Proof.
  assert (Hs : seg (opened [65536] 16 0) <> []) by (vm_compute; discriminate).
  assert (Hb : 4096 <> 0) by lia.
  assert (Hr : 0 <= reuse_get (opened [65536] 16 0) (size_class cfg_lp64 JUDY_1) < 2 ^ 64)
    by (vm_compute; split; [discriminate | reflexivity]).
  assert (HS : 0 <= JUDY_span_bytes cfg_lp64 < 2 ^ 16) by (cbn; lia).
  split; [exact (conj Hs (conj Hb Hr))|].
  exact (proj1 (free_then_alloc_returns_block cfg_lp64 JUDY_1 4096 (opened [65536] 16 0)
                  Hs Hb Hr HS)).
Defined.

(** X4: [judy_data] either fails, returning NULL with the state as it
    was, or returns a block of the rounded size that lies inside the
    current segment, behind the segment header, and is filled with zeros;
    no byte outside the block changes and the segment's free space stays
    within the segment. *)
Theorem data_block_inside_segment amt (j : Judy) :
  0 <= amt <= JUDY_seg - 32 -> 0 <= head_next j <= JUDY_seg ->
  judy_data amt j = (0, j) \/
  (let b := fst (judy_data amt j) in
   let j' := snd (judy_data amt j) in
   head_base j' + sizeof_JudySeg <= b /\
   b + round8 amt <= head_base j' + JUDY_seg /\
   0 <= head_next j' <= JUDY_seg /\
   root j' = root j /\ reuse j' = reuse j /\ level j' = level j /\
   stack j' = stack j /\ max j' = max j /\ depth j' = depth j /\
   forall a, load8 (mem j') a
             = if (b <=? a) && (a <? b + round8 amt) then 0 else load8 (mem j) a).
Proof.
  intros Ha Hn. unfold judy_data.
  change (if negb (Z.land amt (JUDY_cache_line - 1) =? 0)
          then u32 (Z.lor amt (JUDY_cache_line - 1) + 1) else amt) with (round8 amt).
  pose proof (round8_ge amt ltac:(lia) ltac:(unfold JUDY_seg in Ha; lia)) as Hge.
  assert (Hle : round8 amt <= JUDY_seg - 32).
  { unfold round8. destruct (Z.land amt 7 =? 0) eqn:E; cbn [negb]; [lia|].
    rewrite lor7 by lia. unfold JUDY_seg in *.
    pose proof (Z.mod_pos_bound amt 8 ltac:(lia)).
    rewrite u32_small by lia.
    assert (amt mod 8 <> 0).
    { rewrite land7 in E. apply Z.eqb_neq in E. exact E. }
    pose proof (Z.div_mod amt 8 ltac:(lia)). 
    assert (amt / 8 < 8188) by (apply Z.div_lt_upper_bound; lia). lia. }
  set (A := round8 amt) in *.
  destruct (seg j) as [|sg r] eqn:Hseg; [left; reflexivity|].
  unfold head_next in Hn. rewrite Hseg in Hn.
  unfold JUDY_seg, sizeof_JudySeg in *.
  destruct (head_next j <? A + 16) eqn:Hroom.
  - unfold new_segment. destruct (heap j) as [|a h]; [left; reflexivity|].
    right. cbv zeta.
    pose proof (Z.mod_pos_bound a 8 ltac:(lia)) as Hm.
    change (JUDY_cache_line - 1) with 7. rewrite (land7 a).
    unfold JUDY_seg. rewrite (u32_small (65536 - a mod 8)) by lia.
    unfold set_head_next, head_next, head_base.
    cbn [seg set_seg set_heap seg_base seg_next fst snd mem set_mem root reuse level stack
         max depth].
    rewrite (u32_small (65536 - a mod 8 - A)) by lia.
    repeat (split; [first [lia | reflexivity]|]).
    intros x. rewrite load8_memset0. rewrite Z2Nat.id by lia. reflexivity.
  - right. cbv zeta. apply Z.ltb_ge in Hroom.
    unfold head_next in Hroom. rewrite Hseg in Hroom.
    unfold set_head_next, head_next, head_base. rewrite Hseg.
    cbn [seg set_seg set_heap seg_base seg_next fst snd mem set_mem root reuse level stack
         max depth].
    rewrite (u32_small (seg_next sg - A)) by lia.
    repeat (split; [first [lia | reflexivity]|]).
    intros x. rewrite load8_memset0. rewrite Z2Nat.id by lia. reflexivity.
Qed.

Lemma data_block_inside_segment_witness :
  (0 <= 100 <= JUDY_seg - 32 /\ 0 <= head_next (opened [65536] 16 0) <= JUDY_seg) /\
  (judy_data 100 (opened [65536] 16 0) = (0, opened [65536] 16 0) \/
   head_base (snd (judy_data 100 (opened [65536] 16 0))) + sizeof_JudySeg
   <= fst (judy_data 100 (opened [65536] 16 0))).
Proof.
  assert (Ha : 0 <= 100 <= JUDY_seg - 32) by (unfold JUDY_seg; lia).
  assert (Hn : 0 <= head_next (opened [65536] 16 0) <= JUDY_seg)
    by (vm_compute; split; discriminate).
  split; [exact (conj Ha Hn)|].
  destruct (data_block_inside_segment 100 (opened [65536] 16 0) Ha Hn) as [H|H].
  - left. exact H.
  - right. exact (proj1 H).
Defined.

(** ** Keys are distinct *)

Lemma lex_lt_irrefl a : lex_lt a a = false.
Proof.
  induction a as [|x a IH]; [reflexivity|].
  cbn [lex_lt]. rewrite Z.ltb_irrefl. exact IH.
Qed.

Lemma sorted_NoDup (ks : list (list Z)) : keys_ascending ks -> List.NoDup ks.
Proof.
  unfold keys_ascending. induction 1 as [|a l Hs IH Hall]; constructor.
  - intros Hin. rewrite List.Forall_forall in Hall. specialize (Hall a Hin).
    unfold lex in Hall. rewrite lex_lt_irrefl in Hall. discriminate.
  - exact IH.
Qed.

Lemma all_keys_NoDup N cfg j :
  wf_trie N cfg j = true -> List.NoDup (List.map fst (all_keys N cfg j)).
Proof. intros Hw. apply sorted_NoDup, all_keys_sorted, Hw. Qed.

Lemma NoDup_fst_inj {A B : Type} (l : list (A * B)) k c c' :
  List.NoDup (List.map fst l) -> In (k, c) l -> In (k, c') l -> c = c'.
Proof.
  induction l as [|[k0 c0] l IH]; intros Hnd H1 H2; [destruct H1|].
  cbn [List.map fst] in Hnd. apply List.NoDup_cons_iff in Hnd. destruct Hnd as [Hni Hnd].
  destruct H1 as [H1|H1], H2 as [H2|H2].
  - congruence.
  - exfalso. apply Hni. apply in_map_iff. exists (k, c'). split; [|exact H2].
    cbn [fst]. congruence.
  - exfalso. apply Hni. apply in_map_iff. exists (k, c). split; [|exact H1].
    cbn [fst]. congruence.
  - apply IH; assumption.
Qed.

(** a list without duplicates splits at an element in one way *)
Lemma NoDup_split_unique {A B : Type} (l1 l2 r1 r2 : list (A * B)) k c :
  List.NoDup (List.map fst (l1 ++ (k, c) :: r1)) ->
  l1 ++ (k, c) :: r1 = l2 ++ (k, c) :: r2 -> l1 = l2 /\ r1 = r2.
Proof.
  revert l2. induction l1 as [|x l1 IH]; intros l2 Hnd Heq.
  - destruct l2 as [|y l2].
    + injection Heq as ->. auto.
    + exfalso. cbn [app] in Heq. injection Heq as <- Heq.
      cbn [app List.map fst] in Hnd. apply List.NoDup_cons_iff in Hnd.
      destruct Hnd as [Hni _]. apply Hni. rewrite Heq, List.map_app.
      apply in_or_app. right. left. reflexivity.
  - destruct l2 as [|y l2].
    + exfalso. cbn [app] in Heq. injection Heq as -> Heq.
      cbn [app List.map fst] in Hnd. apply List.NoDup_cons_iff in Hnd.
      destruct Hnd as [Hni _]. apply Hni. rewrite List.map_app.
      apply in_or_app. right. left. reflexivity.
    + cbn [app] in Heq. injection Heq as <- Heq.
      cbn [app List.map] in Hnd. apply List.NoDup_cons_iff in Hnd.
      destruct Hnd as [_ Hnd]. destruct (IH l2 Hnd Heq) as [-> ->]. auto.
Qed.

(** ** The cursor [judy_slot] leaves, and what follows it *)

Lemma keys_entries k cfg V next off dpt :
  next <> 0 ->
  keys (S k) cfg V next off dpt
  = slot_entries k cfg V next off dpt (node_slots cfg V next off dpt).
Proof.
  intros Hn. cbn [keys]. apply Z.eqb_neq in Hn. rewrite Hn. reflexivity.
Qed.

Lemma entries_cells k cfg V next off dpt sis :
  List.map snd (slot_entries k cfg V next off dpt sis)
  = expand k cfg V next off dpt sis.
Proof.
  unfold slot_entries, expand. induction sis as [|si l IHl]; [reflexivity|].
  cbn [flat_map]. rewrite List.map_app, IHl. f_equal.
  destruct (si_leaf si); [reflexivity|].
  rewrite List.map_map. reflexivity.
Qed.

Lemma entries_app k cfg V next off dpt a b :
  slot_entries k cfg V next off dpt (a ++ b)
  = slot_entries k cfg V next off dpt a ++ slot_entries k cfg V next off dpt b.
Proof. unfold slot_entries. apply flat_map_app. Qed.

(** the slots of a node: those before the frame's, the frame's, those after *)
Lemma frame_split cfg V f :
  In (frame_si cfg V f)
     (node_slots cfg V (fr_next f) (fr_off f) (dpt_at V (fr_off f))) ->
  exists pre,
    node_slots cfg V (fr_next f) (fr_off f) (dpt_at V (fr_off f))
    = pre ++ frame_si cfg V f :: frame_after cfg V f.
Proof.
  intros Hin. unfold frame_si, frame_after in *.
  destruct (tag_cases (fr_next f)) as [Hr|[Hs|Hlin]].
  - rewrite node_slots_rad in * by exact Hr. rewrite Hr in *.
    change (JUDY_radix =? JUDY_radix) with true in *. cbv iota in *.
    apply rad_slots_in in Hin; [|lia]. destruct Hin as (b & Hb & Hu & Heq).
    apply (f_equal si_slot) in Heq. cbn [si_slot rad_info] in Heq.
    rewrite Heq. unfold rad_slots.
    replace (256 - 0) with (b + (1 + (256 - (b + 1)))) by lia.
    rewrite seqZ_app by lia. rewrite (seqZ_app _ 1) by lia.
    rewrite (seqZ_cons' (0 + b) 1) by lia. rewrite (seqZ_nil' _ (1 - 1)) by lia.
    rewrite !List.filter_app. cbn [List.filter app].
    replace (0 + b) with b by lia. rewrite Hu.
    rewrite List.map_app. cbn [List.map app].
    eexists. reflexivity.
  - rewrite node_slots_span in * by exact Hs. rewrite Hs in *.
    change (JUDY_span =? JUDY_radix) with false in *.
    change (JUDY_span =? JUDY_span) with true in *. cbv iota in *.
    exists []. reflexivity.
  - rewrite node_slots_lin in * by exact Hlin.
    destruct Hlin as [Hr Hs]. apply Z.eqb_neq in Hr. apply Z.eqb_neq in Hs.
    rewrite Hr, Hs in *.
    apply lin_slots_in in Hin. destruct Hin as (i & Hi & Heq).
    apply (f_equal si_slot) in Heq. cbn [si_slot lin_info] in Heq.
    rewrite Heq. unfold lin_slots.
    set (fst_ := lin_first cfg V (fr_next f) (fr_off f)) in *.
    set (cnt := lin_cnt cfg (fr_next f) (fr_off f)) in *.
    replace (cnt - fst_) with ((i - fst_) + (1 + (cnt - (i + 1)))) by lia.
    rewrite seqZ_app by lia. rewrite (seqZ_app _ 1) by lia.
    rewrite (seqZ_cons' (fst_ + (i - fst_)) 1) by lia.
    rewrite (seqZ_nil' _ (1 - 1)) by lia.
    rewrite List.map_app. cbn [List.map app].
    replace (fst_ + (i - fst_)) with i by lia.
    eexists. reflexivity.
Qed.

(** the entries of the trie split at the key [judy_slot] found: the
    entries after it are the cells still to come after the cursor *)
Lemma slot_loop_after k cfg buff kmax :
  forall fuel j next off dpt test key c,
  wf k cfg (view j) next off dpt (level j) = true ->
  In (key, c) (keys k cfg (view j) next off dpt) ->
  key = key_from (view j) buff kmax off ->
  bytes buff -> (depth j = 0 -> off <= kmax < 2 ^ 31) ->
  (k + Z.to_nat (JUDY_span_bytes cfg) <= fuel)%nat ->
  exists pre rest,
    keys k cfg (view j) next off dpt = pre ++ (key, c) :: rest /\
    let j' := snd (judy_slot_loop cfg fuel buff kmax (mkWalk next off dpt test) j) in
    List.map snd rest
    = after k cfg (view j) (stack j') (level j) (Z.to_nat (level j' - level j)).
Proof.
  induction k as [|k IH]; intros fuel j next off dpt test key c Hw Hin Hkey Hbuf Hk Hfuel;
    [discriminate|].
  destruct fuel as [|fuel]; [lia|].
  pose proof Hw as Hw'. apply wf_S in Hw'.
  destruct Hw' as (Hn & Hl & _ & _ & _ & Hd & _ & _ & _ & Hsl & _).
  destruct (keys_in k cfg (view j) next off dpt key c Hn Hin)
    as (si & rest0 & Hsi & Hsplit & Hrest).
  destruct (Hsl si Hsi) as (Hc0 & _ & _ & Hb).
  destruct (key_matches k cfg (view j) buff kmax next off dpt (level j) si rest0 Hw Hsi)
    as (Hm & Hlen & Hnext).
  { intros H0. apply Hk, H0. }
  { rewrite <- Hkey. exact Hsplit. }
  { intros Hleaf. rewrite Hleaf in Hrest. apply Hrest. }
  destruct (slot_turn_spec k cfg (S fuel) buff kmax j next off dpt test si Hw Hsi Hbuf Hk
              ltac:(lia) Hm Hlen) as (s & test' & Hturn & Hfsi).
  destruct (entered_fields j next off s) as [Hfn Hfo].
  set (j1 := entered j next off s) in *.
  set (f1 := frame_at (stack j1) (level j + 1)) in *.
  assert (Hfin : In (frame_si cfg (view j) f1)
                   (node_slots cfg (view j) (fr_next f1) (fr_off f1)
                      (dpt_at (view j) (fr_off f1)))).
  { rewrite Hfsi, Hfn, Hfo, <- Hd. exact Hsi. }
  destruct (frame_split cfg (view j) f1 Hfin) as (pre_s & Hns).
  rewrite Hfsi, Hfn, Hfo, <- Hd in Hns.
  assert (Hbelow : forall x, In x (frame_after cfg (view j) f1) ->
            below k cfg (view j) next off dpt (level j) x = true).
  { intros x Hx. apply (Hsl x). rewrite Hns. apply in_or_app. right. right. exact Hx. }
  assert (Hexp : expand k cfg (view j) next off dpt (frame_after cfg (view j) f1)
                 = frame_exp (S k) cfg (view j) f1).
  { unfold frame_exp. rewrite Hfn, Hfo, <- Hd. symmetry.
    apply (expand_mono k (S k) cfg (view j) next off dpt (level j)); [lia|exact Hbelow]. }
  rewrite keys_entries by exact Hn. rewrite Hns, entries_app.
  change (si :: frame_after cfg (view j) f1)
    with ([si] ++ frame_after cfg (view j) f1).
  rewrite entries_app.
  cbn [judy_slot_loop w_next]. apply Z.eqb_neq in Hn. rewrite Hn. rewrite Hturn.
  unfold below in Hb. destruct (si_leaf si) eqn:Hleaf.
  - destruct Hrest as [-> ->]. rewrite app_nil_r in Hsplit.
    exists (slot_entries k cfg (view j) next off dpt pre_s),
           (slot_entries k cfg (view j) next off dpt (frame_after cfg (view j) f1)).
    split.
    + f_equal. unfold slot_entries at 1. cbn [flat_map]. rewrite Hleaf.
      cbn [app]. rewrite Hsplit. reflexivity.
    + cbv zeta. cbn [snd]. fold j1. unfold j1 at 2. rewrite entered_level.
      replace (Z.to_nat (level j + 1 - level j)) with 1%nat by lia.
      cbn [after]. rewrite app_nil_r. change (Z.of_nat 1) with 1. fold f1.
      rewrite entries_cells. exact Hexp.
  - cbn [orb] in Hb. destruct (Hnext eq_refl) as (Hrk & Hko & Hcb).
    assert (Hv : view j1 = view j) by apply entered_view.
    assert (Hl1 : level j1 = level j + 1) by apply entered_level.
    assert (Hdj : depth j1 = depth j) by (unfold j1; destruct s; reflexivity).
    destruct (slot_loop_spec k cfg buff kmax fuel j1 (load64 (mem j) (si_cell si))
                (child_off cfg next off) (child_dpt (view j) next off dpt) test' rest0 c)
      as (j' & n & Hf & Hcn & Hst & Hlv & Hfr & Hok & _).
    { rewrite Hv, Hl1. exact Hb. }
    { rewrite Hv. exact Hrest. }
    { rewrite Hv. exact Hrk. }
    { exact Hbuf. }
    { intros H0. rewrite Hdj in H0. specialize (Hk H0). specialize (Hko H0). lia. }
    { lia. }
    destruct (IH fuel j1 (load64 (mem j) (si_cell si)) (child_off cfg next off)
                (child_dpt (view j) next off dpt) test' rest0 c)
      as (pre' & rest' & Hkeys & Hafter).
    { rewrite Hv, Hl1. exact Hb. }
    { rewrite Hv. exact Hrest. }
    { rewrite Hv. exact Hrk. }
    { exact Hbuf. }
    { intros H0. rewrite Hdj in H0. specialize (Hk H0). specialize (Hko H0). lia. }
    { lia. }
    cbv zeta in Hafter. rewrite Hf in Hafter. cbn [snd] in Hafter.
    rewrite Hv in Hkeys, Hafter, Hok. rewrite Hl1 in Hlv, Hfr, Hok, Hafter.
    rewrite Hf. cbv zeta. cbn [snd].
    exists (slot_entries k cfg (view j) next off dpt pre_s
            ++ List.map (fun kc => (contrib (view j) (si_bytes si) ++ fst kc, snd kc)) pre'),
           (List.map (fun kc => (contrib (view j) (si_bytes si) ++ fst kc, snd kc)) rest'
            ++ slot_entries k cfg (view j) next off dpt (frame_after cfg (view j) f1)).
    split.
    + rewrite <- app_assoc. f_equal. unfold slot_entries at 1. cbn [flat_map].
      rewrite Hleaf, app_nil_r. change (mem (view j)) with (mem j).
      rewrite Hkeys, List.map_app. cbn [List.map fst snd].
      rewrite <- app_assoc. cbn [app]. rewrite Hsplit. reflexivity.
    + rewrite List.map_app, List.map_map. cbn [snd].
      change (List.map (fun x : list Z * Z => snd x) rest') with (List.map snd rest').
      rewrite Hafter, entries_cells, Hexp.
      replace (Z.to_nat (level j' - level j)) with (S (S n)) by lia.
      replace (Z.to_nat (level j' - (level j + 1))) with (S n) by lia.
      rewrite (after_shift (S k)).
      rewrite (after_mono k (S k)) by (try lia; intros i Hi; apply Hok; lia).
      f_equal. unfold f1. rewrite Hfr by lia. reflexivity.
Qed.

Lemma sorted_split (l1 l2 : list (list Z)) a :
  keys_ascending (l1 ++ a :: l2) ->
  List.Forall (fun x => lex x a) l1 /\ List.Forall (lex a) l2.
Proof.
  unfold keys_ascending. induction l1 as [|x l1 IH]; intros H.
  - split; [constructor|]. cbn [app] in H. inversion H; subst. assumption.
  - cbn [app] in H. inversion H as [|? ? Hs Hall]; subst.
    destruct (IH Hs) as [H1 H2]. split; [|exact H2].
    constructor; [|exact H1].
    rewrite List.Forall_forall in Hall. apply Hall.
    apply in_or_app. right. left. reflexivity.
Qed.

(** [judy_slot] on a key of the trie leaves the cursor such that the cells
    still to come are those of the entries after the key *)
Lemma judy_slot_to_come N cfg fuel j buff kmax K c pre rest :
  wf_trie N cfg j = true ->
  all_keys N cfg j = pre ++ (K, c) :: rest ->
  K = key_from (view j) buff kmax 0 -> bytes buff ->
  (depth j = 0 -> 0 <= kmax < 2 ^ 31) ->
  (N + Z.to_nat (JUDY_span_bytes cfg) <= fuel)%nat ->
  exists j1,
    judy_slot cfg fuel buff kmax j = (c, j1) /\ c <> 0 /\
    store_of j1 = store_of j /\ 1 <= level j1 /\ cursor_inv N cfg j1 /\
    to_come N cfg j1 = List.map snd rest.
Proof.
  intros Hwf Hall HK Hbuf Hk Hfuel.
  assert (Hin : In (K, c) (all_keys N cfg j)).
  { rewrite Hall. apply in_or_app. right. left. reflexivity. }
  destruct (judy_slot_spec N cfg fuel j buff kmax K c Hwf Hin HK Hbuf Hk Hfuel)
    as (j1 & n & Hs & Hc & Hst & Hlv & Hci & _).
  exists j1. split; [exact Hs|]. split; [exact Hc|]. split; [exact Hst|].
  split; [lia|]. split; [exact Hci|].
  pose proof (all_keys_NoDup N cfg j Hwf) as Hnd.
  unfold wf_trie in Hwf. unfold all_keys in Hin, Hall, Hnd.
  apply andb_true_iff in Hwf. destruct Hwf as [_ Hwf].
  apply orb_true_iff in Hwf. destruct Hwf as [Hz|Hwf].
  { apply Z.eqb_eq in Hz. rewrite Hz, keys_root_empty in Hin. destruct Hin. }
  destruct (slot_loop_after N cfg buff kmax fuel (set_level 0 j) (root_slot j) 0 0 0 K c)
    as (pre' & rest' & Hkeys & Hafter); try assumption.
  change (view (set_level 0 j)) with (view j) in *.
  cbv zeta in Hafter. cbn [level set_level] in Hafter.
  unfold judy_slot in Hs. fold (root_slot j) in Hs. rewrite Hs in Hafter.
  cbn [snd] in Hafter. rewrite Z.sub_0_r in Hafter.
  rewrite Hall in Hkeys, Hnd.
  destruct (NoDup_split_unique _ _ _ _ _ _ Hnd Hkeys) as [_ ->].
  unfold to_come. rewrite (view_store _ _ Hst). symmetry. exact Hafter.
Qed.



(** X7: [judy_strt] called with a key of the trie that is not empty
    returns what [judy_slot] returns: the cell of the key, with the
    cursor on the key. *)
Theorem strt_finds_present_key N cfg fuel (j : Judy) (buff : list Z) (c : Z) :
  wf_trie N cfg j = true ->
  In (key_of j buff, c) (all_keys N cfg j) ->
  forallb is_byte buff = true ->
  0 < Z.of_nat (length buff) < 2 ^ 31 ->
  (N + Z.to_nat (JUDY_span_bytes cfg) <= fuel)%nat ->
  judy_strt cfg fuel buff (Z.of_nat (length buff)) j
  = judy_slot cfg fuel buff (Z.of_nat (length buff)) j /\
  fst (judy_strt cfg fuel buff (Z.of_nat (length buff)) j) = c /\ c <> 0.
Proof.
  intros Hwf Hin Hbuf Hlen Hfuel.
  destruct (judy_slot_spec N cfg fuel j buff (Z.of_nat (length buff)) (key_of j buff) c
              Hwf Hin) as (j1 & n & Hs & Hc & _).
  { symmetry. apply key_from_root. }
  { exact Hbuf. }
  { intros _. lia. }
  { exact Hfuel. }
  unfold judy_strt.
  destruct (Z.eqb_spec (Z.of_nat (length buff)) 0) as [H0|_]; [lia|].
  change (judy_slot cfg fuel buff (Z.of_nat (length buff)) (set_level 0 j))
    with (judy_slot cfg fuel buff (Z.of_nat (length buff)) j).
  rewrite Hs. apply Z.eqb_neq in Hc. rewrite Hc. cbn [negb fst].
  apply Z.eqb_neq in Hc. auto.
Qed.

Lemma strt_finds_present_key_witness :
  (wf_trie 4 cfg_lp64 (trie3 cfg_lp64) = true /\
   In (key_of (trie3 cfg_lp64) key_abd, abd_cell) (all_keys 4 cfg_lp64 (trie3 cfg_lp64))) /\
  fst (judy_strt cfg_lp64 64 key_abd 3 (trie3 cfg_lp64)) = abd_cell.
Proof.
  assert (Hw : wf_trie 4 cfg_lp64 (trie3 cfg_lp64) = true) by (vm_compute; reflexivity).
  assert (Hin : In (key_of (trie3 cfg_lp64) key_abd, abd_cell)
                  (all_keys 4 cfg_lp64 (trie3 cfg_lp64))).
  { vm_compute. tauto. }
  split; [exact (conj Hw Hin)|].
  exact (proj1 (proj2
    (strt_finds_present_key 4 cfg_lp64 64 (trie3 cfg_lp64) key_abd abd_cell Hw Hin
       ltac:(reflexivity) ltac:(cbn; lia) ltac:(cbn; lia)))).
Defined.

Lemma nxt_iter_to_come N cfg fuel :
  forall cells j,
  to_come N cfg j = cells -> 1 <= level j -> cursor_inv N cfg j ->
  (N <= fuel)%nat -> (Z.to_nat (max j) < fuel)%nat ->
  level (nxt_iter (S (length cells)) cfg fuel j) = 0 /\
  store_of (nxt_iter (S (length cells)) cfg fuel j) = store_of j.
Proof.
  induction cells as [|c rest IH]; intros j Hc Hl Hinv Hfuel Hmax.
  - pose proof (judy_nxt_spec N cfg fuel j Hl Hinv Hfuel Hmax) as Hr.
    unfold nxt_result in Hr. rewrite Hc in Hr. destruct Hr as (_ & Hlv & Hst).
    cbn [nxt_iter length]. auto.
  - pose proof (judy_nxt_spec N cfg fuel j Hl Hinv Hfuel Hmax) as Hr.
    unfold nxt_result in Hr. rewrite Hc in Hr.
    destruct Hr as (_ & _ & Hst & Hinv' & Hl' & Hcome).
    change (nxt_iter (S (length (c :: rest))) cfg fuel j)
      with (nxt_iter (S (length rest)) cfg fuel (snd (judy_nxt cfg fuel j))).
    destruct (IH (snd (judy_nxt cfg fuel j)) Hcome Hl' Hinv' Hfuel) as [H1 H2].
    { rewrite (store_max _ _ Hst). exact Hmax. }
    split; [exact H1|]. rewrite H2. exact Hst.
Qed.

Lemma wf_trie_store N cfg j j' :
  store_of j' = store_of j ->
  wf_trie N cfg j' = wf_trie N cfg j /\ all_keys N cfg j' = all_keys N cfg j.
Proof.
  intros Hst. pose proof (view_store _ _ Hst) as Hv.
  unfold wf_trie, all_keys.
  change (root_slot j') with (root_slot (view j')).
  change (depth j') with (depth (view j')). rewrite Hv. split; reflexivity.
Qed.



(** ** The segments of an array *)

Lemma arena_set_level l j : arena_of (set_level l j) = arena_of j.
Proof. reflexivity. Qed.
Lemma arena_push_level j : arena_of (push_level j) = arena_of j.
Proof. unfold push_level. destruct (level j <? max j); reflexivity. Qed.
Lemma arena_pop_level j : arena_of (pop_level j) = arena_of j.
Proof. reflexivity. Qed.
Lemma arena_set_stack st j : arena_of (set_stack st j) = arena_of j.
Proof. reflexivity. Qed.
Lemma arena_set_mem m j : arena_of (set_mem m j) = arena_of j.
Proof. reflexivity. Qed.
Lemma arena_set_reuse r j : arena_of (set_reuse r j) = arena_of j.
Proof. reflexivity. Qed.
Lemma arena_set_frame_next v j : arena_of (set_frame_next v j) = arena_of j.
Proof. reflexivity. Qed.
Lemma arena_set_frame_off v j : arena_of (set_frame_off v j) = arena_of j.
Proof. reflexivity. Qed.
Lemma arena_set_frame_slot v j : arena_of (set_frame_slot v j) = arena_of j.
Proof. reflexivity. Qed.
Lemma arena_reuse_set t v j : arena_of (reuse_set t v j) = arena_of j.
Proof. reflexivity. Qed.
Lemma arena_set_head_next v j : arena_of (set_head_next v j) = arena_of j.
Proof.
  unfold set_head_next, arena_of, judy_close.
  destruct (seg j) eqn:E; cbn [seg set_seg heap List.map seg_base]; rewrite ?E;
    reflexivity.
Qed.

Create Rewrite HintDb arena.
#[local] Hint Rewrite arena_set_stack arena_set_mem arena_set_reuse
  arena_set_level arena_push_level arena_pop_level arena_set_frame_next arena_set_frame_off
  arena_set_frame_slot arena_reuse_set arena_set_head_next : arena.

Ltac arena_call lem :=
  match goal with
  | H : _ = (_, ?j1) |- context [arena_of ?j1] =>
      let Hs := fresh "Hs" in
      pose proof lem as Hs; rewrite H in Hs; cbn [snd] in Hs;
      rewrite Hs; clear H Hs
  end.

Ltac arena_cases :=
  repeat case_match; subst; cbn [turn_state snd fst];
  autorewrite with arena; try reflexivity.

Lemma break_down_arena cfg n block type idx j :
  arena_of (break_down cfg n block type idx j) = arena_of j.
Proof.
  revert idx j. induction n as [|k IH]; intros idx j; [reflexivity|].
  cbn [break_down]. destruct (idx >? type); [|reflexivity].
  rewrite IH. reflexivity.
Qed.

Lemma find_larger_arena cfg n type idx amt j :
  match find_larger cfg n type idx amt j with
  | Some r => arena_of (snd r) = arena_of j
  | None => True
  end.
Proof.
  revert idx. induction n as [|k IH]; intros idx; cbn [find_larger]; [exact I|].
  destruct (idx <? JUDY_max); [|exact I].
  destruct (negb (reuse_get j (idx + 1) =? 0)).
  - cbn [snd]. autorewrite with arena.
    rewrite break_down_arena. reflexivity.
  - apply IH.
Qed.

Lemma fill_line_arena n idx amt j :
  arena_of (snd (fill_line n idx amt j)) = arena_of j.
Proof.
  revert idx amt j. induction n as [|k IH]; intros idx amt j; [reflexivity|].
  cbn [fill_line]. destruct (negb (Z.land amt (JUDY_cache_line - 1) =? 0)); [|reflexivity].
  rewrite IH. reflexivity.
Qed.

Lemma new_segment_arena j :
  match new_segment j with
  | Some j' => arena_of j' = arena_of j
  | None => True
  end.
Proof.
  unfold new_segment, arena_of, judy_close. destruct (heap j) as [|a h]; [exact I|].
  cbn [seg set_seg set_heap heap List.map seg_base rev].
  rewrite <- app_assoc. reflexivity.
Qed.

Lemma judy_alloc_arena cfg type j :
  arena_of (snd (judy_alloc cfg type j)) = arena_of j.
Proof.
  unfold judy_alloc.
  destruct (seg j) as [|sg r]; [reflexivity|].
  destruct (negb (reuse_get j (size_class cfg type) =? 0)); [reflexivity|].
  set (amt := round8 (JudySize cfg (size_class cfg type))).
  assert (Hgrow : forall c, match (if c : bool then new_segment j else Some j) with
                       | Some j' => arena_of j' = arena_of j | None => True end).
  { intros [|]; [apply new_segment_arena | reflexivity]. }
  destruct (size_class cfg type >=? JUDY_1).
  - pose proof (find_larger_arena cfg 8 (size_class cfg type) (size_class cfg type) amt j) as Hf.
    destruct (find_larger cfg 8 (size_class cfg type) (size_class cfg type) amt j) as [r0|];
      [exact Hf|].
    match goal with |- context [if ?c then new_segment j else Some j] =>
      specialize (Hgrow c); destruct (if c then new_segment j else Some j) as [j'|] end;
      [|reflexivity].
    pose proof (fill_line_arena 32 (size_class cfg type) amt j') as Hl.
    destruct (fill_line 32 (size_class cfg type) amt j') as [amt' j2].
    cbn [snd] in *. autorewrite with arena. congruence.
  - match goal with |- context [if ?c then new_segment j else Some j] =>
      specialize (Hgrow c); destruct (if c then new_segment j else Some j) as [j'|] end;
      [|reflexivity].
    pose proof (fill_line_arena 32 (size_class cfg type) amt j') as Hl.
    destruct (fill_line 32 (size_class cfg type) amt j') as [amt' j2].
    cbn [snd] in *. autorewrite with arena. congruence.
Qed.

Lemma judy_data_arena amt j : arena_of (snd (judy_data amt j)) = arena_of j.
Proof.
  unfold judy_data. destruct (seg j) as [|sg r]; [reflexivity|].
  match goal with |- context [if ?c then new_segment j else Some j] =>
    destruct c end.
  - pose proof (new_segment_arena j) as Hn.
    destruct (new_segment j) as [j'|]; [|reflexivity].
    cbn [snd]. autorewrite with arena. exact Hn.
  - cbn [snd]. autorewrite with arena. reflexivity.
Qed.

Lemma judy_free_arena cfg block type j :
  arena_of (judy_free cfg block type j) = arena_of j.
Proof. reflexivity. Qed.

#[local] Hint Rewrite judy_alloc_arena judy_data_arena judy_free_arena : arena.

(** destructs the pair returned by a call and records its cursor *)
Ltac arena_step :=
  match goal with
  | |- context [judy_alloc ?c ?t ?j0] =>
      let Ha := fresh "Ha" in
      pose proof (judy_alloc_arena c t j0) as Ha;
      destruct (judy_alloc c t j0) as [? ?]; cbn [snd] in Ha
  end.

Lemma judy_promote_arena cfg next idx value keysize j :
  arena_of (snd (judy_promote cfg next idx value keysize j)) = arena_of j.
Proof.
  unfold judy_promote. arena_step. cbn [snd]. autorewrite with arena. exact Ha.
Qed.

Lemma judy_radix_arena cfg radix old start slot keysize key dpt j :
  arena_of (judy_radix cfg radix old start slot keysize key dpt j) = arena_of j.
Proof.
  unfold judy_radix.
  destruct (base_of (load64 (mem j) (radix + 8 * Z.shiftr key 4)) =? 0).
  - arena_step.
    match goal with |- context [if ?c then _ else _] => destruct c end.
    + autorewrite with arena. exact Ha.
    + arena_step. autorewrite with arena in *. congruence.
  - match goal with |- context [if ?c then _ else _] => destruct c end.
    + reflexivity.
    + arena_step. autorewrite with arena. exact Ha.
Qed.

Lemma split_groups_arena cfg n newradix base cnt keysize dpt slot start key j :
  arena_of (snd (split_groups cfg n newradix base cnt keysize dpt slot start key j))
  = arena_of j.
Proof.
  revert slot start key j.
  induction n as [|k IH]; intros slot start key j; [reflexivity|].
  cbn [split_groups]. destruct (slot <? cnt); [|reflexivity].
  match goal with |- context [if ?c then _ else _] => destruct c end.
  - apply IH.
  - rewrite IH. apply judy_radix_arena.
Qed.

Lemma judy_splitnode_arena cfg next size keysize dpt j :
  arena_of (judy_splitnode cfg next size keysize dpt j) = arena_of j.
Proof.
  unfold judy_splitnode. arena_step.
  match goal with |- context [split_groups ?c ?n ?r ?b ?cn ?k ?d ?s ?st ?ke ?j0] =>
    pose proof (split_groups_arena c n r b cn k d s st ke j0) as Hg;
    destruct (split_groups c n r b cn k d s st ke j0) as [[? ?] ?] end.
  cbn [snd] in Hg. rewrite judy_free_arena, judy_radix_arena, Hg.
  autorewrite with arena. exact Ha.
Qed.

Lemma span_chain_arena cfg n next base cnt off j :
  arena_of (snd (span_chain cfg n next base cnt off j)) = arena_of j.
Proof.
  revert next cnt off j. induction n as [|k IH]; intros next cnt off j; [reflexivity|].
  cbn [span_chain]. arena_step.
  match goal with |- context [if ?c then _ else _] => destruct c end.
  - rewrite IH. autorewrite with arena. exact Ha.
  - cbn [snd]. autorewrite with arena. exact Ha.
Qed.

Lemma judy_splitspan_arena cfg fuel next base j :
  arena_of (judy_splitspan cfg fuel next base j) = arena_of j.
Proof.
  unfold judy_splitspan.
  pose proof (span_chain_arena cfg fuel next base (JUDY_span_bytes cfg) 0 j) as Hc.
  destruct (span_chain cfg fuel next base (JUDY_span_bytes cfg) 0 j) as [? ?].
  cbn [snd] in Hc. rewrite judy_free_arena. autorewrite with arena. exact Hc.
Qed.

#[local] Hint Rewrite judy_promote_arena judy_radix_arena judy_splitnode_arena
  judy_splitspan_arena : arena.

Lemma arena_store j j' : store_of j' = store_of j -> arena_of j' = arena_of j.
Proof.
  unfold store_of, arena_of, judy_close. intros H.
  injection H as _ _ Hs _ Hh _ _. rewrite Hs, Hh. reflexivity.
Qed.

Ltac note_arena :=
  repeat match goal with
  | H : judy_alloc ?c ?t ?j0 = (_, _) |- _ =>
      let Hs := fresh "Hs" in
      pose proof (judy_alloc_arena c t j0) as Hs; rewrite H in Hs;
      cbn [snd] in Hs; autorewrite with arena in Hs; clear H
  | H : judy_promote ?c ?n ?i ?v ?k ?j0 = (_, _) |- _ =>
      let Hs := fresh "Hs" in
      pose proof (judy_promote_arena c n i v k j0) as Hs; rewrite H in Hs;
      cbn [snd] in Hs; autorewrite with arena in Hs; clear H
  | H : judy_prv ?c ?f ?j0 = (_, _) |- _ =>
      let Hs := fresh "Hs" in
      pose proof (arena_store _ _ (judy_prv_store c f j0)) as Hs; rewrite H in Hs;
      cbn [snd] in Hs; autorewrite with arena in Hs; clear H
  end.

Ltac chase_arena :=
  autorewrite with arena;
  repeat match goal with
  | Hs : arena_of ?a = _ |- context [arena_of ?a] =>
      rewrite Hs; autorewrite with arena
  end.

Lemma cell_turn_arena cfg fuel buff kmax w j :
  arena_of (turn_state (judy_cell_turn cfg fuel buff kmax w j)) = arena_of j.
Proof.
  unfold judy_cell_turn.
  repeat case_match; subst; cbn [turn_state]; note_arena; chase_arena; reflexivity.
Qed.

Lemma cell_loop_arena cfg fuel buff kmax w j :
  arena_of (turn_state (judy_cell_loop cfg fuel buff kmax w j)) = arena_of j.
Proof.
  revert w j. induction fuel as [|k IH]; intros w j; [reflexivity|].
  cbn [judy_cell_loop].
  destruct (load64 (mem j) (w_next w) =? 0); [reflexivity|].
  pose proof (cell_turn_arena cfg (S k) buff kmax w j) as Ht.
  destruct (judy_cell_turn cfg (S k) buff kmax w j) as [p j'|w' j'];
    cbn [turn_state] in *; [exact Ht | rewrite IH; exact Ht].
Qed.

Lemma push_frame_arena ref off j : arena_of (push_frame ref off j) = arena_of j.
Proof. unfold push_frame. autorewrite with arena. reflexivity. Qed.

Lemma cell_digit_arena cfg buff kmax w j :
  arena_of (snd (cell_digit cfg buff kmax w j)) = arena_of j.
Proof.
  unfold cell_digit.
  repeat case_match; subst; cbn [snd]; note_arena; rewrite ?push_frame_arena;
    chase_arena; reflexivity.
Qed.

Lemma cell_spans_arena cfg fuel buff kmax next off j :
  arena_of (snd (cell_spans cfg fuel buff kmax next off j)) = arena_of j.
Proof.
  revert next off j. induction fuel as [|k IH]; intros next off j; [reflexivity|].
  cbn [cell_spans]. destruct (off <=? kmax); [|reflexivity].
  pose proof (judy_alloc_arena cfg JUDY_span j) as Ha.
  destruct (judy_alloc cfg JUDY_span j) as [base j1]. cbn [snd] in Ha.
  match goal with |- context [push_frame ?r ?o ?j0] =>
    assert (Hf : arena_of (push_frame r o j0) = arena_of j)
      by (rewrite push_frame_arena; autorewrite with arena; exact Ha)
  end.
  match goal with |- context [if ?c then _ else _] => destruct c end.
  - exact Hf.
  - rewrite IH. exact Hf.
Qed.

Lemma cell_digits_arena cfg fuel buff next off dpt j :
  arena_of (snd (cell_digits cfg fuel buff next off dpt j)) = arena_of j.
Proof.
  revert next off dpt j.
  induction fuel as [|k IH]; intros next off dpt j; [reflexivity|].
  cbn [cell_digits]. destruct (dpt <? depth j); [|reflexivity].
  pose proof (judy_alloc_arena cfg JUDY_1 j) as Ha.
  destruct (judy_alloc cfg JUDY_1 j) as [base j1]. cbn [snd] in Ha.
  rewrite IH, push_frame_arena. autorewrite with arena. exact Ha.
Qed.

Lemma judy_cell_arena cfg fuel buff kmax j :
  arena_of (snd (judy_cell cfg fuel buff kmax j)) = arena_of j.
Proof.
  unfold judy_cell.
  pose proof (cell_loop_arena cfg fuel buff kmax
                (mkWalk (root (set_level 0 j)) 0 0 0) (set_level 0 j)) as Hl.
  destruct (judy_cell_loop cfg fuel buff kmax
              (mkWalk (root (set_level 0 j)) 0 0 0) (set_level 0 j)) as [p j'|w j'];
    cbn [turn_state] in Hl; [exact Hl|].
  pose proof (cell_digit_arena cfg buff kmax w j') as Hd.
  destruct (cell_digit cfg buff kmax w j') as [w' j2]. cbn [snd] in Hd.
  destruct (depth j2 =? 0).
  - rewrite cell_spans_arena, Hd. exact Hl.
  - rewrite cell_digits_arena, Hd. exact Hl.
Qed.

Lemma del_turn_arena cfg fuel j :
  arena_of (turn_state (judy_del_turn cfg fuel j)) = arena_of j.
Proof.
  unfold judy_del_turn.
  repeat case_match; subst; cbn [turn_state]; note_arena; chase_arena; reflexivity.
Qed.

Lemma del_loop_arena cfg fuel inner j :
  arena_of (snd (judy_del_loop cfg fuel inner j)) = arena_of j.
Proof.
  revert j. induction fuel as [|k IH]; intros j; [reflexivity|].
  cbn [judy_del_loop]. destruct (level j =? 0); [reflexivity|].
  pose proof (del_turn_arena cfg inner j) as Ht.
  destruct (judy_del_turn cfg inner j) as [p j'|u j'];
    cbn [turn_state snd] in *; [exact Ht | rewrite IH; exact Ht].
Qed.

Lemma judy_del_arena cfg fuel j :
  arena_of (snd (judy_del cfg fuel j)) = arena_of j.
Proof. unfold judy_del. apply del_loop_arena. Qed.

Lemma run_op_arena cfg fuel o j : arena_of (run_op cfg fuel o j) = arena_of j.
Proof.
  destruct o; cbn [run_op].
  - apply judy_cell_arena.
  - apply arena_store, judy_slot_store.
  - apply arena_store, judy_strt_store.
  - apply arena_store, judy_end_store.
  - apply arena_store, judy_nxt_store.
  - apply arena_store, judy_prv_store.
  - apply judy_del_arena.
  - reflexivity.
  - apply judy_data_arena.
Qed.

Lemma run_ops_arena cfg fuel ops : forall j, arena_of (run_ops cfg fuel ops j) = arena_of j.
Proof.
  unfold run_ops. induction ops as [|o ops IH]; intros j; [reflexivity|].
  cbn [fold_left]. rewrite IH. apply run_op_arena.
Qed.



(** ** Two handles on one memory *)

Lemma node_slots_same cfg V V' next off dpt :
  mem V = mem V' -> depth V = depth V' ->
  node_slots cfg V next off dpt = node_slots cfg V' next off dpt.
Proof.
  destruct V as [r re s l mx d st m h], V' as [r' re' s' l' mx' d' st' m' h'].
  cbn [mem depth]. intros -> ->.
  unfold node_slots, rad_slots, lin_slots, rad_info, lin_info, span_info, lin_first,
    is_leaf_key, is_leaf_slot, rad_dpt.
  cbn [mem depth]. reflexivity.
Qed.

Lemma keys_same n cfg V V' :
  mem V = mem V' -> depth V = depth V' ->
  forall next off dpt, keys n cfg V next off dpt = keys n cfg V' next off dpt.
Proof.
  intros Hm Hd. induction n as [|n IH]; intros next off dpt; [reflexivity|].
  cbn [keys]. destruct (next =? 0); [reflexivity|].
  rewrite (node_slots_same cfg V V' next off dpt Hm Hd).
  apply flat_map_ext. intros si.
  unfold contrib, child_dpt, rad_dpt. rewrite Hd, Hm, IH. reflexivity.
Qed.

Lemma forallb_same {A : Type} (f g : A -> bool) (l : list A) :
  (forall a, f a = g a) -> forallb f l = forallb g l.
Proof.
  intros H. induction l as [|a l IH]; [reflexivity|].
  cbn [forallb]. rewrite H, IH. reflexivity.
Qed.

Lemma wf_same n cfg V V' :
  mem V = mem V' -> depth V = depth V' -> max V = max V' ->
  forall next off dpt lvl, wf n cfg V next off dpt lvl = wf n cfg V' next off dpt lvl.
Proof.
  intros Hm Hd Hx. induction n as [|n IH]; intros next off dpt lvl; [reflexivity|].
  cbn [wf]. rewrite (node_slots_same cfg V V' next off dpt Hm Hd).
  unfold dpt_at, child_dpt, rad_dpt, lin_first, lin_slots, lin_info, is_leaf_key.
  rewrite Hd, Hm, Hx.
  match goal with
  | |- ?L = ?R =>
      match L with
      | context [forallb ?f (node_slots cfg V' next off dpt)] =>
          match R with
          | context [forallb ?g (node_slots cfg V' next off dpt)] =>
              rewrite (forallb_same f g)
          end
      end
  end.
  - reflexivity.
  - intros si. rewrite IH. reflexivity.
Qed.

Lemma judy_data_effect amt j :
  judy_data amt j = (0, j) \/
  (let b := fst (judy_data amt j) in
   let j' := snd (judy_data amt j) in
   root j' = root j /\ reuse j' = reuse j /\ level j' = level j /\
   stack j' = stack j /\ max j' = max j /\ depth j' = depth j /\
   forall a, load8 (mem j') a
             = if (b <=? a) && (a <? b + Z.of_nat (Z.to_nat (round8 amt)))
               then 0 else load8 (mem j) a).
Proof.
  unfold judy_data.
  change (if negb (Z.land amt (JUDY_cache_line - 1) =? 0)
          then u32 (Z.lor amt (JUDY_cache_line - 1) + 1) else amt) with (round8 amt).
  destruct (seg j) as [|sg r] eqn:Hseg; [left; reflexivity|].
  assert (Hg : forall j1, root j1 = root j -> reuse j1 = reuse j -> level j1 = level j ->
             stack j1 = stack j -> max j1 = max j -> depth j1 = depth j -> mem j1 = mem j ->
             let j2 := set_head_next (u32 (head_next j1 - round8 amt)) j1 in
             let b := head_base j2 + head_next j2 in
             let j' := set_mem (memset0 (Z.to_nat (round8 amt)) (mem j2) b) j2 in
             root j' = root j /\ reuse j' = reuse j /\ level j' = level j /\
             stack j' = stack j /\ max j' = max j /\ depth j' = depth j /\
             forall a, load8 (mem j') a
                       = if (b <=? a) && (a <? b + Z.of_nat (Z.to_nat (round8 amt)))
                         then 0 else load8 (mem j) a).
  { intros j1 H1 H2 H3 H4 H5 H6 H7. cbv zeta.
    assert (Hh : forall v, root (set_head_next v j1) = root j1 /\
                           reuse (set_head_next v j1) = reuse j1 /\
                           level (set_head_next v j1) = level j1 /\
                           stack (set_head_next v j1) = stack j1 /\
                           max (set_head_next v j1) = max j1 /\
                           depth (set_head_next v j1) = depth j1 /\
                           mem (set_head_next v j1) = mem j1).
    { intros v. unfold set_head_next. destruct (seg j1); repeat split; reflexivity. }
    destruct (Hh (u32 (head_next j1 - round8 amt))) as (E1 & E2 & E3 & E4 & E5 & E6 & E7).
    cbn [root reuse level stack max depth mem set_mem].
    rewrite E1, E2, E3, E4, E5, E6, E7, H1, H2, H3, H4, H5, H6, H7.
    repeat (split; [reflexivity|]).
    intros a. rewrite load8_memset0. reflexivity. }
  destruct (head_next j <? round8 amt + sizeof_JudySeg).
  - unfold new_segment. destruct (heap j) as [|a h]; [left; reflexivity|].
    right. cbv zeta. cbn [fst snd]. apply Hg; reflexivity.
  - right. cbv zeta. cbn [fst snd]. apply Hg; reflexivity.
Qed.

Lemma load_le_shift n : forall m m' a a',
  (forall i, 0 <= i < Z.of_nat n -> load8 m' (a' + i) = load8 m (a + i)) ->
  load_le n m' a' = load_le n m a.
Proof.
  induction n as [|n IH]; intros m m' a a' H; [reflexivity|].
  cbn [load_le]. pose proof (H 0 ltac:(lia)) as H0. rewrite !Z.add_0_r in H0.
  rewrite H0. f_equal. f_equal. apply IH. intros i Hi.
  replace (a' + 1 + i) with (a' + (1 + i)) by lia.
  replace (a + 1 + i) with (a + (1 + i)) by lia. apply H. lia.
Qed.

Lemma bytes_load n : forall m a,
  bytes (load_bytes n m a) ->
  forall i, 0 <= i < Z.of_nat n -> 0 <= load8 m (a + i) < 256.
Proof.
  unfold bytes. induction n as [|n IH]; intros m a Hb i Hi; [lia|].
  cbn [load_bytes forallb] in Hb. apply andb_true_iff in Hb. destruct Hb as [H0 Hb].
  destruct (Z.eq_dec i 0) as [->|Hne].
  - rewrite Z.add_0_r. unfold is_byte in H0. lia.
  - replace (a + i) with (a + 1 + (i - 1)) by lia. apply IH; [exact Hb|lia].
Qed.

(** X10: when the block for the copy could be allocated away from the
    original's root slot, [judy_clone] yields a second handle on the same
    trie: both handles see one memory, their root slots hold what the
    original's held, so they have the same keys and cells; the clone has
    the original's cursor and bounds, and it owns no segment: it cannot
    allocate, and closing it frees nothing. *)
Theorem clone_is_second_handle N cfg (j : Judy) :
  0 <= max j < 2 ^ 27 ->
  fst (judy_data (sizeof_Judy + max j * sizeof_JudyStack) j) <> 0 ->
  (fst (judy_data (sizeof_Judy + max j * sizeof_JudyStack) j)
     + round8 (sizeof_Judy + max j * sizeof_JudyStack) <= root j \/
   root j + 8 <= fst (judy_data (sizeof_Judy + max j * sizeof_JudyStack) j)) ->
  bytes (load_bytes 8 (mem j) (root j)) ->
  let cl := fst (judy_clone j) in
  let j' := snd (judy_clone j) in
  root cl = fst (judy_data (sizeof_Judy + max j * sizeof_JudyStack) j) /\
  mem cl = mem j' /\
  root_slot cl = root_slot j /\ root_slot j' = root_slot j /\
  all_keys N cfg cl = all_keys N cfg j' /\ wf_trie N cfg cl = wf_trie N cfg j' /\
  level cl = level j /\ stack cl = stack j /\ max cl = max j /\ depth cl = depth j /\
  (forall t, judy_alloc cfg t cl = (0, cl)) /\
  (forall a, judy_data a cl = (0, cl)) /\
  judy_close cl = [].
Proof.
  intros Hmx Hc Hdis Hby cl j'. subst cl j'. unfold judy_clone.
  unfold sizeof_Judy, sizeof_JudyStack in *.
  rewrite (u32_small (112 + max j * 16)) by lia.
  set (amt := 112 + max j * 16) in *.
  pose proof (round8_ge amt ltac:(lia) ltac:(lia)) as Hr8.
  destruct (judy_data_effect amt j) as [Hz|He].
  { rewrite Hz in Hc. cbn [fst] in Hc. contradiction. }
  cbv zeta in He. destruct (judy_data amt j) as [c j1]. cbn [fst snd] in *.
  destruct He as (E1 & E2 & E3 & E4 & E5 & E6 & Hmem).
  rewrite Z2Nat.id in Hmem by lia.
  set (m := memcpy (mem j1) c (root j1) amt).
  assert (Hm : forall a, load8 m a
                 = if (c <=? a) && (a <? c + amt)
                   then u8 (load8 (mem j1) (root j1 + (a - c))) else load8 (mem j1) a).
  { intros a. unfold m. apply load8_memcpy. lia. }
  assert (Hout : forall i, 0 <= i < 8 -> load8 (mem j1) (root j + i) = load8 (mem j) (root j + i)).
  { intros i Hi. rewrite Hmem.
    destruct (Z.leb_spec c (root j + i));
      destruct (Z.ltb_spec (root j + i) (c + round8 amt)); cbn [andb];
      try reflexivity. lia. }
  assert (Hrc : load64 m c = root_slot j).
  { unfold root_slot, load64. apply load_le_shift. intros i Hi.
    change (Z.of_nat 8) with 8 in Hi. rewrite Hm.
    destruct (Z.leb_spec c (c + i)); [|lia].
    destruct (Z.ltb_spec (c + i) (c + amt)); [|lia]. cbn [andb].
    replace (root j1 + (c + i - c)) with (root j + i) by lia.
    rewrite Hout by lia. pose proof (bytes_load 8 (mem j) (root j) Hby i Hi).
    unfold u8. apply Z.mod_small. lia. }
  assert (Hrj : load64 m (root j) = root_slot j).
  { unfold root_slot, load64. apply load_le_shift. intros i Hi.
    change (Z.of_nat 8) with 8 in Hi. rewrite Hm.
    destruct (Z.leb_spec c (root j + i));
      destruct (Z.ltb_spec (root j + i) (c + amt)); cbn [andb];
      try (apply Hout; lia). lia. }
  cbn [root mem set_mem level stack max depth].
  split; [reflexivity|]. split; [reflexivity|].
  unfold root_slot at 1 3. cbn [root mem set_mem]. rewrite E1.
  split; [exact Hrc|]. split; [exact Hrj|].
  split.
  { unfold all_keys, root_slot. cbn [root mem set_mem]. rewrite E1, Hrc.
    fold m. rewrite Hrj. apply keys_same; reflexivity. }
  split.
  { unfold wf_trie, root_slot. cbn [root mem set_mem depth]. rewrite E1, Hrc.
    fold m. rewrite Hrj. f_equal. f_equal. apply wf_same; reflexivity. }
  split; [exact E3|]. split; [exact E4|]. split; [exact E5|]. split; [exact E6|].
  split; [intros t; reflexivity|]. split; [intros a; reflexivity|]. reflexivity.
Qed.

Lemma clone_is_second_handle_witness :
  (0 <= max (trie3 cfg_lp64) < 2 ^ 27 /\
   fst (judy_data (sizeof_Judy + max (trie3 cfg_lp64) * sizeof_JudyStack) (trie3 cfg_lp64))
   <> 0 /\
   bytes (load_bytes 8 (mem (trie3 cfg_lp64)) (root (trie3 cfg_lp64)))) /\
  all_keys 4 cfg_lp64 (fst (judy_clone (trie3 cfg_lp64)))
  = all_keys 4 cfg_lp64 (snd (judy_clone (trie3 cfg_lp64))).
Proof.
  assert (Hm : 0 <= max (trie3 cfg_lp64) < 2 ^ 27)
    by (vm_compute; split; [discriminate | reflexivity]).
  assert (Hc : fst (judy_data (sizeof_Judy + max (trie3 cfg_lp64) * sizeof_JudyStack)
                      (trie3 cfg_lp64)) <> 0) by (vm_compute; discriminate).
  assert (Hd : fst (judy_data (sizeof_Judy + max (trie3 cfg_lp64) * sizeof_JudyStack)
                      (trie3 cfg_lp64))
               + round8 (sizeof_Judy + max (trie3 cfg_lp64) * sizeof_JudyStack)
               <= root (trie3 cfg_lp64) \/
               root (trie3 cfg_lp64) + 8
               <= fst (judy_data (sizeof_Judy + max (trie3 cfg_lp64) * sizeof_JudyStack)
                         (trie3 cfg_lp64))).
  { left. vm_compute. discriminate. }
  assert (Hb : bytes (load_bytes 8 (mem (trie3 cfg_lp64)) (root (trie3 cfg_lp64))))
    by (vm_compute; reflexivity).
  split; [exact (conj Hm (conj Hc Hb))|].
  exact (proj1 (proj2 (proj2 (proj2 (proj2
    (clone_is_second_handle 4 cfg_lp64 (trie3 cfg_lp64) Hm Hc Hd Hb)))))).
Defined.

(** ** Keys that are not in the trie *)

Lemma tag_range next : 0 <= tag_of next <= 7.
Proof.
  unfold tag_of. rewrite land7.
  pose proof (Z.mod_pos_bound next 8 ltac:(lia)). lia.
Qed.

Lemma lin_size cfg next :
  is_lin next ->
  16 <= JudySize cfg (tag_of next) <= 512 /\ JudySize cfg (tag_of next) mod 16 = 0.
Proof.
  intros [Hr Hs]. pose proof (tag_range next) as Ht.
  unfold JUDY_radix, JUDY_span in *.
  assert (Hc : tag_of next = 1 \/ tag_of next = 2 \/ tag_of next = 3 \/
               tag_of next = 4 \/ tag_of next = 5 \/ tag_of next = 6) by lia.
  destruct Hc as [->|[->|[->|[->|[->| ->]]]]];
    cbv [JudySize JUDY_slot_size JUDY_key_size Z.eqb Pos.eqb Z.mul Z.add Pos.mul Pos.add
         Pos.succ Pos.add_carry];
    (split; [lia|reflexivity]).
Qed.

(** how many slots a linear node has, and where they lie in its block *)
Lemma lin_layout cfg next off :
  is_lin next ->
  let size := JudySize cfg (tag_of next) in
  let ks := lin_ks off in
  let cnt := lin_cnt cfg next off in
  1 <= cnt /\ cnt * (8 + ks) <= size /\ size < (cnt + 1) * (8 + ks).
Proof.
  intros Hlin size ks cnt. pose proof (lin_size cfg next Hlin) as [Hsz _].
  fold size in Hsz. pose proof (lin_ks_range off) as Hks. fold ks in Hks.
  unfold cnt, lin_cnt. fold size ks.
  pose proof (Z.div_mod size (8 + ks) ltac:(lia)) as Hd.
  pose proof (Z.mod_pos_bound size (8 + ks) ltac:(lia)) as Hm.
  assert (1 <= size / (8 + ks)).
  { apply Z.div_le_lower_bound; lia. }
  split; [lia|]. split; nia.
Qed.

(** what the search loop of a linear node ends with *)
Lemma scan_down_result m base ks v n : forall s test,
  0 < s -> (Z.to_nat s < n)%nat ->
  let r := scan_down n m base ks v s test in
  (0 <= fst r < s /\
   snd r = Z.land (load64 m (base + fst r * ks)) (JudyMask ks) /\ snd r <= v) \/
  (fst r = -1 /\ v < snd r).
Proof.
  induction n as [|n IH]; intros s test Hs Hn; [lia|].
  cbn [scan_down]. destruct (Z.eqb_spec s 0) as [H0|_]; [lia|]. cbv zeta.
  destruct (Z.leb_spec (Z.land (load64 m (base + (s - 1) * ks)) (JudyMask ks)) v)
    as [Hle|Hgt].
  - left. cbn [fst snd]. split; [lia|]. split; [reflexivity|exact Hle].
  - destruct (Z.eq_dec s 1) as [->|Hne].
    + right. destruct n as [|n]; [lia|]. cbn [scan_down]. change (1 - 1) with 0.
      cbn [Z.eqb fst snd]. split; [reflexivity|exact Hgt].
    + specialize (IH (s - 1)
                    (Z.land (load64 m (base + (s - 1) * ks)) (JudyMask ks))
                    ltac:(lia) ltac:(lia)).
      cbv zeta in IH. destruct IH as [(H1 & H2 & H3)|H]; [left|right; exact H].
      split; [lia|]. split; assumption.
Qed.

(** [strncmp] finds two strings equal only if they are, when the second
    has no terminator within the bytes compared *)
Lemma strncmp_zero m buff (n : nat) : forall fuel base off,
  (n <= fuel)%nat ->
  (forall i, 0 <= i < Z.of_nat n -> buf_get buff (off + i) <> 0) ->
  strncmp fuel m base buff off (Z.of_nat n) = 0 ->
  forall i, 0 <= i < Z.of_nat n -> load8 m (base + i) = buf_get buff (off + i).
Proof.
  induction n as [|n IH]; intros fuel base off Hf Hnz Hc i Hi; [lia|].
  destruct fuel as [|fuel]; [lia|]. cbn [strncmp] in Hc.
  destruct (Z.eqb_spec (Z.of_nat (S n)) 0); [lia|].
  destruct (Z.eqb_spec (load8 m base) (buf_get buff off)) as [He|Hne];
    cbn [negb] in Hc; [|lia].
  destruct (Z.eqb_spec (load8 m base) 0) as [Hz|Hnz0].
  { exfalso. apply (Hnz 0 ltac:(lia)). rewrite Z.add_0_r. lia. }
  destruct (Z.eq_dec i 0) as [->|Hi0]; [rewrite !Z.add_0_r; exact He|].
  replace (Z.of_nat (S n) - 1) with (Z.of_nat n) in Hc by lia.
  replace (base + i) with (base + 1 + (i - 1)) by lia.
  replace (off + i) with (off + 1 + (i - 1)) by lia.
  apply (IH fuel (base + 1) (off + 1)); [lia| |exact Hc|lia].
  intros x Hx. replace (off + 1 + x) with (off + (x + 1)) by lia. apply Hnz. lia.
Qed.

Lemma map_load_bytes (f : Z -> Z) m (n : nat) : forall off a,
  (forall i, 0 <= i < Z.of_nat n -> f (off + i) = load8 m (a + i)) ->
  List.map f (seqZ off (Z.of_nat n)) = load_bytes n m a.
Proof.
  induction n as [|n IH]; intros off a H; [reflexivity|].
  rewrite seqZ_cons' by lia. cbn [List.map load_bytes].
  pose proof (H 0 ltac:(lia)) as H0. rewrite !Z.add_0_r in H0. rewrite H0. f_equal.
  replace (Z.of_nat (S n) - 1) with (Z.of_nat n) by lia.
  apply IH. intros i Hi.
  replace (off + 1 + i) with (off + (i + 1)) by lia.
  replace (a + 1 + i) with (a + (i + 1)) by lia. apply H. lia.
Qed.

(** after the first zero byte of valid bytes there are only zeros *)
Lemma valid_bytes_tail bs : forall t,
  valid_bytes bs = true -> (t < length bs)%nat -> nth t bs 0 = 0 ->
  forall i, (t <= i)%nat -> nth i bs 0 = 0.
Proof.
  unfold valid_bytes. induction bs as [|b bs IH]; intros t Hv Ht H0 i Hi.
  - destruct i; reflexivity.
  - cbn [strip0] in Hv. destruct (Z.eqb_spec b 0) as [Hb|Hb].
    + cbn [length drop] in Hv. rewrite forallb_forall in Hv.
      destruct (Nat.lt_ge_cases i (length (b :: bs))) as [Hlt|Hge].
      * specialize (Hv (nth i (b :: bs) 0) (nth_In _ _ Hlt)).
        apply Z.eqb_eq in Hv. exact Hv.
      * apply nth_overflow. exact Hge.
    + cbn [length drop] in Hv. destruct t as [|t]; [cbn [nth] in H0; lia|].
      destruct i as [|i]; [lia|]. cbn [nth length] in *.
      apply (IH t); [exact Hv|lia|exact H0|lia].
Qed.

Lemma strip0_app_zero a b : ~ In 0 a -> strip0 (a ++ 0 :: b) = a.
Proof.
  induction a as [|x a IH]; intros H; [reflexivity|].
  cbn [app strip0]. destruct (Z.eqb_spec x 0) as [Hx|Hx].
  - exfalso. apply H. left. exact Hx.
  - f_equal. apply IH. intros Hin. apply H. right. exact Hin.
Qed.

Lemma map_seqZ_app {A : Type} (f : Z -> A) off a b :
  0 <= a -> 0 <= b ->
  List.map f (seqZ off (a + b)) = List.map f (seqZ off a) ++ List.map f (seqZ (off + a) b).
Proof. intros Ha Hb. rewrite seqZ_app by lia. apply List.map_app. Qed.

(** the key from a node on, when its next bytes are those of a slot *)
Lemma key_split k cfg V buff kmax next off dpt lvl si :
  wf (S k) cfg V next off dpt lvl = true ->
  In si (node_slots cfg V next off dpt) ->
  0 <= depth V -> (depth V = 0 -> off <= kmax) -> no_zero V buff kmax ->
  List.map (key_at V buff kmax) (seqZ off (Z.of_nat (length (si_bytes si))))
  = si_bytes si ->
  (depth V = 0 ->
   if si_leaf si then kmax - off < Z.of_nat (length (si_bytes si))
   else Z.of_nat (length (si_bytes si)) <= kmax - off) ->
  key_from V buff kmax off
  = contrib V (si_bytes si)
    ++ (if si_leaf si then [] else key_from V buff kmax (child_off cfg next off)) /\
  (si_leaf si = false -> depth V = 0 -> child_off cfg next off <= kmax).
Proof.
  intros Hw Hin Hd0 Hk Hnz Hm Hlen.
  pose proof (child_off_len k cfg V next off dpt lvl si Hw Hin) as Hco.
  pose proof (slot_bytes_pos k cfg V next off dpt lvl si Hw Hin) as Hpos.
  pose proof Hw as Hw'. apply wf_S in Hw'.
  destruct Hw' as (_ & _ & _ & Hoff & Hlt & Hdp & Hdd & HS & _ & _ & Hspan & _).
  set (L := Z.of_nat (length (si_bytes si))) in *.
  unfold key_from, contrib, key_end. rewrite Hco.
  destruct (Z.eqb_spec (depth V) 0) as [Hd|Hd].
  - specialize (Hk Hd). specialize (Hlen Hd). specialize (Hnz Hd).
    unfold key_at in *. rewrite Hd in *. cbn [Z.eqb] in *.
    destruct (si_leaf si) eqn:Hleaf.
    + rewrite app_nil_r. split; [|discriminate].
      replace L with ((kmax - off) + (1 + (L - (kmax - off) - 1))) in Hm by lia.
      rewrite map_seqZ_app in Hm by lia.
      rewrite (seqZ_cons' (off + (kmax - off))) in Hm by lia.
      cbn [List.map] in Hm. unfold str_byte at 2 in Hm.
      destruct (Z.ltb_spec (off + (kmax - off)) kmax); [lia|].
      rewrite <- Hm. rewrite strip0_app_zero; [reflexivity|].
      intros H0. apply in_map_iff in H0. destruct H0 as (i & Hi & Hin').
      apply In_seqZ in Hin'. unfold str_byte in Hi.
      destruct (Z.ltb_spec i kmax); [|lia]. apply (Hnz i); [lia|exact Hi].
    + split; [|intros _ _; lia].
      assert (Hid : strip0 (si_bytes si) = si_bytes si).
      { apply strip0_id. rewrite <- Hm. intros H0.
        apply in_map_iff in H0. destruct H0 as (i & Hi & Hin').
        apply In_seqZ in Hin'. unfold str_byte in Hi.
        destruct (Z.ltb_spec i kmax); [|lia]. apply (Hnz i); [lia|exact Hi]. }
      rewrite Hid. rewrite <- Hm at 1.
      replace (kmax - off) with (L + (kmax - (off + L))) at 1 by lia.
      rewrite map_seqZ_app by lia. reflexivity.
  - assert (Hdv : 0 < depth V) by lia.
    destruct Hdd as [Hdd|Hdd]; [contradiction|].
    unfold dpt_at in Hdp. apply Z.eqb_neq in Hd. rewrite Hd in Hdp.
    unfold JUDY_key_size in *. rewrite ?Hd.
    pose proof (Z.div_mod off 8 ltac:(lia)) as Hdm.
    pose proof (Z.mod_pos_bound off 8 ltac:(lia)) as Hmb.
    assert (HL : off + L <= 8 * depth V /\ (si_leaf si = true -> off + L = 8 * depth V)).
    { destruct (tag_cases next) as [Hr|[Hs|Hlin]].
      - rewrite node_slots_rad in Hin by exact Hr.
        apply rad_slots_in in Hin; [|lia]. destruct Hin as (b & _ & _ & ->).
        subst L. cbn [si_bytes rad_info length si_leaf] in *.
        change (Z.of_nat 1) with 1 in *. split; [lia|].
        unfold is_leaf_slot, rad_dpt. rewrite Hd. cbn [negb andb orb].
        unfold JUDY_key_mask. rewrite u32_small by lia. rewrite land7.
        destruct (Z.eqb_spec ((off + 1) mod 8) 0) as [Hz|Hz];
          intros Hl; apply Z.eqb_eq in Hl; [|lia].
        rewrite u32_small in Hl by lia.
        pose proof (Z.div_mod (off + 1) 8 ltac:(lia)) as Hdm1.
        assert ((off + 1) / 8 = off / 8 + 1).
        { symmetry. apply (Z.div_unique (off + 1) 8 (off / 8 + 1) 0); lia. }
        lia.
      - specialize (Hspan Hs). apply Z.eqb_neq in Hd. contradiction.
      - rewrite node_slots_lin in Hin by exact Hlin. apply lin_slots_in in Hin.
        destruct Hin as (i & _ & ->).
        subst L. cbn [si_bytes lin_info si_leaf] in *.
        pose proof (lin_ks_range off) as Hks.
        rewrite key_bytes_length in * by lia. rewrite lin_ks_mod in *.
        split; [lia|].
        unfold is_leaf_key. rewrite Hd. cbn [fst].
        intros Hl. apply Z.eqb_eq in Hl. rewrite u32_small in Hl by lia. lia. }
    destruct HL as [HL1 HL2].
    split; [|intros _ H0; apply Z.eqb_neq in Hd; contradiction].
    unfold key_at in *. rewrite Hd in *.
    rewrite <- Hm at 1.
    replace (8 * depth V - off) with (L + (8 * depth V - (off + L))) at 1 by lia.
    rewrite map_seqZ_app by lia. f_equal.
    destruct (si_leaf si); [|reflexivity].
    rewrite (HL2 eq_refl). rewrite seqZ_nil' by lia. reflexivity.
Qed.

Lemma key_at_byte V buff kmax i : bytes buff -> 0 <= key_at V buff kmax i < 256.
Proof.
  intros Hb. unfold key_at, str_byte, fix_byte.
  destruct (depth V =? 0); [destruct (i <? kmax); [|lia]|]; apply buf_get_byte, Hb.
Qed.

Lemma land15 x : Z.land x 15 = x mod 16.
Proof. change 15 with (Z.ones 4). rewrite Z.land_ones by lia. reflexivity. Qed.

(** a radix pair without the byte of the key *)
Lemma slot_turn_rad_miss cfg fuel buff kmax j next off dpt test b off' :
  tag_of next = JUDY_radix -> level j < max j ->
  (if negb (depth j =? 0)
   then (Z.land (shr64 (src_get buff dpt)
                   ((JUDY_key_size - Z.land (u32 (off + 1)) JUDY_key_mask) * 8)) 255,
         u32 (off + 1))
   else if off <? kmax then (buf_get buff off, u32 (off + 1)) else (0, off))
  = (b, off') ->
  rad_used (mem j) next b = false -> null_page_clear j ->
  slot_miss j (judy_slot_turn cfg fuel buff kmax (mkWalk next off dpt test) j).
Proof.
  intros Hr Hl Hv Hu Hnull. unfold judy_slot_turn. rewrite push_level_lt by exact Hl.
  cbn [w_next w_off w_depth w_test]. rewrite Hr.
  change (JUDY_radix =? JUDY_radix) with true. cbv iota. see_through.
  rewrite Hv. see_through.
  destruct (Z.eqb_spec (load64 (mem j) (base_of next + 8 * Z.shiftr b 4)) 0) as [He|Hne].
  { cbn [slot_miss]. left. reflexivity. }
  assert (Hc : load64 (mem j)
                 (base_of (load64 (mem j) (base_of next + 8 * Z.shiftr b 4))
                  + 8 * Z.land b 15) = 0).
  { unfold rad_used, rad_cell, rad_inner in Hu.
    apply andb_false_iff in Hu. destruct Hu as [Hu|Hu].
    - apply negb_false_iff, Z.eqb_eq in Hu. rewrite Hu.
      apply load64_zero. intros i Hi. apply Hnull.
      rewrite land15 in Hi. pose proof (Z.mod_pos_bound b 16 ltac:(lia)). lia.
    - apply negb_false_iff, Z.eqb_eq in Hu. exact Hu. }
  rewrite Hc. cbn [Z.eqb negb].
  match goal with |- context [if ?c then _ else _] => destruct c end; cbn [slot_miss w_next].
  - left. reflexivity.
  - reflexivity.
Qed.

Lemma slot_cases_rad k cfg fuel buff kmax j next off dpt test :
  wf (S k) cfg (view j) next off dpt (level j) = true ->
  tag_of next = JUDY_radix ->
  bytes buff -> (depth j = 0 -> off <= kmax < 2 ^ 31) ->
  no_zero (view j) buff kmax -> null_page_clear j ->
  (exists si, In si (node_slots cfg (view j) next off dpt) /\
     List.map (key_at (view j) buff kmax) (seqZ off (Z.of_nat (length (si_bytes si))))
     = si_bytes si /\
     (depth j = 0 ->
      if si_leaf si then kmax - off < Z.of_nat (length (si_bytes si))
      else Z.of_nat (length (si_bytes si)) <= kmax - off)) \/
  slot_miss j (judy_slot_turn cfg fuel buff kmax (mkWalk next off dpt test) j).
Proof.
  intros Hw Hr Hbuf Hk Hnz Hnull.
  pose proof Hw as Hw'. apply wf_S in Hw'.
  destruct Hw' as (_ & Hl & _ & Hoff & Hlt & Hdp & _ & HS & _).
  assert (Hl' : level j < max j) by apply Hl.
  set (b := key_at (view j) buff kmax off).
  pose proof (key_at_byte (view j) buff kmax off Hbuf) as Hb. fold b in Hb.
  destruct (rad_used (mem j) next b) eqn:Hu.
  - left. exists (rad_info (view j) next off dpt b).
    split.
    { rewrite node_slots_rad by exact Hr. apply rad_slots_in; [lia|].
      exists b. split; [lia|]. split; [exact Hu|reflexivity]. }
    cbn [si_bytes rad_info length si_leaf]. change (Z.of_nat 1) with 1. split.
    { rewrite seqZ_cons', seqZ_nil' by lia. reflexivity. }
    intros Hd. specialize (Hk Hd). specialize (Hnz Hd).
    unfold is_leaf_slot. change (depth (view j)) with (depth j). rewrite Hd.
    cbn [Z.eqb andb negb orb]. rewrite orb_false_r.
    unfold b, key_at, str_byte in *. change (depth (view j)) with (depth j) in *.
    rewrite Hd in *. cbn [Z.eqb] in *.
    destruct (Z.ltb_spec off kmax) as [Hlt'|Hge].
    + destruct (Z.eqb_spec (buf_get buff off) 0) as [Hz|Hz]; [|lia].
      exfalso. apply (Hnz off); [lia|exact Hz].
    + cbn [Z.eqb]. lia.
  - right.
    apply (slot_turn_rad_miss cfg fuel buff kmax j next off dpt test b
             (if negb (depth j =? 0) then u32 (off + 1)
              else if off <? kmax then u32 (off + 1) else off));
      [exact Hr|exact Hl'| |exact Hu|exact Hnull].
    unfold b, key_at, str_byte. change (depth (view j)) with (depth j).
    destruct (Z.eqb_spec (depth j) 0) as [Hd|Hd]; cbn [negb].
    + destruct (off <? kmax); reflexivity.
    + unfold dpt_at in Hdp. change (depth (view j)) with (depth j) in Hdp.
      apply Z.eqb_neq in Hd. rewrite Hd in Hdp. unfold JUDY_key_size in Hdp.
      rewrite Hdp, digit_byte by (try assumption; lia). reflexivity.
Qed.

Lemma slot_cases_span k cfg fuel buff kmax j next off dpt test :
  wf (S k) cfg (view j) next off dpt (level j) = true ->
  tag_of next = JUDY_span ->
  bytes buff -> (depth j = 0 -> off <= kmax < 2 ^ 31) ->
  no_zero (view j) buff kmax ->
  (Z.to_nat (JUDY_span_bytes cfg) <= fuel)%nat ->
  (exists si, In si (node_slots cfg (view j) next off dpt) /\
     List.map (key_at (view j) buff kmax) (seqZ off (Z.of_nat (length (si_bytes si))))
     = si_bytes si /\
     (depth j = 0 ->
      if si_leaf si then kmax - off < Z.of_nat (length (si_bytes si))
      else Z.of_nat (length (si_bytes si)) <= kmax - off)) \/
  slot_miss j (judy_slot_turn cfg fuel buff kmax (mkWalk next off dpt test) j).
Proof.
  intros Hw Hs Hbuf Hk Hnz Hfuel.
  pose proof Hw as Hw'. apply wf_S in Hw'.
  destruct Hw' as (_ & Hl & _ & Hoff & Hlt & Hdp & _ & HS & _ & Hsl & Hspan & _).
  assert (Hl' : level j < max j) by apply Hl.
  specialize (Hspan Hs). change (depth (view j)) with (depth j) in Hspan.
  specialize (Hk Hspan). specialize (Hnz Hspan).
  assert (Hin : In (span_info cfg (view j) next) (node_slots cfg (view j) next off dpt)).
  { rewrite node_slots_span by exact Hs. left. reflexivity. }
  destruct (Hsl _ Hin) as (_ & _ & Hval & _).
  destruct Hval as [Hval|Hval]; [change (depth (view j)) with (depth j) in Hval; lia|].
  cbn [si_bytes span_info] in Hval. change (mem (view j)) with (mem j) in Hval.
  set (S := JUDY_span_bytes cfg) in *. set (base := base_of next) in *.
  set (d := kmax - off).
  set (tst := if d <? S then d else S).
  set (value := strncmp fuel (mem j) base buff off (u64 tst)).
  assert (Hturn : judy_slot_turn cfg fuel buff kmax (mkWalk next off dpt test) j
                  = if (value =? 0) && (tst <? S) && (load8 (mem j) (base + tst) =? 0)
                    then Return (base + JudySize cfg JUDY_span - 8)
                           (set_frame_off off (set_frame_next next (set_level (level j + 1) j)))
                    else if (value =? 0) && (tst =? S)
                    then Continue (mkWalk (load64 (mem j) (base + JudySize cfg JUDY_span - 8))
                                     (u32 (off + S)) dpt test)
                           (set_frame_off off (set_frame_next next (set_level (level j + 1) j)))
                    else Return 0
                           (set_frame_off off (set_frame_next next (set_level (level j + 1) j)))).
  { unfold judy_slot_turn. rewrite push_level_lt by exact Hl'.
    cbn [w_next w_off w_depth w_test]. rewrite Hs.
    change (JUDY_span =? JUDY_radix) with false.
    change (JUDY_span =? JUDY_span) with true. cbv iota. see_through.
    rewrite s32_small by (unfold d in *; lia). reflexivity. }
  assert (Hmatch : (forall i, 0 <= i < S ->
                      load8 (mem j) (base + i) = str_byte buff kmax (off + i)) ->
            List.map (key_at (view j) buff kmax)
              (seqZ off (Z.of_nat (length (si_bytes (span_info cfg (view j) next)))))
            = si_bytes (span_info cfg (view j) next)).
  { intros H. cbn [si_bytes span_info]. rewrite load_bytes_length.
    change (mem (view j)) with (mem j). fold S base.
    apply map_load_bytes. intros i Hi. rewrite H by lia.
    unfold key_at. change (depth (view j)) with (depth j). rewrite Hspan. reflexivity. }
  destruct (Z.ltb_spec d S) as [Hd|Hd].
  - (* the key ends within the span *)
    assert (Ht : tst = d) by (unfold tst; destruct (Z.ltb_spec d S); [reflexivity|lia]).
    destruct (Z.eqb_spec value 0) as [Hv|Hv].
    2:{ right. rewrite Hturn. cbn [andb slot_miss]. left. reflexivity. }
    destruct (Z.eqb_spec (load8 (mem j) (base + tst)) 0) as [Hz|Hz].
    2:{ right. rewrite Hturn. rewrite andb_false_r. cbn [andb].
        destruct (Z.eqb_spec tst S); [lia|]. cbn [slot_miss]. left. reflexivity. }
    left. exists (span_info cfg (view j) next). split; [exact Hin|].
    assert (Hall : forall i, 0 <= i < S ->
              load8 (mem j) (base + i) = str_byte buff kmax (off + i)).
    { intros i Hi. unfold str_byte. destruct (Z.ltb_spec (off + i) kmax) as [Hlo|Hhi].
      - unfold value in Hv. rewrite Ht, u64_small in Hv by (unfold d in *; lia).
        rewrite <- (Z2Nat.id d) in Hv by (unfold d; lia).
        apply (strncmp_zero (mem j) buff (Z.to_nat d) fuel base off);
          [unfold d in *; lia| |exact Hv|unfold d in *; lia].
        intros x Hx. apply Hnz. unfold d in *. lia.
      - pose proof (valid_bytes_tail _ (Z.to_nat d) Hval
                      ltac:(rewrite load_bytes_length; unfold d in *; lia)) as Htail.
        rewrite load_bytes_nth in Htail by (unfold d in *; lia).
        rewrite Z2Nat.id in Htail by (unfold d; lia). rewrite Ht in Hz.
        specialize (Htail Hz (Z.to_nat i) ltac:(unfold d in *; lia)).
        rewrite load_bytes_nth in Htail by lia.
        rewrite Z2Nat.id in Htail by lia. exact Htail. }
    split; [apply Hmatch, Hall|].
    intros _. cbn [si_leaf si_bytes span_info]. rewrite load_bytes_length.
    change (mem (view j)) with (mem j). fold S base.
    replace (base + S - 1) with (base + (S - 1)) by lia.
    rewrite Hall by lia. unfold str_byte.
    destruct (Z.ltb_spec (off + (S - 1)) kmax); [unfold d in *; lia|].
    cbn [Z.eqb]. unfold d in *. lia.
  - (* the key goes on past the span *)
    assert (Ht : tst = S) by (unfold tst; destruct (Z.ltb_spec d S); [lia|reflexivity]).
    destruct (Z.eqb_spec value 0) as [Hv|Hv].
    2:{ right. rewrite Hturn. cbn [andb slot_miss]. left. reflexivity. }
    left. exists (span_info cfg (view j) next). split; [exact Hin|].
    assert (Hall : forall i, 0 <= i < S ->
              load8 (mem j) (base + i) = str_byte buff kmax (off + i)).
    { intros i Hi. unfold str_byte.
      destruct (Z.ltb_spec (off + i) kmax) as [Hlo|Hhi]; [|unfold d in *; lia].
      unfold value in Hv. rewrite Ht, u64_small in Hv by lia.
      rewrite <- (Z2Nat.id S) in Hv by lia.
      apply (strncmp_zero (mem j) buff (Z.to_nat S) fuel base off);
        [lia| |exact Hv|lia].
      intros x Hx. apply Hnz. unfold d in *. lia. }
    split; [apply Hmatch, Hall|].
    intros _. cbn [si_leaf si_bytes span_info]. rewrite load_bytes_length.
    change (mem (view j)) with (mem j). fold S base.
    replace (base + S - 1) with (base + (S - 1)) by lia.
    rewrite Hall by lia. unfold str_byte.
    destruct (Z.ltb_spec (off + (S - 1)) kmax); [|unfold d in *; lia].
    destruct (Z.eqb_spec (buf_get buff (off + (S - 1))) 0) as [Hz|Hz]; [|unfold d in *; lia].
    exfalso. apply (Hnz (off + (S - 1))); [unfold d in *; lia|exact Hz].
Qed.

(** a linear node without the digit of the key *)
Lemma slot_turn_lin_miss cfg fuel buff kmax j next off dpt test i t value off' dpt' :
  is_lin next -> level j < max j ->
  (if negb (depth j =? 0)
   then (Z.land (src_get buff dpt) (JudyMask (lin_ks off)),
         u32 (Z.lor off JUDY_key_mask + 1), u32 (dpt + 1))
   else (let '(v, o) := key_digit 8 buff kmax off 0 in (v, o, dpt)))
  = (value, off', dpt') ->
  scan_down (S (Z.to_nat (lin_cnt cfg next off))) (mem j) (base_of next)
    (lin_ks off) value (lin_cnt cfg next off) test = (i, t) ->
  t <> value ->
  slot_miss j (judy_slot_turn cfg fuel buff kmax (mkWalk next off dpt test) j).
Proof.
  intros [Hr Hs] Hl Hv Hscan Hne. unfold judy_slot_turn. rewrite push_level_lt by exact Hl.
  cbn [w_next w_off w_depth w_test].
  apply Z.eqb_neq in Hr. apply Z.eqb_neq in Hs. rewrite Hr, Hs.
  see_through. unfold lin_cnt, lin_ks in *.
  rewrite Hv. rewrite Hscan. apply Z.eqb_neq in Hne. rewrite Hne.
  cbn [slot_miss]. left. reflexivity.
Qed.

(** the digit of the key at a linear node, as the code computes it *)
Lemma lin_digit k cfg buff kmax j next off dpt lvl :
  wf (S k) cfg (view j) next off dpt lvl = true -> bytes buff ->
  (if negb (depth j =? 0)
   then (Z.land (src_get buff dpt) (JudyMask (lin_ks off)),
         u32 (Z.lor off JUDY_key_mask + 1), u32 (dpt + 1))
   else (let '(v, o) := key_digit 8 buff kmax off 0 in (v, o, dpt)))
  = (be_val (List.map (key_at (view j) buff kmax) (seqZ off (lin_ks off))),
     (if negb (depth j =? 0) then u32 (Z.lor off JUDY_key_mask + 1) else off + lin_ks off),
     (if negb (depth j =? 0) then u32 (dpt + 1) else dpt)).
Proof.
  intros Hw Hbuf. apply wf_S in Hw.
  destruct Hw as (_ & _ & _ & Hoff & Hlt & Hdp & _ & HS & _).
  pose proof (lin_ks_range off) as Hks. pose proof (lin_ks_mod off) as Hkm.
  unfold key_at. change (depth (view j)) with (depth j) in *.
  destruct (Z.eqb_spec (depth j) 0) as [Hd|Hd]; cbn [negb].
  - rewrite (key_digit_spec buff kmax (Z.to_nat (lin_ks off)) 8 off 0).
    + rewrite Z2Nat.id by lia. reflexivity.
    + lia.
    + lia.
    + lia.
    + lia.
    + lia.
    + lia.
    + rewrite Z2Nat.id by lia. change (0 + 1) with 1. rewrite Z.mul_1_l.
      change (2 ^ 64) with (256 ^ 8). apply Z.pow_le_mono_r; lia.
    + intros x Hx. unfold str_byte. destruct (x <? kmax); [|lia].
      apply buf_get_byte, Hbuf.
  - unfold dpt_at in Hdp. change (depth (view j)) with (depth j) in Hdp.
    apply Z.eqb_neq in Hd. rewrite Hd in Hdp.
    unfold JUDY_key_size in Hdp. rewrite Hdp, digit_low by assumption. reflexivity.
Qed.

Lemma nth_last_app {A : Type} (l : list A) (x d : A) : nth (length l) (l ++ [x]) d = x.
Proof. rewrite app_nth2 by lia. rewrite Nat.sub_diag. reflexivity. Qed.

Lemma slot_cases_lin k cfg fuel buff kmax j next off dpt test :
  wf (S k) cfg (view j) next off dpt (level j) = true ->
  is_lin next ->
  bytes buff -> (depth j = 0 -> off <= kmax < 2 ^ 31) ->
  no_zero (view j) buff kmax ->
  (exists si, In si (node_slots cfg (view j) next off dpt) /\
     List.map (key_at (view j) buff kmax) (seqZ off (Z.of_nat (length (si_bytes si))))
     = si_bytes si /\
     (depth j = 0 ->
      if si_leaf si then kmax - off < Z.of_nat (length (si_bytes si))
      else Z.of_nat (length (si_bytes si)) <= kmax - off)) \/
  slot_miss j (judy_slot_turn cfg fuel buff kmax (mkWalk next off dpt test) j).
Proof.
  intros Hw Hlin Hbuf Hk Hnz.
  pose proof (lin_digit k cfg buff kmax j next off dpt (level j) Hw Hbuf) as Hv.
  pose proof Hw as Hw'. apply wf_S in Hw'.
  destruct Hw' as (_ & Hl & _ & Hoff & Hlt & Hdp & _ & HS & _ & Hsl & _ & Hby & _).
  assert (Hl' : level j < max j) by apply Hl.
  pose proof (lin_ks_range off) as Hks.
  destruct (lin_layout cfg next off Hlin) as (Hcnt & _). cbv zeta in Hcnt.
  set (KB := List.map (key_at (view j) buff kmax) (seqZ off (lin_ks off))) in *.
  assert (HKB : bytes KB) by (apply bytes_map; intros x; apply key_at_byte, Hbuf).
  assert (HKl : Z.of_nat (length KB) = lin_ks off).
  { unfold KB. rewrite length_map, length_seqZ. lia. }
  pose proof (scan_down_result (mem j) (base_of next) (lin_ks off) (be_val KB)
                (S (Z.to_nat (lin_cnt cfg next off))) (lin_cnt cfg next off) test
                ltac:(lia) ltac:(lia)) as Hres.
  cbv zeta in Hres.
  destruct (scan_down (S (Z.to_nat (lin_cnt cfg next off))) (mem j) (base_of next)
              (lin_ks off) (be_val KB) (lin_cnt cfg next off) test) as [i t] eqn:Hscan.
  cbn [fst snd] in Hres.
  destruct (Z.eq_dec t (be_val KB)) as [Heq|Hne].
  2:{ right. eapply slot_turn_lin_miss; [exact Hlin|exact Hl'|exact Hv|exact Hscan|exact Hne]. }
  destruct Hres as [(Hi & Ht & _)|[_ Hgt]]; [|lia].
  rewrite Heq in Hscan, Ht. clear Heq. rename Ht into Heq. symmetry in Heq.
  destruct (Z.eq_dec (load64 (mem j) (lin_cell cfg next i)) 0) as [Hc0|Hc].
  { right.
    rewrite (slot_turn_lin cfg fuel buff kmax j next off dpt test i (be_val KB) _ _
               Hlin Hl' Hv Hscan).
    destruct (is_leaf_value j (be_val KB) _); cbn [slot_miss w_next];
      [right; exact Hc0|exact Hc0]. }
  left.
  assert (Hfi : lin_first cfg (view j) next off <= i).
  { unfold lin_first.
    pose proof (first_used_spec (S (Z.to_nat (lin_cnt cfg next off))) (mem (view j))
                  (lin_node cfg next) (lin_cnt cfg next off) 0 ltac:(lia) ltac:(lia))
      as Hf. cbv zeta in Hf. destruct Hf as (_ & _ & Hz & _).
    destruct (Z.le_gt_cases
                (first_used (S (Z.to_nat (lin_cnt cfg next off))) (mem (view j))
                   (lin_node cfg next) (lin_cnt cfg next off) 0) i) as [H|H];
      [exact H|].
    exfalso. apply Hc. unfold lin_cell. apply (Hz i). lia. }
  set (si := lin_info cfg (view j) next off dpt i).
  assert (Hin : In si (node_slots cfg (view j) next off dpt)).
  { rewrite node_slots_lin by exact Hlin. apply lin_slots_in.
    exists i. split; [lia|reflexivity]. }
  exists si. split; [exact Hin|].
  assert (Hbi : bytes (si_bytes si)) by apply (Hby si Hin).
  cbn [si_bytes si lin_info] in Hbi |- *. change (mem (view j)) with (mem j) in *.
  rewrite key_bytes_length by lia. fold KB.
  assert (HK : KB = key_bytes (mem j) (lin_key next off i) (lin_ks off)).
  { apply be_val_inj.
    - apply Nat2Z.inj. rewrite HKl, key_bytes_length by lia. reflexivity.
    - exact HKB.
    - exact Hbi.
    - rewrite <- Heq. unfold lin_key in *. apply masked_be; [lia|exact Hbi]. }
  split; [exact HK|].
  intros Hd. specialize (Hk Hd). specialize (Hnz Hd).
  unfold si. cbn [si_leaf lin_info]. unfold is_leaf_key.
  change (depth (view j)) with (depth j). rewrite Hd. cbn [Z.eqb fst].
  change (mem (view j)) with (mem j).
  assert (Hlast : load8 (mem j) (base_of next + i * lin_ks off)
                  = str_byte buff kmax (off + (lin_ks off - 1))).
  { pose proof (map_seqZ_nth (key_at (view j) buff kmax) off (lin_ks off) KB eq_refl
                  (lin_ks off - 1) ltac:(lia)) as Hn.
    unfold key_at in Hn. change (depth (view j)) with (depth j) in Hn.
    rewrite Hd in Hn. cbn [Z.eqb] in Hn. rewrite <- Hn.
    rewrite HK, key_bytes_last by lia. fold (lin_key next off i).
    replace (Z.to_nat (lin_ks off - 1))
      with (length (rev (load_bytes (Z.to_nat (lin_ks off - 1)) (mem j)
                           (lin_key next off i + 1))))
      at 1 by (rewrite length_rev, load_bytes_length; reflexivity).
    rewrite nth_last_app. reflexivity. }
  rewrite Hlast. unfold str_byte.
  destruct (Z.ltb_spec (off + (lin_ks off - 1)) kmax) as [Hlo|Hhi].
  - destruct (Z.eqb_spec (buf_get buff (off + (lin_ks off - 1))) 0) as [Hz|Hz]; [|lia].
    exfalso. apply (Hnz (off + (lin_ks off - 1))); [lia|exact Hz].
  - cbn [Z.eqb]. lia.
Qed.

(** at a node of a well-formed trie, a step of [judy_slot] follows a slot
    whose bytes are the next bytes of the key, or misses *)
Lemma slot_cases k cfg fuel buff kmax j next off dpt test :
  wf (S k) cfg (view j) next off dpt (level j) = true ->
  bytes buff -> (depth j = 0 -> off <= kmax < 2 ^ 31) ->
  no_zero (view j) buff kmax -> null_page_clear j ->
  (Z.to_nat (JUDY_span_bytes cfg) <= fuel)%nat ->
  (exists si, In si (node_slots cfg (view j) next off dpt) /\
     List.map (key_at (view j) buff kmax) (seqZ off (Z.of_nat (length (si_bytes si))))
     = si_bytes si /\
     (depth j = 0 ->
      if si_leaf si then kmax - off < Z.of_nat (length (si_bytes si))
      else Z.of_nat (length (si_bytes si)) <= kmax - off)) \/
  slot_miss j (judy_slot_turn cfg fuel buff kmax (mkWalk next off dpt test) j).
Proof.
  intros Hw Hbuf Hk Hnz Hnull Hfuel.
  destruct (tag_cases next) as [Hr|[Hs|Hlin]].
  - apply (slot_cases_rad k); assumption.
  - apply (slot_cases_span k); assumption.
  - apply (slot_cases_lin k); assumption.
Qed.

Lemma keys_cell_used k cfg V :
  forall next off dpt lvl key c,
  wf k cfg V next off dpt lvl = true ->
  In (key, c) (keys k cfg V next off dpt) ->
  c <> 0 /\ load64 (mem V) c <> 0.
Proof.
  induction k as [|k IH]; intros next off dpt lvl key c Hw Hin; [discriminate|].
  pose proof Hw as Hw'. apply wf_S in Hw'.
  destruct Hw' as (Hn & _ & _ & _ & _ & _ & _ & _ & _ & Hsl & _).
  destruct (keys_in k cfg V next off dpt key c Hn Hin) as (si & rest & Hsi & _ & Hrest).
  destruct (Hsl si Hsi) as (Hc0 & Hc1 & _ & Hb).
  unfold below in Hb. destruct (si_leaf si).
  - destruct Hrest as [_ ->]. split; assumption.
  - cbn [orb] in Hb. apply (IH _ _ _ _ _ _ Hb Hrest).
Qed.

(** what [judy_slot] returns is NULL, the address of an empty cell, or the
    cell of the key *)
Lemma slot_loop_sound k cfg buff kmax :
  forall fuel j next off dpt test,
  next = 0 \/ wf k cfg (view j) next off dpt (level j) = true ->
  bytes buff -> (depth j = 0 -> off <= kmax < 2 ^ 31) -> 0 <= depth j ->
  no_zero (view j) buff kmax -> null_page_clear j ->
  (k + Z.to_nat (JUDY_span_bytes cfg) <= fuel)%nat ->
  let c := fst (judy_slot_loop cfg fuel buff kmax (mkWalk next off dpt test) j) in
  c = 0 \/ load64 (mem j) c = 0 \/
  In (key_from (view j) buff kmax off, c) (keys k cfg (view j) next off dpt).
Proof.
  induction k as [|k IH]; intros fuel j next off dpt test Hw Hbuf Hk Hd0 Hnz Hnull Hfuel c.
  { destruct Hw as [->|Hw]; [|discriminate]. left. subst c.
    destruct fuel; reflexivity. }
  destruct Hw as [->|Hw].
  { left. subst c. destruct fuel; reflexivity. }
  destruct fuel as [|fuel]; [left; reflexivity|].
  pose proof Hw as Hw'. apply wf_S in Hw'.
  destruct Hw' as (Hn & _ & _ & _ & _ & _ & _ & _ & _ & Hsl & _).
  subst c. cbn [judy_slot_loop w_next].
  pose proof Hn as Hn'. apply Z.eqb_neq in Hn'. rewrite Hn'.
  destruct (slot_cases k cfg (S fuel) buff kmax j next off dpt test Hw Hbuf Hk Hnz Hnull
              ltac:(lia)) as [(si & Hsi & Hm & Hlen)|Hmiss].
  2:{ destruct (judy_slot_turn cfg (S fuel) buff kmax (mkWalk next off dpt test) j)
        as [p j'|w' j']; cbn [slot_miss] in Hmiss.
      - cbn [fst]. destruct Hmiss as [H|H]; [left|right; left]; exact H.
      - left. destruct w' as [n' o' d' t']. cbn [w_next] in Hmiss. subst n'.
        destruct fuel; reflexivity. }
  destruct (slot_turn_spec k cfg (S fuel) buff kmax j next off dpt test si Hw Hsi Hbuf Hk
              ltac:(lia) Hm Hlen) as (s & test' & Hturn & _).
  destruct (key_split k cfg (view j) buff kmax next off dpt (level j) si Hw Hsi)
    as [Hkey Hko]; try assumption.
  { intros H0. apply Hk, H0. }
  rewrite Hturn. rewrite keys_entries by exact Hn.
  destruct (Hsl si Hsi) as (_ & _ & _ & Hb). unfold below in Hb.
  destruct (si_leaf si) eqn:Hleaf.
  - cbn [fst]. right. right. unfold slot_entries. apply in_flat_map.
    exists si. split; [exact Hsi|]. rewrite Hleaf. left.
    rewrite Hkey, app_nil_r. reflexivity.
  - cbn [orb] in Hb.
    set (j1 := entered j next off s) in *.
    assert (Hv : view j1 = view j) by apply entered_view.
    assert (Hl1 : level j1 = level j + 1) by apply entered_level.
    assert (Hdj : depth j1 = depth j) by (unfold j1; destruct s; reflexivity).
    assert (Hmj : mem j1 = mem j) by (unfold j1; destruct s; reflexivity).
    specialize (IH fuel j1 (load64 (mem j) (si_cell si)) (child_off cfg next off)
                  (child_dpt (view j) next off dpt) test').
    cbv zeta in IH. rewrite Hv, Hl1, Hmj, Hdj in IH.
    destruct IH as [H|[H|H]]; try assumption.
    + right. exact Hb.
    + intros H0. specialize (Hk H0). specialize (Hko eq_refl H0). lia.
    + intros a Ha. unfold null_page_clear in Hnull. rewrite Hmj. apply Hnull, Ha.
    + lia.
    + left. exact H.
    + right. left. exact H.
    + right. right. unfold slot_entries. apply in_flat_map.
      exists si. split; [exact Hsi|]. rewrite Hleaf. apply in_map_iff.
      exists (key_from (view j) buff kmax (child_off cfg next off),
              fst (judy_slot_loop cfg fuel buff kmax
                     (mkWalk (load64 (mem j) (si_cell si)) (child_off cfg next off)
                        (child_dpt (view j) next off dpt) test') j1)).
      split; [|exact H]. cbn [fst snd]. rewrite Hkey. reflexivity.
Qed.

Lemma no_zero_buff V buff :
  (depth V = 0 -> ~ In 0 buff) -> no_zero V buff (Z.of_nat (length buff)).
Proof.
  intros H Hd i Hi Hz. apply (H Hd). rewrite <- Hz.
  rewrite <- (map_buf_get buff) at 2. apply in_map. apply In_seqZ. lia.
Qed.

(** X11: [judy_slot] returns the address of a cell that holds a value for
    the keys of the trie and for no other key: for a key that is not in
    the trie it returns NULL or the address of an empty cell. *)
Theorem slot_finds_exactly_the_keys N cfg fuel (j : Judy) (buff : list Z) (c : Z) :
  wf_trie N cfg j = true ->
  forallb is_byte buff = true ->
  Z.of_nat (length buff) < 2 ^ 31 ->
  (depth j = 0 -> ~ In 0 buff) ->
  null_page_clear j ->
  (N + Z.to_nat (JUDY_span_bytes cfg) <= fuel)%nat ->
  In (key_of j buff, c) (all_keys N cfg j) <->
  fst (judy_slot cfg fuel buff (Z.of_nat (length buff)) j) = c /\
  c <> 0 /\ load64 (mem j) c <> 0.
Proof.
  intros Hwf Hbuf Hlen Hnz Hnull Hfuel. split.
  - intros Hin.
    destruct (judy_slot_spec N cfg fuel j buff (Z.of_nat (length buff)) (key_of j buff) c
                Hwf Hin) as (j1 & n & Hs & Hc & _).
    { symmetry. apply key_from_root. }
    { exact Hbuf. }
    { intros _. lia. }
    { exact Hfuel. }
    rewrite Hs. split; [reflexivity|]. split; [exact Hc|].
    destruct (wf_trie_inv N cfg j Hwf) as [H0|Hw].
    + unfold all_keys in Hin. rewrite H0, keys_root_empty in Hin. destruct Hin.
    + apply (keys_cell_used N cfg (view j) _ _ _ _ _ _ Hw Hin).
  - intros (Hs & Hc & Hv).
    pose proof Hwf as Hwf'. unfold wf_trie in Hwf'.
    apply andb_true_iff in Hwf'. destruct Hwf' as [Hd0 Hw].
    apply Z.leb_le in Hd0.
    pose proof (slot_loop_sound N cfg buff (Z.of_nat (length buff)) fuel (set_level 0 j)
                  (root_slot j) 0 0 0) as H.
    cbv zeta in H. change (view (set_level 0 j)) with (view j) in H.
    cbn [level set_level mem depth] in H.
    unfold judy_slot in Hs. fold (root_slot j) in Hs. rewrite Hs in H.
    rewrite key_from_root in H. unfold all_keys.
    destruct H as [H|[H|H]]; try assumption; try contradiction.
    + apply orb_true_iff in Hw. destruct Hw as [Hw|Hw];
        [left; apply Z.eqb_eq, Hw | right; exact Hw].
    + intros _. lia.
    + apply no_zero_buff. exact Hnz.
Qed.

Lemma null_page_trie3 : null_page_clear (trie3 cfg_lp64).
Proof.
  assert (H : forallb (fun a => load8 (mem (trie3 cfg_lp64)) a =? 0) (seqZ 0 128) = true)
    by (vm_compute; reflexivity).
  intros a Ha. rewrite forallb_forall in H. apply Z.eqb_eq, H, In_seqZ. lia.
Qed.

Lemma slot_finds_exactly_the_keys_witness :
  (wf_trie 4 cfg_lp64 (trie3 cfg_lp64) = true /\
   forallb is_byte key_abd = true /\
   null_page_clear (trie3 cfg_lp64)) /\
  (In (key_of (trie3 cfg_lp64) key_abd, abd_cell) (all_keys 4 cfg_lp64 (trie3 cfg_lp64)) <->
   fst (judy_slot cfg_lp64 64 key_abd 3 (trie3 cfg_lp64)) = abd_cell /\
   abd_cell <> 0 /\ load64 (mem (trie3 cfg_lp64)) abd_cell <> 0).
Proof.
  assert (Hw : wf_trie 4 cfg_lp64 (trie3 cfg_lp64) = true) by (vm_compute; reflexivity).
  assert (Hb : forallb is_byte key_abd = true) by reflexivity.
  split; [exact (conj Hw (conj Hb null_page_trie3))|].
  exact (slot_finds_exactly_the_keys 4 cfg_lp64 64 (trie3 cfg_lp64) key_abd abd_cell Hw Hb
           ltac:(cbn; lia) ltac:(intros _ [H|[H|[H|[]]]]; discriminate)
           null_page_trie3 ltac:(cbn; lia)).
Defined.

(** ** The first key of an empty string array *)

Lemma fill_line_aligned n idx amt j :
  amt mod 8 = 0 -> fill_line n idx amt j = (amt, j).
Proof.
  intros Hm. destruct n as [|n]; [reflexivity|]. cbn [fill_line].
  change (JUDY_cache_line - 1) with 7. rewrite land7, Hm. reflexivity.
Qed.

(** an allocation that is served from the current segment *)
Lemma judy_alloc_bump cfg type j a nx rest :
  seg j = mkSeg a nx :: rest -> (forall t, reuse_get j t = 0) ->
  let amt := JudySize cfg (size_class cfg type) in
  amt mod 8 = 0 -> 8 <= amt -> amt + sizeof_JudySeg <= nx < 2 ^ 32 ->
  judy_alloc cfg type j
  = (a + nx - amt,
     set_mem (memset0 (Z.to_nat amt) (mem j) (a + nx - amt))
       (set_seg (mkSeg a (nx - amt) :: rest) j)).
Proof.
  intros Hs Hr amt Hm H8 Hnx. unfold judy_alloc. rewrite Hs, Hr.
  change (negb (0 =? 0)) with false. cbv iota.
  rewrite find_larger_none by exact Hr. fold amt.
  assert (Hr8 : round8 amt = amt).
  { unfold round8. rewrite land7, Hm. reflexivity. }
  rewrite Hr8. unfold head_next, head_base. rewrite Hs. cbn [seg_next seg_base].
  unfold JUDY_cache_line, sizeof_JudySeg in *.
  destruct (Z.ltb_spec amt 8); [lia|].
  destruct (Z.ltb_spec nx (amt + 16)); [lia|].
  assert (Hfl : fill_line 32 (size_class cfg type) amt j = (amt, j))
    by (apply fill_line_aligned; exact Hm).
  destruct (size_class cfg type >=? JUDY_1); rewrite Hfl;
    unfold set_head_next, head_next, head_base; rewrite Hs; cbn [seg_next seg_base];
    rewrite u32_small by lia; reflexivity.
Qed.

(** a tagged reference to an aligned block *)
Lemma tagged_ref base t :
  0 <= base -> base mod 8 = 0 -> 0 <= t < 8 ->
  tag_of (Z.lor base t) = t /\ base_of (Z.lor base t) = base.
Proof.
  intros Hb Hm Ht.
  assert (Hl : Z.lor base t = base + t).
  { pose proof (Z.div_mod base 8 ltac:(lia)) as Hd.
    replace base with (base / 8 * 2 ^ 3) at 1 by (change (2 ^ 3) with 8; lia).
    rewrite lor_disjoint by (change (2 ^ 3) with 8; lia).
    change (2 ^ 3) with 8. lia. }
  unfold tag_of, base_of. rewrite Hl, land7.
  assert (Hmod : (base + t) mod 8 = t).
  { symmetry. apply (Z.mod_unique (base + t) 8 (base / 8) t); [lia|].
    pose proof (Z.div_mod base 8 ltac:(lia)). lia. }
  rewrite Hmod. split; [reflexivity|lia].
Qed.

(** a span node is well-formed when its parts are *)
Lemma wf_span_intro k cfg V next off lvl :
  tag_of next = JUDY_span -> next <> 0 ->
  0 <= lvl < max V -> max V < 2 ^ 32 ->
  0 <= off -> off + JUDY_span_bytes cfg + 16 < 2 ^ 32 ->
  depth V = 0 -> 0 < JUDY_span_bytes cfg ->
  let si := span_info cfg V next in
  si_cell si <> 0 -> load64 (mem V) (si_cell si) <> 0 ->
  bytes (si_bytes si) -> valid_bytes (si_bytes si) = true ->
  below k cfg V next off 0 lvl si = true ->
  wf (S k) cfg V next off 0 lvl = true.
Proof.
  intros Ht Hn Hl Hm Ho Ho2 Hd HS si Hc Hv Hb Hvb Hbelow.
  cbn [wf]. rewrite node_slots_span by exact Ht. fold si.
  rewrite Ht. change (JUDY_span =? JUDY_radix) with false.
  change (JUDY_span =? JUDY_span) with true. cbv iota.
  cbn [forallb]. unfold below in Hbelow. rewrite Hbelow.
  unfold dpt_at. rewrite Hd. cbn [Z.eqb orb].
  unfold bytes in Hb. rewrite Hb, Hvb.
  apply Z.eqb_neq in Hn, Hc, Hv. rewrite Hn, Hc, Hv.
  destruct (Z.leb_spec 0 lvl); [|lia]. destruct (Z.ltb_spec lvl (max V)); [|lia].
  destruct (Z.ltb_spec (max V) (2 ^ 32)); [|lia]. destruct (Z.leb_spec 0 off); [|lia].
  destruct (Z.ltb_spec (off + JUDY_span_bytes cfg + 16) (2 ^ 32)); [|lia].
  destruct (Z.ltb_spec 0 (JUDY_span_bytes cfg)); [|lia].
  rewrite orb_true_r. reflexivity.
Qed.

Lemma keys_span k cfg V next off :
  tag_of next = JUDY_span -> next <> 0 ->
  let si := span_info cfg V next in
  keys (S k) cfg V next off 0
  = if si_leaf si then [(contrib V (si_bytes si), si_cell si)]
    else List.map (fun kc => (contrib V (si_bytes si) ++ fst kc, snd kc))
           (keys k cfg V (load64 (mem V) (si_cell si)) (u32 (off + JUDY_span_bytes cfg)) 0).
Proof.
  intros Ht Hn si. rewrite keys_entries by exact Hn.
  rewrite node_slots_span by exact Ht. fold si. unfold slot_entries. cbn [flat_map].
  rewrite app_nil_r. unfold child_off, child_dpt. rewrite Ht.
  change (JUDY_span =? JUDY_radix) with false.
  change (JUDY_span =? JUDY_span) with true. cbv iota. reflexivity.
Qed.

Lemma buf_bytes_length n : forall buff off, length (buf_bytes n buff off) = n.
Proof.
  induction n as [|n IH]; intros buff off; [reflexivity|].
  cbn [buf_bytes length]. rewrite IH. reflexivity.
Qed.

Lemma buf_bytes_nth n : forall buff off i,
  (i < n)%nat -> nth i (buf_bytes n buff off) 0 = buf_get buff (off + Z.of_nat i).
Proof.
  induction n as [|n IH]; intros buff off i Hi; [lia|].
  cbn [buf_bytes]. destruct i as [|i].
  - cbn [nth Z.of_nat]. rewrite Z.add_0_r. reflexivity.
  - cbn [nth]. rewrite IH by lia. f_equal. lia.
Qed.

Lemma push_frame_store ref off j : store_of (push_frame ref off j) = store_of j.
Proof.
  unfold push_frame.
  rewrite store_set_frame_off, store_set_frame_slot, store_set_frame_next.
  apply store_push_level.
Qed.

(** one turn of the loop that stores the rest of a key in span nodes, on
    an array whose reuse lists are empty and whose segment has room *)
Lemma span_iter cfg buff L fuel j next off a nx rest :
  let Sp := JUDY_span_bytes cfg in
  let amt := JudySize cfg (size_class cfg JUDY_span) in
  0 < Sp -> Sp + 8 <= amt -> amt mod 8 = 0 ->
  bytes buff -> 0 <= off <= L -> L < 2 ^ 31 ->
  seg j = mkSeg a nx :: rest -> (forall t, reuse_get j t = 0) ->
  0 <= a -> (a + nx) mod 8 = 0 -> amt + 16 <= nx -> nx < 2 ^ 32 ->
  a + nx <= next -> a + nx < 2 ^ 64 ->
  let base := a + nx - amt in
  let tst := Z.min (L - off) Sp in
  exists j3,
    cell_spans cfg (S fuel) buff L next off j
    = (if load8 (mem j3) (base + Sp - 1) =? 0 then (base + Sp, j3)
       else cell_spans cfg fuel buff L (base + Sp) (off + tst) j3) /\
    seg j3 = mkSeg a (nx - amt) :: rest /\ reuse j3 = reuse j /\ root j3 = root j /\
    depth j3 = depth j /\ max j3 = max j /\
    (forall i, 0 <= i < Sp -> load8 (mem j3) (base + i) = str_byte buff L (off + i)) /\
    load64 (mem j3) next = Z.lor base JUDY_span /\
    (forall x, ~ (base <= x < base + amt) -> ~ (next <= x < next + 8) ->
       load8 (mem j3) x = load8 (mem j) x).
Proof.
  intros Sp amt HS Hamt Hm8 Hbuf Hoff HL Hseg Hre Ha Hal Hroom Hnx Hnext H64 base tst.
  assert (HJS : JudySize cfg JUDY_span = Sp + 8) by reflexivity.
  assert (Htst : (if s32 (L - off) <? Sp then s32 (L - off) else Sp) = tst).
  { rewrite s32_small by lia. unfold tst.
    destruct (Z.ltb_spec (L - off) Sp); lia. }
  set (m0 := memset0 (Z.to_nat amt) (mem j) base).
  set (m1 := store64 m0 next (Z.lor base JUDY_span)).
  set (m2 := store_bytes (buf_bytes (Z.to_nat tst) buff off) m1 base).
  set (j1 := set_mem m0 (set_seg (mkSeg a (nx - amt) :: rest) j)).
  set (j3 := push_frame (load64 m2 next) off (set_mem m2 j1)).
  assert (Hst : store_of j3 = store_of (set_mem m2 j1)) by apply push_frame_store.
  assert (Hmem : mem j3 = m2).
  { unfold store_of in Hst. injection Hst as _ _ _ Hx _ _ _. exact Hx. }
  exists j3. split.
  { cbn [cell_spans]. destruct (Z.leb_spec off L); [|lia].
    rewrite (judy_alloc_bump cfg JUDY_span j a nx rest Hseg Hre Hm8 ltac:(lia)
               ltac:(unfold sizeof_JudySeg; lia)).
    fold amt base m0 j1. cbv zeta. cbn [mem set_mem]. fold Sp. rewrite Htst.
    fold m1 m2. rewrite HJS. fold j3.
    replace (u32 (off + tst)) with (off + tst) by (rewrite u32_small; unfold tst; lia).
    replace (base + (Sp + 8) - 8) with (base + Sp) by lia.
    reflexivity. }
  unfold store_of in Hst. injection Hst as Hx1 Hx2 Hx3 _ _ Hx6 Hx7.
  split; [exact Hx3|]. split; [exact Hx2|]. split; [exact Hx1|].
  split; [exact Hx7|]. split; [exact Hx6|].
  rewrite Hmem.
  assert (Htr : 0 <= tst <= Sp) by (unfold tst; lia).
  assert (Hp : forall x, load8 m2 x
              = if (base <=? x) && (x <? base + tst)
                then buf_get buff (off + (x - base))
                else if (next <=? x) && (x <? next + 8)
                then (Z.lor base JUDY_span / 256 ^ (x - next)) mod 256
                else if (base <=? x) && (x <? base + amt) then 0
                else load8 (mem j) x).
  { intros x. unfold m2, m1, m0.
    rewrite load8_store_bytes, buf_bytes_length, load8_store64, load8_memset0.
    rewrite !Z2Nat.id by lia.
    destruct (Z.leb_spec base x); destruct (Z.ltb_spec x (base + tst)); cbn [andb];
      try reflexivity.
    rewrite buf_bytes_nth by lia. rewrite Z2Nat.id by lia.
    unfold u8. apply Z.mod_small. apply buf_get_byte, Hbuf. }
  split.
  { intros i Hi. rewrite Hp. unfold str_byte.
    destruct (Z.leb_spec base (base + i)); [|lia].
    destruct (Z.ltb_spec (base + i) (base + tst)); cbn [andb].
    - destruct (Z.ltb_spec (off + i) L); [|unfold tst in *; lia].
      f_equal. lia.
    - destruct (Z.leb_spec next (base + i)); [unfold base in *; lia|]. cbn [andb].
      destruct (Z.ltb_spec (base + i) (base + amt)); [|lia].
      destruct (Z.ltb_spec (off + i) L); [unfold tst in *; lia|reflexivity]. }
  split.
  { transitivity (load64 m1 next).
    - apply (agree_load64 (fun x => next <= x < next + 8)); [|intros i Hi; exact Hi].
      intros x Hx. unfold m2. rewrite load8_store_bytes, buf_bytes_length.
      rewrite Z2Nat.id by lia.
      destruct (Z.leb_spec base x); destruct (Z.ltb_spec x (base + tst)); cbn [andb];
        try reflexivity. unfold base in *. lia.
    - unfold m1. apply load64_store64.
      destruct (tagged_ref base JUDY_span) as [_ Hb]; [unfold base; lia| |unfold JUDY_span; lia|].
      + unfold base. rewrite <- Zminus_mod_idemp_l, <- Zminus_mod_idemp_r, Hal, Hm8.
        reflexivity.
      + unfold base_of in Hb. pose proof (Z.land_nonneg (Z.lor base JUDY_span) 7) as Hn.
        assert (0 <= Z.land (Z.lor base JUDY_span) 7 <= 7).
        { rewrite land7. pose proof (Z.mod_pos_bound (Z.lor base JUDY_span) 8 ltac:(lia)). lia. }
        unfold base in *. lia. }
  intros x Hn1 Hn2. rewrite Hp.
  destruct (Z.leb_spec base x); destruct (Z.ltb_spec x (base + tst)); cbn [andb];
    try lia;
    destruct (Z.leb_spec next x); destruct (Z.ltb_spec x (next + 8)); cbn [andb];
    try lia;
    destruct (Z.ltb_spec x (base + amt)); try lia; reflexivity.
Qed.

Lemma valid_app a zs :
  ~ In 0 a -> forallb (fun b => b =? 0) zs = true -> valid_bytes (a ++ zs) = true.
Proof.
  unfold valid_bytes. induction a as [|x a IH]; intros Hn Hz.
  - cbn [app]. destruct zs as [|z zs]; [reflexivity|].
    cbn [forallb] in Hz. apply andb_true_iff in Hz. destruct Hz as [Hz0 Hz].
    cbn [strip0]. rewrite Hz0. cbn [length drop forallb]. rewrite Hz0, Hz. reflexivity.
  - cbn [app strip0]. destruct (Z.eqb_spec x 0) as [Hx|Hx].
    + exfalso. apply Hn. left. exact Hx.
    + cbn [length drop]. apply IH; [|exact Hz]. intros H. apply Hn. right. exact H.
Qed.

(** the bytes of a string key from an offset on, padded with zeros *)
Lemma str_bytes_valid buff L off n :
  (forall i, 0 <= i < L -> buf_get buff i <> 0) -> 0 <= off <= L -> 0 <= n ->
  valid_bytes (List.map (str_byte buff L) (seqZ off n)) = true.
Proof.
  intros Hnz Hoff Hn.
  assert (Hnon : forall k, 0 <= k -> off + k <= L ->
            ~ In 0 (List.map (str_byte buff L) (seqZ off k))).
  { intros k Hk HkL H0. apply in_map_iff in H0. destruct H0 as (i & Hi & Hin).
    apply In_seqZ in Hin. unfold str_byte in Hi.
    destruct (Z.ltb_spec i L); [|lia]. apply (Hnz i); [lia|exact Hi]. }
  destruct (Z.le_gt_cases (off + n) L) as [Hle|Hgt].
  - rewrite <- (app_nil_r (List.map _ _)). apply valid_app; [|reflexivity].
    apply Hnon; lia.
  - replace n with ((L - off) + (n - (L - off))) by lia.
    rewrite seqZ_app, List.map_app by lia. apply valid_app; [apply Hnon; lia|].
    apply forallb_forall. intros z Hz. apply in_map_iff in Hz.
    destruct Hz as (i & Hi & Hin). apply In_seqZ in Hin. unfold str_byte in Hi.
    destruct (Z.ltb_spec i L); [lia|]. subst z. reflexivity.
Qed.

Lemma str_byte_range buff L i : bytes buff -> 0 <= str_byte buff L i < 256.
Proof.
  intros Hb. unfold str_byte. destruct (i <? L); [apply buf_get_byte, Hb|lia].
Qed.

(** a span node that holds the next bytes of a key, above the rest of it *)
Lemma span_node_ok k cfg V buff L ref base off lvl c :
  let Sp := JUDY_span_bytes cfg in
  0 < Sp < 2 ^ 16 -> tag_of ref = JUDY_span -> base_of ref = base -> ref <> 0 ->
  depth V = 0 -> 0 <= lvl < max V -> max V < 2 ^ 32 ->
  0 <= off <= L -> L < 2 ^ 31 -> bytes buff ->
  (forall i, 0 <= i < L -> buf_get buff i <> 0) ->
  (forall i, 0 <= i < Sp -> load8 (mem V) (base + i) = str_byte buff L (off + i)) ->
  base + Sp <> 0 -> load64 (mem V) (base + Sp) <> 0 ->
  (Sp <= L - off ->
   wf k cfg V (load64 (mem V) (base + Sp)) (off + Sp) 0 (lvl + 1) = true /\
   keys k cfg V (load64 (mem V) (base + Sp)) (off + Sp) 0
   = [(key_from V buff L (off + Sp), c)]) ->
  (L - off < Sp -> c = base + Sp) ->
  wf (S k) cfg V ref off 0 lvl = true /\
  keys (S k) cfg V ref off 0 = [(key_from V buff L off, c)].
Proof.
  intros Sp HS Ht Hb Hn Hd Hl Hm Hoff HL Hbuf Hnz Hby Hc0 Hcv Hchild Hleafc.
  set (si := span_info cfg V ref).
  assert (Hsb : si_bytes si = List.map (str_byte buff L) (seqZ off Sp)).
  { unfold si. cbn [si_bytes span_info]. rewrite Hb. fold Sp. symmetry.
    rewrite <- (Z2Nat.id Sp) at 1 by lia. apply map_load_bytes.
    intros i Hi. symmetry. apply Hby. lia. }
  assert (Hsc : si_cell si = base + Sp).
  { unfold si. cbn [si_cell span_info]. rewrite Hb.
    change (JudySize cfg JUDY_span) with (Sp + 8). lia. }
  assert (Hsl : si_leaf si = (str_byte buff L (off + (Sp - 1)) =? 0)).
  { unfold si. cbn [si_leaf span_info]. rewrite Hb. fold Sp.
    replace (base + Sp - 1) with (base + (Sp - 1)) by lia.
    rewrite Hby by lia. reflexivity. }
  assert (Hlen : Z.of_nat (length (si_bytes si)) = Sp).
  { rewrite Hsb, length_map, length_seqZ. lia. }
  assert (Hleaf : if si_leaf si then L - off < Sp else Sp <= L - off).
  { rewrite Hsl. unfold str_byte.
    destruct (Z.ltb_spec (off + (Sp - 1)) L) as [Hlo|Hhi].
    - destruct (Z.eqb_spec (buf_get buff (off + (Sp - 1))) 0) as [Hz|Hz]; [|lia].
      exfalso. apply (Hnz (off + (Sp - 1))); [lia|exact Hz].
    - cbn [Z.eqb]. lia. }
  assert (Hw : wf (S k) cfg V ref off 0 lvl = true).
  { apply (wf_span_intro k cfg V ref off lvl Ht Hn Hl Hm (proj1 Hoff)); fold si; fold Sp.
    - lia.
    - exact Hd.
    - apply HS.
    - rewrite Hsc. exact Hc0.
    - rewrite Hsc. exact Hcv.
    - rewrite Hsb. apply bytes_map. intros x. apply str_byte_range, Hbuf.
    - rewrite Hsb. apply str_bytes_valid; [exact Hnz|lia|lia].
    - unfold below. destruct (si_leaf si) eqn:E; [reflexivity|]. cbn [orb].
      rewrite Hsc. unfold child_off, child_dpt. rewrite Ht.
      change (JUDY_span =? JUDY_radix) with false.
      change (JUDY_span =? JUDY_span) with true. cbv iota. fold Sp.
      rewrite u32_small by lia. apply (Hchild Hleaf). }
  split; [exact Hw|].
  assert (Hin : In si (node_slots cfg V ref off 0)).
  { rewrite node_slots_span by exact Ht. left. reflexivity. }
  destruct (key_split k cfg V buff L ref off 0 lvl si Hw Hin) as [Hkey _].
  { lia. }
  { intros _. lia. }
  { intros _. exact Hnz. }
  { rewrite Hlen, Hsb. apply map_ext. intros i. unfold key_at. rewrite Hd. reflexivity. }
  { intros _. rewrite Hlen. exact Hleaf. }
  rewrite keys_span by assumption. fold si. rewrite Hkey.
  destruct (si_leaf si) eqn:E.
  - rewrite app_nil_r, Hsc. rewrite (Hleafc Hleaf). reflexivity.
  - rewrite Hsc. fold Sp. rewrite u32_small by lia.
    destruct (Hchild Hleaf) as [_ Hk]. rewrite Hk. cbn [List.map fst snd].
    unfold child_off. rewrite Ht.
    change (JUDY_span =? JUDY_radix) with false.
    change (JUDY_span =? JUDY_span) with true. cbv iota. fold Sp.
    rewrite u32_small by lia. reflexivity.
Qed.

Lemma load8_store_cell c v j x :
  ~ (c <= x < c + 8) -> load8 (mem (store_cell c v j)) x = load8 (mem j) x.
Proof.
  intros H. unfold store_cell. cbn [mem set_mem]. rewrite load8_store64.
  destruct (Z.leb_spec c x); destruct (Z.ltb_spec x (c + 8)); cbn [andb];
    try reflexivity. lia.
Qed.

(** the chain of span nodes [judy_cell] builds for the rest of a key, seen
    once the caller has stored a value in the cell returned *)
Lemma cell_spans_build cfg buff v a rest :
  let Sp := JUDY_span_bytes cfg in
  let amt := JudySize cfg (size_class cfg JUDY_span) in
  let L := Z.of_nat (length buff) in
  0 < Sp < 2 ^ 16 -> Sp + 8 <= amt -> amt mod 8 = 0 ->
  bytes buff -> (forall i, 0 <= i < L -> buf_get buff i <> 0) -> L < 2 ^ 31 ->
  0 < v < 2 ^ 64 -> 0 <= a ->
  forall (n : nat) fuel j next off lvl nx,
  Z.of_nat n = (L - off) / Sp -> 0 <= off <= L -> (n < fuel)%nat ->
  depth j = 0 -> seg j = mkSeg a nx :: rest -> (forall t, reuse_get j t = 0) ->
  (a + nx) mod 8 = 0 -> (Z.of_nat n + 1) * amt + 16 <= nx -> nx < 2 ^ 32 ->
  a + nx <= next -> next + 8 <= 2 ^ 64 ->
  0 <= lvl -> lvl + Z.of_nat n < max j -> max j < 2 ^ 32 ->
  let c := fst (cell_spans cfg fuel buff L next off j) in
  let j' := snd (cell_spans cfg fuel buff L next off j) in
  a + 16 <= c /\ c + 8 <= a + nx /\
  (forall x, ~ (a + 16 <= x < a + nx) -> ~ (next <= x < next + 8) ->
     load8 (mem j') x = load8 (mem j) x) /\
  root j' = root j /\ depth j' = 0 /\ max j' = max j /\
  let V := view (store_cell c v j') in
  wf (S n) cfg V (load64 (mem V) next) off 0 lvl = true /\
  keys (S n) cfg V (load64 (mem V) next) off 0 = [(key_from V buff L off, c)].
Proof.
  intros Sp amt L HS Hamt Hm8 Hbuf Hnz HL Hv Ha.
  induction n as [|n IH];
    intros fuel j next off lvl nx Hn Hoff Hfuel Hd Hseg Hre Hal Hroom Hnx Hnext H64
      Hl0 Hlv Hmx c j'.
  - (* the last span *)
    destruct fuel as [|fuel]; [lia|].
    assert (Hlt : L - off < Sp).
    { pose proof (Z.div_mod (L - off) Sp ltac:(lia)) as Hdm.
      pose proof (Z.mod_pos_bound (L - off) Sp ltac:(lia)) as Hmb.
      rewrite <- Hn in Hdm. lia. }
    destruct (span_iter cfg buff L fuel j next off a nx rest ltac:(lia) Hamt Hm8 Hbuf
                Hoff HL Hseg Hre Ha Hal ltac:(fold amt; lia) Hnx Hnext ltac:(lia))
      as (j3 & Heq & Hs3 & Hr3 & Hrt3 & Hd3 & Hm3 & Hby & Href & Hfr).
    fold Sp amt in Heq, Hby, Href, Hfr. set (base := a + nx - amt) in *.
    assert (Hlast : load8 (mem j3) (base + Sp - 1) = 0).
    { replace (base + Sp - 1) with (base + (Sp - 1)) by lia. rewrite Hby by lia.
      unfold str_byte. destruct (Z.ltb_spec (off + (Sp - 1)) L); [lia|reflexivity]. }
    rewrite Hlast in Heq. cbn [Z.eqb] in Heq.
    subst c j'. rewrite Heq. cbn [fst snd].
    split; [unfold base; lia|]. split; [unfold base; lia|].
    split.
    { intros x H1 H2. apply Hfr; [unfold base; lia|exact H2]. }
    split; [exact Hrt3|]. split; [rewrite Hd3; exact Hd|]. split; [exact Hm3|].
    cbv zeta. set (V := view (store_cell (base + Sp) v j3)).
    assert (HrefV : load64 (mem V) next = Z.lor base JUDY_span).
    { rewrite <- Href. unfold V, store_cell. cbn [mem view set_stack set_level set_mem].
      apply load64_store64_ne. unfold base. lia. }
    destruct (tagged_ref base JUDY_span) as [Htag Hbase];
      [unfold base; lia| |unfold JUDY_span; lia|].
    { unfold base. rewrite <- Zminus_mod_idemp_l, <- Zminus_mod_idemp_r, Hal, Hm8.
      reflexivity. }
    rewrite HrefV.
    apply (span_node_ok 0 cfg V buff L (Z.lor base JUDY_span) base off lvl (base + Sp));
      try assumption; try reflexivity.
    + intros H0. rewrite H0 in Htag. cbv in Htag. discriminate Htag.
    + unfold V. cbn [depth view set_stack set_level store_cell set_mem]. rewrite Hd3. exact Hd.
    + unfold V. cbn [max view set_stack set_level store_cell set_mem]. rewrite Hm3. lia.
    + unfold V. cbn [max view set_stack set_level store_cell set_mem]. rewrite Hm3. lia.
    + intros i Hi. rewrite <- Hby by exact Hi.
      unfold V. change (mem (view ?x)) with (mem x).
      apply load8_store_cell. lia.
    + fold Sp. unfold base. lia.
    + fold Sp. unfold V, store_cell. cbn [mem view set_stack set_level set_mem].
      rewrite load64_store64 by lia. lia.
    + fold Sp. intros H. lia.
  - (* a full span, and the rest below it *)
    destruct fuel as [|fuel]; [lia|].
    assert (Hge : Sp <= L - off).
    { pose proof (Z.div_mod (L - off) Sp ltac:(lia)) as Hdm.
      pose proof (Z.mod_pos_bound (L - off) Sp ltac:(lia)) as Hmb.
      rewrite <- Hn in Hdm. nia. }
    assert (Hn' : Z.of_nat n = (L - (off + Sp)) / Sp).
    { replace (L - (off + Sp)) with (L - off + (-1) * Sp) by lia.
      rewrite Z.div_add by lia. lia. }
    assert (Hroom1 : amt + 16 <= nx) by nia.
    destruct (span_iter cfg buff L fuel j next off a nx rest ltac:(lia) Hamt Hm8 Hbuf
                Hoff HL Hseg Hre Ha Hal ltac:(fold amt; lia) Hnx Hnext ltac:(lia))
      as (j3 & Heq & Hs3 & Hr3 & Hrt3 & Hd3 & Hm3 & Hby & Href & Hfr).
    fold Sp amt in Heq, Hby, Href, Hfr. set (base := a + nx - amt) in *.
    assert (Hlast : load8 (mem j3) (base + Sp - 1) <> 0).
    { replace (base + Sp - 1) with (base + (Sp - 1)) by lia. rewrite Hby by lia.
      unfold str_byte. destruct (Z.ltb_spec (off + (Sp - 1)) L); [|lia].
      apply Hnz. lia. }
    apply Z.eqb_neq in Hlast. rewrite Hlast in Heq.
    replace (Z.min (L - off) Sp) with Sp in Heq by lia.
    assert (Hre3 : forall t, reuse_get j3 t = 0).
    { intros t. unfold reuse_get. rewrite Hr3. apply Hre. }
    specialize (IH fuel j3 (base + Sp) (off + Sp) (lvl + 1) (nx - amt) Hn' ltac:(lia)
                  ltac:(lia) ltac:(rewrite Hd3; exact Hd) Hs3 Hre3).
    cbv zeta in IH. subst c j'. rewrite Heq.
    set (r := cell_spans cfg fuel buff L (base + Sp) (off + Sp) j3) in *.
    destruct IH as (Hc1 & Hc2 & Hfr' & Hrt' & Hd' & Hm' & Hw' & Hk').
    { replace (a + (nx - amt)) with (a + nx - amt) by lia.
      rewrite <- Zminus_mod_idemp_l, <- Zminus_mod_idemp_r, Hal, Hm8. reflexivity. }
    { nia. }
    { lia. }
    { unfold base. lia. }
    { unfold base. lia. }
    { lia. }
    { rewrite Hm3. lia. }
    { rewrite Hm3. exact Hmx. }
    split; [exact Hc1|]. split; [lia|].
    split.
    { intros x H1 H2. rewrite Hfr'; [apply Hfr; [unfold base; lia|exact H2]|lia|].
      unfold base. lia. }
    split; [rewrite Hrt'; exact Hrt3|]. split; [exact Hd'|].
    split; [rewrite Hm'; exact Hm3|].
    cbv zeta. set (V := view (store_cell (fst r) v (snd r))) in *.
    assert (HmV : forall x, base <= x -> ~ (base + Sp <= x < base + Sp + 8) ->
              load8 (mem V) x = load8 (mem j3) x).
    { intros x H1 H2. unfold V. change (mem (view ?y)) with (mem y).
      rewrite load8_store_cell by lia. apply Hfr'; [unfold base in *; lia|exact H2]. }
    assert (HrefV : load64 (mem V) next = Z.lor base JUDY_span).
    { rewrite <- Href. apply (agree_load64 (fun x => next <= x < next + 8));
        [|intros i Hi; exact Hi].
      intros x Hx. apply HmV; unfold base in *; lia. }
    destruct (tagged_ref base JUDY_span) as [Htag Hbase];
      [unfold base; lia| |unfold JUDY_span; lia|].
    { unfold base. rewrite <- Zminus_mod_idemp_l, <- Zminus_mod_idemp_r, Hal, Hm8.
      reflexivity. }
    rewrite HrefV.
    assert (Hchild : load64 (mem V) (base + Sp) <> 0).
    { apply wf_S in Hw'. apply Hw'. }
    apply (span_node_ok (S n) cfg V buff L (Z.lor base JUDY_span) base off lvl (fst r));
      try assumption; try reflexivity.
    + intros H0. rewrite H0 in Htag. cbv in Htag. discriminate Htag.
    + unfold V. cbn [max view set_stack set_level store_cell set_mem]. rewrite Hm', Hm3. lia.
    + unfold V. cbn [max view set_stack set_level store_cell set_mem]. rewrite Hm', Hm3. lia.
    + intros i Hi. rewrite <- Hby by exact Hi. apply HmV; lia.
    + fold Sp. unfold base. lia.
    + fold Sp. intros _. split; [exact Hw'|exact Hk'].
    + fold Sp. intros H. lia.
Qed.

(** [judy_cell] on an empty string array goes straight to the span loop *)
Lemma judy_cell_empty cfg fuel buff kmax j :
  root_slot j = 0 -> depth j = 0 ->
  judy_cell cfg (S fuel) buff kmax j
  = cell_spans cfg (S fuel) buff kmax (root j) 0 (set_level 0 j).
Proof.
  intros Hr Hd. unfold judy_cell. cbn [judy_cell_loop w_next root set_level mem].
  unfold root_slot in Hr. rewrite Hr. cbn [Z.eqb].
  unfold cell_digit. cbn [w_off w_next]. change (Z.land 0 JUDY_key_mask) with 0.
  cbn [Z.eqb negb andb depth set_level]. rewrite Hd. cbn [Z.eqb]. reflexivity.
Qed.

(** the first key of an empty string array whose reuse lists are empty
    and whose segment has room for the nodes of the key *)
Lemma first_key_build N cfg fuel fuel' buff v j a nx rest :
  let Sp := JUDY_span_bytes cfg in
  let amt := JudySize cfg (size_class cfg JUDY_span) in
  let L := Z.of_nat (length buff) in
  0 < Sp < 2 ^ 16 -> Sp + 8 <= amt -> amt mod 8 = 0 ->
  bytes buff -> ~ In 0 buff -> L < 2 ^ 31 -> 0 < v < 2 ^ 64 ->
  root_slot j = 0 -> depth j = 0 ->
  seg j = mkSeg a nx :: rest -> (forall t, reuse_get j t = 0) ->
  0 <= a -> (a + nx) mod 8 = 0 -> (L / Sp + 1) * amt + 16 <= nx -> nx < 2 ^ 32 ->
  a + nx <= root j -> root j + 8 <= 2 ^ 64 ->
  L < max j -> max j < 2 ^ 32 ->
  (Z.to_nat (L / Sp) < fuel)%nat -> (Z.to_nat (L / Sp) < N)%nat ->
  (N + Z.to_nat Sp <= fuel')%nat ->
  let c := fst (judy_cell cfg fuel buff L j) in
  let j2 := store_cell c v (snd (judy_cell cfg fuel buff L j)) in
  c <> 0 /\ load64 (mem j2) c = v /\
  wf_trie N cfg j2 = true /\ all_keys N cfg j2 = [(buff, c)] /\
  fst (judy_slot cfg fuel' buff L j2) = c.
Proof.
  intros Sp amt L HS Hamt Hm8 Hbuf Hnz HL Hv Hroot Hd Hseg Hre Ha Hal Hroom Hnx
    Hnext H64 Hmax Hmx Hfuel HN Hfuel' c j2.
  assert (Hq : 0 <= L / Sp) by (apply Z.div_pos; lia).
  assert (HqL : L / Sp <= L).
  { apply Z.div_le_upper_bound; [lia|]. nia. }
  destruct fuel as [|fuel]; [lia|].
  assert (Hnz' : forall i, 0 <= i < L -> buf_get buff i <> 0).
  { intros i Hi Hz. apply Hnz. rewrite <- Hz.
    rewrite <- (map_buf_get buff) at 2. apply in_map. apply In_seqZ. fold L. lia. }
  pose proof (cell_spans_build cfg buff v a rest HS Hamt Hm8 Hbuf Hnz' HL Hv Ha
                (Z.to_nat (L / Sp)) (S fuel) (set_level 0 j) (root j) 0 0 nx) as H.
  cbv zeta in H. fold L Sp amt in H.
  rewrite <- (judy_cell_empty cfg fuel buff L j Hroot Hd) in H.
  fold c in H.
  assert (Hid : Z.of_nat (Z.to_nat (L / Sp)) = L / Sp) by (apply Z2Nat.id; exact Hq).
  rewrite Hid, Z.sub_0_r in H.
  destruct H as (Hc1 & Hc2 & Hfr & Hrt & Hd' & Hm' & Hw & Hk);
    try assumption; try reflexivity; try lia.
  { cbn [max set_level]. lia. }
  fold j2 in Hw, Hk.
  change (mem (view j2)) with (mem j2) in Hw, Hk.
  assert (Hrj2 : root j2 = root j) by (unfold j2, store_cell; cbn [root set_mem]; exact Hrt).
  assert (Hrs : root_slot j2 = load64 (mem j2) (root j)).
  { unfold root_slot. rewrite Hrj2. reflexivity. }
  rewrite <- Hrs in Hw, Hk.
  assert (HkN' : (S (Z.to_nat (L / Sp)) <= N)%nat) by lia.
  destruct (wf_mono (S (Z.to_nat (L / Sp))) N cfg (view j2) _ _ _ _ HkN' Hw) as [HwN HkN].
  assert (Hkey : key_from (view j2) buff L 0 = buff).
  { unfold L. rewrite key_from_root. unfold key_of, j2, store_cell.
    cbn [depth set_mem]. rewrite Hd'. reflexivity. }
  assert (Hall : all_keys N cfg j2 = [(buff, c)]).
  { unfold all_keys. rewrite HkN, Hk, Hkey. reflexivity. }
  assert (Hwt : wf_trie N cfg j2 = true).
  { unfold wf_trie. rewrite HwN, orb_true_r, andb_true_r.
    unfold j2, store_cell. cbn [depth set_mem]. rewrite Hd'. reflexivity. }
  split; [lia|]. split.
  { unfold j2, store_cell. cbn [mem set_mem]. apply load64_store64. lia. }
  split; [exact Hwt|]. split; [exact Hall|].
  destruct (judy_slot_spec N cfg fuel' j2 buff L buff c Hwt) as (j3 & n & Hs & _).
  { rewrite Hall. left. reflexivity. }
  { symmetry. exact Hkey. }
  { exact Hbuf. }
  { intros _. lia. }
  { exact Hfuel'. }
  rewrite Hs. reflexivity.
Qed.

(** X12: the first key stored in a freshly opened string array.  When
    the handle fits in the first segment and the segment has room for
    the span nodes of the key, [judy_cell] on a key without zero byte,
    no longer than the maximum given to [judy_open], returns a cell; once
    the caller has stored a non-zero value there, the array is well
    formed, holds exactly that key with that cell, and [judy_slot] on
    the key returns the cell, which holds the value. *)
Theorem first_insert_round_trip N cfg fuel fuel' a h m kmax buff v j :
  let Sp := JUDY_span_bytes cfg in
  let amt := JudySize cfg (size_class cfg JUDY_span) in
  let L := Z.of_nat (length buff) in
  0 < Sp < 2 ^ 16 -> Sp + 8 <= amt -> amt mod 8 = 0 ->
  judy_open (a :: h) m kmax 0 = Some j ->
  0 <= a -> a + JUDY_seg <= 2 ^ 64 ->
  0 <= kmax -> sizeof_Judy + (kmax + 1) * sizeof_JudyStack + 8 <= JUDY_seg ->
  bytes buff -> ~ In 0 buff -> L <= kmax -> 0 < v < 2 ^ 64 ->
  (L / Sp + 1) * amt + 16 <= head_next j ->
  (Z.to_nat (L / Sp) < fuel)%nat -> (Z.to_nat (L / Sp) < N)%nat ->
  (N + Z.to_nat Sp <= fuel')%nat ->
  let c := fst (judy_cell cfg fuel buff L j) in
  let j2 := store_cell c v (snd (judy_cell cfg fuel buff L j)) in
  c <> 0 /\ load64 (mem j2) c = v /\
  wf_trie N cfg j2 = true /\ all_keys N cfg j2 = [(buff, c)] /\
  fst (judy_slot cfg fuel' buff L j2) = c.
Proof.
  intros Sp amt L HS Hamt Hm8 Hopen Ha Ha64 Hk Hfit Hbuf Hnz HL Hv Hroom Hfuel HN Hfuel'.
  unfold judy_open in Hopen. change (negb (0 =? 0)) with false in Hopen. cbv iota in Hopen.
  unfold sizeof_Judy, sizeof_JudyStack, JUDY_seg in Hfit.
  rewrite (u32_small (kmax + 1)) in Hopen by lia.
  set (amt0 := u32 (sizeof_Judy + (kmax + 1) * sizeof_JudyStack)) in Hopen.
  assert (Ha0 : amt0 = 8 * (14 + 2 * (kmax + 1))).
  { unfold amt0, sizeof_Judy, sizeof_JudyStack. rewrite u32_small by lia. lia. }
  assert (Hl7 : Z.land amt0 (JUDY_cache_line - 1) = 0).
  { change (JUDY_cache_line - 1) with 7. rewrite land7, Ha0, Z.mul_comm.
    apply Z.mod_mul. lia. }
  rewrite Hl7 in Hopen. cbn [Z.eqb negb] in Hopen.
  change (JUDY_cache_line - 1) with 7 in Hopen. rewrite land7 in Hopen.
  pose proof (Z.mod_pos_bound a 8 ltac:(lia)) as Hr8.
  unfold JUDY_seg in Hopen, Ha64.
  rewrite (u32_small (65536 - a mod 8)) in Hopen by lia.
  rewrite (u32_small (65536 - a mod 8 - amt0)) in Hopen by lia.
  set (nx := 65536 - a mod 8 - amt0) in Hopen.
  injection Hopen as Hj.
  assert (Hseg : seg j = mkSeg a nx :: []) by (rewrite <- Hj; reflexivity).
  assert (Hroot : root j = a + nx) by (rewrite <- Hj; reflexivity).
  assert (Hmax : max j = kmax + 1) by (rewrite <- Hj; reflexivity).
  assert (Hdep : depth j = 0) by (rewrite <- Hj; reflexivity).
  assert (Hre : forall t, reuse_get j t = 0).
  { intros t. rewrite <- Hj. unfold reuse_get. cbn [reuse]. rewrite lookup_empty. reflexivity. }
  assert (Hrs : root_slot j = 0).
  { unfold root_slot. rewrite <- Hj. cbn [mem root]. apply load64_zero. intros i Hi.
    rewrite load8_memset0.
    destruct (Z.leb_spec (a + nx) i); [|lia].
    destruct (Z.ltb_spec i (a + nx + Z.of_nat (Z.to_nat amt0))); [reflexivity|lia]. }
  assert (Hhn : head_next j = nx) by (unfold head_next; rewrite Hseg; reflexivity).
  rewrite Hhn in Hroom.
  assert (Hal : (a + nx) mod 8 = 0).
  { pose proof (Z.div_mod a 8 ltac:(lia)) as Hdm.
    replace (a + nx) with ((a / 8 + 8192 - (14 + 2 * (kmax + 1))) * 8) by (unfold nx; lia).
    apply Z.mod_mul. lia. }
  apply (first_key_build N cfg fuel fuel' buff v j a nx []); try assumption; try lia.
Qed.

Lemma first_insert_round_trip_witness :
  (judy_open [65536] ∅ 16 0 = Some (opened [65536] 16 0) /\
   bytes key_abc /\ 3 <= 16) /\
  let c := fst (judy_cell cfg_lp64 64 key_abc 3 (opened [65536] 16 0)) in
  let j2 := store_cell c 1 (snd (judy_cell cfg_lp64 64 key_abc 3 (opened [65536] 16 0))) in
  c <> 0 /\ load64 (mem j2) c = 1 /\
  wf_trie 4 cfg_lp64 j2 = true /\ all_keys 4 cfg_lp64 j2 = [(key_abc, c)] /\
  fst (judy_slot cfg_lp64 64 key_abc 3 j2) = c.
Proof.
  assert (Ho : judy_open [65536] ∅ 16 0 = Some (opened [65536] 16 0)) by reflexivity.
  assert (Hb : bytes key_abc) by reflexivity.
  assert (Hl : 3 <= 16) by lia.
  split; [exact (conj Ho (conj Hb Hl))|].
  assert (H1 : 0 < JUDY_span_bytes cfg_lp64 < 2 ^ 16) by (cbn; lia).
  assert (H2 : JUDY_span_bytes cfg_lp64 + 8 <= JudySize cfg_lp64 (size_class cfg_lp64 JUDY_span))
    by (vm_compute; discriminate).
  assert (H3 : JudySize cfg_lp64 (size_class cfg_lp64 JUDY_span) mod 8 = 0) by reflexivity.
  assert (H4 : 0 <= 65536) by lia.
  assert (H5 : 65536 + JUDY_seg <= 2 ^ 64) by (vm_compute; discriminate).
  assert (H6 : 0 <= 16) by lia.
  assert (H7 : sizeof_Judy + (16 + 1) * sizeof_JudyStack + 8 <= JUDY_seg)
    by (vm_compute; discriminate).
  assert (H8 : ~ In 0 key_abc) by (intros [H|[H|[H|[]]]]; discriminate).
  assert (H9 : Z.of_nat (length key_abc) <= 16) by (vm_compute; discriminate).
  assert (H10 : 0 < 1 < 2 ^ 64) by lia.
  assert (H11 : (Z.of_nat (length key_abc) / JUDY_span_bytes cfg_lp64 + 1)
                * JudySize cfg_lp64 (size_class cfg_lp64 JUDY_span) + 16
                <= head_next (opened [65536] 16 0)) by (vm_compute; discriminate).
  assert (H12 : (Z.to_nat (Z.of_nat (length key_abc) / JUDY_span_bytes cfg_lp64) < 64)%nat)
    by (vm_compute; lia).
  assert (H13 : (Z.to_nat (Z.of_nat (length key_abc) / JUDY_span_bytes cfg_lp64) < 4)%nat)
    by (vm_compute; lia).
  assert (H14 : (4 + Z.to_nat (JUDY_span_bytes cfg_lp64) <= 64)%nat) by (vm_compute; lia).
  exact (first_insert_round_trip 4 cfg_lp64 64 64 65536 [] ∅ 16 key_abc 1
           (opened [65536] 16 0) H1 H2 H3 Ho H4 H5 H6 H7 Hb H8 H9 H10 H11 H12 H13 H14).
Defined.

(** ** Traversal from the last key downwards ([judy_end], [judy_prv]) *)

(** ** Traversal downwards: the slot scans *)

Lemma set_frame_slot_twice a b j :
  set_frame_slot a (set_frame_slot b j) = set_frame_slot a j.
Proof.
  unfold set_frame_slot, frame, set_stack.
  cbn [stack level root reuse seg max depth mem heap].
  rewrite !lookup_insert_eq. cbn [default fr_next fr_off fr_slot].
  rewrite !insert_insert_eq. reflexivity.
Qed.

Lemma filter_seqZ_snoc (P : Z -> bool) (a n : Z) :
  0 < n ->
  List.filter P (seqZ a n)
  = List.filter P (seqZ a (n - 1)) ++ (if P (a + n - 1) then [a + n - 1] else []).
Proof.
  intros H. replace n with ((n - 1) + 1) at 1 by lia.
  rewrite seqZ_app by lia. rewrite List.filter_app.
  rewrite (seqZ_cons' (a + (n - 1)) 1) by lia. rewrite (seqZ_nil' _ (1 - 1)) by lia.
  cbn [List.filter]. replace (a + (n - 1)) with (a + n - 1) by lia. reflexivity.
Qed.

Lemma land240 b : 0 <= b < 256 -> Z.land b 240 = 16 * (b / 16).
Proof.
  intros Hb.
  apply (byte_cases (fun b => Z.land b 240 =? 16 * (b / 16))) in Hb;
    [|vm_compute; reflexivity].
  apply Z.eqb_eq in Hb. exact Hb.
Qed.

(** no used byte in a stretch that shares an empty inner table, going down *)
Lemma filter_skip_down m next s :
  0 <= s < 256 -> rad_inner m next s = 0 ->
  List.filter (rad_used m next) (seqZ 0 (s + 1))
  = List.filter (rad_used m next) (seqZ 0 (Z.land s 240)).
Proof.
  intros Hs Hi. pose proof (land240 s Hs) as Hl.
  pose proof (Z.div_mod s 16 ltac:(lia)) as Hdm.
  pose proof (Z.mod_pos_bound s 16 ltac:(lia)) as Hm.
  replace (s + 1) with (Z.land s 240 + (s + 1 - Z.land s 240)) by lia.
  rewrite seqZ_app by lia. rewrite List.filter_app.
  rewrite (filter_none _ (seqZ _ (s + 1 - Z.land s 240))); [apply app_nil_r|].
  intros c Hc. apply In_seqZ in Hc. apply rad_used_outer.
  rewrite (rad_inner_same m next s c); [exact Hi|].
  rewrite !Z.shiftr_div_pow2 by lia. change (2 ^ 4) with 16.
  symmetry. apply (Z.div_unique c 16 (s / 16) (c - 16 * (s / 16))); lia.
Qed.

(** the scan of [judy_last] finds the last used byte below [s] *)
Lemma last_radix_spec n next : forall s nx j,
  0 <= s <= 256 -> (Z.to_nat s < n)%nat ->
  match rev (List.filter (rad_used (mem j) next) (seqZ 0 s)) with
  | [] => exists s' nx' j', last_radix n (base_of next) s nx j = (s', nx', false, j')
  | b :: _ =>
      last_radix n (base_of next) s nx j
      = (b, load64 (mem j) (rad_cell (mem j) next b), true, set_frame_slot b j)
  end.
Proof.
  induction n as [|k IH]; intros s nx j Hs Hn; [lia|].
  cbn [last_radix]. destruct (Z.eqb_spec s 0) as [H0|H0].
  - subst s. cbn [List.filter rev seqZ]. rewrite seqZ_nil' by lia. cbn [List.filter rev].
    eauto.
  - change (mem (set_frame_slot (s - 1) j)) with (mem j).
    fold (rad_inner (mem j) next (s - 1)).
    destruct (Z.eqb_spec (rad_inner (mem j) next (s - 1)) 0) as [Hz|Hnz]; cbn [negb].
    + pose proof (filter_skip_down (mem j) next (s - 1) ltac:(lia) Hz) as Hsk.
      replace (s - 1 + 1) with s in Hsk by lia. rewrite Hsk.
      pose proof (land240 (s - 1) ltac:(lia)) as Hl.
      pose proof (Z.div_mod (s - 1) 16 ltac:(lia)) as Hdm.
      pose proof (Z.mod_pos_bound (s - 1) 16 ltac:(lia)) as Hm.
      specialize (IH (Z.land (s - 1) 240) nx (set_frame_slot (s - 1) j)
                    ltac:(lia) ltac:(lia)).
      change (mem (set_frame_slot (s - 1) j)) with (mem j) in IH.
      destruct (rev (List.filter (rad_used (mem j) next) (seqZ 0 (Z.land (s - 1) 240))))
        as [|b tl]; [exact IH|].
      rewrite set_frame_slot_twice in IH. exact IH.
    + fold (rad_cell (mem j) next (s - 1)).
      rewrite filter_seqZ_snoc by lia. rewrite rev_app_distr.
      replace (0 + s - 1) with (s - 1) by lia. unfold rad_used at 1.
      destruct (Z.eqb_spec (rad_inner (mem j) next (s - 1)) 0) as [|_]; [contradiction|].
      cbn [negb andb].
      destruct (Z.eqb_spec (load64 (mem j) (rad_cell (mem j) next (s - 1))) 0) as [Hc|Hc];
        cbn [negb rev app].
      * specialize (IH (s - 1) (load64 (mem j) (rad_cell (mem j) next (s - 1)))
                      (set_frame_slot (s - 1) j) ltac:(lia) ltac:(lia)).
        change (mem (set_frame_slot (s - 1) j)) with (mem j) in IH.
        destruct (rev (List.filter (rad_used (mem j) next) (seqZ 0 (s - 1))))
          as [|b tl]; [exact IH|].
        rewrite set_frame_slot_twice in IH. exact IH.
      * reflexivity.
Qed.

(** the scan of [judy_prv] finds the last used byte below the frame's *)
Lemma prv_radix_spec n next : forall s j,
  fr_slot (frame j (level j)) = s -> 0 <= s -> (Z.to_nat s < n)%nat ->
  prv_radix n (base_of next) s j
  = match rev (List.filter (rad_used (mem j) next) (seqZ 0 s)) with
    | [] => (None, if s =? 0 then j else set_frame_slot 0 j)
    | b :: _ => (Some b, set_frame_slot b j)
    end.
Proof.
  induction n as [|k IH]; intros s j Hf Hs Hn; [lia|].
  cbn [prv_radix]. destruct (Z.eqb_spec s 0) as [H0|H0].
  - subst s. rewrite seqZ_nil' by lia. reflexivity.
  - rewrite Hf.
    change (mem (set_frame_slot (s - 1) j)) with (mem j).
    fold (rad_inner (mem j) next (s - 1)). fold (rad_cell (mem j) next (s - 1)).
    rewrite filter_seqZ_snoc by lia. rewrite rev_app_distr.
    replace (0 + s - 1) with (s - 1) by lia.
    fold (rad_used (mem j) next (s - 1)).
    destruct (rad_used (mem j) next (s - 1)) eqn:Hu; cbn [rev app]; [reflexivity|].
    rewrite (IH (s - 1) (set_frame_slot (s - 1) j)); try lia.
    + change (mem (set_frame_slot (s - 1) j)) with (mem j).
      destruct (rev (List.filter (rad_used (mem j) next) (seqZ 0 (s - 1)))) as [|b tl];
        [|rewrite set_frame_slot_twice; reflexivity].
      destruct (Z.eqb_spec (s - 1) 0) as [H1|H1];
        [rewrite H1; reflexivity|rewrite set_frame_slot_twice; reflexivity].
    + unfold set_frame_slot, frame. cbn [stack level set_stack].
      rewrite lookup_insert_eq. reflexivity.
Qed.

Lemma filter_seqZ_last (P : Z -> bool) (a n b : Z) (l : list Z) :
  List.filter P (seqZ a n) = l ++ [b] ->
  a <= b < a + n /\ P b = true /\ l = List.filter P (seqZ a (b - a)).
Proof.
  destruct (Z.le_gt_cases n 0) as [Hn|Hn];
    [rewrite seqZ_nil' by lia; intros H; destruct l; discriminate|].
  rewrite <- (Z2Nat.id n) by lia. generalize (Z.to_nat n) as k. clear Hn n.
  induction k as [|k IH]; [intros H; destruct l; discriminate|].
  rewrite filter_seqZ_snoc by lia.
  replace (Z.of_nat (S k) - 1) with (Z.of_nat k) by lia.
  replace (a + Z.of_nat (S k) - 1) with (a + Z.of_nat k) by lia.
  destruct (P (a + Z.of_nat k)) eqn:Hp.
  - intros H. apply app_inj_tail in H. destruct H as [H1 H2]. subst b.
    split; [lia|]. split; [exact Hp|].
    rewrite <- H1. f_equal. f_equal. lia.
  - rewrite app_nil_r. intros H. apply IH in H. destruct H as (H1 & H2 & H3).
    split; [lia|]. split; [exact H2|exact H3].
Qed.

Lemma rev_cons_inv {A : Type} (l : list A) b tl :
  rev l = b :: tl -> l = rev tl ++ [b].
Proof.
  intros H. apply (f_equal (@rev A)) in H. rewrite rev_involutive in H.
  rewrite H. reflexivity.
Qed.

Lemma lin_child_off off :
  0 <= off -> off + (JUDY_key_size - Z.land off JUDY_key_mask) = Z.lor off JUDY_key_mask + 1.
Proof.
  intros H. unfold JUDY_key_size, JUDY_key_mask. change (8 - 1) with 7.
  rewrite land7, lor7 by exact H. lia.
Qed.

Lemma last_turn_lin cfg j next off dpt :
  is_lin next -> level j < max j -> 0 <= off ->
  let i := lin_cnt cfg next off - 1 in
  let si := lin_info cfg (view j) next off dpt i in
  judy_last_turn cfg (mkWalk next off dpt 0) j
  = if si_leaf si then Return (si_cell si) (entered j next off (Some i))
    else Continue (mkWalk (load64 (mem j) (si_cell si)) (child_off cfg next off)
                     (child_dpt (view j) next off dpt) 0)
           (entered j next off (Some i)).
Proof.
  intros [Hr Hs] Hl Hoff. unfold judy_last_turn. rewrite push_level_lt by exact Hl.
  cbn [w_next w_off w_depth]. rewrite frame_swap.
  apply Z.eqb_neq in Hr. apply Z.eqb_neq in Hs. rewrite Hr, Hs.
  unfold child_off, child_dpt. rewrite Hr, Hs.
  rewrite (lin_child_off off Hoff).
  unfold lin_info, is_leaf_key, entered, lin_cnt, lin_node, lin_cell, lin_ks.
  cbn [si_leaf si_cell]. see_through.
  destruct (depth j =? 0); reflexivity.
Qed.

Lemma last_turn_rad cfg j next off dpt b tl :
  depth j = 0 ->
  tag_of next = JUDY_radix -> level j < max j ->
  rev (List.filter (rad_used (mem j) next) (seqZ 0 256)) = b :: tl ->
  let si := rad_info (view j) next off dpt b in
  judy_last_turn cfg (mkWalk next off dpt 0) j
  = if si_leaf si then Return (si_cell si) (entered j next off (Some b))
    else Continue (mkWalk (load64 (mem j) (si_cell si)) (child_off cfg next off)
                     (child_dpt (view j) next off dpt) 0)
           (entered j next off (Some b)).
Proof.
  intros Hd Hr Hl Hf. unfold judy_last_turn. rewrite push_level_lt by exact Hl.
  cbn [w_next w_off w_depth]. rewrite frame_swap. rewrite Hr.
  change (JUDY_radix =? JUDY_radix) with true. cbv iota.
  unfold child_off, child_dpt. rewrite Hr.
  change (JUDY_radix =? JUDY_radix) with true. cbv iota.
  set (j1 := set_frame_next next (set_frame_off off (set_level (level j + 1) j))).
  pose proof (last_radix_spec 257 next 256 next j1 ltac:(lia) ltac:(vm_compute; lia)) as Hs.
  change (mem j1) with (mem j) in Hs. rewrite Hf in Hs. rewrite Hs.
  unfold rad_info, rad_dpt, is_leaf_slot, rad_cell, rad_inner.
  cbn [si_leaf si_cell]. change (depth (set_frame_slot b j1)) with (depth j).
  change (depth (view j)) with (depth j). change (depth j1) with (depth j).
  change (mem (set_frame_slot b j1)) with (mem j). change (mem (view j)) with (mem j).
  rewrite Hd. change (0 =? 0) with true. cbn [negb andb orb].
  rewrite !orb_false_r.
  destruct (Z.eqb_spec b 0) as [H0|H0]; [|reflexivity].
  subst b. change (Z.land 0 15) with 0. change (Z.shiftr 0 4) with 0.
  change (8 * 0) with 0. rewrite !Z.add_0_r. reflexivity.
Qed.

Lemma last_turn_span cfg j next off dpt :
  tag_of next = JUDY_span -> level j < max j ->
  let si := span_info cfg (view j) next in
  judy_last_turn cfg (mkWalk next off dpt 0) j
  = if si_leaf si then Return (si_cell si) (entered j next off None)
    else Continue (mkWalk (load64 (mem j) (si_cell si)) (child_off cfg next off)
                     (child_dpt (view j) next off dpt) 0)
           (entered j next off None).
Proof.
  intros Hs Hl. unfold judy_last_turn. rewrite push_level_lt by exact Hl.
  cbn [w_next w_off w_depth]. rewrite frame_swap. rewrite Hs.
  change (JUDY_span =? JUDY_radix) with false.
  change (JUDY_span =? JUDY_span) with true. cbv iota.
  unfold child_off, child_dpt. rewrite Hs.
  change (JUDY_span =? JUDY_radix) with false.
  change (JUDY_span =? JUDY_span) with true. cbv iota.
  unfold span_info, entered. cbn [si_leaf si_cell]. see_through.
  reflexivity.
Qed.

Lemma last_turn_spec_rad cfg j next off :
  depth j = 0 ->
  tag_of next = JUDY_radix -> level j < max j ->
  node_slots cfg (view j) next off (dpt_at (view j) off) <> [] ->
  exists pre si s, last_turn_result cfg j next off (dpt_at (view j) off) pre si s.
Proof.
  intros Hd Hr Hl Hne. set (dpt := dpt_at (view j) off) in *.
  rewrite node_slots_rad in Hne by exact Hr. rewrite rad_slots_0 in Hne.
  destruct (rev (List.filter (rad_used (mem j) next) (seqZ 0 256))) as [|b tl] eqn:Hf.
  { apply (f_equal (@rev Z)) in Hf. rewrite rev_involutive in Hf. cbn [rev] in Hf.
    rewrite Hf in Hne. contradiction. }
  pose proof (rev_cons_inv _ _ _ Hf) as Hfl.
  exists (List.map (rad_info (view j) next off dpt) (rev tl)),
         (rad_info (view j) next off dpt b), (Some b).
  unfold last_turn_result.
  split; [rewrite node_slots_rad by exact Hr; rewrite rad_slots_0, Hfl, List.map_app;
          reflexivity|].
  split; [apply (last_turn_rad cfg j next off dpt b tl); assumption|].
  rewrite entered_frame. unfold frame_si, frame_before. cbn [fr_next fr_off fr_slot].
  rewrite Hr. change (JUDY_radix =? JUDY_radix) with true. cbv iota.
  fold dpt. split; [reflexivity|].
  apply filter_seqZ_last in Hfl. destruct Hfl as (_ & _ & ->).
  change (mem (view j)) with (mem j). rewrite Z.sub_0_r. reflexivity.
Qed.

Lemma last_turn_spec_span cfg j next off :
  tag_of next = JUDY_span -> level j < max j ->
  exists pre si s, last_turn_result cfg j next off (dpt_at (view j) off) pre si s.
Proof.
  intros Hs Hl.
  exists [], (span_info cfg (view j) next), None. unfold last_turn_result.
  split; [apply node_slots_span, Hs|].
  split; [apply last_turn_span; [exact Hs|lia]|].
  rewrite entered_frame_none. unfold frame_si, frame_before.
  cbn [fr_next fr_off fr_slot]. rewrite Hs.
  change (JUDY_span =? JUDY_radix) with false.
  change (JUDY_span =? JUDY_span) with true. cbv iota. split; reflexivity.
Qed.

Lemma lin_slots_snoc cfg V next off dpt from :
  from < lin_cnt cfg next off ->
  lin_slots cfg V next off dpt from
  = List.map (lin_info cfg V next off dpt) (seqZ from (lin_cnt cfg next off - 1 - from))
    ++ [lin_info cfg V next off dpt (lin_cnt cfg next off - 1)].
Proof.
  intros H. unfold lin_slots.
  replace (lin_cnt cfg next off - from) with ((lin_cnt cfg next off - 1 - from) + 1) at 1
    by lia.
  rewrite seqZ_app by lia. rewrite List.map_app.
  rewrite (seqZ_cons' _ 1) by lia. rewrite (seqZ_nil' _ (1 - 1)) by lia.
  cbn [List.map]. f_equal. f_equal. f_equal. lia.
Qed.

Lemma last_turn_spec_lin cfg j next off :
  is_lin next -> level j < max j -> 0 <= off ->
  node_slots cfg (view j) next off (dpt_at (view j) off) <> [] ->
  exists pre si s, last_turn_result cfg j next off (dpt_at (view j) off) pre si s.
Proof.
  intros Hlin Hl Hoff Hne. set (dpt := dpt_at (view j) off) in *.
  rewrite node_slots_lin in Hne by exact Hlin.
  set (f := lin_first cfg (view j) next off) in *.
  destruct (Z.lt_ge_cases f (lin_cnt cfg next off)) as [Hf|Hf];
    [|rewrite lin_slots_nil in Hne by lia; contradiction].
  exists (List.map (lin_info cfg (view j) next off dpt)
            (seqZ f (lin_cnt cfg next off - 1 - f))),
         (lin_info cfg (view j) next off dpt (lin_cnt cfg next off - 1)),
         (Some (lin_cnt cfg next off - 1)).
  unfold last_turn_result.
  split; [rewrite node_slots_lin by exact Hlin; fold f;
          apply lin_slots_snoc; exact Hf|].
  split; [apply last_turn_lin; [exact Hlin|lia|exact Hoff]|].
  rewrite entered_frame. unfold frame_si, frame_before. cbn [fr_next fr_off fr_slot].
  destruct Hlin as [Hr Hs]. apply Z.eqb_neq in Hr. apply Z.eqb_neq in Hs.
  rewrite Hr, Hs. fold dpt. fold f. split; reflexivity.
Qed.

(** one step of [judy_last] on a well-formed node of a string tree takes
    its last slot *)
Lemma last_turn_spec k cfg j next off dpt :
  depth j = 0 ->
  wf (S k) cfg (view j) next off dpt (level j) = true ->
  exists pre si s, last_turn_result cfg j next off dpt pre si s.
Proof.
  intros Hd0 H. apply wf_S in H.
  destruct H as (Hn & Hl & _ & Hoff & _ & Hd & _ & _ & Hne & _ & _).
  assert (Hl' : level j < max j) by (destruct Hl as [_ Hl]; exact Hl).
  subst dpt.
  destruct (tag_cases next) as [Hr|[Hs|Hlin]].
  - apply last_turn_spec_rad; assumption.
  - apply last_turn_spec_span; assumption.
  - apply last_turn_spec_lin; assumption.
Qed.

(** ** The slots before a frame belong to its node *)

(** the slots of a node: those before the frame's, the frame's, those after *)
Lemma frame_split_before cfg V f :
  In (frame_si cfg V f)
     (node_slots cfg V (fr_next f) (fr_off f) (dpt_at V (fr_off f))) ->
  node_slots cfg V (fr_next f) (fr_off f) (dpt_at V (fr_off f))
  = frame_before cfg V f ++ frame_si cfg V f :: frame_after cfg V f.
Proof.
  intros Hin. unfold frame_si, frame_after, frame_before in *.
  destruct (tag_cases (fr_next f)) as [Hr|[Hs|Hlin]].
  - rewrite node_slots_rad in * by exact Hr. rewrite Hr in *.
    change (JUDY_radix =? JUDY_radix) with true in *. cbv iota in *.
    apply rad_slots_in in Hin; [|lia]. destruct Hin as (b & Hb & Hu & Heq).
    apply (f_equal si_slot) in Heq. cbn [si_slot rad_info] in Heq.
    rewrite Heq. unfold rad_slots.
    replace (256 - 0) with (b + (1 + (256 - (b + 1)))) by lia.
    rewrite seqZ_app by lia. rewrite (seqZ_app _ 1) by lia.
    rewrite (seqZ_cons' (0 + b) 1) by lia. rewrite (seqZ_nil' _ (1 - 1)) by lia.
    rewrite !List.filter_app. cbn [List.filter app].
    replace (0 + b) with b by lia. rewrite Hu.
    rewrite List.map_app. cbn [List.map app]. reflexivity.
  - rewrite node_slots_span in * by exact Hs. rewrite Hs in *.
    change (JUDY_span =? JUDY_radix) with false in *.
    change (JUDY_span =? JUDY_span) with true in *. cbv iota in *.
    reflexivity.
  - rewrite node_slots_lin in * by exact Hlin.
    destruct Hlin as [Hr Hs]. apply Z.eqb_neq in Hr. apply Z.eqb_neq in Hs.
    rewrite Hr, Hs in *.
    apply lin_slots_in in Hin. destruct Hin as (i & Hi & Heq).
    apply (f_equal si_slot) in Heq. cbn [si_slot lin_info] in Heq.
    rewrite Heq. unfold lin_slots.
    set (fst_ := lin_first cfg V (fr_next f) (fr_off f)) in *.
    set (cnt := lin_cnt cfg (fr_next f) (fr_off f)) in *.
    replace (cnt - fst_) with ((i - fst_) + (1 + (cnt - (i + 1)))) by lia.
    rewrite seqZ_app by lia. rewrite (seqZ_app _ 1) by lia.
    rewrite (seqZ_cons' (fst_ + (i - fst_)) 1) by lia.
    rewrite (seqZ_nil' _ (1 - 1)) by lia.
    rewrite List.map_app. cbn [List.map app].
    replace (fst_ + (i - fst_)) with i by lia. reflexivity.
Qed.

Lemma frame_before_incl cfg V f :
  In (frame_si cfg V f)
     (node_slots cfg V (fr_next f) (fr_off f) (dpt_at V (fr_off f))) ->
  forall si, In si (frame_before cfg V f) ->
  In si (node_slots cfg V (fr_next f) (fr_off f) (dpt_at V (fr_off f))).
Proof.
  intros Hin si Hsi. rewrite (frame_split_before cfg V f Hin).
  apply in_or_app. left. exact Hsi.
Qed.

Lemma frame_bexp_mono k k' cfg V st i :
  (k <= k')%nat -> frame_ok k cfg V st i ->
  frame_bexp k' cfg V (frame_at st i) = frame_bexp k cfg V (frame_at st i).
Proof.
  intros Hle [Hw Hin]. destruct k as [|k0]; [discriminate|].
  apply wf_S in Hw. destruct Hw as (_ & _ & _ & _ & _ & _ & _ & _ & _ & Hsl & _).
  unfold frame_bexp.
  assert (Hb : forall si, In si (frame_before cfg V (frame_at st i)) ->
                below k0 cfg V (fr_next (frame_at st i)) (fr_off (frame_at st i))
                  (dpt_at V (fr_off (frame_at st i))) (i - 1) si = true).
  { intros si Hsi. apply (frame_before_incl cfg V _ Hin) in Hsi.
    apply (Hsl si Hsi). }
  rewrite (expand_mono k0 k' cfg V _ _ _ _ _ ltac:(lia) Hb).
  rewrite (expand_mono k0 (S k0) cfg V _ _ _ _ _ ltac:(lia) Hb).
  reflexivity.
Qed.

Lemma before_mono k k' cfg V st lo n :
  (k <= k')%nat ->
  (forall i, lo < i <= lo + Z.of_nat n -> frame_ok k cfg V st i) ->
  before k' cfg V st lo n = before k cfg V st lo n.
Proof.
  intros Hle. induction n as [|n IH]; intros H; [reflexivity|].
  cbn [before]. rewrite (frame_bexp_mono k k') by (try exact Hle; apply H; lia).
  rewrite IH by (intros i Hi; apply H; lia). reflexivity.
Qed.

Lemma before_shift N cfg V st lo n :
  before N cfg V st lo (S n)
  = before N cfg V st (lo + 1) n ++ frame_bexp N cfg V (frame_at st (lo + 1)).
Proof.
  induction n as [|n IH].
  - cbn [before]. rewrite app_nil_r. reflexivity.
  - change (before N cfg V st lo (S (S n)))
      with (frame_bexp N cfg V (frame_at st (lo + Z.of_nat (S (S n))))
            ++ before N cfg V st lo (S n)).
    rewrite IH. cbn [before]. rewrite <- app_assoc. f_equal. f_equal. f_equal. lia.
Qed.

Lemma before_ext N cfg V st st' lo n :
  (forall i, lo < i <= lo + Z.of_nat n -> frame_at st' i = frame_at st i) ->
  before N cfg V st' lo n = before N cfg V st lo n.
Proof.
  induction n as [|n IH]; intros H; [reflexivity|].
  cbn [before]. rewrite H by lia. rewrite IH by (intros i Hi; apply H; lia).
  reflexivity.
Qed.

Lemma before_app N cfg V st lo m n :
  before N cfg V st lo (m + n)
  = before N cfg V st (lo + Z.of_nat n) m ++ before N cfg V st lo n.
Proof.
  induction m as [|m IH]; [reflexivity|].
  cbn [Nat.add before]. rewrite IH, <- app_assoc. f_equal. f_equal. f_equal. lia.
Qed.

Lemma before_top N cfg V st l :
  1 <= l ->
  before N cfg V st 0 (Z.to_nat l)
  = frame_bexp N cfg V (frame_at st l) ++ before N cfg V st 0 (Z.to_nat (l - 1)).
Proof.
  intros Hl. replace (Z.to_nat l) with (S (Z.to_nat (l - 1))) by lia.
  cbn [before]. f_equal. f_equal. f_equal. lia.
Qed.

(** the frame a descent step of [judy_last] leaves is a good one *)
Lemma last_frame_ok k cfg j next off dpt pre si s :
  wf (S k) cfg (view j) next off dpt (level j) = true ->
  last_turn_result cfg j next off dpt pre si s ->
  frame_ok (S k) cfg (view j) (stack (entered j next off s)) (level j + 1).
Proof.
  intros Hw (Hns & _ & Hsi & _).
  pose proof Hw as Hw'. apply wf_S in Hw'.
  destruct Hw' as (_ & _ & _ & _ & _ & Hd & _).
  destruct (entered_fields j next off s) as [Hfn Hfo].
  unfold frame_ok. cbv zeta. rewrite Hsi, Hfn, Hfo, <- Hd, Hns.
  replace (level j + 1 - 1) with (level j) by lia.
  split; [exact Hw|apply in_or_app; right; left; reflexivity].
Qed.

Lemma expand_app n cfg V next off dpt a b :
  expand n cfg V next off dpt (a ++ b)
  = expand n cfg V next off dpt a ++ expand n cfg V next off dpt b.
Proof. unfold expand. apply flat_map_app. Qed.

(** [judy_last] below a well-formed slot of a string tree returns the
    last cell and leaves the cursor on it *)
Lemma judy_last_spec k cfg :
  forall fuel j next off dpt,
  depth j = 0 ->
  wf k cfg (view j) next off dpt (level j) = true -> (k <= fuel)%nat ->
  exists c j' n,
    judy_last cfg fuel next off dpt j = (c, j') /\ c <> 0 /\
    store_of j' = store_of j /\ level j' = level j + Z.of_nat (S n) /\
    (forall i, i <= level j -> frame_at (stack j') i = frame_at (stack j) i) /\
    (forall i, level j < i <= level j' -> frame_ok k cfg (view j) (stack j') i) /\
    rev (List.map snd (keys k cfg (view j) next off dpt))
    = c :: before k cfg (view j) (stack j') (level j) (S n).
Proof.
  induction k as [|k IH]; intros fuel j next off dpt Hd0 Hw Hfuel; [discriminate|].
  destruct fuel as [|fuel]; [lia|].
  destruct (last_turn_spec k cfg j next off dpt Hd0 Hw) as (pre & si & s & Hres).
  pose proof (last_frame_ok k cfg j next off dpt pre si s Hw Hres) as Hfok.
  destruct Hres as (Hns & Hturn & Hsi & Hbefore).
  pose proof Hw as Hw'. apply wf_S in Hw'.
  destruct Hw' as (Hn & Hl & _ & _ & _ & Hd & _ & _ & _ & Hsl & _).
  assert (Hbelow : forall x, In x (pre ++ [si]) ->
            below k cfg (view j) next off dpt (level j) x = true).
  { intros x Hx. rewrite <- Hns in Hx. apply (Hsl x Hx). }
  destruct (Hsl si ltac:(rewrite Hns; apply in_or_app; right; left; reflexivity))
    as (Hc0 & _ & _ & Hb).
  destruct (entered_fields j next off s) as [Hfn Hfo].
  assert (Hpre : frame_bexp (S k) cfg (view j)
                   (frame_at (stack (entered j next off s)) (level j + 1))
                 = rev (expand k cfg (view j) next off dpt pre)).
  { unfold frame_bexp. rewrite Hbefore, Hfn, Hfo, <- Hd. f_equal.
    apply (expand_mono k (S k) cfg (view j) next off dpt (level j)); [lia|].
    intros x Hx. apply Hbelow. apply in_or_app. left. exact Hx. }
  cbn [judy_last]. apply Z.eqb_neq in Hn. rewrite Hn. rewrite Hturn.
  rewrite keys_cells by (apply Z.eqb_neq; exact Hn). rewrite Hns.
  rewrite expand_app, rev_app_distr.
  unfold below in Hb. destruct (si_leaf si) eqn:Hleaf.
  - exists (si_cell si), (entered j next off s), O.
    split; [reflexivity|]. split; [exact Hc0|].
    split; [apply entered_store|]. split; [apply entered_level|].
    split; [intros i Hi; apply entered_frame_ne; lia|].
    split.
    + intros i Hi. rewrite entered_level in Hi.
      replace i with (level j + 1) by lia. exact Hfok.
    + unfold expand at 1. cbn [flat_map]. rewrite Hleaf. cbn [app rev]. f_equal.
      cbn [before]. rewrite app_nil_r.
      change (Z.of_nat 1) with 1. rewrite Hpre. reflexivity.
  - cbn [orb] in Hb. cbn [w_next w_off w_depth].
    set (j1 := entered j next off s) in *.
    assert (Hv : view j1 = view j) by apply entered_view.
    assert (Hl1 : level j1 = level j + 1) by apply entered_level.
    assert (Hd1 : depth j1 = 0) by (unfold j1; destruct s; exact Hd0).
    destruct (IH fuel j1 (load64 (mem j) (si_cell si)) (child_off cfg next off)
                (child_dpt (view j) next off dpt)) as (c & j' & n & Hf & Hcn & Hst & Hlv & Hfr & Hok & Hk).
    { exact Hd1. }
    { rewrite Hv, Hl1. exact Hb. }
    { lia. }
    rewrite Hv in Hok, Hk. rewrite Hl1 in Hlv, Hfr, Hok, Hk.
    exists c, j', (S n).
    split; [exact Hf|]. split; [exact Hcn|].
    split; [rewrite Hst; apply entered_store|].
    split; [rewrite Hlv; lia|].
    split; [intros i Hi; rewrite Hfr by lia; apply entered_frame_ne; lia|].
    split.
    + intros i Hi. destruct (Z.eq_dec i (level j + 1)) as [->|Hne].
      * apply (frame_ok_ext _ _ _ (stack j1)); [apply Hfr; lia|exact Hfok].
      * apply (frame_ok_mono k (S k)); [lia|]. apply Hok. lia.
    + unfold expand at 1. cbn [flat_map]. rewrite Hleaf, app_nil_r.
      change (mem (view j)) with (mem j). rewrite Hk.
      rewrite (before_shift (S k)). cbn [app]. f_equal.
      rewrite (before_mono k (S k)) by (try lia; intros i Hi; apply Hok; lia).
      f_equal. rewrite Hfr by lia. fold j1. exact (eq_sym Hpre).
Qed.

(** ** The digit count does not matter in a string tree *)

Lemma last_turn_string cfg next off dpt dpt' j :
  depth j = 0 ->
  judy_last_turn cfg (mkWalk next off dpt 0) j
  = match judy_last_turn cfg (mkWalk next off dpt' 0) j with
    | Return p j' => Return p j'
    | Continue w j' => Continue (mkWalk (w_next w) (w_off w) dpt (w_test w)) j'
    end.
Proof.
  intros Hd. unfold judy_last_turn.
  cbn [w_next w_off w_depth].
  set (j1 := set_frame_off off (set_frame_next next (push_level j))).
  assert (Hd1 : depth j1 = 0).
  { unfold j1, push_level. destruct (level j <? max j); exact Hd. }
  destruct (tag_of next =? JUDY_radix).
  - rewrite Hd1. change (0 =? 0) with true. cbn [negb andb].
    destruct (last_radix 257 (base_of next) 256 next j1) as [[[slot nx] found] j2] eqn:Hlr.
    pose proof (last_radix_store 257 (base_of next) 256 next j1) as Hst.
    rewrite Hlr in Hst. cbn [snd] in Hst.
    assert (Hd2 : depth j2 = 0).
    { apply (f_equal (fun s => snd s)) in Hst. cbn [snd store_of] in Hst.
      rewrite Hst. exact Hd1. }
    unfold is_leaf_slot. rewrite Hd2. change (0 =? 0) with true. cbn [negb andb orb].
    destruct found; [|reflexivity]. destruct (slot =? 0); reflexivity.
  - destruct (tag_of next =? JUDY_span).
    + destruct (load8 (mem j1) (base_of next + JUDY_span_bytes cfg - 1) =? 0); reflexivity.
    + unfold is_leaf_key. change (depth (set_frame_slot _ j1)) with (depth j1).
      rewrite Hd1. change (0 =? 0) with true. cbv iota.
      match goal with |- context [if ?b then _ else _] => destruct b end; reflexivity.
Qed.

Lemma judy_last_string cfg fuel next off dpt dpt' j :
  depth j = 0 ->
  judy_last cfg fuel next off dpt j = judy_last cfg fuel next off dpt' j.
Proof.
  revert next off dpt dpt' j.
  induction fuel as [|k IH]; intros next off dpt dpt' j Hd; [reflexivity|].
  cbn [judy_last]. destruct (next =? 0); [reflexivity|].
  rewrite (last_turn_string cfg next off dpt dpt' j Hd).
  pose proof (last_turn_store cfg (mkWalk next off dpt' 0) j) as Hs.
  destruct (judy_last_turn cfg (mkWalk next off dpt' 0) j) as [p j'|w j'];
    [reflexivity|].
  cbn [w_next w_off w_depth]. apply IH.
  cbn [turn_state] in Hs. apply (f_equal snd) in Hs. cbn [snd store_of] in Hs.
  rewrite Hs. exact Hd.
Qed.

Lemma judy_last_null cfg fuel off dpt j : judy_last cfg fuel 0 off dpt j = (0, j).
Proof. destruct fuel; reflexivity. Qed.

(** ** One turn of [judy_prv] *)

Lemma prv_turn_span cfg fuel j :
  tag_of (fr_next (frame_at (stack j) (level j))) = JUDY_span ->
  judy_prv_turn cfg fuel j
  = prv_turn_result cfg fuel j
      (rev (frame_before cfg (view j) (frame_at (stack j) (level j)))).
Proof.
  intros Hs. unfold judy_prv_turn, frame_before, prv_turn_result, prv_rest, frame.
  fold (frame_at (stack j) (level j)). rewrite Hs. reflexivity.
Qed.

Lemma prv_turn_rad cfg fuel j :
  let f := frame_at (stack j) (level j) in
  depth j = 0 ->
  tag_of (fr_next f) = JUDY_radix -> 0 <= fr_slot f ->
  judy_prv_turn cfg fuel j
  = prv_turn_result cfg fuel j (rev (frame_before cfg (view j) f)).
Proof.
  intros f Hd Hr Hslot. unfold judy_prv_turn, frame_before, prv_turn_result, prv_rest, frame.
  fold (frame_at (stack j) (level j)). fold f. rewrite Hr.
  change (JUDY_radix =? JUDY_radix) with true. cbv iota.
  rewrite (prv_radix_spec (S (Z.to_nat (fr_slot f))) (fr_next f) (fr_slot f) j);
    [|reflexivity|exact Hslot|lia].
  change (mem (view j)) with (mem j). rewrite <- List.map_rev.
  destruct (rev (List.filter (rad_used (mem j) (fr_next f)) (seqZ 0 (fr_slot f))))
    as [|b tl] eqn:Hf.
  { cbn [List.map andb]. destruct (fr_slot f =? 0); reflexivity. }
  cbn [List.map]. unfold rad_info at 1 2 3. cbn [si_leaf si_cell si_slot].
  unfold child_off, child_dpt. rewrite Hr.
  change (JUDY_radix =? JUDY_radix) with true. cbv iota.
  change (mem (set_frame_slot b j)) with (mem j).
  fold (rad_inner (mem j) (fr_next f) b). fold (rad_cell (mem j) (fr_next f) b).
  change (mem (view j)) with (mem j).
  unfold is_leaf_slot. change (depth (view j)) with (depth j).
  change (depth (set_frame_slot b j)) with (depth j).
  rewrite Hd. change (0 =? 0) with true. cbn [negb andb orb]. rewrite !orb_false_r.
  destruct (Z.eqb_spec b 0) as [Hb0|Hb0].
  - subst b. unfold rad_cell. change (Z.land 0 15) with 0. change (8 * 0) with 0.
    rewrite Z.add_0_r. reflexivity.
  - rewrite (judy_last_string cfg fuel _ _ _
               (rad_dpt (view j) (fr_off f) (dpt_at (view j) (fr_off f))));
      [reflexivity|exact Hd].
Qed.

Lemma prv_turn_lin N cfg fuel j :
  let f := frame_at (stack j) (level j) in
  depth j = 0 -> is_lin (fr_next f) ->
  frame_ok N cfg (view j) (stack j) (level j) ->
  judy_prv_turn cfg fuel j
  = prv_turn_result cfg fuel j (rev (frame_before cfg (view j) f)).
Proof.
  intros f Hd Hlin [Hw Hin]. fold f in Hw, Hin.
  destruct N as [|N]; [discriminate|]. apply wf_S in Hw.
  destruct Hw as (_ & _ & _ & Hoff & _ & _ & _ & _ & _ & Hsl & _).
  rewrite node_slots_lin in Hin, Hsl by exact Hlin.
  pose proof Hin as Hin'. apply lin_slots_in in Hin'.
  destruct Hin' as (i & Hi & Heq). apply (f_equal si_slot) in Heq.
  unfold frame_si in Heq. destruct Hlin as [Hr Hs].
  apply Z.eqb_neq in Hr. apply Z.eqb_neq in Hs. rewrite Hr, Hs in Heq.
  cbn [si_slot lin_info] in Heq. subst i.
  set (fst_ := lin_first cfg (view j) (fr_next f) (fr_off f)) in *.
  set (cnt := lin_cnt cfg (fr_next f) (fr_off f)) in *.
  assert (Hcnt0 : 0 <= cnt - fst_) by lia.
  pose proof (first_used_spec (S (Z.to_nat cnt)) (mem j) (lin_node cfg (fr_next f))
                cnt 0 ltac:(lia) ltac:(lia)) as Hfu.
  cbv zeta in Hfu.
  assert (Hfst : first_used (S (Z.to_nat cnt)) (mem j) (lin_node cfg (fr_next f)) cnt 0
                 = fst_) by reflexivity.
  rewrite Hfst in Hfu. destruct Hfu as (Hf0 & _ & Hzero & _).
  unfold judy_prv_turn, frame_before, prv_turn_result, prv_rest, frame.
  fold (frame_at (stack j) (level j)). fold f. rewrite Hr, Hs. cbn [andb].
  fold fst_. fold (lin_node cfg (fr_next f)).
  destruct (Z.le_gt_cases (fr_slot f) fst_) as [Hle|Hgt].
  - rewrite seqZ_nil' by lia. cbn [List.map rev].
    destruct (Z.eqb_spec (fr_slot f) 0) as [H0|H0]; [reflexivity|]. cbn [orb].
    rewrite (proj2 (Z.eqb_eq _ 0)); [reflexivity|].
    replace (lin_node cfg (fr_next f) - 8 * fr_slot f)
      with (lin_node cfg (fr_next f) - 8 * (fr_slot f - 1 + 1)) by (f_equal; lia).
    apply Hzero. lia.
  - destruct (Z.eqb_spec (fr_slot f) 0) as [H0|H0]; [lia|]. cbn [orb].
    assert (Hprev : In (lin_info cfg (view j) (fr_next f) (fr_off f)
                          (dpt_at (view j) (fr_off f)) (fr_slot f - 1))
                      (lin_slots cfg (view j) (fr_next f) (fr_off f)
                         (dpt_at (view j) (fr_off f)) fst_)).
    { apply lin_slots_in. exists (fr_slot f - 1). split; [fold cnt; lia|reflexivity]. }
    destruct (Hsl _ Hprev) as (_ & Hnz & _). cbn [si_cell lin_info] in Hnz.
    unfold lin_cell in Hnz. change (mem (view j)) with (mem j) in Hnz.
    replace (fr_slot f - 1 + 1) with (fr_slot f) in Hnz by lia.
    apply Z.eqb_neq in Hnz. rewrite Hnz.
    replace (fr_slot f - fst_) with ((fr_slot f - 1 - fst_) + 1) by lia.
    rewrite seqZ_app by lia. rewrite (seqZ_cons' _ 1) by lia.
    rewrite (seqZ_nil' _ (1 - 1)) by lia. rewrite List.map_app, rev_app_distr.
    cbn [List.map rev app].
    replace (fst_ + (fr_slot f - 1 - fst_)) with (fr_slot f - 1) by lia.
    unfold lin_info, is_leaf_key, child_off, child_dpt, dpt_at.
    rewrite Hr, Hs. cbn [si_leaf si_cell si_slot fst snd]. see_through.
    rewrite Hd. change (0 =? 0) with true. cbv iota. cbn [fst snd].
    unfold lin_cell, lin_ks. replace (fr_slot f - 1 + 1) with (fr_slot f) by lia.
    fold (lin_node cfg (fr_next f)).
    destruct (load8 (mem j) (base_of (fr_next f)
                + (fr_slot f - 1) * (JUDY_key_size - Z.land (fr_off f) JUDY_key_mask)) =? 0);
      [reflexivity|].
    rewrite (judy_last_string cfg fuel _ _ (fr_off f / JUDY_key_size) 0);
      [reflexivity|exact Hd].
Qed.

(** a turn of [judy_prv] in a string tree looks at the slots before the
    top frame *)
Lemma prv_turn_spec N cfg fuel j :
  depth j = 0 ->
  frame_ok N cfg (view j) (stack j) (level j) ->
  judy_prv_turn cfg fuel j
  = prv_turn_result cfg fuel j
      (rev (frame_before cfg (view j) (frame_at (stack j) (level j)))).
Proof.
  intros Hd Hok. destruct (frame_ok_facts N cfg _ _ _ Hok) as (_ & _ & _ & Hs & _).
  destruct (tag_cases (fr_next (frame_at (stack j) (level j)))) as [Hr|[Hsp|Hlin]].
  - apply prv_turn_rad; [exact Hd|exact Hr|apply Hs, Hr].
  - apply prv_turn_span, Hsp.
  - apply (prv_turn_lin N); assumption.
Qed.

(** ** A step of the cursor backwards *)

Lemma frame_before_in cfg V f si :
  In si (frame_before cfg V f) ->
  frame_si cfg V (mkFrame (fr_next f) (fr_off f) (si_slot si)) = si.
Proof.
  unfold frame_before, frame_si. cbn [fr_next fr_off fr_slot].
  destruct (tag_of (fr_next f) =? JUDY_radix) eqn:Hr.
  - rewrite in_map_iff. intros (b & <- & _). reflexivity.
  - destruct (tag_of (fr_next f) =? JUDY_span) eqn:Hs.
    + intros [].
    + rewrite in_map_iff. intros (b & <- & _). reflexivity.
Qed.

Lemma map_snoc_inv {A B : Type} (F : A -> B) (l : list A) (x : B) (r : list B) :
  rev (List.map F l) = x :: r ->
  exists b l', l = l' ++ [b] /\ x = F b /\ r = rev (List.map F l').
Proof.
  intros H. rewrite <- List.map_rev in H.
  destruct (rev l) as [|b tl] eqn:E; [discriminate|].
  cbn [List.map] in H. injection H as Hx Hr.
  exists b, (rev tl). split; [apply rev_cons_inv, E|]. split; [auto|].
  rewrite <- List.map_rev, rev_involutive. auto.
Qed.

Lemma frame_before_prev cfg V f si rest :
  rev (frame_before cfg V f) = si :: rest ->
  frame_before cfg V (mkFrame (fr_next f) (fr_off f) (si_slot si)) = rev rest.
Proof.
  unfold frame_before. cbn [fr_next fr_off fr_slot].
  destruct (tag_of (fr_next f) =? JUDY_radix) eqn:Hr.
  - intros H. apply map_snoc_inv in H. destruct H as (b & l' & Hl & -> & ->).
    cbn [si_slot rad_info]. rewrite rev_involutive.
    apply filter_seqZ_last in Hl. destruct Hl as (_ & _ & ->).
    rewrite Z.sub_0_r. reflexivity.
  - destruct (tag_of (fr_next f) =? JUDY_span) eqn:Hs; [discriminate|].
    set (fst_ := lin_first cfg V (fr_next f) (fr_off f)).
    destruct (Z.le_gt_cases (fr_slot f) fst_) as [Hle|Hgt].
    + rewrite seqZ_nil' by lia. discriminate.
    + replace (fr_slot f - fst_) with ((fr_slot f - 1 - fst_) + 1) by lia.
      rewrite seqZ_app by lia. rewrite (seqZ_cons' _ 1) by lia.
      rewrite (seqZ_nil' _ (1 - 1)) by lia. rewrite List.map_app, rev_app_distr.
      cbn [List.map rev app]. intros [= <- <-]. cbn [si_slot lin_info].
      rewrite rev_involutive.
      replace (fst_ + (fr_slot f - 1 - fst_)) with (fr_slot f - 1) by lia.
      reflexivity.
Qed.

Lemma prv_rest_facts j :
  level (prv_rest j) = level j /\ store_of (prv_rest j) = store_of j /\
  forall i, i <> level j -> frame_at (stack (prv_rest j)) i = frame_at (stack j) i.
Proof.
  unfold prv_rest.
  destruct ((tag_of (fr_next (frame_at (stack j) (level j))) =? JUDY_radix)
            && negb (fr_slot (frame_at (stack j) (level j)) =? 0)).
  - split; [reflexivity|]. split; [reflexivity|]. intros i Hi. apply slot_frame_ne, Hi.
  - auto.
Qed.

(** when a slot precedes the top frame, [judy_prv] returns the last cell
    below it and leaves a good cursor on it; the cells before the cursor
    are the former ones less this one *)
Lemma prv_turn_some N cfg fuel j si rest :
  depth j = 0 ->
  1 <= level j -> cursor_inv N cfg j -> (N <= fuel)%nat ->
  rev (frame_before cfg (view j) (frame_at (stack j) (level j))) = si :: rest ->
  exists c j',
    judy_prv_turn cfg fuel j = Return c j' /\ c <> 0 /\
    store_of j' = store_of j /\ cursor_inv N cfg j' /\ 1 <= level j' /\
    c :: gone N cfg j' = gone N cfg j.
Proof.
  intros Hd0 Hl1 [_ Hinv] Hfuel Hbefore.
  pose proof (Hinv (level j) ltac:(lia)) as Htop.
  rewrite (prv_turn_spec N cfg fuel j Hd0 Htop), Hbefore. unfold prv_turn_result.
  set (f := frame_at (stack j) (level j)) in *.
  set (j1 := set_frame_slot (si_slot si) j).
  pose proof (rev_cons_inv _ _ _ Hbefore) as Hfb.
  assert (Hin : In si (frame_before cfg (view j) f)).
  { rewrite Hfb. apply in_or_app. right. left. reflexivity. }
  assert (Hf1 : frame_at (stack j1) (level j)
                = mkFrame (fr_next f) (fr_off f) (si_slot si)) by apply slot_frame.
  assert (Hsi1 : frame_si cfg (view j) (frame_at (stack j1) (level j)) = si)
    by (rewrite Hf1; apply frame_before_in; exact Hin).
  assert (Hbf1 : frame_before cfg (view j) (frame_at (stack j1) (level j)) = rev rest)
    by (rewrite Hf1; apply frame_before_prev; exact Hbefore).
  destruct Htop as [Hw Hinf]. fold f in Hw, Hinf.
  assert (Hnode : In si (node_slots cfg (view j) (fr_next f) (fr_off f)
                           (dpt_at (view j) (fr_off f))))
    by (apply (frame_before_incl cfg (view j) f Hinf), Hin).
  assert (Hok1 : forall i, 1 <= i <= level j -> frame_ok N cfg (view j) (stack j1) i).
  { intros i Hi. destruct (Z.eq_dec i (level j)) as [->|Hne].
    - unfold frame_ok. cbv zeta. rewrite Hsi1, Hf1. cbn [fr_next fr_off].
      split; [exact Hw|exact Hnode].
    - apply (frame_ok_ext _ _ _ (stack j)); [apply slot_frame_ne; lia|].
      apply Hinv. lia. }
  assert (Hgone : gone N cfg j
                  = rev (expand N cfg (view j) (fr_next f) (fr_off f)
                           (dpt_at (view j) (fr_off f)) [si])
                    ++ before N cfg (view j) (stack j1) 0 (Z.to_nat (level j))).
  { unfold gone. rewrite (before_top N cfg (view j) (stack j)) by lia.
    rewrite (before_top N cfg (view j) (stack j1)) by lia.
    unfold frame_bexp at 1 2. fold f. rewrite Hbf1, Hf1. cbn [fr_next fr_off].
    rewrite Hfb, expand_app, rev_app_distr.
    rewrite (before_ext N cfg (view j) (stack j) (stack j1))
      by (intros i Hi; apply slot_frame_ne; lia).
    rewrite app_assoc. reflexivity. }
  destruct N as [|N0]; [discriminate|].
  pose proof Hw as Hw'. apply wf_S in Hw'.
  destruct Hw' as (_ & _ & _ & _ & _ & _ & _ & _ & _ & Hsl & _).
  destruct (Hsl si Hnode) as (Hc0 & _ & _ & Hb). unfold below in Hb.
  destruct (si_leaf si) eqn:Hleaf.
  - exists (si_cell si), j1.
    split; [reflexivity|]. split; [exact Hc0|]. split; [reflexivity|].
    split; [apply (cursor_inv_store _ _ j j1 (level j)); [reflexivity|reflexivity|lia|exact Hok1]|].
    split; [exact Hl1|].
    rewrite Hgone. unfold expand. cbn [flat_map]. rewrite Hleaf. reflexivity.
  - cbn [orb] in Hb. replace (level j - 1 + 1) with (level j) in Hb by lia.
    apply (wf_mono N0 (S N0)) in Hb; [|lia]. destruct Hb as [Hb _].
    destruct (judy_last_spec (S N0) cfg fuel j1
                (load64 (mem j) (si_cell si)) (child_off cfg (fr_next f) (fr_off f))
                (child_dpt (view j) (fr_next f) (fr_off f) (dpt_at (view j) (fr_off f))))
      as (c & j' & n & Hf & Hcn & Hst & Hlv & Hfr & Hok & Hk).
    { exact Hd0. }
    { exact Hb. }
    { exact Hfuel. }
    change (view j1) with (view j) in Hok, Hk.
    change (level j1) with (level j) in Hlv, Hfr, Hok, Hk.
    rewrite Hf. exists c, j'.
    split; [reflexivity|]. split; [exact Hcn|]. split; [exact Hst|].
    split.
    { apply (cursor_inv_store _ _ j j' (level j')); [exact Hst|reflexivity|lia|].
      intros i Hi. destruct (Z.le_gt_cases i (level j)) as [Hle|Hgt].
      - apply (frame_ok_ext _ _ _ (stack j1)); [apply Hfr; lia|]. apply Hok1. lia.
      - apply Hok. lia. }
    split; [lia|].
    rewrite Hgone. unfold expand. cbn [flat_map]. rewrite Hleaf, app_nil_r.
    change (mem (view j)) with (mem j). rewrite Hk. cbn [app]. f_equal.
    unfold gone. rewrite (view_store _ _ Hst), Hlv.
    replace (Z.to_nat (level j + Z.of_nat (S n))) with (S n + Z.to_nat (level j))%nat by lia.
    rewrite before_app. rewrite Z2Nat.id by lia. rewrite Z.add_0_l. f_equal.
    apply before_ext. intros i Hi. apply Hfr. lia.
Qed.

(** ** [judy_prv] steps back through the cells before the cursor *)

Lemma prv_pop N cfg j :
  1 <= level j -> cursor_inv N cfg j ->
  rev (frame_before cfg (view j) (frame_at (stack j) (level j))) = [] ->
  let j' := pop_level (prv_rest j) in
  level j' = level j - 1 /\ cursor_inv N cfg j' /\ store_of j' = store_of j /\
  gone N cfg j' = gone N cfg j.
Proof.
  intros Hl [H0 Hinv] Hb j'.
  destruct (frame_ok_facts N cfg _ _ _ (Hinv (level j) ltac:(lia))) as (Hm & Hm2 & _).
  change (max (view j)) with (max j) in Hm, Hm2.
  destruct (prv_rest_facts j) as (Hrl & Hrs & Hrf).
  assert (Hp : level j' = level j - 1).
  { unfold j'. rewrite pop_level_ok; rewrite Hrl; lia. }
  assert (Hst : store_of j' = store_of j) by exact Hrs.
  assert (Hfr : forall i, i <> level j -> frame_at (stack j') i = frame_at (stack j) i)
    by exact Hrf.
  split; [exact Hp|]. split.
  { apply (cursor_inv_store _ _ j j' (level j - 1)); [exact Hst|exact Hp|lia|].
    intros i Hi. apply (frame_ok_ext _ _ _ (stack j)); [apply Hfr; lia|].
    apply Hinv. lia. }
  split; [exact Hst|].
  unfold gone. rewrite Hp, (view_store _ _ Hst).
  rewrite (before_top N cfg (view j) (stack j) (level j)) by lia.
  unfold frame_bexp.
  apply (f_equal (@rev slot_info)) in Hb. rewrite rev_involutive in Hb. cbn [rev] in Hb.
  rewrite Hb. cbn [expand flat_map rev app].
  apply before_ext. intros i Hi. apply Hfr. lia.
Qed.

Lemma prv_loop_spec N cfg fuel :
  forall n fuel2 j,
  depth j = 0 ->
  level j = Z.of_nat n -> cursor_inv N cfg j ->
  (N <= fuel)%nat -> (n < fuel2)%nat ->
  prv_result N cfg j (judy_prv_loop cfg fuel2 fuel j).
Proof.
  induction n as [|n IH]; intros fuel2 j Hd0 Hl Hinv Hfuel Hf2;
    (destruct fuel2 as [|f2]; [lia|]); cbn [judy_prv_loop].
  - rewrite Hl. change (Z.of_nat 0 =? 0) with true. cbv iota.
    unfold prv_result, gone. rewrite Hl. cbn [before Z.to_nat Z.of_nat fst snd].
    split; [reflexivity|]. split; [exact Hl|reflexivity].
  - destruct (Z.eqb_spec (level j) 0) as [Hz|_]; [lia|].
    assert (Hl1 : 1 <= level j) by lia.
    destruct (rev (frame_before cfg (view j) (frame_at (stack j) (level j))))
      as [|si rest] eqn:Hbefore.
    + pose proof Hinv as Hinv0. destruct Hinv as [H0 Hi].
      pose proof (Hi (level j) ltac:(lia)) as Htop.
      rewrite (prv_turn_spec N cfg fuel j Hd0 Htop), Hbefore. cbn [prv_turn_result].
      destruct (prv_pop N cfg j Hl1 Hinv0 Hbefore) as (Hp & Hinv' & Hst & Hg).
      assert (Hd' : depth (pop_level (prv_rest j)) = 0).
      { apply (f_equal (fun s => snd s)) in Hst. cbn [snd store_of] in Hst.
        rewrite Hst. exact Hd0. }
      specialize (IH f2 (pop_level (prv_rest j)) Hd' ltac:(lia) Hinv' Hfuel ltac:(lia)).
      unfold prv_result in *. rewrite Hg in IH.
      destruct (gone N cfg j) as [|c tl].
      * destruct IH as (H1 & H2 & H3). split; [exact H1|]. split; [exact H2|].
        rewrite H3. exact Hst.
      * destruct IH as (H1 & H2 & H3 & H4). split; [exact H1|]. split; [exact H2|].
        split; [rewrite H3; exact Hst|exact H4].
    + destruct (prv_turn_some N cfg fuel j si rest Hd0 Hl1 Hinv Hfuel Hbefore)
        as (c & j' & Ht & Hc0 & Hst & Hinv' & Hl' & Hg).
      rewrite Ht. unfold prv_result. rewrite <- Hg. cbv beta iota. cbn [fst snd].
      split; [reflexivity|]. split; [exact Hc0|]. split; [exact Hst|].
      split; [exact Hinv'|]. split; [exact Hl'|reflexivity].
Qed.

Lemma judy_prv_spec N cfg fuel j :
  depth j = 0 ->
  1 <= level j -> cursor_inv N cfg j ->
  (N <= fuel)%nat -> (Z.to_nat (max j) < fuel)%nat ->
  prv_result N cfg j (judy_prv cfg fuel j).
Proof.
  intros Hd0 Hl Hinv Hfuel Hmax. unfold judy_prv.
  destruct (Z.eqb_spec (level j) 0) as [Hz|_]; [lia|].
  destruct Hinv as [H0 Hi].
  destruct (frame_ok_facts N cfg _ _ _ (Hi (level j) ltac:(lia))) as (Hm & _).
  change (max (view j)) with (max j) in Hm.
  apply (prv_loop_spec N cfg fuel (Z.to_nat (level j))); try assumption.
  - lia.
  - split; assumption.
  - lia.
Qed.

Lemma store_depth j j' : store_of j' = store_of j -> depth j' = depth j.
Proof. unfold store_of. intros H. injection H as _ _ _ _ _ _ Hd. exact Hd. Qed.

(** repeated [judy_prv] returns the cells before the cursor, the nearest
    first, then NULL *)
Lemma prv_cells_gone N cfg fuel :
  forall cells j,
  depth j = 0 ->
  gone N cfg j = cells -> 1 <= level j -> cursor_inv N cfg j ->
  (N <= fuel)%nat -> (Z.to_nat (max j) < fuel)%nat ->
  prv_cells (S (length cells)) cfg fuel j = cells.
Proof.
  induction cells as [|c rest IH]; intros j Hd0 Hc Hl Hinv Hfuel Hmax.
  - pose proof (judy_prv_spec N cfg fuel j Hd0 Hl Hinv Hfuel Hmax) as Hr.
    unfold prv_result in Hr. rewrite Hc in Hr. destruct Hr as (Hr & _).
    cbn [prv_cells length]. destruct (judy_prv cfg fuel j) as [p j'].
    cbn [fst] in Hr. rewrite Hr. reflexivity.
  - pose proof (judy_prv_spec N cfg fuel j Hd0 Hl Hinv Hfuel Hmax) as Hr.
    unfold prv_result in Hr. rewrite Hc in Hr.
    destruct Hr as (Hr & Hc0 & Hst & Hinv' & Hl' & Hg).
    change (prv_cells (S (length (c :: rest))) cfg fuel j)
      with (let '(c0, j') := judy_prv cfg fuel j in
            if c0 =? 0 then [] else c0 :: prv_cells (S (length rest)) cfg fuel j').
    destruct (judy_prv cfg fuel j) as [p j']. cbn [fst snd] in *. subst p.
    apply Z.eqb_neq in Hc0. rewrite Hc0. f_equal.
    apply IH; try assumption.
    + rewrite (store_depth _ _ Hst). exact Hd0.
    + rewrite (store_max _ _ Hst). exact Hmax.
Qed.

(** ** From the root, backwards *)

Lemma last_root N cfg fuel j :
  depth j = 0 ->
  wf N cfg (view j) (root_slot j) 0 0 0 = true -> level j = 0 ->
  (N <= fuel)%nat ->
  exists c j',
    judy_last cfg fuel (root_slot j) 0 0 j = (c, j') /\ c <> 0 /\
    store_of j' = store_of j /\ cursor_inv N cfg j' /\ 1 <= level j' /\
    rev (List.map snd (all_keys N cfg j)) = c :: gone N cfg j'.
Proof.
  intros Hd0 Hw Hl Hfuel.
  destruct (judy_last_spec N cfg fuel j (root_slot j) 0 0)
    as (c & j' & n & Hf & Hc & Hst & Hlv & Hfr & Hok & Hk).
  { exact Hd0. }
  { rewrite Hl. exact Hw. }
  { exact Hfuel. }
  rewrite Hl in Hlv, Hok, Hk. exists c, j'.
  split; [exact Hf|]. split; [exact Hc|]. split; [exact Hst|].
  split; [apply (cursor_inv_store _ _ j j' (level j')); [exact Hst|reflexivity|lia|];
          intros i Hi; apply Hok; lia|].
  split; [lia|].
  unfold all_keys, gone. rewrite Hk, (view_store _ _ Hst), Hlv.
  rewrite Z.add_0_l, Nat2Z.id. reflexivity.
Qed.

(** on a well-formed string trie, [judy_end] followed by [judy_prv] as
    often as there are keys returns the cells of the keys in the reverse
    of their order, and then NULL *)
Lemma end_prv_cells N cfg fuel j :
  depth j = 0 -> wf_trie N cfg j = true ->
  (N <= fuel)%nat -> (Z.to_nat (max j) < fuel)%nat ->
  let r := judy_end cfg fuel j in
  (if fst r =? 0 then []
   else fst r :: prv_cells (length (all_keys N cfg j)) cfg fuel (snd r))
  = rev (List.map snd (all_keys N cfg j)).
Proof.
  intros Hd0 Hw Hfuel Hmax r. subst r. unfold judy_end.
  change (mem (set_level 0 j)) with (mem j). change (root (set_level 0 j)) with (root j).
  fold (root_slot j).
  destruct (wf_trie_inv N cfg j Hw) as [H0|Hwf].
  - unfold all_keys. rewrite H0, keys_root_empty, judy_last_null. reflexivity.
  - destruct (last_root N cfg fuel (set_level 0 j) Hd0 Hwf eq_refl Hfuel)
      as (c & j' & Hf & Hc & Hst & Hinv & Hl' & Hk).
    change (root_slot (set_level 0 j)) with (root_slot j) in Hf.
    change (all_keys N cfg (set_level 0 j)) with (all_keys N cfg j) in Hk.
    rewrite Hf. cbn [fst snd]. apply Z.eqb_neq in Hc. rewrite Hc. rewrite Hk. f_equal.
    assert (Hlen : length (all_keys N cfg j) = S (length (gone N cfg j'))).
    { rewrite <- (length_map snd), <- length_rev, Hk. reflexivity. }
    rewrite Hlen.
    apply (prv_cells_gone N); try assumption; try reflexivity.
    + rewrite (store_depth _ _ Hst). exact Hd0.
    + rewrite (store_max _ _ Hst). exact Hmax.
Qed.

(** X13: in a well-formed string trie that is not empty, [judy_end]
    returns the cell of the greatest key, and [judy_prv] called
    repeatedly after it returns the cells of the other keys from the
    greatest to the least, each once, and then NULL. *)
Theorem end_then_prv_visits_keys_descending N cfg fuel (j : Judy)
    (pre : list (list Z * Z)) (k : list Z) (c : Z) :
  wf_trie N cfg j = true -> depth j = 0 ->
  all_keys N cfg j = pre ++ [(k, c)] ->
  (N <= fuel)%nat -> (Z.to_nat (max j) < fuel)%nat ->
  let r := judy_end cfg fuel j in
  fst r = c /\ c <> 0 /\
  prv_cells (S (length pre)) cfg fuel (snd r) = rev (List.map snd pre) /\
  List.Forall (fun kc => lex (fst kc) k) pre.
Proof.
  intros Hw Hd0 Hall Hfuel Hmax r.
  pose proof (end_prv_cells N cfg fuel j Hd0 Hw Hfuel Hmax) as H.
  cbv zeta in H. fold r in H.
  rewrite Hall, List.map_app, rev_app_distr, length_app in H.
  cbn [List.map rev app length snd] in H. rewrite Nat.add_1_r in H.
  destruct (Z.eqb_spec (fst r) 0) as [H0|H0]; [discriminate|].
  injection H as Hc Hp. split; [exact Hc|]. split; [rewrite <- Hc; exact H0|].
  split; [exact Hp|].
  pose proof (all_keys_sorted N cfg j Hw) as Hsrt.
  rewrite Hall, List.map_app in Hsrt. cbn [List.map fst] in Hsrt.
  apply sorted_split in Hsrt. destruct Hsrt as [H1 _].
  rewrite List.Forall_map in H1. exact H1.
Qed.

Lemma end_then_prv_visits_keys_descending_witness :
  (wf_trie 4 cfg_lp64 (trie3 cfg_lp64) = true /\ depth (trie3 cfg_lp64) = 0 /\
   all_keys 4 cfg_lp64 (trie3 cfg_lp64)
   = firstn 2 (all_keys 4 cfg_lp64 (trie3 cfg_lp64))
     ++ [(key_abe, fst (judy_end cfg_lp64 64 (trie3 cfg_lp64)))]) /\
  prv_cells 3 cfg_lp64 64 (snd (judy_end cfg_lp64 64 (trie3 cfg_lp64)))
  = rev (List.map snd (firstn 2 (all_keys 4 cfg_lp64 (trie3 cfg_lp64)))).
Proof.
  assert (Hw : wf_trie 4 cfg_lp64 (trie3 cfg_lp64) = true) by (vm_compute; reflexivity).
  assert (Hd : depth (trie3 cfg_lp64) = 0) by (vm_compute; reflexivity).
  assert (Ha : all_keys 4 cfg_lp64 (trie3 cfg_lp64)
               = firstn 2 (all_keys 4 cfg_lp64 (trie3 cfg_lp64))
                 ++ [(key_abe, fst (judy_end cfg_lp64 64 (trie3 cfg_lp64)))])
    by (vm_compute; reflexivity).
  assert (Hf : (4 <= 64)%nat) by lia.
  assert (Hm : (Z.to_nat (max (trie3 cfg_lp64)) < 64)%nat)
    by (replace (max (trie3 cfg_lp64)) with 17 by (vm_compute; reflexivity); lia).
  split; [exact (conj Hw (conj Hd Ha))|].
  exact (proj1 (proj2 (proj2
    (end_then_prv_visits_keys_descending 4 cfg_lp64 64 (trie3 cfg_lp64)
       (firstn 2 (all_keys 4 cfg_lp64 (trie3 cfg_lp64))) key_abe
       (fst (judy_end cfg_lp64 64 (trie3 cfg_lp64))) Hw Hd Ha Hf Hm)))).
Defined.

(** ** The cursor [judy_slot] leaves, and what precedes it *)

(** the entries of the trie split at the key [judy_slot] found: the
    entries before it are the cells before the cursor *)
Lemma slot_loop_before k cfg buff kmax :
  forall fuel j next off dpt test key c,
  wf k cfg (view j) next off dpt (level j) = true ->
  In (key, c) (keys k cfg (view j) next off dpt) ->
  key = key_from (view j) buff kmax off ->
  bytes buff -> (depth j = 0 -> off <= kmax < 2 ^ 31) ->
  (k + Z.to_nat (JUDY_span_bytes cfg) <= fuel)%nat ->
  exists pre rest,
    keys k cfg (view j) next off dpt = pre ++ (key, c) :: rest /\
    let j' := snd (judy_slot_loop cfg fuel buff kmax (mkWalk next off dpt test) j) in
    rev (List.map snd pre)
    = before k cfg (view j) (stack j') (level j) (Z.to_nat (level j' - level j)).
Proof.
  induction k as [|k IH]; intros fuel j next off dpt test key c Hw Hin Hkey Hbuf Hk Hfuel;
    [discriminate|].
  destruct fuel as [|fuel]; [lia|].
  pose proof Hw as Hw'. apply wf_S in Hw'.
  destruct Hw' as (Hn & Hl & _ & _ & _ & Hd & _ & _ & _ & Hsl & _).
  destruct (keys_in k cfg (view j) next off dpt key c Hn Hin)
    as (si & rest0 & Hsi & Hsplit & Hrest).
  destruct (Hsl si Hsi) as (Hc0 & _ & _ & Hb).
  destruct (key_matches k cfg (view j) buff kmax next off dpt (level j) si rest0 Hw Hsi)
    as (Hm & Hlen & Hnext).
  { intros H0. apply Hk, H0. }
  { rewrite <- Hkey. exact Hsplit. }
  { intros Hleaf. rewrite Hleaf in Hrest. apply Hrest. }
  destruct (slot_turn_spec k cfg (S fuel) buff kmax j next off dpt test si Hw Hsi Hbuf Hk
              ltac:(lia) Hm Hlen) as (s & test' & Hturn & Hfsi).
  destruct (entered_fields j next off s) as [Hfn Hfo].
  set (j1 := entered j next off s) in *.
  set (f1 := frame_at (stack j1) (level j + 1)) in *.
  assert (Hfin : In (frame_si cfg (view j) f1)
                   (node_slots cfg (view j) (fr_next f1) (fr_off f1)
                      (dpt_at (view j) (fr_off f1)))).
  { rewrite Hfsi, Hfn, Hfo, <- Hd. exact Hsi. }
  pose proof (frame_split_before cfg (view j) f1 Hfin) as Hns.
  rewrite Hfsi, Hfn, Hfo, <- Hd in Hns.
  assert (Hbelow : forall x, In x (frame_before cfg (view j) f1) ->
            below k cfg (view j) next off dpt (level j) x = true).
  { intros x Hx. apply (Hsl x). rewrite Hns. apply in_or_app. left. exact Hx. }
  assert (Hexp : rev (expand k cfg (view j) next off dpt (frame_before cfg (view j) f1))
                 = frame_bexp (S k) cfg (view j) f1).
  { unfold frame_bexp. rewrite Hfn, Hfo, <- Hd. f_equal. symmetry.
    apply (expand_mono k (S k) cfg (view j) next off dpt (level j)); [lia|exact Hbelow]. }
  rewrite keys_entries by exact Hn. rewrite Hns, entries_app.
  change (si :: frame_after cfg (view j) f1)
    with ([si] ++ frame_after cfg (view j) f1).
  rewrite entries_app.
  cbn [judy_slot_loop w_next]. apply Z.eqb_neq in Hn. rewrite Hn. rewrite Hturn.
  unfold below in Hb. destruct (si_leaf si) eqn:Hleaf.
  - destruct Hrest as [-> ->]. rewrite app_nil_r in Hsplit.
    exists (slot_entries k cfg (view j) next off dpt (frame_before cfg (view j) f1)),
           (slot_entries k cfg (view j) next off dpt (frame_after cfg (view j) f1)).
    split.
    + f_equal. unfold slot_entries at 1. cbn [flat_map]. rewrite Hleaf.
      cbn [app]. rewrite Hsplit. reflexivity.
    + cbv zeta. cbn [snd]. fold j1. unfold j1 at 2. rewrite entered_level.
      replace (Z.to_nat (level j + 1 - level j)) with 1%nat by lia.
      cbn [before]. rewrite app_nil_r. change (Z.of_nat 1) with 1. fold f1.
      rewrite entries_cells. exact Hexp.
  - cbn [orb] in Hb. destruct (Hnext eq_refl) as (Hrk & Hko & Hcb).
    assert (Hv : view j1 = view j) by apply entered_view.
    assert (Hl1 : level j1 = level j + 1) by apply entered_level.
    assert (Hdj : depth j1 = depth j) by (unfold j1; destruct s; reflexivity).
    destruct (slot_loop_spec k cfg buff kmax fuel j1 (load64 (mem j) (si_cell si))
                (child_off cfg next off) (child_dpt (view j) next off dpt) test' rest0 c)
      as (j' & n & Hf & Hcn & Hst & Hlv & Hfr & Hok & _).
    { rewrite Hv, Hl1. exact Hb. }
    { rewrite Hv. exact Hrest. }
    { rewrite Hv. exact Hrk. }
    { exact Hbuf. }
    { intros H0. rewrite Hdj in H0. specialize (Hk H0). specialize (Hko H0). lia. }
    { lia. }
    destruct (IH fuel j1 (load64 (mem j) (si_cell si)) (child_off cfg next off)
                (child_dpt (view j) next off dpt) test' rest0 c)
      as (pre' & rest' & Hkeys & Hbefore).
    { rewrite Hv, Hl1. exact Hb. }
    { rewrite Hv. exact Hrest. }
    { rewrite Hv. exact Hrk. }
    { exact Hbuf. }
    { intros H0. rewrite Hdj in H0. specialize (Hk H0). specialize (Hko H0). lia. }
    { lia. }
    cbv zeta in Hbefore. rewrite Hf in Hbefore. cbn [snd] in Hbefore.
    rewrite Hv in Hkeys, Hbefore, Hok. rewrite Hl1 in Hlv, Hfr, Hok, Hbefore.
    rewrite Hf. cbv zeta. cbn [snd].
    exists (slot_entries k cfg (view j) next off dpt (frame_before cfg (view j) f1)
            ++ List.map (fun kc => (contrib (view j) (si_bytes si) ++ fst kc, snd kc)) pre'),
           (List.map (fun kc => (contrib (view j) (si_bytes si) ++ fst kc, snd kc)) rest'
            ++ slot_entries k cfg (view j) next off dpt (frame_after cfg (view j) f1)).
    split.
    + rewrite <- app_assoc. f_equal. unfold slot_entries at 1. cbn [flat_map].
      rewrite Hleaf, app_nil_r. change (mem (view j)) with (mem j).
      rewrite Hkeys, List.map_app. cbn [List.map fst snd].
      rewrite <- app_assoc. cbn [app]. rewrite Hsplit. reflexivity.
    + rewrite List.map_app, List.map_map. cbn [snd].
      change (List.map (fun x : list Z * Z => snd x) pre') with (List.map snd pre').
      rewrite rev_app_distr, Hbefore, entries_cells, Hexp.
      replace (Z.to_nat (level j' - level j)) with (S (S n)) by lia.
      replace (Z.to_nat (level j' - (level j + 1))) with (S n) by lia.
      rewrite (before_shift (S k)).
      rewrite (before_mono k (S k)) by (try lia; intros i Hi; apply Hok; lia).
      f_equal. unfold f1. rewrite Hfr by lia. reflexivity.
Qed.

(** [judy_slot] on a key of the trie leaves the cursor such that the cells
    before it are those of the entries before the key, the nearest first *)
Lemma judy_slot_gone N cfg fuel j buff kmax K c pre rest :
  wf_trie N cfg j = true ->
  all_keys N cfg j = pre ++ (K, c) :: rest ->
  K = key_from (view j) buff kmax 0 -> bytes buff ->
  (depth j = 0 -> 0 <= kmax < 2 ^ 31) ->
  (N + Z.to_nat (JUDY_span_bytes cfg) <= fuel)%nat ->
  exists j1,
    judy_slot cfg fuel buff kmax j = (c, j1) /\ c <> 0 /\
    store_of j1 = store_of j /\ 1 <= level j1 /\ cursor_inv N cfg j1 /\
    gone N cfg j1 = rev (List.map snd pre).
Proof.
  intros Hwf Hall HK Hbuf Hk Hfuel.
  assert (Hin : In (K, c) (all_keys N cfg j)).
  { rewrite Hall. apply in_or_app. right. left. reflexivity. }
  destruct (judy_slot_spec N cfg fuel j buff kmax K c Hwf Hin HK Hbuf Hk Hfuel)
    as (j1 & n & Hs & Hc & Hst & Hlv & Hci & _).
  exists j1. split; [exact Hs|]. split; [exact Hc|]. split; [exact Hst|].
  split; [lia|]. split; [exact Hci|].
  pose proof (all_keys_NoDup N cfg j Hwf) as Hnd.
  unfold wf_trie in Hwf. unfold all_keys in Hin, Hall, Hnd.
  apply andb_true_iff in Hwf. destruct Hwf as [_ Hwf].
  apply orb_true_iff in Hwf. destruct Hwf as [Hz|Hwf].
  { apply Z.eqb_eq in Hz. rewrite Hz, keys_root_empty in Hin. destruct Hin. }
  destruct (slot_loop_before N cfg buff kmax fuel (set_level 0 j) (root_slot j) 0 0 0 K c)
    as (pre' & rest' & Hkeys & Hbefore); try assumption.
  change (view (set_level 0 j)) with (view j) in *.
  cbv zeta in Hbefore. cbn [level set_level] in Hbefore.
  unfold judy_slot in Hs. fold (root_slot j) in Hs. rewrite Hs in Hbefore.
  cbn [snd] in Hbefore. rewrite Z.sub_0_r in Hbefore.
  rewrite Hall in Hkeys, Hnd.
  destruct (NoDup_split_unique _ _ _ _ _ _ Hnd Hkeys) as [-> _].
  unfold gone. rewrite (view_store _ _ Hst). symmetry. exact Hbefore.
Qed.

(** X14: after [judy_slot] has found a key of a string trie, repeated
    calls of [judy_prv] return the cells of the entries that precede it
    in the trie, from the nearest to the first, and then NULL; the keys
    of these entries are the keys smaller than the one found. *)
Theorem prv_after_slot_visits_smaller_keys N cfg fuel (j : Judy) (buff : list Z) (c : Z)
    (pre rest : list (list Z * Z)) :
  wf_trie N cfg j = true -> depth j = 0 ->
  all_keys N cfg j = pre ++ (buff, c) :: rest ->
  forallb is_byte buff = true ->
  Z.of_nat (length buff) < 2 ^ 31 ->
  (N + Z.to_nat (JUDY_span_bytes cfg) <= fuel)%nat ->
  (Z.to_nat (max j) < fuel)%nat ->
  let r := judy_slot cfg fuel buff (Z.of_nat (length buff)) j in
  fst r = c /\
  prv_cells (S (length pre)) cfg fuel (snd r) = rev (List.map snd pre) /\
  List.Forall (fun kc => lex (fst kc) buff) pre.
Proof.
  intros Hwf Hd0 Hall Hbuf Hlen Hfuel Hmax r.
  assert (Hko : key_of j buff = buff) by (unfold key_of; rewrite Hd0; reflexivity).
  destruct (judy_slot_gone N cfg fuel j buff (Z.of_nat (length buff)) buff
              c pre rest Hwf Hall) as (j1 & Hs & Hc & Hst & Hlv & Hci & Hg).
  { rewrite key_from_root. symmetry. exact Hko. }
  { exact Hbuf. }
  { intros _. lia. }
  { exact Hfuel. }
  subst r. rewrite Hs. cbn [fst snd]. split; [reflexivity|]. split.
  - rewrite <- (length_map snd pre), <- length_rev.
    apply (prv_cells_gone N cfg fuel (rev (List.map snd pre)) j1); try assumption.
    + rewrite (store_depth _ _ Hst). exact Hd0.
    + lia.
    + rewrite (store_max _ _ Hst). exact Hmax.
  - pose proof (all_keys_sorted N cfg j Hwf) as Hsrt.
    rewrite Hall, List.map_app in Hsrt. cbn [List.map fst] in Hsrt.
    apply sorted_split in Hsrt. destruct Hsrt as [H1 _].
    rewrite List.Forall_map in H1. exact H1.
Qed.

Lemma prv_after_slot_visits_smaller_keys_witness :
  (wf_trie 4 cfg_lp64 (trie3 cfg_lp64) = true /\ depth (trie3 cfg_lp64) = 0 /\
   all_keys 4 cfg_lp64 (trie3 cfg_lp64)
   = firstn 1 (all_keys 4 cfg_lp64 (trie3 cfg_lp64))
     ++ (key_abd, abd_cell) :: skipn 2 (all_keys 4 cfg_lp64 (trie3 cfg_lp64))) /\
  prv_cells 2 cfg_lp64 64 (snd (judy_slot cfg_lp64 64 key_abd 3 (trie3 cfg_lp64)))
  = rev (List.map snd (firstn 1 (all_keys 4 cfg_lp64 (trie3 cfg_lp64)))).
Proof.
  assert (Hw : wf_trie 4 cfg_lp64 (trie3 cfg_lp64) = true) by (vm_compute; reflexivity).
  assert (Hd : depth (trie3 cfg_lp64) = 0) by (vm_compute; reflexivity).
  assert (Ha : all_keys 4 cfg_lp64 (trie3 cfg_lp64)
               = firstn 1 (all_keys 4 cfg_lp64 (trie3 cfg_lp64))
                 ++ (key_abd, abd_cell) :: skipn 2 (all_keys 4 cfg_lp64 (trie3 cfg_lp64)))
    by (vm_compute; reflexivity).
  assert (Hb : forallb is_byte key_abd = true) by reflexivity.
  assert (Hl : Z.of_nat (length key_abd) < 2 ^ 31) by (cbn; lia).
  assert (Hf : (4 + Z.to_nat (JUDY_span_bytes cfg_lp64) <= 64)%nat) by (cbn; lia).
  assert (Hm : (Z.to_nat (max (trie3 cfg_lp64)) < 64)%nat)
    by (replace (max (trie3 cfg_lp64)) with 17 by (vm_compute; reflexivity); lia).
  split; [exact (conj Hw (conj Hd Ha))|].
  exact (proj1 (proj2
    (prv_after_slot_visits_smaller_keys 4 cfg_lp64 64 (trie3 cfg_lp64) key_abd abd_cell
       _ _ Hw Hd Ha Hb Hl Hf Hm))).
Defined.

(** ** Looking up a key that is there, with [judy_cell] *)

(** one turn of [judy_cell] on the address of a slot does what the turn
    of [judy_slot] does on the content of the slot, as long as that one
    goes on along the key *)
Lemma cell_turn_follows_slot cfg fuel buff kmax p off dpt test j :
  match judy_slot_turn cfg fuel buff kmax (mkWalk (load64 (mem j) p) off dpt test) j with
  | Return c j' =>
      c <> 0 -> judy_cell_turn cfg fuel buff kmax (mkWalk p off dpt test) j = Return c j'
  | Continue w' j' =>
      w_next w' <> 0 ->
      exists p',
        judy_cell_turn cfg fuel buff kmax (mkWalk p off dpt test) j
        = Continue (mkWalk p' (w_off w') (w_depth w') (w_test w')) j' /\
        load64 (mem j') p' = w_next w'
  end.
Proof.
  unfold judy_slot_turn, judy_cell_turn. cbn [w_next w_off w_depth w_test].
  assert (Hm0 : mem (push_level j) = mem j)
    by (unfold push_level; destruct (level j <? max j); reflexivity).
  assert (Hd0 : depth (push_level j) = depth j)
    by (unfold push_level; destruct (level j <? max j); reflexivity).
  rewrite frame_swap.
  set (j0 := push_level j) in *.
  change (mem (set_frame_off off (set_frame_next (load64 (mem j0) p) j0))) with (mem j0).
  change (depth (set_frame_off off (set_frame_next (load64 (mem j0) p) j0))) with (depth j0).
  change (mem (set_frame_next (load64 (mem j) p) (set_frame_off off j0))) with (mem j0).
  change (depth (set_frame_next (load64 (mem j) p) (set_frame_off off j0))) with (depth j0).
  rewrite frame_swap. rewrite !Hm0, !Hd0.
  set (ref := load64 (mem j) p).
  set (j1 := set_frame_next ref (set_frame_off off j0)).
  assert (Hm1 : forall s, mem (set_frame_slot s j1) = mem j) by (intros s0; exact Hm0).
  assert (Hd1 : forall s, depth (set_frame_slot s j1) = depth j) by (intros s0; exact Hd0).
  destruct (tag_of ref =? JUDY_radix).
  - assert (Hrad : forall slot o d d', d' = d ->
      match (let j2 := set_frame_slot slot j1 in
             let next := load64 (mem j2) (base_of ref + 8 * Z.shiftr slot 4) in
             if next =? 0 then Return 0 j2
             else
               let cell := base_of next + 8 * Z.land slot 15 in
               if is_leaf_slot j2 slot d
               then if negb (load64 (mem j2) cell =? 0) then Return cell j2 else Return 0 j2
               else Continue (mkWalk (load64 (mem j2) cell) o d test) j2) with
      | Return c j' =>
          c <> 0 ->
          (let at_outer := base_of ref + 8 * Z.shiftr slot 4 in
           let j2 := if load64 (mem j) at_outer =? 0
                     then let '(inner, j3) := judy_alloc cfg JUDY_radix j1 in
                          set_mem (store64 (mem j3) at_outer (Z.lor inner JUDY_radix)) j3
                     else j1 in
           let table := base_of (load64 (mem j2) at_outer) in
           let j3 := set_frame_slot slot j2 in
           let next := table + 8 * Z.land slot 15 in
           if is_leaf_slot j3 slot d' then Return next j3
           else Continue (mkWalk next o d' test) j3) = Return c j'
      | Continue w' j' =>
          w_next w' <> 0 ->
          exists p',
            (let at_outer := base_of ref + 8 * Z.shiftr slot 4 in
             let j2 := if load64 (mem j) at_outer =? 0
                       then let '(inner, j3) := judy_alloc cfg JUDY_radix j1 in
                            set_mem (store64 (mem j3) at_outer (Z.lor inner JUDY_radix)) j3
                       else j1 in
             let table := base_of (load64 (mem j2) at_outer) in
             let j3 := set_frame_slot slot j2 in
             let next := table + 8 * Z.land slot 15 in
             if is_leaf_slot j3 slot d' then Return next j3
             else Continue (mkWalk next o d' test) j3)
            = Continue (mkWalk p' (w_off w') (w_depth w') (w_test w')) j' /\
            load64 (mem j') p' = w_next w'
      end).
    { intros slot o d d' ->. cbv zeta. rewrite !Hm1.
      destruct (load64 (mem j) (base_of ref + 8 * Z.shiftr slot 4) =? 0) eqn:Ho;
        [intros H; congruence|].
      change (mem j1) with (mem j0). rewrite Hm0.
      destruct (is_leaf_slot (set_frame_slot slot j1) slot d).
      - destruct (negb (load64 (mem j)
                    (base_of (load64 (mem j) (base_of ref + 8 * Z.shiftr slot 4))
                     + 8 * Z.land slot 15) =? 0)); [reflexivity|intros H; congruence].
      - intros _. eexists. split; [reflexivity|]. cbn [w_next]. rewrite Hm1. reflexivity. }
    destruct (negb (depth j =? 0)) eqn:Hd; [|destruct (off <? kmax)]; cbn [andb].
    + refine (Hrad _ _ _ _ _). rewrite Hd1, Hd. reflexivity.
    + refine (Hrad _ _ _ _ _). rewrite Hd1, Hd. reflexivity.
    + assert (Hd' : (depth j =? 0) = true) by (apply negb_false_iff; exact Hd).
      pose proof (Hrad 0 off dpt dpt eq_refl) as H0. cbv zeta in H0.
      unfold is_leaf_slot in H0 |- *. rewrite !Hm1, !Hd1, ?Hd' in H0.
      rewrite !Hm1, !Hd1, ?Hd, ?Hd'. cbn [Z.eqb negb andb orb] in H0 |- *.
      destruct (load64 (mem j) (base_of ref + 8 * Z.shiftr 0 4) =? 0);
        [intros H; congruence|].
      rewrite ?Hd1, ?Hd' in H0 |- *. cbn [Z.eqb negb andb orb] in H0 |- *. exact H0.
  - assert (Hm1' : mem j1 = mem j) by exact Hm0.
    destruct (tag_of ref =? JUDY_span).
    + repeat match goal with |- context [if ?b then _ else _] => destruct b eqn:? end;
        try (intros; congruence); try reflexivity;
        intros _; eexists; (split; [reflexivity|]); cbn [w_next]; rewrite Hm1';
        reflexivity.
    + destruct (negb (depth j =? 0)).
      * match goal with
        | |- context [scan_down ?a ?b ?c ?d ?e ?f ?g] =>
            destruct (scan_down a b c d e f g) as [slot tst]
        end.
        match goal with |- context [tst =? ?v] => destruct (tst =? v) end;
          [|intros H; congruence].
        match goal with |- context [if ?b then _ else _] => destruct b end;
          [reflexivity|].
        intros _. eexists. split; [reflexivity|]. cbn [w_next]. rewrite Hm1. reflexivity.
      * destruct (key_digit 8 buff kmax off 0) as [v o].
        match goal with
        | |- context [scan_down ?a ?b ?c ?d ?e ?f ?g] =>
            destruct (scan_down a b c d e f g) as [slot tst]
        end.
        match goal with |- context [tst =? ?v] => destruct (tst =? v) end;
          [|intros H; congruence].
        match goal with |- context [if ?b then _ else _] => destruct b end;
          [reflexivity|].
        intros _. eexists. split; [reflexivity|]. cbn [w_next]. rewrite Hm1. reflexivity.
Qed.

Lemma slot_loop_null cfg fuel buff kmax w j :
  w_next w = 0 -> judy_slot_loop cfg fuel buff kmax w j = (0, j).
Proof. intros H. destruct fuel; [reflexivity|]. cbn [judy_slot_loop]. rewrite H. reflexivity. Qed.

Lemma cell_loop_follows_slot cfg buff kmax : forall fuel p off dpt test j c j',
  judy_slot_loop cfg fuel buff kmax (mkWalk (load64 (mem j) p) off dpt test) j = (c, j') ->
  c <> 0 ->
  judy_cell_loop cfg fuel buff kmax (mkWalk p off dpt test) j = Return c j'.
Proof.
  induction fuel as [|k IH]; intros p off dpt test j c j' Hs Hc.
  - cbn [judy_slot_loop] in Hs. congruence.
  - cbn [judy_slot_loop judy_cell_loop w_next] in Hs |- *.
    destruct (load64 (mem j) p =? 0); [congruence|].
    pose proof (cell_turn_follows_slot cfg (S k) buff kmax p off dpt test j) as Ht.
    destruct (judy_slot_turn cfg (S k) buff kmax (mkWalk (load64 (mem j) p) off dpt test) j)
      as [c0 j0|w' j0].
    + injection Hs as -> ->. rewrite (Ht Hc). reflexivity.
    + destruct (Z.eq_dec (w_next w') 0) as [H0|H0].
      { rewrite (slot_loop_null cfg k buff kmax w' j0 H0) in Hs. congruence. }
      destruct (Ht H0) as (p' & Hturn & Hload). rewrite Hturn.
      apply IH; [|exact Hc]. rewrite Hload. destruct w'. exact Hs.
Qed.

(** when [judy_slot] finds a cell for a key, [judy_cell] called with the
    key does exactly what [judy_slot] does *)
Lemma judy_cell_follows_slot cfg fuel buff kmax j :
  fst (judy_slot cfg fuel buff kmax j) <> 0 ->
  judy_cell cfg fuel buff kmax j = judy_slot cfg fuel buff kmax j.
Proof.
  intros H. unfold judy_cell, judy_slot in *.
  change (root (set_level 0 j)) with (root j).
  destruct (judy_slot_loop cfg fuel buff kmax (mkWalk (load64 (mem j) (root j)) 0 0 0)
              (set_level 0 j)) as [c j'] eqn:Hs.
  cbn [fst] in H.
  rewrite (cell_loop_follows_slot cfg buff kmax fuel (root j) 0 0 0 (set_level 0 j) c j' Hs H).
  reflexivity.
Qed.

(** X15: [judy_cell] called with a key the trie holds returns the cell of
    that key, as [judy_slot] does, with the cursor on the key; it
    allocates nothing and writes nothing, so the trie holds the same
    keys with the same cells afterwards. *)
Theorem cell_of_present_key_is_its_cell N cfg fuel (j : Judy) (buff : list Z) (c : Z) :
  wf_trie N cfg j = true ->
  In (key_of j buff, c) (all_keys N cfg j) ->
  forallb is_byte buff = true ->
  Z.of_nat (length buff) < 2 ^ 31 ->
  (N + Z.to_nat (JUDY_span_bytes cfg) <= fuel)%nat ->
  let r := judy_cell cfg fuel buff (Z.of_nat (length buff)) j in
  r = judy_slot cfg fuel buff (Z.of_nat (length buff)) j /\
  fst r = c /\ c <> 0 /\
  store_of (snd r) = store_of j /\
  wf_trie N cfg (snd r) = true /\
  all_keys N cfg (snd r) = all_keys N cfg j.
Proof.
  intros Hwf Hin Hbuf Hlen Hfuel r.
  destruct (judy_slot_spec N cfg fuel j buff (Z.of_nat (length buff)) (key_of j buff) c
              Hwf Hin) as (j1 & n & Hs & Hc & Hst & _).
  { symmetry. apply key_from_root. }
  { exact Hbuf. }
  { intros _. lia. }
  { exact Hfuel. }
  assert (Hr : r = judy_slot cfg fuel buff (Z.of_nat (length buff)) j).
  { apply judy_cell_follows_slot. rewrite Hs. exact Hc. }
  split; [exact Hr|]. rewrite Hr, Hs. cbn [fst snd].
  split; [reflexivity|]. split; [exact Hc|]. split; [exact Hst|].
  destruct (wf_trie_store N cfg j j1 Hst) as [H1 H2].
  split; [rewrite H1; exact Hwf|exact H2].
Qed.

Lemma cell_of_present_key_is_its_cell_witness :
  (wf_trie 4 cfg_lp64 (trie3 cfg_lp64) = true /\
   In (key_of (trie3 cfg_lp64) key_abd, abd_cell) (all_keys 4 cfg_lp64 (trie3 cfg_lp64))) /\
  fst (judy_cell cfg_lp64 64 key_abd 3 (trie3 cfg_lp64)) = abd_cell /\
  store_of (snd (judy_cell cfg_lp64 64 key_abd 3 (trie3 cfg_lp64)))
  = store_of (trie3 cfg_lp64).
Proof.
  assert (Hw : wf_trie 4 cfg_lp64 (trie3 cfg_lp64) = true) by (vm_compute; reflexivity).
  assert (Hin : In (key_of (trie3 cfg_lp64) key_abd, abd_cell)
                  (all_keys 4 cfg_lp64 (trie3 cfg_lp64))).
  { vm_compute. tauto. }
  assert (Hb : forallb is_byte key_abd = true) by reflexivity.
  assert (Hl : Z.of_nat (length key_abd) < 2 ^ 31) by (cbn; lia).
  assert (Hf : (4 + Z.to_nat (JUDY_span_bytes cfg_lp64) <= 64)%nat) by (cbn; lia).
  split; [exact (conj Hw Hin)|].
  pose proof (cell_of_present_key_is_its_cell 4 cfg_lp64 64 (trie3 cfg_lp64) key_abd
                abd_cell Hw Hin Hb Hl Hf) as H.
  cbv zeta in H. destruct H as (_ & H1 & _ & H2 & _).
  exact (conj H1 H2).
Defined.

(** ** Deleting the only key *)

(** the loop that stores a key in span nodes, one turn unfolded *)
Lemma cell_spans_one cfg fuel buff kmax next off j :
  cell_spans cfg (S fuel) buff kmax next off j
  = if off <=? kmax then
      let r := cell_spans cfg 1 buff kmax next off j in
      let tst := if s32 (kmax - off) <? JUDY_span_bytes cfg
                 then s32 (kmax - off) else JUDY_span_bytes cfg in
      if load8 (mem (snd r)) (fst r - 1) =? 0 then r
      else cell_spans cfg fuel buff kmax (fst r) (u32 (off + tst)) (snd r)
    else (next, j).
Proof.
  cbn [cell_spans]. destruct (off <=? kmax); [|reflexivity].
  destruct (judy_alloc cfg JUDY_span j) as [base j1]. cbv zeta.
  match goal with |- context [push_frame ?r ?o ?s] => set (j3 := push_frame r o s) end.
  assert (HJS : JudySize cfg JUDY_span = JUDY_span_bytes cfg + 8) by reflexivity.
  rewrite HJS.
  replace (base + (JUDY_span_bytes cfg + 8) - 8) with (base + JUDY_span_bytes cfg) by lia.
  set (c := load8 (mem j3) (base + JUDY_span_bytes cfg - 1) =? 0).
  assert (Hr : (if c then (base + JUDY_span_bytes cfg, j3)
                else (base + JUDY_span_bytes cfg, j3)) = (base + JUDY_span_bytes cfg, j3))
    by (destruct c; reflexivity).
  rewrite Hr. cbn [fst snd]. fold c. destruct c; reflexivity.
Qed.

Lemma push_frame_cursor ref off j :
  level (push_frame ref off j) = (if level j <? max j then level j + 1 else level j) /\
  frame_at (stack (push_frame ref off j)) (level (push_frame ref off j))
  = mkFrame ref off 0 /\
  forall i, i <> level (push_frame ref off j) ->
    frame_at (stack (push_frame ref off j)) i = frame_at (stack j) i.
Proof.
  unfold push_frame, push_level.
  destruct (level j <? max j);
    unfold set_frame_off, set_frame_slot, set_frame_next, frame, frame_at;
    cbn [stack level set_stack set_level];
    (split; [reflexivity|]); (split; [rewrite !lookup_insert_eq; reflexivity|]);
    intros i Hi; rewrite !lookup_insert_ne by lia; reflexivity.
Qed.

Lemma push_frame_mem ref off j : mem (push_frame ref off j) = mem j.
Proof.
  pose proof (push_frame_store ref off j) as Hst.
  unfold store_of in Hst. injection Hst as _ _ _ Hx _ _ _. exact Hx.
Qed.

(** the frame one turn of that loop pushes *)
Lemma span_iter_cursor cfg buff L j next off a nx rest :
  let Sp := JUDY_span_bytes cfg in
  let amt := JudySize cfg (size_class cfg JUDY_span) in
  0 < Sp -> Sp + 8 <= amt -> amt mod 8 = 0 ->
  bytes buff -> 0 <= off <= L -> L < 2 ^ 31 ->
  seg j = mkSeg a nx :: rest -> (forall t, reuse_get j t = 0) ->
  0 <= a -> (a + nx) mod 8 = 0 -> amt + 16 <= nx -> nx < 2 ^ 32 ->
  a + nx <= next -> a + nx < 2 ^ 64 ->
  let j3 := snd (cell_spans cfg 1 buff L next off j) in
  level j3 = (if level j <? max j then level j + 1 else level j) /\
  frame_at (stack j3) (level j3) = mkFrame (load64 (mem j3) next) off 0 /\
  forall i, i <> level j3 -> frame_at (stack j3) i = frame_at (stack j) i.
Proof.
  intros Sp amt HS Hamt Hm8 Hbuf Hoff HL Hseg Hre Ha Hal Hroom Hnx Hnext H64 j3.
  subst j3. cbn [cell_spans]. destruct (Z.leb_spec off L); [|lia].
  rewrite (judy_alloc_bump cfg JUDY_span j a nx rest Hseg Hre Hm8 ltac:(lia)
             ltac:(unfold sizeof_JudySeg; lia)).
  fold amt. cbv zeta.
  match goal with
  | |- context [push_frame ?r ?o ?s] =>
      pose proof (push_frame_cursor r o s) as Hp; set (j3 := push_frame r o s) in *
  end.
  assert (Hres : snd (if load8 (mem j3) (a + nx - amt + JUDY_span_bytes cfg - 1) =? 0
                      then (a + nx - amt + JudySize cfg JUDY_span - 8, j3)
                      else (a + nx - amt + JudySize cfg JUDY_span - 8, j3)) = j3)
    by (destruct (load8 (mem j3) (a + nx - amt + JUDY_span_bytes cfg - 1) =? 0); reflexivity).
  rewrite Hres. destruct Hp as (H1 & H2 & H3).
  split; [exact H1|]. split; [|exact H3].
  rewrite H2. f_equal.
  unfold j3. rewrite push_frame_mem. reflexivity.
Qed.

(** the cursor [cell_spans] leaves: one frame for each span node of the
    chain it built *)
Lemma cell_spans_cursor cfg buff a rest :
  let Sp := JUDY_span_bytes cfg in
  let amt := JudySize cfg (size_class cfg JUDY_span) in
  let L := Z.of_nat (length buff) in
  0 < Sp < 2 ^ 16 -> Sp + 8 <= amt -> amt mod 8 = 0 ->
  bytes buff -> (forall i, 0 <= i < L -> buf_get buff i <> 0) -> L < 2 ^ 31 ->
  0 <= a ->
  forall (n : nat) fuel j next off nx,
  Z.of_nat n = (L - off) / Sp -> 0 <= off <= L -> (n < fuel)%nat ->
  seg j = mkSeg a nx :: rest -> (forall t, reuse_get j t = 0) ->
  (a + nx) mod 8 = 0 -> (Z.of_nat n + 1) * amt + 16 <= nx -> nx < 2 ^ 32 ->
  a + nx <= next -> next + 8 <= 2 ^ 64 ->
  0 <= level j -> level j + Z.of_nat n < max j ->
  let j' := snd (cell_spans cfg fuel buff L next off j) in
  level j' = level j + Z.of_nat (S n) /\
  (forall i, i <= level j -> frame_at (stack j') i = frame_at (stack j) i) /\
  (forall i, level j < i <= level j' ->
     tag_of (fr_next (frame_at (stack j') i)) = JUDY_span).
Proof.
  intros Sp amt L HS Hamt Hm8 Hbuf Hnz HL Ha.
  induction n as [|n IH];
    intros fuel j next off nx Hn Hoff Hfuel Hseg Hre Hal Hroom Hnx Hnext H64 Hl0 Hlv j';
    (destruct fuel as [|fuel]; [lia|]).
  - assert (Hlt : L - off < Sp).
    { pose proof (Z.div_mod (L - off) Sp ltac:(lia)) as Hdm.
      pose proof (Z.mod_pos_bound (L - off) Sp ltac:(lia)) as Hmb.
      rewrite <- Hn in Hdm. lia. }
    destruct (span_iter cfg buff L 0 j next off a nx rest ltac:(lia) Hamt Hm8 Hbuf
                Hoff HL Hseg Hre Ha Hal ltac:(fold amt; lia) Hnx Hnext ltac:(lia))
      as (j3 & Heq & Hs3 & Hr3 & Hrt3 & Hd3 & Hm3 & Hby & Href & Hfr).
    pose proof (span_iter_cursor cfg buff L j next off a nx rest ltac:(lia) Hamt Hm8 Hbuf
                  Hoff HL Hseg Hre Ha Hal ltac:(fold amt; lia) Hnx Hnext ltac:(lia)) as Hcur.
    fold Sp amt in Heq, Hby, Href, Hfr. set (base := a + nx - amt) in *.
    assert (Hone : cell_spans cfg 1 buff L next off j = (base + Sp, j3)).
    { rewrite Heq. destruct (load8 (mem j3) (base + Sp - 1) =? 0); reflexivity. }
    cbv zeta in Hcur. rewrite Hone in Hcur. cbn [snd] in Hcur.
    destruct Hcur as (Hc1 & Hc2 & Hc3).
    assert (Hlj : (level j <? max j) = true) by (apply Z.ltb_lt; lia).
    rewrite Hlj in Hc1.
    assert (Hlast : load8 (mem j3) (base + Sp - 1) = 0).
    { replace (base + Sp - 1) with (base + (Sp - 1)) by lia. rewrite Hby by lia.
      unfold str_byte. destruct (Z.ltb_spec (off + (Sp - 1)) L); [lia|reflexivity]. }
    subst j'. rewrite cell_spans_one. destruct (Z.leb_spec off L); [|lia].
    cbv zeta. rewrite Hone. cbn [fst snd]. rewrite Hlast. cbn [Z.eqb snd].
    split; [rewrite Hc1; lia|]. split.
    + intros i Hi. apply Hc3. lia.
    + intros i Hi. replace i with (level j3) by lia. rewrite Hc2. cbn [fr_next].
      rewrite Href.
      destruct (tagged_ref base JUDY_span) as [Htag _];
        [unfold base; lia| |unfold JUDY_span; lia|exact Htag].
      unfold base. rewrite <- Zminus_mod_idemp_l, <- Zminus_mod_idemp_r, Hal, Hm8.
      reflexivity.
  - assert (Hge : Sp <= L - off).
    { pose proof (Z.div_mod (L - off) Sp ltac:(lia)) as Hdm.
      pose proof (Z.mod_pos_bound (L - off) Sp ltac:(lia)) as Hmb.
      rewrite <- Hn in Hdm. nia. }
    assert (Hn' : Z.of_nat n = (L - (off + Sp)) / Sp).
    { replace (L - (off + Sp)) with (L - off + (-1) * Sp) by lia.
      rewrite Z.div_add by lia. lia. }
    assert (Hroom1 : amt + 16 <= nx) by nia.
    destruct (span_iter cfg buff L 0 j next off a nx rest ltac:(lia) Hamt Hm8 Hbuf
                Hoff HL Hseg Hre Ha Hal ltac:(fold amt; lia) Hnx Hnext ltac:(lia))
      as (j3 & Heq & Hs3 & Hr3 & Hrt3 & Hd3 & Hm3 & Hby & Href & Hfr).
    pose proof (span_iter_cursor cfg buff L j next off a nx rest ltac:(lia) Hamt Hm8 Hbuf
                  Hoff HL Hseg Hre Ha Hal ltac:(fold amt; lia) Hnx Hnext ltac:(lia)) as Hcur.
    fold Sp amt in Heq, Hby, Href, Hfr. set (base := a + nx - amt) in *.
    assert (Hone : cell_spans cfg 1 buff L next off j = (base + Sp, j3)).
    { rewrite Heq. destruct (load8 (mem j3) (base + Sp - 1) =? 0); reflexivity. }
    cbv zeta in Hcur. rewrite Hone in Hcur. cbn [snd] in Hcur.
    destruct Hcur as (Hc1 & Hc2 & Hc3).
    assert (Hlj : (level j <? max j) = true) by (apply Z.ltb_lt; lia).
    rewrite Hlj in Hc1.
    assert (Hlast : load8 (mem j3) (base + Sp - 1) <> 0).
    { replace (base + Sp - 1) with (base + (Sp - 1)) by lia. rewrite Hby by lia.
      unfold str_byte. destruct (Z.ltb_spec (off + (Sp - 1)) L); [|lia].
      apply Hnz. lia. }
    apply Z.eqb_neq in Hlast.
    assert (Hre3 : forall t, reuse_get j3 t = 0).
    { intros t. unfold reuse_get. rewrite Hr3. apply Hre. }
    specialize (IH fuel j3 (base + Sp) (off + Sp) (nx - amt) Hn' ltac:(lia)
                  ltac:(lia) Hs3 Hre3).
    cbv zeta in IH.
    subst j'. rewrite cell_spans_one. destruct (Z.leb_spec off L); [|lia].
    cbv zeta. rewrite Hone. cbn [fst snd]. rewrite Hlast.
    fold Sp. rewrite s32_small by lia.
    destruct (Z.ltb_spec (L - off) Sp); [lia|]. rewrite u32_small by lia.
    set (r := cell_spans cfg fuel buff L (base + Sp) (off + Sp) j3) in *.
    destruct IH as (Hi1 & Hi2 & Hi3).
    { replace (a + (nx - amt)) with (a + nx - amt) by lia.
      rewrite <- Zminus_mod_idemp_l, <- Zminus_mod_idemp_r, Hal, Hm8. reflexivity. }
    { nia. }
    { lia. }
    { unfold base. lia. }
    { unfold base. lia. }
    { lia. }
    { rewrite Hm3. lia. }
    rewrite Hc1 in Hi1, Hi2, Hi3.
    split; [rewrite Hi1; lia|]. split.
    + intros i Hi. rewrite Hi2 by lia. apply Hc3. lia.
    + intros i Hi. destruct (Z.eq_dec i (level j + 1)) as [->|Hne].
      * rewrite Hi2 by lia. rewrite <- Hc1, Hc2. cbn [fr_next]. rewrite Href.
        destruct (tagged_ref base JUDY_span) as [Htag _];
          [unfold base; lia| |unfold JUDY_span; lia|exact Htag].
        unfold base. rewrite <- Zminus_mod_idemp_l, <- Zminus_mod_idemp_r, Hal, Hm8.
        reflexivity.
      * apply Hi3. lia.
Qed.

(** [judy_del] on a cursor whose frames are span nodes frees them all and
    clears the root slot *)
Lemma del_span_chain cfg fuel : forall (n : nat) fuel2 j,
  level j = Z.of_nat n -> level j < 2 ^ 32 ->
  (forall i, 1 <= i <= level j ->
     tag_of (fr_next (frame_at (stack j) i)) = JUDY_span) ->
  (n < fuel2)%nat ->
  let r := judy_del_loop cfg fuel2 fuel j in
  fst r = 0 /\ level (snd r) = 0 /\ root (snd r) = root j /\
  load64 (mem (snd r)) (root j) = 0 /\
  depth (snd r) = depth j /\ max (snd r) = max j /\
  seg (snd r) = seg j /\ heap (snd r) = heap j.
Proof.
  induction n as [|n IH]; intros fuel2 j Hl H32 Htag Hf r;
    (destruct fuel2 as [|f2]; [lia|]); subst r; cbn [judy_del_loop].
  - rewrite Hl. change (Z.of_nat 0 =? 0) with true. cbv iota. cbn [fst snd level mem root
      depth max seg heap set_mem].
    split; [reflexivity|]. split; [exact Hl|]. split; [reflexivity|].
    split; [apply load64_store64; lia|]. auto.
  - destruct (Z.eqb_spec (level j) 0) as [H0|_]; [lia|].
    unfold judy_del_turn, frame. fold (frame_at (stack j) (level j)).
    rewrite (Htag (level j) ltac:(lia)).
    change (JUDY_span =? JUDY_radix) with false.
    change (JUDY_span =? JUDY_span) with true. cbv iota.
    set (j1 := pop_level (judy_free cfg (base_of (fr_next (frame_at (stack j) (level j))))
                            JUDY_span j)).
    assert (Hl1 : level j1 = Z.of_nat n).
    { unfold j1, pop_level, judy_free, reuse_set, u32. cbn [level set_level set_reuse set_mem].
      rewrite Z.mod_small by lia. lia. }
    specialize (IH f2 j1 Hl1 ltac:(lia)). cbv zeta in IH.
    destruct IH as (H1 & H2 & H3 & H4 & H5 & H6 & H7 & H8).
    + intros i Hi. change (stack j1) with (stack j). apply Htag. lia.
    + lia.
    + split; [exact H1|]. split; [exact H2|]. split; [exact H3|].
      split; [exact H4|]. split; [exact H5|]. split; [exact H6|].
      split; [exact H7|exact H8].
Qed.

(** the array [judy_open] hands out *)
Lemma open_fresh a h m kmax j :
  judy_open (a :: h) m kmax 0 = Some j ->
  0 <= a -> 0 <= kmax -> sizeof_Judy + (kmax + 1) * sizeof_JudyStack + 8 <= JUDY_seg ->
  exists nx,
    seg j = [mkSeg a nx] /\ root j = a + nx /\ max j = kmax + 1 /\ depth j = 0 /\
    level j = 0 /\ heap j = h /\
    (forall t, reuse_get j t = 0) /\ root_slot j = 0 /\
    (a + nx) mod 8 = 0 /\ 0 <= nx /\ nx + 8 <= JUDY_seg.
Proof.
  intros Hopen Ha Hk Hfit.
  unfold judy_open in Hopen. change (negb (0 =? 0)) with false in Hopen. cbv iota in Hopen.
  unfold sizeof_Judy, sizeof_JudyStack, JUDY_seg in Hfit.
  rewrite (u32_small (kmax + 1)) in Hopen by lia.
  set (amt0 := u32 (sizeof_Judy + (kmax + 1) * sizeof_JudyStack)) in Hopen.
  assert (Ha0 : amt0 = 8 * (14 + 2 * (kmax + 1))).
  { unfold amt0, sizeof_Judy, sizeof_JudyStack. rewrite u32_small by lia. lia. }
  assert (Hl7 : Z.land amt0 (JUDY_cache_line - 1) = 0).
  { change (JUDY_cache_line - 1) with 7. rewrite land7, Ha0, Z.mul_comm.
    apply Z.mod_mul. lia. }
  rewrite Hl7 in Hopen. cbn [Z.eqb negb] in Hopen.
  change (JUDY_cache_line - 1) with 7 in Hopen. rewrite land7 in Hopen.
  pose proof (Z.mod_pos_bound a 8 ltac:(lia)) as Hr8.
  unfold JUDY_seg in Hopen |- *.
  rewrite (u32_small (65536 - a mod 8)) in Hopen by lia.
  rewrite (u32_small (65536 - a mod 8 - amt0)) in Hopen by lia.
  set (nx := 65536 - a mod 8 - amt0) in Hopen.
  injection Hopen as Hj. exists nx.
  split; [rewrite <- Hj; reflexivity|]. split; [rewrite <- Hj; reflexivity|].
  split; [rewrite <- Hj; reflexivity|]. split; [rewrite <- Hj; reflexivity|].
  split; [rewrite <- Hj; reflexivity|]. split; [rewrite <- Hj; reflexivity|].
  split.
  { intros t. rewrite <- Hj. unfold reuse_get. cbn [reuse]. rewrite lookup_empty.
    reflexivity. }
  split.
  { unfold root_slot. rewrite <- Hj. cbn [mem root]. apply load64_zero. intros i Hi.
    rewrite load8_memset0.
    destruct (Z.leb_spec (a + nx) i); [|lia].
    destruct (Z.ltb_spec i (a + nx + Z.of_nat (Z.to_nat amt0))); [reflexivity|lia]. }
  split.
  { pose proof (Z.div_mod a 8 ltac:(lia)) as Hdm.
    replace (a + nx) with ((a / 8 + 8192 - (14 + 2 * (kmax + 1))) * 8) by (unfold nx; lia).
    apply Z.mod_mul. lia. }
  unfold nx. lia.
Qed.

(** X16: inserting the first key of a freshly opened string array and
    deleting it again.  Under the conditions of the first insertion,
    [judy_del] called right after [judy_cell] and the store of the value
    returns NULL, there being no previous entry, and leaves the array
    empty: the root slot is zero, the cursor is unpositioned, the trie is
    well formed and holds no key, a lookup of the key returns NULL; no
    segment is given back. *)
Theorem first_insert_then_delete N cfg fuel fuel' a h m kmax buff v j :
  let Sp := JUDY_span_bytes cfg in
  let amt := JudySize cfg (size_class cfg JUDY_span) in
  let L := Z.of_nat (length buff) in
  0 < Sp < 2 ^ 16 -> Sp + 8 <= amt -> amt mod 8 = 0 ->
  judy_open (a :: h) m kmax 0 = Some j ->
  0 <= a -> a + JUDY_seg <= 2 ^ 64 ->
  0 <= kmax -> sizeof_Judy + (kmax + 1) * sizeof_JudyStack + 8 <= JUDY_seg ->
  bytes buff -> ~ In 0 buff -> L <= kmax -> 0 < v < 2 ^ 64 ->
  (L / Sp + 1) * amt + 16 <= head_next j ->
  (Z.to_nat (L / Sp) + 1 < fuel)%nat ->
  let c := fst (judy_cell cfg fuel buff L j) in
  let j2 := store_cell c v (snd (judy_cell cfg fuel buff L j)) in
  let r := judy_del cfg fuel j2 in
  fst r = 0 /\ level (snd r) = 0 /\ root_slot (snd r) = 0 /\
  wf_trie N cfg (snd r) = true /\ all_keys N cfg (snd r) = [] /\
  fst (judy_slot cfg fuel' buff L (snd r)) = 0 /\
  seg (snd r) = seg j2.
Proof.
  intros Sp amt L HS Hamt Hm8 Hopen Ha Ha64 Hk Hfit Hbuf Hnz HL Hv Hroom Hfuel c j2 r.
  destruct (open_fresh a h m kmax j Hopen Ha Hk Hfit)
    as (nx & Hseg & Hroot & Hmax & Hdep & Hlev & Hheap & Hre & Hrs & Hal & Hnx0 & Hnx).
  unfold JUDY_seg in *. unfold sizeof_Judy, sizeof_JudyStack in Hfit.
  assert (Hhn : head_next j = nx) by (unfold head_next; rewrite Hseg; reflexivity).
  rewrite Hhn in Hroom.
  assert (Hq : 0 <= L / Sp) by (apply Z.div_pos; lia).
  assert (HqL : L / Sp <= L) by (apply Z.div_le_upper_bound; [lia|nia]).
  assert (Hnz' : forall i, 0 <= i < L -> buf_get buff i <> 0).
  { intros i Hi Hz. apply Hnz. rewrite <- Hz.
    rewrite <- (map_buf_get buff) at 2. apply in_map. apply In_seqZ. fold L. lia. }
  destruct fuel as [|fuel]; [lia|].
  assert (Hcell : judy_cell cfg (S fuel) buff L j
                  = cell_spans cfg (S fuel) buff L (root j) 0 (set_level 0 j))
    by (apply judy_cell_empty; assumption).
  assert (Hid : Z.of_nat (Z.to_nat (L / Sp)) = L / Sp) by (apply Z2Nat.id; exact Hq).
  pose proof (cell_spans_cursor cfg buff a [] HS Hamt Hm8 Hbuf Hnz' ltac:(fold L; lia) Ha
                (Z.to_nat (L / Sp)) (S fuel) (set_level 0 j) (root j) 0 nx) as Hcur.
  cbv zeta in Hcur. fold L Sp amt in Hcur. rewrite <- Hcell in Hcur.
  rewrite Hid, Z.sub_0_r in Hcur. cbn [level set_level max] in Hcur.
  destruct Hcur as (Hc1 & Hc2 & Hc3); try assumption; try reflexivity; try lia.
  pose proof (cell_spans_build cfg buff v a [] HS Hamt Hm8 Hbuf Hnz' ltac:(fold L; lia) Hv Ha
                (Z.to_nat (L / Sp)) (S fuel) (set_level 0 j) (root j) 0 0 nx) as Hb.
  cbv zeta in Hb. fold L Sp amt in Hb. rewrite <- Hcell in Hb.
  rewrite Hid, Z.sub_0_r in Hb. fold c in Hb.
  destruct Hb as (Hb1 & Hb2 & Hbf & Hbr & Hbd & Hbm & _);
    try assumption; try reflexivity; try lia; try (cbn [max set_level]; lia).
  set (j1 := snd (judy_cell cfg (S fuel) buff L j)) in *.
  assert (Hl2 : level j2 = Z.of_nat (S (Z.to_nat (L / Sp)))) by exact Hc1.
  pose proof (del_span_chain cfg (S fuel) (S (Z.to_nat (L / Sp))) (S (S fuel)) j2 Hl2
                ltac:(rewrite Hl2; lia)) as Hdel.
  cbv zeta in Hdel. fold (judy_del cfg (S fuel) j2) in Hdel. fold r in Hdel.
  destruct Hdel as (Hd1 & Hd2 & Hd3 & Hd4 & Hd5 & Hd6 & Hd7 & Hd8).
  { intros i Hi. change (stack j2) with (stack j1). apply Hc3. rewrite Hl2 in Hi.
    rewrite Hc1. lia. }
  { lia. }
  change (root j2) with (root j1) in Hd3, Hd4. change (depth j2) with (depth j1) in Hd5.
  assert (Hrr : root_slot (snd r) = 0) by (unfold root_slot; rewrite Hd3; exact Hd4).
  split; [exact Hd1|]. split; [exact Hd2|]. split; [exact Hrr|].
  split.
  { unfold wf_trie. rewrite Hrr, Hd5, Hbd. reflexivity. }
  split; [unfold all_keys; rewrite Hrr; apply keys_root_empty|].
  split; [apply (empty_root_lookups cfg fuel' buff L [] 0 (snd r) Hrr Hd2)|].
  exact Hd7.
Qed.

Lemma first_insert_then_delete_witness :
  (judy_open [65536] ∅ 16 0 = Some (opened [65536] 16 0) /\
   bytes key_abc /\ ~ In 0 key_abc) /\
  let j2 := store_cell (fst (judy_cell cfg_lp64 64 key_abc 3 (opened [65536] 16 0))) 1
              (snd (judy_cell cfg_lp64 64 key_abc 3 (opened [65536] 16 0))) in
  fst (judy_del cfg_lp64 64 j2) = 0 /\
  all_keys 4 cfg_lp64 (snd (judy_del cfg_lp64 64 j2)) = [] /\
  fst (judy_slot cfg_lp64 64 key_abc 3 (snd (judy_del cfg_lp64 64 j2))) = 0.
Proof.
  assert (Ho : judy_open [65536] ∅ 16 0 = Some (opened [65536] 16 0)) by reflexivity.
  assert (Hb : bytes key_abc) by reflexivity.
  assert (H1 : 0 < JUDY_span_bytes cfg_lp64 < 2 ^ 16) by (cbn; lia).
  assert (H2 : JUDY_span_bytes cfg_lp64 + 8 <= JudySize cfg_lp64 (size_class cfg_lp64 JUDY_span))
    by (vm_compute; discriminate).
  assert (H3 : JudySize cfg_lp64 (size_class cfg_lp64 JUDY_span) mod 8 = 0) by reflexivity.
  assert (H4 : 0 <= 65536) by lia.
  assert (H5 : 65536 + JUDY_seg <= 2 ^ 64) by (vm_compute; discriminate).
  assert (H6 : 0 <= 16) by lia.
  assert (H7 : sizeof_Judy + (16 + 1) * sizeof_JudyStack + 8 <= JUDY_seg)
    by (vm_compute; discriminate).
  assert (H8 : ~ In 0 key_abc) by (intros [H|[H|[H|[]]]]; discriminate).
  assert (H9 : Z.of_nat (length key_abc) <= 16) by (vm_compute; discriminate).
  assert (H10 : 0 < 1 < 2 ^ 64) by lia.
  assert (H11 : (Z.of_nat (length key_abc) / JUDY_span_bytes cfg_lp64 + 1)
                * JudySize cfg_lp64 (size_class cfg_lp64 JUDY_span) + 16
                <= head_next (opened [65536] 16 0)) by (vm_compute; discriminate).
  assert (H12 : (Z.to_nat (Z.of_nat (length key_abc) / JUDY_span_bytes cfg_lp64) + 1 < 64)%nat)
    by (vm_compute; lia).
  split; [exact (conj Ho (conj Hb H8))|].
  pose proof (first_insert_then_delete 4 cfg_lp64 64 64 65536 [] ∅ 16 key_abc 1
                (opened [65536] 16 0) H1 H2 H3 Ho H4 H5 H6 H7 Hb H8 H9 H10 H11 H12) as H.
  cbv zeta in H. destruct H as (Ha & _ & _ & _ & Hk & Hs & _).
  exact (conj Ha (conj Hk Hs)).
Defined.

(** ** Entries to come: keys and cells *)

Lemma with_prefix_nil l : with_prefix [] l = l.
Proof.
  unfold with_prefix. rewrite <- (List.map_id l) at 2. apply List.map_ext.
  intros [k c]. reflexivity.
Qed.

Lemma with_prefix_app p a b :
  with_prefix p (a ++ b) = with_prefix p a ++ with_prefix p b.
Proof. unfold with_prefix. apply List.map_app. Qed.

Lemma with_prefix_twice p q l :
  with_prefix p (with_prefix q l) = with_prefix (p ++ q) l.
Proof.
  unfold with_prefix. rewrite List.map_map. apply List.map_ext.
  intros [k c]. cbn [fst snd]. rewrite app_assoc. reflexivity.
Qed.

Lemma with_prefix_cells p l : List.map snd (with_prefix p l) = List.map snd l.
Proof. unfold with_prefix. rewrite List.map_map. reflexivity. Qed.

Lemma entries_mono k k' cfg V next off dpt lvl sis :
  (k <= k')%nat ->
  (forall si, In si sis -> below k cfg V next off dpt lvl si = true) ->
  slot_entries k' cfg V next off dpt sis = slot_entries k cfg V next off dpt sis.
Proof.
  intros Hle H. unfold slot_entries. apply flat_map_in_ext. intros si Hin.
  specialize (H si Hin). unfold below in H.
  destruct (si_leaf si); [reflexivity|]. cbn [orb] in H.
  f_equal. apply (wf_mono k k' cfg V _ _ _ _ Hle H).
Qed.

Lemma entries_cons k cfg V next off dpt si sis :
  slot_entries k cfg V next off dpt (si :: sis)
  = (if si_leaf si then [(contrib V (si_bytes si), si_cell si)]
     else with_prefix (contrib V (si_bytes si))
            (keys k cfg V (load64 (mem V) (si_cell si))
               (child_off cfg next off) (child_dpt V next off dpt)))
    ++ slot_entries k cfg V next off dpt sis.
Proof. reflexivity. Qed.

Lemma frame_ents_mono k k' cfg V st lo m :
  (k <= k')%nat -> frame_ok k cfg V st (lo + Z.of_nat (S m)) ->
  frame_ents k' cfg V st lo m = frame_ents k cfg V st lo m.
Proof.
  intros Hle [Hw Hin]. destruct k as [|k0]; [discriminate|].
  apply wf_S in Hw. destruct Hw as (_ & _ & _ & _ & _ & _ & _ & _ & _ & Hsl & _).
  unfold frame_ents. cbv zeta. set (f := frame_at st (lo + Z.of_nat (S m))) in *.
  assert (Hb : forall si, In si (frame_after cfg V f) ->
                below k0 cfg V (fr_next f) (fr_off f) (dpt_at V (fr_off f))
                  (lo + Z.of_nat (S m) - 1) si = true).
  { intros si Hsi. apply (frame_after_incl cfg V _ Hin) in Hsi. apply (Hsl si Hsi). }
  rewrite (entries_mono k0 k' cfg V _ _ _ _ _ ltac:(lia) Hb).
  rewrite (entries_mono k0 (S k0) cfg V _ _ _ _ _ ltac:(lia) Hb).
  reflexivity.
Qed.

Lemma after_e_mono k k' cfg V st lo n :
  (k <= k')%nat ->
  (forall i, lo < i <= lo + Z.of_nat n -> frame_ok k cfg V st i) ->
  after_e k' cfg V st lo n = after_e k cfg V st lo n.
Proof.
  intros Hle. induction n as [|n IH]; intros H; [reflexivity|].
  cbn [after_e]. rewrite (frame_ents_mono k k') by (try exact Hle; apply H; lia).
  rewrite IH by (intros i Hi; apply H; lia). reflexivity.
Qed.

Lemma frame_ents_ext N cfg V st st' lo m :
  (forall i, lo < i <= lo + Z.of_nat (S m) -> frame_at st' i = frame_at st i) ->
  frame_ents N cfg V st' lo m = frame_ents N cfg V st lo m.
Proof.
  intros H. unfold frame_ents. cbv zeta. rewrite H by lia.
  rewrite (path_key_ext cfg V st st' lo m) by (intros i Hi; apply H; lia).
  reflexivity.
Qed.

Lemma after_e_ext N cfg V st st' lo n :
  (forall i, lo < i <= lo + Z.of_nat n -> frame_at st' i = frame_at st i) ->
  after_e N cfg V st' lo n = after_e N cfg V st lo n.
Proof.
  induction n as [|n IH]; intros H; [reflexivity|].
  cbn [after_e]. rewrite (frame_ents_ext N cfg V st st') by (intros i Hi; apply H; lia).
  rewrite IH by (intros i Hi; apply H; lia). reflexivity.
Qed.

Lemma path_key_app cfg V st lo m n :
  path_key cfg V st lo (n + m)
  = path_key cfg V st lo n ++ path_key cfg V st (lo + Z.of_nat n) m.
Proof.
  induction m as [|m IH].
  - rewrite Nat.add_0_r. cbn [path_key]. rewrite app_nil_r. reflexivity.
  - replace (n + S m)%nat with (S (n + m)) by lia. cbn [path_key].
    rewrite IH, <- app_assoc.
    replace (lo + Z.of_nat n + Z.of_nat (S m)) with (lo + Z.of_nat (S (n + m))) by lia.
    reflexivity.
Qed.

Lemma frame_ents_shift N cfg V st lo m n :
  frame_ents N cfg V st lo (n + m)
  = with_prefix (path_key cfg V st lo n) (frame_ents N cfg V st (lo + Z.of_nat n) m).
Proof.
  unfold frame_ents. cbv zeta. rewrite with_prefix_twice, path_key_app.
  replace (lo + Z.of_nat n + Z.of_nat (S m)) with (lo + Z.of_nat (S (n + m))) by lia.
  reflexivity.
Qed.

Lemma after_e_app N cfg V st lo m n :
  after_e N cfg V st lo (m + n)
  = with_prefix (path_key cfg V st lo n) (after_e N cfg V st (lo + Z.of_nat n) m)
    ++ after_e N cfg V st lo n.
Proof.
  induction m as [|m IH]; [reflexivity|].
  cbn [Nat.add after_e]. rewrite IH, with_prefix_app, <- app_assoc. f_equal.
  rewrite (Nat.add_comm m n). apply frame_ents_shift.
Qed.

Lemma after_e_shift N cfg V st lo n :
  after_e N cfg V st lo (S n)
  = with_prefix (contrib V (si_bytes (frame_si cfg V (frame_at st (lo + 1)))))
      (after_e N cfg V st (lo + 1) n)
    ++ frame_ents N cfg V st lo 0.
Proof.
  replace (S n) with (n + 1)%nat by lia. rewrite after_e_app.
  change (Z.of_nat 1) with 1. cbn [after_e path_key app]. rewrite app_nil_r.
  change (Z.of_nat 1) with 1. reflexivity.
Qed.

Lemma after_e_top N cfg V st l :
  1 <= l ->
  after_e N cfg V st 0 (Z.to_nat l)
  = frame_ents N cfg V st 0 (Z.to_nat (l - 1)) ++ after_e N cfg V st 0 (Z.to_nat (l - 1)).
Proof.
  intros Hl. replace (Z.to_nat l) with (S (Z.to_nat (l - 1))) by lia. reflexivity.
Qed.

Lemma frame_ents_0 N cfg V st lo :
  frame_ents N cfg V st lo 0
  = slot_entries N cfg V (fr_next (frame_at st (lo + 1))) (fr_off (frame_at st (lo + 1)))
      (dpt_at V (fr_off (frame_at st (lo + 1))))
      (frame_after cfg V (frame_at st (lo + 1))).
Proof.
  unfold frame_ents. cbv zeta. cbn [path_key]. rewrite with_prefix_nil.
  change (Z.of_nat 1) with 1. reflexivity.
Qed.

(** [judy_first] below a well-formed slot returns the cell of the first
    entry and leaves the cursor on it: the new frames spell its key, and
    the other entries are those to come within them *)
Lemma judy_first_spec_e k cfg :
  forall fuel j next off dpt,
  wf k cfg (view j) next off dpt (level j) = true -> (k <= fuel)%nat ->
  exists c j' n,
    judy_first cfg fuel next off dpt j = (c, j') /\ c <> 0 /\
    store_of j' = store_of j /\ level j' = level j + Z.of_nat (S n) /\
    (forall i, i <= level j -> frame_at (stack j') i = frame_at (stack j) i) /\
    (forall i, level j < i <= level j' -> frame_ok k cfg (view j) (stack j') i) /\
    keys k cfg (view j) next off dpt
    = (path_key cfg (view j) (stack j') (level j) (S n), c)
      :: after_e k cfg (view j) (stack j') (level j) (S n).
Proof.
  induction k as [|k IH]; intros fuel j next off dpt Hw Hfuel; [discriminate|].
  destruct fuel as [|fuel]; [lia|].
  destruct (first_turn_spec k cfg j next off dpt Hw) as (si & rest & s & Hres).
  pose proof (entered_frame_ok k cfg j next off dpt si rest s Hw Hres) as Hfok.
  destruct Hres as (Hns & Hturn & Hsi & Hafter).
  pose proof Hw as Hw'. apply wf_S in Hw'.
  destruct Hw' as (Hn & Hl & _ & _ & _ & Hd & _ & _ & _ & Hsl & _).
  assert (Hbelow : forall x, In x (si :: rest) ->
            below k cfg (view j) next off dpt (level j) x = true).
  { intros x Hx. rewrite <- Hns in Hx. apply (Hsl x Hx). }
  destruct (Hsl si ltac:(rewrite Hns; left; reflexivity)) as (Hc0 & _ & _ & Hb).
  destruct (entered_fields j next off s) as [Hfn Hfo].
  cbn [judy_first]. apply Z.eqb_neq in Hn. rewrite Hn. rewrite Hturn.
  rewrite keys_entries by (apply Z.eqb_neq; exact Hn). rewrite Hns, entries_cons.
  set (j1 := entered j next off s) in *.
  assert (Hrest : forall st', frame_at st' (level j + 1) = frame_at (stack j1) (level j + 1) ->
            frame_ents (S k) cfg (view j) st' (level j) 0
            = slot_entries k cfg (view j) next off dpt rest).
  { intros st' Hst'. rewrite frame_ents_0, Hst', Hafter, Hfn, Hfo, <- Hd.
    apply (entries_mono k (S k) cfg (view j) next off dpt (level j)); [lia|].
    intros x Hx. apply Hbelow. right. exact Hx. }
  unfold below in Hb. destruct (si_leaf si) eqn:Hleaf.
  - exists (si_cell si), j1, O.
    split; [reflexivity|]. split; [exact Hc0|].
    split; [apply entered_store|]. split; [apply entered_level|].
    split; [intros i Hi; apply entered_frame_ne; lia|].
    split.
    + intros i Hi. unfold j1 in Hi. rewrite entered_level in Hi.
      replace i with (level j + 1) by lia. exact Hfok.
    + cbn [app path_key after_e]. change (Z.of_nat 1) with 1.
      rewrite Hsi, app_nil_r. f_equal. symmetry. apply Hrest. reflexivity.
  - cbn [orb] in Hb. cbn [w_next w_off w_depth].
    assert (Hv : view j1 = view j) by apply entered_view.
    assert (Hl1 : level j1 = level j + 1) by apply entered_level.
    destruct (IH fuel j1 (load64 (mem j) (si_cell si)) (child_off cfg next off)
                (child_dpt (view j) next off dpt)) as (c & j' & n & Hf & Hcn & Hst & Hlv & Hfr & Hok & Hk).
    { rewrite Hv, Hl1. exact Hb. }
    { lia. }
    rewrite Hv in Hok, Hk. rewrite Hl1 in Hlv, Hfr, Hok, Hk.
    exists c, j', (S n).
    split; [exact Hf|]. split; [exact Hcn|].
    split; [rewrite Hst; apply entered_store|].
    split; [rewrite Hlv; lia|].
    split; [intros i Hi; rewrite Hfr by lia; apply entered_frame_ne; lia|].
    split.
    + intros i Hi. destruct (Z.eq_dec i (level j + 1)) as [->|Hne].
      * apply (frame_ok_ext _ _ _ (stack j1)); [apply Hfr; lia|exact Hfok].
      * apply (frame_ok_mono k (S k)); [lia|]. apply Hok. lia.
    + change (mem (view j)) with (mem j). rewrite Hk.
      rewrite (path_shift cfg (view j) (stack j') (level j) (S n)).
      rewrite (after_e_shift (S k)).
      rewrite (Hfr (level j + 1)) by lia. rewrite Hsi.
      rewrite (after_e_mono k (S k)) by (try lia; intros i Hi; apply Hok; lia).
      rewrite (Hrest (stack j')) by (apply Hfr; lia).
      reflexivity.
Qed.

(** ** A step of the cursor, with the key it spells *)

(** when a slot follows the top frame, [judy_nxt] returns the cell of the
    first entry below it and leaves a good cursor that spells its key;
    the entries still to come are the former ones less this one *)
Lemma nxt_turn_some_e N cfg fuel j si rest :
  1 <= level j -> cursor_inv N cfg j -> (N <= fuel)%nat ->
  frame_after cfg (view j) (frame_at (stack j) (level j)) = si :: rest ->
  exists c j' K,
    judy_nxt_turn cfg fuel j = Return c j' /\ c <> 0 /\
    store_of j' = store_of j /\ cursor_inv N cfg j' /\ 1 <= level j' /\
    (K, c) :: to_come_e N cfg j' = to_come_e N cfg j /\ cursor_key cfg j' = K.
Proof.
  intros Hl1 [_ Hinv] Hfuel Hafter.
  pose proof (Hinv (level j) ltac:(lia)) as Htop.
  rewrite (nxt_turn_spec N cfg fuel j Htop), Hafter. unfold nxt_turn_result.
  set (f := frame_at (stack j) (level j)) in *.
  set (j1 := set_frame_slot (si_slot si) j).
  set (m := Z.to_nat (level j - 1)).
  assert (Hm : 0 + Z.of_nat (S m) = level j) by (unfold m; lia).
  assert (HSm : Z.to_nat (level j) = S m) by (unfold m; lia).
  set (P := path_key cfg (view j) (stack j) 0 m).
  assert (Hin : In si (frame_after cfg (view j) f)) by (rewrite Hafter; left; reflexivity).
  assert (Hf1 : frame_at (stack j1) (level j)
                = mkFrame (fr_next f) (fr_off f) (si_slot si)) by apply slot_frame.
  assert (Hsi1 : frame_si cfg (view j) (frame_at (stack j1) (level j)) = si)
    by (rewrite Hf1; apply frame_si_slot; exact Hin).
  assert (Haf1 : frame_after cfg (view j) (frame_at (stack j1) (level j)) = rest)
    by (rewrite Hf1; apply frame_after_next; exact Hafter).
  assert (Hlow : forall i, i <> level j -> frame_at (stack j1) i = frame_at (stack j) i)
    by (intros i Hi; apply slot_frame_ne; exact Hi).
  assert (HP1 : path_key cfg (view j) (stack j1) 0 m = P).
  { apply path_key_ext. intros i Hi. apply Hlow. lia. }
  assert (Hkey1 : path_key cfg (view j) (stack j1) 0 (S m)
                  = P ++ contrib (view j) (si_bytes si)).
  { cbn [path_key]. rewrite HP1, Hm, Hsi1. reflexivity. }
  destruct Htop as [Hw Hinf]. fold f in Hw, Hinf.
  assert (Hnode : In si (node_slots cfg (view j) (fr_next f) (fr_off f)
                           (dpt_at (view j) (fr_off f))))
    by (apply (frame_after_incl cfg (view j) f Hinf), Hin).
  assert (Hok1 : forall i, 1 <= i <= level j -> frame_ok N cfg (view j) (stack j1) i).
  { intros i Hi. destruct (Z.eq_dec i (level j)) as [->|Hne].
    - unfold frame_ok. cbv zeta. rewrite Hsi1, Hf1. cbn [fr_next fr_off].
      split; [exact Hw|exact Hnode].
    - apply (frame_ok_ext _ _ _ (stack j)); [apply Hlow; lia|].
      apply Hinv. lia. }
  assert (Hcome1 : after_e N cfg (view j) (stack j1) 0 (S m)
                   = with_prefix P
                       (slot_entries N cfg (view j) (fr_next f) (fr_off f)
                          (dpt_at (view j) (fr_off f)) rest)
                     ++ after_e N cfg (view j) (stack j) 0 m).
  { cbn [after_e]. unfold frame_ents. cbv zeta. rewrite HP1, Hm, Haf1, Hf1.
    cbn [fr_next fr_off]. f_equal. apply after_e_ext. intros i Hi. apply Hlow. lia. }
  assert (Hcome : to_come_e N cfg j
                  = with_prefix P
                      (slot_entries N cfg (view j) (fr_next f) (fr_off f)
                         (dpt_at (view j) (fr_off f)) [si])
                    ++ after_e N cfg (view j) (stack j1) 0 (S m)).
  { unfold to_come_e. rewrite HSm, Hcome1. cbn [after_e]. unfold frame_ents. cbv zeta.
    rewrite Hm. fold f. fold P. rewrite Hafter.
    change (si :: rest) with ([si] ++ rest).
    rewrite entries_app, with_prefix_app, <- app_assoc. reflexivity. }
  destruct N as [|N0]; [discriminate|].
  pose proof Hw as Hw'. apply wf_S in Hw'.
  destruct Hw' as (_ & _ & _ & _ & _ & _ & _ & _ & _ & Hsl & _).
  destruct (Hsl si Hnode) as (Hc0 & _ & _ & Hb). unfold below in Hb.
  rewrite entries_cons in Hcome. cbn [slot_entries flat_map] in Hcome.
  rewrite app_nil_r in Hcome.
  destruct (si_leaf si) eqn:Hleaf.
  - exists (si_cell si), j1, (P ++ contrib (view j) (si_bytes si)).
    split; [reflexivity|]. split; [exact Hc0|]. split; [reflexivity|].
    split; [apply (cursor_inv_store _ _ j j1 (level j)); [reflexivity|reflexivity|lia|exact Hok1]|].
    split; [exact Hl1|]. split.
    + rewrite Hcome. unfold to_come_e. change (view j1) with (view j).
      change (level j1) with (level j). rewrite HSm. reflexivity.
    + unfold cursor_key. change (view j1) with (view j).
      change (level j1) with (level j). rewrite HSm. exact Hkey1.
  - cbn [orb] in Hb. replace (level j - 1 + 1) with (level j) in Hb by lia.
    apply (wf_mono N0 (S N0)) in Hb; [|lia]. destruct Hb as [Hb _].
    destruct (judy_first_spec_e (S N0) cfg fuel j1
                (load64 (mem j) (si_cell si)) (child_off cfg (fr_next f) (fr_off f))
                (child_dpt (view j) (fr_next f) (fr_off f) (dpt_at (view j) (fr_off f))))
      as (c & j' & n & Hf & Hcn & Hst & Hlv & Hfr & Hok & Hk).
    { exact Hb. }
    { exact Hfuel. }
    change (view j1) with (view j) in Hok, Hk.
    change (level j1) with (level j) in Hlv, Hfr, Hok, Hk.
    rewrite Hf.
    assert (Hlj' : Z.to_nat (level j') = (S m + S n)%nat) by lia.
    assert (Hpk' : path_key cfg (view j) (stack j') 0 (S m)
                   = P ++ contrib (view j) (si_bytes si)).
    { rewrite <- Hkey1. apply path_key_ext. intros i Hi. apply Hfr. lia. }
    exists c, j', ((P ++ contrib (view j) (si_bytes si))
                   ++ path_key cfg (view j) (stack j') (level j) (S n)).
    split; [reflexivity|]. split; [exact Hcn|]. split; [exact Hst|].
    split.
    { apply (cursor_inv_store _ _ j j' (level j')); [exact Hst|reflexivity|lia|].
      intros i Hi. destruct (Z.le_gt_cases i (level j)) as [Hle|Hgt].
      - apply (frame_ok_ext _ _ _ (stack j1)); [apply Hfr; lia|]. apply Hok1. lia.
      - apply Hok. lia. }
    split; [lia|]. split.
    + rewrite Hcome. change (mem (view j)) with (mem j). rewrite Hk.
      rewrite with_prefix_twice. unfold with_prefix at 1. cbn [List.map fst snd app].
      f_equal. unfold to_come_e. rewrite (view_store _ _ Hst), Hlj'.
      change (view j1) with (view j).
      rewrite (Nat.add_comm (S m) (S n)), after_e_app, Hpk'.
      replace (0 + Z.of_nat (S m)) with (level j) by lia.
      f_equal. apply after_e_ext. intros i Hi. apply Hfr. lia.
    + unfold cursor_key. rewrite (view_store _ _ Hst), Hlj'.
      change (view j1) with (view j).
      rewrite path_key_app, Hpk'. replace (0 + Z.of_nat (S m)) with (level j) by lia.
      reflexivity.
Qed.

(** ** [judy_nxt] steps through the entries to come *)

Lemma nxt_loop_spec_e N cfg fuel :
  forall n fuel2 j,
  level j = Z.of_nat n -> cursor_inv N cfg j ->
  (N <= fuel)%nat -> (n < fuel2)%nat ->
  nxt_result_e N cfg j (judy_nxt_loop cfg fuel2 fuel j).
Proof.
  induction n as [|n IH]; intros fuel2 j Hl Hinv Hfuel Hf2;
    (destruct fuel2 as [|f2]; [lia|]); cbn [judy_nxt_loop].
  - rewrite Hl. change (Z.of_nat 0 =? 0) with true. cbv iota.
    unfold nxt_result_e, to_come_e. rewrite Hl. cbn [after_e Z.to_nat Z.of_nat fst snd].
    split; [reflexivity|]. split; [exact Hl|reflexivity].
  - destruct (Z.eqb_spec (level j) 0) as [Hz|_]; [lia|].
    assert (Hl1 : 1 <= level j) by lia.
    destruct (frame_after cfg (view j) (frame_at (stack j) (level j)))
      as [|si rest] eqn:Hafter.
    + destruct Hinv as [H0 Hi]. pose proof (Hi (level j) ltac:(lia)) as Htop.
      rewrite (nxt_turn_spec N cfg fuel j Htop), Hafter. cbn [nxt_turn_result].
      destruct (cursor_inv_pop N cfg j Hl1 (conj H0 Hi)) as [Hp Hinv'].
      specialize (IH f2 (pop_level j) ltac:(lia) Hinv' Hfuel ltac:(lia)).
      unfold nxt_result_e in *.
      assert (Hc : to_come_e N cfg (pop_level j) = to_come_e N cfg j).
      { unfold to_come_e. rewrite Hp. change (view (pop_level j)) with (view j).
        change (stack (pop_level j)) with (stack j).
        rewrite (after_e_top N cfg (view j) (stack j) (level j)) by lia.
        unfold frame_ents. cbv zeta.
        replace (0 + Z.of_nat (S (Z.to_nat (level j - 1)))) with (level j) by lia.
        rewrite Hafter. reflexivity. }
      rewrite Hc in IH. exact IH.
    + destruct (nxt_turn_some_e N cfg fuel j si rest Hl1 Hinv Hfuel Hafter)
        as (c & j' & K & Ht & Hc0 & Hst & Hinv' & Hl' & Hcome & Hkey).
      rewrite Ht. unfold nxt_result_e. rewrite <- Hcome. cbv beta iota. cbn [fst snd].
      split; [reflexivity|]. split; [exact Hc0|]. split; [exact Hst|].
      split; [exact Hinv'|]. split; [exact Hl'|]. split; [reflexivity|exact Hkey].
Qed.

Lemma judy_nxt_spec_e N cfg fuel j :
  1 <= level j -> cursor_inv N cfg j ->
  (N <= fuel)%nat -> (Z.to_nat (max j) < fuel)%nat ->
  nxt_result_e N cfg j (judy_nxt cfg fuel j).
Proof.
  intros Hl Hinv Hfuel Hmax. unfold judy_nxt.
  destruct (Z.eqb_spec (level j) 0) as [Hz|_]; [lia|].
  destruct Hinv as [H0 Hi].
  destruct (frame_ok_facts N cfg _ _ _ (Hi (level j) ltac:(lia))) as (Hm & _).
  change (max (view j)) with (max j) in Hm.
  apply (nxt_loop_spec_e N cfg fuel (Z.to_nat (level j))); try assumption.
  - lia.
  - split; assumption.
  - lia.
Qed.

Lemma first_root_e N cfg fuel j :
  wf N cfg (view j) (root_slot j) 0 0 0 = true -> level j = 0 ->
  (N <= fuel)%nat ->
  exists c j',
    judy_first cfg fuel (root_slot j) 0 0 j = (c, j') /\ c <> 0 /\
    store_of j' = store_of j /\ cursor_inv N cfg j' /\ 1 <= level j' /\
    all_keys N cfg j = (cursor_key cfg j', c) :: to_come_e N cfg j'.
Proof.
  intros Hw Hl Hfuel.
  destruct (judy_first_spec_e N cfg fuel j (root_slot j) 0 0)
    as (c & j' & n & Hf & Hc & Hst & Hlv & Hfr & Hok & Hk).
  { rewrite Hl. exact Hw. }
  { exact Hfuel. }
  rewrite Hl in Hlv, Hok, Hk. exists c, j'.
  split; [exact Hf|]. split; [exact Hc|]. split; [exact Hst|].
  split; [apply (cursor_inv_store _ _ j j' (level j')); [exact Hst|reflexivity|lia|];
          intros i Hi; apply Hok; lia|].
  split; [lia|].
  unfold all_keys, to_come_e, cursor_key. rewrite Hk, (view_store _ _ Hst), Hlv.
  rewrite Z.add_0_l, Nat2Z.id. reflexivity.
Qed.

(** ** Reading the keys while stepping through the trie *)

Lemma bytes_strip0 bs : bytes bs -> bytes (strip0 bs).
Proof.
  induction bs as [|b bs IH]; intros H; [exact H|].
  apply bytes_cons in H. destruct H as [Hb Hr]. cbn [strip0].
  destruct (b =? 0); [reflexivity|]. apply bytes_cons. split; [exact Hb|apply IH, Hr].
Qed.

(** the key a good cursor of a string tree spells is made of bytes *)
Lemma cursor_key_bytes N cfg j :
  depth j = 0 -> cursor_inv N cfg j ->
  forall n : nat, Z.of_nat n <= level j ->
  bytes (path_key cfg (view j) (stack j) 0 n).
Proof.
  intros Hd [_ Hci]. induction n as [|n IH]; intros Hn; [reflexivity|].
  cbn [path_key]. apply bytes_app. split; [apply IH; lia|].
  destruct (Hci (0 + Z.of_nat (S n)) ltac:(lia)) as [Hw Hin].
  destruct N as [|N']; [discriminate|]. apply wf_S in Hw.
  destruct Hw as (_ & _ & _ & _ & _ & _ & _ & _ & _ & _ & _ & Hby & _).
  unfold contrib. change (depth (view j)) with (depth j). rewrite Hd. cbn [Z.eqb].
  apply bytes_strip0. apply Hby, Hin.
Qed.

(** [judy_key] on a good cursor of a string tree writes the key the
    cursor spells *)
Lemma cursor_key_read N cfg fuel out j :
  depth j = 0 -> cursor_inv N cfg j -> 1 <= level j -> max j < 2 ^ 32 - 1 ->
  (Z.to_nat (max j) < fuel)%nat ->
  (length (cursor_key cfg j) < length out)%nat -> Z.of_nat (length out) < 2 ^ 32 ->
  let r := judy_key cfg fuel out (Z.of_nat (length out)) j in
  snd r = Z.of_nat (length (cursor_key cfg j)) /\
  take (Z.to_nat (snd r)) (fst r) = cursor_key cfg j.
Proof.
  intros Hd Hci Hl Hmx Hfuel Hlen Hout r.
  pose proof (cursor_key_bytes N cfg j Hd Hci (Z.to_nat (level j)) ltac:(lia)) as Hby.
  fold (cursor_key cfg j) in Hby.
  destruct Hci as [_ Hci]. pose proof (Hci (level j) ltac:(lia)) as Htop.
  destruct (frame_ok_facts N cfg _ _ _ Htop) as (Hm & _).
  change (max (view j)) with (max j) in Hm.
  destruct Htop as [Hw _]. destruct N as [|N']; [discriminate|]. apply wf_S in Hw.
  destruct Hw as (_ & _ & _ & _ & _ & _ & _ & HS & _).
  subst r.
  rewrite (judy_key_string cfg fuel out (Z.of_nat (length out)) j Hd HS);
    try lia; fold (cursor_key cfg j); try lia.
  cbn [fst snd]. split; [reflexivity|].
  rewrite put_spec.
  - rewrite Nat2Z.id. change (Z.to_nat 0) with 0%nat.
    change (take 0 out) with (@nil Z). cbn [app].
    rewrite <- !app_assoc. apply take_app_length.
  - apply bytes_app. split; [exact Hby|reflexivity].
  - lia.
  - rewrite length_app. cbn [length]. lia.
Qed.

(** repeated [judy_nxt], each followed by [judy_key], returns the entries
    to come, keys and cells, in order *)
Lemma nxt_entries_to_come N cfg fuel out :
  forall ents j,
  to_come_e N cfg j = ents -> 1 <= level j -> cursor_inv N cfg j ->
  depth j = 0 -> max j < 2 ^ 32 - 1 -> Z.of_nat (length out) < 2 ^ 32 ->
  List.Forall (fun kc => (length (fst kc) < length out)%nat) ents ->
  (N <= fuel)%nat -> (Z.to_nat (max j) < fuel)%nat ->
  nxt_entries (S (length ents)) cfg fuel out j = ents.
Proof.
  induction ents as [|[K c] rest IH]; intros j Hc Hl Hinv Hd Hmx Hout Hfit Hfuel Hmax.
  - pose proof (judy_nxt_spec_e N cfg fuel j Hl Hinv Hfuel Hmax) as Hr.
    unfold nxt_result_e in Hr. rewrite Hc in Hr. destruct Hr as (Hr & _).
    cbn [nxt_entries length]. destruct (judy_nxt cfg fuel j) as [p j'].
    cbn [fst] in Hr. rewrite Hr. reflexivity.
  - pose proof (judy_nxt_spec_e N cfg fuel j Hl Hinv Hfuel Hmax) as Hr.
    unfold nxt_result_e in Hr. rewrite Hc in Hr.
    destruct Hr as (Hr & Hc0 & Hst & Hinv' & Hl' & Hcome & Hkey).
    change (nxt_entries (S (length ((K, c) :: rest))) cfg fuel out j)
      with (let '(c0, j') := judy_nxt cfg fuel j in
            if c0 =? 0 then []
            else
              let '(B, len) := judy_key cfg fuel out (Z.of_nat (length out)) j' in
              (take (Z.to_nat len) B, c0) :: nxt_entries (S (length rest)) cfg fuel out j').
    destruct (judy_nxt cfg fuel j) as [p j']. cbn [fst snd] in *. subst p.
    apply Z.eqb_neq in Hc0. rewrite Hc0.
    assert (Hd' : depth j' = 0) by (rewrite (store_depth _ _ Hst); exact Hd).
    assert (Hm' : max j' = max j) by (apply store_max; exact Hst).
    apply List.Forall_cons_iff in Hfit. destruct Hfit as [HfK Hfr]. cbn [fst] in HfK.
    pose proof (cursor_key_read N cfg fuel out j' Hd' Hinv' Hl' ltac:(lia)
                  ltac:(rewrite Hm'; exact Hmax) ltac:(rewrite Hkey; exact HfK) Hout) as Hk.
    cbv zeta in Hk.
    destruct (judy_key cfg fuel out (Z.of_nat (length out)) j') as [B len].
    cbn [fst snd] in Hk. destruct Hk as [_ Hk]. rewrite Hk, Hkey. f_equal.
    apply IH; try assumption; try lia.
Qed.

(** X17: stepping through a well-formed string trie with [judy_nxt] from
    the unpositioned cursor and reading the key with [judy_key] after
    every step yields every entry of the trie, the key and the cell it
    belongs to, each once, in ascending order of the keys; provided the
    buffer is longer than every key. *)
Theorem nxt_with_key_enumerates_entries N cfg fuel (j : Judy) (out : list Z) :
  wf_trie N cfg j = true -> depth j = 0 -> level j = 0 ->
  List.Forall (fun kc => (length (fst kc) < length out)%nat) (all_keys N cfg j) ->
  Z.of_nat (length out) < 2 ^ 32 -> max j < 2 ^ 32 - 1 ->
  (N <= fuel)%nat -> (Z.to_nat (max j) < fuel)%nat ->
  nxt_entries (S (length (all_keys N cfg j))) cfg fuel out j = all_keys N cfg j /\
  keys_ascending (List.map fst (all_keys N cfg j)).
Proof.
  intros Hw Hd Hl Hfit Hout Hmx Hfuel Hmax. split; [|apply all_keys_sorted, Hw].
  destruct (wf_trie_inv N cfg j Hw) as [H0|Hwf].
  - unfold all_keys. rewrite H0, keys_root_empty. cbn [length nxt_entries].
    unfold judy_nxt. rewrite Hl. change (0 =? 0) with true. cbv iota.
    fold (root_slot j). rewrite H0, judy_first_null. reflexivity.
  - destruct (first_root_e N cfg fuel j Hwf Hl Hfuel)
      as (c & j' & Hf & Hc & Hst & Hinv & Hl' & Hk).
    rewrite Hk in Hfit |- *.
    change (nxt_entries (S (length ((cursor_key cfg j', c) :: to_come_e N cfg j')))
              cfg fuel out j)
      with (let '(c0, j0) := judy_nxt cfg fuel j in
            if c0 =? 0 then []
            else
              let '(B, len) := judy_key cfg fuel out (Z.of_nat (length out)) j0 in
              (take (Z.to_nat len) B, c0)
              :: nxt_entries (S (length (to_come_e N cfg j'))) cfg fuel out j0).
    unfold judy_nxt. rewrite Hl. change (0 =? 0) with true. cbv iota.
    fold (root_slot j). rewrite Hf. apply Z.eqb_neq in Hc. rewrite Hc.
    assert (Hd' : depth j' = 0) by (rewrite (store_depth _ _ Hst); exact Hd).
    assert (Hm' : max j' = max j) by (apply store_max; exact Hst).
    apply List.Forall_cons_iff in Hfit. destruct Hfit as [HfK Hfr]. cbn [fst] in HfK.
    pose proof (cursor_key_read N cfg fuel out j' Hd' Hinv Hl' ltac:(lia)
                  ltac:(rewrite Hm'; exact Hmax) HfK Hout) as Hkr.
    cbv zeta in Hkr.
    destruct (judy_key cfg fuel out (Z.of_nat (length out)) j') as [B len].
    cbn [fst snd] in Hkr. destruct Hkr as [_ Hkr]. rewrite Hkr. f_equal.
    apply (nxt_entries_to_come N); try assumption; try reflexivity; try lia.
Qed.

Lemma nxt_with_key_enumerates_entries_witness :
  (wf_trie 4 cfg_lp64 (trie3 cfg_lp64) = true /\ depth (trie3 cfg_lp64) = 0 /\
   level (trie3 cfg_lp64) = 0) /\
  nxt_entries 4 cfg_lp64 64 [0; 0; 0; 0; 0; 0; 0; 0] (trie3 cfg_lp64)
  = all_keys 4 cfg_lp64 (trie3 cfg_lp64).
Proof.
  assert (Hw : wf_trie 4 cfg_lp64 (trie3 cfg_lp64) = true) by (vm_compute; reflexivity).
  assert (Hd : depth (trie3 cfg_lp64) = 0) by (vm_compute; reflexivity).
  assert (Hl : level (trie3 cfg_lp64) = 0) by (vm_compute; reflexivity).
  assert (Hfit : List.Forall (fun kc => (length (fst kc) < length [0; 0; 0; 0; 0; 0; 0; 0])%nat)
                   (all_keys 4 cfg_lp64 (trie3 cfg_lp64))).
  { replace (all_keys 4 cfg_lp64 (trie3 cfg_lp64))
      with (firstn 3 (all_keys 4 cfg_lp64 (trie3 cfg_lp64))) by (vm_compute; reflexivity).
    vm_compute. repeat constructor. }
  assert (Ho : Z.of_nat (length [0; 0; 0; 0; 0; 0; 0; 0]) < 2 ^ 32) by (cbn; lia).
  assert (Hm : max (trie3 cfg_lp64) < 2 ^ 32 - 1)
    by (replace (max (trie3 cfg_lp64)) with 17 by (vm_compute; reflexivity); lia).
  assert (Hf : (4 <= 64)%nat) by lia.
  assert (Hm2 : (Z.to_nat (max (trie3 cfg_lp64)) < 64)%nat)
    by (replace (max (trie3 cfg_lp64)) with 17 by (vm_compute; reflexivity); lia).
  split; [exact (conj Hw (conj Hd Hl))|].
  pose proof (nxt_with_key_enumerates_entries 4 cfg_lp64 64 (trie3 cfg_lp64)
                [0; 0; 0; 0; 0; 0; 0; 0] Hw Hd Hl Hfit Ho Hm Hf Hm2) as H.
  replace (S (length (all_keys 4 cfg_lp64 (trie3 cfg_lp64)))) with 4%nat in H
    by (vm_compute; reflexivity).
  exact (proj1 H).
Defined.

(** ** Words of memory *)

Lemma load_bytes_same n m m' a :
  (forall i, a <= i < a + Z.of_nat n -> load8 m' i = load8 m i) ->
  load_bytes n m' a = load_bytes n m a.
Proof.
  intros H. apply (agree_load_bytes (fun i => a <= i < a + Z.of_nat n)).
  - intros i Hi. apply H, Hi.
  - intros i Hi. exact Hi.
Qed.

Lemma load64_same m m' a :
  (forall i, a <= i < a + 8 -> load8 m' i = load8 m i) ->
  load64 m' a = load64 m a.
Proof.
  intros H. apply (agree_load64 (fun i => a <= i < a + 8)).
  - intros i Hi. apply H, Hi.
  - intros i Hi. exact Hi.
Qed.

Lemma load8_store64_ne m a v b :
  b < a \/ a + 8 <= b -> load8 (store64 m a v) b = load8 m b.
Proof.
  intros H. rewrite load8_store64.
  destruct (Z.leb_spec a b); destruct (Z.ltb_spec b (a + 8)); cbn [andb];
    try reflexivity. lia.
Qed.

Lemma load_bytes8_store64_ne m a v b :
  b + 8 <= a \/ a + 8 <= b -> load_bytes 8 (store64 m a v) b = load_bytes 8 m b.
Proof.
  intros H. apply load_bytes_same. intros i Hi. apply load8_store64_ne. lia.
Qed.

Lemma bytes_nth l i : bytes l -> 0 <= nth i l 0 < 256.
Proof.
  revert i. induction l as [|x l IH]; intros i Hb.
  - destruct i; cbn; lia.
  - apply bytes_cons in Hb. destruct Hb as [Hx Hb]. destruct i as [|i]; cbn [nth].
    + exact Hx.
    + apply IH, Hb.
Qed.

Lemma le_val_range l : bytes l -> 0 <= le_val l < 256 ^ Z.of_nat (length l).
Proof.
  intros Hb. rewrite le_val_rev. rewrite <- length_rev.
  apply be_val_range. apply bytes_rev. exact Hb.
Qed.

(** the bytes a word store leaves *)
Lemma load_bytes_store_le l : forall m a,
  bytes l ->
  load_bytes (length l) (store_le (length l) m a (le_val l)) a = l.
Proof.
  intros m a Hb. apply (nth_ext _ _ 0 0).
  - apply load_bytes_length.
  - rewrite load_bytes_length. intros i Hi.
    rewrite load_bytes_nth' by exact Hi. rewrite load8_store_le.
    destruct (Z.leb_spec a (a + Z.of_nat i)); [|lia].
    destruct (Z.ltb_spec (a + Z.of_nat i) (a + Z.of_nat (length l))); [|lia].
    cbn [andb]. replace (a + Z.of_nat i - a) with (Z.of_nat i) by lia.
    rewrite <- (le_val_byte l i Hb Hi). rewrite land255.
    rewrite Z.shiftr_div_pow2 by lia.
    replace (2 ^ (8 * Z.of_nat i)) with (256 ^ Z.of_nat i); [reflexivity|].
    change 256 with (2 ^ 8). rewrite <- Z.pow_mul_r by lia. reflexivity.
Qed.

Lemma load_bytes8_store64 l m a :
  bytes l -> length l = 8%nat -> load_bytes 8 (store64 m a (le_val l)) a = l.
Proof.
  intros Hb Hl. unfold store64.
  pose proof (load_bytes_store_le l m a Hb) as H. rewrite Hl in H. exact H.
Qed.

Lemma u8_byte x : 0 <= x < 256 -> u8 x = x.
Proof. intros H. unfold u8. apply Z.mod_small. exact H. Qed.

Lemma load8_memcpy_out m dst src n b :
  b < dst \/ dst + n <= b -> load8 (memcpy m dst src n) b = load8 m b.
Proof.
  intros H. destruct (Z.le_gt_cases 0 n) as [Hn|Hn].
  - rewrite load8_memcpy by exact Hn.
    destruct (Z.leb_spec dst b); destruct (Z.ltb_spec b (dst + n)); cbn [andb];
      try reflexivity. lia.
  - unfold memcpy. replace (Z.to_nat n) with 0%nat by lia. reflexivity.
Qed.

Lemma load_bytes8_memcpy_out m dst src n b :
  b + 8 <= dst \/ dst + n <= b ->
  load_bytes 8 (memcpy m dst src n) b = load_bytes 8 m b.
Proof.
  intros H. apply load_bytes_same. intros i Hi. apply load8_memcpy_out. lia.
Qed.

Lemma load64_memcpy_out m dst src n b :
  b + 8 <= dst \/ dst + n <= b ->
  load64 (memcpy m dst src n) b = load64 m b.
Proof.
  intros H. apply load64_same. intros i Hi. apply load8_memcpy_out. lia.
Qed.

(** a word of bytes copied by [memcpy] *)
Lemma load_bytes8_memcpy_in m dst src n b l :
  dst <= b -> b + 8 <= dst + n ->
  load_bytes 8 m (src + (b - dst)) = l -> bytes l ->
  load_bytes 8 (memcpy m dst src n) b = l.
Proof.
  intros H1 H2 Hl Hb. rewrite <- Hl. apply (nth_ext _ _ 0 0).
  - rewrite !load_bytes_length. reflexivity.
  - rewrite load_bytes_length. intros i Hi.
    rewrite !load_bytes_nth' by exact Hi.
    rewrite load8_memcpy by lia.
    destruct (Z.leb_spec dst (b + Z.of_nat i)); [|lia].
    destruct (Z.ltb_spec (b + Z.of_nat i) (dst + n)); [|lia].
    cbn [andb].
    replace (src + (b + Z.of_nat i - dst)) with (src + (b - dst) + Z.of_nat i) by lia.
    rewrite <- (load_bytes_nth' 8 m (src + (b - dst)) i Hi). rewrite Hl.
    apply u8_byte. apply bytes_nth. exact Hb.
Qed.

Lemma load8_memset0_out n m a b :
  b < a \/ a + Z.of_nat n <= b -> load8 (memset0 n m a) b = load8 m b.
Proof.
  intros H. rewrite load8_memset0.
  destruct (Z.leb_spec a b); destruct (Z.ltb_spec b (a + Z.of_nat n)); cbn [andb];
    try reflexivity. lia.
Qed.

Lemma load64_memset0_in n m a b :
  a <= b -> b + 8 <= a + Z.of_nat n -> load64 (memset0 n m a) b = 0.
Proof.
  intros H1 H2. apply load64_zero. intros i Hi. rewrite load8_memset0.
  destruct (Z.leb_spec a i); destruct (Z.ltb_spec i (a + Z.of_nat n)); cbn [andb];
    try reflexivity; lia.
Qed.

Lemma load_bytes8_memset0_in n m a b :
  a <= b -> b + 8 <= a + Z.of_nat n ->
  load_bytes 8 (memset0 n m a) b = [0; 0; 0; 0; 0; 0; 0; 0].
Proof.
  intros H1 H2. apply (nth_ext _ _ 0 0).
  - rewrite load_bytes_length. reflexivity.
  - rewrite load_bytes_length. intros i Hi.
    rewrite load_bytes_nth' by exact Hi. rewrite load8_memset0.
    destruct (Z.leb_spec a (b + Z.of_nat i));
      destruct (Z.ltb_spec (b + Z.of_nat i) (a + Z.of_nat n)); cbn [andb]; try lia.
    do 8 (destruct i as [|i]; [reflexivity|]). cbn in Hi. lia.
Qed.

(** [shift_ptrs]: the cells [idx .. slot - 1] receive the contents of
    their upper neighbours, nothing else changes *)
Lemma shift_ptrs_spec n : forall m node idx slot,
  0 <= idx <= slot -> (Z.to_nat (slot - idx) <= n)%nat ->
  (forall i, idx < i <= slot -> 0 <= load64 m (node - 8 * (i + 1)) < 2 ^ 64) ->
  let m' := shift_ptrs n m node idx slot in
  (forall i, idx <= i < slot ->
     load64 m' (node - 8 * (i + 1)) = load64 m (node - 8 * (i + 2))) /\
  (forall x, x < node - 8 * slot \/ node - 8 * idx <= x -> load8 m' x = load8 m x).
Proof.
  induction n as [|n IH]; intros m node idx slot Hi Hn Hr.
  - cbn [shift_ptrs]. split; [intros i Hi'; lia|reflexivity].
  - cbn [shift_ptrs]. destruct (Z.ltb_spec idx slot) as [Hlt|Hge].
    + set (m1 := store64 m (node - 8 * (idx + 1)) (load64 m (node - 8 * (idx + 2)))).
      assert (Hr1 : forall i, idx + 1 < i <= slot ->
                0 <= load64 m1 (node - 8 * (i + 1)) < 2 ^ 64).
      { intros i Hi'. unfold m1. rewrite load64_store64_ne by lia. apply Hr. lia. }
      destruct (IH m1 node (idx + 1) slot ltac:(lia) ltac:(lia) Hr1) as [H1 H2].
      split.
      * intros i Hi'. destruct (Z.eq_dec i idx) as [->|Hne].
        -- transitivity (load64 m1 (node - 8 * (idx + 1))).
           ++ apply load64_same. intros x Hx. apply H2. lia.
           ++ unfold m1. apply load64_store64.
              replace (idx + 2) with (idx + 1 + 1) by lia. apply Hr. lia.
        -- rewrite H1 by lia. unfold m1. apply load64_store64_ne. lia.
      * intros x Hx. rewrite H2 by lia. unfold m1. apply load8_store64_ne. lia.
    + split; [intros i Hi'; lia|reflexivity].
Qed.

(** [copy_ptrs]: the cells [slot .. stop - 1] of the old node are copied
    to the new node, [shift - 1] slots higher; the old node lies outside
    the cells written *)
Lemma copy_ptrs_spec n : forall m newnode node shift slot stop,
  0 <= slot -> (Z.to_nat (stop - slot) <= n)%nat ->
  (forall i, slot <= i < stop -> 0 <= load64 m (node - 8 * (i + 1)) < 2 ^ 64) ->
  (newnode - 8 * (slot + shift) + 8 <= node - 8 * stop
   \/ node - 8 * slot <= newnode - 8 * (stop - 1 + shift)) ->
  let m' := copy_ptrs n m newnode node shift slot stop in
  (forall i, slot <= i < stop ->
     load64 m' (newnode - 8 * (i + shift)) = load64 m (node - 8 * (i + 1))) /\
  (forall x, x < newnode - 8 * (stop - 1 + shift)
             \/ newnode - 8 * (slot + shift) + 8 <= x \/ stop <= slot ->
     load8 m' x = load8 m x).
Proof.
  induction n as [|n IH]; intros m newnode node shift slot stop Hs Hn Hr Hd.
  - cbn [copy_ptrs]. split; [intros i Hi'; lia|reflexivity].
  - cbn [copy_ptrs]. destruct (Z.ltb_spec slot stop) as [Hlt|Hge].
    + set (m1 := store64 m (newnode - 8 * (slot + shift))
                   (load64 m (node - 8 * (slot + 1)))).
      assert (Hr1 : forall i, slot + 1 <= i < stop ->
                0 <= load64 m1 (node - 8 * (i + 1)) < 2 ^ 64).
      { intros i Hi'. unfold m1. rewrite load64_store64_ne by lia. apply Hr. lia. }
      destruct (IH m1 newnode node shift (slot + 1) stop ltac:(lia) ltac:(lia) Hr1
                  ltac:(lia)) as [H1 H2].
      split.
      * intros i Hi'. destruct (Z.eq_dec i slot) as [->|Hne].
        -- transitivity (load64 m1 (newnode - 8 * (slot + shift))).
           ++ apply load64_same. intros x Hx. apply H2. lia.
           ++ unfold m1. apply load64_store64. apply Hr. lia.
        -- rewrite H1 by lia. unfold m1. apply load64_store64_ne. lia.
      * intros x Hx. rewrite H2 by lia. unfold m1. apply load8_store64_ne. lia.
    + split; [intros i Hi'; lia|reflexivity].
Qed.

(** ** The scan of a linear node *)

Lemma scan_down_le m base ks v i0 n : forall s test,
  0 <= i0 < s -> (Z.to_nat (s - i0) <= n)%nat ->
  Z.land (load64 m (base + i0 * ks)) (JudyMask ks) <= v ->
  (forall i, i0 < i < s -> v < Z.land (load64 m (base + i * ks)) (JudyMask ks)) ->
  scan_down n m base ks v s test
  = (i0, Z.land (load64 m (base + i0 * ks)) (JudyMask ks)).
Proof.
  induction n as [|n IH]; intros s test Hi Hn Hv Hgt; [lia|].
  cbn [scan_down]. destruct (Z.eqb_spec s 0) as [Hs|Hs]; [lia|].
  destruct (Z.eq_dec (s - 1) i0) as [He|Hne].
  - rewrite He. destruct (Z.leb_spec (Z.land (load64 m (base + i0 * ks)) (JudyMask ks)) v);
      [reflexivity|lia].
  - specialize (Hgt (s - 1) ltac:(lia)) as Hg.
    destruct (Z.leb_spec (Z.land (load64 m (base + (s - 1) * ks)) (JudyMask ks)) v);
      [lia|].
    apply IH; [lia|lia|exact Hv|]. intros i Hi'. apply Hgt. lia.
Qed.

Lemma scan_down_none m base ks v n : forall s test,
  0 < s -> (Z.to_nat s < n)%nat ->
  (forall i, 0 <= i < s -> v < Z.land (load64 m (base + i * ks)) (JudyMask ks)) ->
  scan_down n m base ks v s test
  = (-1, Z.land (load64 m (base + 0 * ks)) (JudyMask ks)).
Proof.
  induction n as [|n IH]; intros s test Hs Hn Hgt; [lia|].
  cbn [scan_down]. destruct (Z.eqb_spec s 0) as [H0|_]; [lia|].
  specialize (Hgt (s - 1) ltac:(lia)) as Hg.
  destruct (Z.leb_spec (Z.land (load64 m (base + (s - 1) * ks)) (JudyMask ks)) v);
    [lia|].
  destruct (Z.eq_dec s 1) as [->|Hne].
  - destruct n as [|n]; [lia|]. cbn [scan_down]. change (1 - 1) with 0.
    cbn [Z.eqb]. reflexivity.
  - apply IH; [lia|lia|]. intros i Hi. apply Hgt. lia.
Qed.

(** ** The arena while only larger blocks are asked for *)

Lemma find_larger_above cfg n type idx amt j :
  (forall t, idx < t -> reuse_get j t = 0) -> find_larger cfg n type idx amt j = None.
Proof.
  revert idx. induction n as [|n IH]; intros idx Hr; [reflexivity|].
  cbn [find_larger].
  destruct (idx <? JUDY_max); [|reflexivity].
  rewrite Hr by lia. change (negb (0 =? 0)) with false. cbv iota.
  apply IH. intros t Ht. apply Hr. lia.
Qed.

Lemma judy_alloc_bump_above cfg type j a nx rest :
  seg j = mkSeg a nx :: rest -> 1 <= type <= 6 ->
  (forall t, type <= t -> reuse_get j t = 0) ->
  let amt := JudySize cfg type in
  amt + sizeof_JudySeg <= nx < 2 ^ 32 ->
  judy_alloc cfg type j
  = (a + nx - amt,
     set_mem (memset0 (Z.to_nat amt) (mem j) (a + nx - amt))
       (set_seg (mkSeg a (nx - amt) :: rest) j)).
Proof.
  intros Hs Ht Hr amt Hnx. unfold judy_alloc. rewrite Hs.
  assert (Hsc : size_class cfg type = type).
  { unfold size_class, JUDY_radix, JUDY_span.
    destruct (Z.eqb_spec type 0); [lia|]. destruct (Z.eqb_spec type 7); [lia|].
    reflexivity. }
  rewrite Hsc. rewrite Hr by lia.
  change (negb (0 =? 0)) with false. cbv iota.
  rewrite find_larger_above by (intros t Ht'; apply Hr; lia). fold amt.
  assert (Hm : amt mod 8 = 0 /\ 16 <= amt).
  { unfold amt, JudySize, JUDY_slot_size, JUDY_key_size.
    assert (Hc : type = 1 \/ type = 2 \/ type = 3 \/ type = 4 \/ type = 5 \/ type = 6)
      by lia.
    destruct Hc as [->|[->|[->|[->|[->| ->]]]]]; cbn; split; (reflexivity || lia). }
  destruct Hm as [Hm H16].
  assert (Hr8 : round8 amt = amt).
  { unfold round8. rewrite land7, Hm. reflexivity. }
  rewrite Hr8. unfold head_next, head_base. rewrite Hs. cbn [seg_next seg_base].
  unfold JUDY_cache_line, sizeof_JudySeg in *.
  destruct (Z.ltb_spec amt 8); [lia|].
  destruct (Z.ltb_spec nx (amt + 16)); [lia|].
  assert (Hfl : fill_line 32 type amt j = (amt, j))
    by (apply fill_line_aligned; exact Hm).
  destruct (type >=? JUDY_1); rewrite Hfl;
    unfold set_head_next, head_next, head_base; rewrite Hs; cbn [seg_next seg_base];
    rewrite u32_small by lia; reflexivity.
Qed.

(** ** A linear node of 8-byte keys *)

Lemma JudySize_lin cfg t : 1 <= t <= 6 -> JudySize cfg t = 16 * 2 ^ (t - 1).
Proof.
  intros H.
  assert (Hc : t = 1 \/ t = 2 \/ t = 3 \/ t = 4 \/ t = 5 \/ t = 6) by lia.
  destruct Hc as [->|[->|[->|[->|[->| ->]]]]]; reflexivity.
Qed.

Lemma pow2_lin t : 1 <= t <= 6 -> 1 <= 2 ^ (t - 1) <= 32 /\ 2 ^ t = 2 * 2 ^ (t - 1).
Proof.
  intros H.
  assert (Hc : t = 1 \/ t = 2 \/ t = 3 \/ t = 4 \/ t = 5 \/ t = 6) by lia.
  destruct Hc as [->|[->|[->|[->|[->| ->]]]]]; cbn; lia.
Qed.

Lemma map_seqZ_list {A B : Type} (h : Z -> B) (g : A -> B) (d : A) (l : list A) :
  forall pre,
  (forall i, (i < length l)%nat ->
     h (Z.of_nat (length pre + i)) = g (nth (length pre + i) (pre ++ l) d)) ->
  List.map h (seqZ (Z.of_nat (length pre)) (Z.of_nat (length l))) = List.map g l.
Proof.
  induction l as [|x l IH]; intros pre H.
  - rewrite seqZ_nil' by (cbn [length]; lia). reflexivity.
  - rewrite seqZ_cons' by (cbn [length]; lia). cbn [List.map]. f_equal.
    + specialize (H 0%nat). rewrite Nat.add_0_r in H.
      rewrite H by (cbn [length]; lia). rewrite nth_middle. reflexivity.
    + specialize (IH (pre ++ [x])). rewrite List.length_app in IH. cbn [length] in IH.
      replace (Z.of_nat (length pre) + 1) with (Z.of_nat (length pre + 1)) by lia.
      cbn [length].
      replace (Z.of_nat (S (length l)) - 1) with (Z.of_nat (length l)) by lia.
      apply IH. intros i Hi. rewrite <- List.app_assoc. cbn [app].
      replace (length pre + 1 + i)%nat with (length pre + S i)%nat by lia.
      apply H. cbn [length]. lia.
Qed.

Lemma flat_map_single {A B C : Type} (F : B -> list C) (G : A -> B) (H : A -> C) l :
  (forall x, In x l -> F (G x) = [H x]) ->
  flat_map F (List.map G l) = List.map H l.
Proof.
  induction l as [|x l IH]; intros Hx; [reflexivity|].
  cbn [List.map flat_map]. rewrite Hx by (left; reflexivity). cbn [app].
  f_equal. apply IH. intros y Hy. apply Hx. right. exact Hy.
Qed.

Lemma sorted_ascending ks : keys_ascending ks -> ascending ks = true.
Proof.
  unfold keys_ascending. induction 1 as [|a ks Hs IH Hall]; [reflexivity|].
  destruct ks as [|b ks]; [reflexivity|].
  change (ascending (a :: b :: ks)) with (lex_lt a b && ascending (b :: ks)).
  rewrite IH, andb_true_r.
  apply Forall_inv in Hall. exact Hall.
Qed.

Lemma sorted_map_fst (es : list (list Z * Z)) :
  StronglySorted (fun x y => lex (fst x) (fst y)) es ->
  StronglySorted lex (List.map fst es).
Proof.
  induction 1 as [|a l Hs IH Hall]; cbn [List.map]; constructor.
  - exact IH.
  - rewrite List.Forall_forall in *. intros x Hx. apply in_map_iff in Hx.
    destruct Hx as (e & <- & He). apply Hall, He.
Qed.

Lemma free_slot_ok : key_ok free_slot.
Proof. split; reflexivity. Qed.

Lemma slots_key_ok p es i :
  Forall entry_ok es -> key_ok (nth i (repeat free_slot p ++ es) free_slot).
Proof.
  intros Hes. destruct (Nat.lt_ge_cases i (length (repeat free_slot p ++ es))) as [Hi|Hi].
  - assert (Hin : In (nth i (repeat free_slot p ++ es) free_slot)
                    (repeat free_slot p ++ es)) by (apply nth_In; exact Hi).
    apply in_app_or in Hin. destruct Hin as [Hin|Hin].
    + apply repeat_spec in Hin. rewrite Hin. apply free_slot_ok.
    + rewrite List.Forall_forall in Hes. destruct (Hes _ Hin) as (H1 & H2 & _).
      split; assumption.
  - rewrite nth_overflow by exact Hi. apply free_slot_ok.
Qed.

Lemma nth_free p es i :
  (i < p)%nat -> nth i (repeat free_slot p ++ es) free_slot = free_slot.
Proof.
  intros Hi. rewrite app_nth1 by (rewrite repeat_length; exact Hi).
  apply nth_repeat.
Qed.

Lemma nth_used p es i :
  (p <= i)%nat -> nth i (repeat free_slot p ++ es) free_slot = nth (i - p) es free_slot.
Proof.
  intros Hi. rewrite app_nth2 by (rewrite repeat_length; exact Hi).
  rewrite repeat_length. reflexivity.
Qed.

Lemma JudyMask8 x : 0 <= x < 2 ^ 64 -> Z.land x (JudyMask 8) = x.
Proof.
  intros Hx. rewrite JudyMask_ones by lia. change (8 * 8) with 64.
  rewrite Z.land_ones by lia. apply Z.mod_small. exact Hx.
Qed.

Lemma key_word_val m a K :
  load_bytes 8 m a = rev K -> length K = 8%nat -> bytes K ->
  load64 m a = be_val K /\ 0 <= be_val K < 2 ^ 64.
Proof.
  intros Hl Hlen Hb. split.
  - unfold load64. rewrite load_le_val, Hl, le_val_rev, rev_involutive. reflexivity.
  - pose proof (be_val_range K Hb) as Hr. rewrite Hlen in Hr.
    change (256 ^ Z.of_nat 8) with (2 ^ 64) in Hr. exact Hr.
Qed.

(** the partial key the scan reads in slot [i] *)
Lemma node_key_val m b ws i :
  node_rep m b ws -> (i < length ws)%nat -> key_ok (nth i ws free_slot) ->
  Z.land (load64 m (b + Z.of_nat i * 8)) (JudyMask 8)
  = be_val (fst (nth i ws free_slot)) /\
  0 <= be_val (fst (nth i ws free_slot)) < 2 ^ 64.
Proof.
  intros Hrep Hi [Hlen Hb]. destruct (Hrep i Hi) as [Hk _].
  replace (b + Z.of_nat i * 8) with (b + 8 * Z.of_nat i) by lia.
  destruct (key_word_val m _ _ Hk Hlen Hb) as [Hv Hr].
  rewrite Hv. split; [apply JudyMask8; exact Hr|exact Hr].
Qed.

Lemma lex_keys x y :
  key_ok x -> key_ok y -> lex_lt (fst x) (fst y) = (be_val (fst x) <? be_val (fst y)).
Proof.
  intros [Hlx Hbx] [Hly Hby]. apply lex_be; [congruence|exact Hbx|exact Hby].
Qed.

(** the trie of an integer array of depth 1 whose root is a linear node:
    it is well formed and holds the entries of the node *)
Lemma lin_leaf_node k cfg V r t b p es :
  depth V = 1 -> 1 <= max V < 2 ^ 32 ->
  0 < JUDY_span_bytes cfg -> JUDY_span_bytes cfg + 16 < 2 ^ 32 ->
  1 <= t <= 6 -> tag_of r = t -> base_of r = b -> 0 <= b -> r <> 0 ->
  Z.of_nat (p + length es) = 2 ^ (t - 1) -> es <> [] -> entries_ok es ->
  node_rep (mem V) b (repeat free_slot p ++ es) ->
  wf (S k) cfg V r 0 0 0 = true /\
  keys (S k) cfg V r 0 0
  = List.map (fun i => (fst (nth (Z.to_nat i) (repeat free_slot p ++ es) free_slot),
                        b + 16 * 2 ^ (t - 1) - 8 * (i + 1)))
      (seqZ (Z.of_nat p) (Z.of_nat (length es))) /\
  List.map (fun kc => (fst kc, load64 (mem V) (snd kc))) (keys (S k) cfg V r 0 0) = es.
Proof.
  intros Hd Hmax Hsp Hsp2 Ht Htag Hbase Hb Hr0 Hcnt Hne [Hok Hsorted] Hrep.
  set (ws := repeat free_slot p ++ es) in *.
  set (cnt := 2 ^ (t - 1)) in *.
  assert (Hlen : length ws = (p + length es)%nat).
  { unfold ws. rewrite List.length_app, repeat_length. reflexivity. }
  assert (Hn1 : (1 <= length es)%nat).
  { destruct es; [congruence|cbn [length]; lia]. }
  assert (Hsize : JudySize cfg (tag_of r) = 16 * cnt).
  { rewrite Htag. apply JudySize_lin. exact Ht. }
  assert (Hks : lin_ks 0 = 8) by reflexivity.
  assert (Hlc : lin_cnt cfg r 0 = cnt).
  { unfold lin_cnt. rewrite Hsize, Hks. change (8 + 8) with 16.
    rewrite Z.mul_comm. apply Z.div_mul. lia. }
  assert (Hln : lin_node cfg r = b + 16 * cnt).
  { unfold lin_node. rewrite Hsize, Hbase. reflexivity. }
  assert (Hcell : forall i, (i < length ws)%nat ->
            load64 (mem V) (b + 16 * cnt - 8 * (Z.of_nat i + 1))
            = snd (nth i ws free_slot)).
  { intros i Hi. destruct (Hrep i Hi) as [_ Hc]. rewrite <- Hc.
    f_equal. rewrite Hlen. lia. }
  assert (Hused : forall i, (p <= i < length ws)%nat -> entry_ok (nth i ws free_slot)).
  { intros i Hi. unfold ws. rewrite nth_used by lia.
    rewrite List.Forall_forall in Hok. apply Hok. apply nth_In. lia. }
  assert (Hfirst : lin_first cfg V r 0 = Z.of_nat p).
  { unfold lin_first. rewrite Hlc, Hln.
    pose proof (first_used_spec (S (Z.to_nat cnt)) (mem V) (b + 16 * cnt) cnt 0
                  ltac:(lia) ltac:(lia)) as Hf.
    cbv zeta in Hf.
    set (f := first_used (S (Z.to_nat cnt)) (mem V) (b + 16 * cnt) cnt 0) in *.
    destruct Hf as (Hf0 & Hf1 & Hf2 & Hf3).
    destruct (Z.lt_trichotomy f (Z.of_nat p)) as [Hlt|[Heq|Hgt]]; [|exact Heq|].
    - exfalso. apply Hf3; [lia|].
      replace f with (Z.of_nat (Z.to_nat f)) by lia.
      rewrite Hcell by lia. unfold ws. rewrite nth_free by lia. reflexivity.
    - exfalso. specialize (Hf2 (Z.of_nat p) ltac:(lia)).
      rewrite Hcell in Hf2 by lia.
      destruct (Hused p ltac:(lia)) as (_ & _ & Hv). lia. }
  assert (Hinfo : forall i, (p <= i < length ws)%nat ->
            lin_info cfg V r 0 0 (Z.of_nat i)
            = mkSI (Z.of_nat i) (fst (nth i ws free_slot)) true
                (b + 16 * cnt - 8 * (Z.of_nat i + 1))).
  { intros i Hi. unfold lin_info. f_equal.
    - unfold key_bytes, lin_key. rewrite Hks, Hbase. change (Z.to_nat 8) with 8%nat.
      destruct (Hrep i ltac:(lia)) as [Hk _].
      replace (b + Z.of_nat i * 8) with (b + 8 * Z.of_nat i) by lia.
      rewrite Hk. apply rev_involutive.
    - unfold is_leaf_key. rewrite Hd. reflexivity.
    - unfold lin_cell. rewrite Hln. reflexivity. }
  assert (Hns : node_slots cfg V r 0 0
                = List.map (lin_info cfg V r 0 0)
                    (seqZ (Z.of_nat p) (Z.of_nat (length es)))).
  { unfold node_slots, JUDY_radix, JUDY_span. rewrite Htag.
    destruct (Z.eqb_spec t 0); [lia|]. destruct (Z.eqb_spec t 7); [lia|].
    unfold lin_slots. rewrite Hfirst, Hlc. f_equal. f_equal. lia. }
  assert (Hin : forall si, In si (node_slots cfg V r 0 0) ->
            exists i, (p <= i < length ws)%nat /\
              si = mkSI (Z.of_nat i) (fst (nth i ws free_slot)) true
                     (b + 16 * cnt - 8 * (Z.of_nat i + 1))).
  { intros si Hsi. rewrite Hns in Hsi. apply in_map_iff in Hsi.
    destruct Hsi as (i & Hi & Hin). apply In_seqZ in Hin.
    exists (Z.to_nat i). split; [lia|]. rewrite <- Hi.
    rewrite <- (Hinfo (Z.to_nat i)) by lia. f_equal. lia. }
  assert (Hbytes : List.map si_bytes (node_slots cfg V r 0 0) = List.map fst es).
  { rewrite Hns, List.map_map.
    replace (Z.of_nat p) with (Z.of_nat (length (repeat free_slot p)))
      by (rewrite repeat_length; reflexivity).
    apply (map_seqZ_list _ fst free_slot). intros i Hi. rewrite repeat_length.
    rewrite Hinfo by lia. reflexivity. }
  assert (Hkeys : keys (S k) cfg V r 0 0
                  = List.map (fun i => (fst (nth (Z.to_nat i) ws free_slot),
                                        b + 16 * cnt - 8 * (i + 1)))
                      (seqZ (Z.of_nat p) (Z.of_nat (length es)))).
  { cbn [keys]. destruct (Z.eqb_spec r 0); [congruence|].
    rewrite Hns. apply flat_map_single. intros i Hi. apply In_seqZ in Hi.
    pose proof (Hinfo (Z.to_nat i) ltac:(lia)) as Hi'.
    rewrite Z2Nat.id in Hi' by lia. rewrite Hi'. cbn [si_leaf si_bytes si_cell].
    unfold contrib. rewrite Hd. cbn [Z.eqb]. reflexivity. }
  assert (Hcont : List.map (fun kc => (fst kc, load64 (mem V) (snd kc)))
                    (keys (S k) cfg V r 0 0) = es).
  { rewrite Hkeys, List.map_map. cbn [fst snd].
    rewrite <- (List.map_id es) at 2.
    replace (Z.of_nat p) with (Z.of_nat (length (repeat free_slot p)))
      by (rewrite repeat_length; reflexivity).
    apply (map_seqZ_list _ (fun e => e) free_slot). intros i Hi. rewrite repeat_length.
    rewrite Nat2Z.id. fold ws. rewrite Hcell by lia.
    destruct (nth (p + i) ws free_slot); reflexivity. }
  split; [|split; [exact Hkeys|exact Hcont]].
  assert (Hsl : lin_slots cfg V r 0 0 (lin_first cfg V r 0) = node_slots cfg V r 0 0).
  { unfold node_slots, JUDY_radix, JUDY_span. rewrite Htag.
    destruct (Z.eqb_spec t 0); [lia|]. destruct (Z.eqb_spec t 7); [lia|]. reflexivity. }
  cbn [wf]. rewrite !andb_true_iff.
  repeat match goal with |- _ /\ _ => split end.
  - apply negb_true_iff, Z.eqb_neq; exact Hr0.
  - reflexivity.
  - apply Z.ltb_lt; lia.
  - apply Z.ltb_lt; lia.
  - reflexivity.
  - apply Z.ltb_lt; lia.
  - unfold dpt_at. rewrite Hd. reflexivity.
  - rewrite Hd. reflexivity.
  - apply Z.ltb_lt; lia.
  - apply forallb_forall. intros si Hsi. destruct (Hin si Hsi) as (i & Hi & ->).
    cbn [si_cell si_bytes si_leaf].
    destruct (Hused i Hi) as (Hl8 & Hby & Hv).
    rewrite Hcell by lia. rewrite Hd. cbn [Z.ltb Z.compare orb]. rewrite !andb_true_iff.
    repeat match goal with |- _ /\ _ => split end; try reflexivity.
    + apply negb_true_iff, Z.eqb_neq. lia.
    + apply negb_true_iff, Z.eqb_neq. lia.
    + exact Hby.
  - rewrite Hns. rewrite seqZ_cons' by lia. reflexivity.
  - unfold JUDY_radix, JUDY_span. rewrite Htag.
    destruct (Z.eqb_spec t 0); [lia|]. destruct (Z.eqb_spec t 7); [lia|].
    rewrite andb_true_iff. split.
    + rewrite Hfirst. apply forallb_forall. intros i Hi. apply In_seqZ in Hi.
      apply Z.eqb_eq. unfold lin_val, lin_key. rewrite Hks, Hbase.
      replace i with (Z.of_nat (Z.to_nat i)) by lia.
      destruct (node_key_val (mem V) b ws (Z.to_nat i) Hrep ltac:(lia)
                  (slots_key_ok p es _ Hok)) as [Hkv _].
      rewrite Hkv. unfold ws. rewrite nth_free by lia. reflexivity.
    + rewrite Hsl, Hbytes. apply sorted_ascending.
      apply sorted_map_fst. exact Hsorted.
Qed.

(** ** [judy_cell] on a linear root node of an integer array of depth 1 *)

(** one turn of [judy_cell] on the root node: the key is in the node, or
    the node has a free slot, or the node is promoted *)
Lemma cell_turn_lin cfg fuel buff kmax j r t b cnt tst slot test :
  depth j = 1 -> load64 (mem j) (root j) = r ->
  tag_of r = t -> base_of r = b -> 1 <= t <= 6 -> cnt = 2 ^ (t - 1) ->
  let value := Z.land (src_get buff 0) (JudyMask 8) in
  let J := set_frame_slot slot (set_frame_off 0 (set_frame_next r (push_level j))) in
  let node := b + 16 * cnt in
  scan_down (S (Z.to_nat cnt)) (mem j) b 8 value cnt tst = (slot, test) ->
  (t = 6 -> test = value \/ load64 (mem j) (node - 8) = 0) ->
  judy_cell_turn cfg fuel buff kmax (mkWalk (root j) 0 0 tst) j
  = if test =? value then Return (node - 8 * (slot + 1)) J
    else if load64 (mem j) (node - 8) =? 0 then
      Return (node - 8 * (slot + 1))
        (set_mem
           (store64
              (shift_ptrs (Z.to_nat slot)
                 (store_le 8 (memcpy (mem j) b (b + 8) (slot * 8)) (b + slot * 8) value)
                 node 0 slot)
              (node - 8 * (slot + 1)) 0) J)
    else
      let '(next, j0) := judy_promote cfg (root j) (slot + 1) value 8 J in
      if is_leaf_value j0 value 1 then Return next j0
      else Continue (mkWalk next 8 1 test) j0.
Proof.
  intros Hd Hr Htag Hbase Ht Hcnt value J node Hscan H6.
  unfold judy_cell_turn. cbn [w_next w_off w_depth w_test].
  assert (Hm0 : mem (set_frame_off 0 (set_frame_next (load64 (mem (push_level j)) (root j)) (push_level j))) = mem j).
  { unfold push_level. destruct (level j <? max j); reflexivity. }
  assert (Hm1 : mem (push_level j) = mem j).
  { unfold push_level. destruct (level j <? max j); reflexivity. }
  assert (Hd0 : depth (set_frame_off 0 (set_frame_next (load64 (mem (push_level j)) (root j)) (push_level j))) = 1).
  { unfold push_level. destruct (level j <? max j); exact Hd. }
  rewrite Hm0, Hd0. rewrite Hm1, Hr. rewrite Htag.
  unfold JUDY_radix, JUDY_span.
  destruct (Z.eqb_spec t 0) as [?|_]; [lia|]. destruct (Z.eqb_spec t 7) as [?|_]; [lia|].
  change (negb (1 =? 0)) with true. cbv iota.
  change (JUDY_key_size - Z.land 0 JUDY_key_mask) with 8.
  change (8 + 8) with 16. change (Z.to_nat 8) with 8%nat.
  change (u32 (Z.lor 0 JUDY_key_mask + 1)) with 8. change (u32 (0 + 1)) with 1.
  rewrite (JudySize_lin cfg t Ht), <- Hcnt.
  assert (Hdiv : 16 * cnt / 16 = cnt) by (rewrite Z.mul_comm; apply Z.div_mul; lia).
  rewrite Hdiv, Hbase. fold value. rewrite Hscan. cbv iota. fold J. fold node.
  assert (HmJ : mem J = mem j).
  { unfold J, push_level. destruct (level j <? max j); reflexivity. }
  assert (HdJ : depth J = 1).
  { unfold J, push_level. destruct (level j <? max j); exact Hd. }
  rewrite HmJ.
  assert (Hleaf : forall j', depth j' = 1 -> is_leaf_value j' value 1 = true).
  { intros j' Hj'. unfold is_leaf_value. rewrite Hj'. reflexivity. }
  rewrite (Hleaf J HdJ).
  rewrite (Hleaf (set_mem _ J)) by exact HdJ.
  destruct (Z.eqb_spec test value) as [He|Hne]; [reflexivity|].
  destruct (Z.eqb_spec (load64 (mem j) (node - 8)) 0) as [Hz|Hnz]; [reflexivity|].
  change (JudySize cfg JUDY_max) with 512.
  destruct (Z.ltb_spec (16 * cnt) 512) as [Hlt|Hge]; [reflexivity|].
  exfalso.
  assert (t = 6).
  { destruct (pow2_lin t Ht) as [Hp _].
    assert (Hc : t = 1 \/ t = 2 \/ t = 3 \/ t = 4 \/ t = 5 \/ t = 6) by lia.
    destruct Hc as [->|[->|[->|[->|[->| ->]]]]]; cbn in Hcnt; lia. }
  destruct (H6 H); congruence.
Qed.

Lemma cell_lin cfg f buff kmax j p j' :
  root_slot j <> 0 ->
  judy_cell_turn cfg (S f) buff kmax (mkWalk (root j) 0 0 0) (set_level 0 j) = Return p j' ->
  judy_cell cfg (S f) buff kmax j = (p, j').
Proof.
  intros Hr Ht. unfold judy_cell. cbn [judy_cell_loop w_next root set_level mem].
  unfold root_slot in Hr. destruct (Z.eqb_spec (load64 (mem j) (root j)) 0); [congruence|].
  cbn [root set_level] in Ht. rewrite Ht. reflexivity.
Qed.

(** ** Slots of a node as a list *)

Lemma slot_ok_nth ws i : Forall slot_ok ws -> slot_ok (nth i ws free_slot).
Proof.
  intros H. destruct (Nat.lt_ge_cases i (length ws)) as [Hi|Hi].
  - rewrite List.Forall_forall in H. apply H, nth_In, Hi.
  - rewrite nth_overflow by exact Hi. split; [apply free_slot_ok|cbn; lia].
Qed.

Lemma nth_mid_other {A : Type} (l1 l2 : list A) x y d i :
  i <> length l1 -> nth i (l1 ++ x :: l2) d = nth i (l1 ++ y :: l2) d.
Proof.
  intros Hi. destruct (Nat.lt_ge_cases i (length l1)) as [Hlt|Hge].
  - rewrite !app_nth1 by exact Hlt. reflexivity.
  - rewrite !app_nth2 by exact Hge.
    destruct (i - length l1)%nat as [|k] eqn:Hk; [lia|]. reflexivity.
Qed.

(** the caller's store into the cell of slot [length A] *)
Lemma node_set_cell m b A B K x v :
  node_rep m b (A ++ (K, x) :: B) -> 0 <= v < 2 ^ 64 ->
  node_rep (store64 m (b + 16 * Z.of_nat (length (A ++ (K, x) :: B))
                       - 8 * (Z.of_nat (length A) + 1)) v)
    b (A ++ (K, v) :: B).
Proof.
  intros Hrep Hv i Hi.
  assert (Hlen : length (A ++ (K, v) :: B) = length (A ++ (K, x) :: B)).
  { rewrite !List.length_app. reflexivity. }
  rewrite Hlen in *. destruct (Hrep i Hi) as [Hk Hc].
  assert (HlA : (length A < length (A ++ (K, x) :: B))%nat).
  { rewrite List.length_app. cbn [length]. lia. }
  split.
  - rewrite load_bytes8_store64_ne by lia. rewrite Hk.
    destruct (Nat.eq_dec i (length A)) as [->|Hne].
    + rewrite !nth_middle. reflexivity.
    + rewrite (nth_mid_other A B (K, x) (K, v)) by exact Hne. reflexivity.
  - destruct (Nat.eq_dec i (length A)) as [->|Hne].
    + rewrite load64_store64 by exact Hv. rewrite nth_middle. reflexivity.
    + rewrite load64_store64_ne by lia. rewrite Hc.
      rewrite (nth_mid_other A B (K, x) (K, v)) by exact Hne. reflexivity.
Qed.

Lemma nth_shifted {A : Type} (l1 l2 : list A) x0 e d i :
  nth i (l1 ++ e :: l2) d
  = if (i <? length l1)%nat then nth (S i) (x0 :: l1 ++ l2) d
    else if (i =? length l1)%nat then e
    else nth i (x0 :: l1 ++ l2) d.
Proof.
  destruct (Nat.ltb_spec i (length l1)) as [Hlt|Hge].
  - cbn [nth]. rewrite !app_nth1 by exact Hlt. reflexivity.
  - destruct (Nat.eqb_spec i (length l1)) as [->|Hne].
    + apply nth_middle.
    + rewrite app_nth2 by exact Hge.
      destruct i as [|i]; [lia|]. cbn [nth].
      rewrite app_nth2 by lia.
      replace (S i - length l1)%nat with (S (i - length l1)) by lia. reflexivity.
Qed.

(** the insertion into a node that has a free slot: the keys and cells
    of the slots [1 .. s] move down by one slot, the key goes to slot [s]
    with an empty cell *)
Lemma node_insert m b x0 A B K :
  node_rep m b (x0 :: A ++ B) -> Forall slot_ok (x0 :: A ++ B) ->
  length K = 8%nat -> bytes K ->
  let s := Z.of_nat (length A) in
  let node := b + 16 * Z.of_nat (length (x0 :: A ++ B)) in
  let m' :=
    store64
      (shift_ptrs (Z.to_nat s)
         (store_le 8 (memcpy m b (b + 8) (s * 8)) (b + s * 8) (be_val K))
         node 0 s)
      (node - 8 * (s + 1)) 0 in
  node_rep m' b (A ++ (K, 0) :: B) /\
  (forall x, x < b \/ node <= x -> load8 m' x = load8 m x).
Proof.
  intros Hrep Hok HlK HbK s node m'. unfold m'. clear m'.
  set (ws := x0 :: A ++ B) in *.
  set (cnt := Z.of_nat (length ws)) in *.
  assert (Hcnt : cnt = 1 + s + Z.of_nat (length B)).
  { unfold cnt, ws, s. cbn [length]. rewrite List.length_app. lia. }
  assert (Hlen' : Z.of_nat (length (A ++ (K, 0) :: B)) = cnt).
  { rewrite List.length_app. cbn [length]. lia. }
  set (m1 := memcpy m b (b + 8) (s * 8)).
  set (m2 := store_le 8 m1 (b + s * 8) (be_val K)).
  set (m3 := shift_ptrs (Z.to_nat s) m2 node 0 s).
  assert (Hkey : forall i, (i < length ws)%nat ->
            load_bytes 8 m (b + 8 * Z.of_nat i) = rev (fst (nth i ws free_slot))).
  { intros i Hi. apply Hrep, Hi. }
  assert (Hcell : forall i, (i < length ws)%nat ->
            load64 m (node - 8 * (Z.of_nat i + 1)) = snd (nth i ws free_slot)).
  { intros i Hi. apply Hrep, Hi. }
  (* the cells are not touched by the moves of the keys *)
  assert (Hc2 : forall i, (i < length ws)%nat ->
            load64 m2 (node - 8 * (Z.of_nat i + 1)) = snd (nth i ws free_slot)).
  { intros i Hi. unfold m2. change (store_le 8) with store64.
    rewrite load64_store64_ne by (unfold node; fold cnt; lia).
    unfold m1. rewrite load64_memcpy_out by (unfold node; fold cnt; lia).
    apply Hcell, Hi. }
  assert (Hsh : (forall i, 0 <= i < s ->
                   load64 m3 (node - 8 * (i + 1)) = load64 m2 (node - 8 * (i + 2))) /\
                (forall x, x < node - 8 * s \/ node - 8 * 0 <= x ->
                   load8 m3 x = load8 m2 x)).
  { apply shift_ptrs_spec; [lia|lia|].
    intros i Hi. replace i with (Z.of_nat (Z.to_nat i)) by lia.
    rewrite Hc2 by lia. apply (slot_ok_nth ws _ Hok). }
  destruct Hsh as [Hsh1 Hsh2].
  split.
  2:{ intros x Hx. rewrite load8_store64_ne by (unfold node in *; fold cnt in Hx |- *; lia).
      rewrite Hsh2 by (unfold node in *; fold cnt in Hx |- *; lia).
      unfold m2. change (store_le 8) with store64.
      rewrite load8_store64_ne by (unfold node in *; fold cnt in Hx; lia).
      unfold m1. apply load8_memcpy_out. unfold node in *. fold cnt in Hx. lia. }
  intros i Hi. rewrite (nth_shifted A B x0 (K, 0) free_slot i). fold ws.
  assert (Hi' : Z.of_nat i < cnt) by lia.
  split.
  - (* keys *)
    rewrite load_bytes8_store64_ne by (unfold node; fold cnt; lia).
    transitivity (load_bytes 8 m2 (b + 8 * Z.of_nat i)).
    { apply load_bytes_same. intros x Hx. apply Hsh2. unfold node. fold cnt. lia. }
    unfold m2. change (store_le 8) with store64.
    destruct (Nat.ltb_spec i (length A)) as [Hlt|Hge].
    + rewrite load_bytes8_store64_ne by lia. unfold m1.
      apply load_bytes8_memcpy_in; [lia|lia| |].
      * replace (b + 8 + (b + 8 * Z.of_nat i - b)) with (b + 8 * Z.of_nat (S i)) by lia.
        apply Hkey. lia.
      * apply bytes_rev. apply (slot_ok_nth ws (S i) Hok).
    + destruct (Nat.eqb_spec i (length A)) as [->|Hne].
      * fold s. replace (b + 8 * s) with (b + s * 8) by lia.
        rewrite <- (rev_involutive K) at 1. rewrite <- le_val_rev.
        cbn [fst]. apply load_bytes8_store64.
        -- apply bytes_rev, HbK.
        -- rewrite length_rev. exact HlK.
      * rewrite load_bytes8_store64_ne by lia. unfold m1.
        rewrite load_bytes8_memcpy_out by lia. apply Hkey. lia.
  - (* cells *)
    rewrite Hlen'. fold node.
    destruct (Nat.ltb_spec i (length A)) as [Hlt|Hge].
    + rewrite load64_store64_ne by lia. rewrite Hsh1 by lia.
      replace (node - 8 * (Z.of_nat i + 2)) with (node - 8 * (Z.of_nat (S i) + 1)) by lia.
      apply Hc2. lia.
    + destruct (Nat.eqb_spec i (length A)) as [->|Hne].
      * fold s. rewrite load64_store64 by lia. reflexivity.
      * rewrite load64_store64_ne by lia.
        transitivity (load64 m2 (node - 8 * (Z.of_nat i + 1))).
        { apply load64_same. intros x Hx. apply Hsh2. lia. }
        apply Hc2. lia.
Qed.

(** ** The promotion of the root node *)

Lemma size_class_lin cfg t : 1 <= t <= 6 -> size_class cfg t = t.
Proof.
  intros Ht. unfold size_class, JUDY_radix, JUDY_span.
  destruct (Z.eqb_spec t 0); [lia|]. destruct (Z.eqb_spec t 7); [lia|]. reflexivity.
Qed.

(** [judy_promote] of a full node of type [t] that lies at the bottom of
    the segment, while no larger block is free: the new node is carved
    out right below the old one *)
Lemma promote_lin cfg j R r t b cnt idx value a nx :
  load64 (mem j) R = r -> tag_of r = t -> base_of r = b ->
  1 <= t <= 5 -> cnt = 2 ^ (t - 1) -> 0 <= idx <= cnt ->
  seg j = [mkSeg a nx] -> b = a + nx ->
  (forall t', t < t' -> reuse_get j t' = 0) ->
  32 * cnt + 16 <= nx < 2 ^ 32 ->
  let nb := b - 32 * cnt in
  let m0 := memset0 (Z.to_nat (32 * cnt)) (mem j) nb in
  let m1 := store64 m0 R (Z.lor nb (t + 1)) in
  let m2 := memcpy m1 (nb + (cnt - 1) * 8) b (idx * 8) in
  let m3 := copy_ptrs (Z.to_nat idx) m2 b (b + 16 * cnt) cnt 0 idx in
  let m4 := store_le 8 m3 (nb + (idx + cnt - 1) * 8) value in
  let m5 := memcpy m4 (nb + (idx + cnt) * 8) (b + idx * 8) ((cnt - idx) * 8) in
  let m6 := copy_ptrs (Z.to_nat (cnt - idx)) m5 b (b + 16 * cnt) (cnt + 1) idx cnt in
  exists j',
    judy_promote cfg R idx value 8 j = (b - 8 * (idx + cnt), j') /\
    mem j' = store64 m6 b (reuse_get j t) /\
    seg j' = [mkSeg a (nx - 32 * cnt)] /\
    (forall t', reuse_get j' t' = if t' =? t then b else reuse_get j t') /\
    depth j' = depth j /\ max j' = max j /\ root j' = root j.
Proof.
  intros Hr Htag Hbase Ht Hcnt Hidx Hseg Hb Hreuse Hnx nb m0 m1 m2 m3 m4 m5 m6.
  destruct (pow2_lin t ltac:(lia)) as [Hp1 Hp2]. rewrite <- Hcnt in Hp1.
  assert (Hs1 : JudySize cfg t = 16 * cnt) by (rewrite Hcnt; apply JudySize_lin; lia).
  assert (Hs2 : JudySize cfg (t + 1) = 32 * cnt).
  { rewrite JudySize_lin by lia. replace (t + 1 - 1) with t by lia. rewrite Hp2. lia. }
  unfold judy_promote. rewrite Hr, Htag, Hbase.
  replace (t + 1 - 1) with t by lia. rewrite Hs1, Hs2.
  change (8 + 8) with 16.
  assert (Hd1 : 16 * cnt / 16 = cnt) by (rewrite Z.mul_comm; apply Z.div_mul; lia).
  assert (Hd2 : 32 * cnt / 16 = 2 * cnt).
  { replace (32 * cnt) with (2 * cnt * 16) by lia. apply Z.div_mul. lia. }
  rewrite Hd1, Hd2.
  assert (Hal : judy_alloc cfg (t + 1) j
                = (a + nx - 32 * cnt,
                   set_mem (memset0 (Z.to_nat (32 * cnt)) (mem j) (a + nx - 32 * cnt))
                     (set_seg [mkSeg a (nx - 32 * cnt)] j))).
  { rewrite <- Hs2. apply judy_alloc_bump_above.
    - exact Hseg.
    - lia.
    - intros t' Ht'. apply Hreuse. lia.
    - rewrite Hs2. unfold sizeof_JudySeg. lia. }
  rewrite Hal. rewrite <- Hb. fold nb. cbv iota. cbn [mem set_mem set_seg].
  rewrite Z.max_r by lia. change (Z.to_nat 8) with 8%nat.
  replace (idx + 2 * cnt - cnt - 1) with (idx + cnt - 1) by lia.
  replace (idx + 2 * cnt - cnt) with (idx + cnt) by lia.
  replace (2 * cnt - cnt - 1) with (cnt - 1) by lia.
  replace (2 * cnt - cnt + 1) with (cnt + 1) by lia.
  replace (2 * cnt - cnt) with cnt by lia.
  replace (nb + 32 * cnt) with b by (unfold nb; lia).
  fold m0. fold m1. fold m2. fold m3. fold m4. fold m5. fold m6.
  eexists. split; [reflexivity|].
  unfold judy_free. rewrite (size_class_lin cfg t) by lia.
  cbn [mem set_mem reuse_set set_reuse seg depth max root reuse].
  split; [reflexivity|]. split; [reflexivity|].
  split; [|split; [reflexivity|split; reflexivity]].
  intros t'. unfold reuse_get, reuse_set, set_reuse. cbn [reuse].
  destruct (Z.eqb_spec t' t) as [->|Hne].
  - rewrite lookup_insert_eq. reflexivity.
  - rewrite lookup_insert_ne by congruence. reflexivity.
Qed.

Lemma nth_promoted (n : nat) (A B : list (list Z * Z)) e i :
  nth i (repeat free_slot n ++ A ++ e :: B) free_slot
  = if (i <? n)%nat then free_slot
    else if (i <? n + length A)%nat then nth (i - n) (A ++ B) free_slot
    else if (i =? n + length A)%nat then e
    else nth (i - n - 1) (A ++ B) free_slot.
Proof.
  destruct (Nat.ltb_spec i n) as [H1|H1].
  - rewrite app_nth1 by (rewrite repeat_length; exact H1). apply nth_repeat.
  - rewrite app_nth2 by (rewrite repeat_length; exact H1). rewrite repeat_length.
    destruct (Nat.ltb_spec i (n + length A)) as [H2|H2].
    + rewrite !app_nth1 by lia. reflexivity.
    + destruct (Nat.eqb_spec i (n + length A)) as [H3|H3].
      * replace (i - n)%nat with (length A) by lia. apply nth_middle.
      * rewrite !app_nth2 by lia.
        replace (i - n - length A)%nat with (S (i - n - 1 - length A)) by lia.
        reflexivity.
Qed.

(** the memory after the promotion of a full node: the new node holds
    the old slots in its upper part, with the new key among them and an
    empty cell for it, and free slots below *)
Lemma node_promote m R b A B K vr w :
  node_rep m b (A ++ B) -> Forall slot_ok (A ++ B) ->
  length K = 8%nat -> bytes K ->
  let cnt := Z.of_nat (length (A ++ B)) in
  let idx := Z.of_nat (length A) in
  1 <= cnt -> b + 16 * cnt <= R -> 0 <= vr < 2 ^ 64 ->
  let nb := b - 32 * cnt in
  let m0 := memset0 (Z.to_nat (32 * cnt)) m nb in
  let m1 := store64 m0 R vr in
  let m2 := memcpy m1 (nb + (cnt - 1) * 8) b (idx * 8) in
  let m3 := copy_ptrs (Z.to_nat idx) m2 b (b + 16 * cnt) cnt 0 idx in
  let m4 := store_le 8 m3 (nb + (idx + cnt - 1) * 8) (be_val K) in
  let m5 := memcpy m4 (nb + (idx + cnt) * 8) (b + idx * 8) ((cnt - idx) * 8) in
  let m6 := copy_ptrs (Z.to_nat (cnt - idx)) m5 b (b + 16 * cnt) (cnt + 1) idx cnt in
  let m7 := store64 m6 b w in
  node_rep m7 nb (repeat free_slot (Z.to_nat (cnt - 1)) ++ A ++ (K, 0) :: B) /\
  load64 m7 R = vr.
Proof.
  intros Hrep Hok HlK HbK cnt idx Hc1 HR Hvr nb m0 m1 m2 m3 m4 m5 m6 m7.
  set (ws := A ++ B) in *.
  assert (Hidx : 0 <= idx <= cnt).
  { unfold idx, cnt, ws. rewrite List.length_app. lia. }
  assert (Hkey : forall i, (i < length ws)%nat ->
            load_bytes 8 m (b + 8 * Z.of_nat i) = rev (fst (nth i ws free_slot))).
  { intros i Hi. apply Hrep, Hi. }
  assert (Hcell : forall i, (i < length ws)%nat ->
            load64 m (b + 16 * cnt - 8 * (Z.of_nat i + 1)) = snd (nth i ws free_slot)).
  { intros i Hi. apply Hrep, Hi. }
  (* frames of the seven steps *)
  assert (F0 : forall x, x < nb \/ b <= x -> load8 m0 x = load8 m x).
  { intros x Hx. unfold m0. apply load8_memset0_out. lia. }
  assert (F1 : forall x, x < R \/ R + 8 <= x -> load8 m1 x = load8 m0 x).
  { intros x Hx. unfold m1. apply load8_store64_ne. lia. }
  assert (F2 : forall x, x < nb + (cnt - 1) * 8 \/ nb + (cnt - 1) * 8 + idx * 8 <= x ->
            load8 m2 x = load8 m1 x).
  { intros x Hx. unfold m2. apply load8_memcpy_out. lia. }
  assert (Old2 : forall x, b <= x < b + 16 * cnt -> load8 m2 x = load8 m x).
  { intros x Hx. rewrite F2, F1, F0 by (unfold nb; lia). reflexivity. }
  assert (C3 : (forall i, 0 <= i < idx ->
                  load64 m3 (b - 8 * (i + cnt)) = load64 m2 (b + 16 * cnt - 8 * (i + 1))) /\
               (forall x, x < b - 8 * (idx - 1 + cnt) \/ b - 8 * (0 + cnt) + 8 <= x
                          \/ idx <= 0 -> load8 m3 x = load8 m2 x)).
  { apply copy_ptrs_spec; [lia|lia| |lia].
    intros i Hi. rewrite (load64_same m m2) by (intros x Hx; apply Old2; lia).
    replace i with (Z.of_nat (Z.to_nat i)) by lia.
    rewrite Hcell by lia. apply (slot_ok_nth ws _ Hok). }
  destruct C3 as [C3 F3].
  assert (F4 : forall x, x < nb + (idx + cnt - 1) * 8 \/ nb + (idx + cnt - 1) * 8 + 8 <= x ->
            load8 m4 x = load8 m3 x).
  { intros x Hx. unfold m4. change (store_le 8) with store64. apply load8_store64_ne. lia. }
  assert (Old4 : forall x, b <= x < b + 16 * cnt -> load8 m4 x = load8 m x).
  { intros x Hx. rewrite F4, F3, Old2 by (unfold nb; lia). reflexivity. }
  assert (F5 : forall x, x < nb + (idx + cnt) * 8
                         \/ nb + (idx + cnt) * 8 + (cnt - idx) * 8 <= x ->
            load8 m5 x = load8 m4 x).
  { intros x Hx. unfold m5. apply load8_memcpy_out. lia. }
  assert (Old5 : forall x, b <= x < b + 16 * cnt -> load8 m5 x = load8 m x).
  { intros x Hx. rewrite F5, Old4 by (unfold nb; lia). reflexivity. }
  assert (C6 : (forall i, idx <= i < cnt ->
                  load64 m6 (b - 8 * (i + (cnt + 1)))
                  = load64 m5 (b + 16 * cnt - 8 * (i + 1))) /\
               (forall x, x < b - 8 * (cnt - 1 + (cnt + 1))
                          \/ b - 8 * (idx + (cnt + 1)) + 8 <= x \/ cnt <= idx ->
                  load8 m6 x = load8 m5 x)).
  { apply copy_ptrs_spec; [lia|lia| |lia].
    intros i Hi. rewrite (load64_same m m5) by (intros x Hx; apply Old5; lia).
    replace i with (Z.of_nat (Z.to_nat i)) by lia.
    rewrite Hcell by lia. apply (slot_ok_nth ws _ Hok). }
  destruct C6 as [C6 F6].
  assert (F7 : forall x, x < b \/ b + 8 <= x -> load8 m7 x = load8 m6 x).
  { intros x Hx. unfold m7. apply load8_store64_ne. lia. }
  split.
  2:{ transitivity (load64 m1 R).
      - apply load64_same. intros x Hx.
        rewrite F7, F6, F5, F4, F3, F2 by (unfold nb; lia). reflexivity.
      - unfold m1. apply load64_store64. exact Hvr. }
  assert (Hlen' : Z.of_nat (length (repeat free_slot (Z.to_nat (cnt - 1))
                                      ++ A ++ (K, 0) :: B)) = 2 * cnt).
  { assert (Hcnt : cnt = idx + Z.of_nat (length B)).
    { unfold cnt, idx, ws. rewrite List.length_app. lia. }
    rewrite !List.length_app, repeat_length. cbn [length]. fold idx in Hcnt. lia. }
  intros i Hi. rewrite Hlen'.
  replace (nb + 16 * (2 * cnt) - 8 * (Z.of_nat i + 1)) with (b - 8 * (Z.of_nat i + 1))
    by (unfold nb; lia).
  assert (Hi' : Z.of_nat i < 2 * cnt) by lia.
  assert (HlA : Z.of_nat (length A) = idx) by reflexivity.
  rewrite nth_promoted. fold ws.
  destruct (Nat.ltb_spec i (Z.to_nat (cnt - 1))) as [H1|H1].
  { (* a free slot *)
    split.
    - transitivity (load_bytes 8 m0 (nb + 8 * Z.of_nat i)).
      + apply load_bytes_same. intros x Hx.
        rewrite F7, F6, F5, F4, F3, F2, F1 by (unfold nb in *; lia). reflexivity.
      + unfold m0. apply load_bytes8_memset0_in; unfold nb; lia.
    - transitivity (load64 m0 (b - 8 * (Z.of_nat i + 1))).
      + apply load64_same. intros x Hx.
        rewrite F7, F6, F5, F4, F3, F2, F1 by (unfold nb in *; lia). reflexivity.
      + unfold m0. apply load64_memset0_in; unfold nb; lia. }
  destruct (Nat.ltb_spec i (Z.to_nat (cnt - 1) + length A)) as [H2|H2].
  { (* a slot below the new key *)
    assert (Hold : (i - Z.to_nat (cnt - 1) < length ws)%nat).
    { assert (Hcl : cnt = Z.of_nat (length ws)) by reflexivity. lia. }
    split.
    - transitivity (load_bytes 8 m2 (nb + 8 * Z.of_nat i)).
      + apply load_bytes_same. intros x Hx.
        rewrite F7, F6, F5, F4, F3 by (unfold nb in *; lia). reflexivity.
      + unfold m2. apply load_bytes8_memcpy_in; [lia|lia| |].
        * replace (b + (nb + 8 * Z.of_nat i - (nb + (cnt - 1) * 8)))
            with (b + 8 * Z.of_nat (i - Z.to_nat (cnt - 1))) by lia.
          rewrite <- (Hkey _ Hold). apply load_bytes_same. intros x Hx.
          rewrite F1, F0 by (unfold nb; lia). reflexivity.
        * apply bytes_rev. apply (slot_ok_nth ws _ Hok).
    - transitivity (load64 m3 (b - 8 * (Z.of_nat i + 1))).
      + apply load64_same. intros x Hx.
        rewrite F7, F6, F5, F4 by (unfold nb in *; lia). reflexivity.
      + replace (b - 8 * (Z.of_nat i + 1))
          with (b - 8 * (Z.of_nat (i - Z.to_nat (cnt - 1)) + cnt)) by lia.
        rewrite C3 by lia.
        rewrite (load64_same m m2) by (intros x Hx; apply Old2; lia).
        apply Hcell, Hold. }
  destruct (Nat.eqb_spec i (Z.to_nat (cnt - 1) + length A)) as [H3|H3].
  { (* the new key *)
    cbn [fst snd]. split.
    - transitivity (load_bytes 8 m4 (nb + 8 * Z.of_nat i)).
      + apply load_bytes_same. intros x Hx.
        rewrite F7, F6, F5 by (unfold nb in *; lia). reflexivity.
      + unfold m4. change (store_le 8) with store64.
        replace (nb + (idx + cnt - 1) * 8) with (nb + 8 * Z.of_nat i) by lia.
        rewrite <- (rev_involutive K) at 1. rewrite <- le_val_rev.
        apply load_bytes8_store64.
        * apply bytes_rev, HbK.
        * rewrite length_rev. exact HlK.
    - transitivity (load64 m0 (b - 8 * (Z.of_nat i + 1))).
      + apply load64_same. intros x Hx.
        rewrite F7, F6, F5, F4, F3, F2, F1 by (unfold nb in *; lia). reflexivity.
      + unfold m0. apply load64_memset0_in; unfold nb; lia. }
  (* a slot above the new key *)
  assert (Hold : (i - Z.to_nat (cnt - 1) - 1 < length ws)%nat).
  { assert (Hcl : cnt = Z.of_nat (length ws)) by reflexivity. lia. }
  split.
  - transitivity (load_bytes 8 m5 (nb + 8 * Z.of_nat i)).
    + apply load_bytes_same. intros x Hx.
      rewrite F7, F6 by (unfold nb in *; lia). reflexivity.
    + unfold m5. apply load_bytes8_memcpy_in; [lia|lia| |].
      * replace (b + idx * 8 + (nb + 8 * Z.of_nat i - (nb + (idx + cnt) * 8)))
          with (b + 8 * Z.of_nat (i - Z.to_nat (cnt - 1) - 1)) by lia.
        rewrite <- (Hkey _ Hold). apply load_bytes_same. intros x Hx.
        apply Old4. lia.
      * apply bytes_rev. apply (slot_ok_nth ws _ Hok).
  - transitivity (load64 m6 (b - 8 * (Z.of_nat i + 1))).
    + apply load64_same. intros x Hx. apply F7. lia.
    + replace (b - 8 * (Z.of_nat i + 1))
        with (b - 8 * (Z.of_nat (i - Z.to_nat (cnt - 1) - 1) + (cnt + 1))) by lia.
      rewrite C6 by lia.
      rewrite (load64_same m m5) by (intros x Hx; apply Old5; lia).
      apply Hcell, Hold.
Qed.

(** ** Entries in order *)

Lemma entry_key_ok e : entry_ok e -> key_ok e.
Proof. intros (H1 & H2 & _). split; assumption. Qed.

Lemma entry_slot_ok e : entry_ok e -> slot_ok e.
Proof. intros (H1 & H2 & H3). split; [split; assumption|lia]. Qed.

Lemma sorted_change {A : Type} (P : A -> Prop) (R R' : A -> A -> Prop) l :
  (forall x y, P x -> P y -> R x y -> R' x y) ->
  Forall P l -> StronglySorted R l -> StronglySorted R' l.
Proof.
  intros HR HP Hs. induction Hs as [|a l Hs IH Hall]; constructor.
  - apply IH. apply Forall_inv_tail in HP. exact HP.
  - pose proof (Forall_inv HP) as Pa. apply Forall_inv_tail in HP.
    rewrite List.Forall_forall in *. intros x Hx. apply HR; auto.
Qed.

Lemma sorted_app {A : Type} (R : A -> A -> Prop) l1 l2 :
  StronglySorted R (l1 ++ l2) <->
  StronglySorted R l1 /\ StronglySorted R l2 /\
  (forall x y, In x l1 -> In y l2 -> R x y).
Proof.
  induction l1 as [|a l1 IH]; cbn [app].
  - split.
    + intros H. split; [constructor|]. split; [exact H|]. intros x y [].
    + intros (_ & H & _). exact H.
  - split.
    + intros H. apply StronglySorted_inv in H. destruct H as [Hs Hall].
      apply IH in Hs. destruct Hs as (H1 & H2 & H3).
      rewrite List.Forall_forall in Hall.
      split; [constructor; [exact H1|]|split; [exact H2|]].
      * rewrite List.Forall_forall. intros x Hx. apply Hall, in_or_app. left. exact Hx.
      * intros x y [<-|Hx] Hy; [apply Hall, in_or_app; right; exact Hy|].
        apply H3; assumption.
    + intros (H1 & H2 & H3). apply StronglySorted_inv in H1. destruct H1 as [H1 Hall].
      constructor.
      * apply IH. split; [exact H1|]. split; [exact H2|].
        intros x y Hx Hy. apply H3; [right; exact Hx|exact Hy].
      * rewrite List.Forall_forall in *. intros x Hx. apply in_app_or in Hx.
        destruct Hx as [Hx|Hx]; [apply Hall, Hx|]. apply H3; [left; reflexivity|exact Hx].
Qed.

Lemma entries_num es :
  entries_ok es -> StronglySorted (fun x y => kval x < kval y) es.
Proof.
  intros [Hok Hs].
  apply (sorted_change entry_ok (fun x y => lex (fst x) (fst y))
           (fun x y => kval x < kval y) es); [|exact Hok|exact Hs].
  intros x y Hx Hy Hl. unfold lex in Hl.
  rewrite (lex_keys x y (entry_key_ok _ Hx) (entry_key_ok _ Hy)) in Hl.
  apply Z.ltb_lt in Hl. exact Hl.
Qed.

Lemma num_entries es :
  Forall entry_ok es -> StronglySorted (fun x y => kval x < kval y) es ->
  entries_ok es.
Proof.
  intros Hok Hs. split; [exact Hok|].
  apply (sorted_change entry_ok (fun x y => kval x < kval y)
           (fun x y => lex (fst x) (fst y)) es); [|exact Hok|exact Hs].
  intros x y Hx Hy Hl. unfold lex.
  rewrite (lex_keys x y (entry_key_ok _ Hx) (entry_key_ok _ Hy)).
  apply Z.ltb_lt. exact Hl.
Qed.

Lemma sorted_split_at k (es : list (list Z * Z)) :
  StronglySorted (fun x y => kval x < kval y) es ->
  exists l1 l2, es = l1 ++ l2 /\
    Forall (fun e => kval e < k) l1 /\ Forall (fun e => k <= kval e) l2.
Proof.
  induction 1 as [|e r Hs IH Hall].
  - exists [], []. split; [reflexivity|]. split; constructor.
  - destruct (Z.lt_ge_cases (kval e) k) as [Hlt|Hge].
    + destruct IH as (l1 & l2 & -> & H1 & H2).
      exists (e :: l1), l2. split; [reflexivity|]. split; [constructor; assumption|exact H2].
    + exists [], (e :: r). split; [reflexivity|]. split; [constructor|].
      constructor; [exact Hge|].
      rewrite List.Forall_forall in *. intros x Hx. specialize (Hall x Hx). lia.
Qed.

(** where a key belongs among the entries: it is there, or it is not *)
Lemma entries_find K es :
  entries_ok es -> length K = 8%nat -> bytes K ->
  exists l1 l2,
    Forall (fun e => kval e < be_val K) l1 /\
    Forall (fun e => be_val K < kval e) l2 /\
    (es = l1 ++ l2 \/ exists v0, es = l1 ++ (K, v0) :: l2).
Proof.
  intros Hes HlK HbK. pose proof (entries_num es Hes) as Hs.
  destruct (sorted_split_at (be_val K) es Hs) as (l1 & l2 & -> & H1 & H2).
  destruct l2 as [|e l2].
  - exists l1, []. split; [exact H1|]. split; [constructor|]. left. reflexivity.
  - pose proof (Forall_inv H2) as He. cbv beta in He.
    apply sorted_app in Hs. destruct Hs as (_ & Hs2 & _).
    apply StronglySorted_inv in Hs2. destruct Hs2 as [_ Hall].
    destruct (Z.eq_dec (kval e) (be_val K)) as [Heq|Hne].
    + exists l1, l2. split; [exact H1|]. split.
      * rewrite List.Forall_forall in *. intros x Hx. specialize (Hall x Hx). lia.
      * right. exists (snd e). f_equal. f_equal.
        destruct Hes as [Hok _]. rewrite List.Forall_forall in Hok.
        destruct (Hok e ltac:(apply in_or_app; right; left; reflexivity)) as (Hl & Hb & _).
        destruct e as [Ke ve]. cbn [fst snd] in *. f_equal.
        apply be_val_inj; [congruence|exact Hb|exact HbK|exact Heq].
    + exists l1, (e :: l2). split; [exact H1|]. split.
      * constructor; [lia|].
        rewrite List.Forall_forall in *. intros x Hx. specialize (Hall x Hx). lia.
      * left. reflexivity.
Qed.

Lemma lex_num K e :
  length K = 8%nat -> bytes K -> key_ok e ->
  lex_lt K (fst e) = (be_val K <? kval e) /\ lex_lt (fst e) K = (kval e <? be_val K).
Proof.
  intros Hl Hb He.
  pose proof (lex_keys (K, 0) e (conj Hl Hb) He) as H1.
  pose proof (lex_keys e (K, 0) He (conj Hl Hb)) as H2.
  cbn [fst] in *. unfold kval. split; assumption.
Qed.

Lemma put_entry_at K v l1 l2 :
  length K = 8%nat -> bytes K ->
  Forall entry_ok l1 -> Forall entry_ok l2 ->
  Forall (fun e => kval e < be_val K) l1 ->
  Forall (fun e => be_val K < kval e) l2 ->
  put_entry K v (l1 ++ l2) = l1 ++ (K, v) :: l2 /\
  forall v0, put_entry K v (l1 ++ (K, v0) :: l2) = l1 ++ (K, v) :: l2.
Proof.
  intros Hl Hb Hok1 Hok2 H1 H2.
  induction l1 as [|e l1 IH]; cbn [app].
  - split.
    + destruct l2 as [|e l2]; [reflexivity|]. cbn [put_entry].
      destruct (lex_num K e Hl Hb (entry_key_ok _ (Forall_inv Hok2))) as [E1 _].
      rewrite E1. apply Forall_inv in H2. cbv beta in H2.
      destruct (Z.ltb_spec (be_val K) (kval e)); [reflexivity|lia].
    + intros v0. cbn [put_entry fst]. rewrite lex_lt_irrefl. reflexivity.
  - pose proof (Forall_inv H1) as He. pose proof (Forall_inv Hok1) as Hoe.
    cbv beta in He.
    apply Forall_inv_tail in H1. apply Forall_inv_tail in Hok1.
    destruct (IH Hok1 H1) as [IH1 IH2].
    destruct (lex_num K e Hl Hb (entry_key_ok _ Hoe)) as [E1 E2].
    split; [|intros v0]; cbn [put_entry]; rewrite E1, E2;
      (destruct (Z.ltb_spec (be_val K) (kval e)); [lia|]);
      (destruct (Z.ltb_spec (kval e) (be_val K)); [|lia]).
    + rewrite IH1. reflexivity.
    + rewrite IH2. reflexivity.
Qed.

Lemma entries_put K v l1 l2 :
  length K = 8%nat -> bytes K -> 0 < v < 2 ^ 64 ->
  Forall entry_ok l1 -> Forall entry_ok l2 ->
  StronglySorted (fun x y => kval x < kval y) l1 ->
  StronglySorted (fun x y => kval x < kval y) l2 ->
  Forall (fun e => kval e < be_val K) l1 ->
  Forall (fun e => be_val K < kval e) l2 ->
  entries_ok (l1 ++ (K, v) :: l2).
Proof.
  intros Hl Hb Hv Hok1 Hok2 Hs1 Hs2 H1 H2. apply num_entries.
  - apply Forall_app. split; [exact Hok1|]. constructor; [|exact Hok2].
    split; [exact Hl|]. split; [exact Hb|exact Hv].
  - rewrite List.Forall_forall in H1, H2.
    apply sorted_app. split; [exact Hs1|]. split.
    + constructor; [exact Hs2|]. rewrite List.Forall_forall. intros x Hx.
      unfold kval at 1. cbn [fst]. apply H2, Hx.
    + intros x y Hx [<-|Hy].
      * unfold kval at 2. cbn [fst]. apply H1, Hx.
      * specialize (H1 x Hx). specialize (H2 y Hy). lia.
Qed.

(** ** The scan of a node whose slots are known *)

Lemma scan_node_le m b A e B k tst :
  node_rep m b (A ++ e :: B) -> Forall slot_ok (A ++ e :: B) ->
  kval e <= k -> Forall (fun x => k < kval x) B ->
  let cnt := Z.of_nat (length (A ++ e :: B)) in
  scan_down (S (Z.to_nat cnt)) m b 8 k cnt tst = (Z.of_nat (length A), kval e).
Proof.
  intros Hrep Hok He HB cnt.
  assert (Hlen : cnt = Z.of_nat (length A) + 1 + Z.of_nat (length B)).
  { unfold cnt. rewrite List.length_app. cbn [length]. lia. }
  assert (Hkv : forall i, (i < length (A ++ e :: B))%nat ->
            Z.land (load64 m (b + Z.of_nat i * 8)) (JudyMask 8)
            = kval (nth i (A ++ e :: B) free_slot)).
  { intros i Hi. apply node_key_val; [exact Hrep|exact Hi|].
    apply (slot_ok_nth _ i Hok). }
  pose proof (Hkv (length A) ltac:(lia)) as H0. rewrite nth_middle in H0.
  rewrite <- H0. apply scan_down_le; [lia|lia|rewrite H0; exact He|].
  intros i Hi. replace i with (Z.of_nat (Z.to_nat i)) by lia.
  rewrite Hkv by lia. rewrite app_nth2 by lia.
  destruct (Z.to_nat i - length A)%nat as [|n] eqn:Hn; [lia|]. cbn [nth].
  rewrite List.Forall_forall in HB. apply HB. apply nth_In. lia.
Qed.

Lemma scan_node_none m b ws k tst :
  node_rep m b ws -> Forall slot_ok ws -> ws <> [] ->
  Forall (fun x => k < kval x) ws ->
  let cnt := Z.of_nat (length ws) in
  exists test, scan_down (S (Z.to_nat cnt)) m b 8 k cnt tst = (-1, test) /\ k < test.
Proof.
  intros Hrep Hok Hne Hall cnt.
  assert (Hc : 0 < cnt).
  { unfold cnt. destruct ws; [congruence|cbn [length]; lia]. }
  assert (Hkv : forall i, 0 <= i < cnt ->
            k < Z.land (load64 m (b + i * 8)) (JudyMask 8)).
  { intros i Hi. replace i with (Z.of_nat (Z.to_nat i)) by lia.
    destruct (node_key_val m b ws (Z.to_nat i) Hrep ltac:(lia)
                (proj1 (slot_ok_nth ws _ Hok))) as [Hv _].
    rewrite Hv. rewrite List.Forall_forall in Hall. apply Hall. apply nth_In. lia. }
  eexists. split.
  - apply scan_down_none; [exact Hc|lia|exact Hkv].
  - apply Hkv. lia.
Qed.

Lemma lor_tag base t :
  0 <= base -> base mod 8 = 0 -> 0 <= t < 8 -> Z.lor base t = base + t.
Proof.
  intros Hb Hm Ht.
  pose proof (Z.div_mod base 8 ltac:(lia)) as Hd.
  replace base with (base / 8 * 2 ^ 3) at 1 by (change (2 ^ 3) with 8; lia).
  rewrite lor_disjoint by (change (2 ^ 3) with 8; lia).
  change (2 ^ 3) with 8. lia.
Qed.

(** the key as the caller holds it and as the trie spells it *)
Lemma key_of_int j buff :
  depth j = 1 -> length buff = 8%nat -> key_of j buff = rev buff.
Proof.
  intros Hd Hl. unfold key_of. rewrite Hd.
  do 8 (destruct buff as [|? buff]; [discriminate|]).
  destruct buff; [|discriminate]. reflexivity.
Qed.

Lemma src_get_int buff :
  length buff = 8%nat -> bytes buff ->
  Z.land (src_get buff 0) (JudyMask 8) = be_val (rev buff) /\
  src_get buff 0 = be_val (rev buff).
Proof.
  intros Hl Hb.
  assert (H : src_get buff 0 = be_val (rev buff)).
  { unfold src_get. rewrite buf_le_val. change (8 * 0) with 0.
    rewrite <- Hl at 1. rewrite map_buf_get. apply le_val_rev. }
  split; [|exact H]. rewrite H. apply JudyMask8.
  assert (Hr : bytes (rev buff)) by (apply bytes_rev; exact Hb).
  pose proof (be_val_range (rev buff) Hr) as R. rewrite length_rev, Hl in R. exact R.
Qed.

(** the address of the node of type [t] *)
Lemma node_base_facts a H0 t :
  arena_fits a H0 -> 1 <= t <= 6 ->
  let cnt := 2 ^ (t - 1) in
  let b := a + H0 - 16 * (2 ^ t - 1) in
  1 <= cnt <= 32 /\ b = a + H0 - 32 * cnt + 16 /\ 0 <= b /\ b mod 8 = 0 /\
  0 < b + t < 2 ^ 64.
Proof.
  intros (Ha & H8 & HH & Htop) Ht cnt b.
  destruct (pow2_lin t Ht) as [Hc H2]. fold cnt in Hc, H2.
  assert (Hb : b = a + H0 - 32 * cnt + 16) by (unfold b; lia).
  split; [exact Hc|]. split; [exact Hb|]. split; [lia|]. split; [|lia].
  rewrite Hb. replace (a + H0 - 32 * cnt + 16) with (a + H0 + (2 - 4 * cnt) * 8) by lia.
  rewrite Z.mod_add by lia. exact H8.
Qed.

Lemma store_node_in_arena a H0 t es j j' :
  store_of j' = store_of j -> node_in_arena a H0 t es j -> node_in_arena a H0 t es j'.
Proof.
  unfold store_of. intros H. injection H as Hroot Hreuse Hseg Hmem Hheap Hmax Hdepth.
  unfold node_in_arena, root_slot, reuse_get.
  rewrite Hroot, Hreuse, Hseg, Hmem, Hmax, Hdepth. exact (fun x => x).
Qed.

Lemma judy_cell_empty_int cfg fuel buff kmax j :
  root_slot j = 0 -> depth j = 1 ->
  judy_cell cfg (S fuel) buff kmax j
  = cell_digits cfg (S fuel) buff (root j) 0 0 (set_level 0 j).
Proof.
  intros Hr Hd. unfold judy_cell. cbn [judy_cell_loop w_next root set_level mem].
  unfold root_slot in Hr. rewrite Hr. cbn [Z.eqb].
  unfold cell_digit. cbn [w_off w_next w_depth]. change (Z.land 0 JUDY_key_mask) with 0.
  cbn [Z.eqb negb andb depth set_level]. rewrite Hd. cbn [Z.eqb]. reflexivity.
Qed.

Lemma cell_digits_S cfg k buff next off dpt j :
  cell_digits cfg (S k) buff next off dpt j
  = if dpt <? depth j then
      let '(base, j) := judy_alloc cfg JUDY_1 j in
      let node := base + JudySize cfg JUDY_1 in
      let m := store64 (mem j) next (Z.lor base JUDY_1) in
      let m := store64 m base (src_get buff dpt) in
      let j := set_mem m j in
      let j := push_frame (load64 (mem j) next) off j in
      cell_digits cfg k buff (node - 8) (u32 (Z.lor off JUDY_key_mask + 1))
        (u32 (dpt + 1)) j
    else (next, j).
Proof. reflexivity. Qed.

Lemma cell_digits_done cfg n buff next off dpt j :
  depth j <= dpt -> cell_digits cfg n buff next off dpt j = (next, j).
Proof.
  intros H. destruct n as [|n]; [reflexivity|]. rewrite cell_digits_S.
  destruct (Z.ltb_spec dpt (depth j)); [lia|reflexivity].
Qed.

Lemma store_push_frame ref off j : store_of (push_frame ref off j) = store_of j.
Proof.
  unfold push_frame.
  rewrite store_set_frame_off, store_set_frame_slot, store_set_frame_next, store_push_level.
  reflexivity.
Qed.

(** the first key: a node of type 1 is carved out below the handle *)
Lemma cell_first cfg a H0 j buff kmax :
  arena_fits a H0 -> node_in_arena a H0 0 [] j ->
  length buff = 8%nat -> bytes buff ->
  exists j',
    judy_cell cfg 64 buff kmax j = (a + H0 - 8, j') /\
    node_in_arena a H0 1 [(rev buff, 0)] j'.
Proof.
  intros Hfit (Hd & Hmax & Hseg & Hroot & Hreuse & _ & Hn) Hl Hb.
  pose proof Hfit as (Ha & H8 & HH & Htop).
  cbn [Z.eqb] in Hn. destruct Hn as [Hr0 _].
  change (2 ^ 0 - 1) with 0 in Hseg. rewrite Z.mul_0_r, Z.sub_0_r in Hseg.
  change 64%nat with (S 63). rewrite judy_cell_empty_int by assumption.
  rewrite cell_digits_S. cbn [depth set_level]. rewrite Hd. cbn [Z.ltb Z.compare].
  set (j0 := set_level 0 j).
  assert (Hal : judy_alloc cfg JUDY_1 j0
                = (a + H0 - 16,
                   set_mem (memset0 (Z.to_nat 16) (mem j0) (a + H0 - 16))
                     (set_seg [mkSeg a (H0 - 16)] j0))).
  { change 16 with (JudySize cfg 1) at 1 2 3. apply judy_alloc_bump_above.
    - exact Hseg.
    - lia.
    - intros t' Ht'. apply Hreuse. lia.
    - change (JudySize cfg 1) with 16. unfold sizeof_JudySeg. lia. }
  rewrite Hal. cbv iota zeta. cbn [mem set_mem set_seg].
  change (JudySize cfg JUDY_1) with 16. change (mem j0) with (mem j).
  set (m' := store64 (store64 (memset0 (Z.to_nat 16) (mem j) (a + H0 - 16)) (root j)
                        (Z.lor (a + H0 - 16) JUDY_1)) (a + H0 - 16) (src_get buff 0)).
  set (j1 := set_mem m' _).
  set (j2 := push_frame _ _ j1).
  assert (Hst : store_of j2 = store_of j1) by apply store_push_frame.
  rewrite cell_digits_done by (rewrite (store_depth _ _ Hst); unfold j1; cbn [depth set_mem set_seg]; unfold j0; cbn [depth set_level]; change (u32 (0 + 1)) with 1; lia).
  exists j2. split; [f_equal; lia|].
  apply (store_node_in_arena a H0 1 _ j1 j2 Hst).
  assert (Hsrc : src_get buff 0 = le_val buff).
  { destruct (src_get_int buff Hl Hb) as [_ H]. rewrite H, le_val_rev. reflexivity. }
  assert (Hlor : Z.lor (a + H0 - 16) JUDY_1 = a + H0 - 16 + 1).
  { apply lor_tag; [lia| |unfold JUDY_1; lia].
    replace (a + H0 - 16) with (a + H0 + (-2) * 8) by lia.
    rewrite Z.mod_add by lia. exact H8. }
  assert (Hrs : load64 m' (root j) = a + H0 - 16 + 1).
  { unfold m'. rewrite load64_store64_ne by lia.
    rewrite load64_store64 by lia. exact Hlor. }
  unfold node_in_arena.
  change (depth j1) with (depth j). change (max j1) with (max j).
  change (seg j1) with [mkSeg a (H0 - 16)]. change (root j1) with (root j).
  change (2 ^ 1 - 1) with 1. rewrite Z.mul_1_r.
  split; [exact Hd|]. split; [exact Hmax|]. split; [reflexivity|]. split; [exact Hroot|].
  split.
  { intros t' Ht'. change (reuse_get j1 t') with (reuse_get j t'). apply Hreuse. lia. }
  split; [lia|]. change (1 =? 0) with false. cbv iota zeta.
  change (root_slot j1) with (load64 m' (root j)). rewrite Hrs.
  split; [unfold tag_of; rewrite land7; replace (a + H0 - 16 + 1) with (1 + (a + H0) + (-2) * 8) by lia;
          rewrite Z.mod_add by lia; rewrite <- Zplus_mod_idemp_r, H8; reflexivity|].
  split.
  { unfold base_of. rewrite land7.
    replace (a + H0 - 16 + 1) with (1 + (a + H0) + (-2) * 8) at 2 by lia.
    rewrite Z.mod_add by lia. rewrite <- Zplus_mod_idemp_r, H8.
    change ((1 + 0) mod 8) with 1. lia. }
  split; [cbn [length]; lia|]. split; [cbn [length]; lia|].
  cbn [length]. change (Z.to_nat (2 ^ (1 - 1))) with 1%nat.
  cbn [Nat.sub repeat app]. change (mem j1) with m'.
  intros i Hi. cbn [length] in Hi. assert (i = 0%nat) by lia. subst i.
  cbn [nth fst snd length]. rewrite rev_involutive.
  change (Z.of_nat 0) with 0. change (Z.of_nat 1) with 1.
  rewrite Z.mul_0_r, Z.add_0_r. split.
  - unfold m'. rewrite Hsrc. apply load_bytes8_store64; assumption.
  - unfold m'. rewrite load64_store64_ne by lia. rewrite load64_store64_ne by lia.
    apply load64_memset0_in; lia.
Qed.

(** [judy_cell] on an integer array of depth 1 whose root is a linear
    node, by the outcome of the scan *)
Lemma cell_root_found cfg f buff kmax j t b cnt slot :
  depth j = 1 -> root_slot j <> 0 ->
  tag_of (root_slot j) = t -> base_of (root_slot j) = b -> 1 <= t <= 6 ->
  cnt = 2 ^ (t - 1) ->
  let value := Z.land (src_get buff 0) (JudyMask 8) in
  scan_down (S (Z.to_nat cnt)) (mem j) b 8 value cnt 0 = (slot, value) ->
  judy_cell cfg (S f) buff kmax j
  = (b + 16 * cnt - 8 * (slot + 1),
     set_frame_slot slot
       (set_frame_off 0 (set_frame_next (root_slot j) (push_level (set_level 0 j))))).
Proof.
  intros Hd Hr Htag Hbase Ht Hcnt value Hscan.
  apply cell_lin; [exact Hr|].
  pose proof (cell_turn_lin cfg (S f) buff kmax (set_level 0 j) (root_slot j) t b cnt 0
                slot value Hd eq_refl Htag Hbase Ht Hcnt Hscan) as Hturn.
  cbv zeta in Hturn. fold value in Hturn. rewrite Z.eqb_refl in Hturn.
  apply Hturn. intros _. left. reflexivity.
Qed.

Lemma cell_root_insert cfg f buff kmax j t b cnt slot test :
  depth j = 1 -> root_slot j <> 0 ->
  tag_of (root_slot j) = t -> base_of (root_slot j) = b -> 1 <= t <= 6 ->
  cnt = 2 ^ (t - 1) ->
  let value := Z.land (src_get buff 0) (JudyMask 8) in
  scan_down (S (Z.to_nat cnt)) (mem j) b 8 value cnt 0 = (slot, test) ->
  test <> value -> load64 (mem j) (b + 16 * cnt - 8) = 0 ->
  judy_cell cfg (S f) buff kmax j
  = (b + 16 * cnt - 8 * (slot + 1),
     set_mem
       (store64
          (shift_ptrs (Z.to_nat slot)
             (store_le 8 (memcpy (mem j) b (b + 8) (slot * 8)) (b + slot * 8) value)
             (b + 16 * cnt) 0 slot)
          (b + 16 * cnt - 8 * (slot + 1)) 0)
       (set_frame_slot slot
          (set_frame_off 0 (set_frame_next (root_slot j) (push_level (set_level 0 j)))))).
Proof.
  intros Hd Hr Htag Hbase Ht Hcnt value Hscan Hne Hz.
  apply cell_lin; [exact Hr|].
  pose proof (cell_turn_lin cfg (S f) buff kmax (set_level 0 j) (root_slot j) t b cnt 0
                slot test Hd eq_refl Htag Hbase Ht Hcnt Hscan) as Hturn.
  cbv zeta in Hturn. fold value in Hturn. cbn [mem set_level] in Hturn.
  rewrite Hz in Hturn. cbn [Z.eqb] in Hturn.
  destruct (Z.eqb_spec test value) as [?|_]; [congruence|].
  apply Hturn. intros _. right. reflexivity.
Qed.

Lemma cell_root_promote cfg f buff kmax j t b cnt slot test next j0 :
  depth j = 1 -> root_slot j <> 0 ->
  tag_of (root_slot j) = t -> base_of (root_slot j) = b -> 1 <= t <= 5 ->
  cnt = 2 ^ (t - 1) ->
  let value := Z.land (src_get buff 0) (JudyMask 8) in
  scan_down (S (Z.to_nat cnt)) (mem j) b 8 value cnt 0 = (slot, test) ->
  test <> value -> load64 (mem j) (b + 16 * cnt - 8) <> 0 ->
  judy_promote cfg (root j) (slot + 1) value 8
    (set_frame_slot slot
       (set_frame_off 0 (set_frame_next (root_slot j) (push_level (set_level 0 j)))))
  = (next, j0) ->
  depth j0 = 1 ->
  judy_cell cfg (S f) buff kmax j = (next, j0).
Proof.
  intros Hd Hr Htag Hbase Ht Hcnt value Hscan Hne Hnz Hpro Hd0.
  apply cell_lin; [exact Hr|].
  pose proof (cell_turn_lin cfg (S f) buff kmax (set_level 0 j) (root_slot j) t b cnt 0
                slot test Hd eq_refl Htag Hbase ltac:(lia) Hcnt Hscan) as Hturn.
  cbv zeta in Hturn. fold value in Hturn. cbn [mem set_level root] in Hturn.
  destruct (Z.eqb_spec test value) as [?|_]; [congruence|].
  destruct (Z.eqb_spec (load64 (mem j) (b + 16 * cnt - 8)) 0) as [?|_]; [congruence|].
  rewrite Hpro in Hturn. unfold is_leaf_value in Hturn. rewrite Hd0 in Hturn.
  apply Hturn. intros ?. lia.
Qed.

Lemma slots_ok_intro p es : Forall entry_ok es -> Forall slot_ok (repeat free_slot p ++ es).
Proof.
  intros H. apply Forall_app. split.
  - rewrite List.Forall_forall. intros x Hx. apply repeat_spec in Hx. subst x.
    split; [apply free_slot_ok|cbn; lia].
  - rewrite List.Forall_forall in *. intros x Hx. apply entry_slot_ok, H, Hx.
Qed.

(** a key the node holds: its cell is returned, nothing is written *)
Lemma cell_present cfg a H0 t j buff kmax l1 l2 v0 :
  arena_fits a H0 -> 1 <= t ->
  node_in_arena a H0 t (l1 ++ (rev buff, v0) :: l2) j ->
  Forall entry_ok (l1 ++ (rev buff, v0) :: l2) ->
  Forall (fun e => be_val (rev buff) < kval e) l2 ->
  length buff = 8%nat -> bytes buff ->
  exists j',
    judy_cell cfg 64 buff kmax j = (entry_cell a H0 t (length l2), j') /\
    store_of j' = store_of j.
Proof.
  intros Hfit Ht1 (Hd & Hmax & Hseg & Hroot & Hreuse & Ht & Hn) Hok H2 Hl Hb.
  destruct (Z.eqb_spec t 0) as [?|_]; [lia|]. cbv zeta in Hn.
  destruct Hn as (Htag & Hbase & Hn1 & Hn2 & Hrep).
  destruct (node_base_facts a H0 t Hfit ltac:(lia)) as (Hc & Hb' & Hb0 & Hb8 & Hbt).
  cbv zeta in Hc, Hb', Hb0, Hb8, Hbt.
  set (cnt := 2 ^ (t - 1)) in *. set (b := a + H0 - 16 * (2 ^ t - 1)) in *.
  set (es := l1 ++ (rev buff, v0) :: l2) in *.
  set (p := (Z.to_nat cnt - length es)%nat) in *.
  assert (Hlen : Z.of_nat (length (repeat free_slot p ++ es)) = cnt).
  { rewrite List.length_app, repeat_length. unfold p. lia. }
  assert (Hes : Z.of_nat (length es) = Z.of_nat (length l1) + 1 + Z.of_nat (length l2)).
  { unfold es. rewrite List.length_app. cbn [length]. lia. }
  assert (Hws : repeat free_slot p ++ es
                = (repeat free_slot p ++ l1) ++ (rev buff, v0) :: l2).
  { unfold es. rewrite List.app_assoc. reflexivity. }
  assert (Hsok : Forall slot_ok (repeat free_slot p ++ es)) by (apply slots_ok_intro, Hok).
  destruct (src_get_int buff Hl Hb) as [Hval _].
  pose proof (scan_node_le (mem j) b (repeat free_slot p ++ l1) (rev buff, v0) l2
                (be_val (rev buff)) 0) as Hscan.
  rewrite <- Hws in Hscan. specialize (Hscan Hrep Hsok ltac:(unfold kval; cbn [fst]; lia) H2).
  cbv zeta in Hscan. rewrite Hlen in Hscan. unfold kval in Hscan at 1. cbn [fst] in Hscan.
  rewrite <- Hval in Hscan at 1 2.
  assert (Hr0 : root_slot j <> 0).
  { intros H0'. rewrite H0' in Htag. unfold tag_of in Htag.
    change (Z.land 0 7) with 0 in Htag. lia. }
  eexists. split.
  - change 64%nat with (S 63).
    rewrite (cell_root_found cfg 63 buff kmax j t b cnt _ Hd Hr0 Htag Hbase
               (conj Ht1 (proj2 Ht)) eq_refl Hscan).
    f_equal. unfold entry_cell. fold b. fold cnt.
    rewrite List.length_app, repeat_length. unfold p. lia.
  - rewrite store_set_frame_slot, store_set_frame_off, store_set_frame_next,
      store_push_level, store_set_level. reflexivity.
Qed.

Lemma store_parts j j' :
  store_of j' = store_of j ->
  root j' = root j /\ reuse j' = reuse j /\ seg j' = seg j /\ mem j' = mem j /\
  max j' = max j /\ depth j' = depth j.
Proof.
  unfold store_of. intros H. injection H as H1 H2 H3 H4 H5 H6 H7. repeat split; assumption.
Qed.

Lemma store_cursor slot r j :
  store_of (set_frame_slot slot
              (set_frame_off 0 (set_frame_next r (push_level (set_level 0 j)))))
  = store_of j.
Proof.
  rewrite store_set_frame_slot, store_set_frame_off, store_set_frame_next,
    store_push_level, store_set_level. reflexivity.
Qed.

(** what a node of type [t] that is in use gives *)
Lemma arena_open a H0 t es j :
  arena_fits a H0 -> 1 <= t -> node_in_arena a H0 t es j -> Forall entry_ok es ->
  let cnt := 2 ^ (t - 1) in
  let b := a + H0 - 16 * (2 ^ t - 1) in
  let p := (Z.to_nat cnt - length es)%nat in
  depth j = 1 /\ root_slot j <> 0 /\
  tag_of (root_slot j) = t /\ base_of (root_slot j) = b /\ 1 <= t <= 6 /\
  1 <= cnt <= 32 /\ b = a + H0 - 32 * cnt + 16 /\ 0 <= b /\ b mod 8 = 0 /\
  Z.of_nat p + Z.of_nat (length es) = cnt /\ (1 <= length es)%nat /\
  node_rep (mem j) b (repeat free_slot p ++ es) /\
  Forall slot_ok (repeat free_slot p ++ es) /\
  Z.of_nat (length (repeat free_slot p ++ es)) = cnt.
Proof.
  intros Hfit Ht1 (Hd & Hmax & Hseg & Hroot & Hreuse & Ht & Hn) Hok cnt b p.
  destruct (Z.eqb_spec t 0) as [?|_]; [lia|]. cbv zeta in Hn.
  destruct Hn as (Htag & Hbase & Hn1 & Hn2 & Hrep).
  destruct (node_base_facts a H0 t Hfit ltac:(lia)) as (Hc & Hb' & Hb0 & Hb8 & Hbt).
  cbv zeta in Hc, Hb', Hb0, Hb8, Hbt. fold cnt in Hc, Hb', Hn2, Hrep. fold b in Hb', Hb0, Hb8, Hbase, Hrep.
  fold p in Hrep.
  assert (Hr0 : root_slot j <> 0).
  { intros H0'. rewrite H0' in Htag. unfold tag_of in Htag.
    change (Z.land 0 7) with 0 in Htag. lia. }
  assert (Hp : Z.of_nat p + Z.of_nat (length es) = cnt) by (unfold p; lia).
  repeat match goal with |- _ /\ _ => split end; try assumption; try lia.
  - apply slots_ok_intro, Hok.
  - rewrite List.length_app, repeat_length. lia.
Qed.

(** a change of the memory of the node in use *)
Lemma node_set_mem a H0 t es es' j J M :
  arena_fits a H0 -> 1 <= t ->
  store_of J = store_of j -> node_in_arena a H0 t es j ->
  let cnt := 2 ^ (t - 1) in
  let b := a + H0 - 16 * (2 ^ t - 1) in
  (forall x, x < b \/ b + 16 * cnt <= x -> load8 M x = load8 (mem j) x) ->
  (1 <= length es')%nat -> Z.of_nat (length es') <= cnt ->
  node_rep M b (repeat free_slot (Z.to_nat cnt - length es') ++ es') ->
  node_in_arena a H0 t es' (set_mem M J).
Proof.
  intros Hfit Ht1 Hst (Hd & Hmax & Hseg & Hroot & Hreuse & Ht & Hn) cnt b Hframe Hn1 Hn2 Hrep.
  destruct (Z.eqb_spec t 0) as [?|_]; [lia|]. cbv zeta in Hn.
  destruct Hn as (Htag & Hbase & _ & _ & _).
  destruct (node_base_facts a H0 t Hfit ltac:(lia)) as (Hc & Hb' & Hb0 & Hb8 & Hbt).
  cbv zeta in Hc, Hb', Hb0, Hb8, Hbt. fold cnt in Hc, Hb'. fold b in Hb', Hb0, Hb8, Hbase.
  destruct (store_parts _ _ Hst) as (S1 & S2 & S3 & S4 & S5 & S6).
  assert (Hrs : root_slot (set_mem M J) = root_slot j).
  { unfold root_slot. cbn [mem root set_mem]. rewrite S1, Hroot.
    apply load64_same. intros x Hx. apply Hframe. lia. }
  unfold node_in_arena. rewrite Hrs.
  cbn [depth max seg root set_mem]. rewrite S1, S3, S5, S6.
  split; [exact Hd|]. split; [exact Hmax|]. split; [exact Hseg|]. split; [exact Hroot|].
  split.
  { intros t' Ht'. unfold reuse_get. cbn [reuse set_mem]. rewrite S2. apply Hreuse, Ht'. }
  split; [exact Ht|]. destruct (Z.eqb_spec t 0) as [?|_]; [lia|]. cbv zeta.
  split; [exact Htag|]. split; [exact Hbase|]. split; [exact Hn1|]. split; [exact Hn2|].
  exact Hrep.
Qed.

(** a key the node does not hold, while the node has a free slot: the
    key is put in its place, with an empty cell *)
Lemma cell_free cfg a H0 t j buff kmax l1 l2 :
  arena_fits a H0 -> 1 <= t ->
  node_in_arena a H0 t (l1 ++ l2) j ->
  Forall entry_ok (l1 ++ l2) ->
  Forall (fun e => kval e < be_val (rev buff)) l1 ->
  Forall (fun e => be_val (rev buff) < kval e) l2 ->
  Z.of_nat (length (l1 ++ l2)) < 2 ^ (t - 1) ->
  length buff = 8%nat -> bytes buff ->
  exists j',
    judy_cell cfg 64 buff kmax j = (entry_cell a H0 t (length l2), j') /\
    node_in_arena a H0 t (l1 ++ (rev buff, 0) :: l2) j'.
Proof.
  intros Hfit Ht1 Hin Hok H1 H2 Hfree Hl Hb.
  destruct (arena_open a H0 t (l1 ++ l2) j Hfit Ht1 Hin Hok)
    as (Hd & Hr0 & Htag & Hbase & Ht & Hc & Hb' & Hb0 & Hb8 & Hp & Hn1 & Hrep & Hsok & Hlen).
  pose proof Hin as (_ & Hmax & Hseg & Hroot & Hreuse & _ & _).
  pose proof Hfit as (Ha & H8 & HH & Htop).
  set (cnt := 2 ^ (t - 1)) in *. set (b := a + H0 - 16 * (2 ^ t - 1)) in *.
  set (p := (Z.to_nat cnt - length (l1 ++ l2))%nat) in *.
  set (K := rev buff) in *.
  assert (HlK : length K = 8%nat) by (unfold K; rewrite length_rev; exact Hl).
  assert (HbK : bytes K) by (apply bytes_rev; exact Hb).
  destruct (src_get_int buff Hl Hb) as [Hval _]. fold K in Hval.
  assert (Hes : Z.of_nat (length (l1 ++ l2)) = Z.of_nat (length l1) + Z.of_nat (length l2)).
  { rewrite List.length_app. lia. }
  destruct p as [|p'] eqn:Hp'; [lia|].
  (* the scan stops at the slot below the place of the key *)
  assert (Hscan : exists test,
            scan_down (S (Z.to_nat cnt)) (mem j) b 8 (be_val K) cnt 0
            = (Z.of_nat p' + Z.of_nat (length l1), test) /\
            (test = be_val K -> l1 = [] /\ K = fst free_slot)).
  { destruct (exists_last (l := repeat free_slot (S p') ++ l1)) as (A & e & HA).
    { cbn [repeat app]. discriminate. }
    assert (HlA : Z.of_nat (length A) = Z.of_nat p' + Z.of_nat (length l1)).
    { apply (f_equal (@length _)) in HA. rewrite !List.length_app, repeat_length in HA.
      cbn [length] in HA. lia. }
    assert (He : kval e <= be_val K /\ (kval e = be_val K -> l1 = [] /\ K = fst free_slot)).
    { destruct l1 as [|x l1] using rev_ind.
      - rewrite List.app_nil_r in HA. cbn [repeat] in HA. rewrite repeat_cons in HA.
        apply app_inj_tail in HA. destruct HA as [_ <-].
        pose proof (be_val_range K HbK) as R. change (kval free_slot) with 0.
        split; [lia|]. intros H0'. split; [reflexivity|].
        apply be_val_inj; [rewrite HlK; reflexivity|exact HbK|reflexivity|].
        rewrite <- H0'. reflexivity.
      - clear IHl1. rewrite List.app_assoc in HA. apply app_inj_tail in HA.
        destruct HA as [_ <-]. rewrite List.Forall_forall in H1.
        specialize (H1 x ltac:(apply in_or_app; right; left; reflexivity)).
        cbv beta in H1. split; [lia|]. intros ?. lia. }
    exists (kval e). split; [|apply He].
    pose proof (scan_node_le (mem j) b A e l2 (be_val K) 0) as Hs.
    assert (Hw : A ++ e :: l2 = repeat free_slot (S p') ++ l1 ++ l2).
    { change (e :: l2) with ([e] ++ l2). rewrite List.app_assoc, <- HA.
      rewrite <- List.app_assoc. reflexivity. }
    rewrite Hw in Hs. specialize (Hs Hrep Hsok (proj1 He) H2). cbv zeta in Hs.
    rewrite Hlen in Hs. rewrite Hs. rewrite HlA. reflexivity. }
  destruct Hscan as (test & Hscan & Htest).
  rewrite <- Hval in Hscan.
  assert (Hcell : load64 (mem j) (b + 16 * cnt - 8) = 0).
  { destruct (Hrep 0%nat ltac:(lia)) as [_ Hc0]. rewrite Hlen in Hc0.
    change (Z.of_nat 0) with 0 in Hc0.
    replace (b + 16 * cnt - 8) with (b + 16 * cnt - 8 * (0 + 1)) by lia.
    rewrite Hc0. reflexivity. }
  change 64%nat with (S 63).
  destruct (Z.eq_dec test (Z.land (src_get buff 0) (JudyMask 8))) as [Heq|Hne].
  - (* the key is zero, as is the key of the free slot *)
    subst test. destruct (Htest Hval) as [-> HK0].
    eexists. split.
    + rewrite (cell_root_found cfg 63 buff kmax j t b cnt _ Hd Hr0 Htag Hbase Ht eq_refl Hscan).
      f_equal. unfold entry_cell. fold b. fold cnt. cbn [length app] in *. lia.
    + apply (store_node_in_arena a H0 t _ j); [apply store_cursor|].
      unfold node_in_arena. split; [exact Hd|]. split; [exact Hmax|].
      split; [exact Hseg|]. split; [exact Hroot|]. split; [exact Hreuse|].
      split; [lia|]. destruct (Z.eqb_spec t 0) as [?|_]; [lia|]. cbv zeta.
      fold b. fold cnt. split; [exact Htag|]. split; [exact Hbase|].
      cbn [app length] in *. split; [lia|]. split; [lia|].
      replace (Z.to_nat cnt - S (length l2))%nat with p' by lia.
      assert (HKf : (K, 0) = free_slot).
      { unfold free_slot. rewrite HK0. reflexivity. }
      rewrite HKf.
      replace (repeat free_slot p' ++ free_slot :: l2)
        with (repeat free_slot (S p') ++ l2); [exact Hrep|].
      cbn [repeat]. rewrite repeat_cons, <- List.app_assoc. reflexivity.
  - (* the slots below move down *)
    pose proof (node_insert (mem j) b free_slot (repeat free_slot p' ++ l1) l2 K) as Hins.
    assert (Hw : free_slot :: (repeat free_slot p' ++ l1) ++ l2
                 = repeat free_slot (S p') ++ l1 ++ l2).
    { cbn [repeat app]. rewrite <- List.app_assoc. reflexivity. }
    rewrite Hw in Hins. specialize (Hins Hrep Hsok HlK HbK). cbv zeta in Hins.
    rewrite Hlen in Hins. rewrite List.length_app, repeat_length in Hins.
    rewrite Nat2Z.inj_add in Hins. rewrite <- Hval in Hins.
    destruct Hins as [Hrep' Hframe].
    eexists. split.
    + rewrite (cell_root_insert cfg 63 buff kmax j t b cnt _ _ Hd Hr0 Htag Hbase Ht eq_refl
                 Hscan Hne Hcell).
      f_equal. unfold entry_cell. fold b. fold cnt. lia.
    + set (M := store64 _ _ 0) in *.
      apply (node_set_mem a H0 t (l1 ++ l2) _ j); try assumption.
      * apply store_cursor.
      * rewrite List.length_app. cbn [length]. lia.
      * fold cnt. rewrite List.length_app. cbn [length]. lia.
      * fold cnt. fold b.
        replace (Z.to_nat cnt - length (l1 ++ (K, 0%Z) :: l2))%nat with p'
          by (rewrite List.length_app; cbn [length]; lia).
        rewrite <- List.app_assoc in Hrep'. exact Hrep'.
Qed.

(** a key the node does not hold, while the node is full and not of the
    largest type: the node is promoted *)
Lemma cell_promote cfg a H0 t j buff kmax l1 l2 :
  arena_fits a H0 -> 1 <= t <= 5 ->
  node_in_arena a H0 t (l1 ++ l2) j ->
  Forall entry_ok (l1 ++ l2) ->
  Forall (fun e => kval e < be_val (rev buff)) l1 ->
  Forall (fun e => be_val (rev buff) < kval e) l2 ->
  Z.of_nat (length (l1 ++ l2)) = 2 ^ (t - 1) ->
  length buff = 8%nat -> bytes buff ->
  exists j',
    judy_cell cfg 64 buff kmax j = (entry_cell a H0 (t + 1) (length l2), j') /\
    node_in_arena a H0 (t + 1) (l1 ++ (rev buff, 0) :: l2) j'.
Proof.
  intros Hfit Ht15 Hin Hok H1 H2 Hfull Hl Hb.
  destruct (arena_open a H0 t (l1 ++ l2) j Hfit ltac:(lia) Hin Hok)
    as (Hd & Hr0 & Htag & Hbase & Ht & Hc & Hb' & Hb0 & Hb8 & Hp & Hn1 & Hrep & Hsok & Hlen).
  pose proof Hin as (_ & Hmax & Hseg & Hroot & Hreuse & _ & _).
  pose proof Hfit as (Ha & H8 & HH & Htop).
  destruct (pow2_lin t Ht) as [_ Hpow].
  destruct (pow2_lin (t + 1) ltac:(lia)) as [Hc' Hpow'].
  replace (t + 1 - 1) with t in Hpow', Hc' by lia. rewrite Hpow in Hc'.
  set (cnt := 2 ^ (t - 1)) in *. set (b := a + H0 - 16 * (2 ^ t - 1)) in *.
  set (p := (Z.to_nat cnt - length (l1 ++ l2))%nat) in *.
  set (K := rev buff) in *.
  assert (HlK : length K = 8%nat) by (unfold K; rewrite length_rev; exact Hl).
  assert (HbK : bytes K) by (apply bytes_rev; exact Hb).
  destruct (src_get_int buff Hl Hb) as [Hval _]. fold K in Hval.
  assert (Hes : Z.of_nat (length (l1 ++ l2)) = Z.of_nat (length l1) + Z.of_nat (length l2)).
  { rewrite List.length_app. lia. }
  assert (Hp0 : p = 0%nat) by lia. rewrite Hp0 in *. cbn [repeat app] in Hrep, Hsok, Hlen.
  (* the scan stops below the place of the key *)
  assert (Hscan : exists test,
            scan_down (S (Z.to_nat cnt)) (mem j) b 8 (be_val K) cnt 0
            = (Z.of_nat (length l1) - 1, test) /\ test <> be_val K).
  { destruct l1 as [|x l1] using rev_ind.
    - cbn [app] in *.
      destruct (scan_node_none (mem j) b l2 (be_val K) 0 Hrep Hsok) as (test & Hs & Ht').
      { destruct l2; [cbn [length] in Hn1; lia|discriminate]. }
      { exact H2. }
      cbv zeta in Hs. rewrite Hlen in Hs.
      exists test. split; [exact Hs|lia].
    - clear IHl1. rewrite <- List.app_assoc in Hrep, Hsok, Hlen. cbn [app] in Hrep, Hsok, Hlen.
      rewrite List.Forall_forall in H1.
      specialize (H1 x ltac:(apply in_or_app; right; left; reflexivity)). cbv beta in H1.
      pose proof (scan_node_le (mem j) b l1 x l2 (be_val K) 0 Hrep Hsok ltac:(lia) H2) as Hs.
      cbv zeta in Hs. rewrite Hlen in Hs.
      exists (kval x). split; [|lia]. rewrite Hs. f_equal.
      rewrite List.length_app. cbn [length]. lia. }
  destruct Hscan as (test & Hscan & Htest).
  rewrite <- Hval in Hscan, Htest.
  assert (Hcell : load64 (mem j) (b + 16 * cnt - 8) <> 0).
  { destruct (Hrep 0%nat ltac:(lia)) as [_ Hc0]. rewrite Hlen in Hc0.
    change (Z.of_nat 0) with 0 in Hc0.
    replace (b + 16 * cnt - 8) with (b + 16 * cnt - 8 * (0 + 1)) by lia.
    rewrite Hc0. rewrite List.Forall_forall in Hok.
    destruct (Hok (nth 0 (l1 ++ l2) free_slot) ltac:(apply nth_In; lia)) as (_ & _ & Hv).
    lia. }
  set (J := set_frame_slot (Z.of_nat (length l1) - 1)
              (set_frame_off 0 (set_frame_next (root_slot j) (push_level (set_level 0 j))))).
  destruct (store_parts j J (store_cursor _ _ j)) as (S1 & S2 & S3 & S4 & S5 & S6).
  assert (Hnb : 0 <= b - 32 * cnt /\ (b - 32 * cnt) mod 8 = 0).
  { split; [lia|]. replace (b - 32 * cnt) with (b + (- 4 * cnt) * 8) by lia.
    rewrite Z.mod_add by lia. exact Hb8. }
  assert (Hlor : Z.lor (b - 32 * cnt) (t + 1) = b - 32 * cnt + (t + 1)).
  { apply lor_tag; lia. }
  destruct (promote_lin cfg J (root j) (root_slot j) t b cnt (Z.of_nat (length l1))
              (Z.land (src_get buff 0) (JudyMask 8)) a (H0 - 16 * (2 ^ t - 1)))
    as (j' & Hpro & Hmem & Hseg' & Hreuse' & Hd' & Hmax' & Hroot').
  { rewrite S4. reflexivity. }
  { exact Htag. }
  { exact Hbase. }
  { lia. }
  { reflexivity. }
  { lia. }
  { rewrite S3. exact Hseg. }
  { unfold b. lia. }
  { intros t' Ht'. unfold reuse_get. rewrite S2. apply Hreuse, Ht'. }
  { lia. }
  rewrite S4 in Hmem.
  pose proof (node_promote (mem j) (root j) b l1 l2 K (Z.lor (b - 32 * cnt) (t + 1))
                (reuse_get J t) Hrep Hsok HlK HbK) as Hnp.
  cbv zeta in Hnp. rewrite Hlen in Hnp. rewrite <- Hval in Hnp.
  specialize (Hnp ltac:(lia) ltac:(lia) ltac:(lia)).
  rewrite <- Hmem in Hnp. destruct Hnp as [Hrep' Hrs'].
  exists j'. split.
  - change 64%nat with (S 63).
    rewrite (cell_root_promote cfg 63 buff kmax j t b cnt (Z.of_nat (length l1) - 1) test
               (b - 8 * (Z.of_nat (length l1) + cnt)) j' Hd Hr0 Htag Hbase
               Ht15 eq_refl Hscan Htest Hcell).
    + f_equal. unfold entry_cell. replace (t + 1 - 1) with t by lia.
      rewrite Hpow', Hpow. fold cnt. fold b. lia.
    + fold J. replace (Z.of_nat (length l1) - 1 + 1) with (Z.of_nat (length l1)) by lia.
      exact Hpro.
    + rewrite Hd', S6. exact Hd.
  - unfold node_in_arena. rewrite Hd', Hmax', Hseg', Hroot', S1, S5, S6.
    split; [exact Hd|]. split; [exact Hmax|].
    split; [f_equal; f_equal; rewrite Hpow', Hpow; fold cnt; lia|].
    split; [exact Hroot|]. split.
    { intros t' Ht'. rewrite Hreuse'. destruct (Z.eqb_spec t' t); [lia|].
      unfold reuse_get. rewrite S2. apply Hreuse. lia. }
    split; [lia|]. destruct (Z.eqb_spec (t + 1) 0) as [?|_]; [lia|]. cbv zeta.
    replace (t + 1 - 1) with t by lia.
    assert (Hbn : a + H0 - 16 * (2 ^ (t + 1) - 1) = b - 32 * cnt).
    { rewrite Hpow', Hpow. fold cnt. unfold b. rewrite Hpow. fold cnt. lia. }
    rewrite Hbn.
    assert (Hrs : root_slot j' = Z.lor (b - 32 * cnt) (t + 1)).
    { unfold root_slot. rewrite Hroot', S1. exact Hrs'. }
    rewrite Hrs.
    destruct (tagged_ref (b - 32 * cnt) (t + 1) ltac:(lia) ltac:(lia) ltac:(lia))
      as [Htg Hbs].
    split; [exact Htg|]. split; [exact Hbs|].
    rewrite List.length_app. cbn [length]. split; [lia|]. split; [rewrite Hpow; fold cnt; lia|].
    replace (Z.to_nat (2 ^ t) - (length l1 + S (length l2)))%nat with (Z.to_nat (cnt - 1))
      by (rewrite Hpow; fold cnt; lia).
    exact Hrep'.
Qed.

(** the caller's store into the cell [judy_cell] returned *)
Lemma store_entry a H0 t l1 l2 K x v j :
  arena_fits a H0 -> 1 <= t ->
  node_in_arena a H0 t (l1 ++ (K, x) :: l2) j -> 0 <= v < 2 ^ 64 ->
  node_in_arena a H0 t (l1 ++ (K, v) :: l2)
    (store_cell (entry_cell a H0 t (length l2)) v j).
Proof.
  intros Hfit Ht1 Hin Hv.
  pose proof Hin as (Hd & Hmax & Hseg & Hroot & Hreuse & Ht & Hn).
  destruct (Z.eqb_spec t 0) as [?|_]; [lia|]. cbv zeta in Hn.
  destruct Hn as (Htag & Hbase & Hn1 & Hn2 & Hrep).
  destruct (node_base_facts a H0 t Hfit ltac:(lia)) as (Hc & Hb' & Hb0 & Hb8 & Hbt).
  cbv zeta in Hc, Hb', Hb0, Hb8, Hbt.
  set (cnt := 2 ^ (t - 1)) in *. set (b := a + H0 - 16 * (2 ^ t - 1)) in *.
  assert (Hlen : forall y, length (l1 ++ (K, y) :: l2) = (length l1 + S (length l2))%nat).
  { intros y. rewrite List.length_app. reflexivity. }
  rewrite Hlen in Hn1, Hn2, Hrep.
  set (p := (Z.to_nat cnt - (length l1 + S (length l2)))%nat) in *.
  unfold store_cell.
  apply (node_set_mem a H0 t (l1 ++ (K, x) :: l2) _ j j); try assumption.
  - reflexivity.
  - fold cnt. fold b. intros y Hy. apply load8_store64_ne. unfold entry_cell.
    fold b. fold cnt. lia.
  - rewrite Hlen. lia.
  - fold cnt. rewrite Hlen. lia.
  - fold cnt. fold b. rewrite Hlen. fold p.
    rewrite List.app_assoc in Hrep |- *.
    pose proof (node_set_cell (mem j) b (repeat free_slot p ++ l1) l2 K x v Hrep Hv) as Hs.
    replace (b + 16 * Z.of_nat (length ((repeat free_slot p ++ l1) ++ (K, x) :: l2))
             - 8 * (Z.of_nat (length (repeat free_slot p ++ l1)) + 1))
      with (entry_cell a H0 t (length l2)) in Hs; [exact Hs|].
    unfold entry_cell. fold b. fold cnt.
    rewrite !List.length_app, repeat_length. cbn [length]. unfold p. lia.
Qed.

Lemma sorted_parts (l1 l2 : list (list Z * Z)) e :
  StronglySorted (fun x y => kval x < kval y) (l1 ++ e :: l2) ->
  StronglySorted (fun x y => kval x < kval y) l1 /\
  StronglySorted (fun x y => kval x < kval y) l2.
Proof.
  intros H. apply sorted_app in H. destruct H as (H1 & H2 & _).
  apply StronglySorted_inv in H2. split; [exact H1|apply H2].
Qed.

(** one insertion: [judy_cell] and the store of the value put the pair
    into the entries, as long as they fit one node *)
Lemma insert_step cfg a H0 t es j buff v :
  arena_fits a H0 -> one_node a H0 t es j ->
  length buff = 8%nat -> bytes buff -> 0 < v < 2 ^ 64 ->
  (length (put_entry (rev buff) v es) <= 32)%nat ->
  exists t', one_node a H0 t' (put_entry (rev buff) v es) (insert cfg buff v j).
Proof.
  intros Hfit [Hin Hes] Hl Hb Hv Hfit32.
  set (K := rev buff) in *.
  assert (HlK : length K = 8%nat) by (unfold K; rewrite length_rev; exact Hl).
  assert (HbK : bytes K) by (apply bytes_rev; exact Hb).
  destruct (entries_find K es Hes HlK HbK) as (l1 & l2 & H1 & H2 & Hcase).
  pose proof (entries_num es Hes) as Hnum. destruct Hes as [Hok Hsorted].
  assert (Hput : put_entry K v es = l1 ++ (K, v) :: l2 /\
                 Forall entry_ok l1 /\ Forall entry_ok l2 /\
                 StronglySorted (fun x y => kval x < kval y) l1 /\
                 StronglySorted (fun x y => kval x < kval y) l2).
  { destruct Hcase as [->|[v0 ->]].
    - apply Forall_app in Hok. destruct Hok as [Hok1 Hok2].
      apply sorted_app in Hnum. destruct Hnum as (Hs1 & Hs2 & _).
      destruct (put_entry_at K v l1 l2 HlK HbK Hok1 Hok2 H1 H2) as [E _].
      repeat split; assumption.
    - apply Forall_app in Hok. destruct Hok as [Hok1 Hok2].
      apply Forall_inv_tail in Hok2.
      destruct (sorted_parts l1 l2 _ Hnum) as [Hs1 Hs2].
      destruct (put_entry_at K v l1 l2 HlK HbK Hok1 Hok2 H1 H2) as [_ E].
      repeat split; try assumption. apply E. }
  destruct Hput as (Hput & Hok1 & Hok2 & Hs1 & Hs2).
  rewrite Hput in *.
  assert (Hes' : entries_ok (l1 ++ (K, v) :: l2))
    by (apply entries_put; assumption).
  assert (Hlen' : length (l1 ++ (K, v) :: l2) = (length l1 + S (length l2))%nat).
  { rewrite List.length_app. reflexivity. }
  unfold insert. rewrite Hl. change (Z.of_nat 8) with 8.
  destruct Hcase as [->|[v0 ->]].
  - (* a new key *)
    assert (Hlen : length (l1 ++ l2) = (length l1 + length l2)%nat)
      by apply List.length_app.
    pose proof Hin as (_ & _ & _ & _ & _ & Ht & Hn).
    destruct (Z.eqb_spec t 0) as [Ht0|Ht0].
    + destruct Hn as [_ Hnil]. apply app_eq_nil in Hnil. destruct Hnil as [-> ->].
      subst t.
      destruct (cell_first cfg a H0 j buff 8 Hfit Hin Hl Hb) as (j' & Hc & Hin').
      rewrite Hc. exists 1. split; [|exact Hes'].
      replace (a + H0 - 8) with (entry_cell a H0 1 (@length (list Z * Z) []))
        by (unfold entry_cell; cbn [length]; change (2 ^ 1 - 1) with 1;
            change (2 ^ (1 - 1)) with 1; lia).
      apply (store_entry a H0 1 [] [] K 0 v j' Hfit ltac:(lia) Hin'). lia.
    + cbv zeta in Hn. destruct Hn as (_ & _ & _ & Hn2 & _).
      destruct (Z.eq_dec (Z.of_nat (length (l1 ++ l2))) (2 ^ (t - 1))) as [Hfull|Hfree].
      * assert (Ht5 : 1 <= t <= 5).
        { destruct (Z.eq_dec t 6) as [->|?]; [|lia]. cbn in Hfull. lia. }
        destruct (cell_promote cfg a H0 t j buff 8 l1 l2 Hfit Ht5 Hin Hok H1 H2 Hfull Hl Hb)
          as (j' & Hc & Hin').
        rewrite Hc. exists (t + 1). split; [|exact Hes'].
        apply (store_entry a H0 (t + 1) l1 l2 K 0 v j' Hfit ltac:(lia) Hin'). lia.
      * destruct (cell_free cfg a H0 t j buff 8 l1 l2 Hfit ltac:(lia) Hin Hok H1 H2
                    ltac:(lia) Hl Hb) as (j' & Hc & Hin').
        rewrite Hc. exists t. split; [|exact Hes'].
        apply (store_entry a H0 t l1 l2 K 0 v j' Hfit ltac:(lia) Hin'). lia.
  - (* a key of the node *)
    pose proof Hin as (_ & _ & _ & _ & _ & Ht & Hn).
    destruct (Z.eqb_spec t 0) as [Ht0|Ht0].
    { destruct Hn as [_ Hnil]. apply app_eq_nil in Hnil. destruct Hnil as [_ Hnil].
      discriminate. }
    destruct (cell_present cfg a H0 t j buff 8 l1 l2 v0 Hfit ltac:(lia) Hin Hok H2 Hl Hb)
      as (j' & Hc & Hst).
    rewrite Hc. exists t. split; [|exact Hes'].
    apply (store_entry a H0 t l1 l2 K v0 v j' Hfit ltac:(lia)); [|lia].
    apply (store_node_in_arena a H0 t _ j j' Hst Hin).
Qed.

(** the trie of such an array is well formed and holds the entries *)
Lemma one_node_view N cfg a H0 t es j :
  arena_fits a H0 -> one_node a H0 t es j -> (1 <= N)%nat ->
  0 < JUDY_span_bytes cfg -> JUDY_span_bytes cfg + 16 < 2 ^ 32 ->
  wf_trie N cfg j = true /\ contents N cfg j = es.
Proof.
  intros Hfit [Hin Hes] HN Hsp Hsp2.
  destruct N as [|k]; [lia|].
  pose proof Hin as (Hd & Hmax & Hseg & Hroot & Hreuse & Ht & Hn).
  unfold wf_trie, contents, all_keys. rewrite Hd. cbn [Z.leb Z.compare andb].
  destruct (Z.eqb_spec t 0) as [Ht0|Ht0].
  - destruct Hn as [Hr0 ->]. rewrite Hr0. split; [reflexivity|].
    rewrite keys_root_empty. reflexivity.
  - destruct (arena_open a H0 t es j Hfit ltac:(lia) Hin (proj1 Hes))
      as (_ & Hr0 & Htag & Hbase & Ht' & Hc & Hb' & Hb0 & Hb8 & Hp & Hn1 & Hrep & Hsok & Hlen).
    destruct (lin_leaf_node k cfg (view j) (root_slot j) t
                (a + H0 - 16 * (2 ^ t - 1)) (Z.to_nat (2 ^ (t - 1)) - length es) es)
      as (Hwf & _ & Hcont); try assumption; try lia.
    { destruct es; [cbn [length] in Hn1; lia|discriminate]. }
    rewrite Hwf, orb_true_r. split; [reflexivity|exact Hcont].
Qed.

(** a freshly opened integer array of depth 1 *)
Lemma open_int a h m kmax j :
  judy_open (a :: h) m kmax 1 = Some j -> 0 <= a -> a + JUDY_seg <= 2 ^ 64 ->
  exists H0, arena_fits a H0 /\ one_node a H0 0 [] j /\ depth j = 1.
Proof.
  intros Hopen Ha Htop. unfold JUDY_seg in Htop.
  unfold judy_open in Hopen. change (negb (1 =? 0)) with true in Hopen. cbv iota in Hopen.
  change (u32 (JUDY_key_size * 1)) with 8 in Hopen.
  change (u32 (sizeof_Judy + 8 * sizeof_JudyStack)) with 240 in Hopen.
  change (Z.land 240 (JUDY_cache_line - 1)) with 0 in Hopen.
  cbn [Z.eqb negb] in Hopen. change (JUDY_cache_line - 1) with 7 in Hopen.
  rewrite land7 in Hopen.
  pose proof (Z.mod_pos_bound a 8 ltac:(lia)) as Hr8.
  unfold JUDY_seg in Hopen.
  rewrite (u32_small (65536 - a mod 8)) in Hopen by lia.
  rewrite (u32_small (65536 - a mod 8 - 240)) in Hopen by lia.
  set (nx := 65536 - a mod 8 - 240) in Hopen.
  set (n240 := Z.to_nat 240) in Hopen.
  assert (Hn240 : Z.of_nat n240 = 240) by reflexivity. clearbody n240.
  injection Hopen as Hj. exists nx.
  assert (H8 : (a + nx) mod 8 = 0).
  { pose proof (Z.div_mod a 8 ltac:(lia)) as Hdm.
    replace (a + nx) with ((a / 8 + 8162) * 8) by (unfold nx; lia).
    apply Z.mod_mul. lia. }
  split; [|split].
  - unfold arena_fits. unfold nx in *. repeat split; lia.
  - split; [|split; constructor].
    unfold node_in_arena. rewrite <- Hj. cbn [depth max seg root].
    change (2 ^ 0 - 1) with 0. rewrite Z.mul_0_r, Z.sub_0_r.
    split; [reflexivity|]. split; [lia|]. split; [reflexivity|]. split; [reflexivity|].
    split.
    { intros t' _. unfold reuse_get. cbn [reuse]. rewrite lookup_empty. reflexivity. }
    split; [lia|]. cbn [Z.eqb]. split; [|reflexivity].
    unfold root_slot. cbn [mem root]. apply load64_zero. intros i Hi.
    rewrite load8_memset0.
    destruct (Z.leb_spec (a + nx) i); [|lia].
    destruct (Z.ltb_spec i (a + nx + Z.of_nat n240)); [reflexivity|lia].
  - rewrite <- Hj. reflexivity.
Qed.

Lemma put_entry_length k v l :
  (length l <= length (put_entry k v l))%nat.
Proof.
  induction l as [|e l IH]; cbn [put_entry length]; [lia|].
  destruct (lex_lt k (fst e)); [cbn [length]; lia|].
  destruct (lex_lt (fst e) k); cbn [length]; lia.
Qed.

Lemma put_all_length (f : list Z -> list Z) kvs : forall l,
  (length l <= length (fold_left (fun l kv => put_entry (f (fst kv)) (snd kv) l) kvs l))%nat.
Proof.
  induction kvs as [|kv kvs IH]; intros l; cbn [fold_left]; [lia|].
  etransitivity; [apply (put_entry_length (f (fst kv)) (snd kv) l)|apply IH].
Qed.

(** the insertions of a list of pairs, as long as the keys fit one node *)
Lemma insert_all_spec cfg a H0 (f : list Z -> list Z) kvs : forall t es j,
  arena_fits a H0 -> one_node a H0 t es j ->
  (forall buff, length buff = 8%nat -> f buff = rev buff) ->
  Forall (fun kv => length (fst kv) = 8%nat /\ bytes (fst kv) /\ 0 < snd kv < 2 ^ 64) kvs ->
  (length (fold_left (fun l kv => put_entry (f (fst kv)) (snd kv) l) kvs es) <= 32)%nat ->
  exists t',
    one_node a H0 t'
      (fold_left (fun l kv => put_entry (f (fst kv)) (snd kv) l) kvs es)
      (insert_all cfg kvs j).
Proof.
  induction kvs as [|kv kvs IH]; intros t es j Hfit Hone Hf Hkvs Hlen.
  - exists t. exact Hone.
  - cbn [fold_left] in Hlen |- *. unfold insert_all. cbn [fold_left].
    pose proof (Forall_inv Hkvs) as (Hl & Hb & Hv). apply Forall_inv_tail in Hkvs.
    rewrite (Hf _ Hl) in Hlen |- *.
    destruct (insert_step cfg a H0 t es j (fst kv) (snd kv) Hfit Hone Hl Hb Hv)
      as (t1 & Hone1).
    { etransitivity; [|exact Hlen]. apply put_all_length. }
    apply (IH t1 _ _ Hfit Hone1 Hf Hkvs Hlen).
Qed.

Lemma one_node_depth a H0 t es j :
  one_node a H0 t es j -> depth j = 1.
Proof. intros [(Hd & _) _]. exact Hd. Qed.

(** X18: an integer array of depth 1 is a sorted map while its keys fit
    one linear node.  Starting from [judy_open] with depth 1, a list of
    pairs is stored, each with [judy_cell] followed by the store of the
    value into the cell returned; the keys are 8-byte integers, the
    values are not zero, and the pairs have at most 32 different keys.
    Then the trie is well formed, its keys with the values of their cells
    are, in key order, the association list in which each pair in turn was
    put at the place of its key, replacing the value of a key already
    there; and [judy_slot] finds for every key of that list the cell that
    holds its value.  On the way the root node is filled from its free
    slots and promoted from one linear type to the next when it is full. *)
Theorem int_inserts_build_sorted_map N cfg fuel a h m kmax kvs j :
  0 < JUDY_span_bytes cfg < 2 ^ 16 ->
  judy_open (a :: h) m kmax 1 = Some j ->
  0 <= a -> a + JUDY_seg <= 2 ^ 64 ->
  Forall (fun kv => length (fst kv) = 8%nat /\ bytes (fst kv) /\ 0 < snd kv < 2 ^ 64) kvs ->
  let model := fold_left (fun l kv => put_entry (key_of j (fst kv)) (snd kv) l) kvs [] in
  (length model <= 32)%nat ->
  (1 <= N)%nat -> (N + Z.to_nat (JUDY_span_bytes cfg) <= fuel)%nat ->
  let j' := insert_all cfg kvs j in
  wf_trie N cfg j' = true /\
  contents N cfg j' = model /\
  keys_ascending (List.map fst model) /\
  forall buff v, length buff = 8%nat -> bytes buff ->
    In (key_of j buff, v) model ->
    fst (judy_slot cfg fuel buff 8 j') <> 0 /\
    load64 (mem j') (fst (judy_slot cfg fuel buff 8 j')) = v.
Proof.
  intros Hsp Hopen Ha Htop Hkvs model Hlen HN Hfuel j'.
  destruct (open_int a h m kmax j Hopen Ha Htop) as (H0 & Hfit & Hone & Hd).
  destruct (insert_all_spec cfg a H0 (key_of j) kvs 0 [] j Hfit Hone
              ltac:(intros buff Hl; apply key_of_int; assumption) Hkvs Hlen)
    as (t' & Hone').
  fold model in Hone'. fold j' in Hone'.
  destruct (one_node_view N cfg a H0 t' model j' Hfit Hone' HN ltac:(lia) ltac:(lia))
    as [Hwf Hcont].
  split; [exact Hwf|]. split; [exact Hcont|]. split.
  { apply sorted_map_fst. apply Hone'. }
  intros buff v Hl Hb Hin.
  rewrite <- Hcont in Hin. unfold contents in Hin. apply in_map_iff in Hin.
  destruct Hin as ([K c] & Heq & Hin). cbn [fst snd] in Heq.
  injection Heq as HK Hv. subst K.
  pose proof (one_node_depth a H0 t' model j' Hone') as Hd'.
  assert (Hkey : key_of j buff = key_from (view j') buff 8 0).
  { transitivity (key_of j' buff); [rewrite !key_of_int by assumption; reflexivity|].
    rewrite <- key_from_root. rewrite Hl. reflexivity. }
  destruct (judy_slot_spec N cfg fuel j' buff 8 (key_of j buff) c Hwf Hin Hkey Hb
              ltac:(intros; lia) Hfuel) as (j1 & n & Hs & Hc & _).
  rewrite Hs. cbn [fst]. split; [exact Hc|exact Hv].
Qed.

Lemma int_inserts_build_sorted_map_witness :
  let kvs := [([2; 0; 0; 0; 0; 0; 0; 0], 20); ([1; 0; 0; 0; 0; 0; 0; 0], 10);
              ([2; 0; 0; 0; 0; 0; 0; 0], 30)] in
  let j := opened [65536] 0 1 in
  let model := fold_left (fun l kv => put_entry (key_of j (fst kv)) (snd kv) l) kvs [] in
  (judy_open [65536] ∅ 0 1 = Some j /\
   Forall (fun kv => length (fst kv) = 8%nat /\ bytes (fst kv) /\ 0 < snd kv < 2 ^ 64) kvs /\
   (length model <= 32)%nat) /\
  let j' := insert_all cfg_lp64 kvs j in
  wf_trie 1 cfg_lp64 j' = true /\
  contents 1 cfg_lp64 j' = model /\
  keys_ascending (List.map fst model) /\
  forall buff v, length buff = 8%nat -> bytes buff ->
    In (key_of j buff, v) model ->
    fst (judy_slot cfg_lp64 64 buff 8 j') <> 0 /\
    load64 (mem j') (fst (judy_slot cfg_lp64 64 buff 8 j')) = v.
Proof.
  intros kvs j model.
  assert (Ho : judy_open [65536] ∅ 0 1 = Some j) by reflexivity.
  assert (Hk : Forall (fun kv => length (fst kv) = 8%nat /\ bytes (fst kv)
                                 /\ 0 < snd kv < 2 ^ 64) kvs).
  { repeat constructor; cbn; lia. }
  assert (Hl : (length model <= 32)%nat) by (vm_compute; lia).
  split; [exact (conj Ho (conj Hk Hl))|].
  assert (H1 : 0 < JUDY_span_bytes cfg_lp64 < 2 ^ 16) by (cbn; lia).
  assert (H2 : 0 <= 65536) by lia.
  assert (H3 : 65536 + JUDY_seg <= 2 ^ 64) by (vm_compute; discriminate).
  assert (H4 : (1 <= 1)%nat) by lia.
  assert (H5 : (1 + Z.to_nat (JUDY_span_bytes cfg_lp64) <= 64)%nat) by (vm_compute; lia).
  exact (int_inserts_build_sorted_map 1 cfg_lp64 64 65536 [] ∅ 0 kvs j H1 Ho H2 H3 Hk Hl H4 H5).
Defined.

(** ** The deletion from a linear node *)

(** [del_shift]: the keys and cells of the slots [0 .. s - 1] move up by
    one slot, nothing else changes *)
Lemma del_shift_spec n : forall m base node s,
  0 <= s -> (Z.to_nat s <= n)%nat ->
  base + 8 * (s + 1) <= node - 8 * (s + 1) ->
  (forall i, 0 <= i < s -> 0 <= load64 m (node - 8 * (i + 1)) < 2 ^ 64) ->
  (forall i, 0 <= i < s -> bytes (load_bytes 8 m (base + 8 * i))) ->
  let m' := del_shift n m base node 8 s in
  (forall i, 1 <= i <= s ->
     load64 m' (node - 8 * (i + 1)) = load64 m (node - 8 * i) /\
     load_bytes 8 m' (base + 8 * i) = load_bytes 8 m (base + 8 * (i - 1))) /\
  (forall x, x < base + 8 \/ base + 8 * (s + 1) <= x ->
             x < node - 8 * (s + 1) \/ node - 8 <= x ->
     load8 m' x = load8 m x).
Proof.
  induction n as [|n IH]; intros m base node s Hs Hn Hsep Hc Hk.
  - cbn [del_shift]. split; [intros i Hi; lia|reflexivity].
  - cbn [del_shift]. destruct (Z.eqb_spec s 0) as [->|Hs0].
    { split; [intros i Hi; lia|reflexivity]. }
    set (m1 := store64 m (node - 8 * (s + 1)) (load64 m (node - 8 * s))).
    set (m2 := memcpy m1 (base + s * 8) (base + (s - 1) * 8) 8).
    assert (F2 : forall x, (x < base + s * 8 \/ base + s * 8 + 8 <= x) ->
                           (x < node - 8 * (s + 1) \/ node - 8 * s <= x) ->
                   load8 m2 x = load8 m x).
    { intros x H1 H2. unfold m2. rewrite load8_memcpy_out by lia.
      unfold m1. apply load8_store64_ne. lia. }
    assert (Hc2 : forall i, 0 <= i < s - 1 ->
              0 <= load64 m2 (node - 8 * (i + 1)) < 2 ^ 64).
    { intros i Hi. rewrite (load64_same m m2) by (intros x Hx; apply F2; lia).
      apply Hc. lia. }
    assert (Hk2 : forall i, 0 <= i < s - 1 -> bytes (load_bytes 8 m2 (base + 8 * i))).
    { intros i Hi.
      rewrite (load_bytes_same 8 m m2)
        by (intros x Hx; change (Z.of_nat 8) with 8 in Hx; apply F2; lia).
      apply Hk. lia. }
    destruct (IH m2 base node (s - 1) ltac:(lia) ltac:(lia) ltac:(lia) Hc2 Hk2)
      as [H1 H2].
    split.
    + intros i Hi. destruct (Z.eq_dec i s) as [->|Hne].
      * split.
        -- transitivity (load64 m1 (node - 8 * (s + 1))).
           ++ apply load64_same. intros x Hx. rewrite H2 by lia.
              unfold m2. apply load8_memcpy_out. lia.
           ++ unfold m1. apply load64_store64.
              replace (node - 8 * s) with (node - 8 * ((s - 1) + 1)) by lia.
              apply Hc. lia.
        -- transitivity (load_bytes 8 m2 (base + 8 * s)).
           ++ apply load_bytes_same. intros x Hx. change (Z.of_nat 8) with 8 in Hx.
              apply H2; lia.
           ++ unfold m2. apply load_bytes8_memcpy_in; [lia|lia| |].
              ** replace (base + (s - 1) * 8 + (base + 8 * s - (base + s * 8)))
                   with (base + 8 * (s - 1)) by lia.
                 unfold m1. apply load_bytes8_store64_ne. lia.
              ** apply Hk. lia.
      * destruct (H1 i ltac:(lia)) as [E1 E2]. split.
        -- rewrite E1. apply load64_same. intros x Hx. apply F2; lia.
        -- rewrite E2. apply load_bytes_same. intros x Hx.
           change (Z.of_nat 8) with 8 in Hx. apply F2; lia.
    + intros x Hx1 Hx2. rewrite H2 by lia. apply F2; lia.
Qed.

Lemma nth_deleted {A : Type} (l1 l2 : list A) x0 e d i :
  nth i (x0 :: l1 ++ l2) d
  = if (i =? 0)%nat then x0
    else if (i <=? length l1)%nat then nth (i - 1) (l1 ++ e :: l2) d
    else nth i (l1 ++ e :: l2) d.
Proof.
  destruct i as [|i]; [reflexivity|]. cbn [Nat.eqb nth].
  replace (S i - 1)%nat with i by lia.
  destruct (Nat.leb_spec (S i) (length l1)) as [Hle|Hgt].
  - rewrite !app_nth1 by lia. reflexivity.
  - rewrite !app_nth2 by lia.
    replace (S i - length l1)%nat with (S (i - length l1)) by lia. reflexivity.
Qed.

(** the deletion of the slot [length A] of a node: the slots below move
    up, slot 0 becomes free *)
Lemma node_delete m b A e B fuel :
  node_rep m b (A ++ e :: B) -> Forall slot_ok (A ++ e :: B) ->
  (length A <= fuel)%nat ->
  let s := Z.of_nat (length A) in
  let node := b + 16 * Z.of_nat (length (A ++ e :: B)) in
  let m' := memset0 8 (store64 (del_shift fuel m b node 8 s) (node - 8) 0) b in
  node_rep m' b (free_slot :: A ++ B) /\
  (forall x, x < b \/ node <= x -> load8 m' x = load8 m x).
Proof.
  intros Hrep Hok Hfuel s node m'.
  set (ws := A ++ e :: B) in *.
  set (cnt := Z.of_nat (length ws)) in *.
  assert (Hcnt : cnt = s + 1 + Z.of_nat (length B)).
  { unfold cnt, ws, s. rewrite List.length_app. cbn [length]. lia. }
  assert (Hnode : node = b + 16 * cnt) by reflexivity.
  assert (Hlen' : Z.of_nat (length (free_slot :: A ++ B)) = cnt).
  { cbn [length]. rewrite List.length_app. lia. }
  assert (Hkey : forall i, (i < length ws)%nat ->
            load_bytes 8 m (b + 8 * Z.of_nat i) = rev (fst (nth i ws free_slot))).
  { intros i Hi. apply Hrep, Hi. }
  assert (Hcell : forall i, (i < length ws)%nat ->
            load64 m (node - 8 * (Z.of_nat i + 1)) = snd (nth i ws free_slot)).
  { intros i Hi. apply Hrep, Hi. }
  destruct (del_shift_spec fuel m b node s ltac:(lia) ltac:(lia)) as [D1 D2].
  { lia. }
  { intros i Hi. replace i with (Z.of_nat (Z.to_nat i)) by lia.
    rewrite Hcell by lia. apply (slot_ok_nth ws _ Hok). }
  { intros i Hi. replace i with (Z.of_nat (Z.to_nat i)) by lia.
    rewrite Hkey by lia. apply bytes_rev. apply (slot_ok_nth ws _ Hok). }
  set (m1 := del_shift fuel m b node 8 s) in *.
  set (m2 := store64 m1 (node - 8) 0).
  assert (F3 : forall x, x < b \/ b + 8 <= x -> load8 m' x = load8 m2 x).
  { intros x Hx. unfold m'. apply load8_memset0_out. lia. }
  assert (F2 : forall x, x < node - 8 \/ node <= x -> load8 m2 x = load8 m1 x).
  { intros x Hx. unfold m2. apply load8_store64_ne. lia. }
  split.
  2:{ intros x Hx. rewrite F3, F2 by lia.
      apply D2; lia. }
  intros i Hi. rewrite Hlen'. fold node.
  rewrite (nth_deleted A B free_slot e free_slot i). fold ws.
  assert (Hi' : Z.of_nat i < cnt) by lia.
  destruct (Nat.eqb_spec i 0) as [->|Hi0].
  { split.
    - change (Z.of_nat 0) with 0. rewrite Z.mul_0_r, Z.add_0_r.
      unfold m'. apply load_bytes8_memset0_in; lia.
    - change (Z.of_nat 0) with 0. replace (node - 8 * (0 + 1)) with (node - 8) by lia.
      rewrite (load64_same m2 m') by (intros x Hx; apply F3; unfold node; fold cnt; lia).
      unfold m2. change (snd free_slot) with 0. apply load64_store64. lia. }
  destruct (Nat.leb_spec i (length A)) as [Hle|Hgt].
  - destruct (D1 (Z.of_nat i) ltac:(lia)) as [E1 E2]. split.
    + rewrite (load_bytes_same 8 m1 m').
      2:{ intros x Hx. change (Z.of_nat 8) with 8 in Hx.
          rewrite F3, F2 by lia. reflexivity. }
      rewrite E2. replace (Z.of_nat i - 1) with (Z.of_nat (i - 1)) by lia.
      apply Hkey. lia.
    + rewrite (load64_same m1 m').
      2:{ intros x Hx. rewrite F3, F2 by lia. reflexivity. }
      rewrite E1. replace (node - 8 * Z.of_nat i) with (node - 8 * (Z.of_nat (i - 1) + 1)) by lia.
      apply Hcell. lia.
  - split.
    + rewrite (load_bytes_same 8 m m').
      2:{ intros x Hx. change (Z.of_nat 8) with 8 in Hx.
          rewrite F3, F2 by lia.
          apply D2; lia. }
      apply Hkey. lia.
    + rewrite (load64_same m m').
      2:{ intros x Hx. rewrite F3, F2 by lia.
          apply D2; lia. }
      apply Hcell. lia.
Qed.

(** [judy_slot] on an integer array of depth 1 whose root is a linear
    node that holds the key *)
Lemma slot_root_found cfg f buff kmax j t b cnt slot :
  depth j = 1 -> root_slot j <> 0 ->
  tag_of (root_slot j) = t -> base_of (root_slot j) = b -> 1 <= t <= 6 ->
  cnt = 2 ^ (t - 1) ->
  let value := Z.land (src_get buff 0) (JudyMask 8) in
  scan_down (S (Z.to_nat cnt)) (mem j) b 8 value cnt 0 = (slot, value) ->
  judy_slot cfg (S f) buff kmax j
  = (b + 16 * cnt - 8 * (slot + 1),
     set_frame_slot slot
       (set_frame_off 0 (set_frame_next (root_slot j) (push_level (set_level 0 j))))).
Proof.
  intros Hd Hr Htag Hbase Ht Hcnt value Hscan.
  unfold judy_slot. fold (root_slot j). cbn [judy_slot_loop w_next].
  destruct (Z.eqb_spec (root_slot j) 0) as [?|_]; [congruence|].
  unfold judy_slot_turn. cbn [w_next w_off w_depth w_test].
  set (j0 := set_level 0 j).
  assert (Hm0 : mem (set_frame_off 0 (set_frame_next (root_slot j) (push_level j0))) = mem j).
  { unfold push_level. destruct (level j0 <? max j0); reflexivity. }
  assert (Hd0 : depth (set_frame_off 0 (set_frame_next (root_slot j) (push_level j0))) = 1).
  { unfold push_level. destruct (level j0 <? max j0); exact Hd. }
  rewrite Hm0, Hd0. rewrite Htag.
  unfold JUDY_radix, JUDY_span.
  destruct (Z.eqb_spec t 0) as [?|_]; [lia|]. destruct (Z.eqb_spec t 7) as [?|_]; [lia|].
  change (negb (1 =? 0)) with true. cbv iota.
  change (JUDY_key_size - Z.land 0 JUDY_key_mask) with 8.
  change (8 + 8) with 16.
  change (u32 (Z.lor 0 JUDY_key_mask + 1)) with 8. change (u32 (0 + 1)) with 1.
  rewrite (JudySize_lin cfg t Ht), <- Hcnt.
  assert (Hdiv : 16 * cnt / 16 = cnt) by (rewrite Z.mul_comm; apply Z.div_mul; lia).
  rewrite Hdiv, Hbase. fold value. rewrite Hscan. cbv iota.
  rewrite Z.eqb_refl.
  set (J := set_frame_slot slot _).
  assert (HdJ : depth J = 1).
  { unfold J, push_level. destruct (level j0 <? max j0); exact Hd. }
  unfold is_leaf_value. rewrite HdJ. reflexivity.
Qed.

(** the cursor [judy_slot] and [judy_cell] leave on the root node *)
Lemma root_cursor slot r j :
  1 <= max j ->
  let J := set_frame_slot slot
             (set_frame_off 0 (set_frame_next r (push_level (set_level 0 j)))) in
  level J = 1 /\ frame J 1 = mkFrame r 0 slot.
Proof.
  intros Hmax J. unfold J, push_level. cbn [level set_level max].
  destruct (Z.ltb_spec 0 (max j)); [|lia].
  unfold set_frame_slot, set_frame_off, set_frame_next, frame.
  cbn [level stack set_stack set_level]. split; [reflexivity|].
  rewrite !lookup_insert_eq. reflexivity.
Qed.

(** one turn of [judy_del] on a linear node of 8-byte keys *)
Lemma del_turn_lin cfg fuel j r t b cnt s :
  fr_next (frame j (level j)) = r -> fr_off (frame j (level j)) = 0 ->
  fr_slot (frame j (level j)) = s ->
  tag_of r = t -> base_of r = b -> 1 <= t <= 6 -> cnt = 2 ^ (t - 1) ->
  let m' := memset0 8 (store64 (del_shift fuel (mem j) b (b + 16 * cnt) 8 s)
                         (b + 16 * cnt - 8) 0) b in
  judy_del_turn cfg fuel j
  = if negb (load64 m' (b + 16 * cnt - 8 * cnt) =? 0) then
      let '(p, j') := judy_prv cfg fuel (set_frame_slot (s + 1) (set_mem m' j)) in
      Return p j'
    else Continue tt (pop_level (judy_free cfg b t (set_mem m' j))).
Proof.
  intros Hn Ho Hs Htag Hbase Ht Hcnt m'.
  unfold judy_del_turn. rewrite Hn, Ho, Hs, Htag.
  unfold JUDY_radix, JUDY_span.
  destruct (Z.eqb_spec t 0) as [?|_]; [lia|]. destruct (Z.eqb_spec t 7) as [?|_]; [lia|].
  change (JUDY_key_size - Z.land (s32 0) JUDY_key_mask) with 8.
  change (8 + 8) with 16. change (Z.to_nat 8) with 8%nat.
  rewrite (JudySize_lin cfg t Ht), <- Hcnt.
  assert (Hdiv : 16 * cnt / 16 = cnt) by (rewrite Z.mul_comm; apply Z.div_mul; lia).
  rewrite Hdiv, Hbase. fold m'. cbn [mem set_mem].
  change (frame (set_mem m' j) (level (set_mem m' j))) with (frame j (level j)).
  rewrite Hs. reflexivity.
Qed.

Lemma judy_del_S cfg fuel j :
  judy_del cfg fuel j
  = if level j =? 0 then (0, set_mem (store64 (mem j) (root j) 0) j)
    else match judy_del_turn cfg fuel j with
         | Return p j' => (p, j')
         | Continue _ j' => judy_del_loop cfg fuel fuel j'
         end.
Proof. reflexivity. Qed.

Lemma del_loop_done cfg k fuel j :
  level j = 0 ->
  judy_del_loop cfg (S k) fuel j = (0, set_mem (store64 (mem j) (root j) 0) j).
Proof. intros H. cbn [judy_del_loop]. rewrite H. reflexivity. Qed.

Lemma entries_after (l1 l2 : list (list Z * Z)) e :
  entries_ok (l1 ++ e :: l2) ->
  Forall (fun x => kval e < kval x) l2 /\ entries_ok (l1 ++ l2) /\
  Forall (fun x => kval x < kval e) l1.
Proof.
  intros Hes. pose proof (entries_num _ Hes) as Hnum. destruct Hes as [Hok _].
  apply sorted_app in Hnum. destruct Hnum as (Hs1 & Hs2 & H12).
  apply StronglySorted_inv in Hs2. destruct Hs2 as [Hs2 Hall].
  split; [exact Hall|]. split.
  - apply num_entries.
    + apply Forall_app in Hok. destruct Hok as [Hok1 Hok2].
      apply Forall_app. split; [exact Hok1|]. apply Forall_inv_tail in Hok2. exact Hok2.
    + apply sorted_app. split; [exact Hs1|]. split; [exact Hs2|].
      intros x y Hx Hy. apply H12; [exact Hx|right; exact Hy].
  - rewrite List.Forall_forall. intros x Hx. apply H12; [exact Hx|left; reflexivity].
Qed.

(** [judy_slot] on a key of the node followed by [judy_del]: the entry
    of the key is gone, the other entries stay *)
Lemma delete_step N cfg fuel a H0 t l1 l2 v0 j buff :
  arena_fits a H0 -> one_node a H0 t (l1 ++ (rev buff, v0) :: l2) j ->
  length buff = 8%nat -> bytes buff -> (32 <= fuel)%nat -> (1 <= N)%nat ->
  0 < JUDY_span_bytes cfg -> JUDY_span_bytes cfg + 16 < 2 ^ 32 ->
  let j1 := snd (judy_slot cfg fuel buff 8 j) in
  let j2 := snd (judy_del cfg fuel j1) in
  wf_trie N cfg j2 = true /\ contents N cfg j2 = l1 ++ l2.
Proof.
  intros Hfit [Hin Hes] Hl Hb Hfuel HN Hsp Hsp2.
  destruct (entries_after l1 l2 _ Hes) as (H2 & Hes' & _).
  unfold kval at 1 in H2. cbn [fst] in H2.
  pose proof (proj1 Hes) as Hok.
  assert (Ht1 : 1 <= t).
  { pose proof Hin as (_ & _ & _ & _ & _ & Ht & Hn).
    destruct (Z.eqb_spec t 0) as [Ht0|Ht0]; [|lia].
    destruct Hn as [_ Hnil]. apply app_eq_nil in Hnil. destruct Hnil as [_ Hnil].
    discriminate. }
  destruct (arena_open a H0 t _ j Hfit Ht1 Hin Hok)
    as (Hd & Hr0 & Htag & Hbase & Ht & Hc & Hb' & Hb0 & Hb8 & Hp & Hn1 & Hrep & Hsok & Hlen).
  pose proof Hin as (_ & Hmax & Hseg & Hroot & Hreuse & _ & _).
  pose proof Hfit as (Ha & H8 & HH & Htop).
  set (cnt := 2 ^ (t - 1)) in *. set (b := a + H0 - 16 * (2 ^ t - 1)) in *.
  set (es := l1 ++ (rev buff, v0) :: l2) in *.
  set (p := (Z.to_nat cnt - length es)%nat) in *.
  assert (Hlen_es : Z.of_nat (length es) = Z.of_nat (length l1) + 1 + Z.of_nat (length l2)).
  { unfold es. rewrite List.length_app. cbn [length]. lia. }
  assert (Hws : repeat free_slot p ++ es
                = (repeat free_slot p ++ l1) ++ (rev buff, v0) :: l2).
  { unfold es. rewrite List.app_assoc. reflexivity. }
  destruct (src_get_int buff Hl Hb) as [Hval _].
  pose proof (scan_node_le (mem j) b (repeat free_slot p ++ l1) (rev buff, v0) l2
                (be_val (rev buff)) 0) as Hscan.
  rewrite <- Hws in Hscan. specialize (Hscan Hrep Hsok ltac:(unfold kval; cbn [fst]; lia) H2).
  cbv zeta in Hscan. rewrite Hlen in Hscan. unfold kval in Hscan at 1. cbn [fst] in Hscan.
  rewrite <- Hval in Hscan at 1 2.
  rewrite List.length_app, repeat_length, Nat2Z.inj_add in Hscan.
  set (s := Z.of_nat p + Z.of_nat (length l1)) in *.
  destruct fuel as [|f]; [lia|].
  rewrite (slot_root_found cfg f buff 8 j t b cnt s Hd Hr0 Htag Hbase Ht eq_refl Hscan).
  cbn [snd].
  set (J := set_frame_slot s _).
  destruct (root_cursor s (root_slot j) j ltac:(lia)) as [HlJ HfJ]. fold J in HlJ, HfJ.
  destruct (store_parts j J (store_cursor _ _ j)) as (S1 & S2 & S3 & S4 & S5 & S6).
  rewrite judy_del_S. rewrite HlJ. cbn [Z.eqb].
  rewrite (del_turn_lin cfg (S f) J (root_slot j) t b cnt s)
    by (try rewrite HlJ, HfJ; try reflexivity; assumption).
  rewrite S4.
  pose proof (node_delete (mem j) b (repeat free_slot p ++ l1) (rev buff, v0) l2 (S f)) as Hnd.
  rewrite <- Hws in Hnd. specialize (Hnd Hrep Hsok).
  rewrite List.length_app, repeat_length in Hnd. specialize (Hnd ltac:(lia)).
  cbv zeta in Hnd. rewrite Hlen in Hnd. rewrite Nat2Z.inj_add in Hnd. fold s in Hnd.
  set (m' := memset0 8 _ b) in *.
  destruct Hnd as [Hrep' Hframe].
  assert (Hw' : free_slot :: (repeat free_slot p ++ l1) ++ l2
                = repeat free_slot (S p) ++ l1 ++ l2).
  { cbn [repeat app]. rewrite <- List.app_assoc. reflexivity. }
  rewrite Hw' in Hrep'.
  assert (Hlen' : Z.of_nat (length (repeat free_slot (S p) ++ l1 ++ l2)) = cnt).
  { rewrite !List.length_app, repeat_length. lia. }
  assert (Htop' : load64 m' (b + 16 * cnt - 8 * cnt)
                  = snd (nth (Z.to_nat (cnt - 1)) (repeat free_slot (S p) ++ l1 ++ l2)
                           free_slot)).
  { destruct (Hrep' (Z.to_nat (cnt - 1)) ltac:(lia)) as [_ Hc0].
    rewrite Hlen' in Hc0. rewrite <- Hc0. f_equal. lia. }
  rewrite Htop'.
  destruct (Nat.eq_dec (length (l1 ++ l2)) 0%nat) as [Hempty|Hne].
  - (* the node is left empty and given back *)
    apply length_zero_iff_nil in Hempty. rewrite Hempty in *.
    rewrite List.app_nil_r in Htop' |- *.
    rewrite nth_repeat. change (snd free_slot) with 0. cbn [Z.eqb negb]. cbv iota.
    set (X := pop_level _).
    assert (HlX : level X = 0).
    { unfold X, pop_level. cbn [level set_level]. unfold judy_free.
      cbn [level reuse_set set_reuse set_mem]. rewrite HlJ. reflexivity. }
    rewrite (del_loop_done cfg f (S f) X HlX). cbn [snd].
    assert (HdX : depth X = 1).
    { unfold X. rewrite (store_depth _ _ (store_pop_level _)).
      unfold judy_free. cbn [depth reuse_set set_reuse set_mem]. rewrite S6. exact Hd. }
    unfold wf_trie, contents, all_keys, root_slot. cbn [mem root set_mem depth].
    rewrite HdX. rewrite load64_store64 by lia.
    split; [reflexivity|]. rewrite keys_root_empty. reflexivity.
  - (* entries are left *)
    assert (Hnz : snd (nth (Z.to_nat (cnt - 1)) (repeat free_slot (S p) ++ l1 ++ l2)
                         free_slot) <> 0).
    { rewrite app_nth2 by (rewrite repeat_length; rewrite List.length_app in *; lia).
      rewrite repeat_length.
      destruct Hes' as [Hok' _]. rewrite List.Forall_forall in Hok'.
      destruct (Hok' (nth (Z.to_nat (cnt - 1) - S p) (l1 ++ l2) free_slot)) as (_ & _ & Hv).
      { apply nth_In. rewrite List.length_app in *. lia. }
      lia. }
    destruct (Z.eqb_spec (snd (nth (Z.to_nat (cnt - 1)) (repeat free_slot (S p) ++ l1 ++ l2)
                                 free_slot)) 0) as [?|_]; [congruence|].
    cbn [negb].
    destruct (judy_prv cfg (S f) (set_frame_slot (s + 1) (set_mem m' J))) as [q jq] eqn:Hprv.
    cbn [snd].
    pose proof (judy_prv_store cfg (S f) (set_frame_slot (s + 1) (set_mem m' J))) as Hst.
    rewrite Hprv in Hst. cbn [snd] in Hst. rewrite store_set_frame_slot in Hst.
    apply (one_node_view N cfg a H0 t (l1 ++ l2) jq Hfit); try assumption.
    split; [|exact Hes'].
    apply (store_node_in_arena a H0 t _ (set_mem m' J) jq Hst).
    apply (node_set_mem a H0 t es _ j J m' Hfit Ht1 (store_cursor _ _ j) Hin).
    + fold cnt. fold b. exact Hframe.
    + lia.
    + fold cnt. rewrite List.length_app in *. lia.
    + fold cnt. fold b.
      replace (Z.to_nat cnt - length (l1 ++ l2))%nat with (S p)
        by (rewrite List.length_app in *; lia).
      exact Hrep'.
Qed.

Lemma filter_all {A : Type} (P : A -> bool) l :
  Forall (fun x => P x = true) l -> List.filter P l = l.
Proof.
  induction 1 as [|x l Hx Hl IH]; [reflexivity|].
  cbn [List.filter]. rewrite Hx, IH. reflexivity.
Qed.

Lemma remove_entry_at K v0 l1 l2 :
  length K = 8%nat -> bytes K ->
  Forall entry_ok l1 -> Forall entry_ok l2 ->
  Forall (fun e => kval e < be_val K) l1 ->
  Forall (fun e => be_val K < kval e) l2 ->
  remove_entry K (l1 ++ (K, v0) :: l2) = l1 ++ l2.
Proof.
  intros Hl Hb Hok1 Hok2 H1 H2. unfold remove_entry.
  rewrite List.filter_app. cbn [List.filter fst]. rewrite lex_lt_irrefl. cbn [orb].
  rewrite !filter_all; [reflexivity| |].
  - rewrite List.Forall_forall in *. intros e He.
    destruct (lex_num K e Hl Hb (entry_key_ok _ (Hok2 e He))) as [E1 _].
    rewrite E1. specialize (H2 e He). cbv beta in H2.
    destruct (Z.ltb_spec (be_val K) (kval e)); [apply orb_true_r|lia].
  - rewrite List.Forall_forall in *. intros e He.
    destruct (lex_num K e Hl Hb (entry_key_ok _ (Hok1 e He))) as [_ E2].
    rewrite E2. specialize (H1 e He). cbv beta in H1.
    destruct (Z.ltb_spec (kval e) (be_val K)); [reflexivity|lia].
Qed.

(** X23: deletion from an integer array of depth 1 whose keys fit one
    linear node.  After a list of pairs with at most 32 different keys
    was stored in a freshly opened array, [judy_slot] called with one of
    the keys followed by [judy_del] leaves a well-formed trie whose keys
    and values are those of the association list without that key: the
    slots below the deleted one move up within the node, and the node is
    given back and the root slot cleared when no entry is left. *)
Theorem int_delete_removes_key N cfg fuel a h m kmax kvs j buff :
  0 < JUDY_span_bytes cfg < 2 ^ 16 ->
  judy_open (a :: h) m kmax 1 = Some j ->
  0 <= a -> a + JUDY_seg <= 2 ^ 64 ->
  Forall (fun kv => length (fst kv) = 8%nat /\ bytes (fst kv) /\ 0 < snd kv < 2 ^ 64) kvs ->
  let model := fold_left (fun l kv => put_entry (key_of j (fst kv)) (snd kv) l) kvs [] in
  (length model <= 32)%nat ->
  length buff = 8%nat -> bytes buff -> In (key_of j buff) (List.map fst model) ->
  (1 <= N)%nat -> (32 <= fuel)%nat ->
  let j1 := snd (judy_slot cfg fuel buff 8 (insert_all cfg kvs j)) in
  let j2 := snd (judy_del cfg fuel j1) in
  wf_trie N cfg j2 = true /\
  contents N cfg j2 = remove_entry (key_of j buff) model.
Proof.
  intros Hsp Hopen Ha Htop Hkvs model Hlen Hl Hb Hin HN Hfuel j1 j2.
  destruct (open_int a h m kmax j Hopen Ha Htop) as (H0 & Hfit & Hone & Hd).
  destruct (insert_all_spec cfg a H0 (key_of j) kvs 0 [] j Hfit Hone
              ltac:(intros b' Hl'; apply key_of_int; assumption) Hkvs Hlen)
    as (t' & Hone').
  fold model in Hone'.
  rewrite (key_of_int j buff Hd Hl) in Hin |- *.
  set (K := rev buff) in *.
  assert (HlK : length K = 8%nat) by (unfold K; rewrite length_rev; exact Hl).
  assert (HbK : bytes K) by (apply bytes_rev; exact Hb).
  pose proof (proj2 Hone') as Hes.
  destruct (entries_find K model Hes HlK HbK) as (l1 & l2 & H1 & H2 & Hcase).
  destruct Hcase as [Habs|[v0 Hpre]].
  { exfalso. rewrite Habs in Hin. apply in_map_iff in Hin. destruct Hin as (e & He & Hin).
    rewrite List.Forall_forall in H1, H2. apply in_app_or in Hin.
    destruct Hin as [Hin|Hin]; [specialize (H1 e Hin)|specialize (H2 e Hin)];
      cbv beta in *; unfold kval in *; rewrite He in *; lia. }
  rewrite Hpre in Hone' |- *.
  pose proof (proj1 (proj2 Hone')) as Hok.
  apply Forall_app in Hok. destruct Hok as [Hok1 Hok2]. apply Forall_inv_tail in Hok2.
  rewrite (remove_entry_at K v0 l1 l2 HlK HbK Hok1 Hok2 H1 H2).
  apply (delete_step N cfg fuel a H0 t' l1 l2 v0 _ buff Hfit Hone' Hl Hb Hfuel HN); lia.
Qed.

Lemma int_delete_removes_key_witness :
  let kvs := [([2; 0; 0; 0; 0; 0; 0; 0], 20); ([1; 0; 0; 0; 0; 0; 0; 0], 10);
              ([3; 0; 0; 0; 0; 0; 0; 0], 30)] in
  let buff := [2; 0; 0; 0; 0; 0; 0; 0] in
  let j := opened [65536] 0 1 in
  let model := fold_left (fun l kv => put_entry (key_of j (fst kv)) (snd kv) l) kvs [] in
  (judy_open [65536] ∅ 0 1 = Some j /\
   Forall (fun kv => length (fst kv) = 8%nat /\ bytes (fst kv) /\ 0 < snd kv < 2 ^ 64) kvs /\
   (length model <= 32)%nat /\ In (key_of j buff) (List.map fst model)) /\
  let j1 := snd (judy_slot cfg_lp64 64 buff 8 (insert_all cfg_lp64 kvs j)) in
  let j2 := snd (judy_del cfg_lp64 64 j1) in
  wf_trie 1 cfg_lp64 j2 = true /\
  contents 1 cfg_lp64 j2 = remove_entry (key_of j buff) model.
Proof.
  intros kvs buff j model.
  assert (Ho : judy_open [65536] ∅ 0 1 = Some j) by reflexivity.
  assert (Hk : Forall (fun kv => length (fst kv) = 8%nat /\ bytes (fst kv)
                                 /\ 0 < snd kv < 2 ^ 64) kvs).
  { repeat constructor; cbn; lia. }
  assert (Hl : (length model <= 32)%nat) by (vm_compute; lia).
  assert (Hi : In (key_of j buff) (List.map fst model)).
  { vm_compute. right. left. reflexivity. }
  split; [exact (conj Ho (conj Hk (conj Hl Hi)))|].
  assert (H1 : 0 < JUDY_span_bytes cfg_lp64 < 2 ^ 16) by (cbn; lia).
  assert (H2 : 0 <= 65536) by lia.
  assert (H3 : 65536 + JUDY_seg <= 2 ^ 64) by (vm_compute; discriminate).
  assert (H4 : length buff = 8%nat) by reflexivity.
  assert (H5 : bytes buff) by reflexivity.
  assert (H6 : (1 <= 1)%nat) by lia.
  assert (H7 : (32 <= 64)%nat) by lia.
  exact (int_delete_removes_key 1 cfg_lp64 64 65536 [] ∅ 0 kvs j buff
           H1 Ho H2 H3 Hk Hl H4 H5 Hi H6 H7).
Defined.
